(* ===== verification/_CoqProject ===== *)
-Q . S2P
Prelude.v
VectorClock.v
Versioning.v
GoLib.v
HashRing.v
Json.v
Memtable.v
Wal.v
WalLog.v
Manifest.v
Sstable.v
Compaction.v
Engine.v
EngineSteps.v
EngineSafety.v
Datastore.v
EnginePersister.v
Hints.v
Coordinate.v
Sha256.v
Merkle.v
MerkleText.v
AntiEntropy.v
Quote.v
Fsutil.v
Membership.v
Heartbeat.v
Handoff.v
GoStrings.v
Planner.v
Operator.v
Progress.v
ChaosPredict.v
ChaosCheck.v
Identity.v
Config.v
Admin.v
Drain.v
Observe.v
Lifecycle.v
Wire.v
Render.v
Reconcile.v
Rounds.v
CommitQueue.v
JsonLines.v
Recorder.v
ReadbackRun.v
Capture.v
Stats.v
