(* ===== verification/Prelude.v ===== *)
(** * A verification of the distributed key-value store

    The program is a Dynamo-style key-value store written in Go: every node
    stores versioned items in an LSM engine, a client's request is coordinated
    by any node over the replicas a consistent-hash ring gives, concurrent
    versions are kept as siblings told apart by vector clocks, and replicas are
    brought together by hinted handoff, anti-entropy and handoff on membership
    changes.  A Kubernetes operator scales such a cluster, and a chaos tool
    predicts and checks what a fault does to it.

    ** The parts and how they fit

    Each file models the sources named beside it (paths under src/), keeps
    their names, and has one definition per function of the source.

    Shared ground.
    - [Prelude]: results of fallible code, machine integers, generic lemmas.
    - [GoLib], [GoStrings], [Quote], [Sha256], [Json]: what the program uses of
      Go's standard library.  Strings and sorting, FNV-1a, CRC-32, SHA-256,
      [strconv.Quote] are computed; [encoding/json] is a class of codecs with
      its round trip as law.

    Data and versions.
    - [VectorClock]: internal/vectorclock.
    - [Versioning]: internal/model, internal/versioning.
    - [HashRing]: internal/hashring.

    Storage, from the bytes up (internal/storage).
    - [Memtable], [Wal], [WalLog], [Manifest], [Sstable], [Compaction]: the
      packages of these names; [Fsutil]: fsutil.
    - [Engine]: engine/engine.go and write.go, every operation as a function of
      the outcomes the disk gives it.
    - [EngineSteps]: commits of puts and restores, swaps, flush stages,
      compaction halves, crashes and recovery as one step relation with its
      invariant; [EngineSafety]: what that invariant gives the callers.
    - [CommitQueue]: write.go's writers, committer and closeWrites around the
      channel between them, as one step relation over [Engine]'s commit.
    - [Datastore]: internal/store, against the class [Persister] with the laws
      [PersisterSpec]; [EnginePersister]: the engine discharges these laws.
    - [Identity]: internal/identity, over [Fsutil].

    A node (internal/node, internal/rpc, internal/app, internal/config).
    - [Hints]: internal/hints and node/hintdelivery.go, against [Persister];
      hints may be added between the steps of a delivery round.
    - [Coordinate]: node/coordinate.go, and the replica's side in rpc/server.go.
    - [Merkle], [AntiEntropy]: internal/merkle, node/antientropy.go;
      [MerkleText]: what equal texts of buckets say about their contents;
      [Rounds]: the rounds over all peers.
    - [Membership]: node/view.go, membership.go, clients.go, over [Fsutil].
    - [Heartbeat]: node/heartbeat.go, peers.go; the cluster's gossip as steps.
    - [Handoff]: node/handoff.go.
    - [Drain]: nodes with handoffs, pings and restarts as one step relation.
    - [Admin]: app/admin.go with the waits of node/handoff.go and peers.go, and
      the client operator/internal/kvadmin.
    - [Wire]: rpc/convert.go, client.go, server.go, client_service.go,
      membership.go.
    - [Stats]: the peers and the halt in node/stats.go.
    - [Config]: config/config.go and the membership part of app.openNode.
    - [Lifecycle]: node/loops.go, node.Close, app.Run.

    The operator (operator/internal).
    - [Planner]: planner/planner.go, and the names and checks of render/render.go.
    - [Operator]: controller's execute, and the cluster that moves on its own;
      [Progress]: that the two reach what the spec asks for.
    - [Observe]: controller/observe.go and render/parse.go; what is observed
      through [Admin] of a cluster of [Drain] is what [Operator] assumes.
    - [Render]: the objects of render/render.go, and the ConfigMap's text with
      what the operator and the nodes ([Config]) read of it.
    - [Reconcile]: controller's Reconcile from end to end and status.go, over
      [Observe], [Planner], [Render]; one step of [Operator].

    The chaos tool (internal/chaos).
    - [ChaosPredict]: topology.go, predict.go, on the ring of [HashRing].
    - [ChaosCheck]: check.go, and the records of record.go and readback.go.
    - [Recorder], [ReadbackRun]: record.go and readback.go, their goroutines
      and channels as step relations; [JsonLines]: the files they write.
    - [Capture]: topology.go's BuildTopology, from what [Admin]'s handler
      answers and [Render]'s ConfigMap.

    ** What the theorems show

    - Versions: [CompareSnapshots] decides the causal order; folding [Resolve]
      keeps exactly the maximal versions; a clock built from a context is after
      it, exactly when no counter wraps at 2^32.
    - Storage: logs, manifests and tables read back what was written, also
      after a crash at any byte; a commit applies its batch or nothing;
      background work changes no read, whatever the disk answers; an
      acknowledged write is read by every later read, until a restore of its
      key is requested, in the engine and in the data store above it, through
      any run with crashes that leave the manifest intact (none of its writes
      since the last [Open] torn or not synced, but for a line the crash cuts
      off; the code goes on after such a write, and a later [Open] may fail).
      The engine refines the persister's contract, restores included.  Group
      commit commits every accepted write once and in order, no writer waits
      for ever, and closing loses none.
    - Placement: the ring does not depend on the order of joins, collisions of
      its hash included; a new member takes primaries only to itself, and
      leaves the order of the others alone if it takes over no position.
    - Replication: a write succeeds exactly when W acknowledgements arrive, and
      a read quorum sees it when R + W > N and no replica was asked to roll its
      key back; a delivery round, with hints added meanwhile, retires only what
      the union of the accepted clocks covers; trees differ exactly in the
      buckets that do, or SHA-256 collides; a round of anti-entropy makes two
      replicas agree, and two rounds of one node bring every version to all its
      peers, where SHA-256 does not collide and the hashed texts are
      unambiguous.
    - Membership: a view comes from a membership that was posted for its epoch
      and stays the same at that epoch, and a second one for the epoch is
      refused and noted; an announced view survives crashes, a handoff delivers
      to every new owner or leaves a hint or a marker, "drained" is true of the
      cluster and stays true.
    - Operator: it removes no pod that has not drained, starts no change before
      the last one settled, is never in a state it cannot explain, and the spec
      can be reached from wherever it is; what it observes of running nodes was
      so during the observation, and epochs from then on, and a reconcile, with its failures, is one step of it with a true status; what
      it renders is what it and the pods read, and scaling rolls no pod.
    - Edges: what crosses gRPC, HTTP (within the limits on sizes) and
      configuration arrives as it was meant, and shutting down closes nothing under running work.
    - Chaos tool: predictions and verdicts are exact in terms of the quorum
      rules and of the records; a topology is captured exactly of a healthy and
      settled cluster, with its ring; the records are the requests that were
      sent, and a run that is told to stop returns.

    ** Conventions, bounds and fuel

    - Effects are explicit.  A system call's outcome, an answer of the network,
      the order of arrivals, random bytes and the clock are arguments; state
      machines are inductive step relations over the operations, and invariants
      go by induction on them.
    - Third-party packages (google/btree, bits-and-blooms/bloom, go.yaml.in,
      Kubernetes' conditions) and [encoding/json] are classes with their documented laws, each with an
      instance that shows that the laws can hold.
    - A disk keeps, of each file, what a reader sees and what a crash may leave:
      bytes written but not synced may be lost or torn, and an unsynced rename
      or removal may be undone.
    - Integers have their width where it matters: [uint32] counters and ring
      positions and [uint64] epochs wrap; lengths in files are those of the
      format.  The operator's runs ask for room under 2^64 for the epochs they
      still allocate (2^64 - 3 in [Operator], and 2^32 more steps in
      [Progress], where replicas are an [int32]); handoff generations in
      [Drain] stay under 2^64 by hypothesis.  JSON numbers carry epochs and
      Go's [int] exactly ([node_fits] in [Admin]).
    - Recursion is structural or on a list of inputs.  The walks and parsers
      with fuel take the length of what they walk, and the theorems about them
      hold at that fuel.  [WaitHandoff] and [WaitDrained] run on the looks they
      take at the node, in their order, with [None] for a wait that has not
      returned by then; the number of looks is fuel enough ([drain_loop_fuel]).
    - Mutexes are left out where they make a method one step; where a lock is
      released in between, the model has several steps.
    - [time.Time] is [Z] in nanoseconds, with [zero_time] for Go's zero value.

    ** Not modelled

    - The gRPC listener, dialling and keepalive, TLS and HTTP sockets: the
      network is the answers it gives, and what stops a listener is inside
      gRPC.
    - Telemetry: counters that decide nothing, copied into metrics.
    - The commands' flag parsing and wiring.
    - The texts of log lines, errors and human-readable conditions; reasons,
      phases and status codes are kept.
    - Kubernetes itself: objects are the fields that are read or set, the API
      server is the answers it gives, and its controllers are the steps of
      [Operator]; the registration of watches.
    - The chaos tool's reports as text, [Share] and [Summarize] (floating
      point), and the text of a saved topology's durations.
    - Timings: intervals, backoff and timeouts decide when a step happens, and
      the steps may happen at any time.
    - Generated code, test helpers. *)

From stdpp Require Import gmap strings list sorting pretty.
From Stdlib Require Import ZArith Lia.

(** ** Results of fallible Go code *)

(** A Go function that returns [(T, error)]: [Ok v] for [(v, nil)], [Err e] for
    a non-nil error. *)
Inductive res (E A : Type) : Type :=
  | Ok (a : A)
  | Err (e : E).
Arguments Ok {E A} a.
Arguments Err {E A} e.

Definition res_bind {E A B} (m : res E A) (f : A → res E B) : res E B :=
  match m with
  | Ok a => f a
  | Err e => Err e
  end.

Declare Scope go_scope.
Delimit Scope go_scope with go.
Notation "x ←? m ; k" := (res_bind m (λ x, k))
  (at level 20, m at level 100, k at level 200, right associativity) : go_scope.
Notation "' p ←? m ; k" := (res_bind m (λ x, let p := x in k))
  (at level 20, p pattern, m at level 100, k at level 200, right associativity) : go_scope.
Open Scope go_scope.

(** [for _, x := range l { ...; if err { return err } }] collecting results. *)
Fixpoint res_map {E A B} (f : A → res E B) (l : list A) : res E (list B) :=
  match l with
  | [] => Ok []
  | x :: l' => y ←? f x; ys ←? res_map f l'; Ok (y :: ys)
  end.

(** ** Machine integers *)

(** Unsigned integers are [N]: Go's [uint32] and [uint64] arithmetic wraps
    around modulo the width. *)
Definition two32 : N := 4294967296.
Definition two64 : N := 18446744073709551616.
Definition u32 (z : N) : N := (z mod two32)%N.
Definition u64 (z : N) : N := (z mod two64)%N.

Lemma u32_range z : (u32 z < two32)%N.
Proof. apply N.mod_lt. done. Qed.

Lemma u32_small z : (z < two32)%N → u32 z = z.
Proof. apply N.mod_small. Qed.

Lemma u64_small z : (z < two64)%N → u64 z = z.
Proof. apply N.mod_small. Qed.

(** ** Automation *)

Create HintDb kv.
Create Rewrite HintDb kv.

(** Closes the leaves of a case analysis: arithmetic, contradiction, hints. *)
Ltac kv_done := try done; try lia; eauto with kv.

(** Destructs the scrutinee of every [match] and [if] of the goal, keeping the
    equation, and simplifies. *)
Ltac kv_case :=
  repeat (case_match; simplify_eq/=; kv_done).

(** Turns boolean facts in the context into propositions. *)
Ltac kv_bool :=
  repeat match goal with
  | H : (_ && _) = true |- _ => apply andb_true_iff in H; destruct H
  | H : (_ || _) = false |- _ => apply orb_false_iff in H; destruct H
  | H : negb _ = true |- _ => apply negb_true_iff in H
  | H : negb _ = false |- _ => apply negb_false_iff in H
  | H : bool_decide _ = true |- _ => apply bool_decide_eq_true in H
  | H : bool_decide _ = false |- _ => apply bool_decide_eq_false in H
  end.

(** ** Lists *)

Section lists.
Context {A B : Type}.

Lemma existsb_spec (f : A → bool) l :
  existsb f l = true ↔ ∃ x, x ∈ l ∧ f x = true.
Proof. rewrite existsb_exists. setoid_rewrite list_elem_of_In. done. Qed.

Lemma existsb_false (f : A → bool) l :
  existsb f l = false ↔ ∀ x, x ∈ l → f x = false.
Proof.
  rewrite <-not_true_iff_false, existsb_spec. split.
  - intros H x Hx. destruct (f x) eqn:E; [|done]. exfalso; eauto.
  - intros H (x & Hx & Hf). rewrite (H x Hx) in Hf. done.
Qed.

Lemma existsb_map (g : A → B) (f : B → bool) l :
  existsb f (map g l) = existsb (λ x, f (g x)) l.
Proof. induction l; simpl; congruence. Qed.

Lemma existsb_ext (f g : A → bool) l :
  (∀ x, x ∈ l → f x = g x) → existsb f l = existsb g l.
Proof.
  induction l as [|a l IH]; intros H; simpl; [done|].
  rewrite (H a), IH; [done|set_solver|set_solver].
Qed.
End lists.

Lemma StronglySorted_lookup_lt {A} (R : relation A) (l : list A) i j x y :
  StronglySorted R l → i < j → l !! i = Some x → l !! j = Some y → R x y.
Proof.
  intros Hs Hij Hi Hj. apply (StronglySorted_app_1_elem_of R (take j l) (drop j l)).
  - by rewrite take_drop.
  - apply list_elem_of_lookup. exists i. by rewrite lookup_take_lt.
  - apply list_elem_of_lookup. exists 0. by rewrite lookup_drop, Nat.add_0_r.
Qed.

(** Filtering by a boolean function, as Go's [for ... if ... append] does. *)
Fixpoint bfilter {A} (f : A → bool) (l : list A) : list A :=
  match l with
  | [] => []
  | x :: l' => if f x then x :: bfilter f l' else bfilter f l'
  end.

Section bfilter.
Context {A B : Type}.
Implicit Types (f g : A → bool) (l : list A).

Lemma elem_of_bfilter f l x : x ∈ bfilter f l ↔ f x = true ∧ x ∈ l.
Proof.
  induction l as [|a l IH]; simpl; [set_solver|].
  destruct (f a) eqn:E; rewrite ?elem_of_cons, IH; naive_solver congruence.
Qed.

Lemma bfilter_app f l1 l2 : bfilter f (l1 ++ l2) = bfilter f l1 ++ bfilter f l2.
Proof. induction l1 as [|a l1 IH]; simpl; [done|]. destruct (f a); simpl; by rewrite IH. Qed.

Lemma bfilter_ext f g l : (∀ x, x ∈ l → f x = g x) → bfilter f l = bfilter g l.
Proof.
  induction l as [|a l IH]; intros H; simpl; [done|].
  rewrite (H a), IH; [done|set_solver|set_solver].
Qed.

Lemma bfilter_all f l : (∀ x, x ∈ l → f x = true) → bfilter f l = l.
Proof.
  induction l as [|a l IH]; intros H; simpl; [done|].
  rewrite (H a), IH; [done|set_solver|set_solver].
Qed.

Lemma bfilter_none f l : (∀ x, x ∈ l → f x = false) → bfilter f l = [].
Proof.
  induction l as [|a l IH]; intros H; simpl; [done|].
  rewrite (H a), IH; [done|set_solver|set_solver].
Qed.

Lemma bfilter_bfilter f g l : bfilter f (bfilter g l) = bfilter (λ x, g x && f x) l.
Proof.
  induction l as [|a l IH]; simpl; [done|].
  destruct (g a); simpl; [destruct (f a)|]; by rewrite ?IH.
Qed.

Lemma bfilter_map (h : B → A) f (l : list B) :
  bfilter f (map h l) = map h (bfilter (λ x, f (h x)) l).
Proof. induction l as [|a l IH]; simpl; [done|]. destruct (f (h a)); simpl; by rewrite IH. Qed.
End bfilter.

#[export] Hint Rewrite @bfilter_app @bfilter_bfilter @bfilter_map : kv.

Lemma bfilter_length {A} (f : A → bool) l : length (bfilter f l) ≤ length l.
Proof. induction l as [|x l IH]; simpl; [lia|]. destruct (f x); simpl; lia. Qed.

Lemma bfilter_perm {A} (f : A → bool) l l' : l ≡ₚ l' → bfilter f l ≡ₚ bfilter f l'.
Proof.
  induction 1 as [|x l l' _ IH|x y l|l1 l2 l3 _ IH1 _ IH2]; simpl; [done| | |by etrans].
  - destruct (f x); [by constructor|done].
  - destruct (f x), (f y); try done. constructor.
Qed.

Lemma Forall_at {A} (P : A → Prop) l x l' : Forall P (l ++ x :: l') → P x.
Proof. rewrite Forall_app, Forall_cons. naive_solver. Qed.

Lemma Forall_replace {A} (P : A → Prop) l x y l' : Forall P (l ++ x :: l') → P y → Forall P (l ++ y :: l').
Proof. rewrite !Forall_app, !Forall_cons. naive_solver. Qed.

Lemma bfilter_sublist {A} (f : A → bool) l : bfilter f l `sublist_of` l.
Proof. induction l as [|x l IH]; simpl; [constructor|]. destruct (f x); by constructor. Qed.
