(* ===== verification/VectorClock.v ===== *)
(** * Vector clocks (internal/vectorclock/vectorclock.go)

    A clock is a finite map from writer names to [uint32] counters; a missing
    entry reads as 0, as indexing a Go map does.  The file holds the operations
    of the package and the theory of the causal order they decide. *)

From stdpp Require Import gmap strings list.
From Stdlib Require Import ZArith Lia.
From S2P Require Import Prelude.

Local Open Scope N_scope.

Inductive Relation := Equal | Before | After | Concurrent.

#[export] Instance Relation_eq_dec : EqDecision Relation.
Proof. solve_decision. Defined.

(** The struct without its mutex: every operation holds it throughout. *)
Record VectorClock := mkVC { state : gmap string N }.

Definition New : VectorClock := mkVC ∅.

(** [m[node]] on a [map[string]uint32]. *)
Definition mget (m : gmap string N) (node : string) : N := default 0 (m !! node).

Definition Increment (vc : VectorClock) (nodeID : string) : VectorClock :=
  mkVC (<[nodeID := u32 (mget (state vc) nodeID + 1)]> (state vc)).

(** [for k, v := range src { dst[k] = v }] *)
Definition copy_into (src dst : gmap string N) : gmap string N :=
  map_fold (λ k v acc, <[k := v]> acc) dst src.

Definition Snapshot (vc : VectorClock) : gmap string N := copy_into (state vc) ∅.

(** One iteration of the comparison loop over [seen]; the pair is
    [(isThisGreater, isOtherGreater)]. *)
Definition cmp_step (this other : gmap string N) (acc : bool * bool) (node : string) : bool * bool :=
  if mget other node <? mget this node then (true, acc.2)
  else if mget this node <? mget other node then (acc.1, true)
  else acc.

Definition cmp_loop (this other : gmap string N) (nodes : list string) : bool * bool :=
  fold_left (cmp_step this other) nodes (false, false).

Definition cmp_result (acc : bool * bool) : Relation :=
  match acc with
  | (true, false) => After
  | (false, true) => Before
  | (false, false) => Equal
  | (true, true) => Concurrent
  end.

Definition CompareSnapshots (this other : gmap string N) : Relation :=
  let seen : gset string := dom this ∪ dom other in
  cmp_result (cmp_loop this other (elements seen)).

Definition Compare (vc other : VectorClock) : Relation :=
  CompareSnapshots (Snapshot vc) (Snapshot other).

Definition BuildFromContext (context : gmap string N) (nodeID : string) : VectorClock :=
  Increment (mkVC (copy_into context (state New))) nodeID.

Definition FromSnapshot (st : gmap string N) : VectorClock :=
  mkVC (copy_into st (state New)).

(** ** The causal order *)

(** [a ⊑ b]: every entry of [a] is at most that of [b]. *)
Definition vle (a b : gmap string N) : Prop := ∀ n, mget a n ≤ mget b n.
Definition vlt (a b : gmap string N) : Prop := vle a b ∧ ¬ vle b a.
(** Coarser than [=]: an explicit zero entry is the same as none. *)
Definition veq (a b : gmap string N) : Prop := vle a b ∧ vle b a.

Infix "⊑c" := vle (at level 70).
Infix "⊏c" := vlt (at level 70).
Infix "≡c" := veq (at level 70).

#[export] Instance vle_preorder : PreOrder vle.
Proof.
  split.
  - intros a n. lia.
  - intros a b c Hab Hbc n. specialize (Hab n). specialize (Hbc n). lia.
Qed.

#[export] Instance veq_equivalence : Equivalence veq.
Proof.
  unfold veq. split.
  - intros a. split; reflexivity.
  - intros a b []. done.
  - intros a b c [] []. split; etrans; eassumption.
Qed.

#[export] Instance vle_proper : Proper (veq ==> veq ==> iff) vle.
Proof.
  intros a a' [Ha Ha'] b b' [Hb Hb']. split; intros H.
  - transitivity a; [done|]. transitivity b; done.
  - transitivity a'; [done|]. transitivity b'; done.
Qed.

#[export] Instance vlt_proper : Proper (veq ==> veq ==> iff) vlt.
Proof. intros a a' Ha b b' Hb. unfold vlt. by rewrite Ha, Hb. Qed.

Lemma vlt_le a b : a ⊏c b → a ⊑c b.
Proof. by intros []. Qed.

Lemma vlt_irrefl a : ¬ a ⊏c a.
Proof. intros [? H]. by apply H. Qed.

Lemma vlt_le_trans a b c : a ⊏c b → b ⊑c c → a ⊏c c.
Proof. intros [H1 H2] H. split; [by etrans|]. intros H3. apply H2. by etrans. Qed.

Lemma vle_lt_trans a b c : a ⊑c b → b ⊏c c → a ⊏c c.
Proof. intros H [H1 H2]. split; [by etrans|]. intros H3. apply H2. by etrans. Qed.

#[export] Hint Resolve vlt_le vlt_irrefl : kv.

Lemma veq_mget a b : a ≡c b ↔ ∀ n, mget a n = mget b n.
Proof.
  unfold veq, vle. split.
  - intros [H1 H2] n. specialize (H1 n). specialize (H2 n). lia.
  - intros H. split; intros n; rewrite H; lia.
Qed.

(** ** Maps as Go copies them *)

Lemma copy_into_lookup src dst n :
  copy_into src dst !! n = match src !! n with Some v => Some v | None => dst !! n end.
Proof.
  unfold copy_into. revert n.
  apply (map_fold_weak_ind (λ r src, ∀ n,
    r !! n = match src !! n with Some v => Some v | None => dst !! n end)).
  - intros n. by rewrite lookup_empty.
  - intros k v m r Hk IH n. rewrite !lookup_insert. case_decide; [done|]. apply IH.
Qed.

Lemma copy_into_empty src : copy_into src ∅ = src.
Proof.
  apply map_eq. intros n. rewrite copy_into_lookup, lookup_empty. by destruct (src !! n).
Qed.

Lemma Snapshot_state vc : Snapshot vc = state vc.
Proof. apply copy_into_empty. Qed.

Lemma FromSnapshot_state st : state (FromSnapshot st) = st.
Proof. apply copy_into_empty. Qed.

Lemma Snapshot_FromSnapshot st : Snapshot (FromSnapshot st) = st.
Proof. by rewrite Snapshot_state, FromSnapshot_state. Qed.

Lemma BuildFromContext_state ctx id :
  state (BuildFromContext ctx id) = <[id := u32 (mget ctx id + 1)]> ctx.
Proof. unfold BuildFromContext, Increment. simpl. by rewrite copy_into_empty. Qed.

Lemma mget_insert m k v n : mget (<[k := v]> m) n = if decide (k = n) then v else mget m n.
Proof. unfold mget. rewrite lookup_insert. by case_decide. Qed.

Lemma mget_not_dom m n : n ∉ dom m → mget m n = 0.
Proof. intros H. unfold mget. apply not_elem_of_dom in H. by rewrite H. Qed.

(** ** The comparison loop *)

Lemma cmp_loop_acc this other l acc :
  fold_left (cmp_step this other) l acc =
    (acc.1 || existsb (λ n, mget other n <? mget this n) l,
     acc.2 || existsb (λ n, mget this n <? mget other n) l).
Proof.
  revert acc. induction l as [|n l IH]; intros [g o]; simpl.
  - by rewrite !orb_false_r.
  - rewrite IH. unfold cmp_step.
    destruct (N.ltb_spec (mget other n) (mget this n)); simpl;
      destruct (N.ltb_spec (mget this n) (mget other n)); simpl; try lia;
      by rewrite ?orb_true_r, ?orb_false_l.
Qed.

(** What the loop computes depends only on the nodes it visits covering both
    clocks: any enumeration of [seen] decides the causal order. *)
Lemma exceeds_false_iff a b l :
  (∀ n, n ∈ dom a → n ∈ l) →
  existsb (λ n, mget b n <? mget a n) l = false ↔ a ⊑c b.
Proof.
  intros Hdom. rewrite existsb_false. split.
  - intros H n. destruct (decide (n ∈ dom a)) as [Hn|Hn].
    + specialize (H n (Hdom n Hn)). apply N.ltb_ge in H. done.
    + rewrite (mget_not_dom a n Hn). lia.
  - intros H n _. apply N.ltb_ge. apply H.
Qed.

(** A clock as the program builds them: every counter is a [uint32]. *)
Definition clock_ok (m : gmap string N) : Prop := map_Forall (λ _ v, v < two32) m.

Lemma clock_ok_mget m n : clock_ok m → mget m n < two32.
Proof.
  intros H. unfold mget. destruct (m !! n) eqn:E; simpl.
  - by apply (H n).
  - done.
Qed.

Lemma clock_ok_empty : clock_ok ∅.
Proof. apply map_Forall_empty. Qed.

Lemma clock_ok_insert m k v : v < two32 → clock_ok m → clock_ok (<[k := v]> m).
Proof. intros Hv Hm. by apply map_Forall_insert_2. Qed.

#[export] Hint Resolve clock_ok_empty clock_ok_insert u32_range : kv.

Lemma BuildFromContext_ok ctx id : clock_ok ctx → clock_ok (state (BuildFromContext ctx id)).
Proof. intros H. rewrite BuildFromContext_state. eauto with kv. Qed.

#[export] Hint Resolve BuildFromContext_ok : kv.

(** ** Deciding the order *)

Lemma cmp_loop_spec this other l :
  (∀ n, n ∈ dom this ∪ dom other → n ∈ l) →
  (cmp_result (cmp_loop this other l) = Equal ↔ this ≡c other) ∧
  (cmp_result (cmp_loop this other l) = Before ↔ this ⊏c other) ∧
  (cmp_result (cmp_loop this other l) = After ↔ other ⊏c this).
Proof.
  intros Hl. unfold cmp_loop. rewrite cmp_loop_acc. simpl.
  pose proof (exceeds_false_iff this other l) as H1.
  pose proof (exceeds_false_iff other this l) as H2.
  specialize (H1 ltac:(set_solver)). specialize (H2 ltac:(set_solver)).
  unfold veq, vlt.
  destruct (existsb (λ n, mget other n <? mget this n) l);
    destruct (existsb (λ n, mget this n <? mget other n) l); simpl; naive_solver.
Qed.

Lemma CompareSnapshots_spec a b :
  (CompareSnapshots a b = Equal ↔ a ≡c b) ∧
  (CompareSnapshots a b = Before ↔ a ⊏c b) ∧
  (CompareSnapshots a b = After ↔ b ⊏c a).
Proof. apply cmp_loop_spec. intros n. by rewrite elem_of_elements. Qed.

Lemma Compare_state a b : Compare a b = CompareSnapshots (state a) (state b).
Proof. unfold Compare. by rewrite !Snapshot_state. Qed.

Lemma Relation_exhaustive a b :
  CompareSnapshots a b = Concurrent ↔ ¬ a ⊑c b ∧ ¬ b ⊑c a.
Proof.
  destruct (CompareSnapshots_spec a b) as (HE & HB & HA).
  unfold veq, vlt in *. destruct (CompareSnapshots a b); naive_solver.
Qed.

(** The boolean tests the code's [switch]es make of a comparison. *)
Definition vltb (a b : gmap string N) : bool := bool_decide (CompareSnapshots a b = Before).
Definition veqb (a b : gmap string N) : bool := bool_decide (CompareSnapshots a b = Equal).
Definition vleb (a b : gmap string N) : bool := vltb a b || veqb a b.

Lemma vltb_spec a b : vltb a b = true ↔ a ⊏c b.
Proof. unfold vltb. rewrite bool_decide_eq_true. apply CompareSnapshots_spec. Qed.

Lemma veqb_spec a b : veqb a b = true ↔ a ≡c b.
Proof. unfold veqb. rewrite bool_decide_eq_true. apply CompareSnapshots_spec. Qed.

Lemma vle_cases a b : a ⊑c b ↔ a ⊏c b ∨ a ≡c b.
Proof.
  destruct (CompareSnapshots_spec a b) as (HE & HB & HA).
  pose proof (Relation_exhaustive a b) as HC.
  unfold veq, vlt in *. destruct (CompareSnapshots a b); naive_solver.
Qed.

Lemma vleb_spec a b : vleb a b = true ↔ a ⊑c b.
Proof. unfold vleb. by rewrite orb_true_iff, vltb_spec, veqb_spec, vle_cases. Qed.

#[export] Instance vle_dec a b : Decision (a ⊑c b).
Proof. destruct (vleb a b) eqn:E; [left|right]; rewrite <-vleb_spec; congruence. Defined.

#[export] Instance vltb_proper : Proper (veq ==> veq ==> eq) vltb.
Proof.
  intros a a' Ha b b' Hb. apply eq_true_iff_eq. by rewrite !vltb_spec, Ha, Hb.
Qed.

#[export] Instance veqb_proper : Proper (veq ==> veq ==> eq) veqb.
Proof.
  intros a a' Ha b b' Hb. apply eq_true_iff_eq. by rewrite !veqb_spec, Ha, Hb.
Qed.

Lemma insert_supersedes ctx id v : mget ctx id < v → ctx ⊏c <[id := v]> ctx.
Proof.
  intros Hv. split.
  - intros n. rewrite mget_insert. case_decide; subst; lia.
  - intros H. specialize (H id). rewrite mget_insert, decide_True in H by done. lia.
Qed.

(** ** Results *)

(** C6: [CompareSnapshots] decides the pointwise causal order, whatever order
    the Go map iteration visits the nodes in: for every enumeration [l] of the
    union of both clocks' nodes, the loop's verdict is the one
    [CompareSnapshots] returns, and the four verdicts mean pointwise equality,
    strictly before, strictly after, and incomparable (a missing entry
    counting as 0). *)
Theorem CompareSnapshots_decides_causal_order (a b : gmap string N) :
  (∀ l, list_to_set l = (dom a ∪ dom b : gset string) →
        cmp_result (cmp_loop a b l) = CompareSnapshots a b) ∧
  (CompareSnapshots a b = Equal ↔ ∀ n, mget a n = mget b n) ∧
  (CompareSnapshots a b = Before ↔ a ⊏c b) ∧
  (CompareSnapshots a b = After ↔ b ⊏c a) ∧
  (CompareSnapshots a b = Concurrent ↔ ¬ a ⊑c b ∧ ¬ b ⊑c a).
Proof.
  destruct (CompareSnapshots_spec a b) as (HE & HB & HA).
  split; [|split; [by rewrite HE, veq_mget|by auto using Relation_exhaustive]].
  intros l Hl. destruct (cmp_loop_spec a b l) as (LE & LB & LA).
  { intros n Hn. rewrite <-Hl in Hn. by apply elem_of_list_to_set in Hn. }
  destruct (cmp_result (cmp_loop a b l)), (CompareSnapshots a b); naive_solver.
Qed.

(** C27: a write built on a context supersedes it: while the writer's counter
    has not reached the last [uint32], [BuildFromContext] returns a clock
    strictly after the context and after everything the context covers; at
    the last one the counter wraps to 0 and the new clock is strictly before
    the context instead, so replicas would drop the write. *)
Theorem BuildFromContext_supersedes (ctx : gmap string N) (id : string) :
  (mget ctx id < two32 - 1 →
     ctx ⊏c state (BuildFromContext ctx id) ∧
     (∀ c, c ⊑c ctx → CompareSnapshots c (state (BuildFromContext ctx id)) = Before)) ∧
  (mget ctx id = two32 - 1 →
     CompareSnapshots ctx (state (BuildFromContext ctx id)) = After).
Proof.
  rewrite BuildFromContext_state. split.
  - intros Hlt. assert (ctx ⊏c <[id:=u32 (mget ctx id + 1)]> ctx) as Hs.
    { rewrite u32_small by lia. apply insert_supersedes. lia. }
    split; [done|]. intros c Hc.
    apply CompareSnapshots_spec. by eapply vle_lt_trans.
  - intros Heq. apply CompareSnapshots_spec. rewrite Heq.
    change (u32 (two32 - 1 + 1)) with 0. split.
    + intros n. rewrite mget_insert. case_decide; subst; lia.
    + intros H. specialize (H id). rewrite mget_insert in H.
      rewrite decide_True in H by done. unfold two32 in *. lia.
Qed.

Definition ctx_example : gmap string N := {["n1#a" := 3; "n2#b" := 1]}.

Lemma BuildFromContext_supersedes_witness :
  CompareSnapshots ctx_example (state (BuildFromContext ctx_example "n1#a")) = Before ∧
  CompareSnapshots {["n" := two32 - 1]} (state (BuildFromContext {["n" := two32 - 1]} "n")) = After.
Proof.
  split.
  - destruct (proj1 (BuildFromContext_supersedes ctx_example "n1#a")) as [_ H];
      [vm_compute; reflexivity|]. apply H. reflexivity.
  - apply (proj2 (BuildFromContext_supersedes {["n" := two32 - 1]} "n")). vm_compute. reflexivity.
Defined.
