(* ===== verification/Versioning.v ===== *)
(** * Data items and sibling resolution
    (internal/model/model.go, internal/versioning/resolve.go)

    [Resolve], [MergeSiblings] and [UnionVectorClock] as the package writes
    them, and their theory: folding versions with [Resolve] computes the
    causally maximal versions ([canon], a reference definition), so folds
    associate, layers of a store can be merged in any grouping, and replicas
    that saw the same versions hold the same siblings. *)

From stdpp Require Import gmap strings list.
From Stdlib Require Import ZArith Lia Btauto.
From S2P Require Import Prelude VectorClock.

(** ** Data items *)

(** The dynamic types an [any] holds after [encoding/json] decoded it; a
    [float64] is represented by its 64 bits. *)
Inductive value :=
  | VNil
  | VBool (b : bool)
  | VFloat64 (bits : Z)
  | VString (s : string)
  | VSlice (l : list value)
  | VMap (m : list (string * value)).

Record DataItem := mkItem {
  Value : value;
  Clock : VectorClock;
  LastUpdatedBy : string;
  IsDeleted : bool
}.

(** A [*model.DataItem]: the address and the struct behind it, which nothing
    modifies once it is built.  [==] on pointers is equality of addresses. *)
Record itemptr := mkPtr { addr : N; deref : DataItem }.

Definition ptr_eqb (p q : itemptr) : bool := (addr p =? addr q)%N.

(** What [Resolve] looks at: anything that carries a clock. *)
Class Clocked (A : Type) := clock : A → gmap string N.
#[export] Instance DataItem_clocked : Clocked DataItem := λ i, state (Clock i).
#[export] Instance itemptr_clocked : Clocked itemptr := λ p, clock (deref p).

(** A clocked value's [VectorClock.Compare]. *)
Definition compare {A} `{Clocked A} (x y : A) : Relation := CompareSnapshots (clock x) (clock y).

(** ** Operations *)

Section resolve.
Context {A : Type} `{Clocked A}.

(** The loop of [Resolve]: [(survivors, incomingSurvives)]. *)
Fixpoint resolve_loop (existing : list A) (incoming : A)
    (survivors : list A) (incomingSurvives : bool) : list A * bool :=
  match existing with
  | [] => (survivors, incomingSurvives)
  | item :: rest =>
      match compare item incoming with
      | Concurrent => resolve_loop rest incoming (survivors ++ [item]) incomingSurvives
      | After => resolve_loop rest incoming (survivors ++ [item]) false
      | Before => resolve_loop rest incoming survivors incomingSurvives
      | Equal => resolve_loop rest incoming (survivors ++ [item]) false
      end
  end.

Definition Resolve (existing : list A) (incoming : A) : list A :=
  let '(survivors, incomingSurvives) := resolve_loop existing incoming [] true in
  if incomingSurvives then survivors ++ [incoming] else survivors.

Definition MergeSiblings (a b : list A) : list A := fold_left Resolve b a.

(** [if version > union[node] { union[node] = version }] *)
Definition union_entry (node : string) (version : N) (union : gmap string N) : gmap string N :=
  if (mget union node <? version)%N then <[node := version]> union else union.

Definition UnionVectorClock (items : list A) : gmap string N :=
  fold_left (λ union item, map_fold union_entry union (clock item)) items ∅.
End resolve.

(** ** The reference: causally maximal versions *)

Section canon.
Context {A : Type} `{Clocked A}.
Implicit Types (x y : A) (l : list A).

Definition lt_b x y : bool := vltb (clock x) (clock y).
Definition eq_b x y : bool := veqb (clock x) (clock y).
Definition le_b x y : bool := vleb (clock x) (clock y).

(** The first version of each class of [Equal] clocks, [seen] excluded. *)
Fixpoint first_of_class (seen l : list A) : list A :=
  match l with
  | [] => []
  | x :: l' =>
      if existsb (eq_b x) seen then first_of_class seen l'
      else x :: first_of_class (x :: seen) l'
  end.

Definition undominated l x : bool := negb (existsb (lt_b x) l).

(** The versions of [l] that no version of [l] supersedes, the first of each
    class of [Equal] ones, in order. *)
Definition canon l : list A := first_of_class [] (bfilter (undominated l) l).

(** [c] is covered by [l]: some version of [l] is [Equal] to it or after it. *)
Definition covered (c : gmap string N) l : Prop := ∃ y, y ∈ l ∧ c ⊑c clock y.

(** A sibling set: pairwise concurrent versions. *)
Definition antichain l : Prop :=
  ForallOrdPairs (λ x y, ¬ clock x ⊑c clock y ∧ ¬ clock y ⊑c clock x) l.
End canon.

Arguments covered {A _} c l : simpl never.

(** ** [first_of_class] *)

Section first_of_class.
Context {A : Type} `{Clocked A}.
Implicit Types (x y : A) (l s : list A).

Lemma eq_b_refl x : eq_b x x = true.
Proof. apply veqb_spec. reflexivity. Qed.

(** [x]'s class is represented in [l]. *)
Definition class_in l x : bool := existsb (eq_b x) l.

Lemma class_in_spec l x : class_in l x = true ↔ ∃ y, y ∈ l ∧ clock x ≡c clock y.
Proof.
  unfold class_in. rewrite existsb_spec. unfold eq_b. by setoid_rewrite veqb_spec.
Qed.

Lemma class_in_equiv l x y : clock x ≡c clock y → class_in l x = class_in l y.
Proof. intros E. apply existsb_ext. intros z _. unfold eq_b. by rewrite E. Qed.

Lemma class_in_app l1 l2 x : class_in (l1 ++ l2) x = class_in l1 x || class_in l2 x.
Proof. apply existsb_app. Qed.

Lemma class_in_elem l x : x ∈ l → class_in l x = true.
Proof. intros Hx. apply class_in_spec. exists x. split; [done|reflexivity]. Qed.

Lemma foc_seen_ext s1 s2 l :
  (∀ x, class_in s1 x = class_in s2 x) → first_of_class s1 l = first_of_class s2 l.
Proof.
  revert s1 s2. induction l as [|x l IH]; intros s1 s2 E; simpl; [done|].
  fold (class_in s1 x) (class_in s2 x). rewrite E. destruct (class_in s2 x); [by apply IH|].
  f_equal. apply IH. intros y. unfold class_in in *. simpl. by rewrite E.
Qed.

Lemma class_in_redundant s x y :
  class_in s x = true → class_in (x :: s) y = class_in s y.
Proof.
  intros Hx. unfold class_in at 1. simpl. fold (class_in s y).
  destruct (eq_b y x) eqn:E; [|done]. simpl. apply veqb_spec in E.
  by rewrite (class_in_equiv s y x E), Hx.
Qed.

Lemma foc_app s l1 l2 :
  first_of_class s (l1 ++ l2) = first_of_class s l1 ++ first_of_class (l1 ++ s) l2.
Proof.
  revert s. induction l1 as [|x l1 IH]; intros s; simpl; [done|].
  fold (class_in s x). destruct (class_in s x) eqn:E.
  - rewrite IH. f_equal. apply foc_seen_ext. intros y. symmetry.
    apply (class_in_redundant (l1 ++ s) x y). by rewrite class_in_app, E, orb_true_r.
  - rewrite IH. simpl. f_equal. f_equal. apply foc_seen_ext. intros y.
    rewrite class_in_app. unfold class_in. simpl. fold (class_in (l1 ++ s) y).
    rewrite class_in_app. unfold class_in. btauto.
Qed.

Lemma foc_elem s l x : x ∈ first_of_class s l → x ∈ l ∧ class_in s x = false.
Proof.
  revert s. induction l as [|y l IH]; intros s; simpl; [set_solver|].
  fold (class_in s y). destruct (class_in s y) eqn:E.
  - intros [? ?]%IH. split; [set_solver|done].
  - rewrite elem_of_cons. intros [->|[Hx Hs]%IH]; [split; [set_solver|done]|].
    unfold class_in in Hs. simpl in Hs. apply orb_false_iff in Hs as [_ Hs].
    split; [set_solver|done].
Qed.

Lemma foc_class s l x :
  class_in (first_of_class s l) x || class_in s x = class_in l x || class_in s x.
Proof.
  revert s. induction l as [|y l IH]; intros s; simpl; [done|].
  fold (class_in s y). destruct (class_in s y) eqn:E.
  - rewrite IH. change (class_in (y :: l) x) with (eq_b x y || class_in l x).
    destruct (eq_b x y) eqn:Ey; [|done]. apply veqb_spec in Ey.
    rewrite (class_in_equiv s x y Ey), E. btauto.
  - change (class_in (y :: first_of_class (y :: s) l) x)
      with (eq_b x y || class_in (first_of_class (y :: s) l) x).
    specialize (IH (y :: s)). change (class_in (y :: s) x) with (eq_b x y || class_in s x) in IH.
    change (class_in (y :: l) x) with (eq_b x y || class_in l x).
    destruct (eq_b x y); simpl in *; [done|]. done.
Qed.

Lemma foc_class_nil l x : class_in (first_of_class [] l) x = class_in l x.
Proof.
  pose proof (foc_class [] l x) as E. change (class_in [] x) with false in E.
  by rewrite !orb_false_r in E.
Qed.

Lemma foc_foc s s' l :
  (∀ x, class_in s' x = true → class_in s x = true) →
  first_of_class s (first_of_class s' l) = first_of_class s l.
Proof.
  revert s s'. induction l as [|x l IH]; intros s s' Hs; simpl; [done|].
  fold (class_in s' x) (class_in s x). destruct (class_in s' x) eqn:E'.
  - rewrite (Hs _ E'). by apply IH.
  - simpl. fold (class_in s x). destruct (class_in s x) eqn:E.
    + apply IH. intros y Hy. change (class_in (x :: s') y) with (eq_b y x || class_in s' y) in Hy.
      apply orb_true_iff in Hy as [Hy|Hy]; [|by apply Hs].
      apply veqb_spec in Hy. by rewrite (class_in_equiv s y x Hy).
    + f_equal. apply IH. intros y.
      change (class_in (x :: s') y) with (eq_b y x || class_in s' y).
      change (class_in (x :: s) y) with (eq_b y x || class_in s y).
      destruct (eq_b y x); simpl; auto.
Qed.

Lemma bfilter_foc (P : A → bool) s l :
  (∀ x y, clock x ≡c clock y → P x = P y) →
  bfilter P (first_of_class s l) = first_of_class s (bfilter P l).
Proof.
  intros HP. revert s. induction l as [|x l IH]; intros s; simpl; [done|].
  fold (class_in s x). destruct (class_in s x) eqn:E.
  - rewrite IH. destruct (P x) eqn:EP; simpl; [|done]. fold (class_in s x). by rewrite E.
  - simpl. destruct (P x) eqn:EP; simpl.
    + fold (class_in s x). rewrite E. by rewrite IH.
    + rewrite IH. clear IH. revert s E. induction l as [|y l IH]; intros s E; simpl; [done|].
      destruct (P y) eqn:EPy; [|by apply IH]. simpl.
      fold (class_in s y). destruct (eq_b y x) eqn:Eyx.
      { apply veqb_spec in Eyx. rewrite (HP _ _ Eyx) in EPy. congruence. }
      simpl. destruct (class_in s y) eqn:Ey; [by apply IH|]. f_equal.
      rewrite <-(IH (y :: s)).
      * apply foc_seen_ext. intros z. unfold class_in. simpl. btauto.
      * change (class_in (y :: s) x) with (eq_b x y || class_in s x). rewrite E, orb_false_r.
        destruct (eq_b x y) eqn:Exy; [|done]. apply veqb_spec in Exy. symmetry in Exy.
        apply veqb_spec in Exy. unfold eq_b in Eyx. congruence.
Qed.
End first_of_class.

(** ** Folding with [Resolve] *)

Section resolve_theory.
Context {A : Type} `{Clocked A}.
Implicit Types (x y : A) (l a b : list A).

Lemma compare_cases x y :
  match compare x y with
  | Equal => le_b y x = true ∧ lt_b x y = false
  | Before => le_b y x = false ∧ lt_b x y = true
  | After => le_b y x = true ∧ lt_b x y = false
  | Concurrent => le_b y x = false ∧ lt_b x y = false
  end.
Proof.
  unfold compare, le_b, lt_b.
  destruct (CompareSnapshots_spec (clock x) (clock y)) as (HE & HB & HA).
  pose proof (Relation_exhaustive (clock x) (clock y)) as HC.
  unfold veq, vlt in *.
  destruct (CompareSnapshots (clock x) (clock y));
    rewrite <-!not_true_iff_false, !vleb_spec, !vltb_spec; unfold vlt; naive_solver.
Qed.

Lemma resolve_loop_alt l x s (ok : bool) :
  resolve_loop l x s ok =
    (s ++ bfilter (λ e, negb (lt_b e x)) l, ok && negb (existsb (le_b x) l)).
Proof.
  revert s ok. induction l as [|e l IH]; intros s ok; simpl.
  - by rewrite app_nil_r, andb_true_r.
  - pose proof (compare_cases e x) as Hc.
    destruct (compare e x); destruct Hc as [-> ->]; rewrite IH; simpl;
      rewrite <-?app_assoc; simpl; f_equal; btauto.
Qed.

Lemma Resolve_alt l x :
  Resolve l x =
    bfilter (λ e, negb (lt_b e x)) l ++ (if existsb (le_b x) l then [] else [x]).
Proof.
  unfold Resolve. rewrite resolve_loop_alt. simpl.
  destruct (existsb (le_b x) l); simpl; by rewrite ?app_nil_r.
Qed.

Lemma covered_le_b l x : existsb (le_b x) l = true ↔ covered (clock x) l.
Proof. rewrite existsb_spec. unfold le_b. by setoid_rewrite vleb_spec. Qed.

Lemma covered_le c c' l : c ⊑c c' → covered c' l → covered c l.
Proof. intros Hle (y & Hy & Hc). exists y. split; [done|by etrans]. Qed.

Lemma covered_app c a b : covered c (a ++ b) ↔ covered c a ∨ covered c b.
Proof. unfold covered. set_solver. Qed.

Lemma covered_nil c : ¬ covered c ([] : list A).
Proof. unfold covered. set_solver. Qed.

Lemma covered_elem l x : x ∈ l → covered (clock x) l.
Proof. intros Hx. exists x. split; [done|reflexivity]. Qed.

Lemma covered_Resolve c l x : covered c (Resolve l x) ↔ covered c l ∨ c ⊑c clock x.
Proof.
  rewrite Resolve_alt. split.
  - intros (y & Hy & Hc). rewrite elem_of_app, elem_of_bfilter in Hy.
    destruct Hy as [[_ Hy]|Hy]; [left; by exists y|].
    destruct (existsb (le_b x) l); set_solver.
  - assert (covered (clock x) (bfilter (λ e, negb (lt_b e x)) l ++
              (if existsb (le_b x) l then [] else [x]))) as Hx.
    { destruct (existsb (le_b x) l) eqn:E.
      - apply covered_le_b in E as (y & Hy & Hle). exists y. split; [|done].
        rewrite app_nil_r, elem_of_bfilter. split; [|done].
        apply negb_true_iff, not_true_iff_false. intros Hlt%vltb_spec.
        apply (vlt_irrefl (clock x)). by eapply vle_lt_trans.
      - exists x. split; [set_solver|reflexivity]. }
    intros [(y & Hy & Hc)|Hc]; [|by eapply covered_le].
    destruct (lt_b y x) eqn:E.
    + apply vltb_spec in E. eapply covered_le, Hx. transitivity (clock y); eauto with kv.
    + exists y. split; [|done]. rewrite elem_of_app, elem_of_bfilter, E. auto.
Qed.

Lemma covered_MergeSiblings c a b :
  covered c (MergeSiblings a b) ↔ covered c a ∨ covered c b.
Proof.
  unfold MergeSiblings. revert a. induction b as [|x b IH]; intros a; simpl.
  - pose proof (covered_nil c). tauto.
  - rewrite IH, covered_Resolve. change (x :: b) with ([x] ++ b). rewrite covered_app.
    assert (covered c [x] ↔ c ⊑c clock x) as -> by (unfold covered; set_solver). tauto.
Qed.

Lemma undominated_spec l x : undominated l x = true ↔ ∀ y, y ∈ l → ¬ clock x ⊏c clock y.
Proof.
  unfold undominated. rewrite negb_true_iff, existsb_false. unfold lt_b.
  split; intros Hl y Hy; specialize (Hl y Hy).
  - intros Hlt%vltb_spec. congruence.
  - apply not_true_iff_false. by rewrite vltb_spec.
Qed.

Lemma undominated_equiv l x y : clock x ≡c clock y → undominated l x = undominated l y.
Proof.
  intros E. unfold undominated. f_equal. apply existsb_ext. intros z _. unfold lt_b. by rewrite E.
Qed.

Lemma undominated_snoc l x e : undominated (l ++ [x]) e = undominated l e && negb (lt_b e x).
Proof. unfold undominated. rewrite existsb_app. simpl. btauto. Qed.

Lemma fold_Resolve_canon l : fold_left Resolve l [] = canon l.
Proof.
  induction l as [|x l IH] using rev_ind; [done|].
  rewrite fold_left_app. simpl. rewrite Resolve_alt, IH. unfold canon at 3.
  rewrite bfilter_app, foc_app. simpl. f_equal.
  - unfold canon. rewrite bfilter_foc, bfilter_bfilter.
    + f_equal. apply bfilter_ext. intros e _. by rewrite undominated_snoc.
    + intros e y E. unfold lt_b. by rewrite E.
  - assert (existsb (le_b x) (canon l) = existsb (le_b x) l) as ->.
    { apply eq_true_iff_eq. rewrite !covered_le_b, <-IH.
      change (fold_left Resolve l []) with (MergeSiblings [] l).
      rewrite covered_MergeSiblings. pose proof (covered_nil (clock x)). tauto. }
    rewrite undominated_snoc.
    assert (lt_b x x = false) as ->.
    { apply not_true_iff_false. unfold lt_b. rewrite vltb_spec. apply vlt_irrefl. }
    rewrite andb_true_r. destruct (undominated l x) eqn:Eu; simpl.
    + rewrite app_nil_r. fold (class_in (bfilter (undominated (l ++ [x])) l) x).
      assert (existsb (le_b x) l = class_in (bfilter (undominated (l ++ [x])) l) x) as ->; [|done].
      apply eq_true_iff_eq. rewrite covered_le_b, class_in_spec.
      rewrite undominated_spec in Eu. split.
      * intros (y & Hy & Hle). assert (clock x ≡c clock y) as Hxy.
        { apply vle_cases in Hle as [Hlt|]; [|done]. by destruct (Eu y Hy). }
        exists y. split; [|done]. rewrite elem_of_bfilter. split; [|done].
        rewrite <-(undominated_equiv _ _ _ Hxy). apply undominated_spec.
        intros z [Hz| ->%list_elem_of_singleton]%elem_of_app; [by apply Eu|apply vlt_irrefl].
      * intros (y & [_ Hy]%elem_of_bfilter & E). exists y. split; [done|apply E].
    + unfold undominated in Eu. apply negb_false_iff, existsb_spec in Eu as (y & Hy & Hlt).
      assert (existsb (le_b x) l = true) as ->; [|done].
      apply covered_le_b. exists y. split; [done|]. apply vltb_spec in Hlt. eauto with kv.
Qed.

Lemma covered_canon c l : covered c (canon l) ↔ covered c l.
Proof.
  rewrite <-fold_Resolve_canon. change (fold_left Resolve l []) with (MergeSiblings [] l).
  rewrite covered_MergeSiblings. pose proof (covered_nil c). tauto.
Qed.

Lemma canon_subset l x : x ∈ canon l → x ∈ l.
Proof. intros [[_ ?]%elem_of_bfilter _]%foc_elem. done. Qed.

(** Folding in a canonical set is folding in the list it came from. *)
Lemma canon_absorb a b c : canon (a ++ canon b ++ c) = canon (a ++ b ++ c).
Proof.
  assert (∀ x, undominated (a ++ canon b ++ c) x = undominated (a ++ b ++ c) x) as EU.
  { intros x. unfold undominated. f_equal. rewrite !existsb_app. f_equal. f_equal.
    apply eq_true_iff_eq. rewrite !existsb_spec. unfold lt_b. setoid_rewrite vltb_spec.
    split; intros (y & Hy & Hlt).
    - apply canon_subset in Hy. eauto.
    - apply covered_elem, covered_canon in Hy as (z & Hz & Hle). eauto using vlt_le_trans. }
  unfold canon at 1 3. rewrite !bfilter_app, !foc_app.
  rewrite (bfilter_ext _ (undominated (a ++ b ++ c)) a) by auto.
  rewrite (bfilter_ext _ (undominated (a ++ b ++ c)) c) by auto.
  rewrite (bfilter_ext _ (undominated (a ++ b ++ c)) (canon b)) by auto.
  set (U := undominated (a ++ b ++ c)).
  assert (bfilter U (canon b) = first_of_class [] (bfilter U b)) as ->.
  { unfold canon. rewrite bfilter_foc by (intros; by apply undominated_equiv).
    f_equal. rewrite bfilter_bfilter. apply bfilter_ext. intros x Hx.
    destruct (U x) eqn:EUx; [|by rewrite andb_false_r]. rewrite andb_true_r.
    subst U. rewrite undominated_spec in *. intros y Hy. apply EUx. set_solver. }
  f_equal. f_equal; [apply foc_foc; by rewrite ?app_nil_r|].
  apply foc_seen_ext. intros x. by rewrite !class_in_app, foc_class_nil.
Qed.
End resolve_theory.

(** ** Sibling sets *)

Section siblings.
Context {A : Type} `{Clocked A}.
Implicit Types (x y : A) (l a b : list A).

Lemma ForallOrdPairs_snoc (R : A → A → Prop) l x :
  ForallOrdPairs R (l ++ [x]) ↔ ForallOrdPairs R l ∧ Forall (λ y, R y x) l.
Proof.
  induction l as [|y l IH]; simpl.
  - split; [intros; split; constructor|]. intros _. repeat constructor.
  - split.
    + inversion 1 as [|? ? Hy Hl]; subst. apply IH in Hl as [Hl Hf].
      rewrite Forall_app, Forall_singleton in Hy. destruct Hy.
      split; by constructor.
    + intros [Hl Hf]. inversion Hl; subst. inversion Hf; subst. constructor.
      * apply Forall_app. split; [done|]. by constructor.
      * apply IH. done.
Qed.

Lemma antichain_bfilter (f : A → bool) l : antichain l → antichain (bfilter f l).
Proof.
  induction 1 as [|x l Hx Hl IH]; simpl; [constructor|].
  destruct (f x); [|done]. constructor; [|done].
  rewrite Forall_forall in *. intros y [_ Hy]%elem_of_bfilter. auto.
Qed.

Lemma Resolve_antichain l x : antichain l → antichain (Resolve l x).
Proof.
  intros Hl. rewrite Resolve_alt. destruct (existsb (le_b x) l) eqn:E.
  - rewrite app_nil_r. by apply antichain_bfilter.
  - apply ForallOrdPairs_snoc. split; [by apply antichain_bfilter|].
    apply Forall_forall. intros y [Hlt Hy]%elem_of_bfilter.
    apply negb_true_iff, not_true_iff_false in Hlt. unfold lt_b in Hlt. rewrite vltb_spec in Hlt.
    rewrite existsb_false in E. specialize (E y Hy). apply not_true_iff_false in E.
    unfold le_b in E. rewrite vleb_spec in E. split; [|done].
    intros Hle. apply Hlt. by split.
Qed.

Lemma MergeSiblings_antichain a b : antichain a → antichain (MergeSiblings a b).
Proof.
  unfold MergeSiblings. revert a. induction b as [|x b IH]; intros a Ha; simpl; [done|].
  by apply IH, Resolve_antichain.
Qed.

Lemma canon_is_antichain l : antichain (canon l).
Proof.
  rewrite <-fold_Resolve_canon. apply (MergeSiblings_antichain []). constructor.
Qed.

Lemma antichain_elem l x y :
  antichain l → x ∈ l → y ∈ l → clock x ⊑c clock y → x = y.
Proof.
  induction 1 as [|z l Hz Hl IH]; [set_solver|]. rewrite Forall_forall in Hz.
  rewrite !elem_of_cons. intros [->|Hx] [->|Hy] Hle; try done; [..|by apply IH].
  - by destruct (Hz _ Hy) as [? _].
  - by destruct (Hz _ Hx) as [_ ?].
Qed.

Lemma antichain_NoDup l : antichain l → NoDup l.
Proof.
  induction 1 as [|z l Hz Hl IH]; constructor; [|done].
  rewrite Forall_forall in Hz. intros Hin. destruct (Hz _ Hin) as [Hn _]. apply Hn. reflexivity.
Qed.

Lemma canon_id l : antichain l → canon l = l.
Proof.
  rewrite <-fold_Resolve_canon. induction l as [|x l IH] using rev_ind; [done|].
  intros [Hl Hf]%ForallOrdPairs_snoc. rewrite fold_left_app. simpl.
  rewrite (IH Hl), Resolve_alt. rewrite Forall_forall in Hf. f_equal.
  - apply bfilter_all. intros y Hy. apply negb_true_iff, not_true_iff_false.
    unfold lt_b. rewrite vltb_spec. intros Hlt. destruct (Hf y Hy) as [Hn _]. eauto with kv.
  - assert (existsb (le_b x) l = false) as ->; [|done].
    apply existsb_false. intros y Hy. apply not_true_iff_false. unfold le_b. rewrite vleb_spec.
    apply (Hf y Hy).
Qed.

Lemma canon_canon l : canon (canon l) = canon l.
Proof. apply canon_id, canon_is_antichain. Qed.

Lemma MergeSiblings_canon a b : antichain a → MergeSiblings a b = canon (a ++ b).
Proof.
  intros Ha. unfold MergeSiblings. rewrite <-(canon_id a Ha) at 1.
  by rewrite <-fold_Resolve_canon, <-fold_left_app, fold_Resolve_canon.
Qed.

Lemma MergeSiblings_nil b : MergeSiblings [] b = canon b.
Proof. apply fold_Resolve_canon. Qed.

(** An already covered version changes nothing. *)
(** Folding layers of sibling sets. *)
Lemma fold_layers (ls : list (list A)) m :
  fold_left MergeSiblings ls (canon m) = canon (m ++ concat ls).
Proof.
  revert m. induction ls as [|b ls IH]; intros m; simpl; [by rewrite app_nil_r|].
  rewrite MergeSiblings_canon by apply canon_is_antichain.
  pose proof (canon_absorb [] m b) as E. simpl in E. by rewrite E, IH, app_assoc.
Qed.

Lemma fold_layers_nil (ls : list (list A)) : fold_left MergeSiblings ls [] = canon (concat ls).
Proof. exact (fold_layers ls []). Qed.

Lemma Resolve_covered l x : antichain l → covered (clock x) l → Resolve l x = l.
Proof.
  intros Hl Hc. rewrite Resolve_alt. pose proof Hc as ->%covered_le_b. rewrite app_nil_r.
  apply bfilter_all. intros y Hy. apply negb_true_iff, not_true_iff_false.
  unfold lt_b. rewrite vltb_spec. intros Hlt. destruct Hc as (z & Hz & Hle).
  assert (y = z) as <-.
  { eapply antichain_elem; eauto. etrans; [|exact Hle]. eauto with kv. }
  apply (vlt_irrefl (clock x)). by eapply vle_lt_trans.
Qed.

Lemma Resolve_elem l x y : y ∈ Resolve l x → y ∈ l ∨ y = x.
Proof. rewrite Resolve_alt, elem_of_app, elem_of_bfilter. destruct (existsb (le_b x) l); set_solver. Qed.

Lemma Resolve_keeps l x y : y ∈ l → ¬ clock y ⊏c clock x → y ∈ Resolve l x.
Proof.
  intros Hy Hn. rewrite Resolve_alt, elem_of_app, elem_of_bfilter. left. split; [|done].
  apply negb_true_iff, not_true_iff_false. unfold lt_b. by rewrite vltb_spec.
Qed.

Lemma canon_foc l x : x ∈ canon l ↔ undominated l x = true ∧ x ∈ first_of_class [] l.
Proof.
  unfold canon. rewrite <-bfilter_foc, elem_of_bfilter; [done|]. intros. by apply undominated_equiv.
Qed.

Lemma class_in_cons s x y : class_in (y :: s) x = eq_b x y || class_in s x.
Proof. done. Qed.

(** The first of each class: those that nothing before them is [Equal] to. *)
Lemma foc_split s l x :
  x ∈ first_of_class s l ↔ class_in s x = false ∧ ∃ l1 l2, l = l1 ++ x :: l2 ∧ class_in l1 x = false.
Proof.
  revert s. induction l as [|y l IH]; intros s; simpl.
  { split; [set_solver|]. intros (_ & [|] & ? & ? & _); done. }
  fold (class_in s y). destruct (class_in s y) eqn:E; rewrite ?elem_of_cons, IH, ?class_in_cons.
  - split; intros (Hs & l1 & l2 & Hl & Hc).
    + split; [done|]. exists (y :: l1), l2. split; [by rewrite Hl|]. rewrite class_in_cons, Hc, orb_false_r.
      apply not_true_iff_false. intros Hxy%veqb_spec. rewrite (class_in_equiv s x y Hxy) in Hs. congruence.
    + destruct l1 as [|z l1]; injection Hl as -> ->; [congruence|]. split; [done|]. exists l1, l2.
      rewrite class_in_cons in Hc. by apply orb_false_iff in Hc as [_ ?].
  - split.
    + intros [->|((Hxy & Hs)%orb_false_iff & l1 & l2 & -> & Hc)]; [split; [done|]; by exists [], l|].
      split; [done|]. exists (y :: l1), l2. by rewrite class_in_cons, Hxy.
    + intros (Hs & [|z l1] & l2 & [= -> ->] & Hc); [by left|right].
      rewrite class_in_cons in Hc. apply orb_false_iff in Hc as [Hxy Hc]. rewrite Hxy. split; [done|eauto].
Qed.

Lemma foc_antichain l rest y : antichain l → y ∈ l → y ∈ first_of_class [] (l ++ rest).
Proof.
  intros Hl Hy. apply foc_split. split; [done|]. apply list_elem_of_split in Hy as (a1 & a2 & ->).
  exists a1, (a2 ++ rest). rewrite <-app_assoc. split; [done|].
  apply not_true_iff_false. intros (w & Hw & Ew)%class_in_spec.
  assert (y = w) as <- by (eapply antichain_elem; [exact Hl|set_solver|set_solver|apply Ew]).
  apply antichain_NoDup, NoDup_app in Hl as (_ & Hd & _). apply (Hd y Hw). set_solver.
Qed.

(** A version added at the head of the layers brings no other one to light. *)
Lemma canon_put l l' x rest y :
  antichain l → l' ≡ₚ Resolve l x → y ∈ canon (l' ++ rest) → y ∈ canon (l ++ rest) ∨ y = x.
Proof.
  intros Hl Hperm Hy. apply canon_foc in Hy as [Hu Hf]. pose proof (proj1 (undominated_spec _ _) Hu) as Hdom.
  assert (∀ z, z ∈ l ∨ z = x → ¬ clock y ⊏c clock z) as Hdom'.
  { intros z Hz Hlt. destruct (proj2 (covered_Resolve (clock z) l x)) as (w & Hw & Hle).
    { destruct Hz as [Hz| ->]; [left; by apply covered_elem|by right]. }
    apply (Hdom w); [rewrite Hperm; set_solver|by eapply vlt_le_trans]. }
  assert (undominated (l ++ rest) y = true) as Hu'.
  { apply undominated_spec. intros z [Hz|Hz]%elem_of_app; [apply Hdom'; by left|apply Hdom; set_solver]. }
  assert (y ∈ l' ∨ ∃ k l2, rest = k ++ y :: l2 ∧ class_in (l' ++ k) y = false) as [Hin|(k & l2 & -> & Hc)].
  { apply foc_split in Hf as (_ & l1 & l2 & Hs & Hc). apply app_eq_inv in Hs as [(k & -> & Hk)|(k & -> & ->)].
    - destruct k as [|y' k]; [right|left; injection Hk as <- _; set_solver]. exists [], l2. by rewrite !app_nil_r in *.
    - right. eauto. }
  - rewrite Hperm in Hin. apply Resolve_elem in Hin as [Hin|]; [left|by right].
    apply canon_foc. split; [done|by apply foc_antichain].
  - left. apply canon_foc. split; [done|]. apply foc_split. split; [done|]. exists (l ++ k), l2.
    rewrite <-app_assoc. split; [done|]. rewrite class_in_app in Hc |- *. apply orb_false_iff in Hc as [Hc ->].
    rewrite orb_false_r. apply not_true_iff_false. intros (z & Hz & E)%class_in_spec.
    apply not_true_iff_false in Hc as []. apply class_in_spec. exists z. split; [|done].
    rewrite Hperm. apply Resolve_keeps; [done|]. rewrite <-E. apply Hdom'. by right.
Qed.

Lemma canon_elem_unique l x :
  (∀ y z, y ∈ l → z ∈ l → clock y ≡c clock z → y = z) →
  x ∈ canon l ↔ x ∈ l ∧ undominated l x = true.
Proof.
  intros Huniq. split.
  - intros [[? ?]%elem_of_bfilter _]%foc_elem. done.
  - intros [Hx Hu]. assert (class_in (canon l) x = true) as Hc.
    { unfold canon. rewrite foc_class_nil. apply class_in_elem. by rewrite elem_of_bfilter. }
    apply class_in_spec in Hc as (y & Hy & E).
    rewrite (Huniq x y); [done|done|by apply canon_subset|done].
Qed.

(** Sibling sets up to the versions they cover: an equivalence coarser than
    equality, under which merging is the join of a semilattice. *)
Definition same_versions a b : Prop := ∀ c, covered c a ↔ covered c b.

#[export] Instance same_versions_equivalence : Equivalence same_versions.
Proof. unfold same_versions. split; [done|by intros ?? ?|intros ??? H1 H2 c; by rewrite H1]. Qed.

#[export] Instance MergeSiblings_proper :
  Proper (same_versions ==> same_versions ==> same_versions) MergeSiblings.
Proof. intros a a' Ha b b' Hb c. by rewrite !covered_MergeSiblings, (Ha c), (Hb c). Qed.

Lemma same_versions_canon l : same_versions (canon l) l.
Proof. intros c. apply covered_canon. Qed.

(** Two sibling sets that cover the same versions hold the same clocks. *)
Lemma same_versions_clocks a b x :
  antichain a → antichain b → same_versions a b → x ∈ a → ∃ y, y ∈ b ∧ clock x ≡c clock y.
Proof.
  intros Ha Hb Hab Hx. destruct (proj1 (Hab (clock x)) (covered_elem a x Hx)) as (y & Hy & Hle).
  destruct (proj2 (Hab (clock y)) (covered_elem b y Hy)) as (z & Hz & Hle').
  assert (x = z) as <- by (apply (antichain_elem a x z Ha Hx Hz); by etrans).
  exists y. by repeat split.
Qed.
End siblings.

#[export] Hint Resolve canon_is_antichain Resolve_antichain MergeSiblings_antichain : kv.
#[export] Hint Rewrite @canon_canon @MergeSiblings_nil @fold_Resolve_canon : kv.

(** ** Clock-preserving maps *)

Section natural.
Context {A B : Type} `{CA : Clocked A, CB : Clocked B} (f : A → B).
Hypothesis f_clock : ∀ x, clock (f x) = clock x.

Lemma Resolve_map l x : map f (Resolve l x) = Resolve (map f l) (f x).
Proof.
  rewrite !Resolve_alt, map_app, bfilter_map, existsb_map. f_equal.
  - f_equal. apply bfilter_ext. intros y _. unfold lt_b. by rewrite !f_clock.
  - assert (existsb (λ y, le_b (f x) (f y)) l = existsb (le_b x) l) as ->.
    { apply existsb_ext. intros y _. unfold le_b. by rewrite !f_clock. }
    by destruct (existsb (le_b x) l).
Qed.

Lemma MergeSiblings_map a b : map f (MergeSiblings a b) = MergeSiblings (map f a) (map f b).
Proof.
  unfold MergeSiblings. revert a. induction b as [|x b IH]; intros a; simpl; [done|].
  by rewrite IH, Resolve_map.
Qed.

Lemma canon_map l : map f (canon l) = canon (map f l).
Proof. by rewrite <-!MergeSiblings_nil, MergeSiblings_map. Qed.

Lemma covered_map c l : covered c (map f l) ↔ covered c l.
Proof.
  unfold covered. setoid_rewrite list_elem_of_fmap. split.
  - intros (? & (y & -> & Hy) & Hc). rewrite f_clock in Hc. eauto.
  - intros (y & Hy & Hc). exists (f y). rewrite f_clock. eauto.
Qed.

Lemma antichain_map l : antichain (map f l) ↔ antichain l.
Proof.
  induction l as [|x l IH]; simpl.
  - split; constructor.
  - split; inversion 1 as [|? ? Hx Hl]; subst; constructor; try (by apply IH);
      rewrite Forall_forall in Hx; rewrite Forall_forall.
    + intros y Hy. specialize (Hx (f y)). rewrite !f_clock in Hx. apply Hx.
      by apply list_elem_of_fmap_2.
    + intros ? (y & -> & Hy)%list_elem_of_fmap. rewrite !f_clock. auto.
Qed.
End natural.

Lemma clock_deref (p : itemptr) : clock (deref p) = clock p.
Proof. done. Qed.

(** ** The union clock *)

Section union.
Context {A : Type} `{Clocked A}.

Lemma union_entry_mget k v u n :
  mget (union_entry k v u) n = if decide (k = n) then N.max (mget u n) v else mget u n.
Proof.
  unfold union_entry. destruct (N.ltb_spec (mget u k) v); rewrite ?mget_insert;
    case_decide; subst; lia.
Qed.

Lemma union_item_mget (c u : gmap string N) n :
  mget (map_fold union_entry u c) n = N.max (mget u n) (mget c n).
Proof.
  revert n. apply (map_fold_weak_ind (λ r c, ∀ n, mget r n = N.max (mget u n) (mget c n))).
  - intros n. unfold mget at 3. rewrite lookup_empty. simpl. lia.
  - intros k v c' r Hk IH n. rewrite union_entry_mget, mget_insert, IH.
    case_decide; subst; [|done]. unfold mget at 2. rewrite Hk. simpl. lia.
Qed.

Lemma UnionVectorClock_acc (items : list A) u c :
  fold_left (λ union item, map_fold union_entry union (clock item)) items u ⊑c c ↔
  u ⊑c c ∧ ∀ x, x ∈ items → clock x ⊑c c.
Proof.
  revert u. induction items as [|x items IH]; intros u; simpl; [set_solver|].
  rewrite IH. assert (map_fold union_entry u (clock x) ⊑c c ↔ u ⊑c c ∧ clock x ⊑c c) as ->.
  { unfold vle. setoid_rewrite union_item_mget. split.
    - intros Hm. split; intros n; specialize (Hm n); lia.
    - intros [H1 H2] n. specialize (H1 n). specialize (H2 n). lia. }
  setoid_rewrite elem_of_cons. naive_solver.
Qed.

(** The union clock is the least upper bound of the versions' clocks. *)
Lemma UnionVectorClock_lub (items : list A) c :
  UnionVectorClock items ⊑c c ↔ ∀ x, x ∈ items → clock x ⊑c c.
Proof.
  unfold UnionVectorClock. rewrite UnionVectorClock_acc. split; [by intros []|].
  intros Hx. split; [|done]. intros n. unfold mget at 1. rewrite lookup_empty. simpl. lia.
Qed.

Lemma UnionVectorClock_above (items : list A) x :
  x ∈ items → clock x ⊑c UnionVectorClock items.
Proof. apply UnionVectorClock_lub. reflexivity. Qed.

Lemma Resolve_supersedes (l : list A) x :
  (∀ y, y ∈ l → clock y ⊏c clock x) → Resolve l x = [x].
Proof.
  intros Hl. rewrite Resolve_alt, bfilter_none.
  - assert (existsb (le_b x) l = false) as ->; [|done].
    apply existsb_false. intros y Hy. apply not_true_iff_false. unfold le_b.
    rewrite vleb_spec. intros Hle. apply (vlt_irrefl (clock x)).
    eapply vle_lt_trans; [exact Hle|auto].
  - intros y Hy. apply negb_false_iff, vltb_spec. auto.
Qed.
End union.

(** ** Results *)

Section results.
Context {A : Type} `{Clocked A}.

(** C7: [Resolve] and [MergeSiblings] keep exactly the causally maximal
    versions: folding any sequence of versions into an empty set gives the
    reference [canon] (the undominated versions, the first of each [Equal]
    class, in order), which is pairwise concurrent, holds only versions that
    were folded in, and covers every one of them. *)
Theorem MergeSiblings_keeps_maximal_versions (l : list A) :
  MergeSiblings [] l = canon l ∧
  antichain (canon l) ∧
  (∀ x, x ∈ canon l → x ∈ l) ∧
  (∀ x, x ∈ l → covered (clock x) (canon l)).
Proof.
  split; [apply MergeSiblings_nil|]. split; [apply canon_is_antichain|].
  split; [apply canon_subset|]. intros x Hx. by apply covered_canon, covered_elem.
Qed.

(** Merging sibling sets associates exactly, order and [Equal]-clock ties
    included: a contiguous run of layers may be replaced by its merge without
    changing the fold over all of them. *)
Theorem MergeSiblings_run_replaced (newer : list A) (run older : list (list A)) :
  fold_left MergeSiblings (run ++ older) (MergeSiblings [] newer) =
  fold_left MergeSiblings (fold_left MergeSiblings run [] :: older) (MergeSiblings [] newer).
Proof.
  rewrite MergeSiblings_nil, fold_layers_nil, !fold_layers. simpl. rewrite concat_app. by rewrite canon_absorb.
Qed.

(** Replicas converge: two replicas that applied the same set of versions,
    in any order and any number of times each, hold the same siblings,
    provided equal clocks name the same version. *)
Theorem Resolve_replicas_converge (l1 l2 : list A) :
  (∀ x, x ∈ l1 ↔ x ∈ l2) →
  (∀ x y, x ∈ l1 → y ∈ l1 → clock x ≡c clock y → x = y) →
  fold_left Resolve l1 [] ≡ₚ fold_left Resolve l2 [].
Proof.
  intros Hsame Huniq. rewrite !fold_Resolve_canon.
  apply NoDup_Permutation; try apply antichain_NoDup, canon_is_antichain.
  intros x. rewrite !canon_elem_unique, !undominated_spec; [|set_solver..].
  setoid_rewrite Hsame. done.
Qed.

(** The context a read returns lets the next write supersede what was
    read: [UnionVectorClock] is the least upper bound of the siblings' clocks,
    and a version built on it (counter not at the last [uint32]) replaces
    all of them in [Resolve]. *)
Theorem write_on_union_replaces_siblings (items : list A) (id : string) (x : A) :
  (mget (UnionVectorClock items) id < two32 - 1)%N →
  clock x = state (BuildFromContext (UnionVectorClock items) id) →
  Resolve items x = [x] ∧
  (∀ c, (∀ y, y ∈ items → clock y ⊑c c) → UnionVectorClock items ⊑c c).
Proof.
  intros Hlt Hx. split; [|intros c; apply UnionVectorClock_lub].
  apply Resolve_supersedes. intros y Hy. rewrite Hx, BuildFromContext_state.
  eapply vle_lt_trans; [by apply UnionVectorClock_above|].
  rewrite u32_small by lia. apply insert_supersedes. lia.
Qed.
End results.

Definition ex_item (v : string) (c : gmap string N) : DataItem :=
  mkItem (VString v) (mkVC c) "n1" false.

Lemma Resolve_replicas_converge_witness :
  let x := ex_item "x" {["a" := 1%N]} in
  let y := ex_item "y" {["b" := 1%N]} in
  let z := ex_item "z" {["a" := 1%N; "b" := 1%N]} in
  fold_left Resolve [x; y; z] [] ≡ₚ fold_left Resolve [z; y; x; y] [].
Proof.
  cbv zeta. apply Resolve_replicas_converge.
  - set_solver.
  - assert (∀ a b : DataItem, clock a ≡c clock b → compare a b = Equal) as Hc.
    { intros a b Hab. by apply CompareSnapshots_spec. }
    intros a b Ha Hb Hab%Hc. revert Hab.
    repeat (rewrite elem_of_cons in Ha, Hb). rewrite elem_of_nil in Ha, Hb.
    destruct Ha as [->|[->|[->|[]]]]; destruct Hb as [->|[->|[->|[]]]]; try done;
      intros Hab; exfalso; revert Hab; vm_compute; discriminate.
Defined.

Lemma write_on_union_replaces_siblings_witness :
  let x := ex_item "x" {["a" := 2%N]} in
  let y := ex_item "y" {["b" := 1%N]} in
  let z := mkItem (VString "z") (BuildFromContext (UnionVectorClock [x; y]) "a") "a" false in
  Resolve [x; y] z = [z].
Proof.
  cbv zeta. eapply write_on_union_replaces_siblings with (id := "a").
  - vm_compute. reflexivity.
  - reflexivity.
Defined.
