(* ===== verification/GoLib.v ===== *)
(** * What the program uses of Go and its standard library

    Byte strings and their order, [sort.Strings], [sort.Search],
    [encoding/binary.BigEndian], [hash/fnv] (32-bit FNV-1a) and [hash/crc32]
    (IEEE), each executable and checked on published test vectors. *)

From stdpp Require Import gmap strings list sorting.
From Stdlib Require Import ZArith Lia Ascii.
From S2P Require Import Prelude.

(** ** Strings *)

(** A Go [[]byte]; a Go string is the same sequence as a [string]. *)
Notation bytes := (list ascii).

Definition to_bytes (s : string) : bytes := String.list_ascii_of_string s.
Definition of_bytes (b : bytes) : string := String.string_of_list_ascii b.

Lemma of_to_bytes s : of_bytes (to_bytes s) = s.
Proof. apply String.string_of_list_ascii_of_string. Qed.

Lemma to_of_bytes b : to_bytes (of_bytes b) = b.
Proof. apply String.list_ascii_of_string_of_list_ascii. Qed.

Lemma to_bytes_app s t : to_bytes (s +:+ t) = to_bytes s ++ to_bytes t.
Proof. induction s as [|c s IH]; simpl; [done|]. by f_equal. Qed.

(** [s < t]: strings are compared byte by byte. *)
Lemma ltb_spec s t : String.ltb s t = true ↔ String.le s t ∧ s ≠ t.
Proof.
  unfold String.ltb, String.le, String.leb. split.
  - destruct (String.compare s t) eqn:E; try done. intros _. split; [done|].
    intros ->. pose proof (String.compare_antisym t t) as E'. rewrite E in E'. done.
  - intros [H Hne]. destruct (String.compare s t) eqn:E; try done.
    apply String.compare_eq_iff in E. done.
Qed.

Lemma ltb_irrefl s : String.ltb s s = false.
Proof. apply not_true_iff_false. rewrite ltb_spec. naive_solver. Qed.

Lemma ltb_false s t : String.ltb s t = false ↔ String.le t s.
Proof.
  rewrite <-not_true_iff_false, ltb_spec. split.
  - intros H. destruct (decide (s = t)) as [->|]; [reflexivity|].
    destruct (total String.le s t); [|done]. naive_solver.
  - intros H [H' Hne]. by apply Hne, (anti_symm String.le).
Qed.

Lemma ltb_trans s t u : String.ltb s t = true → String.ltb t u = true → String.ltb s u = true.
Proof.
  rewrite !ltb_spec. intros [H1 N1] [H2 N2]. split; [by etrans|].
  intros ->. by apply N1, (anti_symm String.le).
Qed.

(** [sort.Strings]: equal strings are indistinguishable, so every sorting
    algorithm gives this list. *)
Definition sort_strings (l : list string) : list string := merge_sort String.le l.

Lemma sort_strings_perm l : sort_strings l ≡ₚ l.
Proof. apply merge_sort_Permutation. Qed.

Lemma sort_strings_sorted l : StronglySorted String.le (sort_strings l).
Proof. apply StronglySorted_merge_sort; apply _. Qed.

Lemma sort_strings_elem l x : x ∈ sort_strings l ↔ x ∈ l.
Proof. by rewrite sort_strings_perm. Qed.

Lemma sort_strings_perm_eq l1 l2 : l1 ≡ₚ l2 → sort_strings l1 = sort_strings l2.
Proof.
  intros Hp. apply (StronglySorted_unique String.le); try apply sort_strings_sorted.
  by rewrite !sort_strings_perm.
Qed.

(** ** [sort.Search] *)

Fixpoint search_loop (fuel i j : nat) (f : nat → bool) : nat :=
  match fuel with
  | O => i
  | S fuel' =>
      if i <? j then
        let h := (i + j) / 2 in
        if f h then search_loop fuel' i h f else search_loop fuel' (h + 1) j f
      else i
  end.

(** The interval shrinks at every step, so [n] steps are enough. *)
Definition sort_Search (n : nat) (f : nat → bool) : nat := search_loop n 0 n f.

Lemma search_loop_spec fuel i j f n :
  j - i ≤ fuel → i ≤ j ≤ n →
  (∀ a b, a ≤ b < n → f a = true → f b = true) →
  (∀ a, a < i → f a = false) → (∀ a, j ≤ a < n → f a = true) →
  let r := search_loop fuel i j f in
  r ≤ n ∧ (∀ a, a < r → f a = false) ∧ (∀ a, r ≤ a < n → f a = true).
Proof.
  revert i j. induction fuel as [|fuel IH]; intros i j Hf Hij Hm Hlo Hhi; cbn [search_loop]; cbv zeta.
  - assert (i = j) as <- by lia. split_and!; [lia|done|done].
  - destruct (Nat.ltb_spec i j) as [Hlt|Hge].
    + assert (i ≤ (i + j) / 2 < j) as Hh.
      { split; [apply Nat.div_le_lower_bound; lia|apply Nat.Div0.div_lt_upper_bound; lia]. }
      destruct (f ((i + j) / 2)) eqn:E; apply IH; try done; try lia.
      * intros a Ha. apply (Hm ((i + j) / 2)); [lia|done].
      * intros a Ha. destruct (f a) eqn:Ea; [|done].
        rewrite (Hm a ((i + j) / 2)) in E; [done|lia|done].
    + assert (i = j) as <- by lia. split_and!; [lia|done|done].
Qed.

(** [sort.Search] returns the first index whose test holds, [n] if none does. *)
Lemma sort_Search_spec n f :
  (∀ a b, a ≤ b < n → f a = true → f b = true) →
  sort_Search n f ≤ n ∧ (∀ a, a < sort_Search n f → f a = false) ∧
  (∀ a, sort_Search n f ≤ a < n → f a = true).
Proof. intros Hm. apply search_loop_spec; [lia|lia|done|lia|lia]. Qed.

(** ** [encoding/binary.BigEndian] *)

Fixpoint be_put (k : nat) (n : N) : bytes :=
  match k with
  | O => []
  | S k' => be_put k' (n / 256) ++ [ascii_of_N (n mod 256)]
  end.

Definition be_get (b : bytes) : N := fold_left (λ acc c, acc * 256 + N_of_ascii c)%N b 0%N.

Definition PutUint32 (n : N) : bytes := be_put 4 n.
Definition PutUint64 (n : N) : bytes := be_put 8 n.

Lemma length_be_put k n : length (be_put k n) = k.
Proof. revert n. induction k as [|k IH]; intros n; simpl; [done|]. rewrite length_app, IH. simpl. lia. Qed.

Lemma be_get_put k n : be_get (be_put k n) = (n mod 256 ^ N.of_nat k)%N.
Proof.
  revert n. induction k as [|k IH]; intros n.
  - simpl. by rewrite N.mod_1_r.
  - simpl. unfold be_get. rewrite fold_left_app. simpl.
    fold (be_get (be_put k (n / 256))). rewrite IH, N_ascii_embedding by (apply N.mod_lt; lia).
    rewrite Nat2N.inj_succ, N.pow_succ_r' by lia.
    rewrite N.Div0.mod_mul_r by lia. lia.
Qed.

Lemma be_get_Uint32 n : (n < two32)%N → be_get (PutUint32 n) = n.
Proof. intros Hn. unfold PutUint32. rewrite be_get_put. by apply N.mod_small. Qed.

Lemma be_get_Uint64 n : (n < two64)%N → be_get (PutUint64 n) = n.
Proof. intros Hn. unfold PutUint64. rewrite be_get_put. by apply N.mod_small. Qed.

(** ** [hash/fnv] *)

Definition fnv32a (b : bytes) : N :=
  fold_left (λ h c, u32 (N.lxor h (N_of_ascii c) * 16777619)) b 2166136261%N.

Example fnv32a_empty : fnv32a [] = 0x811c9dc5%N.
Proof. reflexivity. Qed.

Example fnv32a_foobar : fnv32a (to_bytes "foobar") = 0xbf9cf968%N.
Proof. reflexivity. Qed.

Lemma fnv32a_range b : (fnv32a b < two32)%N.
Proof.
  unfold fnv32a. rewrite <-fold_left_rev_right. destruct (rev b); simpl; [done|apply u32_range].
Qed.

(** ** [hash/crc32], IEEE *)

Definition crc_bit (c : N) : N :=
  if N.odd c then N.lxor (N.shiftr c 1) 0xedb88320 else N.shiftr c 1.

Definition crc_byte (c : N) (b : ascii) : N :=
  Nat.iter 8 crc_bit (N.lxor c (N_of_ascii b)).

Definition ChecksumIEEE (b : bytes) : N :=
  N.lxor (fold_left crc_byte b 0xffffffff%N) 0xffffffff.

Example ChecksumIEEE_check : ChecksumIEEE (to_bytes "123456789") = 0xcbf43926%N.
Proof. reflexivity. Qed.

Lemma lt_two32_testbit n : (n < two32)%N ↔ ∀ i, (32 ≤ i)%N → N.testbit n i = false.
Proof.
  split.
  - intros Hn i Hi. rewrite <-(N.mod_small n (2 ^ 32)) by done. by apply N.mod_pow2_bits_high.
  - intros H. assert (n = n mod 2 ^ 32)%N as ->; [|by apply N.mod_lt].
    apply N.bits_inj. intros i. destruct (N.lt_ge_cases i 32).
    + by rewrite N.mod_pow2_bits_low.
    + by rewrite N.mod_pow2_bits_high, H.
Qed.

Lemma lxor_range a b : (a < two32)%N → (b < two32)%N → (N.lxor a b < two32)%N.
Proof.
  rewrite !lt_two32_testbit. intros Ha Hb i Hi. by rewrite N.lxor_spec, Ha, Hb.
Qed.

Lemma crc_bit_range c : (c < two32)%N → (crc_bit c < two32)%N.
Proof.
  intros Hc. unfold crc_bit. assert (N.shiftr c 1 < two32)%N.
  { rewrite N.shiftr_div_pow2. eapply N.le_lt_trans; [|done].
    apply N.Div0.div_le_upper_bound. change (2 ^ 1)%N with 2%N. lia. }
  destruct (N.odd c); [by apply lxor_range|done].
Qed.

Lemma crc_byte_range c b : (c < two32)%N → (crc_byte c b < two32)%N.
Proof.
  intros Hc. unfold crc_byte. apply Nat.iter_invariant; [intros; by apply crc_bit_range|].
  apply lxor_range; [done|]. eapply N.lt_trans; [apply N_ascii_bounded|done].
Qed.

Lemma ChecksumIEEE_range b : (ChecksumIEEE b < two32)%N.
Proof.
  unfold ChecksumIEEE. apply lxor_range; [|done].
  assert (0xffffffff < two32)%N as Hc by done. revert Hc.
  generalize 0xffffffff%N. induction b as [|x b IH]; intros c Hc; simpl; [done|].
  by apply IH, crc_byte_range.
Qed.

#[export] Hint Resolve ChecksumIEEE_range fnv32a_range : kv.
