(* ===== verification/HashRing.v ===== *)
(** * The consistent-hash ring (internal/hashring/hashring.go)

    The ring with virtual nodes as the package builds it, and its theory: a
    ring is a pure function of the member set, a preference list is the
    clockwise walk from the key's hash, and a new member only takes keys to
    itself. *)

From stdpp Require Import gmap strings list sorting pretty.
From Stdlib Require Import ZArith Lia Ascii.
From S2P Require Import Prelude GoLib.

(** ** Operations *)

Record HashRing := mkRing {
  ring : list N;
  nodeMap : gmap N string;
  virtualNodesPerPhysical : nat
}.

Definition NewHashRing (v : nat) : HashRing := mkRing [] ∅ v.

Definition hashKey (key : string) : N := fnv32a (to_bytes key).

(** [nodeID + "-" + strconv.Itoa(i)] *)
Definition virtualNodeKey (nodeID : string) (i : nat) : string :=
  nodeID +:+ "-" +:+ pretty i.

(** One iteration of [place]'s loop. *)
Definition place_step (nodeID : string) (hr : HashRing) (i : nat) : HashRing :=
  let pos := hashKey (virtualNodeKey nodeID i) in
  match nodeMap hr !! pos with
  | Some existing =>
      if String.ltb nodeID existing
      then mkRing (ring hr) (<[pos := nodeID]> (nodeMap hr)) (virtualNodesPerPhysical hr)
      else hr
  | None =>
      mkRing (ring hr ++ [pos]) (<[pos := nodeID]> (nodeMap hr)) (virtualNodesPerPhysical hr)
  end.

Definition place (hr : HashRing) (nodeID : string) : HashRing :=
  fold_left (place_step nodeID) (seq 0 (virtualNodesPerPhysical hr)) hr.

(** [sort.Slice] on positions, which [place] keeps distinct. *)
Definition sortRing (hr : HashRing) : HashRing :=
  mkRing (merge_sort N.le (ring hr)) (nodeMap hr) (virtualNodesPerPhysical hr).

Inductive ring_error :=
  | EmptyMemberID
  | DuplicateMemberID (id : string).

(** The validation loop of [NewHashRingFromMembers]. *)
Fixpoint check_ids (seen : gset string) (ids : list string) : option ring_error :=
  match ids with
  | [] => None
  | id :: rest =>
      if decide (id = "") then Some EmptyMemberID
      else if decide (id ∈ seen) then Some (DuplicateMemberID id)
      else check_ids ({[id]} ∪ seen) rest
  end.

Definition NewHashRingFromMembers (v : nat) (ids : list string) : res ring_error HashRing :=
  match check_ids ∅ ids with
  | Some e => Err e
  | None => Ok (sortRing (fold_left place ids (NewHashRing v)))
  end.

Definition AddNode (hr : HashRing) (nodeID : string) : HashRing := sortRing (place hr nodeID).

(** The walk of [GetPreferenceList]: [iters] are the loop's remaining values of
    [i]; [seen] holds exactly the nodes of [pl]. *)
Fixpoint walk (hr : HashRing) (index replicationFactor : nat) (iters : list nat)
    (seen : gset string) (pl : list string) : list string :=
  match iters with
  | [] => pl
  | i :: rest =>
      let currentIdx := (index + i) mod length (ring hr) in
      let pos := default 0%N (ring hr !! currentIdx) in
      let nodeID := default "" (nodeMap hr !! pos) in
      if decide (nodeID ∈ seen) then walk hr index replicationFactor rest seen pl
      else
        let pl' := pl ++ [nodeID] in
        if decide (length pl' = replicationFactor) then pl'
        else walk hr index replicationFactor rest ({[nodeID]} ∪ seen) pl'
  end.

Definition GetPreferenceList (hr : HashRing) (key : string) (replicationFactor : nat) : list string :=
  if decide (length (ring hr) = 0) then []
  else
    let targetHash := hashKey key in
    let index := sort_Search (length (ring hr))
                   (λ i, (targetHash <=? default 0%N (ring hr !! i))%N) in
    let index := if length (ring hr) <=? index then 0 else index in
    walk hr index replicationFactor (seq 0 (length (ring hr))) ∅ [].

(** ** What a ring holds *)

(** A slot is a virtual node: its owner and its number. *)
Definition slot_pos (s : string * nat) : N := hashKey (virtualNodeKey s.1 s.2).

(** [id] has a virtual node among [slots] at [pos]. *)
Definition claims (slots : list (string * nat)) (id : string) (pos : N) : Prop :=
  ∃ i, (id, i) ∈ slots ∧ slot_pos (id, i) = pos.

(** The ring of [slots]: every claimed position once, owned by its lowest
    claimant. *)
Record ring_of (slots : list (string * nat)) (hr : HashRing) : Prop := {
  ring_nodup : NoDup (ring hr);
  ring_dom : ∀ pos, pos ∈ ring hr ↔ is_Some (nodeMap hr !! pos);
  ring_owner : ∀ pos id, nodeMap hr !! pos = Some id →
    claims slots id pos ∧ ∀ id', claims slots id' pos → String.le id id';
  ring_claimed : ∀ pos id, claims slots id pos → pos ∈ ring hr
}.

Lemma claims_snoc slots s id pos :
  claims (slots ++ [s]) id pos ↔ claims slots id pos ∨ (id = s.1 ∧ slot_pos s = pos).
Proof.
  unfold claims. split.
  - intros (i & [Hin|Hin%list_elem_of_singleton]%elem_of_app & Hpos); [eauto|].
    subst s. right. done.
  - destruct s as [sid si]. intros [(i & Hi & Hp)|[-> Hp]]; simpl in *.
    + exists i. set_solver.
    + exists si. set_solver.
Qed.

Lemma ring_of_new v : ring_of [] (NewHashRing v).
Proof.
  split; simpl.
  - constructor.
  - intros pos. rewrite lookup_empty. split; [set_solver|by intros []].
  - intros pos id. by rewrite lookup_empty.
  - intros pos id (i & Hi & _). set_solver.
Qed.

Lemma ring_of_place_step slots hr id i :
  ring_of slots hr → ring_of (slots ++ [(id, i)]) (place_step id hr i).
Proof.
  intros [Hnd Hdom Hown Hcl]. unfold place_step.
  change (hashKey (virtualNodeKey id i)) with (slot_pos (id, i)). set (p := slot_pos (id, i)).
  destruct (nodeMap hr !! p) as [ex|] eqn:E.
  - assert (p ∈ ring hr) as Hp by (apply Hdom; eauto).
    destruct (Hown p ex E) as [Hex Hmin]. destruct (String.ltb id ex) eqn:Hlt.
    + apply ltb_spec in Hlt as [Hle Hne]. split; simpl; [done|..].
      * intros pos. rewrite Hdom, lookup_insert. case_decide; subst; [|done].
        split; [eauto|]. intros _. by rewrite E.
      * intros pos o. rewrite lookup_insert. setoid_rewrite claims_snoc. simpl.
        case_decide as Hpp; [subst pos; intros [= <-]; split; [by right|]|].
        { intros id' [Hid|[-> _]]; [|reflexivity]. transitivity ex; [done|]. by apply Hmin. }
        intros Ho. destruct (Hown pos o Ho). split; [by left|]. naive_solver.
      * intros pos o [?|[-> <-]]%claims_snoc; [eauto|done].
    + apply ltb_false in Hlt. split; [done|done|..].
      * intros pos o Ho. setoid_rewrite claims_snoc. simpl. destruct (Hown pos o Ho).
        split; [by left|]. intros id' [?|[-> <-]]; [auto|]. fold p in Ho. by simplify_eq.
      * intros pos o [?|[-> <-]]%claims_snoc; [eauto|done].
  - assert (p ∉ ring hr) as Hp. { rewrite Hdom, E. by intros []. }
    split; simpl.
    + apply NoDup_app. split_and!; [done| |apply NoDup_singleton]. set_solver.
    + intros pos. rewrite elem_of_app, list_elem_of_singleton, Hdom, lookup_insert.
      case_decide; subst; [split; eauto|]. naive_solver.
    + intros pos o. rewrite lookup_insert. setoid_rewrite claims_snoc. simpl.
      case_decide as Hpp; [subst pos; intros [= <-]; split; [by right|]|].
      { intros id' [Hid%Hcl|[-> _]]; [done|reflexivity]. }
      intros Ho. destruct (Hown pos o Ho). split; [by left|]. naive_solver.
    + intros pos o [?%Hcl|[-> <-]]%claims_snoc; set_solver.
Qed.

(** The slots of a member with [v] virtual nodes, and of a member list. *)
Definition node_slots (v : nat) (id : string) : list (string * nat) := pair id <$> seq 0 v.
Definition all_slots (v : nat) (ids : list string) : list (string * nat) := ids ≫= node_slots v.

Lemma place_step_vnodes id hr i :
  virtualNodesPerPhysical (place_step id hr i) = virtualNodesPerPhysical hr.
Proof. unfold place_step. repeat case_match; done. Qed.

Lemma ring_of_place slots hr id :
  ring_of slots hr →
  ring_of (slots ++ node_slots (virtualNodesPerPhysical hr) id) (place hr id) ∧
  virtualNodesPerPhysical (place hr id) = virtualNodesPerPhysical hr.
Proof.
  intros Hr. unfold place, node_slots.
  generalize (seq 0 (virtualNodesPerPhysical hr)) as iters. intros iters. revert slots hr Hr.
  induction iters as [|i iters IH]; intros slots hr Hr; simpl; [by rewrite app_nil_r|].
  destruct (IH (slots ++ [(id, i)]) (place_step id hr i)) as [H1 H2].
  { by apply ring_of_place_step. }
  rewrite <-app_assoc in H1. simpl in H1. by rewrite place_step_vnodes in H2.
Qed.

Lemma ring_of_places slots hr ids :
  ring_of slots hr →
  ring_of (slots ++ all_slots (virtualNodesPerPhysical hr) ids) (fold_left place ids hr) ∧
  virtualNodesPerPhysical (fold_left place ids hr) = virtualNodesPerPhysical hr.
Proof.
  revert slots hr. induction ids as [|id ids IH]; intros slots hr Hr; simpl.
  - by rewrite app_nil_r.
  - destruct (ring_of_place slots hr id Hr) as [H1 H2].
    destruct (IH _ _ H1) as [H3 H4]. rewrite H2 in H3, H4. by rewrite <-app_assoc in H3.
Qed.

Lemma ring_of_sort slots hr : ring_of slots hr → ring_of slots (sortRing hr).
Proof.
  intros [Hnd Hdom Hown Hcl]. split; simpl; try done.
  - by rewrite merge_sort_Permutation.
  - intros pos. by rewrite merge_sort_Permutation.
  - intros pos id Hc. rewrite merge_sort_Permutation. eauto.
Qed.

Lemma sortRing_sorted hr : StronglySorted N.le (ring (sortRing hr)).
Proof. apply StronglySorted_merge_sort; apply _. Qed.

(** A sorted ring is determined by the set of slots it holds. *)
Lemma ring_of_unique s1 s2 h1 h2 :
  (∀ s, s ∈ s1 ↔ s ∈ s2) → ring_of s1 h1 → ring_of s2 h2 →
  virtualNodesPerPhysical h1 = virtualNodesPerPhysical h2 →
  sortRing h1 = sortRing h2.
Proof.
  intros Hs [N1 D1 O1 C1] [N2 D2 O2 C2] Hv.
  assert (∀ id pos, claims s1 id pos ↔ claims s2 id pos) as Hc.
  { intros. unfold claims. by setoid_rewrite Hs. }
  assert (nodeMap h1 = nodeMap h2) as Hm.
  { apply map_eq. intros pos. apply option_eq. intros id.
    assert (∀ s s' h h', (∀ id pos, claims s id pos ↔ claims s' id pos) →
      ring_of s h → ring_of s' h' → nodeMap h !! pos = Some id → nodeMap h' !! pos = Some id) as G.
    { intros s s' h h' Hcc [_ D O C] [_ D' O' C'] Ho. destruct (O _ _ Ho) as [Hcl Hmin].
      assert (is_Some (nodeMap h' !! pos)) as [id' Ho'].
      { apply D'. eapply C'. by apply Hcc. }
      destruct (O' _ _ Ho') as [Hcl' Hmin'].
      rewrite Ho'. f_equal. apply (anti_symm String.le).
      - apply Hmin'. by apply Hcc.
      - apply Hmin. by apply Hcc. }
    split; [apply (G s1 s2)|apply (G s2 s1)]; try done. }
  unfold sortRing. rewrite Hm, Hv. f_equal.
  apply (StronglySorted_unique N.le); try (apply StronglySorted_merge_sort; apply _).
  rewrite !merge_sort_Permutation. apply NoDup_Permutation; [done|done|].
  intros pos. by rewrite D1, D2, Hm.
Qed.

Lemma elem_of_all_slots v ids s : s ∈ all_slots v ids ↔ s.1 ∈ ids ∧ (s.2 < v).
Proof.
  unfold all_slots, node_slots. rewrite list_elem_of_bind. split.
  - intros (id & (i & -> & Hi)%list_elem_of_fmap & Hid). apply elem_of_seq in Hi. simpl. split; [done|lia].
  - intros [Hid Hi]. exists s.1. split; [|done]. rewrite list_elem_of_fmap. exists s.2.
    rewrite elem_of_seq. destruct s. simpl in *. split; [done|lia].
Qed.

(** ** The clockwise walk *)

Definition owner (hr : HashRing) (pos : N) : string := default "" (nodeMap hr !! pos).

Lemma owner_Some hr pos o : nodeMap hr !! pos = Some o → owner hr pos = o.
Proof. unfold owner. by intros ->. Qed.

(** Positions in clockwise order from [t]: those at or after it, then the rest. *)
Definition clockwise (t : N) (positions : list N) : list N :=
  bfilter (λ p, t <=? p)%N positions ++ bfilter (λ p, negb (t <=? p)%N) positions.

(** The first occurrence of each node of [l] outside [seen]. *)
Fixpoint firsts (seen : gset string) (l : list string) : list string :=
  match l with
  | [] => []
  | x :: l' => if decide (x ∈ seen) then firsts seen l' else x :: firsts ({[x]} ∪ seen) l'
  end.

(** All distinct owners in clockwise order from [key]'s hash. *)
Definition owners_clockwise (hr : HashRing) (key : string) : list string :=
  firsts ∅ (owner hr <$> clockwise (hashKey key) (ring hr)).

Lemma firsts_elem seen l x : x ∈ firsts seen l ↔ x ∈ l ∧ x ∉ seen.
Proof.
  revert seen. induction l as [|y l IH]; intros seen; simpl; [set_solver|].
  case_decide; [rewrite IH; set_solver|].
  rewrite elem_of_cons, IH. destruct (decide (x = y)); set_solver.
Qed.

Lemma firsts_nodup seen l : NoDup (firsts seen l).
Proof.
  revert seen. induction l as [|y l IH]; intros seen; simpl; [constructor|].
  case_decide; [done|]. constructor; [|done]. rewrite firsts_elem. set_solver.
Qed.

Lemma firsts_ext seen seen' l :
  (∀ x, x ∈ l → x ∈ seen ↔ x ∈ seen') → firsts seen l = firsts seen' l.
Proof.
  revert seen seen'. induction l as [|y l IH]; intros seen seen' E; simpl; [done|].
  pose proof (E y ltac:(set_solver)) as Ey. repeat case_decide; try tauto.
  - apply IH. set_solver.
  - f_equal. apply IH. set_solver.
Qed.

Lemma walk_firsts hr index rf iters seen pl :
  rf = 0 ∨ length pl < rf →
  walk hr index rf iters seen pl =
    pl ++ (let l := firsts seen ((λ i, owner hr (default 0%N (ring hr !! ((index + i) mod length (ring hr))))) <$> iters) in
           if decide (rf = 0) then l else take (rf - length pl) l).
Proof.
  revert seen pl. induction iters as [|i iters IH]; intros seen pl Hrf; simpl.
  - rewrite take_nil. case_decide; by rewrite app_nil_r.
  - fold (owner hr (default 0%N (ring hr !! ((index + i) mod length (ring hr))))).
    set (o := owner hr _). destruct (decide (o ∈ seen)) as [Hin|Hin]; [by apply IH|].
    destruct (decide (length (pl ++ [o]) = rf)) as [Hlen|Hlen];
      rewrite length_app in Hlen; simpl in Hlen.
    + rewrite (decide_False (P := rf = 0)) by lia.
      replace (rf - length pl) with 1 by lia. simpl. by rewrite firstn_O.
    + rewrite IH by (rewrite length_app; simpl; lia). rewrite <-app_assoc. simpl. f_equal.
      destruct (decide (rf = 0)); [done|]. rewrite length_app. simpl.
      replace (rf - length pl) with (S (rf - (length pl + 1))) by lia. done.
Qed.

Lemma rotate_seq (l : list N) k :
  k < length l →
  (λ i, default 0%N (l !! ((k + i) mod length l))) <$> seq 0 (length l) = drop k l ++ take k l.
Proof.
  intros Hk. apply list_eq. intros i. rewrite list_lookup_fmap.
  destruct (decide (i < length l)) as [Hi|Hi].
  - rewrite lookup_seq_lt by done. simpl. destruct (decide (i < length l - k)).
    + rewrite Nat.mod_small by lia. rewrite lookup_app_l by (rewrite length_drop; lia).
      rewrite lookup_drop. destruct (lookup_lt_is_Some_2 l (k + i)) as [p ->]; [lia|done].
    + replace (k + i) with ((i - (length l - k)) + 1 * length l) by lia.
      rewrite Nat.Div0.mod_add, Nat.mod_small by lia.
      rewrite lookup_app_r by (rewrite length_drop; lia).
      rewrite length_drop, lookup_take_lt by lia.
      destruct (lookup_lt_is_Some_2 l (i - (length l - k))) as [p ->]; [lia|done].
  - rewrite lookup_seq_ge by lia. simpl. symmetry. apply lookup_ge_None.
    rewrite length_app, length_drop, length_take. lia.
Qed.

Lemma sorted_test_mono (l : list N) t :
  StronglySorted N.le l →
  ∀ a b, a ≤ b < length l →
    (t <=? default 0%N (l !! a))%N = true → (t <=? default 0%N (l !! b))%N = true.
Proof.
  intros Hs a b Hab. rewrite !N.leb_le.
  destruct (lookup_lt_is_Some_2 l a) as [x Ha]; [lia|].
  destruct (lookup_lt_is_Some_2 l b) as [y Hb]; [lia|]. rewrite Ha, Hb. simpl. intros Ht.
  destruct (decide (a = b)) as [->|]; [by simplify_eq|].
  assert (x ≤ y)%N; [|lia]. eapply (StronglySorted_lookup_lt N.le l a b); eauto. lia.
Qed.

(** Go's binary search and rotation compute the clockwise order. *)
Lemma search_rotate (l : list N) t :
  StronglySorted N.le l → l ≠ [] →
  let k := sort_Search (length l) (λ i, (t <=? default 0%N (l !! i))%N) in
  let k := if length l <=? k then 0 else k in
  k < length l ∧ drop k l ++ take k l = clockwise t l.
Proof.
  intros Hs Hne. pose proof (sort_Search_spec _ _ (sorted_test_mono l t Hs)) as (Hk & Hlo & Hhi).
  set (k := sort_Search _ _) in *. assert (length l ≠ 0) by (by destruct l).
  assert (bfilter (λ p, t <=? p)%N l = drop k l ∧ bfilter (λ p, negb (t <=? p)%N) l = take k l) as [E1 E2].
  { rewrite <-(take_drop k l) at 1 3. rewrite !bfilter_app.
    assert (∀ x, x ∈ take k l → (t <=? x)%N = false) as Ht.
    { intros x (i & Hi)%list_elem_of_lookup. apply lookup_take_Some in Hi as [Hi ?].
      specialize (Hlo i). rewrite Hi in Hlo. auto. }
    assert (∀ x, x ∈ drop k l → (t <=? x)%N = true) as Hd.
    { intros x (i & Hi)%list_elem_of_lookup. rewrite lookup_drop in Hi.
      specialize (Hhi (k + i)). rewrite Hi in Hhi. apply Hhi. apply lookup_lt_Some in Hi. lia. }
    split.
    - rewrite bfilter_none by done. by rewrite bfilter_all.
    - rewrite bfilter_all by (intros; by rewrite Ht). rewrite bfilter_none; [apply app_nil_r|].
      intros x Hx. by rewrite Hd. }
  unfold clockwise. rewrite E1, E2. destruct (Nat.leb_spec (length l) k).
  - assert (k = length l) as -> by lia. rewrite drop_all, firstn_all. simpl.
    rewrite drop_0, firstn_O, app_nil_r. split; [lia|done].
  - split; [lia|done].
Qed.

(** [GetPreferenceList] on a sorted ring: the first [rf] distinct owners
    clockwise from the key (all of them if [rf] is 0). *)
Lemma GetPreferenceList_clockwise hr key rf :
  StronglySorted N.le (ring hr) →
  GetPreferenceList hr key rf =
    if decide (rf = 0) then owners_clockwise hr key else take rf (owners_clockwise hr key).
Proof.
  intros Hs. unfold GetPreferenceList, owners_clockwise. case_decide as Hl.
  - apply length_zero_iff_nil in Hl. rewrite Hl. simpl. rewrite take_nil. by case_decide.
  - destruct (search_rotate (ring hr) (hashKey key) Hs) as [Hk Hrot]; [by destruct (ring hr)|].
    cbv zeta in *. rewrite walk_firsts by (destruct rf; simpl; lia). simpl. rewrite Nat.sub_0_r.
    rewrite <-Hrot, <-rotate_seq by done.
    rewrite <-list_fmap_compose. done.
Qed.

(** ** Rings of a member list *)

Lemma check_ids_None seen ids :
  check_ids seen ids = None ↔ NoDup ids ∧ "" ∉ ids ∧ ∀ id, id ∈ ids → id ∉ seen.
Proof.
  revert seen. induction ids as [|id ids IH]; intros seen; simpl.
  - split; [|done]. intros _. split_and!; [constructor|set_solver..].
  - repeat case_decide; [set_solver..|]. rewrite IH, NoDup_cons. set_solver.
Qed.

Lemma NewHashRingFromMembers_ok v ids :
  NoDup ids → "" ∉ ids →
  NewHashRingFromMembers v ids = Ok (sortRing (fold_left place ids (NewHashRing v))).
Proof.
  intros Hnd Hne. unfold NewHashRingFromMembers.
  assert (check_ids ∅ ids = None) as ->; [|done]. apply check_ids_None. set_solver.
Qed.

(** The ring the nodes build from a member list. *)
Definition members_ring (v : nat) (ids : list string) : HashRing :=
  sortRing (fold_left place ids (NewHashRing v)).

Lemma members_ring_of v ids : ring_of (all_slots v ids) (members_ring v ids).
Proof. apply ring_of_sort. apply (ring_of_places [] (NewHashRing v) ids (ring_of_new v)). Qed.

Lemma members_ring_sorted v ids : StronglySorted N.le (ring (members_ring v ids)).
Proof. apply sortRing_sorted. Qed.

Lemma members_ring_pref v ids key rf :
  rf ≠ 0 →
  GetPreferenceList (members_ring v ids) key rf =
    take rf (owners_clockwise (members_ring v ids) key).
Proof.
  intros Hrf. rewrite GetPreferenceList_clockwise by apply members_ring_sorted.
  by rewrite decide_False.
Qed.

Lemma clockwise_perm t l : clockwise t l ≡ₚ l.
Proof.
  unfold clockwise. induction l as [|p l IH]; simpl; [done|].
  destruct (t <=? p)%N; simpl; [by rewrite IH|]. by rewrite <-Permutation_middle, IH.
Qed.

(** Every position of the ring has an owner, one of the members. *)
Lemma members_ring_owner v ids pos :
  pos ∈ ring (members_ring v ids) → owner (members_ring v ids) pos ∈ ids.
Proof.
  destruct (members_ring_of v ids) as [_ Hdom Hown _]. intros [id Hid]%Hdom.
  rewrite (owner_Some _ _ _ Hid). destruct (Hown _ _ Hid) as [(i & Hi & _) _].
  by apply elem_of_all_slots in Hi as [? _].
Qed.

Lemma owners_clockwise_elem v ids key id :
  id ∈ owners_clockwise (members_ring v ids) key ↔
  ∃ pos, pos ∈ ring (members_ring v ids) ∧ owner (members_ring v ids) pos = id.
Proof.
  unfold owners_clockwise. rewrite firsts_elem, list_elem_of_fmap.
  setoid_rewrite clockwise_perm. set_solver.
Qed.

(** ** Adding a member *)

(** [id] claims no position another member holds. *)
Definition no_collision (v : nat) (ids : list string) (id : string) : Prop :=
  ∀ i, i < v → slot_pos (id, i) ∉ ring (members_ring v ids).

Lemma ring_in_claims v ids pos :
  pos ∈ ring (members_ring v ids) ↔ ∃ id, claims (all_slots v ids) id pos.
Proof.
  destruct (members_ring_of v ids) as [_ Hdom Hown Hcl]. split.
  - intros [id Hid]%Hdom. exists id. by apply Hown.
  - intros [id Hid]. eauto.
Qed.

Lemma all_slots_snoc v ids id : all_slots v (ids ++ [id]) = all_slots v ids ++ node_slots v id.
Proof. unfold all_slots. rewrite bind_app. simpl. by rewrite app_nil_r. Qed.

Lemma claims_app s1 s2 id pos : claims (s1 ++ s2) id pos ↔ claims s1 id pos ∨ claims s2 id pos.
Proof. unfold claims. setoid_rewrite elem_of_app. naive_solver. Qed.

Lemma claims_node v id id' pos : claims (node_slots v id) id' pos → id' = id.
Proof. intros (i & (j & E & _)%list_elem_of_fmap & _). by simplify_eq. Qed.

(** A position of the grown ring is owned by the new member or by the owner it
    had. *)
Lemma grown_owner v ids id pos :
  pos ∈ ring (members_ring v (ids ++ [id])) →
  owner (members_ring v (ids ++ [id])) pos = id ∨
  (pos ∈ ring (members_ring v ids) ∧
   owner (members_ring v (ids ++ [id])) pos = owner (members_ring v ids) pos).
Proof.
  destruct (members_ring_of v (ids ++ [id])) as [_ D O _].
  destruct (members_ring_of v ids) as [_ D' O' C'].
  intros [o Ho]%D. rewrite (owner_Some _ _ _ Ho). destruct (O _ _ Ho) as [Hc Hmin].
  rewrite all_slots_snoc in Hc, Hmin. apply claims_app in Hc as [Hc|Hc%claims_node]; [|by left].
  right. assert (pos ∈ ring (members_ring v ids)) as Hp by eauto. split; [done|].
  pose proof Hp as [o' Ho']%D'. rewrite (owner_Some _ _ _ Ho'). destruct (O' _ _ Ho') as [Hc' Hmin'].
  apply (anti_symm String.le); [|by apply Hmin'].
  apply Hmin. apply claims_app. by left.
Qed.

Lemma grown_subset v ids id pos :
  pos ∈ ring (members_ring v ids) → pos ∈ ring (members_ring v (ids ++ [id])).
Proof.
  rewrite !ring_in_claims, all_slots_snoc. intros [o Ho]. exists o. apply claims_app. by left.
Qed.

Lemma bfilter_sorted (f : N → bool) l : StronglySorted N.le l → StronglySorted N.le (bfilter f l).
Proof.
  induction 1 as [|x l Hl IH Hx]; simpl; [constructor|]. destruct (f x); [|done].
  constructor; [done|]. rewrite Forall_forall in *. intros y [_ Hy]%elem_of_bfilter. auto.
Qed.

Lemma bfilter_nodup {A} (f : A → bool) l : NoDup l → NoDup (bfilter f l).
Proof.
  induction 1 as [|x l Hx Hl IH]; simpl; [constructor|]. destruct (f x); [|done].
  constructor; [|done]. rewrite elem_of_bfilter. naive_solver.
Qed.

(** Without the new member's own positions, the grown ring is the old one. *)
Lemma grown_ring_filter v ids id :
  bfilter (λ p, bool_decide (p ∈ ring (members_ring v ids))) (ring (members_ring v (ids ++ [id]))) =
  ring (members_ring v ids).
Proof.
  apply (StronglySorted_unique N.le).
  - apply bfilter_sorted, members_ring_sorted.
  - apply members_ring_sorted.
  - apply NoDup_Permutation.
    + apply bfilter_nodup. apply (members_ring_of v (ids ++ [id])).
    + apply (members_ring_of v ids).
    + intros p. rewrite elem_of_bfilter, bool_decide_eq_true. split; [by intros []|].
      intros Hp. split; [done|by apply grown_subset].
Qed.

Lemma clockwise_bfilter t (f : N → bool) l : bfilter f (clockwise t l) = clockwise t (bfilter f l).
Proof.
  unfold clockwise. rewrite bfilter_app, !bfilter_bfilter. f_equal; apply bfilter_ext;
    intros; apply andb_comm.
Qed.

Lemma firsts_bfilter (f : string → bool) seen l :
  firsts seen (bfilter f l) = bfilter f (firsts seen l).
Proof.
  revert seen. induction l as [|x l IH]; intros seen; simpl; [done|].
  destruct (f x) eqn:E; simpl.
  - case_decide; [done|]. simpl. rewrite E. by rewrite IH.
  - case_decide; [done|]. simpl. rewrite E, <-IH. apply firsts_ext.
    intros y [Hy _]%elem_of_bfilter. assert (y ≠ x) by congruence. set_solver.
Qed.

Lemma bfilter_take_prefix {A} (f : A → bool) n l : bfilter f (take n l) `prefix_of` take n (bfilter f l).
Proof.
  revert n. induction l as [|x l IH]; intros [|n]; simpl; try by apply prefix_nil.
  destruct (f x); [by apply prefix_cons|]. etrans; [apply IH|].
  replace n with (n `min` S n) at 1 by lia. rewrite <-take_take. apply prefix_take.
Qed.

Lemma sortRing_idemp hr : sortRing (sortRing hr) = sortRing hr.
Proof.
  unfold sortRing. simpl. f_equal.
  apply (StronglySorted_unique N.le); try (apply StronglySorted_merge_sort; apply _).
  apply merge_sort_Permutation.
Qed.

Lemma AddNode_fold v ids :
  fold_left AddNode ids (NewHashRing v) = members_ring v ids.
Proof.
  assert (∀ slots hr, ring_of slots hr → sortRing hr = hr →
    ring_of (slots ++ all_slots (virtualNodesPerPhysical hr) ids) (fold_left AddNode ids hr) ∧
    virtualNodesPerPhysical (fold_left AddNode ids hr) = virtualNodesPerPhysical hr ∧
    sortRing (fold_left AddNode ids hr) = fold_left AddNode ids hr) as G.
  { induction ids as [|id ids IH]; intros slots hr Hr Hs; simpl; [by rewrite app_nil_r|].
    destruct (ring_of_place slots hr id Hr) as [H1 H2]. apply ring_of_sort in H1.
    destruct (IH _ (AddNode hr id) H1 (sortRing_idemp _)) as (H3 & H4 & H5).
    assert (virtualNodesPerPhysical (AddNode hr id) = virtualNodesPerPhysical hr) as E by done.
    rewrite E in H3, H4. by rewrite <-app_assoc in H3. }
  destruct (G [] (NewHashRing v) (ring_of_new v) eq_refl) as (H1 & H2 & H3). rewrite <-H3.
  destruct (ring_of_places [] (NewHashRing v) ids (ring_of_new v)) as [P1 P2].
  apply (ring_of_unique _ _ _ _ (λ s, iff_refl _) H1 P1). congruence.
Qed.

Lemma claims_members v ids id pos :
  claims (all_slots v ids) id pos ↔
  id ∈ ids ∧ ∃ i, i < v ∧ hashKey (virtualNodeKey id i) = pos.
Proof. unfold claims. setoid_rewrite elem_of_all_slots. simpl. naive_solver. Qed.

Lemma firsts_hd x l : hd_error (firsts ∅ (x :: l)) = Some x.
Proof. simpl. by rewrite decide_False by set_solver. Qed.

Lemma pref_hd v ids key :
  hd_error (GetPreferenceList (members_ring v ids) key 1) =
  owner (members_ring v ids) <$> hd_error (clockwise (hashKey key) (ring (members_ring v ids))).
Proof.
  rewrite members_ring_pref by done. unfold owners_clockwise.
  destruct (clockwise _ _) as [|p l]; [done|]. rewrite fmap_cons.
  simpl. by rewrite decide_False by set_solver.
Qed.

(** The old clockwise order is the grown one without the new positions. *)
Lemma grown_clockwise v ids id t :
  clockwise t (ring (members_ring v ids)) =
  bfilter (λ p, bool_decide (p ∈ ring (members_ring v ids)))
    (clockwise t (ring (members_ring v (ids ++ [id])))).
Proof. by rewrite clockwise_bfilter, grown_ring_filter. Qed.

(** A new member takes no slot of another one if its positions are new. *)
Lemma no_collision_keeps_slots v ids id pos :
  no_collision v ids id → id ∉ ids → pos ∈ ring (members_ring v ids) →
  owner (members_ring v (ids ++ [id])) pos ≠ id.
Proof.
  intros Hnc Hid Hin E. assert (pos ∈ ring (members_ring v (ids ++ [id]))) as Hpos by by apply grown_subset.
  apply (members_ring_of v (ids ++ [id])) in Hpos as [o Ho]. rewrite (owner_Some _ _ _ Ho) in E. subst o.
  destruct (members_ring_of v (ids ++ [id])) as [_ _ O _]. destruct (O _ _ Ho) as [Hc _]. rewrite all_slots_snoc in Hc.
  apply claims_app in Hc as [Hc|Hc].
  - apply claims_members in Hc as [? _]. done.
  - destruct Hc as (i & (j & E & Hj)%list_elem_of_fmap & <-). simplify_eq. apply elem_of_seq in Hj. by apply (Hnc j); [lia|].
Qed.

Lemma grown_own_slots v ids id pos :
  (∀ p, p ∈ ring (members_ring v ids) → owner (members_ring v (ids ++ [id])) p ≠ id) →
  pos ∈ ring (members_ring v (ids ++ [id])) →
  bool_decide (pos ∈ ring (members_ring v ids)) = bool_decide (owner (members_ring v (ids ++ [id])) pos ≠ id).
Proof.
  intros Hns Hpos. apply bool_decide_ext. split; [apply Hns|]. intros Hne. by destruct (grown_owner _ _ _ _ Hpos) as [?|[? _]].
Qed.

(** ** Results *)

(** C14: a ring is a pure function of the member set.  For distinct non-empty
    ids, [NewHashRingFromMembers] succeeds, gives the same ring for every order
    of the ids and the ring [AddNode]-ing them one by one gives; its positions
    are sorted and distinct, and each is owned by the lowest id with a virtual
    node there.  Any other id list is refused. *)
Theorem ring_independent_of_order (v : nat) (ids ids' : list string) :
  ids ≡ₚ ids' →
  (NoDup ids ∧ "" ∉ ids → ∃ hr,
     NewHashRingFromMembers v ids = Ok hr ∧ NewHashRingFromMembers v ids' = Ok hr ∧
     fold_left AddNode ids' (NewHashRing v) = hr ∧
     StronglySorted N.le (ring hr) ∧ NoDup (ring hr) ∧
     (∀ pos, pos ∈ ring hr ↔ is_Some (nodeMap hr !! pos)) ∧
     (∀ pos id, nodeMap hr !! pos = Some id →
        (id ∈ ids ∧ ∃ i, i < v ∧ hashKey (virtualNodeKey id i) = pos) ∧
        ∀ id', id' ∈ ids → (∃ i, i < v ∧ hashKey (virtualNodeKey id' i) = pos) → String.le id id')) ∧
  (¬ (NoDup ids ∧ "" ∉ ids) → ∃ e, NewHashRingFromMembers v ids = Err e).
Proof.
  intros Hp. split.
  - intros [Hnd Hne]. exists (members_ring v ids).
    assert (members_ring v ids = members_ring v ids') as E.
    { destruct (ring_of_places [] (NewHashRing v) ids (ring_of_new v)) as [R1 V1].
      destruct (ring_of_places [] (NewHashRing v) ids' (ring_of_new v)) as [R2 V2].
      apply (ring_of_unique (all_slots v ids) (all_slots v ids')); [|done|done|congruence].
      intros s. by rewrite !elem_of_all_slots, Hp. }
    rewrite !NewHashRingFromMembers_ok by (try done; by rewrite <-Hp). rewrite AddNode_fold.
    destruct (members_ring_of v ids) as [Hn D O _].
    split; [done|]. split; [by fold (members_ring v ids'); rewrite E|].
    split; [by rewrite E|]. split; [apply members_ring_sorted|]. split; [done|]. split; [done|].
    intros pos id Ho. destruct (O pos id Ho) as [Hc Hmin].
    split; [by apply claims_members|]. intros id' Hid Hi. apply Hmin. by apply claims_members.
  - intros Hbad. unfold NewHashRingFromMembers. destruct (check_ids ∅ ids) as [e|] eqn:E; [eauto|].
    apply check_ids_None in E as (? & ? & _). by destruct Hbad.
Qed.

Lemma ring_independent_of_order_witness :
  ∃ hr, NewHashRingFromMembers 3 ["kv-1"; "kv-0"] = Ok hr ∧
        NewHashRingFromMembers 3 ["kv-0"; "kv-1"] = Ok hr.
Proof.
  destruct (proj1 (ring_independent_of_order 3 ["kv-1"; "kv-0"] ["kv-0"; "kv-1"]
    ltac:(apply perm_swap))) as (hr & H1 & H2 & _).
  - split; [|set_solver]. apply (bool_decide_unpack _). vm_compute. exact I.
  - exists hr. done.
Defined.

Lemma preference_list_distinct (v : nat) (ids : list string) (hr : HashRing) (key : string) (rf : nat) :
  NewHashRingFromMembers v ids = Ok hr → 0 < rf →
  NoDup (GetPreferenceList hr key rf) ∧ length (GetPreferenceList hr key rf) ≤ rf.
Proof.
  unfold NewHashRingFromMembers. destruct (check_ids ∅ ids); [done|]. intros [= <-] Hrf.
  fold (members_ring v ids). rewrite members_ring_pref by lia. split.
  - eapply sublist_NoDup; [apply firsts_nodup|apply sublist_take].
  - rewrite length_take. lia.
Qed.

(** A preference list is the clockwise walk from the key's hash: the first
    [rf] distinct owners, so it has no duplicates, names only members, and is
    shorter than [rf] only when it names every member that owns a position. *)
Theorem preference_list_clockwise (v : nat) (ids : list string) (hr : HashRing) (key : string) (rf : nat) :
  NewHashRingFromMembers v ids = Ok hr → 0 < rf →
  let pl := GetPreferenceList hr key rf in
  pl = take rf (firsts ∅ (owner hr <$> clockwise (hashKey key) (ring hr))) ∧
  NoDup pl ∧ (∀ id, id ∈ pl → id ∈ ids) ∧ length pl ≤ rf ∧
  (length pl < rf → ∀ pos, pos ∈ ring hr → owner hr pos ∈ pl).
Proof.
  unfold NewHashRingFromMembers. destruct (check_ids ∅ ids); [done|]. intros [= <-] Hrf.
  fold (members_ring v ids). rewrite members_ring_pref by lia. split; [done|]. split_and!.
  - eapply sublist_NoDup; [apply firsts_nodup|apply sublist_take].
  - intros id Hid%elem_of_take. destruct Hid as (i & Hi & _).
    apply list_elem_of_lookup_2, owners_clockwise_elem in Hi as (p & Hp & <-).
    by apply members_ring_owner.
  - rewrite length_take. lia.
  - rewrite length_take. intros Hl pos Hpos. rewrite take_ge by lia.
    apply owners_clockwise_elem. eauto.
Qed.

Definition ring_example : HashRing := members_ring 2 ["kv-0"; "kv-1"; "kv-2"].

Lemma preference_list_clockwise_witness :
  NoDup (GetPreferenceList ring_example "greeting" 2) ∧
  length (GetPreferenceList ring_example "greeting" 2) ≤ 2.
Proof.
  destruct (preference_list_clockwise 2 ["kv-0"; "kv-1"; "kv-2"] ring_example "greeting" 2)
    as (_ & H1 & _ & H2 & _); [vm_compute; reflexivity|lia|]. split; [exact H1|exact H2].
Defined.

(** C15: adding a member moves primaries only to it, and whole preference lists
    too if it takes over no slot.  The primary of every key stays what it was or
    becomes the new member.  If no position of the ring changes to the new
    member (it would where their hashes collide and its id is the lower one),
    every preference list without the new member is an initial part of what it
    was; this is so in particular if none of its positions is on the ring. *)
Theorem adding_a_member_moves_keys_only_to_it
    (v : nat) (ids : list string) (id key : string) (hr hr' : HashRing) (rf : nat) :
  NewHashRingFromMembers v ids = Ok hr →
  NewHashRingFromMembers v (ids ++ [id]) = Ok hr' → 0 < rf →
  (hd_error (GetPreferenceList hr' key 1) = Some id ∨
   hd_error (GetPreferenceList hr' key 1) = hd_error (GetPreferenceList hr key 1)) ∧
  ((∀ p, p ∈ ring hr → owner hr' p ≠ id) →
   bfilter (λ n, bool_decide (n ≠ id)) (GetPreferenceList hr' key rf)
     `prefix_of` GetPreferenceList hr key rf) ∧
  ((∀ i, i < v → hashKey (virtualNodeKey id i) ∉ ring hr) → ∀ p, p ∈ ring hr → owner hr' p ≠ id).
Proof.
  unfold NewHashRingFromMembers. destruct (check_ids ∅ ids) eqn:E1; [done|]. intros [= <-].
  destruct (check_ids ∅ (ids ++ [id])) eqn:E2; [done|]. intros [= <-] Hrf.
  fold (members_ring v ids) (members_ring v (ids ++ [id])).
  assert (id ∉ ids) as Hid.
  { apply check_ids_None in E2 as (Hnd & _). apply NoDup_app in Hnd as (_ & Hd & _). set_solver. }
  split; [|split; [|intros Hnc p; by apply no_collision_keeps_slots]].
  - rewrite !pref_hd, (grown_clockwise v ids id).
    pose proof (clockwise_perm (hashKey key) (ring (members_ring v (ids ++ [id])))) as Hperm.
    destruct (clockwise (hashKey key) (ring (members_ring v (ids ++ [id])))) as [|p l]; [by right|].
    assert (p ∈ ring (members_ring v (ids ++ [id]))) as Hp by (rewrite <-Hperm; set_solver).
    destruct (grown_owner _ _ _ _ Hp) as [Ho|[Hin Ho]]; [left|right];
      (etrans; [exact (f_equal Some Ho)|]); [done|].
    cbn [bfilter]. by rewrite bool_decide_true.
  - intros Hns. rewrite !members_ring_pref by lia.
    etrans; [apply bfilter_take_prefix|]. apply reflexive_eq. f_equal.
    unfold owners_clockwise. rewrite <-firsts_bfilter, (grown_clockwise v ids id). f_equal.
    rewrite (bfilter_map (owner (members_ring v (ids ++ [id])))).
    rewrite (bfilter_ext (λ p, bool_decide (owner (members_ring v (ids ++ [id])) p ≠ id))
      (λ p, bool_decide (p ∈ ring (members_ring v ids)))).
    + apply list_fmap_ext. intros i p Hp. apply list_elem_of_lookup_2, elem_of_bfilter in Hp as [Hin Hp].
      apply bool_decide_eq_true in Hin. rewrite clockwise_perm in Hp.
      destruct (grown_owner _ _ _ _ Hp) as [Ho|[_ Ho]]; [|done].
      pose proof (grown_own_slots v ids id p Hns Hp) as Hd.
      rewrite !bool_decide_decide in Hd. repeat case_decide; done.
    + intros p Hp. rewrite clockwise_perm in Hp. symmetry. by apply grown_own_slots.
Qed.

Lemma adding_a_member_moves_keys_only_to_it_witness :
  bfilter (λ n, bool_decide (n ≠ "kv-2")) (GetPreferenceList ring_example "greeting" 2)
    `prefix_of` GetPreferenceList (members_ring 2 ["kv-0"; "kv-1"]) "greeting" 2.
Proof.
  destruct (adding_a_member_moves_keys_only_to_it 2 ["kv-0"; "kv-1"] "kv-2" "greeting"
    (members_ring 2 ["kv-0"; "kv-1"]) ring_example 2
    ltac:(vm_compute; reflexivity) ltac:(vm_compute; reflexivity) ltac:(lia)) as (_ & Hp & Hc).
  apply Hp, Hc.
  intros i Hi. apply (bool_decide_unpack _).
  destruct i as [|[|i]]; [vm_compute; exact I|vm_compute; exact I|lia].
Defined.
