(* ===== verification/Json.v ===== *)
(** * The interface to [encoding/json]

    The storage and wire formats are JSON.  The encoder is Go's; what the
    program relies on is stated as a class: decoding what was encoded gives the
    value back, for the values JSON can carry faithfully (valid UTF-8 strings,
    bounded nesting).  A codec built on [Countable] shows the laws can hold. *)

From stdpp Require Import gmap strings list countable.
From Stdlib Require Import ZArith Lia Ascii.
From S2P Require Import Prelude GoLib VectorClock Versioning.

(** [json.Marshal] and [json.Unmarshal] at one Go type; [None] is an error. *)
Class JsonCodec (A : Type) := {
  json_marshal : A → option bytes;
  json_unmarshal : bytes → option A
}.

(** The law, for the values [ok] describes. *)
Class JsonRoundTrip (A : Type) `{JsonCodec A} (ok : A → Prop) : Prop :=
  json_roundtrip : ∀ x b, ok x → json_marshal x = Some b → json_unmarshal b = Some x.

(** ** Values JSON carries faithfully *)

(** [json.Marshal] replaces invalid UTF-8 in strings, so only valid strings
    survive.  This is [utf8.Valid]. *)
Definition utf8_cont (b : N) : bool := (0x80 <=? b)%N && (b <=? 0xbf)%N.

Fixpoint utf8_valid (b : list N) : bool :=
  match b with
  | [] => true
  | b0 :: r =>
      if (b0 <? 0x80)%N then utf8_valid r
      else match r with
      | b1 :: r1 =>
          if (0xc2 <=? b0)%N && (b0 <=? 0xdf)%N then utf8_cont b1 && utf8_valid r1
          else match r1 with
          | b2 :: r2 =>
              if (0xe0 <=? b0)%N && (b0 <=? 0xef)%N then
                utf8_cont b1 && utf8_cont b2 &&
                (if (b0 =? 0xe0)%N then (0xa0 <=? b1)%N else true) &&
                (if (b0 =? 0xed)%N then (b1 <=? 0x9f)%N else true) && utf8_valid r2
              else match r2 with
              | b3 :: r3 =>
                  (0xf0 <=? b0)%N && (b0 <=? 0xf4)%N &&
                  utf8_cont b1 && utf8_cont b2 && utf8_cont b3 &&
                  (if (b0 =? 0xf0)%N then (0x90 <=? b1)%N else true) &&
                  (if (b0 =? 0xf4)%N then (b1 <=? 0x8f)%N else true) && utf8_valid r3
              | [] => false
              end
          | [] => false
          end
      | [] => false
      end
  end.

Definition string_ok (s : string) : bool := utf8_valid (N_of_ascii <$> to_bytes s).

Fixpoint value_depth (v : value) : nat :=
  match v with
  | VSlice l => S (foldr (λ w n, value_depth w `max` n) 0 l)
  | VMap m => S (foldr (λ p n, value_depth p.2 `max` n) 0 m)
  | _ => 0
  end.

Fixpoint value_strings_ok (v : value) : bool :=
  match v with
  | VString s => string_ok s
  | VSlice l => forallb value_strings_ok l
  | VMap m => forallb (λ p, string_ok p.1 && value_strings_ok p.2) m
  | _ => true
  end.

(** A decoded [map[string]any] has distinct keys; they are listed in order. *)
Fixpoint value_maps_ok (v : value) : bool :=
  match v with
  | VSlice l => forallb value_maps_ok l
  | VMap m =>
      (fix sorted m := match m with
       | p :: ((q :: _) as m') => String.ltb p.1 q.1 && sorted m'
       | _ => true
       end) m && forallb (λ p, value_maps_ok p.2) m
  | _ => true
  end.

(** The decoder gives up beyond 10000 levels of nesting; the records around a
    value add a few. *)
Definition value_ok (v : value) : Prop :=
  value_strings_ok v = true ∧ value_maps_ok v = true ∧ (N.of_nat (value_depth v) ≤ 9990)%N.

Definition clock_names_ok (c : gmap string N) : Prop := map_Forall (λ k _, string_ok k = true) c.

(** A data item that survives being stored and read back. *)
Definition item_ok (i : DataItem) : Prop :=
  value_ok (Value i) ∧ clock_names_ok (state (Clock i)) ∧ string_ok (LastUpdatedBy i) = true.

(** ** A codec that satisfies the law *)

Fixpoint bits_of (p : positive) : bytes :=
  match p with
  | xH => []
  | xO p' => "0"%char :: bits_of p'
  | xI p' => "1"%char :: bits_of p'
  end.

Fixpoint of_bits (b : bytes) : positive :=
  match b with
  | [] => xH
  | c :: b' => if bool_decide (c = "0"%char) then xO (of_bits b') else xI (of_bits b')
  end.

Lemma of_bits_bits_of p : of_bits (bits_of p) = p.
Proof. induction p; simpl; congruence. Qed.

Definition countable_codec (A : Type) `{Countable A} : JsonCodec A := {|
  json_marshal x := Some (bits_of (encode x));
  json_unmarshal b := decode (of_bits b)
|}.

Lemma countable_codec_roundtrip (A : Type) `{Countable A} (ok : A → Prop) :
  @JsonRoundTrip A (countable_codec A) ok.
Proof.
  intros x b _ E. simpl in *. injection E as <-. by rewrite of_bits_bits_of, decode_encode.
Qed.

(** [value] is countable: it is a tree of strings, integers and booleans. *)
Fixpoint value_tree (v : value) : gen_tree (bool + Z + string) :=
  match v with
  | VNil => GenNode 0 []
  | VBool b => GenLeaf (inl (inl b))
  | VFloat64 z => GenLeaf (inl (inr z))
  | VString s => GenLeaf (inr s)
  | VSlice l => GenNode 1 (map value_tree l)
  | VMap m => GenNode 2 (map (λ p, GenNode 0 [GenLeaf (inr p.1); value_tree p.2]) m)
  end.

Fixpoint tree_value (t : gen_tree (bool + Z + string)) : value :=
  match t with
  | GenLeaf (inl (inl b)) => VBool b
  | GenLeaf (inl (inr z)) => VFloat64 z
  | GenLeaf (inr s) => VString s
  | GenNode 1 l => VSlice (map tree_value l)
  | GenNode 2 l => VMap (map (λ n, match n with
                               | GenNode _ [GenLeaf (inr k); w] => (k, tree_value w)
                               | _ => ("", VNil)
                               end) l)
  | GenNode _ _ => VNil
  end.

Lemma tree_value_tree : ∀ v, tree_value (value_tree v) = v.
Proof.
  fix IH 1. intros [| | | |l|m]; simpl; try done; f_equal.
  - induction l as [|v l IHl]; simpl; [done|]. by rewrite IH, IHl.
  - induction m as [|[k v] m IHm]; simpl; [done|]. by rewrite IH, IHm.
Qed.

#[export] Instance value_tree_inj : Inj (=) (=) value_tree.
Proof. intros v w E. by rewrite <-(tree_value_tree v), E, tree_value_tree. Qed.

#[export] Instance value_eq_dec : EqDecision value.
Proof.
  intros v w. destruct (decide (value_tree v = value_tree w)) as [E|E].
  - left. by apply (inj value_tree).
  - right. congruence.
Defined.

#[export] Instance value_countable : Countable value :=
  inj_countable' value_tree tree_value tree_value_tree.

#[export] Instance VectorClock_eq_dec : EqDecision VectorClock.
Proof. solve_decision. Defined.

#[export] Instance DataItem_eq_dec : EqDecision DataItem.
Proof. solve_decision. Defined.

#[export] Instance itemptr_eq_dec : EqDecision itemptr.
Proof. solve_decision. Defined.

(** The codec of values the witnesses run with. *)
Definition toy_value_json : JsonCodec value := countable_codec value.
