(* ===== verification/Memtable.v ===== *)
(** * The memtable (internal/storage/memtable/memtable.go)

    A sorted, size-tracked table of sibling sets over google/btree, which is a
    third-party ordered map and therefore a parameter.  The file holds every
    operation, the invariant they keep (sibling sets are non-empty and
    pairwise concurrent, the size estimate is exact), and what each operation
    does to the set a key maps to. *)

From stdpp Require Import gmap strings list sorting.
From Stdlib Require Import ZArith Lia Ascii.
From S2P Require Import Prelude GoLib VectorClock Versioning Json.

(** ** google/btree *)

(** The operations the memtable uses of a [*btree.BTree] of [entry]s. *)
Class BTree (V T : Type) := {
  bt_New : T;
  bt_Get : T → string → option V;
  bt_ReplaceOrInsert : T → string → V → T;
  bt_Delete : T → string → T;
  bt_Ascend : T → list (string * V);
  bt_Len : T → nat
}.

(** What its documentation promises: an ordered map.  [bt_map] is the map a
    tree stands for. *)
Class BTreeSpec (V T : Type) `{BTree V T} := {
  bt_map : T → gmap string V;
  bt_New_spec : bt_map bt_New = ∅;
  bt_Get_spec t k : bt_Get t k = bt_map t !! k;
  bt_ReplaceOrInsert_spec t k v : bt_map (bt_ReplaceOrInsert t k v) = <[k := v]> (bt_map t);
  bt_Delete_spec t k : bt_map (bt_Delete t k) = delete k (bt_map t);
  bt_Ascend_elem t k v : (k, v) ∈ bt_Ascend t ↔ bt_map t !! k = Some v;
  bt_Ascend_sorted t : StronglySorted (λ p q, String.ltb p.1 q.1 = true) (bt_Ascend t);
  bt_Len_spec t : bt_Len t = size (bt_map t)
}.

(** ** Operations *)

(** The exported [Entry]: one version of a key. *)
Record Entry := mkEntry { Key : string; Item : itemptr }.

Section memtable.
Context {T : Type} `{!BTree (list itemptr) T} `{!JsonCodec value}.

Record MemTable := mkTable { tree : T; sizeSoFar : Z; maxBytes : Z }.

Definition New (max : Z) : MemTable := mkTable bt_New 0 max.

(** A value that can't be marshalled is sized as empty. *)
Definition estimatedSize (key : string) (item : itemptr) : Z :=
  let valueBytes := default [] (json_marshal (Value (deref item))) in
  Z.of_nat (String.length key) + Z.of_nat (length valueBytes) + 64.

Fixpoint setSize (key : string) (items : list itemptr) : Z :=
  match items with
  | [] => 0
  | item :: rest => estimatedSize key item + setSize key rest
  end.

(** A missing key is the nil set. *)
Definition current (m : MemTable) (key : string) : list itemptr := default [] (bt_Get (tree m) key).

Definition replace (m : MemTable) (key : string) (old items : list itemptr) : MemTable :=
  mkTable (bt_ReplaceOrInsert (tree m) key items)
          (sizeSoFar m + (setSize key items - setSize key old)) (maxBytes m).

(** The two loops of [Put]: [item] first if it survived, then the others. *)
Definition newest_first (item : itemptr) (survivors : list itemptr) : list itemptr :=
  (if existsb (λ s, ptr_eqb s item) survivors then [item] else []) ++
  bfilter (λ s, negb (ptr_eqb s item)) survivors.

Definition Put (m : MemTable) (key : string) (item : itemptr) : MemTable * bool :=
  let old := current m key in
  let survivors := Resolve old item in
  let items := newest_first item survivors in
  let m' := replace m key old items in
  (m', (maxBytes m' <=? sizeSoFar m')%Z).

(** [PutBackOlder]'s first loop: the distinct keys in order of appearance and
    the items of each. *)
Definition group_step (acc : list string * gmap string (list itemptr)) (e : Entry)
    : list string * gmap string (list itemptr) :=
  let '(keys, older) := acc in
  let keys' := match older !! Key e with Some _ => keys | None => keys ++ [Key e] end in
  (keys', <[Key e := default [] (older !! Key e) ++ [Item e]]> older).

Definition group (entries : list Entry) : list string * gmap string (list itemptr) :=
  fold_left group_step entries ([], ∅).

Definition PutBackOlder (m : MemTable) (entries : list Entry) : MemTable :=
  let '(keys, older) := group entries in
  fold_left (λ m key,
    let old := current m key in
    replace m key old (MergeSiblings old (default [] (older !! key)))) keys m.

Definition Replace (m : MemTable) (key : string) (items : list itemptr) : MemTable :=
  let old := current m key in
  match items with
  | [] => mkTable (bt_Delete (tree m) key) (sizeSoFar m - setSize key old) (maxBytes m)
  | _ => replace m key old items
  end.

Definition Keys (m : MemTable) : list string := map fst (bt_Ascend (tree m)).

(** [None] is [(nil, false)]. *)
Definition GetAll (m : MemTable) (key : string) : option (list itemptr) :=
  match current m key with
  | [] => None
  | items => Some items
  end.

Definition entriesLocked (m : MemTable) : list Entry :=
  bt_Ascend (tree m) ≫= λ p, mkEntry p.1 <$> p.2.

Definition Snapshot (m : MemTable) : list Entry := entriesLocked m.

Definition SnapshotAndClear (m : MemTable) : list Entry * MemTable :=
  (entriesLocked m, mkTable bt_New 0 (maxBytes m)).

Definition Len (m : MemTable) : nat := bt_Len (tree m).
Definition Size (m : MemTable) : Z := sizeSoFar m.
End memtable.

Arguments MemTable T : clear implicits.

(** ** Heap discipline *)

(** Pointers that agree on the address agree on what is behind it. *)
Definition coherent (l : list itemptr) : Prop :=
  ∀ p q, p ∈ l → q ∈ l → addr p = addr q → p = q.

Lemma ptr_eqb_spec p q : ptr_eqb p q = true ↔ addr p = addr q.
Proof. unfold ptr_eqb. by rewrite N.eqb_eq. Qed.

(** [Put] only reorders the survivors. *)
Lemma newest_first_perm item l :
  NoDup l → coherent (item :: l) → newest_first item l ≡ₚ l.
Proof.
  intros Hnd Hco. unfold newest_first.
  assert (∀ s, s ∈ l → ptr_eqb s item = bool_decide (s = item)) as E.
  { intros s Hs. apply eq_true_iff_eq. rewrite ptr_eqb_spec, bool_decide_eq_true.
    split; [|by intros ->]. intros Ha. apply Hco; set_solver. }
  rewrite (existsb_ext _ (λ s, bool_decide (s = item))) by done.
  rewrite (bfilter_ext _ (λ s, negb (bool_decide (s = item)))) by (intros; by rewrite E).
  clear E Hco. induction Hnd as [|x l Hx Hl IH]; simpl; [done|].
  destruct (bool_decide_reflect (x = item)) as [->|Hne]; simpl.
  - f_equiv. rewrite bfilter_all; [done|]. intros s Hs.
    rewrite bool_decide_false; [done|]. by intros ->.
  - destruct (existsb _ l); simpl in *; [|by rewrite IH].
    rewrite <-IH at 2. apply perm_swap.
Qed.

(** ** The invariant *)

Section theory.
Context {T : Type} `{!BTree (list itemptr) T} `{!BTreeSpec (list itemptr) T}.
Context `{!JsonCodec value}.
Implicit Types (m : MemTable T) (key k : string) (items : list itemptr).

(** The sibling sets a table holds. *)
Definition contents m : gmap string (list itemptr) := bt_map (tree m).

Lemma current_contents m key : current m key = default [] (contents m !! key).
Proof. unfold current, contents. by rewrite bt_Get_spec. Qed.

(** The estimate of everything the table holds. *)
Definition total_size (c : gmap string (list itemptr)) : Z :=
  map_fold (λ k items acc, (setSize k items + acc)%Z) 0%Z c.

Record mt_ok m : Prop := {
  mt_sets : ∀ k items, contents m !! k = Some items → items ≠ [] ∧ antichain items;
  mt_size : sizeSoFar m = total_size (contents m)
}.

Lemma total_size_insert c k items :
  total_size (<[k := items]> c) =
    (total_size c + (setSize k items - setSize k (default [] (c !! k))))%Z.
Proof.
  unfold total_size. rewrite <-insert_delete_eq.
  rewrite map_fold_insert_L; [|intros; lia|by rewrite lookup_delete_eq].
  destruct (c !! k) as [old|] eqn:E; simpl.
  - rewrite <-(insert_id c k old E) at 2. rewrite <-insert_delete_eq.
    rewrite map_fold_insert_L; [|intros; lia|by rewrite lookup_delete_eq]. lia.
  - rewrite delete_id by done. lia.
Qed.

Lemma total_size_delete c k :
  total_size (delete k c) = (total_size c - setSize k (default [] (c !! k)))%Z.
Proof.
  destruct (c !! k) as [old|] eqn:E; simpl.
  - rewrite <-(insert_delete_id c k old) at 2 by done.
    rewrite total_size_insert, lookup_delete_eq. simpl. lia.
  - rewrite delete_id by done. lia.
Qed.

Lemma replace_contents m key old items :
  contents (replace m key old items) = <[key := items]> (contents m).
Proof. apply bt_ReplaceOrInsert_spec. Qed.

Lemma replace_ok m key items :
  mt_ok m → items ≠ [] → antichain items → mt_ok (replace m key (current m key) items).
Proof.
  intros [Hs Hz] Hne Ha. split.
  - intros k l. rewrite replace_contents, lookup_insert. case_decide; [naive_solver|eauto].
  - rewrite replace_contents, total_size_insert. simpl. by rewrite Hz, current_contents.
Qed.

Lemma current_antichain m key : mt_ok m → antichain (current m key).
Proof.
  intros [Hs _]. rewrite current_contents. destruct (contents m !! key) eqn:E; simpl.
  - by apply (Hs key).
  - constructor.
Qed.

Lemma New_ok max : mt_ok (New max).
Proof.
  split.
  - intros k items. unfold contents. simpl. by rewrite bt_New_spec, lookup_empty.
  - unfold contents, total_size. simpl. by rewrite bt_New_spec, map_fold_empty.
Qed.

Lemma antichain_perm (a b : list itemptr) : a ≡ₚ b → antichain a → antichain b.
Proof.
  unfold antichain. induction 1 as [|x a b Hp IH|x y a|a b c H1 IH1 H2 IH2]; intros Ha; auto.
  - inversion Ha; subst. constructor; [|auto]. by rewrite <-Hp.
  - inversion Ha as [|? ? Hy Ha']; subst. inversion Ha' as [|? ? Hx Ha'']; subst.
    inversion Hy; subst. constructor; [constructor; [tauto|done]|by constructor].
Qed.

(** What [Put] installs: the survivors of [Resolve], the new item first if
    it is one of them. *)
Definition put_set (old : list itemptr) (item : itemptr) : list itemptr :=
  newest_first item (Resolve old item).

Lemma Put_contents m key item :
  contents (Put m key item).1 = <[key := put_set (current m key) item]> (contents m).
Proof. apply replace_contents. Qed.

Lemma put_set_perm old item :
  antichain old → coherent (item :: old) → put_set old item ≡ₚ Resolve old item.
Proof.
  intros Ha Hco. apply newest_first_perm.
  - by apply antichain_NoDup, Resolve_antichain.
  - intros p q Hp Hq. apply Hco;
      [destruct (proj1 (elem_of_cons _ _ _) Hp) as [->|[?| ->]%Resolve_elem]
      |destruct (proj1 (elem_of_cons _ _ _) Hq) as [->|[?| ->]%Resolve_elem]]; set_solver.
Qed.

Lemma covered_perm c (a b : list itemptr) : a ≡ₚ b → covered c a ↔ covered c b.
Proof. intros Hp. unfold covered. by setoid_rewrite Hp. Qed.

Lemma put_set_covered old item c :
  antichain old → coherent (item :: old) →
  covered c (put_set old item) ↔ covered c old ∨ c ⊑c clock item.
Proof. intros Ha Hco. by rewrite (covered_perm c _ _ (put_set_perm _ _ Ha Hco)), covered_Resolve. Qed.

Lemma put_set_nonempty old item :
  antichain old → coherent (item :: old) → put_set old item ≠ [].
Proof.
  intros Ha Hco E. assert (covered (clock item) (put_set old item)) as Hc.
  { apply put_set_covered; [done|done|]. right. reflexivity. }
  rewrite E in Hc. by apply covered_nil in Hc.
Qed.

Lemma Put_ok m key item :
  mt_ok m → coherent (item :: current m key) → mt_ok (Put m key item).1.
Proof.
  intros Hm Hco. pose proof (current_antichain m key Hm) as Ha. apply replace_ok; [done|..].
  - by apply put_set_nonempty.
  - eapply antichain_perm; [symmetry; by apply put_set_perm|]. by apply Resolve_antichain.
Qed.

Lemma Replace_contents m key items :
  contents (Replace m key items) =
    match items with [] => delete key (contents m) | _ => <[key := items]> (contents m) end.
Proof. destruct items; [apply bt_Delete_spec|apply replace_contents]. Qed.

Lemma Replace_ok m key items : mt_ok m → antichain items → mt_ok (Replace m key items).
Proof.
  intros Hm Ha. destruct items as [|i l]; [|by apply replace_ok]. destruct Hm as [Hs Hz]. split.
  - intros k l. rewrite Replace_contents, lookup_delete. case_decide; [done|eauto].
  - rewrite Replace_contents, total_size_delete. simpl. by rewrite Hz, current_contents.
Qed.

Lemma GetAll_contents m key : mt_ok m → GetAll m key = contents m !! key.
Proof.
  intros [Hs _]. unfold GetAll. rewrite current_contents.
  destruct (contents m !! key) as [[|i l]|] eqn:E; simpl; try done. by destruct (Hs _ _ E).
Qed.
End theory.

#[export] Hint Resolve New_ok Put_ok Replace_ok current_antichain : kv.

(** ** Entry lists *)

(** The versions of [k] in an entry list, in order. *)
Definition items_of (k : string) (entries : list Entry) : list itemptr :=
  Item <$> bfilter (λ e, bool_decide (Key e = k)) entries.

Lemma items_of_app k l1 l2 : items_of k (l1 ++ l2) = items_of k l1 ++ items_of k l2.
Proof. unfold items_of. by rewrite bfilter_app, fmap_app. Qed.

Lemma items_of_cons k e l :
  items_of k (e :: l) = (if decide (Key e = k) then [Item e] else []) ++ items_of k l.
Proof.
  unfold items_of. simpl. rewrite bool_decide_decide. by destruct (decide (Key e = k)).
Qed.

Lemma items_of_same k items : items_of k (mkEntry k <$> items) = items.
Proof.
  induction items as [|i l IH]; [done|]. rewrite fmap_cons, items_of_cons.
  rewrite decide_True by done. simpl. by rewrite IH.
Qed.

Lemma items_of_other k k' items : k ≠ k' → items_of k' (mkEntry k <$> items) = [].
Proof.
  intros Hne. induction items as [|i l IH]; [done|]. rewrite fmap_cons, items_of_cons.
  by rewrite decide_False.
Qed.

Lemma items_of_elem k i l : i ∈ items_of k l ↔ mkEntry k i ∈ l.
Proof.
  unfold items_of. rewrite list_elem_of_fmap. setoid_rewrite elem_of_bfilter.
  setoid_rewrite bool_decide_eq_true. split.
  - intros ([k' i'] & -> & Hk & Hin). simpl in *. by subst.
  - intros Hin. by exists (mkEntry k i).
Qed.

Lemma group_snoc l e : group (l ++ [e]) = group_step (group l) e.
Proof. unfold group. by rewrite fold_left_app. Qed.

Lemma group_spec l :
  NoDup (group l).1 ∧ (∀ k, k ∈ (group l).1 ↔ items_of k l ≠ []) ∧
  (∀ k, default [] ((group l).2 !! k) = items_of k l) ∧
  (∀ k, is_Some ((group l).2 !! k) ↔ k ∈ (group l).1).
Proof.
  induction l as [|e l (Hnd & Hk & Hi & Hs)] using rev_ind.
  - simpl. split_and!; [constructor|set_solver..|].
    intros k. rewrite lookup_empty. split; [by intros []|set_solver].
  - rewrite group_snoc. destruct (group l) as [keys older]. simpl in *.
    setoid_rewrite items_of_app. setoid_rewrite items_of_cons. simpl.
    assert (∀ k, k ∈ match older !! Key e with Some _ => keys | None => keys ++ [Key e] end
              ↔ k ∈ keys ∨ k = Key e) as Hkeys.
    { intros k. destruct (older !! Key e) eqn:E; [|set_solver].
      split; [tauto|]. intros [?| ->]; [done|]. apply Hs. eauto. }
    split_and!.
    + destruct (older !! Key e) eqn:E; [done|]. apply NoDup_app.
      split_and!; [done| |apply NoDup_singleton].
      intros k Hin ->%list_elem_of_singleton. apply Hs in Hin. rewrite E in Hin. by destruct Hin.
    + intros k. rewrite Hkeys, Hk. case_decide; subst.
      * split; [|tauto]. intros _ E. apply app_eq_nil in E as [_ ?]. done.
      * rewrite !app_nil_r. naive_solver.
    + intros k. rewrite lookup_insert.
      destruct (decide (Key e = k)) as [<-|]; simpl; by rewrite Hi, ?app_nil_r.
    + intros k. rewrite Hkeys, lookup_insert. case_decide; subst; [naive_solver|].
      rewrite Hs. naive_solver.
Qed.

Section entries.
Context {T : Type} `{!BTree (list itemptr) T} `{!BTreeSpec (list itemptr) T}.
Context `{!JsonCodec value}.
Implicit Types (m : MemTable T) (k : string).

Lemma merge_keys_contents m (older : gmap string (list itemptr)) keys k :
  NoDup keys →
  contents (fold_left (λ m key,
    replace m key (current m key) (MergeSiblings (current m key) (default [] (older !! key)))) keys m)
    !! k =
  if decide (k ∈ keys) then Some (MergeSiblings (current m k) (default [] (older !! k)))
  else contents m !! k.
Proof.
  intros Hnd. revert m. induction Hnd as [|key keys Hkey Hnd IH]; intros m; simpl.
  - destruct (decide (k ∈ [])); [set_solver|done].
  - rewrite IH, !current_contents, !replace_contents, !lookup_insert.
    destruct (decide (key = k)) as [<-|Hne]; destruct (decide (_ ∈ keys)) as [Hin|Hin];
      destruct (decide (_ ∈ key :: keys)) as [Hin'|Hin']; try done; set_solver.
Qed.

Lemma PutBackOlder_contents m entries k :
  contents (PutBackOlder m entries) !! k =
    match items_of k entries with
    | [] => contents m !! k
    | items => Some (MergeSiblings (current m k) items)
    end.
Proof.
  unfold PutBackOlder. destruct (group_spec entries) as (Hnd & Hk & Hi & _).
  destruct (group entries) as [keys older]. simpl in *.
  rewrite merge_keys_contents by done. rewrite Hi. specialize (Hk k).
  destruct (items_of k entries) eqn:E; [rewrite decide_False|rewrite decide_True]; naive_solver.
Qed.

Lemma PutBackOlder_current m entries k :
  mt_ok m → current (PutBackOlder m entries) k = MergeSiblings (current m k) (items_of k entries).
Proof.
  intros Hm. rewrite (current_contents (PutBackOlder m entries)), PutBackOlder_contents.
  destruct (items_of k entries); [|done]. by rewrite <-current_contents.
Qed.

Lemma PutBackOlder_ok m entries : mt_ok m → mt_ok (PutBackOlder m entries).
Proof.
  unfold PutBackOlder. destruct (group_spec entries) as (_ & Hk & Hi & _).
  destruct (group entries) as [keys older]. simpl in *.
  assert (∀ k, k ∈ keys → default [] (older !! k) ≠ []) as Hne.
  { intros k Hin. rewrite Hi. by apply Hk. }
  clear Hk Hi. revert m. induction keys as [|k keys IH]; intros m Hm; simpl; [done|].
  apply IH; [set_solver|]. apply replace_ok; [done| |].
  - intros E. assert (∃ i, i ∈ default [] (older !! k)) as [i Hin].
    { specialize (Hne k ltac:(set_solver)). destruct (default [] (older !! k)); set_solver. }
    apply covered_elem in Hin. apply (or_intror (A := covered (clock i) (current m k))) in Hin.
    apply covered_MergeSiblings in Hin. rewrite E in Hin. by apply covered_nil in Hin.
  - by apply MergeSiblings_antichain, current_antichain.
Qed.

Lemma ascend_absent (l : list (string * list itemptr)) k :
  (∀ items, (k, items) ∉ l) → items_of k (l ≫= λ p, mkEntry p.1 <$> p.2) = [].
Proof.
  induction l as [|[k' items] l IH]; intros Hk; [done|].
  rewrite bind_cons, items_of_app, IH by set_solver. simpl. rewrite app_nil_r.
  apply items_of_other. intros ->. by apply (Hk items); left.
Qed.

Lemma ascend_present (l : list (string * list itemptr)) k items :
  StronglySorted (λ p q, String.ltb p.1 q.1 = true) l → (k, items) ∈ l →
  items_of k (l ≫= λ p, mkEntry p.1 <$> p.2) = items.
Proof.
  induction 1 as [|[k' i'] l Hl IH Hx]; [set_solver|]. rewrite Forall_forall in Hx.
  rewrite bind_cons, items_of_app. intros [[= <- <-]|Hin]%elem_of_cons; simpl.
  - rewrite items_of_same, ascend_absent; [by rewrite app_nil_r|].
    intros i2 Hin. specialize (Hx _ Hin). simpl in Hx. by rewrite ltb_irrefl in Hx.
  - rewrite items_of_other, IH; [done|done|].
    intros ->. specialize (Hx _ Hin). simpl in Hx. by rewrite ltb_irrefl in Hx.
Qed.

(** A snapshot lists each key's siblings in the table's order. *)
Lemma Snapshot_items m k : items_of k (Snapshot m) = current m k.
Proof.
  unfold Snapshot, entriesLocked. rewrite current_contents. unfold contents.
  destruct (bt_map (tree m) !! k) as [items|] eqn:E; simpl.
  - apply ascend_present; [apply bt_Ascend_sorted|by apply bt_Ascend_elem].
  - apply ascend_absent. intros items Hin. apply bt_Ascend_elem in Hin. congruence.
Qed.

(** Entries in key order, siblings together. *)
Definition entries_sorted (l : list Entry) : Prop :=
  StronglySorted (λ e f, String.le (Key e) (Key f)) l.

Lemma ascend_sorted (l : list (string * list itemptr)) :
  StronglySorted (λ p q, String.ltb p.1 q.1 = true) l →
  entries_sorted (l ≫= λ p, mkEntry p.1 <$> p.2).
Proof.
  induction 1 as [|[k items] l Hl IH Hx]; [constructor|]. rewrite Forall_forall in Hx.
  rewrite bind_cons. apply StronglySorted_app_2; [|simpl|done].
  - intros e f (i & -> & _)%list_elem_of_fmap ([k' i'] & Hf & Hin)%list_elem_of_bind.
    apply list_elem_of_fmap in Hf as (i2 & -> & _). simpl.
    specialize (Hx _ Hin). apply ltb_spec in Hx as [? _]. done.
  - clear. induction items as [|i l IH]; [constructor|]. rewrite fmap_cons. constructor; [done|].
    apply Forall_forall. intros e (j & -> & _)%list_elem_of_fmap. simpl. reflexivity.
Qed.

Lemma Snapshot_sorted m : entries_sorted (Snapshot m).
Proof. apply ascend_sorted, bt_Ascend_sorted. Qed.

Lemma Keys_elem m k : mt_ok m → k ∈ Keys m ↔ is_Some (contents m !! k).
Proof.
  intros Hm. unfold Keys. rewrite list_elem_of_fmap. unfold contents. split.
  - intros ([k' items] & -> & Hin). apply bt_Ascend_elem in Hin. eauto.
  - intros [items Hi]. apply bt_Ascend_elem in Hi. by exists (k, items).
Qed.
End entries.

#[export] Hint Resolve PutBackOlder_ok Snapshot_sorted : kv.

(** ** A tree that satisfies the laws *)

(** The map itself, listed in key order. *)
Definition pair_le {V} (p q : string * V) : Prop := String.le p.1 q.1.

#[export] Instance pair_le_dec {V} : RelDecision (@pair_le V).
Proof. intros p q. unfold pair_le. apply _. Defined.
#[export] Instance pair_le_trans {V} : Transitive (@pair_le V).
Proof. intros p q r. unfold pair_le. by etrans. Qed.
#[export] Instance pair_le_total {V} : Total (@pair_le V).
Proof. intros p q. unfold pair_le. apply (total String.le). Qed.

Definition gmap_btree {V} : BTree V (gmap string V) := {|
  bt_New := ∅;
  bt_Get t k := t !! k;
  bt_ReplaceOrInsert t k v := <[k := v]> t;
  bt_Delete t k := delete k t;
  bt_Ascend t := merge_sort pair_le (map_to_list t);
  bt_Len t := size t
|}.

Lemma merge_sort_map_to_list_sorted {V} (t : gmap string V) :
  StronglySorted (λ p q, String.ltb p.1 q.1 = true) (merge_sort pair_le (map_to_list t)).
Proof.
  pose proof (StronglySorted_merge_sort pair_le (map_to_list t)) as Hs.
  assert (NoDup (merge_sort pair_le (map_to_list t)).*1) as Hnd.
  { rewrite merge_sort_Permutation. apply NoDup_fst_map_to_list. }
  induction Hs as [|p l Hl IH Hp]; constructor; inversion Hnd; subst; [auto|].
  rewrite Forall_forall in *. intros q Hq. apply ltb_spec. split; [by apply Hp|].
  intros E. match goal with H : _ ∉ _ |- _ => apply H end. fold (l.*1). rewrite E.
  by apply list_elem_of_fmap_2.
Qed.

Definition gmap_btree_spec {V} : @BTreeSpec V (gmap string V) gmap_btree.
Proof.
  refine (@Build_BTreeSpec V (gmap string V) gmap_btree (λ t, t) _ _ _ _ _ _ _); try done.
  - intros t k v. simpl. rewrite merge_sort_Permutation. apply elem_of_map_to_list.
  - intros t. apply merge_sort_map_to_list_sorted.
Defined.

(** ** Results *)

Section results.
Context {T : Type} `{!BTree (list itemptr) T} `{!BTreeSpec (list itemptr) T}.
Context `{!JsonCodec value}.

(** C28: the memtable's invariant.  Every key's set is non-empty and pairwise
    concurrent and the tracked size is exactly the estimate of what is held;
    a new table has it, and [Put], [PutBackOlder] and [Replace] (by a sibling
    set) keep it, whatever they are given. *)
Theorem memtable_invariant (m : MemTable T) (key : string) (item : itemptr)
    (items : list itemptr) (entries : list Entry) (max : Z) :
  mt_ok (New max : MemTable T) ∧
  (mt_ok m → coherent (item :: current m key) → mt_ok (Put m key item).1) ∧
  (mt_ok m → mt_ok (PutBackOlder m entries)) ∧
  (mt_ok m → antichain items → mt_ok (Replace m key items)) ∧
  (mt_ok m → mt_ok (SnapshotAndClear m).2).
Proof.
  split_and!; eauto with kv. intros _. apply (New_ok (maxBytes m)).
Qed.

(** [Put] on every branch.  A version that is superseded by, or equal to,
    one already held leaves the set as it was; any other becomes the
    newest, in front of exactly the held versions it does not supersede;
    other keys are untouched, and [Put] reports whether the estimate has
    reached the threshold. *)
Theorem memtable_put (m : MemTable T) (key : string) (item : itemptr) :
  mt_ok m → (∀ p, p ∈ current m key → addr p ≠ addr item) →
  let m' := (Put m key item).1 in
  (covered (clock item) (current m key) → current m' key = current m key) ∧
  (¬ covered (clock item) (current m key) →
     current m' key = item :: bfilter (λ p, negb (vltb (clock p) (clock item))) (current m key)) ∧
  (∀ k, k ≠ key → current m' k = current m k) ∧
  (Put m key item).2 = bool_decide (maxBytes m ≤ sizeSoFar m')%Z.
Proof.
  intros Hm Hfresh. pose proof (current_antichain m key Hm) as Ha. cbv zeta.
  assert (∀ l, (∀ p, p ∈ l → p ∈ current m key) →
    bfilter (λ s, negb (ptr_eqb s item)) l = l ∧ existsb (λ s, ptr_eqb s item) l = false) as Hl.
  { intros l Hl. split; [apply bfilter_all|apply existsb_false]; intros p Hp%Hl;
      apply Hfresh in Hp; unfold ptr_eqb; apply N.eqb_neq in Hp; by rewrite Hp. }
  assert (∀ k, current (Put m key item).1 k =
    if decide (key = k) then put_set (current m key) item else current m k) as Hcur.
  { intros k. rewrite (current_contents (Put m key item).1), Put_contents, lookup_insert.
    case_decide; [done|by rewrite <-current_contents]. }
  split_and!.
  - intros Hc. rewrite Hcur, decide_True by done. unfold put_set, newest_first.
    rewrite Resolve_covered by done. by destruct (Hl (current m key)) as [-> ->].
  - intros Hc. rewrite Hcur, decide_True by done. unfold put_set, newest_first.
    rewrite Resolve_alt.
    destruct (existsb (le_b item) (current m key)) eqn:E; [by apply covered_le_b in E|].
    rewrite existsb_app, bfilter_app. simpl.
    destruct (Hl (bfilter (λ p, negb (lt_b p item)) (current m key))) as [-> ->].
    { by intros p [_ ?]%elem_of_bfilter. }
    assert (ptr_eqb item item = true) as -> by (by apply ptr_eqb_spec). simpl.
    by rewrite app_nil_r.
  - intros k Hk. by rewrite Hcur, decide_False.
  - simpl. apply eq_true_iff_eq. by rewrite Z.leb_le, bool_decide_eq_true.
Qed.

(** Putting a failed flush's data back changes nothing a reader sees:
    for every key, the fold of the active table and then the frozen one is
    what the active table alone gives after [PutBackOlder] of the frozen
    table's snapshot. *)
Theorem putback_keeps_reads (active frozen : MemTable T) (key : string) :
  mt_ok active → mt_ok frozen →
  MergeSiblings [] (current (PutBackOlder active (Snapshot frozen)) key) =
  MergeSiblings (MergeSiblings [] (current active key)) (current frozen key).
Proof.
  intros Ha Hf. rewrite PutBackOlder_current, Snapshot_items by done.
  rewrite !MergeSiblings_nil, (canon_id (current active key)) by eauto with kv.
  by rewrite canon_id by eauto with kv.
Qed.
End results.

(** ** Witnesses *)

Section witnesses.
#[local] Existing Instance gmap_btree.
#[local] Existing Instance gmap_btree_spec.
#[local] Existing Instance toy_value_json.

Definition ptr_a : itemptr := mkPtr 1 (ex_item "a" {["n1" := 1%N]}).
Definition ptr_b : itemptr := mkPtr 2 (ex_item "b" {["n2" := 1%N]}).
Definition ptr_c : itemptr := mkPtr 3 (ex_item "c" {["n1" := 2%N]}).

Definition table_a : MemTable (gmap string (list itemptr)) := (Put (New 1000) "k" ptr_a).1.
Definition table_b : MemTable (gmap string (list itemptr)) := (Put (New 1000) "k" ptr_b).1.

Lemma table_a_ok : mt_ok table_a.
Proof. apply Put_ok; [apply New_ok|]. intros p q. set_solver. Qed.

Lemma table_b_ok : mt_ok table_b.
Proof. apply Put_ok; [apply New_ok|]. intros p q. set_solver. Qed.

Lemma memtable_invariant_witness : mt_ok (Put table_a "k" ptr_b).1.
Proof.
  apply (memtable_invariant table_a "k" ptr_b [] [] 1000); [apply table_a_ok|].
  change (current table_a "k") with [ptr_a]. intros p q Hp Hq.
  repeat (rewrite elem_of_cons in Hp, Hq). rewrite elem_of_nil in Hp, Hq.
  destruct Hp as [->|[->|[]]]; destruct Hq as [->|[->|[]]]; done.
Defined.

Lemma memtable_put_witness : current (Put table_a "k" ptr_b).1 "k" = [ptr_b; ptr_a].
Proof.
  assert (∀ p, p ∈ current table_a "k" → addr p ≠ addr ptr_b) as Hf.
  { change (current table_a "k") with [ptr_a]. by intros p ->%list_elem_of_singleton. }
  destruct (memtable_put table_a "k" ptr_b table_a_ok Hf) as (_ & H2 & _).
  rewrite H2.
  - reflexivity.
  - rewrite <-covered_le_b. discriminate.
Defined.

Lemma putback_keeps_reads_witness :
  MergeSiblings [] (current (PutBackOlder table_a (Snapshot table_b)) "k") = [ptr_a; ptr_b].
Proof.
  rewrite (putback_keeps_reads table_a table_b "k" table_a_ok table_b_ok). reflexivity.
Defined.
End witnesses.
