(* ===== verification/Wal.v ===== *)
(** * The write-ahead log file (internal/storage/wal/wal.go)

    One log file at byte level: the record framing, [Append] and [WriteBatch]
    with the outcomes a write and an fsync can have, and [Replay] with its
    truncation of a torn tail.  JSON is the parameter of [Json]. *)

From stdpp Require Import gmap strings list.
From Stdlib Require Import ZArith Lia Ascii.
From S2P Require Import Prelude GoLib VectorClock Versioning Json.

(** ** Data *)

Definition headerSize : nat := 8.

(** [Op] is a [uint8]; a record can hold one this program does not know. *)
Definition OpPut : N := 0.
Definition OpRestore : N := 1.

(** [Item] is used only by a put, [Items] only by a restore. *)
Record Entry := mkEntry {
  Op : N;
  Key : string;
  Item : option itemptr;
  Items : list itemptr
}.

Definition put_entry (key : string) (item : itemptr) : Entry := mkEntry OpPut key (Some item) [].
Definition restore_entry (key : string) (items : list itemptr) : Entry :=
  mkEntry OpRestore key None items.

Record itemRecord := mkIR {
  ir_Value : bytes;
  ir_VectorClock : gmap string N;
  ir_LastUpdatedBy : string;
  ir_IsDeleted : bool
}.

Record record := mkRec {
  rec_Key : string;
  rec_Value : bytes;
  rec_VectorClock : gmap string N;
  rec_LastUpdatedBy : string;
  rec_IsDeleted : bool;
  rec_Op : N;
  rec_Items : list itemRecord
}.

Inductive error :=
  | MarshalValue (key : string)
  | UnmarshalValue (key : string)
  | MarshalRecord (key : string)
  | UnknownOp (op : N) (key : string)
  | NilItem (key : string)      (** the nil dereference of a put without an item *)
  | WriteFailed
  | SyncFailed
  | StatFailed
  | SeekFailed
  | TruncateFailed (offset : nat).

(** ** Records *)

Section records.
Context `{!JsonCodec value, !JsonCodec record}.

Definition toItemRecord (key : string) (item : itemptr) : res error itemRecord :=
  match json_marshal (Value (deref item)) with
  | None => Err (MarshalValue key)
  | Some valueBytes =>
      Ok (mkIR valueBytes (Snapshot (Clock (deref item)))
            (LastUpdatedBy (deref item)) (IsDeleted (deref item)))
  end.

(** [&model.DataItem{...}] at the address [a]. *)
Definition fromItemRecord (a : N) (key : string) (r : itemRecord) : res error itemptr :=
  match json_unmarshal (ir_Value r) with
  | None => Err (UnmarshalValue key)
  | Some v =>
      Ok (mkPtr a (mkItem v (FromSnapshot (ir_VectorClock r))
            (ir_LastUpdatedBy r) (ir_IsDeleted r)))
  end.

Definition toRecord (e : Entry) : res error record :=
  if (Op e =? OpPut)%N then
    match Item e with
    | None => Err (NilItem (Key e))
    | Some item =>
        ir ←? toItemRecord (Key e) item;
        Ok (mkRec (Key e) (ir_Value ir) (ir_VectorClock ir) (ir_LastUpdatedBy ir)
              (ir_IsDeleted ir) OpPut [])
    end
  else if (Op e =? OpRestore)%N then
    irs ←? res_map (toItemRecord (Key e)) (Items e);
    Ok (mkRec (Key e) [] ∅ "" false OpRestore irs)
  else Err (UnknownOp (Op e) (Key e)).

(** The items of a restore record, allocated one after the other from [a]. *)
Fixpoint fromItemRecords (a : N) (key : string) (rs : list itemRecord) : res error (list itemptr) :=
  match rs with
  | [] => Ok []
  | r :: rest =>
      item ←? fromItemRecord a key r;
      items ←? fromItemRecords (a + 1) key rest;
      Ok (item :: items)
  end.

Definition fromRecord (a : N) (r : record) : res error Entry :=
  if (rec_Op r =? OpPut)%N then
    item ←? fromItemRecord a (rec_Key r)
              (mkIR (rec_Value r) (rec_VectorClock r) (rec_LastUpdatedBy r) (rec_IsDeleted r));
    Ok (mkEntry OpPut (rec_Key r) (Some item) [])
  else if (rec_Op r =? OpRestore)%N then
    items ←? fromItemRecords a (rec_Key r) (rec_Items r);
    Ok (mkEntry OpRestore (rec_Key r) None items)
  else Err (UnknownOp (rec_Op r) (rec_Key r)).

(** [binary.BigEndian.PutUint32(record[0:4], uint32(len(payload)))] and on. *)
Definition frame (payload : bytes) : bytes :=
  PutUint32 (u32 (N.of_nat (length payload))) ++ PutUint32 (ChecksumIEEE payload) ++ payload.

Definition Encode (e : Entry) : res error bytes :=
  rec ←? toRecord e;
  match json_marshal rec with
  | None => Err (MarshalRecord (Key e))
  | Some payload => Ok (frame payload)
  end.
End records.

(** ** The file *)

(** [data] is what a read of the file returns, [durable] the part of it an
    fsync has covered.  The offset is always at the end. *)
Record file := mkFile { data : bytes; durable : bytes }.

(** What the operating system answers: [Some n] is a write that fails after
    [n] bytes. *)
Record write_io := mkWIO { io_write : option nat; io_sync : bool }.
Record replay_io := mkRIO {
  rio_stat : bool; rio_seek_start : bool; rio_truncate : bool; rio_sync : bool; rio_seek_end : bool
}.

(** A crash keeps what was fsynced of a file and any part of the rest. *)
Definition cut (f f' : file) : Prop :=
  ∃ n, length (durable f) ≤ n ∧ f' = mkFile (take n (data f)) (take n (data f)).

Definition io_fine : write_io := mkWIO None true.
Definition rio_fine : replay_io := mkRIO true true true true true.

Definition writeAndSync (io : write_io) (f : file) (b : bytes) : file * option error :=
  match io_write io with
  | Some n => (mkFile (data f ++ take n b) (durable f), Some WriteFailed)
  | None =>
      if io_sync io then (mkFile (data f ++ b) (data f ++ b), None)
      else (mkFile (data f ++ b) (durable f), Some SyncFailed)
  end.

Definition WriteBatch (io : write_io) (f : file) (records : list bytes) : file * option error :=
  match records with
  | [] => (f, None)
  | [r] => writeAndSync io f r
  | _ => writeAndSync io f (concat records)
  end.

Section file.
Context `{!JsonCodec value, !JsonCodec record}.

Definition Append (io : write_io) (f : file) (e : Entry) : file * option error :=
  match Encode e with
  | Err err => (f, Some err)
  | Ok r => writeAndSync io f r
  end.

(** How many items an entry holds, i.e. how many were allocated for it. *)
Definition entry_items (e : Entry) : nat := length (option_list (Item e)) + length (Items e).

(** [Replay]'s loop: [rest] is what is left to read, [pos] the offset read to;
    items are allocated from [a].  The result is the entries and [validEnd],
    or the error of a record with an unknown op. *)
Fixpoint replay_loop (fuel : nat) (a : N) (rest : bytes) (entries : list Entry) (pos validEnd : nat)
    : res error (list Entry * nat) :=
  match fuel with
  | O => Ok (entries, validEnd)
  | S fuel' =>
      if decide (length rest < headerSize) then Ok (entries, validEnd)
      else
        let header := take headerSize rest in
        let rest := drop headerSize rest in
        let pos := pos + headerSize in
        let len := be_get (take 4 header) in
        let wantChecksum := be_get (drop 4 header) in
        if (N.of_nat (length rest) <? len)%N then Ok (entries, validEnd)
        else
          let payload := take (N.to_nat len) rest in
          let rest := drop (N.to_nat len) rest in
          let pos := pos + N.to_nat len in
          if negb (ChecksumIEEE payload =? wantChecksum)%N then Ok (entries, validEnd)
          else match json_unmarshal payload with
          | None => Ok (entries, validEnd)
          | Some rec =>
              match fromRecord a rec with
              | Err (UnknownOp op key) => Err (UnknownOp op key)
              | Err _ => Ok (entries, validEnd)
              | Ok entry =>
                  replay_loop fuel' (a + N.of_nat (entry_items entry)) rest
                    (entries ++ [entry]) pos pos
              end
          end
  end.

Definition Replay (io : replay_io) (a : N) (f : file) : file * res error (list Entry) :=
  if negb (rio_stat io) then (f, Err StatFailed)
  else if negb (rio_seek_start io) then (f, Err SeekFailed)
  else
    match replay_loop (S (length (data f))) a (data f) [] 0 0 with
    | Err e => (f, Err e)
    | Ok (entries, validEnd) =>
        if decide (validEnd < length (data f)) then
          if negb (rio_truncate io) then (f, Err (TruncateFailed validEnd))
          else
            let cut := take validEnd (data f) in
            if negb (rio_sync io) then (mkFile cut (take validEnd (durable f)), Err SyncFailed)
            else if negb (rio_seek_end io) then (mkFile cut cut, Err SeekFailed)
            else (mkFile cut cut, Ok entries)
        else if negb (rio_seek_end io) then (f, Err SeekFailed)
        else (f, Ok entries)
    end.
End file.

(** ** Allocation *)

(** Replay gives every item an address of its own. *)
Fixpoint consecutive (a : N) (n : nat) : list N :=
  match n with O => [] | S n' => a :: consecutive (a + 1) n' end.

Lemma consecutive_app a m n :
  consecutive a (m + n) = consecutive a m ++ consecutive (a + N.of_nat m) n.
Proof.
  revert a. induction m as [|m IH]; intros a; [by rewrite N.add_0_r|]. cbn [Nat.add consecutive app].
  rewrite IH. do 3 f_equal. lia.
Qed.

Lemma elem_of_consecutive a n x : x ∈ consecutive a n → (a ≤ x < a + N.of_nat n)%N.
Proof.
  revert a. induction n as [|n IH]; intros a; cbn [consecutive]; [set_solver|].
  intros [->|Hx]%elem_of_cons; [lia|]. apply IH in Hx. lia.
Qed.

Lemma NoDup_consecutive a n : NoDup (consecutive a n).
Proof.
  revert a. induction n as [|n IH]; intros a; cbn [consecutive]; constructor; [|apply IH].
  intros Hin%elem_of_consecutive. lia.
Qed.

Definition entry_addrs (e : Entry) : list N := addr <$> option_list (Item e) ++ Items e.

Lemma length_entry_addrs e : length (entry_addrs e) = entry_items e.
Proof. unfold entry_addrs, entry_items. by rewrite length_fmap, length_app. Qed.

Section addrs.
Context `{!JsonCodec value, !JsonCodec record}.

Lemma fromItemRecord_addr a key r i : fromItemRecord a key r = Ok i → addr i = a.
Proof. unfold fromItemRecord. destruct (json_unmarshal _); [|done]. by intros [= <-]. Qed.

Lemma fromItemRecords_addrs a key rs is' :
  fromItemRecords a key rs = Ok is' → addr <$> is' = consecutive a (length is').
Proof.
  revert a is'. induction rs as [|r rs IH]; intros a is'; cbn [fromItemRecords]; [by intros [= <-]|].
  destruct (fromItemRecord a key r) as [i|] eqn:E; [|done]. cbn [res_bind].
  destruct (fromItemRecords (a + 1) key rs) as [rest|] eqn:Er; [|done]. intros [= <-].
  rewrite fmap_cons. cbn [length consecutive]. by rewrite (fromItemRecord_addr _ _ _ _ E), (IH _ _ Er).
Qed.

Lemma fromRecord_addrs a rec e : fromRecord a rec = Ok e → entry_addrs e = consecutive a (entry_items e).
Proof.
  unfold fromRecord. destruct (rec_Op rec =? OpPut)%N.
  - destruct (fromItemRecord _ _ _) as [i|] eqn:E; [|done]. intros [= <-].
    apply fromItemRecord_addr in E. unfold entry_addrs, entry_items. simpl. by rewrite E.
  - destruct (rec_Op rec =? OpRestore)%N; [|done].
    destruct (fromItemRecords _ _ _) as [is'|] eqn:E; [|done]. intros [= <-].
    apply fromItemRecords_addrs in E. unfold entry_addrs, entry_items. simpl. done.
Qed.

Lemma replay_loop_addrs fuel a rest entries pos ve es n :
  replay_loop fuel a rest entries pos ve = Ok (es, n) →
  ∃ new, es = entries ++ new ∧ new ≫= entry_addrs = consecutive a (sum_list (entry_items <$> new)).
Proof.
  revert a rest entries pos ve. induction fuel as [|fuel IH]; intros a rest entries pos ve; cbn [replay_loop].
  { intros [= <- <-]. exists []. by rewrite app_nil_r. }
  assert (∀ es' ve', Ok (entries, ve) = Ok (es', ve') :> res error _ → es' = es → ∃ new, es = entries ++ new ∧
    new ≫= entry_addrs = consecutive a (sum_list (entry_items <$> new))) as Hstop.
  { intros es' ve' [= <- <-] <-. exists []. by rewrite app_nil_r. }
  case_decide; [by intros; eapply Hstop|]. destruct (_ <? _)%N; [by intros; eapply Hstop|].
  destruct (negb _); [by intros; eapply Hstop|]. destruct (json_unmarshal _) as [rec|]; [|by intros; eapply Hstop].
  destruct (fromRecord a rec) as [e|err] eqn:E; [|destruct err; by intros; simplify_eq; try (eapply Hstop; done)].
  intros (new & -> & Hn)%IH. exists (e :: new). rewrite <-app_assoc. split; [done|].
  rewrite bind_cons, fmap_cons.
  change (sum_list (entry_items e :: (entry_items <$> new)))
    with (entry_items e + sum_list (entry_items <$> new)). rewrite consecutive_app, <-(fromRecord_addrs _ _ _ E).
  by rewrite Hn.
Qed.

Lemma Replay_addrs io a f f' es :
  Replay io a f = (f', Ok es) → es ≫= entry_addrs = consecutive a (sum_list (entry_items <$> es)).
Proof.
  unfold Replay. destruct (negb (rio_stat io)); [done|]. destruct (negb (rio_seek_start io)); [done|].
  destruct (replay_loop _ _ _ _ _ _) as [[es' n]|] eqn:E; [|done].
  apply replay_loop_addrs in E as (new & -> & Hn). intros H. assert (es = new) as ->; [|done].
  revert H. case_decide; [destruct (negb (rio_truncate io)); [done|]; destruct (negb (rio_sync io)); [done|]|];
    (destruct (negb (rio_seek_end io)); [done|]); by intros [= _ <-].
Qed.
End addrs.

(** ** What JSON promises the log *)

(** Bytes [json.Marshal] made of a faithful value. *)
Definition raw_ok `{!JsonCodec value} (b : bytes) : Prop :=
  ∃ v, value_ok v ∧ json_marshal v = Some b.

Definition itemRecord_ok `{!JsonCodec value} (r : itemRecord) : Prop :=
  raw_ok (ir_Value r) ∧ clock_names_ok (ir_VectorClock r) ∧ string_ok (ir_LastUpdatedBy r) = true.

Definition record_ok `{!JsonCodec value} (r : record) : Prop :=
  string_ok (rec_Key r) = true ∧ clock_names_ok (rec_VectorClock r) ∧
  string_ok (rec_LastUpdatedBy r) = true ∧ Forall itemRecord_ok (rec_Items r).

(** A record comes back field by field; its raw value comes back if it is one
    [json.Marshal] made (a nil one is written as [null]). *)
Class RecordJson `{!JsonCodec value, !JsonCodec record} : Prop :=
  record_roundtrip : ∀ r b, record_ok r → json_marshal r = Some b → ∃ raw,
    json_unmarshal b = Some (mkRec (rec_Key r) raw (rec_VectorClock r) (rec_LastUpdatedBy r)
                               (rec_IsDeleted r) (rec_Op r) (rec_Items r)) ∧
    (raw_ok (rec_Value r) → raw = rec_Value r).

(** ** Encoding and decoding *)

(** An entry up to the addresses of its items. *)
Definition entry_contents (e : Entry) : N * string * option DataItem * list DataItem :=
  (Op e, Key e, deref <$> Item e, deref <$> Items e).

(** An entry the engine writes, of items JSON carries faithfully. *)
Definition entry_ok (e : Entry) : Prop :=
  string_ok (Key e) = true ∧
  ((∃ i, e = put_entry (Key e) i ∧ item_ok (deref i)) ∨
   (e = restore_entry (Key e) (Items e) ∧ Forall (λ i, item_ok (deref i)) (Items e))).

Lemma length_frame p : length (frame p) = headerSize + length p.
Proof. unfold frame, PutUint32. rewrite !length_app, !length_be_put. unfold headerSize. lia. Qed.

Section decode.
Context `{!JsonCodec value, !JsonCodec record, !JsonRoundTrip value value_ok, !RecordJson}.

Lemma toItemRecord_spec key i r :
  item_ok (deref i) → toItemRecord key i = Ok r →
  itemRecord_ok r ∧ ∀ a, fromItemRecord a key r = Ok (mkPtr a (deref i)).
Proof.
  intros (Hv & Hc & Hb). unfold toItemRecord.
  destruct (json_marshal (Value (deref i))) as [b|] eqn:E; [|done]. intros [= <-].
  split.
  - split_and!; simpl; [by exists (Value (deref i))|by rewrite Snapshot_state|done].
  - intros a. unfold fromItemRecord. simpl. rewrite (json_roundtrip _ _ Hv E).
    rewrite Snapshot_state. destruct (deref i) as [v [c] by' d]. simpl.
    unfold FromSnapshot. simpl. by rewrite copy_into_empty.
Qed.

Lemma toItemRecords_spec key items rs :
  Forall (λ i, item_ok (deref i)) items → res_map (toItemRecord key) items = Ok rs →
  Forall itemRecord_ok rs ∧
  ∀ a, ∃ items', fromItemRecords a key rs = Ok items' ∧ deref <$> items' = deref <$> items.
Proof.
  intros Hok. revert rs. induction Hok as [|i items Hi Hok IH]; intros rs; simpl.
  - intros [= <-]. split; [constructor|]. by exists [].
  - destruct (toItemRecord key i) as [r|] eqn:E; [|done]. simpl.
    destruct (res_map (toItemRecord key) items) as [rs'|] eqn:E'; [|done]. intros [= <-].
    destruct (toItemRecord_spec _ _ _ Hi E) as [Hr Hd]. destruct (IH _ eq_refl) as [Hrs Hds].
    split; [by constructor|]. intros a. simpl. rewrite Hd. simpl.
    destruct (Hds (a + 1)%N) as (items' & -> & Heq). simpl. eexists. split; [done|].
    by rewrite !fmap_cons, Heq.
Qed.

(** What [Encode] writes, [fromRecord] reads, whatever the addresses. *)
Lemma Encode_decodes e b :
  entry_ok e → Encode e = Ok b →
  ∃ payload rec, b = frame payload ∧ json_unmarshal payload = Some rec ∧
    ∀ a, ∃ e', fromRecord a rec = Ok e' ∧ entry_contents e' = entry_contents e.
Proof.
  intros [Hk He]. unfold Encode. destruct He as [(i & -> & Hi)|[-> Hitems]]; unfold toRecord; simpl in *.
  - destruct (toItemRecord (Key e) i) as [r|] eqn:E; [|done]. simpl.
    destruct (toItemRecord_spec _ _ _ Hi E) as [(Hr & Hc & Hb) Hd].
    destruct (json_marshal _) as [p|] eqn:Em; [|done]. intros [= <-].
    apply record_roundtrip in Em as (raw & Hu & Hraw); [|by split_and!]. simpl in *.
    eexists p, _. split_and!; [done|exact Hu|]. intros a. unfold fromRecord. simpl.
    rewrite Hraw by done. destruct r. simpl in *. rewrite Hd. simpl. by eexists.
  - destruct (res_map _ _) as [rs|] eqn:E; [|done]. simpl.
    destruct (toItemRecords_spec _ _ _ Hitems E) as [Hrs Hd].
    destruct (json_marshal _) as [p|] eqn:Em; [|done]. intros [= <-].
    apply record_roundtrip in Em as (raw & Hu & _);
      [|split_and!; try done; apply map_Forall_empty]. simpl in *.
    eexists p, _. split_and!; [done|exact Hu|]. intros a. unfold fromRecord. simpl.
    destruct (Hd a) as (items' & -> & Heq). simpl. eexists. split; [done|].
    unfold entry_contents. simpl. by rewrite Heq.
Qed.
End decode.

(** ** Replaying *)

Section replay.
Context `{!JsonCodec value, !JsonCodec record, !JsonRoundTrip value value_ok, !RecordJson}.

(** A record small enough for its length to fit the header. *)
Definition encodes (e : Entry) (b : bytes) : Prop :=
  entry_ok e ∧ Encode e = Ok b ∧ (N.of_nat (length b) < two32)%N.

Lemma frame_header p :
  (N.of_nat (length (frame p)) < two32)%N →
  be_get (take 4 (take headerSize (frame p))) = N.of_nat (length p) ∧
  be_get (drop 4 (take headerSize (frame p))) = ChecksumIEEE p ∧
  drop headerSize (frame p) = p.
Proof.
  rewrite length_frame. intros Hl. unfold frame.
  rewrite u32_small by lia. set (x := PutUint32 _). set (y := PutUint32 (ChecksumIEEE p)).
  assert (length x = 4 ∧ length y = 4) as [Hx Hy] by (split; apply length_be_put).
  rewrite (app_assoc x y p), (take_app_length' (x ++ y)), (drop_app_length' (x ++ y)) by
    (rewrite length_app; unfold headerSize; lia).
  rewrite take_app_length', drop_app_length' by lia. unfold x, y.
  rewrite !be_get_Uint32 by (eauto with kv; lia). done.
Qed.

Lemma replay_record e b fuel a rest entries pos ve :
  encodes e b →
  ∃ e', entry_contents e' = entry_contents e ∧
    replay_loop (S fuel) a (b ++ rest) entries pos ve =
    replay_loop fuel (a + N.of_nat (entry_items e')) rest (entries ++ [e'])
      (pos + length b) (pos + length b).
Proof.
  intros (Hok & He & Hl). destruct (Encode_decodes e b Hok He) as (p & rec & -> & Hu & Hd).
  destruct (Hd a) as (e' & Hr & Heq). exists e'. split; [done|].
  destruct (frame_header p Hl) as (H1 & H2 & H3). pose proof (length_frame p) as Hlen.
  cbn [replay_loop]. rewrite decide_False by (rewrite length_app; lia).
  rewrite take_app_le, drop_app_le by lia. rewrite H1, H2, H3.
  rewrite (proj2 (N.ltb_ge _ _)) by (rewrite length_app; lia).
  rewrite Nat2N.id, take_app_length, drop_app_length, N.eqb_refl. simpl negb. cbv iota.
  rewrite Hu, Hr. by rewrite Hlen, Nat.add_assoc.
Qed.

Lemma replay_torn e b fuel a n entries pos ve :
  encodes e b → n < length b →
  replay_loop fuel a (take n b) entries pos ve = Ok (entries, ve).
Proof.
  intros (Hok & He & Hl) Hn. destruct (Encode_decodes e b Hok He) as (p & rec & -> & _ & _).
  destruct (frame_header p Hl) as (H1 & _ & _). pose proof (length_frame p) as Hlen.
  destruct fuel as [|fuel]; [done|]. cbn [replay_loop]. case_decide as Hd; [done|].
  rewrite length_take in Hd. assert (take headerSize (take n (frame p)) = take headerSize (frame p)) as ->.
  { rewrite take_take. f_equal. lia. }
  rewrite H1. rewrite (proj2 (N.ltb_lt _ _)); [done|]. rewrite length_drop, length_take. lia.
Qed.

Lemma encodes_pos e b : encodes e b → 0 < length b.
Proof.
  intros (_ & He & _). unfold Encode in He. destruct (toRecord e); [|done]. simpl in He.
  destruct (json_marshal _); [|done]. injection He as <-. rewrite length_frame.
  unfold headerSize. lia.
Qed.

Lemma encodes_one e b : encodes e b → Forall2 encodes [e] [b].
Proof. intros He. by constructor; [|constructor]. Qed.

(** The crash lemma: whatever prefix of a sequence of records is on disk, the
    loop returns the complete ones, in order, and where they end. *)
Lemma replay_prefix es bs n :
  Forall2 encodes es bs →
  ∃ k, k ≤ length es ∧ (length (concat bs) ≤ n → k = length es) ∧
    length (concat (take k bs)) ≤ n ∧
    (∀ fuel a entries pos, length (take n (concat bs)) < fuel →
     ∃ es', entry_contents <$> es' = entry_contents <$> take k es ∧
      replay_loop fuel a (take n (concat bs)) entries pos pos =
      Ok (entries ++ es', pos + length (concat (take k bs)))).
Proof.
  intros Hes. revert n. induction Hes as [|e b es bs He Hes IH]; intros n; simpl.
  - exists 0. simpl. split_and!; [lia|done|lia|]. intros fuel a entries pos Hf. exists [].
    split; [done|]. rewrite take_nil, app_nil_r, Nat.add_0_r.
    destruct fuel; [done|]. cbn [replay_loop]. rewrite decide_True; [done|]. unfold headerSize. simpl. lia.
  - destruct (decide (n < length b)) as [Hn|Hn].
    + exists 0. simpl. split_and!; [lia| |lia|].
      { rewrite length_app. lia. }
      intros fuel a entries pos Hf. exists []. split; [done|].
      rewrite take_app_le by lia. rewrite (replay_torn e b) by done.
      by rewrite app_nil_r, Nat.add_0_r.
    + destruct (IH (n - length b)) as (k & Hk & Hall & Hlen & Hrun).
      exists (S k). simpl. rewrite !length_app. split_and!; [lia| |lia|].
      { intros Hn'. f_equal. apply Hall. lia. }
      intros fuel a entries pos Hf. rewrite take_app_ge in Hf |- * by lia.
      rewrite length_app in Hf. destruct fuel as [|fuel]; [lia|].
      destruct (replay_record e b fuel a (take (n - length b) (concat bs)) entries pos pos He)
        as (e' & Heq & ->).
      pose proof (encodes_pos e b He).
      destruct (Hrun fuel (a + N.of_nat (entry_items e'))%N (entries ++ [e']) (pos + length b)) as (es' & Heqs & ->); [lia|].
      exists (e' :: es'). rewrite !fmap_cons, Heq, Heqs. split; [done|].
      by rewrite <-app_assoc, Nat.add_assoc.
Qed.

Lemma replay_loop_app es bs rest fuel a entries pos :
  Forall2 encodes es bs →
  ∃ es' a', entry_contents <$> es' = entry_contents <$> es ∧
    replay_loop (length es + fuel) a (concat bs ++ rest) entries pos pos =
    replay_loop fuel a' rest (entries ++ es') (pos + length (concat bs)) (pos + length (concat bs)).
Proof.
  intros Hes. revert a entries pos. induction Hes as [|e b es bs He Hes IH]; intros a entries pos;
    cbn [length concat Nat.add app].
  - exists [], a. by rewrite app_nil_r, Nat.add_0_r.
  - rewrite <-app_assoc.
    destruct (replay_record e b (length es + fuel) a (concat bs ++ rest) entries pos pos He)
      as (e' & Heq & ->).
    destruct (IH (a + N.of_nat (entry_items e'))%N (entries ++ [e']) (pos + length b))
      as (es' & a' & Heqs & ->).
    exists (e' :: es'), a'. rewrite !fmap_cons, Heq, Heqs, length_app, <-app_assoc, Nat.add_assoc.
    done.
Qed.

(** Any fuel beyond the bytes left gives the same result: the loop consumes
    at least a header per round. *)
Lemma replay_loop_fuel fuel fuel' a rest entries pos ve :
  length rest < fuel → length rest < fuel' →
  replay_loop fuel a rest entries pos ve = replay_loop fuel' a rest entries pos ve.
Proof.
  revert fuel' a rest entries pos ve. induction fuel as [|fuel IH]; [lia|].
  intros [|fuel'] a rest entries pos ve H1 H2; [lia|]. cbn [replay_loop].
  case_decide as Hd; [done|]. kv_case. apply IH; rewrite !length_drop; unfold headerSize in *; lia.
Qed.

(** A clean log: exactly the records of [es], all of them durable. *)
Definition log_holds (f : file) (es : list Entry) : Prop :=
  ∃ bs, Forall2 encodes es bs ∧ f = mkFile (concat bs) (concat bs).

Lemma WriteBatch_data io f bs :
  ∃ n, data (WriteBatch io f bs).1 = data f ++ take n (concat bs) ∧
    ((WriteBatch io f bs).2 = None → length (concat bs) ≤ n ∧
       (bs ≠ [] → durable (WriteBatch io f bs).1 = data f ++ concat bs)) ∧
    (bs = [] ∨ (WriteBatch io f bs).2 ≠ None → durable (WriteBatch io f bs).1 = durable f).
Proof.
  assert (∀ b, WriteBatch io f bs = (f, None) ∧ bs = [] ∨
    (bs ≠ [] ∧ (b = concat bs → WriteBatch io f bs = writeAndSync io f b))) as Hwb.
  { intros b. destruct bs as [|r [|r' bs]]; [by left|right..]; (split; [done|]); intros ->; [|done].
    simpl. by rewrite app_nil_r. }
  destruct (Hwb (concat bs)) as [[Hw ->]|[Hne Hw]].
  - exists 0. simpl. by rewrite app_nil_r.
  - rewrite Hw by done. unfold writeAndSync. destruct (io_write io) as [n|].
    + by exists n.
    + exists (length (concat bs)). rewrite take_ge by done.
      destruct (io_sync io); simpl; naive_solver.
Qed.

Lemma Forall2_encodes_length es bs : Forall2 encodes es bs → length es ≤ length (concat bs).
Proof.
  induction 1 as [|e b es bs He Hes IH]; simpl; [lia|]. rewrite length_app.
  pose proof (encodes_pos e b He). lia.
Qed.

(** [Replay] of a clean log followed by any part of more records. *)
Lemma Replay_prefix es bs us ubs n :
  Forall2 encodes es bs → Forall2 encodes us ubs →
  let d := concat bs ++ take n (concat ubs) in
  ∃ k, (length (concat ubs) ≤ n → take k us = us) ∧
    ∀ a, ∃ f' es',
      Replay rio_fine a (mkFile d d) = (f', Ok es') ∧
      entry_contents <$> es' = entry_contents <$> (es ++ take k us) ∧
      log_holds f' (es ++ take k us).
Proof.
  intros Hes Hus d. destruct (replay_prefix us ubs n Hus) as (k & Hk & Hall & Hlen & Hrun).
  exists k. split; [intros Hn; rewrite Hall by done; apply firstn_all|]. intros a.
  pose proof (Forall2_encodes_length _ _ Hes) as Hle.
  set (fuel := length (concat bs) - length es + S (length (take n (concat ubs)))).
  destruct (replay_loop_app es bs (take n (concat ubs)) fuel a [] 0 Hes) as (es1 & a' & Heq1 & H1).
  destruct (Hrun fuel a' es1 (length (concat bs))) as (es2 & Heq2 & H2); [unfold fuel; lia|].
  assert (replay_loop (S (length d)) a d [] 0 0 =
    Ok (es1 ++ es2, length (concat bs) + length (concat (take k ubs)))) as Hrl.
  { rewrite <-H2. simpl in H1. rewrite <-H1. f_equal. unfold d, fuel. rewrite length_app. lia. }
  assert (take (length (concat bs) + length (concat (take k ubs))) d = concat (bs ++ take k ubs)) as Hcut.
  { unfold d. rewrite take_app_add, concat_app. f_equal. rewrite take_take.
    rewrite Nat.min_l by done. rewrite <-(take_drop k ubs) at 2. rewrite concat_app.
    by apply take_app_length. }
  exists (mkFile (concat (bs ++ take k ubs)) (concat (bs ++ take k ubs))), (es1 ++ es2).
  split_and!.
  - unfold Replay. simpl. simpl in Hrl. rewrite Hrl.
    destruct (decide (_ < length d)) as [Hc|Hc]; [by rewrite Hcut|].
    rewrite <-Hcut, take_ge by lia. done.
  - by rewrite !fmap_app, Heq1, Heq2.
  - exists (bs ++ take k ubs). split; [|done]. apply Forall2_app; [done|by apply Forall2_take].
Qed.

(** What is on disk after a batch and a crash: the log and part of the batch,
    all of it if it was acknowledged. *)
Lemma WriteBatch_prefix f es ubs io n :
  log_holds f es → length (durable (WriteBatch io f ubs).1) ≤ n →
  ∃ bs m, Forall2 encodes es bs ∧
    take n (data (WriteBatch io f ubs).1) = concat bs ++ take m (concat ubs) ∧
    ((WriteBatch io f ubs).2 = None → length (concat ubs) ≤ m).
Proof.
  intros (bs & Hes & ->) Hn.
  destruct (WriteBatch_data io (mkFile (concat bs) (concat bs)) ubs) as (m & Hd & Hok & Herr).
  simpl in Hd, Hok, Herr. rewrite Hd.
  assert (length (concat bs) ≤ n ∧
    ((WriteBatch io (mkFile (concat bs) (concat bs)) ubs).2 = None →
     length (concat bs ++ concat ubs) ≤ n)) as [Hn1 Hn2].
  { destruct (decide (ubs = [])) as [->|Hb].
    - rewrite Herr in Hn by (by left). by rewrite app_nil_r.
    - destruct (WriteBatch io _ ubs).2; [by rewrite Herr in Hn by (by right)|].
      destruct (Hok eq_refl) as [_ Hdur]. rewrite Hdur in Hn by done.
      rewrite length_app in *. lia. }
  exists bs, ((n - length (concat bs)) `min` m). rewrite take_app_ge, take_take by done.
  split_and!; [done..|]. intros Hnone. specialize (Hn2 Hnone). destruct (Hok Hnone) as [? _].
  rewrite length_app in Hn2. lia.
Qed.

Lemma WriteBatch_fine f es bs :
  res_map Encode es = Ok bs →
  WriteBatch io_fine f bs = (fold_left (λ f e, (Append io_fine f e).1) es f, None).
Proof.
  intros He. transitivity (match bs with [] => (f, None) | _ => writeAndSync io_fine f (concat bs) end).
  { destruct bs as [|b [|b' bs]]; [done| |done]. simpl. by rewrite app_nil_r. }
  revert f bs He. induction es as [|e es IH]; intros f bs; simpl; [by intros [= <-]|].
  unfold Append. destruct (Encode e) as [b|]; [|done]. simpl.
  destruct (res_map Encode es) as [bs'|]; [|done]. intros [= <-]. simpl.
  rewrite <-(IH _ bs') by done. destruct bs' as [|b' bs']; unfold writeAndSync; simpl;
    by rewrite ?app_nil_r, ?app_assoc.
Qed.
End replay.

(** ** Results *)

Section results.
Context `{!JsonCodec value, !JsonCodec record, !JsonRoundTrip value value_ok, !RecordJson}.

(** C29: crash safety of the log file.  On a clean log of [es], write a batch
    [us], with any outcome, and crash: the file is cut at any byte that keeps
    what was fsynced.  [Replay] then returns [es] and some leading part of
    [us], all of it if [WriteBatch] returned nil, and leaves a clean log of
    exactly these entries, so nothing written later hides behind a torn
    record. *)
Theorem wal_crash_replay (f : file) (es us : list Entry) (ubs : list bytes) (io : write_io)
    (n : nat) (a : N) :
  log_holds f es → Forall2 encodes us ubs →
  length (durable (WriteBatch io f ubs).1) ≤ n →
  let d := take n (data (WriteBatch io f ubs).1) in
  ∃ k f' es',
    Replay rio_fine a (mkFile d d) = (f', Ok es') ∧
    entry_contents <$> es' = entry_contents <$> (es ++ take k us) ∧
    log_holds f' (es ++ take k us) ∧
    ((WriteBatch io f ubs).2 = None → take k us = us).
Proof.
  intros Hf Hus Hn. cbv zeta.
  destruct (WriteBatch_prefix f es ubs io n Hf Hn) as (bs & m & Hes & -> & Hm).
  destruct (Replay_prefix es bs us ubs m Hes Hus) as (k & Hk & Hrep).
  destruct (Hrep a) as (f' & es' & H1 & H2 & H3). exists k, f', es'. split_and!; auto.
Qed.

(** A batch is its appends.  With a working disk, [WriteBatch] of the
    encodings of [es] leaves the file exactly as appending the entries one by
    one does, and both return nil. *)
Theorem batch_is_appends (f : file) (es : list Entry) (bs : list bytes) :
  res_map Encode es = Ok bs →
  WriteBatch io_fine f bs = (fold_left (λ f e, (Append io_fine f e).1) es f, None).
Proof. apply WriteBatch_fine. Qed.

(** A record of a newer version is not a torn tail.  If a checksum-valid
    record whose op this version does not know follows the records of [es],
    whatever comes after it, [Replay] fails with that op and key and leaves
    the file untouched. *)
Theorem unknown_op_stops_replay (es : list Entry) (bs : list bytes) (payload rest dur : bytes)
    (rec : record) (io : replay_io) (a : N) :
  Forall2 encodes es bs →
  (N.of_nat (length (frame payload)) < two32)%N → json_unmarshal payload = Some rec →
  (OpRestore < rec_Op rec)%N → rio_stat io = true → rio_seek_start io = true →
  Replay io a (mkFile (concat bs ++ frame payload ++ rest) dur) =
    (mkFile (concat bs ++ frame payload ++ rest) dur, Err (UnknownOp (rec_Op rec) (rec_Key rec))).
Proof.
  intros Hes Hl Hu Hop Hst Hsk. unfold Replay. rewrite Hst, Hsk. simpl negb. cbv iota.
  set (d := concat bs ++ frame payload ++ rest). cbn [data].
  destruct (frame_header payload Hl) as (H1 & H2 & H3). pose proof (length_frame payload) as Hlen.
  pose proof (Forall2_encodes_length _ _ Hes) as Hle.
  destruct (replay_loop_app es bs (frame payload ++ rest) (S (length d - length es)) a [] 0 Hes)
    as (es1 & a' & _ & Hrun).
  assert (length d = length (concat bs) + (length (frame payload) + length rest)) as Hd
    by (unfold d; by rewrite !length_app).
  replace (S (length d)) with (length es + S (length d - length es)) by lia.
  fold d in Hrun. rewrite Hrun. cbn [replay_loop].
  rewrite decide_False by (rewrite length_app; lia).
  rewrite take_app_le, drop_app_le by lia. rewrite H1, H2, H3.
  rewrite (proj2 (N.ltb_ge _ _)) by (rewrite length_app; lia).
  rewrite Nat2N.id, take_app_length, N.eqb_refl. simpl negb. cbv iota.
  rewrite Hu. unfold fromRecord, OpPut, OpRestore in *.
  by rewrite !(proj2 (N.eqb_neq _ _)) by lia.
Qed.
End results.

(** ** Witnesses *)

#[export] Instance itemRecord_eq_dec : EqDecision itemRecord.
Proof. solve_decision. Defined.
#[export] Instance record_eq_dec : EqDecision record.
Proof. solve_decision. Defined.

#[export] Instance itemRecord_countable : Countable itemRecord :=
  inj_countable' (λ r, (ir_Value r, ir_VectorClock r, ir_LastUpdatedBy r, ir_IsDeleted r))
    (λ '(v, c, b, d), mkIR v c b d) ltac:(by intros []).
#[export] Instance record_countable : Countable record :=
  inj_countable' (λ r, (rec_Key r, rec_Value r, rec_VectorClock r, rec_LastUpdatedBy r,
                        rec_IsDeleted r, rec_Op r, rec_Items r))
    (λ '(k, v, c, b, d, o, i), mkRec k v c b d o i) ltac:(by intros []).

Definition toy_record_json : JsonCodec record := countable_codec record.

Lemma toy_record_roundtrip : @RecordJson toy_value_json toy_record_json.
Proof.
  intros r b _ E. exists (rec_Value r). split; [|done].
  transitivity (Some r); [apply (countable_codec_roundtrip record (λ _, True) r b I E)|by destruct r].
Qed.

Section witnesses.
#[local] Existing Instance toy_value_json.
#[local] Existing Instance toy_record_json.
#[local] Existing Instance toy_record_roundtrip.

#[local] Instance toy_value_roundtrip : JsonRoundTrip value value_ok :=
  countable_codec_roundtrip value value_ok.

Definition wal_e1 : Entry := put_entry "k" (mkPtr 1 (ex_item "a" {["n1" := 1%N]})).
Definition wal_e2 : Entry := restore_entry "k" [mkPtr 2 (ex_item "b" {["n2" := 1%N]})].
Definition wal_bytes (e : Entry) : bytes := match Encode e with Ok b => b | Err _ => [] end.
#[local] Arguments wal_bytes : simpl never.

Lemma wal_e1_encodes : encodes wal_e1 (wal_bytes wal_e1).
Proof.
  split; [|split; [vm_cast_no_check (eq_refl (Encode wal_e1))|vm_cast_no_check (eq_refl Lt)]].
  split; [done|]. left. eexists. split; [done|].
  split; [by vm_compute|]. by split; [apply map_Forall_singleton|].
Qed.

Lemma wal_e2_encodes : encodes wal_e2 (wal_bytes wal_e2).
Proof.
  split; [|split; [vm_cast_no_check (eq_refl (Encode wal_e2))|vm_cast_no_check (eq_refl Lt)]].
  split; [done|]. right. split; [done|].
  constructor; [|constructor]. split; [by vm_compute|]. by split; [apply map_Forall_singleton|].
Qed.

Definition wal_file1 : file := mkFile (wal_bytes wal_e1) (wal_bytes wal_e1).

Lemma wal_file1_holds : log_holds wal_file1 [wal_e1].
Proof.
  exists [wal_bytes wal_e1]. split; [by apply encodes_one, wal_e1_encodes|].
  cbn [concat]. by rewrite app_nil_r.
Qed.

(** A write that fails after nine bytes, then a crash that keeps four of them. *)
Lemma wal_crash_replay_witness :
  ∃ k f' es',
    Replay rio_fine 10 (mkFile (wal_bytes wal_e1 ++ take 4 (wal_bytes wal_e2))
                          (wal_bytes wal_e1 ++ take 4 (wal_bytes wal_e2))) = (f', Ok es') ∧
    entry_contents <$> es' = entry_contents <$> ([wal_e1] ++ take k [wal_e2]).
Proof.
  destruct (wal_crash_replay wal_file1 [wal_e1] [wal_e2] [wal_bytes wal_e2] (mkWIO (Some 9) true)
    (length (wal_bytes wal_e1) + 4) 10 wal_file1_holds) as (k & f' & es' & H1 & H2 & _).
  - apply encodes_one, wal_e2_encodes.
  - simpl. lia.
  - exists k, f', es'. split; [|done]. rewrite <-H1.
    cbn [WriteBatch writeAndSync io_write fst data wal_file1].
    assert (∀ x y : bytes, take (length x + 4) (x ++ take 9 y) = x ++ take 4 y) as ->;
      [|reflexivity].
    intros x y. by rewrite take_app_add, take_take.
Defined.

Lemma batch_is_appends_witness :
  ∃ bs, WriteBatch io_fine wal_file1 bs =
    (fold_left (λ f e, (Append io_fine f e).1) [wal_e1; wal_e2] wal_file1, None).
Proof.
  exists [wal_bytes wal_e1; wal_bytes wal_e2]. apply batch_is_appends.
  vm_cast_no_check (eq_refl (res_map Encode [wal_e1; wal_e2])).
Defined.

Definition wal_new : record := mkRec "k" [] ∅ "" false 2 [].
Definition wal_new_payload : bytes := default [] (json_marshal wal_new).
#[local] Arguments wal_new_payload : simpl never.

Lemma unknown_op_stops_replay_witness :
  (Replay rio_fine 0 (mkFile (concat [wal_bytes wal_e1] ++ frame wal_new_payload ++ []) [])).2 =
    Err (UnknownOp 2 "k").
Proof.
  rewrite (unknown_op_stops_replay [wal_e1] [wal_bytes wal_e1] wal_new_payload [] []
    wal_new rio_fine 0 (encodes_one _ _ wal_e1_encodes)).
  - reflexivity.
  - vm_cast_no_check (eq_refl Lt).
  - vm_cast_no_check (eq_refl (Some wal_new)).
  - reflexivity.
  - reflexivity.
  - reflexivity.
Defined.
End witnesses.
