(* ===== verification/WalLog.v ===== *)
(** * The segmented log (internal/storage/wal/log.go)

    The write-ahead log as a directory of numbered files: their names and the
    parsing of these, [OpenLog] with its replay of every segment, [Rotate],
    [DeleteThrough] and the outcomes the file system can give each.  The file
    shows that a reopened log returns the entries of every segment in order,
    and that the operations act on the sequence of segments as they promise. *)

From stdpp Require Import gmap strings list sorting.
From Stdlib Require Import ZArith Lia Ascii.
From S2P Require Import Prelude GoLib VectorClock Versioning Json Wal.

(** ** Segment names *)

Definition legacyName : string := "wal.log".

(** [%020d] of a [uint64]: it has at most twenty digits. *)
Fixpoint dec_digits (w : nat) (n : N) : bytes :=
  match w with
  | O => []
  | S w' => dec_digits w' (n / 10) ++ [ascii_of_N (48 + n mod 10)]
  end.

Definition is_digit (c : ascii) : bool := (48 <=? N_of_ascii c)%N && (N_of_ascii c <=? 57)%N.

Definition dec_value (b : bytes) : N := fold_left (λ acc c, acc * 10 + (N_of_ascii c - 48))%N b 0%N.

(** Paths are names in the log's directory. *)
Definition segmentPath (seq : N) : string :=
  of_bytes (to_bytes "wal_" ++ dec_digits 20 seq ++ to_bytes ".log").

(** The regular expression [^wal_(\d{20})\.log$] and its group. *)
Definition segmentName (name : string) : option bytes :=
  let b := to_bytes name in
  let digits := take 20 (drop 4 b) in
  if bool_decide (take 4 b = to_bytes "wal_") && bool_decide (length digits = 20) &&
     forallb is_digit digits && bool_decide (drop 24 b = to_bytes ".log")
  then Some digits else None.

Record segment := mkSeg { seg_seq : N; seg_path : string }.
#[export] Instance segment_eq_dec : EqDecision segment.
Proof. solve_decision. Defined.

(** The directory, by name. *)
Notation dir := (gmap string file).

Record Log := mkLog { current : string; seq : N; sealed : list segment }.

Inductive log_error :=
  | MkdirFailed
  | ListFailed
  | BadSegmentName (name : string)
  | OpenFailed (path : string)
  | OpenSeekFailed (path : string)
  | ReplayFailed (path : string) (e : error)
  | CloseFailed (path : string)
  | NewSegment (seq : N)
  | DeleteFailed (seq : N)
  | WalError (e : error).

(** What the file system answers, by path where an operation names one. *)
Record log_io := mkLIO {
  l_mkdir : bool; l_readdir : bool; l_open : string → bool; l_seek : string → bool;
  l_replay : string → replay_io; l_close : string → bool; l_remove : string → bool;
  l_syncdir : bool; l_write : write_io
}.
Definition lio_fine : log_io :=
  mkLIO true true (λ _, true) (λ _, true) (λ _, rio_fine) (λ _, true) (λ _, true) true io_fine.

(** ** Operations *)

Fixpoint list_loop (names : list string) (segs : list segment) : res log_error (list segment) :=
  match names with
  | [] => Ok segs
  | name :: rest =>
      if bool_decide (name = legacyName) then list_loop rest (segs ++ [mkSeg 0 name])
      else match segmentName name with
      | None => list_loop rest segs
      | Some digits =>
          (* [strconv.ParseUint(_, 10, 64)] *)
          if (dec_value digits <? two64)%N then list_loop rest (segs ++ [mkSeg (dec_value digits) name])
          else Err (BadSegmentName name)
      end
  end.

Definition seg_le (s t : segment) : Prop := (seg_seq s ≤ seg_seq t)%N.
#[export] Instance seg_le_dec : RelDecision seg_le.
Proof. intros s t. unfold seg_le. apply _. Defined.

(** [os.ReadDir] lists names in order. *)
Definition ReadDir (d : dir) : list string := sort_strings (fst <$> map_to_list d).

Definition listSegments (io : log_io) (d : dir) : res log_error (list segment) :=
  if negb (l_readdir io) then Err ListFailed
  else segs ←? list_loop (ReadDir d) []; Ok (merge_sort seg_le segs).

(** [open]: creates the file if it does not exist. *)
Definition open (io : log_io) (d : dir) (path : string) : dir * option log_error :=
  if negb (l_open io path) then (d, Some (OpenFailed path))
  else
    let d' := <[path := default (mkFile [] []) (d !! path)]> d in
    if negb (l_seek io path) then (d', Some (OpenSeekFailed path)) else (d', None).

Section log.
Context `{!JsonCodec value, !JsonCodec record}.

Definition replayFile (io : log_io) (a : N) (d : dir) (path : string) : dir * res log_error (list Entry) :=
  match open io d path with
  | (d', Some err) => (d', Err err)
  | (d', None) =>
      let '(f, r) := Replay (l_replay io path) a (default (mkFile [] []) (d' !! path)) in
      let d'' := <[path := f]> d' in
      match r with
      | Err e => (d'', Err (ReplayFailed path e))
      | Ok entries => if l_close io path then (d'', Ok entries) else (d'', Err (CloseFailed path))
      end
  end.

(** The loop of [OpenLog]; items are allocated from [a]. *)
Fixpoint open_loop (io : log_io) (a : N) (d : dir) (existing : list segment)
    (entries : list Entry) (next : N) (sealed : list segment)
    : dir * res log_error (list Entry * N * list segment) :=
  match existing with
  | [] => (d, Ok (entries, next, sealed))
  | seg :: rest =>
      match replayFile io a d (seg_path seg) with
      | (d', Err err) => (d', Err err)
      | (d', Ok segEntries) =>
          let a' := (a + N.of_nat (sum_list (entry_items <$> segEntries)))%N in
          let entries' := entries ++ segEntries in
          let next' := if (next <=? seg_seq seg)%N then u64 (seg_seq seg + 1) else next in
          match segEntries with
          | [] =>
              let d'' := if l_remove io (seg_path seg) then delete (seg_path seg) d' else d' in
              open_loop io a' d'' rest entries' next' sealed
          | _ => open_loop io a' d' rest entries' next' (sealed ++ [seg])
          end
      end
  end.

(** A failed start leaves [current] and [seq] alone. *)
Definition startSegment (io : log_io) (d : dir) (n : N) : dir * option log_error :=
  match open io d (segmentPath n) with
  | (d', Some err) => (d', Some err)
  | (d', None) =>
      if negb (l_syncdir io) then
        ((if l_remove io (segmentPath n) then delete (segmentPath n) d' else d'), Some (NewSegment n))
      else (d', None)
  end.

Definition OpenLog (io : log_io) (a : N) (d : dir) : dir * res log_error (Log * list Entry) :=
  if negb (l_mkdir io) then (d, Err MkdirFailed)
  else match listSegments io d with
  | Err err => (d, Err err)
  | Ok existing =>
      match open_loop io a d existing [] 1 [] with
      | (d', Err err) => (d', Err err)
      | (d', Ok (entries, next, sealed)) =>
          match startSegment io d' next with
          | (d'', Some err) => (d'', Err err)
          | (d'', None) => (d'', Ok (mkLog (segmentPath next) next sealed, entries))
          end
      end
  end.

(** A call on the current segment. *)
Definition on_current (d : dir) (l : Log) (op : file → file * option error) : dir * option log_error :=
  let '(f, err) := op (default (mkFile [] []) (d !! current l)) in
  (<[current l := f]> d, WalError <$> err).

Definition log_Append (io : log_io) (d : dir) (l : Log) (entry : Entry) : dir * option log_error :=
  on_current d l (λ f, Append (l_write io) f entry).

Definition log_WriteBatch (io : log_io) (d : dir) (l : Log) (records : list bytes)
    : dir * option log_error :=
  on_current d l (λ f, WriteBatch (l_write io) f records).

(** [Rotate] returns the sealed number also with the error of closing it. *)
Definition Rotate (io : log_io) (d : dir) (l : Log) : dir * Log * (N * option log_error) :=
  let oldSeq := seq l in
  match startSegment io d (u64 (oldSeq + 1)) with
  | (d', Some err) => (d', l, (0%N, Some err))
  | (d', None) =>
      let l' := mkLog (segmentPath (u64 (oldSeq + 1))) (u64 (oldSeq + 1))
                  (sealed l ++ [mkSeg oldSeq (segmentPath oldSeq)]) in
      if l_close io (current l) then (d', l', (oldSeq, None))
      else (d', l', (oldSeq, Some (CloseFailed (segmentPath oldSeq))))
  end.

(** [io_remove] is false for a removal that fails; a file that does not
    exist is not a failure. *)
Fixpoint delete_loop (io : log_io) (n : N) (d : dir) (segs : list segment)
    : dir * list segment * option log_error :=
  match segs with
  | [] => (d, [], None)
  | seg :: rest =>
      if (n <? seg_seq seg)%N then (d, seg :: rest, None)
      else match d !! seg_path seg with
      | Some _ =>
          if l_remove io (seg_path seg) then delete_loop io n (delete (seg_path seg) d) rest
          else (d, seg :: rest, Some (DeleteFailed (seg_seq seg)))
      | None => delete_loop io n d rest
      end
  end.

Definition DeleteThrough (io : log_io) (d : dir) (l : Log) (n : N) : dir * Log * option log_error :=
  let '(d', rest, err) := delete_loop io n d (sealed l) in
  (d', mkLog (current l) (seq l) rest, err).
End log.

(** ** Allocation *)

Section addrs.
Context `{!JsonCodec value, !JsonCodec record}.

Lemma sum_items_app (l1 l2 : list Entry) :
  sum_list (entry_items <$> l1 ++ l2) = sum_list (entry_items <$> l1) + sum_list (entry_items <$> l2).
Proof. by rewrite fmap_app, sum_list_with_app. Qed.

Lemma open_loop_addrs io a d existing entries next sealed d' es n sl :
  open_loop io a d existing entries next sealed = (d', Ok (es, n, sl)) →
  ∃ new, es = entries ++ new ∧ new ≫= entry_addrs = consecutive a (sum_list (entry_items <$> new)).
Proof.
  revert a d entries next sealed. induction existing as [|seg rest IH]; intros a d entries next sealed;
    cbn [open_loop].
  { intros [= <- <- <- <-]. exists []. by rewrite app_nil_r. }
  destruct (replayFile io a d (seg_path seg)) as [d1 [es1|err]] eqn:E; [|done].
  assert (es1 ≫= entry_addrs = consecutive a (sum_list (entry_items <$> es1))) as H1.
  { revert E. unfold replayFile. destruct (open io d (seg_path seg)) as [d2 [err|]]; [done|].
    destruct (Replay _ _ _) as [f [es2|err]] eqn:Er; [|done]. destruct (l_close io _); [|done].
    intros [= _ <-]. by eapply Replay_addrs. }
  assert (∀ new, es = (entries ++ es1) ++ new →
    new ≫= entry_addrs = consecutive (a + N.of_nat (sum_list (entry_items <$> es1))) (sum_list (entry_items <$> new)) →
    ∃ new', es = entries ++ new' ∧ new' ≫= entry_addrs = consecutive a (sum_list (entry_items <$> new'))) as Hgo.
  { intros new -> Hn. exists (es1 ++ new). rewrite <-app_assoc. split; [done|].
    by rewrite bind_app, sum_items_app, consecutive_app, H1, Hn. }
  destruct es1 as [|e1 es1']; intros (new & Hes & Hn)%IH; by eapply Hgo.
Qed.

(** The entries of a reopened log share no item. *)
Lemma OpenLog_addrs io a d d' l es : OpenLog io a d = (d', Ok (l, es)) → NoDup (es ≫= entry_addrs).
Proof.
  unfold OpenLog. destruct (negb (l_mkdir io)); [done|]. destruct (listSegments io d) as [ex|]; [|done].
  destruct (open_loop _ _ _ _ _ _ _) as [d1 [[[es1 n] sl]|err]] eqn:E; [|done].
  destruct (startSegment io d1 n) as [d2 [err|]]; [done|]. intros [= _ _ <-].
  apply open_loop_addrs in E as (new & -> & Hn). cbn [app]. rewrite Hn. apply NoDup_consecutive.
Qed.
End addrs.

(** ** Names *)

Lemma length_dec_digits w n : length (dec_digits w n) = w.
Proof. revert n. induction w; intros n; simpl; [done|]. rewrite length_app, IHw. simpl. lia. Qed.

Lemma mod10_lt n : (n mod 10 < 10)%N.
Proof. by apply N.mod_lt. Qed.

Ltac mod10 n := pose proof (mod10_lt n); generalize dependent (n mod 10)%N; intros.

Lemma digit_value n : (N_of_ascii (ascii_of_N (48 + n mod 10)) = 48 + n mod 10)%N.
Proof. apply N_ascii_embedding. mod10 n. lia. Qed.

Lemma dec_digits_digits w n : forallb is_digit (dec_digits w n) = true.
Proof.
  revert n. induction w as [|w IH]; intros n; simpl; [done|].
  rewrite forallb_app, IH. simpl. unfold is_digit. rewrite digit_value.
  mod10 n. rewrite !(proj2 (N.leb_le _ _)) by lia. done.
Qed.

Lemma dec_value_snoc b c : dec_value (b ++ [c]) = (dec_value b * 10 + (N_of_ascii c - 48))%N.
Proof. unfold dec_value. by rewrite fold_left_app. Qed.

Lemma dec_value_digits w n : (dec_value (dec_digits w n) = n mod 10 ^ N.of_nat w)%N.
Proof.
  revert n. induction w as [|w IH]; intros n.
  - simpl. by rewrite N.mod_1_r.
  - cbn [dec_digits]. rewrite dec_value_snoc, IH, digit_value, Nat2N.inj_succ, N.pow_succ_r'.
    rewrite N.Div0.mod_mul_r. mod10 n. lia.
Qed.

Lemma dec_digits_value ds : forallb is_digit ds = true → dec_digits (length ds) (dec_value ds) = ds.
Proof.
  induction ds as [|c ds IH] using rev_ind; [done|]. rewrite forallb_app. intros Hd. kv_bool. simpl in *.
  rewrite andb_true_r in *. unfold is_digit in *. kv_bool. rewrite length_app, dec_value_snoc. simpl.
  rewrite Nat.add_1_r. cbn [dec_digits].
  assert (N_of_ascii c - 48 < 10)%N by (rewrite !N.leb_le in *; lia).
  rewrite N.div_add_l, N.div_small, N.add_0_r, IH by (done || lia). f_equal. f_equal.
  rewrite (N.add_comm (_ * 10)), N.Div0.mod_add, N.mod_small by done.
  rewrite !N.leb_le in *. rewrite <-(ascii_N_embedding c) at 2. f_equal. lia.
Qed.

Lemma segmentName_path n : segmentName (segmentPath n) = Some (dec_digits 20 n).
Proof.
  unfold segmentName, segmentPath. rewrite to_of_bytes.
  set (ds := dec_digits 20 n). assert (length ds = 20) as Hl by apply length_dec_digits.
  rewrite (take_app_length' (to_bytes "wal_")), (drop_app_length' (to_bytes "wal_")) by done.
  rewrite (take_app_length' ds) by done.
  rewrite (app_assoc (to_bytes "wal_") ds), (drop_app_length' (to_bytes "wal_" ++ ds)) by
    (rewrite length_app, Hl; done).
  rewrite !bool_decide_true by done. unfold ds. by rewrite dec_digits_digits.
Qed.

Lemma segmentName_inv name ds :
  segmentName name = Some ds → name = segmentPath (dec_value ds).
Proof.
  unfold segmentName. destruct (_ && _) eqn:E; [|done]. intros [= <-]. kv_bool.
  set (b := to_bytes name) in *.
  unfold segmentPath. rewrite <-(of_to_bytes name). fold b. f_equal.
  rewrite <-(take_drop 4 b) at 1. f_equal; [done|].
  rewrite <-(take_drop 20 (drop 4 b)) at 1. rewrite drop_drop. f_equal; [|done].
  symmetry. match goal with H : length _ = 20 |- _ => rewrite <-H at 1 end. by apply dec_digits_value.
Qed.

#[local] Opaque segmentPath dec_digits.

Lemma dec_value_path n : (n < two64)%N → dec_value (dec_digits 20 n) = n.
Proof. intros Hn. rewrite dec_value_digits. apply N.mod_small. by etrans. Qed.

(** The segment a name stands for, if any. *)
Definition seg_of (name : string) : option segment :=
  if bool_decide (name = legacyName) then Some (mkSeg 0 name)
  else (λ digits, mkSeg (dec_value digits) name) <$> segmentName name.

Lemma seg_of_path name s : seg_of name = Some s → seg_path s = name.
Proof.
  unfold seg_of. case_bool_decide; [by intros [= <-]|].
  destruct (segmentName name); simpl; [by intros [= <-]|done].
Qed.

Lemma seg_of_segmentPath n : (n < two64)%N → seg_of (segmentPath n) = Some (mkSeg n (segmentPath n)).
Proof.
  intros Hn. unfold seg_of. rewrite bool_decide_false.
  - rewrite segmentName_path. simpl. by rewrite dec_value_path.
  - intros E. pose proof (segmentName_path n) as H. by rewrite E in H.
Qed.

(** Names [OpenLog] can work with: no number beyond 64 bits, and no numbered
    segment 0, which is the legacy file's number. *)
Definition name_ok (name : string) : Prop :=
  name ≠ segmentPath 0 ∧ ∀ s, seg_of name = Some s → (seg_seq s < two64)%N.

Lemma seg_of_inj n1 n2 s1 s2 :
  name_ok n1 → name_ok n2 → seg_of n1 = Some s1 → seg_of n2 = Some s2 →
  seg_seq s1 = seg_seq s2 → s1 = s2.
Proof.
  intros [Hz1 _] [Hz2 _] H1 H2 E.
  assert (∀ n s, n ≠ segmentPath 0 → seg_of n = Some s →
    n = legacyName ∧ seg_seq s = 0%N ∨ n = segmentPath (seg_seq s) ∧ seg_seq s ≠ 0%N) as Hc.
  { intros n s Hz. unfold seg_of. case_bool_decide; [intros [= <-]; left; by split|].
    destruct (segmentName n) as [ds|] eqn:En; [|done]. intros [= <-]. cbn [seg_seq seg_path].
    apply segmentName_inv in En as ->. right. split; [reflexivity|]. intros E0. by rewrite E0 in Hz. }
  destruct (Hc _ _ Hz1 H1) as [[-> ?]|[Hn1 ?]], (Hc _ _ Hz2 H2) as [[-> ?]|[Hn2 ?]]; try congruence.
Qed.

Lemma name_ok_path n : (0 < n < two64)%N → name_ok (segmentPath n).
Proof.
  intros Hn. split.
  - intros E. assert (seg_of (segmentPath n) = seg_of (segmentPath 0)) as E' by by rewrite E.
    rewrite !seg_of_segmentPath in E' by lia. injection E' as ->. lia.
  - intros s. rewrite seg_of_segmentPath by lia. intros [= <-]. simpl. lia.
Qed.

Lemma list_loop_spec names segs :
  Forall name_ok names → list_loop names segs = Ok (segs ++ omap seg_of names).
Proof.
  intros Hok. revert segs. induction Hok as [|name names Hn Hok IH]; intros segs; simpl.
  { by rewrite app_nil_r. }
  destruct Hn as [_ Hn]. unfold seg_of in *. case_bool_decide.
  - rewrite IH, <-app_assoc. done.
  - destruct (segmentName name) as [ds|]; simpl in *; [|apply IH].
    specialize (Hn _ eq_refl). simpl in Hn. rewrite (proj2 (N.ltb_lt _ _)) by done.
    rewrite IH, <-app_assoc. done.
Qed.

(** The segments of a directory, oldest first. *)
Definition segments (d : dir) : list segment := merge_sort seg_le (omap seg_of (ReadDir d)).

Definition names_ok (d : dir) : Prop := ∀ name, is_Some (d !! name) → name_ok name.

Definition seg_lt (s t : segment) : Prop := (seg_seq s < seg_seq t)%N.

#[export] Instance seg_le_trans : Transitive seg_le.
Proof. intros s t u. unfold seg_le. lia. Qed.
#[export] Instance seg_le_total : Total seg_le.
Proof. intros s t. unfold seg_le. lia. Qed.

Lemma elem_of_ReadDir d name : name ∈ ReadDir d ↔ is_Some (d !! name).
Proof.
  unfold ReadDir. rewrite sort_strings_elem, list_elem_of_fmap. split.
  - intros ([n f] & -> & H). apply elem_of_map_to_list in H. eauto.
  - intros [f H]. exists (name, f). split; [done|]. by apply elem_of_map_to_list.
Qed.

Lemma elem_of_segments d s :
  s ∈ segments d ↔ is_Some (d !! seg_path s) ∧ seg_of (seg_path s) = Some s.
Proof.
  unfold segments. rewrite merge_sort_Permutation, list_elem_of_omap.
  setoid_rewrite elem_of_ReadDir. split.
  - intros (name & Hn & E). pose proof (seg_of_path _ _ E) as Hp. by rewrite Hp.
  - intros [Hd E]. eauto.
Qed.

Lemma NoDup_segments d : NoDup (segments d).
Proof.
  unfold segments. rewrite merge_sort_Permutation.
  assert (NoDup (ReadDir d)) as Hnd.
  { unfold ReadDir. rewrite sort_strings_perm. apply NoDup_fst_map_to_list. }
  induction Hnd as [|name names Hn Hnd IH]; simpl; [constructor|].
  destruct (seg_of name) as [s|] eqn:E; [|done]. constructor; [|done].
  intros (name' & Hin & E')%list_elem_of_omap. apply seg_of_path in E, E'. by subst.
Qed.

Lemma segments_sorted d : names_ok d → StronglySorted seg_lt (segments d).
Proof.
  intros Hok. pose proof (StronglySorted_merge_sort seg_le (omap seg_of (ReadDir d))) as Hs.
  pose proof (NoDup_segments d) as Hnd. fold (segments d) in Hs.
  assert (∀ s, s ∈ segments d → seg_of (seg_path s) = Some s ∧ name_ok (seg_path s)) as Hel.
  { intros s [Hd E]%elem_of_segments. split; [done|by apply Hok]. }
  induction Hs as [|s l Hl IH Hx]; [constructor|]. inversion Hnd; subst.
  constructor; [apply IH; [done|]; intros t Ht; apply Hel; set_solver|].
  rewrite Forall_forall in Hx. rewrite Forall_forall. intros t Ht. specialize (Hx t Ht).
  unfold seg_lt, seg_le in *. assert (seg_seq s ≠ seg_seq t); [|lia]. intros E.
  destruct (Hel s) as [Hs1 Hs2]; [set_solver|]. destruct (Hel t) as [Ht1 Ht2]; [set_solver|].
  by rewrite (seg_of_inj _ _ _ _ Hs2 Ht2 Hs1 Ht1 E) in *.
Qed.

Lemma listSegments_spec io d :
  l_readdir io = true → names_ok d → listSegments io d = Ok (segments d).
Proof.
  intros Hio Hok. unfold listSegments. rewrite Hio. simpl.
  rewrite list_loop_spec; [done|]. apply Forall_forall. intros n Hn%elem_of_ReadDir. by apply Hok.
Qed.

(** ** The sequence of segments *)

Section theory.
Context `{!JsonCodec value, !JsonCodec record, !JsonRoundTrip value value_ok, !RecordJson}.

(** A file whose replay gives [es] and leaves a clean log of them. *)
Definition replays (f : file) (es : list Entry) : Prop :=
  ∀ a, ∃ f' es', Replay rio_fine a f = (f', Ok es') ∧
    entry_contents <$> es' = entry_contents <$> es ∧ log_holds f' es.

Lemma log_holds_replays f es : log_holds f es → replays f es.
Proof.
  intros (bs & Hes & ->) a.
  destruct (Replay_prefix es bs [] [] 0 Hes ltac:(constructor)) as (k & _ & Hrep).
  rewrite take_0, app_nil_r, take_nil, app_nil_r in Hrep. apply Hrep.
Qed.

Lemma log_holds_nil : log_holds (mkFile [] []) [].
Proof. exists []. by split; [constructor|]. Qed.

(** The log [l] over [d]: sealed segments with their entries, oldest first,
    and the entries of the current one.  Other segment files, left by a failed
    [startSegment], are empty. *)
Record log_view (d : dir) (l : Log) (segs : list (segment * list Entry)) (cur : list Entry) : Prop := {
  lv_path : current l = segmentPath (seq l);
  lv_seq : (0 < seq l < two64)%N;
  lv_sealed : sealed l = segs.*1;
  lv_sorted : StronglySorted seg_lt (segs.*1 ++ [mkSeg (seq l) (current l)]);
  lv_files : ∀ s es, (s, es) ∈ segs ++ [(mkSeg (seq l) (current l), cur)] →
    seg_of (seg_path s) = Some s ∧ ∃ f, d !! seg_path s = Some f ∧ log_holds f es;
  lv_rest : ∀ name f s, d !! name = Some f → seg_of name = Some s →
    s ∈ segs.*1 ++ [mkSeg (seq l) (current l)] ∨ (log_holds f [] ∧ seg_seq s ≤ seq l + 1)%N;
  lv_names : names_ok d
}.

(** One segment replayed. *)
Lemma replayFile_spec a d path f es :
  d !! path = Some f → replays f es →
  ∃ f' es', replayFile lio_fine a d path = (<[path := f']> d, Ok es') ∧
    entry_contents <$> es' = entry_contents <$> es ∧ log_holds f' es.
Proof.
  intros Hd Hr. destruct (Hr a) as (f' & es' & H1 & H2 & H3). exists f', es'.
  split; [|done]. unfold replayFile, open. cbn [lio_fine l_open l_seek negb l_replay l_close].
  rewrite Hd. simpl default. rewrite lookup_insert_eq. simpl default. rewrite H1.
  by rewrite insert_insert_eq.
Qed.

Definition nonempty (p : segment * list Entry) : bool :=
  match p.2 with [] => false | _ => true end.

Definition after (next : N) (segs : list segment) : N :=
  fold_left (λ n s, if (n <=? seg_seq s)%N then u64 (seg_seq s + 1) else n) segs next.

(** A replayed segment is kept, cleaned, or deleted if it held nothing. *)
Definition kept (d : dir) (p : segment * list Entry) : Prop :=
  match p.2 with
  | [] => d !! seg_path p.1 = None
  | es => ∃ f, d !! seg_path p.1 = Some f ∧ log_holds f es
  end.

Lemma open_loop_step s es f rest a d entries next sealed :
  d !! seg_path s = Some f → replays f es →
  ∃ a' d1 es1, open_loop lio_fine a d (s :: rest) entries next sealed =
      open_loop lio_fine a' d1 rest (entries ++ es1) (after next [s])
        (sealed ++ (bfilter nonempty [(s, es)]).*1) ∧
    entry_contents <$> es1 = entry_contents <$> es ∧ kept d1 (s, es) ∧
    (∀ name, name ≠ seg_path s → d1 !! name = d !! name).
Proof.
  intros Hd Hr. destruct (replayFile_spec a d _ f es Hd Hr) as (f' & es1 & Hrep & Heq & Hlog).
  cbn [open_loop]. rewrite Hrep. unfold kept. cbn [fst snd bfilter nonempty].
  destruct es1 as [|e1 es1], es as [|e es]; try (by apply (f_equal length) in Heq).
  - cbn [lio_fine l_remove fmap list_fmap]. rewrite !app_nil_r. eexists _, _, []. rewrite app_nil_r.
    split_and!; try done; [by rewrite lookup_delete_eq|].
    intros name Hn. by rewrite lookup_delete_ne, lookup_insert_ne.
  - eexists _, _, (e1 :: es1). split_and!; try done.
    + exists f'. by rewrite lookup_insert_eq.
    + intros name Hn. by rewrite lookup_insert_ne.
Qed.

Lemma open_loop_spec segs a d entries next sealed :
  NoDup (seg_path <$> segs.*1) →
  (∀ s es, (s, es) ∈ segs → ∃ f, d !! seg_path s = Some f ∧ replays f es) →
  ∃ d' es', open_loop lio_fine a d segs.*1 entries next sealed =
      (d', Ok (entries ++ es', after next segs.*1, sealed ++ (bfilter nonempty segs).*1)) ∧
    entry_contents <$> es' = entry_contents <$> concat segs.*2 ∧
    (∀ p, p ∈ segs → kept d' p) ∧
    (∀ name, name ∉ seg_path <$> segs.*1 → d' !! name = d !! name).
Proof.
  revert a d entries next sealed.
  induction segs as [|[s es] segs IH]; intros a d entries next sealed Hnd Hf.
  { exists d, []. simpl. rewrite !app_nil_r. split_and!; try done; set_solver. }
  rewrite !fmap_cons in *. cbn [fst snd] in *. inversion Hnd as [|? ? Hs Hnd']; subst.
  destruct (Hf s es) as (f & Hd & Hr); [set_solver|].
  destruct (open_loop_step s es f segs.*1 a d entries next sealed Hd Hr)
    as (a' & d1 & es1 & -> & Heq & Hk & Hother).
  edestruct (IH a' d1 (entries ++ es1)) as (d' & es' & -> & H2 & H3 & H4); [done| |].
  { intros s0 es0 Hin. rewrite Hother; [apply Hf; set_solver|]. intros E. apply Hs.
    rewrite <-E, <-list_fmap_compose. by apply (list_elem_of_fmap_2 (seg_path ∘ fst) segs (s0, es0)). }
  exists d', (es1 ++ es'). rewrite <-!app_assoc, !fmap_app, Heq, H2. cbn [concat].
  rewrite fmap_app. split_and!; try done.
  - change ((s, es) :: segs) with ([(s, es)] ++ segs). by rewrite bfilter_app, fmap_app.
  - intros p [->|Hin]%elem_of_cons; [|by apply H3]. unfold kept in *. cbn [fst snd] in *.
    by rewrite H4.
  - intros name Hn. rewrite H4 by set_solver. apply Hother. set_solver.
Qed.

Lemma after_max segs next :
  (∀ s, s ∈ segs → seg_seq s + 1 < two64)%N → (next < two64)%N →
  (next ≤ after next segs < two64)%N ∧ ∀ s, s ∈ segs → (seg_seq s < after next segs)%N.
Proof.
  revert next. induction segs as [|s segs IH]; intros next Hb Hn; cbn [after fold_left].
  { split; [lia|set_solver]. }
  pose proof (Hb s ltac:(set_solver)) as Hs.
  set (next' := if (next <=? seg_seq s)%N then u64 (seg_seq s + 1) else next).
  assert (next ≤ next' < two64 ∧ seg_seq s < next')%N as [Hn' Hs'].
  { unfold next'. destruct (N.leb_spec next (seg_seq s)); rewrite ?u64_small by done; lia. }
  destruct (IH next') as [H1 H2]; [set_solver|lia|]. fold (after next' segs).
  split; [lia|]. intros t [->|Ht]%elem_of_cons; [lia|by apply H2].
Qed.

(** The segments of a directory with the entries [es_of] gives them. *)
Definition tagged (es_of : segment → list Entry) (d : dir) : list (segment * list Entry) :=
  (λ s, (s, es_of s)) <$> segments d.

Lemma tagged_fst es_of d : (tagged es_of d).*1 = segments d.
Proof. unfold tagged. rewrite <-list_fmap_compose. apply list_fmap_id. Qed.

Lemma tagged_snd es_of d : concat (tagged es_of d).*2 = segments d ≫= es_of.
Proof.
  unfold tagged. rewrite <-list_fmap_compose. induction (segments d) as [|s l IH]; [done|].
  rewrite fmap_cons, bind_cons. cbn [concat]. by rewrite IH.
Qed.

Lemma elem_of_tagged es_of d s es : (s, es) ∈ tagged es_of d ↔ s ∈ segments d ∧ es = es_of s.
Proof. unfold tagged. rewrite list_elem_of_fmap. naive_solver. Qed.

Lemma tagged_NoDup es_of d : NoDup (seg_path <$> (tagged es_of d).*1).
Proof.
  rewrite tagged_fst. apply NoDup_fmap_2_strong; [|apply NoDup_segments].
  intros s t [_ Hs]%elem_of_segments [_ Ht]%elem_of_segments E. congruence.
Qed.

Lemma nonempty_sorted (l : list (segment * list Entry)) :
  StronglySorted seg_lt l.*1 → StronglySorted seg_lt (bfilter nonempty l).*1.
Proof.
  induction l as [|[s es] l IH]; [done|]. rewrite fmap_cons. inversion 1 as [|? ? Hl Hx]; subst.
  cbn [bfilter]. destruct (nonempty _); [|by apply IH]. rewrite fmap_cons.
  constructor; [by apply IH|]. rewrite Forall_forall in Hx. rewrite Forall_forall.
  intros t ([t' es'] & -> & [_ Ht]%elem_of_bfilter)%list_elem_of_fmap.
  apply Hx. by apply (list_elem_of_fmap_2 fst l (t', es')).
Qed.

Lemma segment_file d n : (n < two64)%N →
  mkSeg n (segmentPath n) ∈ segments d ↔ is_Some (d !! segmentPath n).
Proof.
  intros Hn. rewrite elem_of_segments. cbn [seg_path]. rewrite seg_of_segmentPath by done. naive_solver.
Qed.

(** What a run of [OpenLog] does, when every segment file replays. *)
Lemma OpenLog_run a d es_of :
  names_ok d →
  (∀ s, s ∈ segments d → (seg_seq s + 1 < two64)%N ∧
     ∃ f, d !! seg_path s = Some f ∧ replays f (es_of s)) →
  ∃ d1 next es', OpenLog lio_fine a d =
      (<[segmentPath next := mkFile [] []]> d1,
       Ok (mkLog (segmentPath next) next (bfilter nonempty (tagged es_of d)).*1, es')) ∧
    entry_contents <$> es' = entry_contents <$> (segments d ≫= es_of) ∧
    (0 < next < two64)%N ∧ (∀ s, s ∈ segments d → (seg_seq s < next)%N) ∧
    (∀ s, s ∈ segments d → kept d1 (s, es_of s)) ∧
    (∀ name, name ∉ seg_path <$> segments d → d1 !! name = d !! name) ∧
    segmentPath next ∉ seg_path <$> segments d.
Proof.
  intros Hok Hf.
  destruct (open_loop_spec (tagged es_of d) a d [] 1 []) as (d1 & es' & Hrun & Heq & Hkept & Hother).
  { apply tagged_NoDup. }
  { intros s es [Hs ->]%elem_of_tagged. by apply Hf. }
  rewrite tagged_fst in *. rewrite tagged_snd in Heq.
  destruct (after_max (segments d) 1) as [Ha1 Ha2]; [intros s Hs; by apply Hf|done|].
  set (next := after 1 (segments d)) in *.
  assert (segmentPath next ∉ seg_path <$> segments d) as Hfresh.
  { intros (s & E & Hs)%list_elem_of_fmap. specialize (Ha2 _ Hs).
    apply elem_of_segments in Hs as [_ Hs]. rewrite <-E in Hs.
    rewrite seg_of_segmentPath in Hs by lia. injection Hs as <-. simpl in Ha2. lia. }
  exists d1, next, es'. split_and!; try done; try lia.
  - unfold OpenLog. simpl negb. cbv iota. rewrite listSegments_spec by done. rewrite Hrun.
    unfold startSegment, open. cbn [lio_fine l_open l_seek l_syncdir negb].
    rewrite (Hother _ Hfresh). destruct (d !! segmentPath next) eqn:E; [|done]. exfalso.
    apply Hfresh. apply (list_elem_of_fmap_2 seg_path _ (mkSeg next (segmentPath next))).
    apply segment_file; [lia|eauto].
  - intros s Hs. apply Hkept. by apply elem_of_tagged.
Qed.

Lemma OpenLog_spec a d es_of :
  names_ok d →
  (∀ s, s ∈ segments d → (seg_seq s + 1 < two64)%N ∧
     ∃ f, d !! seg_path s = Some f ∧ replays f (es_of s)) →
  ∃ d' l entries, OpenLog lio_fine a d = (d', Ok (l, entries)) ∧
    entry_contents <$> entries = entry_contents <$> (segments d ≫= es_of) ∧
    (∀ name, is_Some (d !! name) → d' !! name = None → ∃ s, seg_of name = Some s ∧ (seg_seq s < seq l)%N) ∧
    log_view d' l (bfilter nonempty (tagged es_of d)) [].
Proof.
  intros Hok Hf. destruct (OpenLog_run a d es_of Hok Hf)
    as (d1 & next & es' & -> & Heq & Hnext & Hlt & Hkept & Hother & Hfresh).
  eexists _, _, es'. split; [done|]. split; [done|]. split.
  { intros name [f Hn]. rewrite lookup_insert. case_decide; [done|]. intros Hd.
    destruct (decide (name ∈ seg_path <$> segments d)) as [(s & -> & Hs)%list_elem_of_fmap|Hno].
    - exists s. split; [by apply elem_of_segments in Hs as [_ ?]|by apply Hlt].
    - rewrite Hother in Hd by done. congruence. }
  assert (∀ s es, (s, es) ∈ bfilter nonempty (tagged es_of d) ↔
    s ∈ segments d ∧ es = es_of s ∧ es_of s ≠ []) as Hin.
  { intros s es. rewrite elem_of_bfilter, elem_of_tagged. unfold nonempty. cbn [snd]. split.
    - intros (He & Hs & ->). split_and!; [done..|]. intros E. by rewrite E in He.
    - intros (Hs & -> & Hne). split; [|done]. by destruct (es_of s). }
  split; cbn [current seq sealed]; try done.
  - apply StronglySorted_app_2; [|apply nonempty_sorted; rewrite tagged_fst; by apply segments_sorted|
      by repeat constructor].
    intros s t ([s' es] & -> & [Hs _]%Hin)%list_elem_of_fmap ->%list_elem_of_singleton. by apply Hlt.
  - intros s es [(Hs & -> & Hne)%Hin| [= -> ->]%list_elem_of_singleton]%elem_of_app.
    + split; [by apply (elem_of_segments d s)|]. rewrite lookup_insert_ne
        by (intros E; apply Hfresh; rewrite E; by apply list_elem_of_fmap_2).
      specialize (Hkept _ Hs). unfold kept in Hkept. simpl in Hkept. by destruct (es_of s).
    + cbn [seg_path]. split; [apply seg_of_segmentPath; lia|]. exists (mkFile [] []).
      rewrite lookup_insert_eq. split; [done|apply log_holds_nil].
  - intros name f s. rewrite lookup_insert. case_decide as Hn.
    { intros [= <-] Hs. subst name. rewrite seg_of_segmentPath in Hs by lia. injection Hs as <-.
      left. apply elem_of_app. right. by left. }
    intros Hd Hs. pose proof (seg_of_path _ _ Hs) as Hp. subst name. left. apply elem_of_app. left.
    assert (s ∈ segments d) as Hsd.
    { destruct (decide (seg_path s ∈ seg_path <$> segments d)) as [(t & E & Ht)%list_elem_of_fmap|Hno].
      - pose proof Ht as Ht'. apply elem_of_segments in Ht' as [_ Ht']. congruence.
      - rewrite Hother in Hd by done. apply elem_of_segments. eauto. }
    apply (list_elem_of_fmap_2 fst _ (s, es_of s)), Hin. split_and!; [done..|]. intros E.
    specialize (Hkept _ Hsd). unfold kept in Hkept. simpl in Hkept. rewrite E in Hkept. congruence.
  - intros name. rewrite lookup_insert. case_decide as Hn.
    + intros _. subst name. apply name_ok_path. lia.
    + intros [f Hd]. apply Hok.
      destruct (decide (name ∈ seg_path <$> segments d)) as [(t & -> & Ht)%list_elem_of_fmap|Hno].
      * by apply elem_of_segments.
      * rewrite Hother in Hd by done. eauto.
Qed.

(** Two sorted lists with the same non-empty segments are the same up to
    their empty ones. *)
Definition es_at (segs : list (segment * list Entry)) (s : segment) : list Entry :=
  concat (bfilter (λ p, bool_decide (p.1 = s)) segs).*2.

Lemma es_at_absent segs s : s ∉ segs.*1 → es_at segs s = [].
Proof.
  intros Hs. unfold es_at. rewrite bfilter_none; [done|]. intros [t es] Hin. cbn [fst].
  apply bool_decide_false. intros ->. apply Hs. by apply (list_elem_of_fmap_2 fst _ (s, es)).
Qed.

Lemma es_at_present segs s es : NoDup segs.*1 → (s, es) ∈ segs → es_at segs s = es.
Proof.
  induction segs as [|[t es'] segs IH]; [set_solver|]. rewrite fmap_cons. cbn [fst].
  inversion 1 as [|? ? Ht Hnd]; subst. intros [[= <- <-]|Hin]%elem_of_cons; unfold es_at; cbn [bfilter fst].
  - rewrite bool_decide_true by done. rewrite fmap_cons. cbn [concat snd]. fold (es_at segs s).
    by rewrite es_at_absent, app_nil_r.
  - rewrite bool_decide_false; [by apply IH|]. intros ->. apply Ht.
    by apply (list_elem_of_fmap_2 fst _ (s, es)).
Qed.

Lemma sorted_NoDup (l : list segment) : StronglySorted seg_lt l → NoDup l.
Proof.
  induction 1 as [|s l Hl IH Hx]; constructor; [|done]. intros Hin. rewrite Forall_forall in Hx.
  specialize (Hx _ Hin). unfold seg_lt in Hx. lia.
Qed.

Lemma sorted_nonempty (l1 l2 : list (segment * list Entry)) :
  StronglySorted seg_lt l1.*1 → StronglySorted seg_lt l2.*1 →
  (∀ p, nonempty p = true → p ∈ l1 ↔ p ∈ l2) → bfilter nonempty l1 = bfilter nonempty l2.
Proof.
  intros H1 H2 Hel.
  assert (∀ l, StronglySorted seg_lt l.*1 →
    StronglySorted (λ p q : segment * list Entry, seg_lt p.1 q.1) (bfilter nonempty l)) as Hst.
  { intros l Hl%nonempty_sorted. induction (bfilter nonempty l) as [|p l' IH]; [constructor|].
    rewrite fmap_cons in Hl. inversion Hl as [|? ? Hl' Hx]; subst. constructor; [by apply IH|].
    rewrite Forall_forall in Hx. rewrite Forall_forall. intros q Hq. by apply Hx, list_elem_of_fmap_2. }
  eapply StronglySorted_unique_strong; [|by apply Hst|by apply Hst|].
  { intros p q _ _ Hp Hq. unfold seg_lt in *. lia. }
  apply NoDup_Permutation;
    [by eapply NoDup_fmap_1, sorted_NoDup, nonempty_sorted|by eapply NoDup_fmap_1, sorted_NoDup, nonempty_sorted|].
  intros p. rewrite !elem_of_bfilter. naive_solver.
Qed.

Lemma concat_nonempty (l : list (segment * list Entry)) : concat (bfilter nonempty l).*2 = concat l.*2.
Proof. induction l as [|[s [|e es]] l IH]; cbn; [done|done|]. by f_equal; f_equal. Qed.

(** ** Crashes *)

(** A file's directory entry is durable from [startSegment] on.  A removal is
    not: files of [gone] may come back. *)
Definition dir_crash (gone d d' : dir) : Prop :=
  ∀ name, match d !! name with
          | Some f => ∃ f', d' !! name = Some f' ∧ cut f f'
          | None => d' !! name = None ∨ d' !! name = gone !! name
          end.

Lemma cut_clean f f' es : log_holds f es → cut f f' → f' = f.
Proof.
  intros (bs & _ & ->) (n & Hn & ->). simpl in *. by rewrite take_ge.
Qed.

Lemma cut_batch f es us ubs io f' :
  log_holds f es → Forall2 encodes us ubs → cut (WriteBatch io f ubs).1 f' →
  ∃ k, replays f' (es ++ take k us) ∧ ((WriteBatch io f ubs).2 = None → take k us = us).
Proof.
  intros Hf Hus (n & Hn & ->).
  destruct (WriteBatch_prefix f es ubs io n Hf Hn) as (bs & m & Hes & -> & Hm).
  destruct (Replay_prefix es bs us ubs m Hes Hus) as (k & Hk & Hrep).
  exists k. split; [exact Hrep|]. intros Hnone. apply Hk, Hm, Hnone.
Qed.

(** ** What each operation does to the sequence of segments *)

Definition cur_seg (l : Log) : segment := mkSeg (seq l) (current l).

Lemma lv_current d l segs cur :
  log_view d l segs cur → ∃ f, d !! current l = Some f ∧ log_holds f cur.
Proof.
  intros Hv. destruct (lv_files _ _ _ _ Hv (cur_seg l) cur) as [_ Hf]; [|done].
  apply elem_of_app. right. by left.
Qed.

Lemma current_not_sealed d l segs cur s es :
  log_view d l segs cur → (s, es) ∈ segs → seg_path s ≠ current l.
Proof.
  intros Hv Hs E. pose proof (lv_sorted _ _ _ _ Hv) as Hsort.
  destruct (lv_files _ _ _ _ Hv s es) as [H1 _]; [set_solver|].
  rewrite E, (lv_path _ _ _ _ Hv), seg_of_segmentPath in H1 by apply (lv_seq _ _ _ _ Hv).
  injection H1 as <-.
  assert (seg_lt (mkSeg (seq l) (segmentPath (seq l))) (cur_seg l)) as Hlt.
  { apply (StronglySorted_app_1_elem_of seg_lt segs.*1 [cur_seg l]); [done| |by left].
    by apply (list_elem_of_fmap_2 fst _ (mkSeg (seq l) (segmentPath (seq l)), es)). }
  unfold seg_lt in Hlt. simpl in Hlt. lia.
Qed.

(** Replacing the current file by a longer clean log. *)
Lemma log_view_current d l segs cur f cur' :
  log_view d l segs cur → log_holds f cur' → log_view (<[current l := f]> d) l segs cur'.
Proof.
  intros Hv Hf. pose proof (λ s es, current_not_sealed d l segs cur s es Hv) as Hcs.
  destruct (lv_current _ _ _ _ Hv) as (f0 & Hd0 & _). destruct Hv as [H1 H2 H3 H4 H5 H6 H7].
  split; try done.
  - intros s es [Hs| [= -> ->]%list_elem_of_singleton]%elem_of_app.
    + rewrite lookup_insert_ne by (symmetry; eauto). apply H5. set_solver.
    + destruct (H5 (mkSeg (seq l) (current l)) cur) as [Hof _]; [set_solver|].
      split; [done|]. exists f. cbn [seg_path]. by rewrite lookup_insert_eq.
  - intros name g s. rewrite lookup_insert. case_decide as Hn; [|apply H6].
    intros _ Hs. left. subst name. rewrite H1, seg_of_segmentPath in Hs by apply H2.
    injection Hs as <-. apply elem_of_app. right. rewrite H1. by left.
  - intros name. rewrite lookup_insert. case_decide as Hn; [|apply H7].
    intros _. subst name. apply H7. eauto.
Qed.

Lemma log_WriteBatch_ok io d l segs cur us ubs :
  log_view d l segs cur → Forall2 encodes us ubs → (log_WriteBatch io d l ubs).2 = None →
  log_view (log_WriteBatch io d l ubs).1 l segs (cur ++ us).
Proof.
  intros Hv Hus Hok. destruct (lv_current _ _ _ _ Hv) as (f & Hd & Hf).
  unfold log_WriteBatch, on_current in *. rewrite Hd in *. cbn [default from_option id] in *.
  destruct (WriteBatch (l_write io) f ubs) as [f' err] eqn:E. cbn [fst snd] in *.
  destruct err; [done|]. apply (log_view_current _ _ _ cur); [done|].
  destruct Hf as (bs & Hes & ->). exists (bs ++ ubs). split; [by apply Forall2_app|].
  rewrite concat_app. apply (f_equal fst) in E as E1. apply (f_equal snd) in E as E2. cbn [fst snd] in *.
  destruct ubs as [|b [|b' ubs]]; unfold WriteBatch, writeAndSync in *; simpl in *;
    [by rewrite <-E1, !app_nil_r| |];
    destruct (io_write (l_write io)), (io_sync (l_write io)); simplify_eq/=; by rewrite ?app_nil_r.
Qed.

(** Numbers beyond the current one are not in use. *)
Lemma beyond_unused d l segs cur n s es :
  log_view d l segs cur → (seq l < n < two64)%N → (s, es) ∈ segs ++ [(cur_seg l, cur)] →
  seg_path s ≠ segmentPath n.
Proof.
  intros Hv Hn Hin E. destruct (lv_files _ _ _ _ Hv s es Hin) as [Hs _].
  rewrite E, seg_of_segmentPath in Hs by lia. injection Hs as <-.
  apply elem_of_app in Hin as [Hin|E2%list_elem_of_singleton]; [|injection E2; lia].
  assert (seg_lt (mkSeg n (segmentPath n)) (cur_seg l)) as Hlt; [|unfold seg_lt in Hlt; simpl in Hlt; lia].
  apply (StronglySorted_app_1_elem_of seg_lt segs.*1 [cur_seg l]); [apply Hv| |by left].
  by apply (list_elem_of_fmap_2 fst _ (mkSeg n (segmentPath n), es)).
Qed.

(** Adding an empty segment file numbered beyond the current one. *)
Lemma log_view_extra d l segs cur n f :
  log_view d l segs cur → n = (seq l + 1)%N → (n < two64)%N → log_holds f [] →
  log_view (<[segmentPath n := f]> d) l segs cur.
Proof.
  intros Hv En Hn Hf. pose proof (λ s es, beyond_unused d l segs cur n s es Hv ltac:(lia)) as Hne.
  destruct Hv as [H1 H2 H3 H4 H5 H6 H7]. split; try done.
  - intros s es Hin. rewrite lookup_insert_ne; [by apply H5|]. intros E. by apply (Hne s es).
  - intros name g s. rewrite lookup_insert. case_decide as Hd; [|apply H6].
    intros [= <-] Hs. right. subst name. rewrite seg_of_segmentPath in Hs by lia.
    injection Hs as <-. simpl. split; [done|lia].
  - intros name. rewrite lookup_insert. case_decide as Hd; [|apply H7].
    intros _. subst name. apply name_ok_path. lia.
Qed.

(** Deleting a file that is not in use. *)
Lemma log_view_delete d l segs cur name :
  log_view d l segs cur → (∀ s es, (s, es) ∈ segs ++ [(cur_seg l, cur)] → seg_path s ≠ name) →
  log_view (delete name d) l segs cur.
Proof.
  intros [H1 H2 H3 H4 H5 H6 H7] Hne. split; try done.
  - intros s es Hin. rewrite lookup_delete_ne; [by apply H5|]. intros E. by apply (Hne s es).
  - intros name' g s [_ Hd]%lookup_delete_Some. by apply H6.
  - intros name' [f [_ Hd]%lookup_delete_Some]. apply H7. eauto.
Qed.

Lemma log_view_empty_next d l segs cur :
  log_view d l segs cur → (seq l + 1 < two64)%N →
  log_holds (default (mkFile [] []) (d !! segmentPath (seq l + 1))) [].
Proof.
  intros Hv Hn. destruct (d !! _) as [f|] eqn:E; [|apply log_holds_nil].
  destruct (lv_rest _ _ _ _ Hv _ _ _ E (seg_of_segmentPath _ Hn)) as [Hin|[Hf _]]; [|done]. exfalso.
  assert ((segs ++ [(cur_seg l, cur)]).*1 = segs.*1 ++ [cur_seg l]) as E' by by rewrite fmap_app.
  unfold cur_seg in E'. rewrite <-E' in Hin. apply list_elem_of_fmap in Hin as ([s es] & Es & Hin).
  eapply (beyond_unused d l segs cur (seq l + 1) s es Hv); [lia|done|]. cbn [fst] in Es. by rewrite <-Es.
Qed.

(** The log after a new segment is started. *)
Lemma log_view_rotated d l segs cur :
  log_view d l segs cur → (seq l + 1 < two64)%N →
  log_holds (default (mkFile [] []) (d !! segmentPath (seq l + 1))) [] →
  log_view (<[segmentPath (seq l + 1) := default (mkFile [] []) (d !! segmentPath (seq l + 1))]> d)
    (mkLog (segmentPath (seq l + 1)) (seq l + 1) (sealed l ++ [mkSeg (seq l) (segmentPath (seq l))]))
    (segs ++ [(cur_seg l, cur)]) [].
Proof.
  intros Hv Hn Hf0. set (f0 := default _ _) in *.
  pose proof (log_view_extra d l segs cur (seq l + 1) f0 Hv eq_refl Hn Hf0) as Hx.
  destruct Hx as [H1 H2 H3 H4 H5 H6 H7].
  assert ((segs ++ [(cur_seg l, cur)]).*1 = segs.*1 ++ [cur_seg l]) as E by by rewrite fmap_app.
  split; cbn [current seq sealed]; rewrite ?E; try done; try lia.
  - unfold cur_seg. by rewrite H3, H1.
  - apply StronglySorted_app_2; [|done|by repeat constructor].
    intros s t Hs ->%list_elem_of_singleton. unfold seg_lt. simpl.
    apply elem_of_app in Hs as [Hs| ->%list_elem_of_singleton]; [|simpl; lia].
    assert (seg_lt s (cur_seg l)) as Hlt
      by (by apply (StronglySorted_app_1_elem_of seg_lt segs.*1 [cur_seg l]); [| |left]).
    unfold seg_lt in Hlt. simpl in Hlt. lia.
  - intros s es [Hs| [= -> ->]%list_elem_of_singleton]%elem_of_app; [by apply H5|].
    cbn [seg_path]. split; [by apply seg_of_segmentPath|]. exists f0. by rewrite lookup_insert_eq.
  - intros name f s Hd Hs. destruct (H6 name f s Hd Hs) as [Hin|[? ?]]; [|right; split; [done|lia]]. left.
    apply elem_of_app. by left.
Qed.

(** [Rotate]: on any outcome the log stays whole; when it returns a number,
    that is the sealed segment, which now holds all that was written. *)
Lemma Rotate_view io d l segs cur :
  log_view d l segs cur → (seq l + 1 < two64)%N →
  match Rotate io d l with
  | (d', l', (n, err)) =>
      (l' = l ∧ is_Some err ∧ log_view d' l segs cur) ∨
      (n = seq l ∧ seq l' = (seq l + 1)%N ∧ log_view d' l' (segs ++ [(cur_seg l, cur)]) [] ∧
       (err = None ↔ l_close io (current l) = true))
  end.
Proof.
  intros Hv Hn. unfold Rotate, startSegment, open. rewrite u64_small by done.
  pose proof (log_view_empty_next _ _ _ _ Hv Hn) as Hf0.
  pose proof (log_view_rotated _ _ _ _ Hv Hn Hf0) as Hr.
  assert (log_view (<[segmentPath (seq l + 1) := default (mkFile [] []) (d !! segmentPath (seq l + 1))]> d)
    l segs cur) as Hx by (by apply log_view_extra).
  set (path := segmentPath (seq l + 1)) in *. set (f0 := default _ _) in *.
  destruct (l_open io path); simpl negb; cbv iota; [|left; eauto].
  destruct (l_seek io path); simpl negb; cbv iota; [|left; eauto].
  destruct (l_syncdir io); simpl negb; cbv iota.
  - destruct (l_close io (current l)); right; split_and!; done.
  - left. split_and!; [done|eauto|]. destruct (l_remove io path); [|done].
    apply log_view_delete; [done|]. intros s es Hin. apply (beyond_unused _ _ _ _ _ _ es Hv); [lia|done].
Qed.

(** Deleting the oldest sealed segment. *)
Lemma log_view_drop_first d l s es segs cur :
  log_view d l ((s, es) :: segs) cur →
  log_view (delete (seg_path s) d) (mkLog (current l) (seq l) segs.*1) segs cur.
Proof.
  intros Hv. pose proof (lv_sorted _ _ _ _ Hv) as Hs. rewrite fmap_cons in Hs.
  inversion Hs as [|? ? Hs' Hx]; subst. rewrite Forall_forall in Hx. cbn [fst] in *.
  assert (∀ t es', (t, es') ∈ segs ++ [(cur_seg l, cur)] → seg_path s ≠ seg_path t) as Hne.
  { intros t es' Ht E. destruct (lv_files _ _ _ _ Hv s es) as [Hs1 _]; [set_solver|].
    destruct (lv_files _ _ _ _ Hv t es') as [Ht1 _]; [set_solver|].
    rewrite E, Ht1 in Hs1. injection Hs1 as ->. assert (seg_lt s s) as Hlt.
    { apply Hx. change [mkSeg (seq l) (current l)] with [(cur_seg l, cur)].*1. rewrite <-fmap_app.
      by apply (list_elem_of_fmap_2 fst _ (s, es')). }
    unfold seg_lt in Hlt. lia. }
  destruct Hv as [H1 H2 H3 H4 H5 H6 H7]. split; cbn [current seq sealed]; try done.
  - intros t es' Ht. rewrite lookup_delete_ne by (by eapply Hne). apply H5. set_solver.
  - intros name f t [Hn Hd]%lookup_delete_Some Ht. destruct (H6 name f t Hd Ht) as [Hin|?]; [|by right].
    rewrite fmap_cons in Hin. cbn [fst app] in Hin. apply elem_of_cons in Hin as [->|?]; [|by left].
    by apply seg_of_path in Ht.
  - intros name [f [_ Hd]%lookup_delete_Some]. apply H7. eauto.
Qed.

(** [DeleteThrough]: on any outcome it drops a prefix of the sealed segments,
    all numbered at most [n]; when it returns nil, all of those. *)
Lemma DeleteThrough_view io d l segs cur n :
  log_view d l segs cur →
  match DeleteThrough io d l n with
  | (d', l', err) => ∃ k,
      log_view d' l' (drop k segs) cur ∧ seq l' = seq l ∧
      (∀ s es, (s, es) ∈ take k segs → (seg_seq s ≤ n)%N) ∧
      (err = None → ∀ s es, (s, es) ∈ drop k segs → (n < seg_seq s)%N)
  end.
Proof.
  unfold DeleteThrough. revert d l. induction segs as [|[s es] segs IH]; intros d l Hv.
  { rewrite (lv_sealed _ _ _ _ Hv). simpl. exists 0. simpl.
    pose proof (lv_sealed _ _ _ _ Hv) as E. simpl in E. rewrite <-E. destruct l.
    split_and!; try done; set_solver. }
  pose proof (log_view_drop_first _ _ _ _ _ _ Hv) as Hdrop.
  pose proof (lv_sorted _ _ _ _ Hv) as Hsort. rewrite fmap_cons in Hsort.
  inversion Hsort as [|? ? _ Hx]; subst. rewrite Forall_forall in Hx. cbn [fst] in *.
  destruct (lv_files _ _ _ _ Hv s es) as (_ & f & Hd & _); [set_solver|].
  assert (∀ P : Prop, (P → ∀ s0 es0, (s0, es0) ∈ (s, es) :: segs → (n < seg_seq s0)%N) → ∃ k,
    log_view d (mkLog (current l) (seq l) (s :: segs.*1)) (drop k ((s, es) :: segs)) cur ∧
    seq l = seq l ∧ (∀ s0 es0, (s0, es0) ∈ take k ((s, es) :: segs) → (seg_seq s0 ≤ n)%N) ∧
    (P → ∀ s0 es0, (s0, es0) ∈ drop k ((s, es) :: segs) → (n < seg_seq s0)%N)) as Hstop.
  { intros P HP. exists 0. rewrite take_0, drop_0. pose proof (lv_sealed _ _ _ _ Hv) as E.
    rewrite fmap_cons in E. cbn [fst] in E. rewrite <-E. destruct l. split_and!; try done; set_solver. }
  rewrite (lv_sealed _ _ _ _ Hv), fmap_cons. cbn [fst delete_loop].
  destruct (N.ltb_spec n (seg_seq s)) as [Hn|Hn].
  - apply Hstop. intros _ s0 es0 [[= -> ->]|Hin]%elem_of_cons; [done|].
    assert (seg_lt s s0) as Hlt; [|unfold seg_lt in Hlt; lia]. apply Hx, elem_of_app. left.
    by apply (list_elem_of_fmap_2 fst _ (s0, es0)).
  - rewrite Hd. destruct (l_remove io (seg_path s)); [|by apply Hstop].
    specialize (IH _ _ Hdrop). cbn [sealed current seq] in IH.
    destruct (delete_loop io n (delete (seg_path s) d) segs.*1) as [[d' rest] err].
    destruct IH as (k & H1 & H2 & H3 & H4). exists (S k). cbn [take drop]. split_and!; try done.
    intros s0 es0 [[= -> ->]|Hin]%elem_of_cons; [done|by eapply H3].
Qed.

(** The files a deletion removes, and those it does not see. *)
Lemma delete_loop_files io n d sl d' rest err :
  delete_loop io n d sl = (d', rest, err) →
  ∃ k, rest = drop k sl ∧
    (∀ name, d' !! name = if decide (name ∈ seg_path <$> take k sl) then None else d !! name) ∧
    (∀ c f, c ∉ seg_path <$> sl → delete_loop io n (<[c := f]> d) sl = (<[c := f]> d', rest, err)).
Proof.
  revert d. induction sl as [|s sl IH]; intros d; cbn [delete_loop].
  { intros [= <- <- <-]. by exists 0. }
  assert (∀ e, delete_loop io n d (s :: sl) = (d, s :: sl, e) → (d, s :: sl, e) = (d', rest, err) →
    (∀ c f, c ∉ seg_path <$> s :: sl → delete_loop io n (<[c := f]> d) (s :: sl) = (<[c := f]> d, s :: sl, e)) →
    ∃ k, rest = drop k (s :: sl) ∧
      (∀ name, d' !! name = if decide (name ∈ seg_path <$> take k (s :: sl)) then None else d !! name) ∧
      (∀ c f, c ∉ seg_path <$> s :: sl → delete_loop io n (<[c := f]> d) (s :: sl) = (<[c := f]> d', rest, err)))
    as Hstop.
  { intros e _ [= <- <- <-] Hc. exists 0. split_and!; [done| |done]. intros name.
    rewrite take_0, decide_False; [done|]. cbn. set_solver. }
  cbn [delete_loop] in Hstop. destruct (n <? seg_seq s)%N; [intros E; by eapply Hstop|].
  assert (∀ (c : string) (f : file), c ∉ seg_path <$> s :: sl → c ≠ seg_path s ∧ c ∉ seg_path <$> sl) as Hsplit
    by (intros c f; rewrite fmap_cons; set_solver).
  destruct (d !! seg_path s) as [f0|] eqn:Ed.
  - destruct (l_remove io (seg_path s)).
    + intros (k & -> & H1 & H2)%IH. exists (S k). cbn [drop take]. split_and!; [done| |].
      * intros name. rewrite fmap_cons, H1. destruct (decide (name = seg_path s)) as [->|Hne].
        -- rewrite lookup_delete_eq, (decide_True (P := _ ∈ _ :: _)) by set_solver. by destruct (decide _).
        -- rewrite lookup_delete_ne by done. repeat case_decide; set_solver.
      * intros c f [Hne Hc]%Hsplit; [|done]. rewrite lookup_insert_ne, Ed by done.
        rewrite delete_insert_ne by done. by apply H2.
    + intros E. eapply Hstop; [done|done|]. intros c f [Hne Hc]%Hsplit; [|done].
      by rewrite lookup_insert_ne, Ed by done.
  - intros (k & -> & H1 & H2)%IH. exists (S k). cbn [drop take]. split_and!; [done| |].
    + intros name. rewrite fmap_cons, H1. destruct (decide (name = seg_path s)) as [->|Hne].
      * rewrite (decide_True (P := _ ∈ _ :: _)) by set_solver. by destruct (decide _).
      * repeat case_decide; set_solver.
    + intros c f [Hne Hc]%Hsplit; [|done]. rewrite lookup_insert_ne, Ed by done. by apply H2.
Qed.

(** ** Reopening after a crash *)

(** Removed segments, with the entries they held. *)
Definition gone_view (gone : dir) (l : Log) (gsegs : list (segment * list Entry)) : Prop :=
  ∀ name f, gone !! name = Some f → ∃ s,
    seg_of name = Some s ∧ log_holds f (es_at gsegs s) ∧ (seg_seq s < seq l)%N ∧ name_ok name.

(** The entries each segment of the crashed directory replays to. *)
Definition es_after (d : dir) (segs gsegs : list (segment * list Entry)) (s : segment) : list Entry :=
  if decide (s ∈ segs.*1) then es_at segs s
  else match d !! seg_path s with Some _ => [] | None => es_at gsegs s end.

Lemma lv_NoDup d l segs cur cur' :
  log_view d l segs cur → NoDup (segs ++ [(cur_seg l, cur')]).*1.
Proof. intros Hv. rewrite fmap_app. apply sorted_NoDup, (lv_sorted _ _ _ _ Hv). Qed.

Lemma current_path_fresh d l segs cur : log_view d l segs cur → current l ∉ seg_path <$> segs.*1.
Proof.
  intros Hv (s & E & ([s' es] & -> & Hin)%list_elem_of_fmap)%list_elem_of_fmap.
  by apply (current_not_sealed _ _ _ _ s' es Hv).
Qed.

(** A deletion in a directory whose current file an unfinished batch has
    touched. *)
Lemma DeleteThrough_after io n d0 l segs cur iow ubs :
  log_view d0 l segs cur →
  ∃ k d0' l' err,
    DeleteThrough io (log_WriteBatch iow d0 l ubs).1 l n = ((log_WriteBatch iow d0' l' ubs).1, l', err) ∧
    log_view d0' l' (drop k segs) cur ∧ seq l' = seq l ∧ current l' = current l ∧
    (∀ s es, (s, es) ∈ take k segs → (seg_seq s ≤ n)%N) ∧
    (∀ name, d0' !! name = if decide (name ∈ seg_path <$> (take k segs).*1) then None else d0 !! name).
Proof.
  intros Hv. pose proof (DeleteThrough_view io d0 l segs cur n Hv) as Hdt.
  pose proof (current_path_fresh _ _ _ _ Hv) as Hcur. unfold DeleteThrough in *.
  destruct (delete_loop io n d0 (sealed l)) as [[d0' rest] err] eqn:E.
  destruct Hdt as (k & Hv' & _ & Hle & _). rewrite (lv_sealed _ _ _ _ Hv) in E.
  destruct (delete_loop_files _ _ _ _ _ _ _ E) as (k' & Er & Hfiles & Hcomm).
  pose proof (lv_sealed _ _ _ _ Hv') as Er'. cbn [sealed] in Er'.
  assert (take k' segs.*1 = (take k segs).*1) as Htake.
  { apply (app_inv_tail (drop k' segs.*1)). rewrite take_drop, <-Er, Er', <-fmap_app. by rewrite take_drop. }
  rewrite Htake in Hfiles.
  assert (d0' !! current l = d0 !! current l) as Ec.
  { rewrite Hfiles, decide_False; [done|]. intros (s & Es & Hs)%list_elem_of_fmap. apply Hcur. rewrite Es.
    apply list_elem_of_fmap_2. rewrite <-(take_drop k segs), fmap_app. set_solver. }
  eexists k, d0', (mkLog (current l) (seq l) rest), err. split_and!; try done.
  unfold log_WriteBatch, on_current. cbn [current]. rewrite Ec, (lv_sealed _ _ _ _ Hv).
  destruct (WriteBatch _ _ _) as [f e]. cbn [fst]. by rewrite Hcomm.
Qed.

Lemma dir_crash_back gone d d' path f1 name f' :
  dir_crash gone (<[path := f1]> d) d' → d' !! name = Some f' → name ≠ path →
  (∃ f, d !! name = Some f ∧ cut f f') ∨ (d !! name = None ∧ gone !! name = Some f').
Proof.
  intros Hc Hd' Hn. specialize (Hc name). rewrite lookup_insert_ne in Hc by done.
  destruct (d !! name) as [f0|]; [|right; split; [done|destruct Hc; congruence]].
  left. destruct Hc as (f'' & ? & ?). exists f0. split; [done|]. congruence.
Qed.

(** A segment file other than the current one after the crash. *)
Lemma crash_old_file d l segs cur cur' gsegs s f f' :
  log_view d l segs cur → d !! seg_path s = Some f → cut f f' → seg_of (seg_path s) = Some s →
  seg_path s ≠ current l →
  (seg_seq s ≤ seq l + 1)%N ∧ replays f' (es_after d (segs ++ [(cur_seg l, cur')]) gsegs s).
Proof.
  intros Hv Hd Hcut Hs Hn. unfold es_after. rewrite fmap_app. cbn [fmap list_fmap fst].
  assert (s ≠ cur_seg l) as Hne by (by intros ->).
  destruct (decide _) as [Hin|Hno].
  - apply elem_of_app in Hin as [Hin|Hin]; [|set_solver].
    assert (seg_lt s (cur_seg l)) as Hlt
      by (by apply (StronglySorted_app_1_elem_of seg_lt segs.*1 [cur_seg l]); [apply Hv| |left]).
    split; [unfold seg_lt in Hlt; simpl in Hlt; lia|].
    apply list_elem_of_fmap in Hin as ([s' es] & -> & Hin). cbn [fst] in *.
    rewrite (es_at_present _ _ es (lv_NoDup _ _ _ _ cur' Hv)) by set_solver.
    destruct (lv_files _ _ _ _ Hv s' es) as (_ & f3 & Hf3 & Hl3); [set_solver|].
    rewrite Hd in Hf3. injection Hf3 as <-. rewrite (cut_clean _ _ _ Hl3 Hcut).
    by apply log_holds_replays.
  - rewrite Hd. destruct (lv_rest _ _ _ _ Hv _ _ _ Hd Hs) as [Hin|[Hl3 Hle]]; [done|].
    split; [done|]. rewrite (cut_clean _ _ _ Hl3 Hcut). by apply log_holds_replays.
Qed.

Lemma crash_files d l segs cur gone gsegs us ubs io d' :
  log_view d l segs cur → gone_view gone l gsegs → Forall2 encodes us ubs →
  (seq l + 2 < two64)%N → dir_crash gone (log_WriteBatch io d l ubs).1 d' →
  ∃ k, ((log_WriteBatch io d l ubs).2 = None → take k us = us) ∧ names_ok d' ∧
    ∀ s, s ∈ segments d' → (seg_seq s + 1 < two64)%N ∧ ∃ f, d' !! seg_path s = Some f ∧
      replays f (es_after d (segs ++ [(cur_seg l, cur ++ take k us)]) gsegs s).
Proof.
  intros Hv Hg Hus Hseq Hc. destruct (lv_current _ _ _ _ Hv) as (f & Hd & Hf).
  unfold log_WriteBatch, on_current in *. rewrite Hd in *. cbn [default from_option id] in *.
  pose proof (Hc (current l)) as Hcur.
  destruct (WriteBatch (l_write io) f ubs) as [f1 err] eqn:E. cbn [fst snd] in *.
  rewrite lookup_insert_eq in Hcur. destruct Hcur as (f2 & Hf2 & Hcut).
  destruct (cut_batch f cur us ubs (l_write io) f2) as (k & Hrep & Hk); [done|done|by rewrite E|].
  rewrite E in Hk. cbn [snd] in Hk. exists k. split; [destruct err; naive_solver|].
  pose proof (λ name f', dir_crash_back gone d d' _ f1 name f' Hc) as Hback.
  pose proof (lv_names _ _ _ _ Hv) as Hnames. split.
  - intros name [f' Hd']. destruct (decide (name = current l)) as [->|Hn]; [by apply Hnames|].
    destruct (Hback name f' Hd' Hn) as [(f0 & ? & _)|[_ Hgo]]; [by apply Hnames; eauto|].
    by destruct (Hg _ _ Hgo) as (? & _ & _ & _ & ?).
  - intros s [[f' Hd'] Hs]%elem_of_segments.
    destruct (decide (seg_path s = current l)) as [Ep|Hn].
    { rewrite Ep in *. rewrite (lv_path _ _ _ _ Hv), seg_of_segmentPath in Hs by apply Hv.
      injection Hs as <-. cbn [seg_seq]. split; [lia|]. exists f2. split; [done|].
      rewrite <-(lv_path _ _ _ _ Hv). unfold es_after. fold (cur_seg l).
      assert ((cur_seg l, cur ++ take k us) ∈ segs ++ [(cur_seg l, cur ++ take k us)]) as Hin by set_solver.
      rewrite decide_True by (by apply (list_elem_of_fmap_2 fst _ _ Hin)).
      by rewrite (es_at_present _ _ _ (lv_NoDup _ _ _ _ _ Hv) Hin). }
    destruct (Hback _ f' Hd' Hn) as [(f0 & Hd0 & Hcut0)|[Hnone Hgo]].
    + destruct (crash_old_file d l segs cur (cur ++ take k us) gsegs s f0 f' Hv Hd0 Hcut0 Hs Hn).
      split; [lia|]. by exists f'.
    + destruct (Hg _ _ Hgo) as (s' & Hs' & Hlog & Hlt & _). rewrite Hs in Hs'. injection Hs' as <-.
      split; [lia|]. exists f'. split; [done|]. unfold es_after. rewrite decide_False.
      { rewrite Hnone. by apply log_holds_replays. }
      intros ([s' es] & -> & Hin)%list_elem_of_fmap. cbn [fst] in *.
      apply elem_of_app in Hin as [Hin|E2%list_elem_of_singleton]; [|injection E2 as -> _; done].
      destruct (lv_files _ _ _ _ Hv s' es) as (_ & f3 & Hf3 & _); [set_solver|]. congruence.
Qed.

(** What a reopened log holds: everything of the live segments, and otherwise
    only what removed segments held. *)
Lemma crash_reopen a d l segs cur gone gsegs us ubs io d' :
  log_view d l segs cur → gone_view gone l gsegs → Forall2 encodes us ubs →
  (seq l + 2 < two64)%N → dir_crash gone (log_WriteBatch io d l ubs).1 d' →
  ∃ k d'' l' entries segs', OpenLog lio_fine a d' = (d'', Ok (l', entries)) ∧
    ((log_WriteBatch io d l ubs).2 = None → take k us = us) ∧
    log_view d'' l' segs' [] ∧
    entry_contents <$> entries = entry_contents <$> concat segs'.*2 ∧
    (∀ p, p ∈ segs ++ [(cur_seg l, cur ++ take k us)] → nonempty p = true → p ∈ segs') ∧
    (∀ s es, (s, es) ∈ segs' → (s, es) ∈ segs ++ [(cur_seg l, cur ++ take k us)] ∨
       (s ∉ segs.*1 ∧ is_Some (gone !! seg_path s) ∧ es = es_at gsegs s)) ∧
    names_ok d' ∧
    (∀ name, is_Some (d' !! name) → d'' !! name = None → ∃ s, seg_of name = Some s ∧ (seg_seq s < seq l')%N).
Proof.
  intros Hv Hg Hus Hseq Hc.
  destruct (crash_files d l segs cur gone gsegs us ubs io d' Hv Hg Hus Hseq Hc) as (k & Hk & Hnames & Hfiles).
  set (full := segs ++ [(cur_seg l, cur ++ take k us)]) in *.
  destruct (OpenLog_spec a d' _ Hnames Hfiles) as (d'' & l' & entries & H1 & H2 & Hrm & H3).
  eexists k, d'', l', entries, _. split_and!; [exact H1|done|exact H3| | | |done|done].
  - by rewrite concat_nonempty, tagged_snd.
  - intros [s es] Hin Hne. apply elem_of_bfilter. split; [done|]. apply elem_of_tagged.
    pose proof (es_at_present full s es (lv_NoDup _ _ _ _ _ Hv) Hin) as Hes.
    split.
    + assert (seg_of (seg_path s) = Some s ∧ is_Some (d !! seg_path s)) as [Hs [f Hf]].
      { apply elem_of_app in Hin as [Hin|E2%list_elem_of_singleton].
        - destruct (lv_files _ _ _ _ Hv s es) as (? & ? & ? & _); [set_solver|]. eauto.
        - injection E2 as -> _. destruct (lv_files _ _ _ _ Hv (cur_seg l) cur) as (? & ? & ? & _); [set_solver|]. eauto. }
      apply elem_of_segments. split; [|done]. unfold log_WriteBatch, on_current in Hc.
      destruct (WriteBatch _ _ _) as [f1 err]. specialize (Hc (seg_path s)). cbn [fst] in Hc.
      rewrite lookup_insert in Hc. case_decide; [|rewrite Hf in Hc]; destruct Hc as (? & ? & _); eauto.
    + unfold es_after. rewrite decide_True; [done|]. by apply (list_elem_of_fmap_2 fst _ _ Hin).
  - intros s es [Hne [Hs ->]%elem_of_tagged]%elem_of_bfilter. unfold es_after in *.
    destruct (decide (s ∈ full.*1)) as [([s' es] & -> & Hin)%list_elem_of_fmap|Hno]; cbn [fst] in *.
    { left. by rewrite (es_at_present full s' es (lv_NoDup _ _ _ _ _ Hv) Hin). }
    destruct (d !! seg_path s) as [f|] eqn:E; [done|]. right.
    assert (seg_path s ≠ current l) as Hn.
    { intros Ep. destruct (lv_current _ _ _ _ Hv) as (? & ? & _). congruence. }
    apply elem_of_segments in Hs as [[f' Hd'] _]. unfold log_WriteBatch, on_current in Hc.
    destruct (WriteBatch _ _ _) as [f1 err].
    destruct (dir_crash_back _ _ _ _ _ _ _ Hc Hd' Hn) as [(? & ? & _)|[_ Hgo]]; [congruence|].
    split_and!; [|eauto|done]. intros Hin. apply Hno. unfold full. rewrite fmap_app. set_solver.
Qed.
End theory.

(** ** Results *)

Section results.
Context `{!JsonCodec value, !JsonCodec record, !JsonRoundTrip value value_ok, !RecordJson}.

(** A reopened log replays everything in order.  On a log with sealed
    segments [segs] and current entries [cur], write a batch [us] with any
    outcome and crash (every file keeps its fsynced part and any more of what
    was written): [OpenLog] returns the entries of all segments, oldest
    first, then [cur], then a leading part of [us], all of it if the write
    was acknowledged; what comes after goes to a fresh, empty segment. *)
Theorem log_reopen_in_order (a : N) (d d' : dir) (l : Log) (segs : list (segment * list Entry))
    (cur us : list Entry) (ubs : list bytes) (io : log_io) :
  log_view d l segs cur → Forall2 encodes us ubs → (seq l + 2 < two64)%N →
  dir_crash ∅ (log_WriteBatch io d l ubs).1 d' →
  ∃ k d'' l' entries segs', OpenLog lio_fine a d' = (d'', Ok (l', entries)) ∧
    entry_contents <$> entries = entry_contents <$> (concat segs.*2 ++ cur ++ take k us) ∧
    ((log_WriteBatch io d l ubs).2 = None → take k us = us) ∧
    log_view d'' l' segs' [].
Proof.
  intros Hv Hus Hseq Hc.
  destruct (crash_reopen a d l segs cur ∅ [] us ubs io d' Hv) as
    (k & d'' & l' & entries & segs' & H1 & H2 & H3 & H4 & H5 & H6); try done.
  exists k, d'', l', entries, segs'. split_and!; try done. rewrite H4. f_equal.
  rewrite <-(concat_nonempty segs').
  rewrite (sorted_nonempty segs' (segs ++ [(cur_seg l, cur ++ take k us)])).
  - rewrite concat_nonempty, fmap_app, concat_app. cbn. by rewrite app_nil_r.
  - pose proof (lv_sorted _ _ _ _ H3) as Hs. by apply StronglySorted_app_1_l in Hs.
  - rewrite fmap_app. apply Hv.
  - intros [s es] Hne. split; [|by intros ?; apply H5].
    intros Hin. apply H6 in Hin as [?|(_ & [f Hf] & _)]; [done|]. by rewrite lookup_empty in Hf.
Qed.

(** Rotating separates what was written before from what comes after.
    Once [Rotate] has returned [n], write any [us], then [DeleteThrough] [n]:
    if it returns nil, exactly the segments after [n] are left, i.e. exactly
    [us]; if it fails, some of the oldest segments are gone and every other
    entry is still there. *)
Theorem rotate_write_delete (d : dir) (l : Log) (segs : list (segment * list Entry))
    (cur us : list Entry) (ubs : list bytes) (io1 io2 io3 : log_io) (d1 : dir) (l1 : Log) (n : N) :
  log_view d l segs cur → (seq l + 1 < two64)%N → Rotate io1 d l = (d1, l1, (n, None)) →
  Forall2 encodes us ubs → (log_WriteBatch io2 d1 l1 ubs).2 = None →
  match DeleteThrough io3 (log_WriteBatch io2 d1 l1 ubs).1 l1 n with
  | (d3, l3, err) =>
      ∃ k, log_view d3 l3 (drop k (segs ++ [(cur_seg l, cur)])) us ∧
        (err = None → drop k (segs ++ [(cur_seg l, cur)]) = [])
  end.
Proof.
  intros Hv Hseq HR Hus HW. pose proof (Rotate_view io1 d l segs cur Hv Hseq) as Hrot.
  rewrite HR in Hrot. destruct Hrot as [(_ & [? ?] & _)|(-> & Hseq1 & Hv1 & _)]; [done|].
  pose proof (log_WriteBatch_ok io2 d1 l1 _ _ us ubs Hv1 Hus HW) as Hv2.
  pose proof (DeleteThrough_view io3 _ l1 _ _ (seq l) Hv2) as Hdel.
  destruct (DeleteThrough io3 _ l1 (seq l)) as [[d3 l3] err].
  destruct Hdel as (k & Hv3 & _ & _ & Hall). exists k. split; [done|]. intros Hnone.
  specialize (Hall Hnone). destruct (drop k _) as [|[s es] rest] eqn:E; [done|]. exfalso.
  assert ((s, es) ∈ segs ++ [(cur_seg l, cur)]) as Hin.
  { rewrite <-(take_drop k (segs ++ _)), E. set_solver. }
  specialize (Hall s es ltac:(by left)).
  apply elem_of_app in Hin as [Hin|E2%list_elem_of_singleton]; [|injection E2 as -> ->; simpl in Hall; lia].
  assert (seg_lt s (cur_seg l)) as Hlt; [|unfold seg_lt in Hlt; simpl in Hlt; lia].
  apply (StronglySorted_app_1_elem_of seg_lt segs.*1 [cur_seg l]); [apply Hv| |by left].
  by apply (list_elem_of_fmap_2 fst _ (s, es)).
Qed.

(** Segment names round-trip.  The name of segment [n] is recognised and
    parsed back to [n], for every 64-bit [n]; conversely a name the pattern
    accepts is the name of the number it is parsed to, so no two segments
    share a name and no other file is taken for one. *)
Theorem segment_names_roundtrip (n : N) (name : string) (digits : bytes) :
  (n < two64)%N →
  (dec_value <$> segmentName (segmentPath n)) = Some n ∧
  (segmentName name = Some digits → name = segmentPath (dec_value digits)).
Proof.
  intros Hn. split; [|apply segmentName_inv]. rewrite segmentName_path. simpl.
  by rewrite dec_value_path.
Qed.
End results.

(** ** Witnesses *)

Section witnesses.
#[local] Existing Instance toy_value_json.
#[local] Existing Instance toy_record_json.
#[local] Existing Instance toy_record_roundtrip.
#[local] Instance toy_values : JsonRoundTrip value value_ok :=
  countable_codec_roundtrip value value_ok.

#[local] Arguments wal_bytes : simpl never.

(** A log of one sealed segment and an empty current one. *)
Definition log2_dir : dir :=
  <[segmentPath 2 := mkFile [] []]> {[ segmentPath 1 := wal_file1 ]}.
Definition log2 : Log := mkLog (segmentPath 2) 2 [mkSeg 1 (segmentPath 1)].
Definition log2_segs : list (segment * list Entry) := [(mkSeg 1 (segmentPath 1), [wal_e1])].

Lemma path_ne m n : (m < two64)%N → (n < two64)%N → m ≠ n → segmentPath m ≠ segmentPath n.
Proof.
  intros Hm Hn Hne E. apply (f_equal seg_of) in E. rewrite !seg_of_segmentPath in E by done. congruence.
Qed.

Lemma log2_view : log_view log2_dir log2 log2_segs [].
Proof.
  assert (segmentPath 2 ≠ segmentPath 1) as H21 by (by apply path_ne).
  split; cbn [current seq sealed log2]; try done.
  - by repeat constructor.
  - unfold log2_segs, log2_dir. cbn [app]. intros s es Hin.
    apply elem_of_cons in Hin as [[= -> ->]|[= -> ->]%list_elem_of_singleton]; cbn [seg_path].
    + split; [by apply seg_of_segmentPath|]. exists wal_file1.
      rewrite lookup_insert_ne, lookup_singleton_eq by done. split; [done|apply wal_file1_holds].
    + split; [by apply seg_of_segmentPath|]. exists (mkFile [] []).
      rewrite lookup_insert_eq. split; [done|apply log_holds_nil].
  - unfold log2_dir. intros name f s. rewrite lookup_insert, lookup_singleton.
    case_decide as H1; [|case_decide as H2; [|done]]; intros _; subst name;
      rewrite seg_of_segmentPath by done; intros [= <-]; left; set_solver.
  - unfold log2_dir. intros name. rewrite lookup_insert, lookup_singleton.
    case_decide as H1; [|case_decide as H2; [|by intros [? ?]]]; intros _; subst name; by apply name_ok_path.
Qed.

Lemma log_reopen_in_order_witness :
  ∃ d'' l' entries, OpenLog lio_fine 10 (log_WriteBatch lio_fine log2_dir log2 [wal_bytes wal_e2]).1 =
      (d'', Ok (l', entries)) ∧
    entry_contents <$> entries = entry_contents <$> [wal_e1; wal_e2].
Proof.
  destruct (log_reopen_in_order 10 log2_dir (log_WriteBatch lio_fine log2_dir log2 [wal_bytes wal_e2]).1
    log2 log2_segs [] [wal_e2] [wal_bytes wal_e2] lio_fine log2_view
    (encodes_one _ _ wal_e2_encodes)) as (k & d'' & l' & entries & segs' & H1 & H2 & H3 & _).
  - reflexivity.
  - intros name. destruct (_ !! name) as [f|] eqn:E; [|by left]. exists f. split; [done|].
    destruct f as [dt dur]. assert (dt = dur) as ->; [|exists (length dur); by rewrite take_ge].
    revert E. unfold log_WriteBatch, on_current. cbn [WriteBatch writeAndSync lio_fine l_write io_fine io_write io_sync].
    unfold log2_dir at 1. rewrite lookup_insert_eq. cbn [default from_option id data app].
    cbn [fst]. rewrite lookup_insert. case_decide; [by intros [= <- <-]|].
    unfold log2_dir. rewrite lookup_insert, lookup_singleton.
    case_decide; [by intros [= <- <-]|]. case_decide; [|done]. unfold wal_file1. by intros [= <- <-].
  - exists d'', l', entries. split; [exact H1|]. rewrite H2, H3; [reflexivity|].
    unfold log_WriteBatch, on_current. cbn [current log2]. unfold log2_dir. rewrite lookup_insert_eq. reflexivity.
Defined.

Lemma rotate_write_delete_witness :
  ∃ d1 l1, Rotate lio_fine log2_dir log2 = (d1, l1, (2%N, None)) ∧
  match DeleteThrough lio_fine (log_WriteBatch lio_fine d1 l1 [wal_bytes wal_e2]).1 l1 2 with
  | (d3, l3, err) => ∃ k, log_view d3 l3 (drop k (log2_segs ++ [(cur_seg log2, [])])) [wal_e2]
  end.
Proof.
  eexists _, _. split; [reflexivity|].
  pose proof (rotate_write_delete log2_dir log2 log2_segs [] [wal_e2] [wal_bytes wal_e2]
    lio_fine lio_fine lio_fine _ _ 2 log2_view eq_refl eq_refl (encodes_one _ _ wal_e2_encodes)) as H.
  destruct (DeleteThrough _ _ _ _) as [[d3 l3] err]. destruct H as (k & Hk & _); [reflexivity|].
  by exists k.
Defined.

Lemma segment_names_roundtrip_witness :
  dec_value <$> segmentName (segmentPath 18446744073709551615) = Some 18446744073709551615%N.
Proof. apply (segment_names_roundtrip 18446744073709551615 "wal.log" []). reflexivity. Defined.
End witnesses.
