(* ===== verification/Manifest.v ===== *)
(** * The manifest (internal/storage/manifest/manifest.go)

    The append-only file of [ADD] and [REMOVE] lines that says which SSTables
    are live, at byte level, with replay's treatment of a torn last line.  The
    file shows that what the operations acknowledge is what a later [Open]
    reads back, that a crash in a write applies it wholly or not at all, and
    what happens to a record appended behind a torn line. *)

From stdpp Require Import gmap strings list.
From Stdlib Require Import ZArith Lia Ascii.
From S2P Require Import Prelude GoLib VectorClock Versioning Json Wal.

Local Notation newline := ("010"%char).

(** ** Strings *)

(** The ASCII white space of [strings.Fields]; the lines are ASCII. *)
Definition is_space (c : ascii) : bool :=
  let n := N_of_ascii c in ((9 <=? n)%N && (n <=? 13)%N) || (n =? 32)%N.

Fixpoint fields_loop (b cur : bytes) : list bytes :=
  match b with
  | [] => match cur with [] => [] | _ => [cur] end
  | c :: rest =>
      if is_space c then match cur with [] => fields_loop rest [] | _ => cur :: fields_loop rest [] end
      else fields_loop rest (cur ++ [c])
  end.
Definition Fields (b : bytes) : list bytes := fields_loop b [].

(** [strings.Split(b, "\n")]. *)
Fixpoint split_lines (b : bytes) : list bytes :=
  match b with
  | [] => [[]]
  | c :: rest =>
      if bool_decide (c = newline) then [] :: split_lines rest
      else match split_lines rest with
           | l :: ls => (c :: l) :: ls
           | [] => [[c]]
           end
  end.

(** [strings.LastIndexByte(b, '\n')]; [None] is -1. *)
Fixpoint last_newline (b : bytes) : option nat :=
  match b with
  | [] => None
  | c :: rest =>
      match last_newline rest with
      | Some i => Some (S i)
      | None => if bool_decide (c = newline) then Some 0 else None
      end
  end.

(** [strings.Join(ids, " ")]. *)
Fixpoint Join (ids : list bytes) : bytes :=
  match ids with
  | [] => []
  | [id] => id
  | id :: rest => id ++ " "%char :: Join rest
  end.

(** ** The manifest *)

Record Manifest := mkManifest { mfile : file; live : gset string }.

Inductive error :=
  | ManifestMkdir | ManifestOpen | ManifestSyncDir | ManifestSeek | ManifestRead
  | MalformedLine (line : bytes) | ManifestWrite | ManifestSync.

Record open_io := mkOIO {
  o_mkdir : bool; o_open : bool; o_syncdir : bool; o_seek : bool; o_read : bool; o_seekend : bool
}.
Definition oio_fine : open_io := mkOIO true true true true true true.

Definition applyLine (lv : gset string) (line : bytes) : option (gset string) :=
  match Fields line with
  | op :: ((id :: rest) as ids) =>
      if bool_decide (op = to_bytes "ADD") then
        match rest with
        | [] => Some ({[of_bytes id]} ∪ lv)
        | _ => None
        end
      else if bool_decide (op = to_bytes "REMOVE") then
        Some (fold_left (λ lv id, lv ∖ {[of_bytes id]}) ids lv)
      else None
  | _ => None
  end.

Fixpoint apply_lines (lv : gset string) (lines : list bytes) : res error (gset string) :=
  match lines with
  | [] => Ok lv
  | line :: rest =>
      match line with
      | [] => apply_lines lv rest
      | _ => match applyLine lv line with
             | None => Err (MalformedLine line)
             | Some lv' => apply_lines lv' rest
             end
      end
  end.

(** [replay] of the file's content. *)
Definition replay_content (content : bytes) : res error (gset string) :=
  match last_newline content with
  | None => Ok ∅
  | Some i => apply_lines ∅ (split_lines (take i content))
  end.

Definition replay (io : open_io) (f : file) : res error Manifest :=
  if negb (o_seek io) then Err ManifestSeek
  else if negb (o_read io) then Err ManifestRead
  else
    lv ←? replay_content (data f);
    if negb (o_seekend io) then Err ManifestSeek else Ok (mkManifest f lv).

(** [Open] on the MANIFEST file of the directory, [None] if there is none: the
    file as the call leaves it, and the result.  The file is opened with
    [O_APPEND] and never truncated. *)
Definition Open (io : open_io) (f : option file) : option file * res error Manifest :=
  if negb (o_mkdir io) then (f, Err ManifestMkdir)
  else if negb (o_open io) then (f, Err ManifestOpen)
  else
    let f' := default (mkFile [] []) f in
    if negb (o_syncdir io) then (Some f', Err ManifestSyncDir) else (Some f', replay io f').

Definition writeLine (io : write_io) (f : file) (line : bytes) : file * option error :=
  let b := line ++ [newline] in
  match io_write io with
  | Some n => (mkFile (data f ++ take n b) (durable f), Some ManifestWrite)
  | None =>
      if io_sync io then (mkFile (data f ++ b) (data f ++ b), None)
      else (mkFile (data f ++ b) (durable f), Some ManifestSync)
  end.

Definition add_line (id : string) : bytes := to_bytes "ADD " ++ to_bytes id.
Definition remove_line (ids : list string) : bytes := to_bytes "REMOVE " ++ Join (to_bytes <$> ids).

Definition Add (io : write_io) (m : Manifest) (sstableID : string) : Manifest * option error :=
  match writeLine io (mfile m) (add_line sstableID) with
  | (f, Some err) => (mkManifest f (live m), Some err)
  | (f, None) => (mkManifest f ({[sstableID]} ∪ live m), None)
  end.

Definition Remove (io : write_io) (m : Manifest) (sstableIDs : list string) : Manifest * option error :=
  match sstableIDs with
  | [] => (m, None)
  | _ =>
      match writeLine io (mfile m) (remove_line sstableIDs) with
      | (f, Some err) => (mkManifest f (live m), Some err)
      | (f, None) => (mkManifest f (fold_left (λ lv id, lv ∖ {[id]}) sstableIDs (live m)), None)
      end
  end.

(** In the order a range over the map happens to give; the caller sorts. *)
Definition LiveIDs (m : Manifest) : list string := elements (live m).

(** ** Lines *)

Definition no_newline (b : bytes) : Prop := newline ∉ b.

(** Complete lines, each with its newline. *)
Definition lines_of (ls : list bytes) : bytes := ls ≫= λ l, l ++ [newline].

Lemma no_newline_take j b : no_newline b → no_newline (take j b).
Proof. unfold no_newline. intros Hb Hin. apply Hb. rewrite <-(take_drop j b). set_solver. Qed.

Lemma no_newline_app a b : no_newline a → no_newline b → no_newline (a ++ b).
Proof. unfold no_newline. set_solver. Qed.

Lemma last_newline_none b : no_newline b → last_newline b = None.
Proof.
  unfold no_newline. induction b as [|c b IH]; intros Hb; simpl; [done|].
  rewrite IH by set_solver. rewrite bool_decide_false; [done|]. set_solver.
Qed.

Lemma last_newline_app a t : no_newline t → last_newline (a ++ newline :: t) = Some (length a).
Proof.
  intros Ht. induction a as [|c a IH]; simpl.
  - by rewrite last_newline_none.
  - by rewrite IH.
Qed.

Lemma split_lines_one l : no_newline l → split_lines l = [l].
Proof.
  unfold no_newline. induction l as [|c l IH]; intros Hl; simpl; [done|].
  rewrite bool_decide_false by set_solver. by rewrite IH by set_solver.
Qed.

Lemma split_lines_cons l b : no_newline l → split_lines (l ++ newline :: b) = l :: split_lines b.
Proof.
  unfold no_newline. induction l as [|c l IH]; intros Hl; simpl; [done|].
  rewrite bool_decide_false by set_solver. by rewrite IH by set_solver.
Qed.

Lemma split_lines_of ls l :
  Forall no_newline ls → no_newline l → split_lines (lines_of ls ++ l) = ls ++ [l].
Proof.
  intros Hls Hl. induction Hls as [|x ls Hx Hls IH]; [by apply split_lines_one|].
  unfold lines_of in *. rewrite bind_cons, <-!app_assoc. cbn [app].
  rewrite split_lines_cons by done. by rewrite IH.
Qed.

(** Replay sees exactly the complete lines. *)
Lemma replay_content_lines ls t :
  Forall no_newline ls → no_newline t → replay_content (lines_of ls ++ t) = apply_lines ∅ ls.
Proof.
  intros Hls Ht. unfold replay_content.
  destruct ls as [|l ls _] using rev_ind; [by rewrite last_newline_none|].
  apply Forall_app in Hls as [Hls Hl]. inversion Hl; subst.
  unfold lines_of. rewrite bind_app, bind_singleton. fold (lines_of ls).
  rewrite <-!app_assoc, (app_assoc (lines_of ls)). cbn [app].
  rewrite last_newline_app by done. rewrite take_app_length. by rewrite split_lines_of.
Qed.

Lemma apply_lines_app lv ls1 ls2 :
  apply_lines lv (ls1 ++ ls2) = (lv' ←? apply_lines lv ls1; apply_lines lv' ls2).
Proof.
  revert lv. induction ls1 as [|[|c l] ls1 IH]; intros lv; simpl; [done|done|].
  destruct (applyLine lv (c :: l)); simpl; [apply IH|done].
Qed.

(** ** Fields *)

Definition word (b : bytes) : Prop := b ≠ [] ∧ Forall (λ c, is_space c = false) b.

Lemma fields_loop_word w b cur :
  Forall (λ c, is_space c = false) w → fields_loop (w ++ b) cur = fields_loop b (cur ++ w).
Proof.
  intros Hw. revert cur. induction Hw as [|c w Hc Hw IH]; intros cur; simpl; [by rewrite app_nil_r|].
  by rewrite Hc, IH, <-app_assoc.
Qed.

Lemma Fields_word w : word w → Fields w = [w].
Proof.
  intros [Hne Hw]. unfold Fields. rewrite <-(app_nil_r w) at 1. rewrite fields_loop_word by done.
  by destruct w.
Qed.

Lemma Fields_cons w b : word w → Fields (w ++ " "%char :: b) = w :: Fields b.
Proof. intros [Hne Hw]. unfold Fields. rewrite fields_loop_word by done. by destruct w. Qed.

Lemma Fields_Join ids : ids ≠ [] → Forall word ids → Fields (Join ids) = ids.
Proof.
  intros Hne Hids. induction Hids as [|w ids Hw Hids IH]; [done|]. destruct ids as [|w' ids].
  - by apply Fields_word.
  - cbn [Join]. rewrite Fields_cons by done. f_equal. by apply IH.
Qed.

(** An identifier: non-empty and without white space. *)
Definition id_ok (id : string) : Prop := word (to_bytes id).

Lemma add_line_spec lv id : id_ok id → applyLine lv (add_line id) = Some ({[id]} ∪ lv).
Proof.
  intros Hid. unfold applyLine, add_line.
  change (to_bytes "ADD ") with (to_bytes "ADD" ++ [" "%char]). rewrite <-app_assoc. cbn [app].
  rewrite Fields_cons by (by split; [|repeat constructor]). rewrite Fields_word by done.
  rewrite bool_decide_true by done. by rewrite of_to_bytes.
Qed.

Lemma remove_line_spec lv ids :
  ids ≠ [] → Forall id_ok ids →
  applyLine lv (remove_line ids) = Some (fold_left (λ lv id, lv ∖ {[id]}) ids lv).
Proof.
  intros Hne Hids. unfold applyLine, remove_line.
  change (to_bytes "REMOVE ") with (to_bytes "REMOVE" ++ [" "%char]). rewrite <-app_assoc. cbn [app].
  rewrite Fields_cons by (by split; [|repeat constructor]).
  rewrite Fields_Join; [|by destruct ids|by apply Forall_fmap].
  destruct ids as [|id ids]; [done|]. rewrite fmap_cons.
  rewrite bool_decide_false by done. rewrite bool_decide_true by done. f_equal.
  rewrite <-fmap_cons. clear. generalize lv. induction (id :: ids) as [|x l IH]; intros lv'; [done|].
  rewrite fmap_cons. simpl. by rewrite of_to_bytes, IH.
Qed.

Lemma word_no_newline w : Forall (λ c, is_space c = false) w → no_newline w.
Proof. intros Hw Hin. rewrite Forall_forall in Hw. by specialize (Hw _ Hin). Qed.

Lemma Join_no_newline ids : Forall word ids → no_newline (Join ids).
Proof.
  unfold no_newline. induction 1 as [|w ids [_ Hw] Hids IH]; [set_solver|].
  apply word_no_newline in Hw. unfold no_newline in Hw. destruct ids as [|w' ids]; [done|].
  cbn [Join]. set_solver.
Qed.

Lemma add_line_no_newline id : id_ok id → no_newline (add_line id).
Proof.
  intros [_ Hw%word_no_newline]. unfold add_line, no_newline in *. rewrite elem_of_app.
  intros [H|H]; [|done]. cbn in H. set_solver.
Qed.

Lemma remove_line_no_newline ids : Forall id_ok ids → no_newline (remove_line ids).
Proof.
  intros Hids. unfold remove_line, no_newline. rewrite elem_of_app. intros [H|H].
  - cbn in H. set_solver.
  - revert H. apply Join_no_newline. by apply Forall_fmap.
Qed.

(** ** Clean manifests *)

(** Complete lines only, all durable, and the live set is what they say. *)
Definition mf_clean (m : Manifest) : Prop :=
  ∃ ls, Forall no_newline ls ∧ mfile m = mkFile (lines_of ls) (lines_of ls) ∧
    apply_lines ∅ ls = Ok (live m).

(** The two changes, their line and their effect. *)
Inductive mf_op := OpAdd (id : string) | OpRemove (ids : list string).

Definition mf_run (io : write_io) (m : Manifest) (op : mf_op) : Manifest * option error :=
  match op with OpAdd id => Add io m id | OpRemove ids => Remove io m ids end.

Definition mf_line (op : mf_op) : bytes :=
  match op with OpAdd id => add_line id | OpRemove ids => remove_line ids end.

Definition mf_effect (op : mf_op) (lv : gset string) : gset string :=
  match op with
  | OpAdd id => {[id]} ∪ lv
  | OpRemove ids => lv ∖ list_to_set ids
  end.

Definition op_ok (op : mf_op) : Prop :=
  match op with OpAdd id => id_ok id | OpRemove ids => ids ≠ [] ∧ Forall id_ok ids end.

Lemma fold_remove ids (lv : gset string) :
  fold_left (λ lv id, lv ∖ {[id]}) ids lv = lv ∖ list_to_set ids.
Proof. revert lv. induction ids as [|id ids IH]; intros lv; simpl; [|rewrite IH]; set_solver. Qed.

Lemma mf_line_spec op lv : op_ok op → applyLine lv (mf_line op) = Some (mf_effect op lv).
Proof.
  destruct op as [id|ids]; simpl; [apply add_line_spec|]. intros [Hne Hids].
  by rewrite remove_line_spec, fold_remove.
Qed.

Lemma mf_line_no_newline op : op_ok op → no_newline (mf_line op).
Proof.
  destruct op as [id|ids]; simpl; [apply add_line_no_newline|]. intros [_ ?]. by apply remove_line_no_newline.
Qed.

Lemma mf_line_nonempty op : mf_line op ≠ [].
Proof. by destruct op. Qed.

Lemma mf_run_eq io m op :
  op_ok op →
  mf_run io m op =
    match writeLine io (mfile m) (mf_line op) with
    | (f, Some err) => (mkManifest f (live m), Some err)
    | (f, None) => (mkManifest f (mf_effect op (live m)), None)
    end.
Proof.
  destruct op as [id|ids]; [done|]. simpl. intros [Hne _]. destruct ids as [|id ids]; [done|].
  unfold Remove. by rewrite fold_remove.
Qed.

Lemma apply_lines_snoc ls op lv :
  op_ok op → apply_lines ∅ ls = Ok lv → apply_lines ∅ (ls ++ [mf_line op]) = Ok (mf_effect op lv).
Proof.
  intros Hop Hls. rewrite apply_lines_app, Hls. simpl.
  destruct (mf_line op) as [|c l] eqn:E; [by apply mf_line_nonempty in E|].
  rewrite <-E, mf_line_spec by done. done.
Qed.

Lemma mf_run_clean io m op :
  mf_clean m → op_ok op → (mf_run io m op).2 = None → mf_clean (mf_run io m op).1.
Proof.
  intros (ls & Hls & Hf & Hlv) Hop Hok. rewrite mf_run_eq in * by done. unfold writeLine in *.
  destruct (io_write io); [done|]. destruct (io_sync io); [|done]. simpl in *.
  exists (ls ++ [mf_line op]). split_and!.
  - apply Forall_app. split; [done|]. constructor; [by apply mf_line_no_newline|constructor].
  - rewrite Hf. simpl. unfold lines_of. by rewrite bind_app, bind_singleton.
  - by apply apply_lines_snoc.
Qed.

(** What a crash in an operation leaves: the complete lines and part of the new
    one, or the new one too. *)
Lemma mf_run_cut io m op f' :
  mf_clean m → op_ok op → cut (mfile (mf_run io m op).1) f' →
  ∃ ls t, Forall no_newline ls ∧ no_newline t ∧ data f' = lines_of ls ++ t ∧
    (apply_lines ∅ ls = Ok (live m) ∧ (mf_run io m op).2 ≠ None ∨
     apply_lines ∅ ls = Ok (mf_effect op (live m)) ∧ t = []).
Proof.
  intros (ls & Hls & Hf & Hlv) Hop (n & Hn & ->). rewrite mf_run_eq in * by done.
  assert (∀ j, ∃ ls' t, Forall no_newline ls' ∧ no_newline t ∧
    lines_of ls ++ take j (mf_line op ++ [newline]) = lines_of ls' ++ t ∧
    (apply_lines ∅ ls' = Ok (live m) ∧ j < S (length (mf_line op)) ∨
     apply_lines ∅ ls' = Ok (mf_effect op (live m)) ∧ t = [])) as Hpart.
  { intros j. pose proof (mf_line_no_newline op Hop) as Hnl.
    destruct (decide (j < S (length (mf_line op)))) as [Hj|Hj].
    - exists ls, (take j (mf_line op)). rewrite take_app_le by lia. split_and!; try done; [|by left].
      by apply no_newline_take.
    - exists (ls ++ [mf_line op]), []. rewrite take_ge by (rewrite length_app; simpl; lia).
      unfold lines_of. rewrite bind_app, bind_singleton, app_nil_r. split_and!; try done.
      + apply Forall_app. split; [done|]. by constructor.
      + intros Hin. by apply elem_of_nil in Hin.
      + right. split; [|done]. by apply apply_lines_snoc. }
  unfold writeLine in *. rewrite Hf in *. simpl data in *. simpl durable in *.
  destruct (io_write io) as [j|]; [|destruct (io_sync io)]; simpl in *.
  - rewrite take_app_ge, take_take by done.
    destruct (Hpart ((n - length (lines_of ls)) `min` j)) as (ls' & t & H1 & H2 & -> & H3).
    exists ls', t. split_and!; try done. destruct H3 as [[? ?]|[? ?]]; [left|right]; done.
  - rewrite take_ge by done. destruct (Hpart (S (length (mf_line op)))) as (ls' & t & H1 & H2 & H3 & H4).
    rewrite take_ge in H3 by (rewrite length_app; simpl; lia). rewrite H3. exists ls', t.
    split_and!; try done. destruct H4 as [[_ ?]|?]; [lia|by right].
  - rewrite take_app_ge by done.
    destruct (Hpart (n - length (lines_of ls))) as (ls' & t & H1 & H2 & -> & H3).
    exists ls', t. split_and!; try done. destruct H3 as [[? ?]|[? ?]]; [left|right]; done.
Qed.

Lemma Open_lines ls t f :
  Forall no_newline ls → no_newline t → data f = lines_of ls ++ t →
  Open oio_fine (Some f) = (Some f, lv ←? apply_lines ∅ ls; Ok (mkManifest f lv)).
Proof.
  intros Hls Ht Hd. unfold Open, replay. cbn [oio_fine o_mkdir o_open o_syncdir o_seek o_read o_seekend negb].
  simpl default. by rewrite Hd, replay_content_lines.
Qed.

(** The torn start of one ADD line and the whole of the next make a line that
    is not understood. *)
Lemma glued_line lv x y n :
  id_ok x → id_ok y → 0 < n ≤ length (add_line x) →
  applyLine lv (take n (add_line x) ++ add_line y) = None.
Proof.
  intros Hx Hy Hn. unfold add_line in *.
  assert (∀ b, word (b ++ to_bytes "ADD") →
    Fields (b ++ to_bytes "ADD " ++ to_bytes y) = [b ++ to_bytes "ADD"; to_bytes y]) as Hf.
  { intros b Hb. change (to_bytes "ADD ") with (to_bytes "ADD" ++ [" "%char]).
    rewrite <-!app_assoc, (app_assoc b). cbn [app]. rewrite Fields_cons, Fields_word by done. done. }
  destruct (decide (n < 4)) as [Hs|Hs].
  - rewrite take_app_le by (simpl; lia). unfold applyLine.
    destruct n as [|[|[|[|n]]]]; [lia| | | |lia]; cbn [take to_bytes];
      rewrite Hf by (by split; [|repeat constructor]); done.
  - rewrite take_app_ge by (simpl; lia). unfold applyLine. rewrite <-app_assoc.
    change (to_bytes "ADD ") with (to_bytes "ADD" ++ [" "%char]) at 1.
    rewrite <-app_assoc. cbn [app]. rewrite Fields_cons by (by split; [|repeat constructor]).
    rewrite Hf; [done|]. split; [intros E; by apply app_eq_nil in E as [_ E]|].
    apply Forall_app. split; [|by repeat constructor]. destruct Hx as [_ Hx]. by apply Forall_take.
Qed.

(** ** Results *)

(** The manifest is the live set.  From a clean manifest, run an [Add] or
    a [Remove] of any number of IDs, with any outcome, and crash: [Open] reads
    either the old live set or the one after the whole operation, never a part
    of it; if the operation returned nil it is the new one, and the manifest is
    clean again. *)
Theorem manifest_crash_atomic (m : Manifest) (op : mf_op) (io : write_io) (f' : file) :
  mf_clean m → op_ok op → cut (mfile (mf_run io m op).1) f' →
  ∃ m', Open oio_fine (Some f') = (Some f', Ok m') ∧
    (live m' = live m ∨ live m' = mf_effect op (live m)) ∧
    ((mf_run io m op).2 = None →
       live m' = mf_effect op (live m) ∧ live (mf_run io m op).1 = live m' ∧ mf_clean (mf_run io m op).1).
Proof.
  intros Hm Hop Hcut. destruct (mf_run_cut io m op f' Hm Hop Hcut) as (ls & t & Hls & Ht & Hd & Hcase).
  pose proof (mf_run_clean io m op Hm Hop) as Hcl.
  rewrite (Open_lines ls t f' Hls Ht Hd).
  assert ((mf_run io m op).2 = None → live (mf_run io m op).1 = mf_effect op (live m)) as Hlive.
  { rewrite mf_run_eq by done. by destruct (writeLine io (mfile m) (mf_line op)) as [f [err|]]. }
  destruct Hcase as [[-> Herr]|[-> _]]; simpl; eexists; (split; [done|]); simpl; naive_solver.
Qed.

(** A record behind a torn line is not read back.  Let a crash leave the
    start of an [ADD] line at the end of a clean manifest (any byte of it up to
    its newline).  [Open] ignores it and returns the right live set; it does
    not remove it either, and the file is opened for appending, so the next
    [Add], although it returns nil, is glued to the torn bytes and every later
    [Open] fails on the line they make. *)
Theorem manifest_add_after_torn_line (m : Manifest) (x y : string) (n : nat) :
  mf_clean m → id_ok x → id_ok y → 0 < n ≤ length (add_line x) →
  let f1 := mkFile (data (mfile m) ++ take n (add_line x)) (data (mfile m) ++ take n (add_line x)) in
  ∃ m1 m2 line,
    Open oio_fine (Some f1) = (Some f1, Ok m1) ∧ live m1 = live m ∧
    Add io_fine m1 y = (m2, None) ∧ y ∈ live m2 ∧
    Open oio_fine (Some (mfile m2)) = (Some (mfile m2), Err (MalformedLine line)).
Proof.
  intros (ls & Hls & Hf & Hlv) Hx Hy Hn f1.
  set (t := take n (add_line x)) in *. set (line := t ++ add_line y).
  assert (no_newline t) as Ht by (by apply no_newline_take, add_line_no_newline).
  assert (no_newline line) as Hl by (by apply no_newline_app, add_line_no_newline).
  assert (data f1 = lines_of ls ++ t) as Hd1 by (unfold f1; by rewrite Hf).
  eexists (mkManifest f1 (live m)), _, line. split_and!.
  - rewrite (Open_lines ls t f1 Hls Ht Hd1), Hlv. done.
  - done.
  - reflexivity.
  - simpl. set_solver.
  - cbn [mfile]. rewrite (Open_lines (ls ++ [line]) []); [| | |].
    + rewrite apply_lines_app, Hlv. cbn [res_bind apply_lines].
      pose proof (glued_line (live m) x y n Hx Hy Hn) as Hg. fold t line in Hg.
      assert (line ≠ []) by (intros E; by apply app_eq_nil in E as [_ E]). clearbody line.
      destruct line; [done|by rewrite Hg].
    + apply Forall_app. split; [done|by constructor].
    + intros Hin. by apply elem_of_nil in Hin.
    + cbn [data]. rewrite Hd1, app_nil_r. unfold lines_of. rewrite bind_app, bind_singleton.
      unfold line. by rewrite <-!app_assoc.
Qed.

(** ** Witnesses *)

Definition mf_one : Manifest := (Add io_fine (mkManifest (mkFile [] []) ∅) "sst_1").1.

Lemma sst_ok s : forallb (λ c, negb (is_space c)) (to_bytes s) = true → to_bytes s ≠ [] → id_ok s.
Proof.
  intros Hs Hne. split; [done|]. apply Forall_forall. intros c Hc.
  rewrite forallb_forall in Hs. apply list_elem_of_In, Hs in Hc. by destruct (is_space c).
Qed.

Lemma mf_one_clean : mf_clean mf_one.
Proof.
  apply (mf_run_clean io_fine (mkManifest (mkFile [] []) ∅) (OpAdd "sst_1")); [|by apply sst_ok|done].
  exists []. done.
Qed.

Definition mf_torn : file :=
  mkFile (data (mfile mf_one) ++ take 10 (remove_line ["sst_1"]))
         (data (mfile mf_one) ++ take 10 (remove_line ["sst_1"])).

(** A write of a REMOVE line that stops after ten bytes. *)
Lemma manifest_crash_atomic_witness :
  ∃ m', Open oio_fine (Some mf_torn) = (Some mf_torn, Ok m') ∧
    (live m' = live mf_one ∨ live m' = mf_effect (OpRemove ["sst_1"]) (live mf_one)).
Proof.
  destruct (manifest_crash_atomic mf_one (OpRemove ["sst_1"]) (mkWIO (Some 10) true) mf_torn)
    as (m' & H1 & H2 & _).
  - apply mf_one_clean.
  - split; [done|]. constructor; [by apply sst_ok|constructor].
  - exists 100. split; [simpl; lia|reflexivity].
  - exists m'. by split.
Defined.

Lemma manifest_add_after_torn_line_witness :
  ∃ m1 m2 line,
    (Open oio_fine (Some (mkFile (to_bytes "ADD sst_1" ++ newline :: to_bytes "ADD sst")
                            (to_bytes "ADD sst_1" ++ newline :: to_bytes "ADD sst")))).2 = Ok m1 ∧
    Add io_fine m1 "sst_3" = (m2, None) ∧
    (Open oio_fine (Some (mfile m2))).2 = Err (MalformedLine line).
Proof.
  destruct (manifest_add_after_torn_line mf_one "sst_2" "sst_3" 7 mf_one_clean)
    as (m1 & m2 & line & H1 & _ & H2 & _ & H3); [by apply sst_ok|by apply sst_ok|simpl; lia|].
  exists m1, m2, line. rewrite H3. split_and!; [|done|done].
  apply (f_equal snd) in H1. exact H1.
Defined.
