(* ===== verification/Sstable.v ===== *)
(** * SSTables (internal/storage/sstable/sstable.go)

    An immutable sorted file at byte level: records, Bloom filter, index and
    footer; writing it under a temporary name and publishing it with a rename;
    opening it; and the lookups.  The Bloom filter (bits-and-blooms/bloom) is a
    third-party structure and therefore a parameter.  The file shows that a
    table written, and one opened again from its bytes, answers every lookup
    with exactly the versions it was written with. *)

From stdpp Require Import gmap strings list sorting.
From Stdlib Require Import ZArith Lia Ascii.
From S2P Require Import Prelude GoLib VectorClock Versioning Json Memtable Wal.

(** ** The Bloom filter *)

Class Bloom (B : Type) := {
  bloom_New : nat → B;
  bloom_AddString : B → string → B;
  bloom_TestString : B → string → bool;
  bloom_WriteTo : B → bytes;
  bloom_ReadFrom : bytes → option B
}.

(** No false negatives, and a filter read back answers as the one written. *)
Class BloomSpec (B : Type) `{Bloom B} : Prop := {
  bloom_add_same b k : bloom_TestString (bloom_AddString b k) k = true;
  bloom_add_keeps b k k' : bloom_TestString b k = true → bloom_TestString (bloom_AddString b k') k = true;
  bloom_roundtrip b : ∃ b', bloom_ReadFrom (bloom_WriteTo b) = Some b' ∧
    ∀ k, bloom_TestString b' k = bloom_TestString b k
}.

(** ** Data *)

Definition recordHeaderSize : nat := 8.

Record indexEntry := mkIE { ie_Key : string; ie_Offset : Z }.

Record record := mkRec {
  r_Key : string;
  r_Value : bytes;
  r_VectorClock : gmap string N;
  r_LastUpdatedBy : string;
  r_IsDeleted : bool
}.

Inductive error :=
  | MarshalValue (key : string) | UnmarshalValue (key : string) | MarshalRecord (key : string)
  | SeekFailed | ReadHeader | ReadPayload | ChecksumMismatch | DecodeRecord
  | WriteRecord (key : string) | WriteBloom | MarshalIndex | WriteIndex | WriteFooter
  | FsyncFailed | CloseFailed | RenameFailed | PublishFailed
  | InvalidID | EmptyTable | NotSorted | CreateFailed
  | OpenFailed | TooSmall | CorruptFooter | DecodeBloom | DecodeIndex | EmptyIndex.

(** The table files of the data directory, by name. *)
Notation sst_dir := (gmap string bytes).

(** What the operating system answers in [WriteWithID]. [s_record] is the
    number of a record whose write fails and the bytes of it that were
    written; the others fail if false. *)
Record sst_io := mkSIO {
  s_create : bool; s_record : option (nat * nat); s_bloom : bool; s_index : bool; s_footer : bool;
  s_sync : bool; s_close : bool; s_rename : bool; s_syncdir : bool; s_remove : bool
}.
Definition sio_fine : sst_io := mkSIO true None true true true true true true true true.

Definition int64 (n : N) : Z := if (n <? 9223372036854775808)%N then Z.of_N n else Z.of_N n - 18446744073709551616.

(** [b[lo:hi]] of a file read with [ReadAt]. *)
Definition read_at (b : bytes) (off len : Z) : bytes := take (Z.to_nat len) (drop (Z.to_nat off) b).

Definition sst_suffix : bytes := to_bytes ".sst".
Definition sst_name (id : string) : string := id +:+ ".sst".
Definition tmp_name (id : string) : string := id +:+ ".tmp".

(** [filepath.Base(id) == id] for a non-empty [id]: one path element. *)
Definition base_ok (id : string) : bool :=
  negb (existsb (λ c, bool_decide (c = "/"%char)) (to_bytes id)).

Definition TrimSuffix (name : string) : string :=
  let b := to_bytes name in
  let n := length b - 4 in
  if bool_decide (drop n b = sst_suffix) then of_bytes (take n b) else name.

(** ** Records *)

Section sstable.
Context `{!JsonCodec value, !JsonCodec record, !JsonCodec (list indexEntry)}.
Context {B : Type} `{!Bloom B}.

Definition toRecord (e : Memtable.Entry) : res error record :=
  let item := deref (Memtable.Item e) in
  match json_marshal (Value item) with
  | None => Err (MarshalValue (Memtable.Key e))
  | Some valueBytes =>
      Ok (mkRec (Memtable.Key e) valueBytes (VectorClock.Snapshot (Clock item))
            (LastUpdatedBy item) (IsDeleted item))
  end.

Definition fromRecord (a : N) (r : record) : res error Memtable.Entry :=
  match json_unmarshal (r_Value r) with
  | None => Err (UnmarshalValue (r_Key r))
  | Some v =>
      Ok (Memtable.mkEntry (r_Key r)
            (mkPtr a (mkItem v (FromSnapshot (r_VectorClock r)) (r_LastUpdatedBy r) (r_IsDeleted r))))
  end.

(** The header and payload are laid out as in the log. *)
Definition encodeRecord (e : Memtable.Entry) : res error bytes :=
  rec ←? toRecord e;
  match json_marshal rec with
  | None => Err (MarshalRecord (Memtable.Key e))
  | Some payload => Ok (frame payload)
  end.

Definition decodeRecordAt (a : N) (f : bytes) (offset : Z) : res error Memtable.Entry :=
  if (offset <? 0)%Z then Err SeekFailed
  else
    let rest := drop (Z.to_nat offset) f in
    if decide (length rest < recordHeaderSize) then Err ReadHeader
    else
      let header := take recordHeaderSize rest in
      let rest := drop recordHeaderSize rest in
      let len := be_get (take 4 header) in
      let wantChecksum := be_get (drop 4 header) in
      if (N.of_nat (length rest) <? len)%N then Err ReadPayload
      else
        let payload := take (N.to_nat len) rest in
        if negb (ChecksumIEEE payload =? wantChecksum)%N then Err ChecksumMismatch
        else match json_unmarshal payload with
        | None => Err DecodeRecord
        | Some rec => fromRecord a rec
        end.

(** ** Writing *)

(** The loop of [writeDataSection]: what is written so far [f], the number of
    the record, the index and the offset. *)
Fixpoint writeDataSection (io : sst_io) (i : nat) (f : bytes) (entries : list Memtable.Entry)
    (index : list indexEntry) (offset : Z) : bytes * res error (list indexEntry * Z) :=
  match entries with
  | [] => (f, Ok (index, offset))
  | e :: rest =>
      match encodeRecord e with
      | Err err => (f, Err err)
      | Ok buf =>
          let index' := index ++ [mkIE (Memtable.Key e) offset] in
          match s_record io with
          | Some (j, n) =>
              if Nat.eqb i j then (f ++ take n buf, Err (WriteRecord (Memtable.Key e)))
              else writeDataSection io (S i) (f ++ buf) rest index' (offset + Z.of_nat (length buf))
          | None => writeDataSection io (S i) (f ++ buf) rest index' (offset + Z.of_nat (length buf))
          end
      end
  end.

Definition buildFilter (entries : list Memtable.Entry) : B :=
  fold_left (λ filter e, bloom_AddString filter (Memtable.Key e)) entries (bloom_New (length entries)).

Definition footer (bloomStart indexStart : Z) : bytes :=
  PutUint64 (Z.to_N bloomStart) ++ PutUint64 (Z.to_N indexStart).

Record SSTable := mkSST {
  ID : string; Path : string; MinKey : string; MaxKey : string; Size : Z;
  index : list indexEntry; filter : B
}.

(** [sort.SliceIsSorted]: no entry is less than the one before it. *)
Fixpoint is_sorted (entries : list Memtable.Entry) : bool :=
  match entries with
  | e :: ((e' :: _) as rest) => negb (String.ltb (Memtable.Key e') (Memtable.Key e)) && is_sorted rest
  | _ => true
  end.

(** The directory after [f] was written under the temporary name and an error
    came: closed and removed, if that works. *)
Definition abandon (io : sst_io) (d : sst_dir) (id : string) (f : bytes) : sst_dir :=
  if s_remove io then delete (tmp_name id) d else <[tmp_name id := f]> d.

Definition writeAndPublish (io : sst_io) (d : sst_dir) (id : string) (entries : list Memtable.Entry)
    : sst_dir * res error SSTable :=
  match writeDataSection io 0 [] entries [] 0 with
  | (f, Err err) => (abandon io d id f, Err err)
  | (f, Ok (index, bloomStart)) =>
      let filter := buildFilter entries in
      if negb (s_bloom io) then (abandon io d id f, Err WriteBloom)
      else
        let f := f ++ bloom_WriteTo filter in
        let indexStart := (bloomStart + Z.of_nat (length (bloom_WriteTo filter)))%Z in
        match json_marshal index with
        | None => (abandon io d id f, Err MarshalIndex)
        | Some indexBytes =>
            if negb (s_index io) then (abandon io d id f, Err WriteIndex)
            else
              let f := f ++ indexBytes in
              let size := (indexStart + Z.of_nat (length indexBytes) + 16)%Z in
              if negb (s_footer io) then (abandon io d id f, Err WriteFooter)
              else
                let f := f ++ footer bloomStart indexStart in
                if negb (s_sync io) then (abandon io d id f, Err FsyncFailed)
                else if negb (s_close io) then (abandon io d id f, Err CloseFailed)
                else if negb (s_rename io) then (abandon io d id f, Err RenameFailed)
                else
                  let d := <[sst_name id := f]> (delete (tmp_name id) d) in
                  if negb (s_syncdir io) then (d, Err PublishFailed)
                  else
                    (d, Ok (mkSST id (sst_name id)
                              (from_option Memtable.Key "" (head entries))
                              (from_option Memtable.Key "" (last entries)) size index filter))
        end
  end.

Definition WriteWithID (io : sst_io) (d : sst_dir) (id : string) (entries : list Memtable.Entry)
    : sst_dir * res error SSTable :=
  if bool_decide (id = "") || negb (base_ok id) then (d, Err InvalidID)
  else match entries with
  | [] => (d, Err EmptyTable)
  | _ =>
      if negb (is_sorted entries) then (d, Err NotSorted)
      else if negb (s_create io) then (d, Err CreateFailed)
      else writeAndPublish io d id entries
  end.

(** ** Reading *)

(** [Open] of the file of this name. *)
Definition Open (d : sst_dir) (path : string) : res error SSTable :=
  match d !! path with
  | None => Err OpenFailed
  | Some f =>
      let size := Z.of_nat (length f) in
      if (size <? 16)%Z then Err TooSmall
      else
        let foot := read_at f (size - 16) 16 in
        let bloomStart := int64 (be_get (take 8 foot)) in
        let indexStart := int64 (be_get (drop 8 foot)) in
        if (bloomStart <? 0)%Z || (indexStart <? bloomStart)%Z || (size - 16 <? indexStart)%Z
        then Err CorruptFooter
        else match bloom_ReadFrom (read_at f bloomStart (indexStart - bloomStart)) with
        | None => Err DecodeBloom
        | Some filter =>
            match json_unmarshal (read_at f indexStart (size - 16 - indexStart)) with
            | None => Err DecodeIndex
            | Some index =>
                match index with
                | [] => Err EmptyIndex
                | _ => Ok (mkSST (TrimSuffix path) path
                             (from_option ie_Key "" (head index))
                             (from_option ie_Key "" (last index)) size index filter)
                end
            end
        end
  end.

(** Records read one after the other, their items allocated from [a]. *)
Fixpoint decode_all (a : N) (f : bytes) (ies : list indexEntry) : res error (list Memtable.Entry) :=
  match ies with
  | [] => Ok []
  | ie :: rest =>
      entry ←? decodeRecordAt a f (ie_Offset ie);
      entries ←? decode_all (a + 1) f rest;
      Ok (entry :: entries)
  end.

(** The entries from [start] on with this key. *)
Fixpoint run_of (key : string) (ies : list indexEntry) : list indexEntry :=
  match ies with
  | ie :: rest => if bool_decide (ie_Key ie = key) then ie :: run_of key rest else []
  | [] => []
  end.

(** [Ok None] is [(nil, false, nil)]. *)
Definition GetAll (a : N) (d : sst_dir) (s : SSTable) (key : string) : res error (option (list itemptr)) :=
  if String.ltb key (MinKey s) || String.ltb (MaxKey s) key then Ok None
  else if negb (bloom_TestString (filter s) key) then Ok None
  else
    let start := sort_Search (length (index s))
                   (λ i, negb (String.ltb (from_option ie_Key "" (index s !! i)) key)) in
    match index s !! start with
    | None => Ok None
    | Some ie =>
        if bool_decide (ie_Key ie ≠ key) then Ok None
        else match d !! Path s with
        | None => Err OpenFailed
        | Some f => entries ←? decode_all a f (run_of key (drop start (index s)));
                    Ok (Some (Memtable.Item <$> entries))
        end
    end.

Fixpoint keys_loop (ies : list indexEntry) (keys : list string) : list string :=
  match ies with
  | [] => keys
  | ie :: rest =>
      if bool_decide (last keys = Some (ie_Key ie)) then keys_loop rest keys
      else keys_loop rest (keys ++ [ie_Key ie])
  end.
Definition Keys (s : SSTable) : list string := keys_loop (index s) [].

Definition Get (a : N) (d : sst_dir) (s : SSTable) (key : string) : res error (option itemptr) :=
  r ←? GetAll a d s key; Ok (r ≫= head).

Definition All (a : N) (d : sst_dir) (s : SSTable) : res error (list Memtable.Entry) :=
  match d !! Path s with
  | None => Err OpenFailed
  | Some f => decode_all a f (index s)
  end.
End sstable.

Arguments SSTable B : clear implicits.

(** ** What a table holds *)

(** Entries up to the addresses of their items. *)
Definition plain (e : Memtable.Entry) : string * DataItem := (Memtable.Key e, deref (Memtable.Item e)).

(** The versions of a key, in order. *)
Definition versions (k : string) (es : list (string * DataItem)) : list DataItem :=
  snd <$> bfilter (λ p, bool_decide (p.1 = k)) es.

(** New items allocated one after the other. *)
Fixpoint alloc (a : N) (es : list (string * DataItem)) : list Memtable.Entry :=
  match es with
  | [] => []
  | p :: rest => Memtable.mkEntry p.1 (mkPtr a p.2) :: alloc (a + 1) rest
  end.

Lemma plain_alloc a es : plain <$> alloc a es = es.
Proof.
  revert a. induction es as [|[k x] es IH]; intros a; [done|]. cbn [alloc]. rewrite fmap_cons, IH. done.
Qed.

Lemma versions_app k es1 es2 : versions k (es1 ++ es2) = versions k es1 ++ versions k es2.
Proof. unfold versions. by rewrite bfilter_app, fmap_app. Qed.

Lemma versions_items_of k es : versions k (plain <$> es) = deref <$> items_of k es.
Proof.
  unfold versions, items_of. induction es as [|e es IH]; [done|]. rewrite fmap_cons. cbn [bfilter].
  unfold plain at 1. cbn [fst]. destruct (bool_decide (Memtable.Key e = k)); [|done].
  rewrite !fmap_cons. by f_equal.
Qed.

Lemma versions_nil k es : versions k es = [] ↔ k ∉ es.*1.
Proof.
  unfold versions. induction es as [|[k' x] es IH]; [set_solver|]. rewrite fmap_cons. cbn [bfilter fst].
  case_bool_decide; [|set_solver]. rewrite fmap_cons. set_solver.
Qed.

Section theory.
Context `{!JsonCodec value, !JsonCodec record, !JsonCodec (list indexEntry)}.
Context {B : Type} `{!Bloom B}.

Record table_holds (d : sst_dir) (s : SSTable B) (es : list (string * DataItem)) : Prop := {
  th_file : ∃ f, d !! Path s = Some f ∧
    Forall2 (λ ie p, ie_Key ie = p.1 ∧
      ∀ a, decodeRecordAt a f (ie_Offset ie) = Ok (Memtable.mkEntry p.1 (mkPtr a p.2))) (index s) es;
  th_sorted : StronglySorted String.le es.*1;
  th_min : head es.*1 = Some (MinKey s);
  th_max : last es.*1 = Some (MaxKey s);
  th_filter : ∀ k, k ∈ es.*1 → bloom_TestString (filter s) k = true
}.

Lemma decode_all_spec a f ies es :
  Forall2 (λ ie p, ie_Key ie = p.1 ∧
    ∀ a, decodeRecordAt a f (ie_Offset ie) = Ok (Memtable.mkEntry p.1 (mkPtr a p.2))) ies es →
  decode_all a f ies = Ok (alloc a es).
Proof.
  intros H. revert a. induction H as [|ie p ies es [_ Hd] H IH]; intros a; [done|].
  cbn [decode_all alloc]. by rewrite Hd, IH.
Qed.

(** The prefix of the entries with this key. *)
Fixpoint run (key : string) (es : list (string * DataItem)) : list (string * DataItem) :=
  match es with
  | p :: rest => if bool_decide (p.1 = key) then p :: run key rest else []
  | [] => []
  end.

Lemma run_of_Forall2 (R : indexEntry → string * DataItem → Prop) key ies es :
  (∀ ie p, R ie p → ie_Key ie = p.1) → Forall2 R ies es → Forall2 R (run_of key ies) (run key es).
Proof.
  intros HR. induction 1 as [|ie p ies es Hr H IH]; [constructor|]. cbn [run_of run].
  rewrite (HR _ _ Hr). case_bool_decide; [by constructor|constructor].
Qed.

(** In sorted entries none of which is below the key, its run is all there
    is of it. *)
Lemma run_versions key es :
  StronglySorted String.le es.*1 → (∀ k, k ∈ es.*1 → String.le key k) → snd <$> run key es = versions key es.
Proof.
  induction es as [|[k x] es IH]; [done|]. rewrite fmap_cons. cbn [fst].
  inversion 1 as [|? ? Hs Hx]; subst. intros Hge. unfold versions. cbn [run bfilter fst].
  case_bool_decide as Hk.
  - rewrite !fmap_cons. f_equal. apply IH; [done|]. set_solver.
  - rewrite bfilter_none; [done|]. intros [k' y] Hin. cbn [fst]. apply bool_decide_false. intros ->.
    rewrite Forall_forall in Hx. apply Hk, (anti_symm String.le); [|apply Hge; left].
    apply Hx. by apply (list_elem_of_fmap_2 fst _ (key, y)).
Qed.

(** [sort.Search] over the index finds where the key's entries start. *)
Lemma search_versions key (es : list (string * DataItem)) (ies : list indexEntry) :
  ie_Key <$> ies = es.*1 → StronglySorted String.le es.*1 →
  let start := sort_Search (length ies) (λ i, negb (String.ltb (from_option ie_Key "" (ies !! i)) key)) in
  start ≤ length es ∧ snd <$> run key (drop start es) = versions key es.
Proof.
  intros Hk Hs. cbv zeta. set (f := λ i, negb _).
  assert (length ies = length es.*1) as Hlen by (by rewrite <-Hk, length_fmap).
  assert (∀ i k, es.*1 !! i = Some k → f i = true ↔ String.le key k) as Hf.
  { intros i k Hi. unfold f. rewrite <-Hk, list_lookup_fmap in Hi.
    destruct (ies !! i) as [ie|]; [|done]. injection Hi as <-. simpl. by rewrite negb_true_iff, ltb_false. }
  rewrite Hlen. destruct (sort_Search_spec (length es.*1) f) as (Hle & Hlo & Hhi).
  { intros i j Hij Hfi. destruct (lookup_lt_is_Some_2 es.*1 j) as [kj Hj]; [lia|].
    destruct (lookup_lt_is_Some_2 es.*1 i) as [ki Hi]; [lia|]. rewrite (Hf _ _ Hj). rewrite (Hf _ _ Hi) in Hfi.
    destruct (decide (i = j)) as [->|Hne]; [congruence|].
    etrans; [done|]. eapply (StronglySorted_lookup_lt String.le es.*1 i j); [done|lia|done|done]. }
  set (start := sort_Search _ _) in *. split; [by rewrite length_fmap in Hle|].
  rewrite run_versions.
  - rewrite <-(take_drop start es) at 2. rewrite versions_app.
    assert (versions key (take start es) = []) as ->; [|done]. apply versions_nil. rewrite fmap_take.
    intros (i & Hi & Hlt)%elem_of_take. specialize (Hlo _ Hlt).
    assert (f i = true) as Ht by (apply (Hf _ _ Hi); reflexivity). congruence.
  - rewrite fmap_drop. rewrite <-(take_drop start es.*1) in Hs. by apply StronglySorted_app_1_r in Hs.
  - intros k. rewrite fmap_drop. intros [i Hi]%list_elem_of_lookup. rewrite lookup_drop in Hi.
    apply (Hf _ _ Hi). apply Hhi. split; [lia|]. by eapply lookup_lt_Some.
Qed.

Lemma th_keys d s es : table_holds d s es → ie_Key <$> index s = es.*1.
Proof.
  intros [(f & _ & H) _ _ _ _]. induction H as [|ie p ies es [Hk _] H IH]; [done|].
  rewrite !fmap_cons. by f_equal.
Qed.

Lemma head_le (l : list string) k x : StronglySorted String.le l → head l = Some x → k ∈ l → String.le x k.
Proof.
  destruct 1 as [|y l Hs Hx]; [done|]. intros [= <-] [->|Hk]%elem_of_cons; [reflexivity|].
  rewrite Forall_forall in Hx. by apply Hx.
Qed.

Lemma le_last (l : list string) k x : StronglySorted String.le l → last l = Some x → k ∈ l → String.le k x.
Proof.
  intros Hs Hl Hk. apply last_Some in Hl as [l' ->]. apply elem_of_app in Hk as [Hk|Hk%list_elem_of_singleton].
  - apply (StronglySorted_app_1_elem_of String.le l' [x]); [done|done|by left].
  - by subst.
Qed.

(** A lookup answers with exactly the versions of the key, newly allocated. *)
Lemma GetAll_spec a d s es key :
  table_holds d s es →
  GetAll a d s key =
    match versions key es with
    | [] => Ok None
    | _ => Ok (Some (Memtable.Item <$> alloc a (run key (drop (sort_Search (length (index s))
              (λ i, negb (String.ltb (from_option ie_Key "" (index s !! i)) key))) es))))
    end.
Proof.
  intros Ht. pose proof (th_keys _ _ _ Ht) as Hk. destruct Ht as [(f & Hd & Hf) Hs Hmin Hmax Hfil].
  destruct (search_versions key es (index s) Hk Hs) as [Hle Hrun]. unfold GetAll.
  set (start := sort_Search _ _) in *.
  destruct (decide (key ∈ es.*1)) as [Hin|Hout].
  - assert (versions key es ≠ []) as Hne by (rewrite versions_nil; tauto).
    rewrite (proj2 (ltb_false key (MinKey s))) by (by eapply head_le).
    rewrite (proj2 (ltb_false (MaxKey s) key)) by (by eapply le_last). cbn [orb].
    rewrite Hfil by done. cbn [negb].
    pose proof (Forall2_drop _ _ _ start Hf) as Hf'.
    destruct (drop start es) as [|[k x] rest] eqn:Ees; [by destruct Hne; rewrite <-Hrun|].
    apply Forall2_cons_inv_r in Hf' as (ie & ies & [Hk1 Hd1] & Hrest & Ei).
    assert (index s !! start = Some ie) as ->
      by (rewrite <-(Nat.add_0_r start), <-lookup_drop, Ei; done).
    assert (k = key) as ->.
    { destruct (decide (k = key)) as [|Hne']; [done|]. exfalso. apply Hne. rewrite <-Hrun. cbn [run fst].
      by rewrite bool_decide_false. }
    cbn [fst] in Hk1. rewrite bool_decide_false by (intros Hx; by apply Hx). rewrite Hd, Ei.
    rewrite (decode_all_spec a f _ (run key ((key, x) :: rest)));
      [|apply run_of_Forall2; [by intros ?? [? _]|by constructor]].
    by destruct (versions key es).
  - assert (versions key es = []) as Hv by (by apply versions_nil). rewrite Hv.
    destruct (_ || _); [done|]. destruct (negb _); [done|].
    destruct (index s !! start) as [ie|] eqn:Ei; [|done].
    rewrite bool_decide_true; [done|]. intros <-. apply Hout. rewrite <-Hk.
    apply list_elem_of_fmap_2. by eapply list_elem_of_lookup_2.
Qed.

(** The contents of the answer. *)
Lemma sst_GetAll_contents a d s es key :
  table_holds d s es →
  ∃ items, GetAll a d s key = Ok (match versions key es with [] => None | _ => Some items end) ∧
    (deref <$> items) = versions key es.
Proof.
  intros Ht. rewrite (GetAll_spec a d s es key Ht).
  destruct (search_versions key es (index s) (th_keys _ _ _ Ht) (th_sorted _ _ _ Ht)) as [_ Hrun].
  set (l := run _ _) in *. exists (Memtable.Item <$> alloc a l). split.
  - by destruct (versions key es).
  - rewrite <-Hrun. clearbody l. clear. revert a. induction l as [|[k x] l IH]; intros a; [done|].
    cbn [alloc]. rewrite !fmap_cons. f_equal. apply IH.
Qed.

Lemma All_spec a d s es : table_holds d s es → All a d s = Ok (alloc a es).
Proof. intros [(f & Hd & Hf) _ _ _ _]. unfold All. rewrite Hd. by apply decode_all_spec. Qed.

(** A table's file is never touched by writes to other names. *)
Lemma table_holds_ext d d' s es :
  table_holds d s es → d' !! Path s = d !! Path s → table_holds d' s es.
Proof. intros [(f & Hd & Hf) ? ? ? ?] E. split; try done. exists f. by rewrite E. Qed.

Lemma Keys_spec d s es : table_holds d s es → ∀ k, k ∈ Keys s ↔ k ∈ es.*1.
Proof.
  intros Ht k. rewrite <-(th_keys _ _ _ Ht). unfold Keys.
  assert (∀ ies keys, k ∈ keys_loop ies keys ↔ k ∈ keys ∨ k ∈ ie_Key <$> ies) as H.
  { induction ies as [|ie ies IH]; intros keys; [set_solver|]. cbn [keys_loop]. rewrite fmap_cons.
    case_bool_decide as Hl; rewrite IH; [|set_solver]. apply last_Some in Hl as [l' ->]. set_solver. }
  rewrite H. set_solver.
Qed.
End theory.

(** ** Writing and opening *)

(** Records and indexes JSON carries faithfully. *)
Definition record_ok `{!JsonCodec value} (r : record) : Prop :=
  string_ok (r_Key r) = true ∧ raw_ok (r_Value r) ∧ clock_names_ok (r_VectorClock r) ∧
  string_ok (r_LastUpdatedBy r) = true.

Definition two63 : Z := 9223372036854775808.

Definition index_ok (ix : list indexEntry) : Prop :=
  Forall (λ ie, string_ok (ie_Key ie) = true ∧ (0 ≤ ie_Offset ie < two63)%Z) ix.

Section writing.
Context `{!JsonCodec value, !JsonCodec record, !JsonCodec (list indexEntry)}.
Context `{!JsonRoundTrip value value_ok, !JsonRoundTrip record record_ok, !JsonRoundTrip (list indexEntry) index_ok}.
Context {B : Type} `{!Bloom B, !BloomSpec B}.

(** An entry the format can hold: its strings survive JSON and its record's
    length fits the header. *)
Definition entry_ok (e : Memtable.Entry) : Prop :=
  string_ok (Memtable.Key e) = true ∧ item_ok (deref (Memtable.Item e)) ∧
  ∀ b, encodeRecord e = Ok b → (N.of_nat (length b) < two32)%N.

Definition at_offset (f : bytes) (ie : indexEntry) (p : string * DataItem) : Prop :=
  ie_Key ie = p.1 ∧ ∀ a, decodeRecordAt a f (ie_Offset ie) = Ok (Memtable.mkEntry p.1 (mkPtr a p.2)).

Lemma encodeRecord_decodes e b pre post :
  entry_ok e → encodeRecord e = Ok b →
  at_offset (pre ++ b ++ post) (mkIE (Memtable.Key e) (Z.of_nat (length pre))) (plain e).
Proof.
  intros (Hk & (Hv & Hc & Hb) & Hlen) He. split; [done|]. intros a. pose proof (Hlen _ He) as Hl.
  revert He. unfold encodeRecord, toRecord.
  destruct (json_marshal (Value _)) as [vb|] eqn:Ev; [|done]. cbn [res_bind].
  destruct (json_marshal (mkRec _ _ _ _ _)) as [p|] eqn:Er; [|done]. intros [= <-].
  apply (json_roundtrip (ok := record_ok)) in Er;
    [|split_and!; simpl; [done|by eexists|by rewrite Snapshot_state|done]].
  destruct (frame_header p Hl) as (H1 & H2 & H3). pose proof (length_frame p) as Hfl.
  unfold decodeRecordAt. cbn [ie_Offset]. rewrite (proj2 (Z.ltb_ge _ _)) by lia. rewrite Nat2Z.id.
  rewrite drop_app_length. unfold recordHeaderSize. unfold headerSize in *.
  rewrite decide_False by (rewrite length_app; lia). rewrite take_app_le, drop_app_le by lia.
  rewrite H1, H2, H3, (proj2 (N.ltb_ge _ _)) by (rewrite length_app; lia).
  rewrite Nat2N.id, take_app_length, N.eqb_refl. cbn [negb]. rewrite Er. unfold fromRecord.
  cbn [r_Value r_Key r_VectorClock r_LastUpdatedBy r_IsDeleted].
  rewrite (json_roundtrip _ _ Hv Ev), Snapshot_state. unfold plain. cbn [fst snd].
  destruct (deref (Memtable.Item e)) as [v [c] by' dl]. simpl. unfold FromSnapshot.
  by rewrite copy_into_empty.
Qed.

Lemma writeDataSection_spec io i f entries ix f' ix' off' :
  Forall entry_ok entries →
  writeDataSection io i f entries ix (Z.of_nat (length f)) = (f', Ok (ix', off')) →
  off' = Z.of_nat (length f') ∧ ∃ body ies, f' = f ++ body ∧ ix' = ix ++ ies ∧
    Forall (λ ie, 0 ≤ ie_Offset ie ≤ Z.of_nat (length f'))%Z ies ∧
    ∀ post, Forall2 (at_offset (f' ++ post)) ies (plain <$> entries).
Proof.
  intros Hok. revert i f ix f' ix' off'. induction Hok as [|e entries He Hok IH]; intros i f ix f' ix' off'.
  - intros [= <- <- <-]. split; [done|]. exists [], []. rewrite !app_nil_r. split_and!; [done|done|constructor|constructor].
  - cbn [writeDataSection]. destruct (encodeRecord e) as [b|] eqn:Eb; [|done].
    assert (∀ i, writeDataSection io i (f ++ b) entries (ix ++ [mkIE (Memtable.Key e) (Z.of_nat (length f))])
        (Z.of_nat (length f) + Z.of_nat (length b)) = (f', Ok (ix', off')) →
      off' = Z.of_nat (length f') ∧ ∃ body ies, f' = f ++ body ∧ ix' = ix ++ ies ∧
      Forall (λ ie, 0 ≤ ie_Offset ie ≤ Z.of_nat (length f'))%Z ies ∧
      ∀ post, Forall2 (at_offset (f' ++ post)) ies (plain <$> e :: entries)) as Hgo.
    { intros j Hw. rewrite <-Nat2Z.inj_add, <-length_app in Hw.
      apply IH in Hw as (Hoff & body & ies & -> & -> & Hr & Hies). split; [done|].
      exists (b ++ body), (mkIE (Memtable.Key e) (Z.of_nat (length f)) :: ies).
      rewrite <-!app_assoc in *. split_and!; [done..| |].
      { constructor; [|done]. cbn [ie_Offset]. rewrite !length_app. lia. }
      intros post. rewrite fmap_cons.
      constructor; [rewrite <-!app_assoc; by apply encodeRecord_decodes|].
      specialize (Hies post). by rewrite <-!app_assoc in *. }
    destruct (s_record io) as [[j n]|]; [destruct (Nat.eqb i j); [done|]|]; apply Hgo.
Qed.

Lemma buildFilter_tests entries k :
  k ∈ (plain <$> entries).*1 → bloom_TestString (buildFilter entries) k = true.
Proof.
  unfold buildFilter. generalize (bloom_New (length entries)).
  assert (∀ l b, bloom_TestString b k = true →
    bloom_TestString (fold_left (λ filter e, bloom_AddString filter (Memtable.Key e)) l b) k = true) as Hkeep.
  { induction l as [|e l IH]; intros b Hb; [done|]. simpl. by apply IH, bloom_add_keeps. }
  induction entries as [|e entries IH]; intros b; [set_solver|]. rewrite !fmap_cons. simpl.
  intros [->|Hk]%elem_of_cons; [|by apply IH]. apply Hkeep, bloom_add_same.
Qed.

Lemma is_sorted_spec entries : is_sorted entries = true → StronglySorted String.le (plain <$> entries).*1.
Proof.
  intros Hs. apply Sorted_StronglySorted; [apply _|].
  induction entries as [|e [|e' l] IH]; [constructor|by repeat constructor|].
  cbn [is_sorted] in Hs. kv_bool. rewrite !fmap_cons in *. constructor; [by apply IH|].
  constructor. by apply ltb_false.
Qed.

Lemma sorted_is_sorted entries : entries_sorted entries → is_sorted entries = true.
Proof.
  induction 1 as [|e l Hl IH Hx]; [done|]. destruct l as [|e' l]; [done|].
  change (negb (String.ltb (Memtable.Key e') (Memtable.Key e)) && is_sorted (e' :: l) = true).
  rewrite IH, andb_true_r. apply negb_true_iff, ltb_false. inversion Hx; subst. done.
Qed.

Lemma head_plain (entries : list Memtable.Entry) :
  entries ≠ [] → head (plain <$> entries).*1 = Some (from_option Memtable.Key "" (head entries)).
Proof. by destruct entries. Qed.

Lemma last_plain (entries : list Memtable.Entry) :
  entries ≠ [] → last (plain <$> entries).*1 = Some (from_option Memtable.Key "" (last entries)).
Proof. intros Hne. rewrite !fmap_last. destruct (last entries) eqn:E; [done|]. by apply last_None in E. Qed.

(** The bytes of a published file, and the table made of them. *)
Lemma writeAndPublish_inv io d id entries d' s :
  Forall entry_ok entries → writeAndPublish io d id entries = (d', Ok s) →
  ∃ body ies ib,
    let filter := buildFilter entries in
    let bl := bloom_WriteTo filter in
    let f := body ++ bl ++ ib ++ footer (Z.of_nat (length body)) (Z.of_nat (length body + length bl)) in
    d' = <[sst_name id := f]> (delete (tmp_name id) d) ∧
    s = mkSST id (sst_name id) (from_option Memtable.Key "" (head entries))
          (from_option Memtable.Key "" (last entries)) (Z.of_nat (length f)) ies filter ∧
    json_marshal ies = Some ib ∧ Forall (λ ie, 0 ≤ ie_Offset ie ≤ Z.of_nat (length body))%Z ies ∧
    ∀ post, Forall2 (at_offset (body ++ post)) ies (plain <$> entries).
Proof.
  intros Hok. unfold writeAndPublish.
  destruct (writeDataSection io 0 [] entries [] 0) as [f [[ix off]|err]] eqn:Ew; [|done].
  apply (writeDataSection_spec io 0 [] entries []) in Ew as (-> & body & ies & -> & -> & Hr & Hies); [|done].
  cbn [app] in *. destruct (negb (s_bloom io)); [done|].
  destruct (json_marshal ies) as [ib|] eqn:Ei; [|done].
  destruct (negb (s_index io)); [done|]. destruct (negb (s_footer io)); [done|].
  destruct (negb (s_sync io)); [done|]. destruct (negb (s_close io)); [done|].
  destruct (negb (s_rename io)); [done|]. destruct (negb (s_syncdir io)); [done|].
  intros [= <- <-]. exists body, ies, ib. cbv zeta.
  rewrite <-!app_assoc, Nat2Z.inj_add. split_and!; try done. f_equal.
  rewrite !length_app. unfold footer. rewrite !length_app. unfold PutUint64. rewrite !length_be_put. lia.
Qed.

Lemma read_at_mid (a b c : bytes) off len :
  off = Z.of_nat (length a) → len = Z.of_nat (length b) → read_at (a ++ b ++ c) off len = b.
Proof. intros -> ->. unfold read_at. by rewrite !Nat2Z.id, drop_app_length, take_app_length. Qed.

Lemma int64_small z : (0 ≤ z < two63)%Z → int64 (Z.to_N z) = z.
Proof.
  intros Hz. unfold int64, two63 in *. rewrite (proj2 (N.ltb_lt _ _)) by lia. lia.
Qed.

Lemma TrimSuffix_name id : TrimSuffix (sst_name id) = id.
Proof.
  unfold TrimSuffix, sst_name. rewrite to_bytes_app, length_app. change (length (to_bytes ".sst")) with 4.
  rewrite Nat.add_sub, drop_app_length, take_app_length, bool_decide_true by done. apply of_to_bytes.
Qed.

Lemma footer_read b i :
  (0 ≤ b < two63)%Z → (0 ≤ i < two63)%Z →
  length (footer b i) = 16 ∧ int64 (be_get (take 8 (footer b i))) = b ∧ int64 (be_get (drop 8 (footer b i))) = i.
Proof.
  intros Hb Hi. unfold footer.
  assert (∀ n, length (PutUint64 n) = 8) as Hl by (intros; apply length_be_put).
  rewrite length_app, !Hl, take_app_length', drop_app_length' by done.
  unfold two63, two64 in *.
  rewrite !be_get_Uint64 by (unfold two64; lia). rewrite !int64_small by (unfold two63; lia). done.
Qed.

(** Opening a published file gives a table with the same index, and a filter
    that answers as the written one. *)
Lemma Open_written (d : sst_dir) (id : string) (body bl ib : bytes) (ies : list indexEntry) (flt : B) :
  let f := body ++ bl ++ ib ++ footer (Z.of_nat (length body)) (Z.of_nat (length body + length bl)) in
  d !! sst_name id = Some f → bl = bloom_WriteTo flt → json_marshal ies = Some ib → index_ok ies →
  ies ≠ [] → (Z.of_nat (length f) < two63)%Z →
  ∃ flt', Open d (sst_name id) = Ok (mkSST id (sst_name id) (from_option ie_Key "" (head ies))
      (from_option ie_Key "" (last ies)) (Z.of_nat (length f)) ies flt') ∧
    ∀ k, bloom_TestString flt' k = bloom_TestString flt k.
Proof.
  intros f Hd Hbl Hib Hix Hne Hsize. destruct (bloom_roundtrip flt) as (flt' & Hflt & Htest).
  exists flt'. split; [|done]. unfold Open. rewrite Hd.
  set (foot := footer (Z.of_nat (length body)) (Z.of_nat (length body + length bl))) in *.
  assert (length f = length body + (length bl + (length ib + length foot))) as Hlf
    by (unfold f; by rewrite !length_app).
  destruct (footer_read (Z.of_nat (length body)) (Z.of_nat (length body + length bl))) as (Hl16 & Hb & Hi);
    [lia|lia|]. fold foot in Hl16, Hb, Hi.
  rewrite (proj2 (Z.ltb_ge _ _)) by lia.
  assert (read_at f (Z.of_nat (length f) - 16) 16 = foot) as ->.
  { replace f with ((body ++ bl ++ ib) ++ foot ++ []) by (unfold f; by rewrite app_nil_r, <-!app_assoc).
    apply read_at_mid; [|lia]. rewrite app_nil_r, !length_app. lia. }
  rewrite Hb, Hi. rewrite !(proj2 (Z.ltb_ge _ _)) by lia. cbn [orb].
  assert (read_at f (Z.of_nat (length body)) (Z.of_nat (length body + length bl) - Z.of_nat (length body)) = bl)
    as -> by (apply read_at_mid; lia).
  rewrite Hbl at 1. rewrite Hflt.
  assert (read_at f (Z.of_nat (length body + length bl))
    (Z.of_nat (length f) - 16 - Z.of_nat (length body + length bl)) = ib) as ->.
  { unfold f. rewrite app_assoc. apply read_at_mid; rewrite ?length_app; lia. }
  rewrite (json_roundtrip _ _ Hix Hib). destruct ies; [done|]. by rewrite TrimSuffix_name.
Qed.

Lemma at_offset_index f ies es :
  Forall2 (at_offset f) ies es → ie_Key <$> ies = es.*1.
Proof. induction 1 as [|ie p ies es [Hk _] H IH]; [done|]. rewrite !fmap_cons. by f_equal. Qed.

Lemma WriteWithID_inv io d id entries d' s :
  WriteWithID io d id entries = (d', Ok s) →
  entries ≠ [] ∧ is_sorted entries = true ∧ writeAndPublish io d id entries = (d', Ok s).
Proof.
  unfold WriteWithID. destruct (_ || _); [done|]. destruct entries as [|e l]; [done|].
  destruct (is_sorted (e :: l)); [|done]. simpl negb. cbv iota. by destruct (negb (s_create io)).
Qed.

Lemma WriteWithID_id io d id entries d' s : WriteWithID io d id entries = (d', Ok s) → ID s = id ∧ Path s = sst_name id.
Proof.
  intros (_ & _ & Hw)%WriteWithID_inv. revert Hw. unfold writeAndPublish.
  destruct (writeDataSection _ _ _ _ _ _) as [f [[ix off]|err']]; [|done].
  repeat case_match; try done. by intros [= _ <-].
Qed.

(** A table that was written holds its entries, and so does the one opened
    from its file. *)
Lemma WriteWithID_holds io d id entries d' s :
  Forall entry_ok entries → WriteWithID io d id entries = (d', Ok s) → (Size s < two63)%Z →
  table_holds d' s (plain <$> entries) ∧ ID s = id ∧ Path s = sst_name id ∧
  (∀ name, name ≠ sst_name id → name ≠ tmp_name id → d' !! name = d !! name) ∧
  ∃ s', Open d' (sst_name id) = Ok s' ∧ table_holds d' s' (plain <$> entries) ∧
    ID s' = id ∧ Path s' = sst_name id ∧ Size s' = Size s.
Proof.
  intros Hok Hw Hsize. apply WriteWithID_inv in Hw as (Hne & Hs%is_sorted_spec & Hw).
  apply writeAndPublish_inv in Hw as (body & ies & ib & -> & -> & Hib & Hr & Hies); [|done].
  cbn [Size] in Hsize. set (bl := bloom_WriteTo (buildFilter entries)) in *.
  set (rest := bl ++ ib ++ _) in *. specialize (Hies rest).
  pose proof (at_offset_index _ _ _ Hies) as Hkeys.
  assert (index_ok ies) as Hix.
  { apply Forall_forall. intros ie Hie. rewrite Forall_forall in Hr. specialize (Hr _ Hie).
    split; [|rewrite length_app in Hsize; lia]. rewrite Forall_forall in Hok.
    assert (ie_Key ie ∈ (plain <$> entries).*1) as Hin by (rewrite <-Hkeys; by apply list_elem_of_fmap_2).
    apply list_elem_of_fmap in Hin as (p & -> & (e & -> & He)%list_elem_of_fmap). by apply Hok. }
  assert (∀ sz flt mn mx, head (plain <$> entries).*1 = Some mn → last (plain <$> entries).*1 = Some mx →
    (∀ k, bloom_TestString flt k = bloom_TestString (buildFilter entries) k) →
    table_holds (<[sst_name id := body ++ rest]> (delete (tmp_name id) d))
      (mkSST id (sst_name id) mn mx sz ies flt) (plain <$> entries)) as Hth.
  { intros sz flt mn mx Hmn Hmx Hflt. split; try done.
    - exists (body ++ rest). by rewrite lookup_insert_eq.
    - intros k Hk. cbn [filter]. rewrite Hflt. by apply buildFilter_tests. }
  split_and!; try done.
  - apply Hth; [by apply head_plain|by apply last_plain|done].
  - intros name H1 H2. by rewrite lookup_insert_ne, lookup_delete_ne.
  - destruct (Open_written (<[sst_name id := body ++ rest]> (delete (tmp_name id) d)) id body bl ib ies
      (buildFilter entries)) as (flt' & Hopen & Htest); try done.
    { by rewrite lookup_insert_eq. }
    { intros ->. by destruct entries. }
    eexists. split; [exact Hopen|]. split_and!; try done. apply Hth; [| |done]; rewrite <-Hkeys.
    + destruct ies; [by destruct entries|done].
    + rewrite fmap_last. destruct (last ies) eqn:E; [done|]. apply last_None in E. subst ies. by destruct entries.
Qed.

(** Whatever happens, a write touches its own two names only. *)
Lemma WriteWithID_other io d id entries d' (r : res error (SSTable B)) :
  WriteWithID io d id entries = (d', r) →
  ∀ name, name ≠ sst_name id → name ≠ tmp_name id → d' !! name = d !! name.
Proof.
  assert (∀ f name, name ≠ tmp_name id → abandon io d id f !! name = d !! name) as Hab.
  { intros f name Hn. unfold abandon. destruct (s_remove io); [by rewrite lookup_delete_ne|by rewrite lookup_insert_ne]. }
  intros Hw name Hs Hn. revert Hw. unfold WriteWithID, writeAndPublish.
  destruct (_ || _); [by intros [= <- <-]|]. destruct entries as [|e l]; [by intros [= <- <-]|].
  destruct (negb (is_sorted _)); [by intros [= <- <-]|]. destruct (negb (s_create io)); [by intros [= <- <-]|].
  destruct (writeDataSection _ _ _ _ _ _) as [f [[ix off]|err']]; [|intros [= <- <-]; by apply Hab].
  repeat match goal with
  | |- context [if negb ?b then _ else _] =>
      destruct (negb b);
        [intros [= <- <-]; first [by apply Hab | by rewrite lookup_insert_ne, lookup_delete_ne]|]
  | |- context [match json_marshal ?x with _ => _ end] =>
      destruct (json_marshal x); [|intros [= <- <-]; by apply Hab]
  end. intros [= <- <-]. by rewrite lookup_insert_ne, lookup_delete_ne.
Qed.

(** Nothing is published by a write that fails before its rename. *)
Lemma WriteWithID_fails io d id entries d' err :
  WriteWithID io d id entries = (d', Err err) → err ≠ PublishFailed →
  ∀ name, name ≠ tmp_name id → d' !! name = d !! name.
Proof.
  assert (∀ f name, name ≠ tmp_name id → abandon io d id f !! name = d !! name) as Hab.
  { intros f name Hn. unfold abandon. destruct (s_remove io); [by rewrite lookup_delete_ne|by rewrite lookup_insert_ne]. }
  intros Hw Hp name Hn. revert Hw. unfold WriteWithID, writeAndPublish.
  destruct (_ || _); [by intros [= <- <-]|]. destruct entries as [|e l]; [by intros [= <- <-]|].
  destruct (negb (is_sorted _)); [by intros [= <- <-]|]. destruct (negb (s_create io)); [by intros [= <- <-]|].
  destruct (writeDataSection _ _ _ _ _ _) as [f [[ix off]|err']]; [|intros [= <- <-]; by apply Hab].
  repeat match goal with
  | |- context [if negb ?b then _ else _] => destruct (negb b); [intros [= <- <-]; first [done | by apply Hab]|]
  | |- context [match json_marshal ?x with _ => _ end] =>
      destruct (json_marshal x); [|intros [= <- <-]; by apply Hab]
  end. done.
Qed.

(** With a working disk a sorted, non-empty table is written. *)
Lemma WriteWithID_succeeds d id entries :
  id ≠ "" → base_ok id = true → entries ≠ [] → entries_sorted entries →
  Forall (λ e, ∃ b, encodeRecord e = Ok b) entries →
  (∀ ix : list indexEntry, is_Some (json_marshal ix)) →
  ∃ d' s, WriteWithID sio_fine d id entries = (d', Ok s).
Proof.
  intros Hid Hb Hne Hs Henc Hix. unfold WriteWithID. rewrite bool_decide_false, Hb by done. cbn [orb negb].
  rewrite sorted_is_sorted by done. destruct entries as [|e0 l0]; [done|]. cbn [negb sio_fine s_create].
  unfold writeAndPublish.
  assert (∀ l i f ix off, Forall (λ e, ∃ b, encodeRecord e = Ok b) l →
    ∃ f' r, writeDataSection sio_fine i f l ix off = (f', Ok r)) as Hw.
  { induction l as [|e l IH]; intros i f ix off Hl; [by eexists _, _|]. inversion Hl as [|? ? [b Hb'] Hl']; subst.
    cbn [writeDataSection]. rewrite Hb'. cbn [sio_fine s_record]. by apply IH. }
  destruct (Hw (e0 :: l0) 0 [] [] 0%Z Henc) as (f' & [ix off] & ->).
  destruct (Hix ix) as [ib ->]. by eexists _, _.
Qed.
End writing.

(** ** Results *)

Section results.
Context `{!JsonCodec value, !JsonCodec record, !JsonCodec (list indexEntry)}.
Context `{!JsonRoundTrip value value_ok, !JsonRoundTrip record record_ok, !JsonRoundTrip (list indexEntry) index_ok}.
Context {B : Type} `{!Bloom B, !BloomSpec B}.

(** C30: an SSTable gives back what was written.  Sorted, non-empty entries
    are written with a working disk; then every lookup, in the table the
    writer holds and in the one [Open] makes of the file's bytes, answers
    with exactly the versions of the key in their order, or with not found if
    there are none (neither the range check, the filter nor the binary search
    misses any), and [All] gives back every entry. *)
Theorem sstable_roundtrip (d : sst_dir) (id : string) (entries : list Memtable.Entry) :
  id ≠ "" → base_ok id = true → entries ≠ [] → entries_sorted entries → Forall entry_ok entries →
  Forall (λ e, ∃ b, encodeRecord e = Ok b) entries →
  (∀ ix : list indexEntry, is_Some (json_marshal ix)) →
  ∃ d' (s : SSTable B), WriteWithID sio_fine d id entries = (d', Ok s) ∧
    ((Size s < two63)%Z →
     ∃ s', Open d' (sst_name id) = Ok s' ∧ ID s' = ID s ∧
       ∀ t, t = s ∨ t = s' →
         (∀ key a, ∃ items,
            GetAll a d' t key =
              Ok (match items_of key entries with [] => None | _ => Some items end) ∧
            deref <$> items = deref <$> items_of key entries) ∧
         (∀ a, ∃ all, All a d' t = Ok all ∧ plain <$> all = plain <$> entries)).
Proof.
  intros Hid Hb Hne Hs Hok Henc Hix.
  destruct (WriteWithID_succeeds (B := B) d id entries) as (d' & s & Hw); try done.
  exists d', s. split; [done|]. intros Hsize.
  destruct (WriteWithID_holds _ _ _ _ _ _ Hok Hw Hsize) as (Ht & HID & _ & _ & s' & Ho & Ht' & HID' & _).
  exists s'. split; [done|]. split; [congruence|]. intros t Hst.
  assert (table_holds d' t (plain <$> entries)) as Htt by (by destruct Hst as [->| ->]). split.
  - intros key a. destruct (sst_GetAll_contents a d' t _ key Htt) as (items & Hg & Hc).
    exists items. rewrite Hg, Hc, versions_items_of. split; [|done]. by destruct (items_of key entries).
  - intros a. rewrite (All_spec a d' t _ Htt). eexists. split; [done|]. apply plain_alloc.
Qed.

(** Publication is atomic.  Whatever fails in writing [id], every file
    but the temporary one is as it was, unless all that failed is the final
    sync of the directory; a table is returned only for sorted, non-empty
    entries, and writing it touches no other table. *)
Theorem sstable_publication_atomic (io : sst_io) (d d' : sst_dir) (id : string)
    (entries : list Memtable.Entry) (r : res error (SSTable B)) :
  WriteWithID io d id entries = (d', r) →
  match r with
  | Err err => err ≠ PublishFailed → ∀ name, name ≠ tmp_name id → d' !! name = d !! name
  | Ok s => entries ≠ [] ∧ is_sorted entries = true ∧
      ∀ name, name ≠ sst_name id → name ≠ tmp_name id → d' !! name = d !! name
  end.
Proof.
  destruct r as [s|err]; [|apply WriteWithID_fails]. intros Hw.
  apply WriteWithID_inv in Hw as (Hne & Hs & Hw). split_and!; [done..|]. intros name H1 H2.
  revert Hw. unfold writeAndPublish.
  destruct (writeDataSection _ _ _ _ _ _) as [f [[ix off]|err']]; [|done].
  repeat match goal with
  | |- context [if negb ?b then _ else _] => destruct (negb b); [done|]
  | |- context [match json_marshal ?x with _ => _ end] => destruct (json_marshal x); [|done]
  end. intros [= <- _]. by rewrite lookup_insert_ne, lookup_delete_ne.
Qed.
End results.

(** ** Witnesses *)

(** A filter that remembers its keys. *)
Definition set_bloom : Bloom (gset string) := {|
  bloom_New _ := ∅;
  bloom_AddString b k := {[k]} ∪ b;
  bloom_TestString b k := bool_decide (k ∈ b);
  bloom_WriteTo b := bits_of (encode b);
  bloom_ReadFrom b := decode (of_bits b)
|}.

Lemma set_bloom_spec : @BloomSpec (gset string) set_bloom.
Proof.
  split; simpl.
  - intros b k. apply bool_decide_true. set_solver.
  - intros b k k' H%bool_decide_eq_true. apply bool_decide_true. set_solver.
  - intros b. exists b. by rewrite of_bits_bits_of, decode_encode.
Qed.

#[export] Instance indexEntry_eq_dec : EqDecision indexEntry.
Proof. solve_decision. Defined.
#[export] Instance sst_record_eq_dec : EqDecision record.
Proof. solve_decision. Defined.
#[export] Instance indexEntry_countable : Countable indexEntry :=
  inj_countable' (λ r, (ie_Key r, ie_Offset r)) (λ '(k, o), mkIE k o) ltac:(by intros []).
#[export] Instance sst_record_countable : Countable record :=
  inj_countable' (λ r, (r_Key r, r_Value r, r_VectorClock r, r_LastUpdatedBy r, r_IsDeleted r))
    (λ '(k, v, c, b, d), mkRec k v c b d) ltac:(by intros []).

Definition toy_sst_json : JsonCodec record := countable_codec record.
Definition toy_index_json : JsonCodec (list indexEntry) := countable_codec (list indexEntry).

Section witnesses.
#[local] Existing Instance toy_value_json.
#[local] Existing Instance toy_sst_json.
#[local] Existing Instance toy_index_json.
#[local] Existing Instance set_bloom.
#[local] Existing Instance set_bloom_spec.
#[local] Instance toy_value_rt : JsonRoundTrip value value_ok := countable_codec_roundtrip value value_ok.
#[local] Instance toy_sst_rt : JsonRoundTrip record record_ok := countable_codec_roundtrip record record_ok.
#[local] Instance toy_index_rt : JsonRoundTrip (list indexEntry) index_ok :=
  countable_codec_roundtrip (list indexEntry) index_ok.

Definition sst_entries : list Memtable.Entry :=
  [Memtable.mkEntry "a" (mkPtr 1 (ex_item "x" {["n1" := 1%N]}));
   Memtable.mkEntry "a" (mkPtr 2 (ex_item "y" {["n2" := 1%N]}));
   Memtable.mkEntry "b" (mkPtr 3 (ex_item "z" {["n1" := 2%N]}))].

Lemma sst_encodes e : ∃ b, encodeRecord e = Ok b.
Proof. by eexists. Qed.

Lemma sst_item_ok k a s c : string_ok k = true →
  value_ok (VString s) → clock_names_ok c →
  (∀ b, encodeRecord (Memtable.mkEntry k (mkPtr a (ex_item s c))) = Ok b → (N.of_nat (length b) < two32)%N) →
  entry_ok (Memtable.mkEntry k (mkPtr a (ex_item s c))).
Proof. intros Hk Hv Hc Hl. split; [done|]. by split. Qed.

Definition sst_len (e : Memtable.Entry) : N :=
  match encodeRecord e with Ok b => N.of_nat (length b) | Err _ => 0 end.

Lemma sst_len_ok e : (sst_len e <? two32)%N = true →
  ∀ b, encodeRecord e = Ok b → (N.of_nat (length b) < two32)%N.
Proof. intros Hn b Hb. unfold sst_len in Hn. rewrite Hb in Hn. by apply N.ltb_lt. Qed.

Ltac sst_item :=
  apply sst_item_ok; [reflexivity|by vm_compute|by apply map_Forall_singleton|
    apply sst_len_ok; vm_cast_no_check (eq_refl true)].

Lemma sst_entries_ok : Forall entry_ok sst_entries.
Proof.
  apply Forall_cons; split; [sst_item|]. apply Forall_cons; split; [sst_item|].
  apply Forall_cons; split; [sst_item|]. apply Forall_nil. exact I.
Qed.

Lemma sst_entries_sorted : entries_sorted sst_entries.
Proof. by repeat constructor. Qed.

Lemma sstable_roundtrip_witness :
  ∃ d' (s : SSTable (gset string)), WriteWithID sio_fine ∅ "sst_1" sst_entries = (d', Ok s) ∧
    ((Size s < two63)%Z → ∃ items, GetAll 10 d' s "a" = Ok (Some items) ∧
       deref <$> items = [ex_item "x" {["n1" := 1%N]}; ex_item "y" {["n2" := 1%N]}]).
Proof.
  destruct (sstable_roundtrip (B := gset string) ∅ "sst_1" sst_entries) as (d' & s & Hw & Hrest).
  - discriminate.
  - reflexivity.
  - discriminate.
  - apply sst_entries_sorted.
  - apply sst_entries_ok.
  - apply Forall_forall. intros e _. apply sst_encodes.
  - intros ix. by eexists.
  - exists d', s. split; [exact Hw|]. intros Hsize. destruct (Hrest Hsize) as (s' & _ & _ & Hall).
    destruct (Hall s (or_introl eq_refl)) as [Hget _]. destruct (Hget "a" 10%N) as (items & H1 & H2).
    exists items. split; [exact H1|exact H2].
Defined.

Lemma sstable_publication_atomic_witness :
  (WriteWithID (B := gset string) sio_fine {["sst_0.sst" := []]} "sst_1" []).1 !! "sst_0.sst" = Some [].
Proof.
  change (({["sst_0.sst" := []]} : sst_dir) !! "sst_0.sst" = ({["sst_0.sst" := []]} : sst_dir) !! "sst_0.sst").
  apply (sstable_publication_atomic (B := gset string) sio_fine {["sst_0.sst" := []]} {["sst_0.sst" := []]}
    "sst_1" [] (Err EmptyTable)); [reflexivity|discriminate|discriminate].
Defined.
End witnesses.
