(* ===== verification/Compaction.v ===== *)
(** * Compaction (internal/storage/compaction/compaction.go)

    Choosing a run of adjacent SSTables of one size tier, and merging it.  The
    file shows which run is chosen, and that the merged entries stand for the
    run in every read. *)

From stdpp Require Import gmap strings list sorting.
From Stdlib Require Import ZArith Lia Ascii.
From S2P Require Import Prelude GoLib VectorClock Versioning Json Memtable Wal Sstable.

Local Open Scope Z_scope.

Definition minTierSize : nat := 4.

(** The loop of [tierOf]; each round divides by ten. *)
Fixpoint tier_loop (fuel : nat) (size : Z) (tier : nat) : nat :=
  match fuel with
  | O => tier
  | S fuel' => if 1000 <=? size then tier_loop fuel' (size / 10) (S tier) else tier
  end.
Definition tierOf (size : Z) : nat := tier_loop (Z.to_nat (Z.log2 size)) size 0.

Local Close Scope Z_scope.

Section compaction.
Context `{!JsonCodec value, !JsonCodec Sstable.record, !JsonCodec (list indexEntry)}.
Context {B : Type} `{!Bloom B}.

(** The inner loop: how many of the tables share the tier. *)
Fixpoint same_tier (tier : nat) (l : list (SSTable B)) : nat :=
  match l with
  | s :: rest => if Nat.eqb (tierOf (Sstable.Size s)) tier then S (same_tier tier rest) else 0
  | [] => 0
  end.

(** The outer loop, from [start] on. *)
Fixpoint select_loop (fuel : nat) (l best : list (SSTable B)) : list (SSTable B) :=
  match fuel, l with
  | S fuel', s :: rest =>
      let n := S (same_tier (tierOf (Sstable.Size s)) rest) in
      let run := take n l in
      let best' := if (minTierSize <=? length run) && (length best <? length run) then run else best in
      select_loop fuel' (drop n l) best'
  | _, _ => best
  end.

Definition SelectTierForCompaction (l : list (SSTable B)) : list (SSTable B) :=
  select_loop (length l) l [].

Definition merge_entry (byKey : gmap string (list itemptr)) (e : Memtable.Entry) : gmap string (list itemptr) :=
  <[Memtable.Key e := MergeSiblings (default [] (byKey !! Memtable.Key e)) [Memtable.Item e]]> byKey.

(** The loop over the sources; items are allocated from [a]. *)
Fixpoint merge_loop (a : N) (d : sst_dir) (sources : list (SSTable B)) (byKey : gmap string (list itemptr))
    : res Sstable.error (gmap string (list itemptr)) :=
  match sources with
  | [] => Ok byKey
  | src :: rest =>
      entries ←? All a d src;
      merge_loop (a + N.of_nat (length entries)) d rest (fold_left merge_entry entries byKey)
  end.

Definition Merge (a : N) (d : sst_dir) (sources : list (SSTable B)) : res Sstable.error (list Memtable.Entry) :=
  byKey ←? merge_loop a d sources ∅;
  Ok (sort_strings (fst <$> map_to_list byKey) ≫= λ k, Memtable.mkEntry k <$> default [] (byKey !! k)).
End compaction.

(** ** Tiers *)

(** A size's tier is the power of ten it reaches beyond a thousand. *)
Lemma tier_loop_spec fuel size tier :
  (0 ≤ size < 1000 * 10 ^ Z.of_nat fuel)%Z →
  let k := tier_loop fuel size tier in
  tier ≤ k ∧ (size < 1000 * 10 ^ Z.of_nat (k - tier))%Z ∧
  (tier < k → (100 * 10 ^ Z.of_nat (k - tier) ≤ size)%Z).
Proof.
  revert size tier. induction fuel as [|fuel IH]; intros size tier Hs; cbn [tier_loop]; cbv zeta.
  { rewrite Nat.sub_diag. split_and!; lia. }
  destruct (Z.leb_spec 1000 size) as [Hge|Hlt]; [|rewrite Nat.sub_diag; split_and!; lia].
  rewrite Nat2Z.inj_succ, Z.pow_succ_r in Hs by lia.
  pose proof (Z.div_mod size 10 ltac:(lia)) as Hdm. pose proof (Z.mod_pos_bound size 10 ltac:(lia)) as Hm.
  destruct (IH (size / 10)%Z (S tier)) as (H1 & H2 & H3); [lia|].
  set (k := tier_loop _ _ _) in *. split; [lia|].
  replace (k - tier) with (S (k - S tier)) by lia. rewrite Nat2Z.inj_succ, Z.pow_succ_r by lia.
  split; [lia|]. intros _.
  destruct (decide (S tier < k)) as [Hk|Hk]; [specialize (H3 Hk); lia|].
  replace (k - S tier) with 0 by lia. simpl. lia.
Qed.

Lemma tierOf_spec size :
  (0 ≤ size)%Z → (size < 1000 * 10 ^ Z.of_nat (tierOf size))%Z ∧
  (0 < tierOf size → (100 * 10 ^ Z.of_nat (tierOf size) ≤ size)%Z).
Proof.
  intros Hs. destruct (tier_loop_spec (Z.to_nat (Z.log2 size)) size 0) as (_ & H2 & H3).
  { split; [done|]. rewrite Z2Nat.id by apply Z.log2_nonneg.
    destruct (decide (size = 0)%Z) as [->|Hne]; [done|].
    destruct (Z.log2_spec size ltac:(lia)) as [_ Hlt]. eapply Z.lt_le_trans; [exact Hlt|].
    rewrite Z.pow_succ_r by apply Z.log2_nonneg.
    assert (2 ^ Z.log2 size ≤ 10 ^ Z.log2 size)%Z by (apply Z.pow_le_mono_l; lia).
    assert (0 ≤ 2 ^ Z.log2 size)%Z by (apply Z.pow_nonneg; lia). lia. }
  unfold tierOf. rewrite Nat.sub_0_r in *. done.
Qed.

(** ** The chosen run *)

Section select.
Context {B : Type}.
Implicit Types l run best : list (SSTable B).

Definition tier_of (s : SSTable B) : nat := tierOf (Sstable.Size s).

(** Adjacent tables of one tier. *)
Definition one_tier run : Prop := ∃ t, Forall (λ s, tier_of s = t) run.

Lemma same_tier_spec t l :
  Forall (λ s, tier_of s = t) (take (same_tier t l) l) ∧
  (∀ s, head (drop (same_tier t l) l) = Some s → tier_of s ≠ t).
Proof.
  induction l as [|s l [IH1 IH2]]; cbn [same_tier]; [split; [constructor|done]|].
  destruct (Nat.eqb_spec (tierOf (Sstable.Size s)) t) as [E|E]; cbn [take drop].
  - split; [by constructor|done].
  - split; [constructor|]. by intros s' [= <-].
Qed.

(** The tier changes between [a] and [b]. *)
Definition tier_change (a b : list (SSTable B)) : Prop :=
  ∀ x y, last a = Some x → head b = Some y → tier_of x ≠ tier_of y.

(** A one-tier segment does not cross where the tier changes. *)
Lemma one_tier_split (a b : list (SSTable B)) pre seg post :
  tier_change a b → one_tier seg → seg ≠ [] → a ++ b = pre ++ seg ++ post →
  (∃ post', a = pre ++ seg ++ post') ∨ (∃ pre', pre = a ++ pre' ∧ b = pre' ++ seg ++ post).
Proof.
  intros Hab [u Hu] Hne E.
  apply app_eq_inv in E as [(k & -> & E)|(k & -> & E)]; [|by right; exists k].
  destruct k as [|x k] using rev_ind.
  { right. exists []. by rewrite !app_nil_r. }
  left. symmetry in E. apply app_eq_inv in E as [(k' & E1 & E2)|(k' & E1 & E2)]; [by exists k'; rewrite E1|].
  destruct k' as [|s' k'].
  { exists []. by rewrite app_nil_r in *; subst. }
  exfalso. subst b. rewrite E1 in Hu. rewrite !Forall_app in Hu. destruct Hu as [[_ Hx] Hs].
  rewrite Forall_singleton in Hx. rewrite Forall_cons in Hs. destruct Hs as [Hs _].
  apply (Hab x s'); [|done|congruence]. rewrite app_assoc. apply last_snoc.
Qed.

(** What the loop has established about the tables it has passed: [best] is the
    longest run of at least [minTierSize], the first of that length. *)
Definition best_of (seen best : list (SSTable B)) : Prop :=
  (best = [] ∨ (one_tier best ∧ minTierSize ≤ length best ∧ ∃ pre post, seen = pre ++ best ++ post ∧
    ∀ pre' seg post', one_tier seg → length seg = length best → seen = pre' ++ seg ++ post' →
      length pre ≤ length pre')) ∧
  (∀ pre seg post, one_tier seg → minTierSize ≤ length seg → seen = pre ++ seg ++ post →
    length seg ≤ length best).

Lemma best_of_step seen best run :
  best_of seen best → tier_change seen run → one_tier run → run ≠ [] →
  best_of (seen ++ run) (if (minTierSize <=? length run) && (length best <? length run) then run else best).
Proof.
  intros [Hb Hmax] Hch Hrun Hne. unfold minTierSize in *.
  assert (∀ pre seg post, one_tier seg → 4 ≤ length seg → seen ++ run = pre ++ seg ++ post →
    length seg ≤ length best ∨ (length seen ≤ length pre ∧ length seg ≤ length run)) as Hseg.
  { intros pre seg post H1 H2 E. apply one_tier_split in E as [(post' & E)|(pre' & -> & ->)];
      [left; by eapply Hmax|right; rewrite !length_app; lia|done|done|intros ->; simpl in H2; lia]. }
  destruct ((4 <=? length run) && (length best <? length run)) eqn:Ec.
  - apply andb_true_iff in Ec as [E4%Nat.leb_le Eb%Nat.ltb_lt]. split.
    + right. split_and!; [done|done|]. exists seen, []. rewrite app_nil_r. split; [done|].
      intros pre seg post H1 H2 H3. destruct (Hseg pre seg post H1 ltac:(lia) H3) as [?|[? _]]; lia.
    + intros pre seg post H1 H2 H3. destruct (Hseg pre seg post H1 H2 H3); lia.
  - assert (4 ≤ length run → length run ≤ length best) as Hle.
    { intros H4. rewrite (proj2 (Nat.leb_le _ _) H4) in Ec. by apply Nat.ltb_ge in Ec. }
    split; [|intros pre seg post H1 H2 H3; unfold minTierSize in H2; destruct (Hseg pre seg post H1 H2 H3); lia].
    destruct Hb as [->|(H1 & H2 & pre & post & -> & Hfirst)]; [by left|]. right.
    split_and!; [done|done|]. exists pre, (post ++ run). rewrite <-!app_assoc. split; [done|].
    intros pre' seg post' Hs Hlen E. rewrite (app_assoc best), (app_assoc pre) in E.
    apply one_tier_split in E as [(post'' & E)|(pre'' & -> & _)];
      [by eapply Hfirst|rewrite !length_app; lia|done|done|intros ->; simpl in Hlen; lia].
Qed.

Lemma select_loop_spec fuel l best seen :
  length l ≤ fuel → best_of seen best → tier_change seen l →
  best_of (seen ++ l) (select_loop fuel l best).
Proof.
  revert l best seen. induction fuel as [|fuel IH]; intros l best seen Hf Hb Hch.
  { destruct l; [|simpl in Hf; lia]. by rewrite app_nil_r. }
  destruct l as [|s rest]; [by rewrite app_nil_r|]. cbn [select_loop].
  destruct (same_tier_spec (tierOf (Sstable.Size s)) rest) as [Hsame Hnext].
  set (n := same_tier (tierOf (Sstable.Size s)) rest) in *.
  assert (Forall (λ x, tier_of x = tier_of s) (take (S n) (s :: rest))) as Hrun by (by constructor).
  rewrite <-(take_drop (S n) (s :: rest)) at 1. rewrite app_assoc. apply IH.
  - rewrite length_drop. simpl in *. lia.
  - apply best_of_step; [done| |by eexists|done]. intros x y Hx [= <-]. by apply Hch.
  - intros x y Hx Hy. cbn [take drop] in *. apply Hnext in Hy.
    apply last_Some in Hx as [l' Hx].
    assert (x ∈ s :: take n rest) as Hin.
    { destruct (last (s :: take n rest)) as [z|] eqn:Ez; [|by apply last_None in Ez].
      apply last_Some in Ez as [l'' Ez]. rewrite Ez in *. rewrite app_assoc in Hx.
      apply app_inj_2 in Hx as [_ [= ->]]; [|done]. set_solver. }
    cbn [take] in Hrun. rewrite Forall_forall in Hrun. rewrite (Hrun x Hin). intros E. by apply Hy.
Qed.

Lemma SelectTier_best l : best_of l (SelectTierForCompaction l).
Proof.
  apply (select_loop_spec (length l) l [] []); [done| |done].
  split; [by left|]. intros pre seg post _ H4 E. unfold minTierSize in H4.
  destruct pre, seg; simpl in *; try done; lia.
Qed.
End select.

(** ** Merging *)

Lemma fmap_deref_canon (l : list itemptr) : deref <$> canon l = canon (deref <$> l).
Proof. exact (canon_map deref clock_deref l). Qed.

Lemma merge_entries_lookup entries m k :
  default [] (fold_left merge_entry entries m !! k) = MergeSiblings (default [] (m !! k)) (items_of k entries).
Proof.
  revert m. induction entries as [|e l IH]; intros m; [done|]. cbn [fold_left]. rewrite IH, items_of_cons.
  unfold merge_entry. rewrite lookup_insert. case_decide as Hk.
  - by subst k.
  - done.
Qed.

(** A map listed in key order, as entries. *)
Definition listed (m : gmap string (list itemptr)) : list Memtable.Entry :=
  sort_strings (fst <$> map_to_list m) ≫= λ k, Memtable.mkEntry k <$> default [] (m !! k).

Lemma sort_keys_sorted (m : gmap string (list itemptr)) :
  StronglySorted (λ k k', String.ltb k k' = true) (sort_strings (fst <$> map_to_list m)).
Proof.
  pose proof (sort_strings_sorted (fst <$> map_to_list m)) as Hs.
  assert (NoDup (sort_strings (fst <$> map_to_list m))) as Hnd
    by (rewrite sort_strings_perm; apply NoDup_fst_map_to_list).
  induction Hs as [|k l Hl IH Hx]; [constructor|]. inversion Hnd; subst. constructor; [by apply IH|].
  rewrite Forall_forall in Hx. rewrite Forall_forall. intros k' Hk'. apply ltb_spec.
  split; [by apply Hx|]. by intros ->.
Qed.

Lemma listed_pairs (m : gmap string (list itemptr)) :
  ∃ l, listed m = (l ≫= λ p, Memtable.mkEntry p.1 <$> p.2) ∧
    StronglySorted (λ p q, String.ltb p.1 q.1 = true) l ∧
    ∀ k items, (k, items) ∈ l ↔ m !! k = Some items.
Proof.
  exists ((λ k, (k, default [] (m !! k))) <$> sort_strings (fst <$> map_to_list m)). split_and!.
  - unfold listed. induction (sort_strings _) as [|k l IH]; [done|]. by rewrite fmap_cons, !bind_cons, IH.
  - induction (sort_keys_sorted m) as [|k l Hl IH Hx]; [constructor|]. rewrite fmap_cons.
    constructor; [done|]. rewrite Forall_forall in Hx. rewrite Forall_forall.
    intros p (k' & -> & Hk')%list_elem_of_fmap. by apply Hx.
  - intros k items. rewrite list_elem_of_fmap. setoid_rewrite sort_strings_elem.
    setoid_rewrite list_elem_of_fmap. split.
    + intros (k' & [= -> ->] & ([k'' i] & -> & Hin)). apply elem_of_map_to_list in Hin.
      cbn [fst]. by rewrite Hin.
    + intros Hm. exists k. rewrite Hm. split; [done|]. exists (k, items). split; [done|].
      by apply elem_of_map_to_list.
Qed.

Lemma listed_items m k : items_of k (listed m) = default [] (m !! k).
Proof.
  destruct (listed_pairs m) as (l & -> & Hs & Hin). destruct (m !! k) as [items|] eqn:E.
  - apply ascend_present; [done|]. by apply Hin.
  - apply ascend_absent. intros items Hk. apply Hin in Hk. congruence.
Qed.

Lemma listed_sorted m : entries_sorted (listed m).
Proof. destruct (listed_pairs m) as (l & -> & Hs & _). by apply ascend_sorted. Qed.

Section merge.
Context `{!JsonCodec value, !JsonCodec Sstable.record, !JsonCodec (list indexEntry)}.
Context {B : Type} `{!Bloom B}.

Lemma merge_loop_spec a d (sources : list (SSTable B)) ess m :
  Forall2 (table_holds d) sources ess →
  ∃ entries, merge_loop a d sources m = Ok (fold_left merge_entry entries m) ∧
    plain <$> entries = concat ess.
Proof.
  intros H. revert a m. induction H as [|src es sources ess Ht H IH]; intros a m; [by exists []|].
  cbn [merge_loop]. rewrite (All_spec a d src es Ht). cbn [res_bind].
  destruct (IH (a + N.of_nat (length (alloc a es)))%N (fold_left merge_entry (alloc a es) m))
    as (entries & -> & Hp).
  exists (alloc a es ++ entries). by rewrite fold_left_app, fmap_app, plain_alloc, Hp.
Qed.

(** What [Merge] returns: per key, the maximal versions of all the sources. *)
Lemma Merge_spec a d (sources : list (SSTable B)) ess :
  Forall2 (table_holds d) sources ess →
  ∃ entries, Merge a d sources = Ok entries ∧ entries_sorted entries ∧
    (∀ k, deref <$> items_of k entries = canon (versions k (concat ess))) ∧
    (∀ e, e ∈ entries → plain e ∈ concat ess).
Proof.
  intros H. destruct (merge_loop_spec a d sources ess ∅ H) as (all & Hm & Hp).
  exists (listed (fold_left merge_entry all ∅)).
  assert (∀ k, items_of k (listed (fold_left merge_entry all ∅)) = canon (items_of k all)) as Hit.
  { intros k. rewrite listed_items, merge_entries_lookup, lookup_empty. apply MergeSiblings_nil. }
  split_and!.
  - unfold Merge. by rewrite Hm.
  - apply listed_sorted.
  - intros k. by rewrite Hit, fmap_deref_canon, <-versions_items_of, Hp.
  - intros [k i] He. rewrite <-Hp. apply list_elem_of_fmap. exists (Memtable.mkEntry k i).
    split; [done|]. apply items_of_elem. apply canon_subset. rewrite <-Hit. by apply items_of_elem.
Qed.
End merge.

Lemma versions_concat k ess : versions k (concat ess) = concat (versions k <$> ess).
Proof.
  induction ess as [|es ess IH]; [done|]. rewrite fmap_cons. cbn [concat]. by rewrite versions_app, IH.
Qed.

(** ** Results *)

(** Which run is compacted.  The result is a contiguous run of the
    tables, all of one size tier, at least [minTierSize] long, and no run of
    adjacent tables of one tier that is long enough is longer, nor is one of
    the same length newer; it is empty only if no run qualifies.  A tier holds
    sizes within a factor of ten: tier 0 is below 1000, tier [t] from 100*10^t
    up to 1000*10^t. *)
Theorem selected_run {B : Type} (l : list (SSTable B)) (size : Z) :
  let run := SelectTierForCompaction l in
  (run = [] ∨
   one_tier run ∧ minTierSize ≤ length run ∧
   ∃ newer older, l = newer ++ run ++ older ∧
     ∀ pre seg post, one_tier seg → length seg = length run → l = pre ++ seg ++ post →
       length newer ≤ length pre) ∧
  (∀ pre seg post, one_tier seg → minTierSize ≤ length seg → l = pre ++ seg ++ post →
     length seg ≤ length run) ∧
  ((0 ≤ size)%Z → (size < 1000 * 10 ^ Z.of_nat (tierOf size))%Z ∧
     (0 < tierOf size → (100 * 10 ^ Z.of_nat (tierOf size) ≤ size)%Z)).
Proof.
  cbv zeta. destruct (SelectTier_best l) as [H1 H2]. split; [exact H1|]. split; [exact H2|].
  apply tierOf_spec.
Qed.

Section results.
Context `{!JsonCodec value, !JsonCodec Sstable.record, !JsonCodec (list indexEntry)}.
Context {B : Type} `{!Bloom B}.

(** A compacted run reads as the run did.  [Merge] of tables that hold
    [ess] succeeds, its entries are sorted by key, hold nothing that was not
    in the sources, and folding, for any key, newer layers, the merged
    table's versions and then older layers gives exactly what folding the
    newer layers, every source in turn and the older layers gives: the same
    versions in the same order. *)
Theorem merge_reads_as_run (a : N) (d : sst_dir) (sources : list (SSTable B))
    (ess : list (list (string * DataItem))) :
  Forall2 (table_holds d) sources ess →
  ∃ entries, Merge a d sources = Ok entries ∧ is_sorted entries = true ∧
    (∀ e, e ∈ entries → plain e ∈ concat ess) ∧
    ∀ key (newer older : list (list DataItem)),
      fold_left MergeSiblings (newer ++ [deref <$> items_of key entries] ++ older) [] =
      fold_left MergeSiblings (newer ++ (versions key <$> ess) ++ older) [].
Proof.
  intros H. destruct (Merge_spec a d sources ess H) as (entries & Hm & Hs & Hk & Hin).
  exists entries. split_and!; [done|by apply sorted_is_sorted|done|]. intros key newer older.
  rewrite !fold_layers_nil, !concat_app. cbn [concat]. rewrite Hk, versions_concat, app_nil_r. apply canon_absorb.
Qed.
End results.

(** ** Witnesses *)

Section witnesses.
#[local] Existing Instance toy_value_json.
#[local] Existing Instance toy_sst_json.
#[local] Existing Instance toy_index_json.
#[local] Existing Instance set_bloom.
#[local] Existing Instance set_bloom_spec.
#[local] Instance toy_value_rt : JsonRoundTrip value value_ok := countable_codec_roundtrip value value_ok.
#[local] Instance toy_sst_rt : JsonRoundTrip Sstable.record Sstable.record_ok :=
  countable_codec_roundtrip Sstable.record Sstable.record_ok.
#[local] Instance toy_index_rt : JsonRoundTrip (list indexEntry) index_ok :=
  countable_codec_roundtrip (list indexEntry) index_ok.

Definition sized (n : Z) : SSTable (gset string) := mkSST "" "" "" "" n [] ∅.

(** Two adjacent runs of four: the newer one is chosen. *)
Lemma selected_run_witness :
  (500 < 1000 * 10 ^ Z.of_nat (tierOf 500))%Z ∧
  SelectTierForCompaction (sized <$> [5000; 10; 20; 30; 999; 2000; 3000; 4000; 9999; 10]%Z) =
    sized <$> [10; 20; 30; 999]%Z.
Proof.
  split; [|reflexivity].
  apply (selected_run (sized <$> [5000; 10]%Z) 500). lia.
Defined.

Lemma written_table :
  ∃ d (s : SSTable (gset string)), WriteWithID sio_fine ∅ "sst_1" sst_entries = (d, Ok s) ∧
    table_holds d s (plain <$> sst_entries).
Proof.
  destruct (WriteWithID_succeeds (B := gset string) ∅ "sst_1" sst_entries) as (d & s & Hw).
  - discriminate.
  - reflexivity.
  - discriminate.
  - apply sst_entries_sorted.
  - apply Forall_forall. intros e _. apply sst_encodes.
  - intros ix. by eexists.
  - exists d, s. split; [done|]. apply (WriteWithID_holds sio_fine ∅ "sst_1" _ _ s sst_entries_ok Hw).
    assert ((Size (match (WriteWithID (B := gset string) sio_fine ∅ "sst_1" sst_entries).2 with
      Ok t => t | Err _ => sized 0 end) <? two63)%Z = true) as Hz by (vm_cast_no_check (eq_refl true)).
    rewrite Hw in Hz. by apply Z.ltb_lt.
Qed.

Lemma merge_reads_as_run_witness :
  ∃ d (s : SSTable (gset string)) entries, Merge 10 d [s; s] = Ok entries ∧
    fold_left MergeSiblings [deref <$> items_of "a" entries] [] =
    fold_left MergeSiblings [versions "a" (plain <$> sst_entries); versions "a" (plain <$> sst_entries)] [].
Proof.
  destruct written_table as (d & s & _ & Ht). exists d, s.
  destruct (merge_reads_as_run 10 d [s; s] [plain <$> sst_entries; plain <$> sst_entries]) as (entries & Hm & _ & _ & H).
  - constructor; [exact Ht|]. constructor; [exact Ht|constructor].
  - exists entries. split; [exact Hm|]. apply (H "a" [] []).
Defined.
End witnesses.
