(* ===== verification/Engine.v ===== *)
(** * The storage engine (internal/storage/engine/engine.go, write.go)

    The engine over the memtable, the segmented log, the manifest and the
    SSTables: writes (encoding, batching, commit, halting), the swap of a full
    memtable and its background flush, compaction, reads and recovery.  This
    file holds the operations and what they do one by one; [EngineSteps] puts
    them in a step relation. *)

From stdpp Require Import gmap strings list sorting pretty.
From Stdlib Require Import ZArith Lia Ascii.
From S2P Require Import Prelude GoLib VectorClock Versioning Json Memtable Wal WalLog Manifest Sstable Compaction.

(** ** State *)

Definition maxBatchRecords : nat := 1000.
Definition maxBatchBytes : N := N.shiftl 1 20.

Inductive error :=
  | ErrWritesHalted (cause : log_error)
  | ErrClosed
  | ErrEncode (key : string) (e : Wal.error)
  | ErrWal (restore : bool) (key : string) (e : log_error)
  | ErrVerify (key : string) (e : Sstable.error)
  | ErrRestoreIncomplete (key : string)
  | ErrReadTable (path : string) (e : Sstable.error)
  | ErrMergeTables (e : Sstable.error)
  | ErrWriteTable (e : Sstable.error)
  | ErrRegister (id : string) (e : Manifest.error)
  | ErrUnregister (e : Manifest.error)
  | ErrNotContiguous
  | ErrOpenWal (e : log_error)
  | ErrOpenManifest (e : Manifest.error)
  | ErrOpenTable (id : string) (e : Sstable.error).

Record counters := mkCnt { writes : N; flushes : N; flushFailures : N; compactions : N; compactionFailures : N }.

(** One write on its way to the log: its entry and the record made of it. *)
Record writeReq := mkReq { req_entry : Wal.Entry; req_record : bytes }.

Section engine.
Context {T : Type} `{!BTree (list itemptr) T}.
Context {B : Type} `{!Bloom B}.
Context `{!JsonCodec value, !JsonCodec Wal.record, !JsonCodec Sstable.record, !JsonCodec (list indexEntry)}.

(** The layers a read folds; tables are newest first. *)
Record layers := mkLayers {
  active : MemTable T;
  flushing : option (MemTable T);
  sstables : list (SSTable B)
}.

(** [d_wal] and [d_sst] are the log's and the tables' files of the data
    directory; the manifest has its own. *)
Record StorageEngine := mkEngine {
  ly : layers;
  wal : Log;
  d_wal : dir;
  manifest : Manifest;
  d_sst : sst_dir;
  maxBytes : Z;
  halted : option log_error;
  writesClosed : bool;
  closed : bool;
  cnt : counters
}.

Definition set_layers (e : StorageEngine) (l : layers) : StorageEngine :=
  mkEngine l (wal e) (d_wal e) (manifest e) (d_sst e) (maxBytes e) (halted e) (writesClosed e) (closed e) (cnt e).
Definition set_log (e : StorageEngine) (w : Log) (d : dir) : StorageEngine :=
  mkEngine (ly e) w d (manifest e) (d_sst e) (maxBytes e) (halted e) (writesClosed e) (closed e) (cnt e).
Definition set_tables (e : StorageEngine) (m : Manifest) (d : sst_dir) : StorageEngine :=
  mkEngine (ly e) (wal e) (d_wal e) m d (maxBytes e) (halted e) (writesClosed e) (closed e) (cnt e).
Definition set_halted (e : StorageEngine) (h : option log_error) : StorageEngine :=
  mkEngine (ly e) (wal e) (d_wal e) (manifest e) (d_sst e) (maxBytes e) h (writesClosed e) (closed e) (cnt e).
Definition set_cnt (e : StorageEngine) (c : counters) : StorageEngine :=
  mkEngine (ly e) (wal e) (d_wal e) (manifest e) (d_sst e) (maxBytes e) (halted e) (writesClosed e) (closed e) c.
Definition set_closed (e : StorageEngine) (w c : bool) : StorageEngine :=
  mkEngine (ly e) (wal e) (d_wal e) (manifest e) (d_sst e) (maxBytes e) (halted e) w c (cnt e).

(** ** Reads *)

(** The loop of [mergeLayers] over the tables; items read from a file are
    allocated from [a]. *)
Fixpoint merge_tables (a : N) (d : sst_dir) (key : string) (tables : list (SSTable B)) (merged : list itemptr)
    : res error (list itemptr) :=
  match tables with
  | [] => Ok merged
  | sst :: rest =>
      match Sstable.GetAll a d sst key with
      | Err err => Err (ErrReadTable (Path sst) err)
      | Ok None => merge_tables a d key rest merged
      | Ok (Some items) =>
          merge_tables (a + N.of_nat (length items)) d key rest (MergeSiblings merged items)
      end
  end.

Definition merge_found (merged : list itemptr) (found : option (list itemptr)) : list itemptr :=
  match found with Some items => MergeSiblings merged items | None => merged end.

Definition mergeLayers (a : N) (d : sst_dir) (key : string) (l : layers) : res error (list itemptr * bool) :=
  let merged := merge_found [] (Memtable.GetAll (active l) key) in
  let merged := match flushing l with
                | Some f => merge_found merged (Memtable.GetAll f key)
                | None => merged
                end in
  merged ←? merge_tables a d key (sstables l) merged;
  Ok (merged, match merged with [] => false | _ => true end).

Definition GetAll (a : N) (e : StorageEngine) (key : string) : res error (list itemptr * bool) :=
  mergeLayers a (d_sst e) key (ly e).

(** Every distinct key of any layer, sorted. *)
Definition Keys (e : StorageEngine) : list string :=
  let add (seen : gset string) (keys : list string) := fold_left (λ s k, {[k]} ∪ s) keys seen in
  let seen := add ∅ (Memtable.Keys (active (ly e))) in
  let seen := match flushing (ly e) with Some f => add seen (Memtable.Keys f) | None => seen end in
  let seen := fold_left (λ s sst, add s (Sstable.Keys sst)) (sstables (ly e)) seen in
  sort_strings (elements seen).

(** ** Writes *)

(** Identity of pointers, in order. *)
Fixpoint sameVersions (a b : list itemptr) : bool :=
  match a, b with
  | [], [] => true
  | p :: a', q :: b' => ptr_eqb p q && sameVersions a' b'
  | _, _ => false
  end.

(** The caller's store after [Replace], and the verification's result. *)
Definition replaceAndVerify (a : N) (d : sst_dir) (l : layers) (key : string) (items : list itemptr)
    : layers * option error :=
  let l' := mkLayers (Replace (active l) key items) (flushing l) (sstables l) in
  match mergeLayers a d key l' with
  | Err (ErrReadTable _ err) => (l', Some (ErrVerify key err))
  | Err err => (l', Some err)
  | Ok (visible, _) =>
      if sameVersions visible items then (l', None) else (l', Some (ErrRestoreIncomplete key))
  end.

(** The loop of [apply]: the requests' errors in order, and whether a put
    crossed the threshold. *)
Fixpoint apply_loop (a : N) (d : sst_dir) (l : layers) (batch : list writeReq) (crossed : bool)
    : layers * list (option error) * bool :=
  match batch with
  | [] => (l, [], crossed)
  | req :: rest =>
      let entry := req_entry req in
      if (Op entry =? OpRestore)%N then
        let '(l', err) := replaceAndVerify a d l (Wal.Key entry) (Items entry) in
        let '(l'', errs, crossed') := apply_loop a d l' rest crossed in
        (l'', err :: errs, crossed')
      else
        match Wal.Item entry with
        | None => let '(l'', errs, crossed') := apply_loop a d l rest crossed in (l'', None :: errs, crossed')
        | Some item =>
            let '(m, full) := Memtable.Put (active l) (Wal.Key entry) item in
            let '(l'', errs, crossed') :=
              apply_loop a d (mkLayers m (flushing l) (sstables l)) rest (crossed || full) in
            (l'', None :: errs, crossed')
        end
  end.

Definition apply (a : N) (d : sst_dir) (l : layers) (batch : list writeReq) : layers * list (option error) * bool :=
  let '(l', errs, crossed) := apply_loop a d l batch false in
  (l', errs, crossed && match flushing l' with None => true | Some _ => false end).

(** [swap]: the frozen table and the sealed segment, for the flush it starts. *)
Definition swap (io : log_io) (e : StorageEngine) : StorageEngine * option (MemTable T * N) :=
  match Rotate io (d_wal e) (wal e) with
  | (d, l, (_, Some _)) => (set_log e l d, None)
  | (d, l, (n, None)) =>
      let frozen := active (ly e) in
      (set_layers (set_log e l d) (mkLayers (Memtable.New (maxBytes e)) (Some frozen) (sstables (ly e))),
       Some (frozen, n))
  end.

Definition halt (e : StorageEngine) (cause : log_error) : StorageEngine :=
  match halted e with Some _ => e | None => set_halted e (Some cause) end.

Definition haltErr (e : StorageEngine) : option error := ErrWritesHalted <$> halted e.

Definition walError (entry : Wal.Entry) (err : log_error) : error :=
  ErrWal (Op entry =? OpRestore)%N (Wal.Key entry) err.

(** [commit] of a batch: the engine, each request's error, and the flush it
    started, if any. *)
Definition commit (iow ior : log_io) (a : N) (e : StorageEngine) (batch : list writeReq)
    : StorageEngine * list (option error) * option (MemTable T * N) :=
  match haltErr e with
  | Some err => (e, (λ _, Some err) <$> batch, None)
  | None =>
      match log_WriteBatch iow (d_wal e) (wal e) (req_record <$> batch) with
      | (d, Some err) =>
          (halt (set_log e (wal e) d) err, (λ r, Some (walError (req_entry r) err)) <$> batch, None)
      | (d, None) =>
          let c := cnt e in
          let e := set_cnt (set_log e (wal e) d)
                     (mkCnt (u64 (writes c + N.of_nat (length batch))) (flushes c) (flushFailures c)
                        (compactions c) (compactionFailures c)) in
          let '(l, errs, crossed) := apply a (d_sst e) (ly e) batch in
          let e := set_layers e l in
          if crossed then let '(e, flush) := swap ior e in (e, errs, flush)
          else (e, errs, None)
      end
  end.

(** A write up to its hand-over: its request, or the error it returns at once. *)
Definition prepare (e : StorageEngine) (entry : Wal.Entry) : res error writeReq :=
  match haltErr e with
  | Some err => Err err
  | None =>
      match Encode entry with
      | Err err => Err (ErrEncode (Wal.Key entry) err)
      | Ok record => if writesClosed e then Err ErrClosed else Ok (mkReq entry record)
      end
  end.

(** [write] without group commit: the request is a batch of its own. *)
Definition write (iow ior : log_io) (a : N) (e : StorageEngine) (entry : Wal.Entry)
    : StorageEngine * option error * option (MemTable T * N) :=
  match prepare e entry with
  | Err err => (e, Some err, None)
  | Ok req =>
      let '(e', errs, flush) := commit iow ior a e [req] in
      (e', default None (head errs), flush)
  end.

Definition Put (iow ior : log_io) (a : N) (e : StorageEngine) (key : string) (item : itemptr) :=
  write iow ior a e (put_entry key item).
Definition Restore (iow ior : log_io) (a : N) (e : StorageEngine) (key : string) (items : list itemptr) :=
  write iow ior a e (restore_entry key items).

(** *** The committer *)

(** The [fill] loop: [batch] holds at least the first request, [queue] what
    is queued; what is left is the carried request and the queue behind it. *)
Fixpoint fill (batch : list writeReq) (size : N) (queue : list writeReq) : list writeReq * list writeReq :=
  match queue with
  | [] => (batch, [])
  | req :: rest =>
      if length batch <? maxBatchRecords then
        let n := N.of_nat (length (req_record req)) in
        if (maxBatchBytes <? size + n)%N then (batch, req :: rest)
        else fill (batch ++ [req]) (size + n) rest
      else (batch, req :: rest)
  end.

(** The batches the committer forms of a queue. *)
Fixpoint batches (fuel : nat) (queue : list writeReq) : list (list writeReq) :=
  match fuel, queue with
  | S fuel', first :: rest =>
      let '(batch, rest') := fill [first] (N.of_nat (length (req_record first))) rest in
      batch :: batches fuel' rest'
  | _, _ => []
  end.

(** ** Flush *)

(** [sstable.Write] at the clock reading [now], then [manifest.Add]. *)
Definition writeAndRegister (sio : sst_io) (mio : write_io) (now : N) (e : StorageEngine)
    (entries : list Memtable.Entry) : StorageEngine * res error (SSTable B) :=
  match WriteWithID sio (d_sst e) ("sst_" +:+ pretty now) entries with
  | (d, Err err) => (set_tables e (manifest e) d, Err (ErrWriteTable err))
  | (d, Ok sst) =>
      match Add mio (manifest e) (ID sst) with
      | (m, Some err) => (set_tables e m d, Err (ErrRegister (ID sst) err))
      | (m, None) => (set_tables e m d, Ok sst)
      end
  end.

(** The step of [flush] under [e.mu]: the table takes the frozen memtable's
    place, or its versions go back behind the active ones. *)
Definition flush_install (e : StorageEngine) (frozen : MemTable T) (r : res error (SSTable B)) : StorageEngine :=
  let l := ly e in
  let c := cnt e in
  match r with
  | Err _ =>
      set_cnt (set_layers e (mkLayers (PutBackOlder (active l) (Snapshot frozen)) None (sstables l)))
        (mkCnt (writes c) (flushes c) (u64 (flushFailures c + 1)) (compactions c) (compactionFailures c))
  | Ok sst =>
      set_cnt (set_layers e (mkLayers (active l) None (sst :: sstables l)))
        (mkCnt (writes c) (u64 (flushes c + 1)) (flushFailures c) (compactions c) (compactionFailures c))
  end.

(** The last step of a flush that succeeded; its error is dropped. *)
Definition flush_delete (io : log_io) (e : StorageEngine) (sealedSeg : N) : StorageEngine :=
  let '(d, l, _) := DeleteThrough io (d_wal e) (wal e) sealedSeg in set_log e l d.

Definition flush (sio : sst_io) (mio : write_io) (io : log_io) (now : N) (e : StorageEngine)
    (frozen : MemTable T) (sealedSeg : N) : StorageEngine :=
  let '(e, r) := writeAndRegister sio mio now e (Snapshot frozen) in
  let e := flush_install e frozen r in
  match r with Ok _ => flush_delete io e sealedSeg | Err _ => e end.

(** ** Compaction *)

(** [compactedID]: suffixes until the name is free; as many as there are
    files are enough. *)
Fixpoint compacted_loop (fuel : nat) (d : sst_dir) (id : string) : string :=
  match fuel with
  | O => id
  | S fuel' =>
      match d !! sst_name id with
      | None => id
      | Some _ => compacted_loop fuel' d (id +:+ "_c")
      end
  end.
Definition compactedID (d : sst_dir) (newestSourceID : string) : string :=
  compacted_loop (S (size d)) d (newestSourceID +:+ "_c").

(** Identity of tables: the live tables of an engine have distinct IDs. *)
Definition same_table (s t : SSTable B) : bool := bool_decide (ID s = ID t).

Fixpoint starts_with (l run : list (SSTable B)) : option (list (SSTable B)) :=
  match run, l with
  | [], _ => Some l
  | r :: run', s :: l' => if same_table s r then starts_with l' run' else None
  | _ :: _, [] => None
  end.

(** [before] is the part of the slice already passed. *)
Fixpoint replace_loop (before l run : list (SSTable B)) (merged : SSTable B) : option (list (SSTable B)) :=
  match l with
  | [] => None
  | s :: rest =>
      match run with
      | r :: _ =>
          if same_table s r then
            match starts_with l run with
            | Some after => Some (before ++ merged :: after)
            | None => None
            end
          else replace_loop (before ++ [s]) rest run merged
      | [] => None
      end
  end.
Definition replaceRun (tables run : list (SSTable B)) (merged : SSTable B) : option (list (SSTable B)) :=
  replace_loop [] tables run merged.

Record compact_io := mkCIO { c_sst : sst_io; c_add : write_io; c_remove : write_io; c_unlink : string → bool }.

(** [compactLocked] up to the manifest's [Remove]: [Ok None] if there is
    nothing to compact, otherwise the run and the table that replaces it. *)
Definition compact_write (io : compact_io) (a : N) (e : StorageEngine)
    : StorageEngine * res error (option (list (SSTable B) * SSTable B)) :=
  match SelectTierForCompaction (sstables (ly e)) with
  | [] => (e, Ok None)
  | (newest :: _) as sources =>
      match Merge a (d_sst e) sources with
      | Err err => (e, Err (ErrMergeTables err))
      | Ok entries =>
          match WriteWithID (c_sst io) (d_sst e) (compactedID (d_sst e) (ID newest)) entries with
          | (d, Err err) => (set_tables e (manifest e) d, Err (ErrWriteTable err))
          | (d, Ok merged) =>
              match Add (c_add io) (manifest e) (ID merged) with
              | (m, Some err) =>
                  let d := if c_unlink io (Path merged) then delete (Path merged) d else d in
                  (set_tables e m d, Err (ErrRegister (ID merged) err))
              | (m, None) =>
                  match Remove (c_remove io) m (ID <$> sources) with
                  | (m, Some err) => (set_tables e m d, Err (ErrUnregister err))
                  | (m, None) => (set_tables e m d, Ok (Some (sources, merged)))
                  end
              end
          end
      end
  end.

Definition unlink_all (io : compact_io) (sources : list (SSTable B)) (d : sst_dir) : sst_dir :=
  fold_left (λ d src, if c_unlink io (Path src) then delete (Path src) d else d) sources d.

(** The rest of it: the swap in memory, then the files. *)
Definition compact_install (io : compact_io) (e : StorageEngine) (sources : list (SSTable B)) (merged : SSTable B)
    : StorageEngine * option error :=
  let l := ly e in
  match replaceRun (sstables l) sources merged with
  | None => (e, Some ErrNotContiguous)
  | Some swapped =>
      let e := set_layers e (mkLayers (active l) (flushing l) swapped) in
      (set_tables e (manifest e) (unlink_all io sources (d_sst e)), None)
  end.

Definition compactLocked (io : compact_io) (a : N) (e : StorageEngine) : StorageEngine * res error bool :=
  match compact_write io a e with
  | (e, Err err) => (e, Err err)
  | (e, Ok None) => (e, Ok false)
  | (e, Ok (Some (sources, merged))) =>
      match compact_install io e sources merged with
      | (e, Some err) => (e, Err err)
      | (e, None) => (e, Ok true)
      end
  end.

Definition Compact (io : compact_io) (a : N) (e : StorageEngine) : StorageEngine * option error :=
  if closed e then (e, None)
  else
    let '(e, r) := compactLocked io a e in
    let c := cnt e in
    match r with
    | Err err => (set_cnt e (mkCnt (writes c) (flushes c) (flushFailures c) (compactions c)
                               (u64 (compactionFailures c + 1))), Some err)
    | Ok true => (set_cnt e (mkCnt (writes c) (flushes c) (flushFailures c) (u64 (compactions c + 1))
                                (compactionFailures c)), None)
    | Ok false => (e, None)
    end.

(** ** Opening and closing *)

Definition replay_entry (m : MemTable T) (entry : Wal.Entry) : MemTable T :=
  if (Op entry =? OpRestore)%N then Replace m (Wal.Key entry) (Items entry)
  else match Wal.Item entry with
       | Some item => (Memtable.Put m (Wal.Key entry) item).1
       | None => m
       end.

(** [loadLiveSSTables]: the live IDs, newest first. *)
Fixpoint load_loop (d : sst_dir) (ids : list string) : res error (list (SSTable B)) :=
  match ids with
  | [] => Ok []
  | id :: rest =>
      match Sstable.Open d (sst_name id) with
      | Err err => Err (ErrOpenTable id err)
      | Ok sst => ssts ←? load_loop d rest; Ok (sst :: ssts)
      end
  end.
Definition loadLiveSSTables (m : Manifest) (d : sst_dir) : res error (list (SSTable B)) :=
  load_loop d (rev (sort_strings (LiveIDs m))).

(** The files of a data directory. *)
Record data_dir := mkDir { dd_wal : dir; dd_manifest : option file; dd_sst : sst_dir }.

Definition Open (io : log_io) (oio : open_io) (a : N) (d : data_dir) (max : Z)
    : data_dir * res error StorageEngine :=
  match OpenLog io a (dd_wal d) with
  | (dw, Err err) => (mkDir dw (dd_manifest d) (dd_sst d), Err (ErrOpenWal err))
  | (dw, Ok (w, entries)) =>
      match Manifest.Open oio (dd_manifest d) with
      | (fm, Err err) => (mkDir dw fm (dd_sst d), Err (ErrOpenManifest err))
      | (fm, Ok mf) =>
          let m := fold_left replay_entry entries (Memtable.New max) in
          match loadLiveSSTables mf (dd_sst d) with
          | Err err => (mkDir dw fm (dd_sst d), Err err)
          | Ok ssts =>
              (mkDir dw fm (dd_sst d),
               Ok (mkEngine (mkLayers m None ssts) w dw mf (dd_sst d) max None false false (mkCnt 0 0 0 0 0)))
          end
      end
  end.

(** What [Close] changes: writes are refused, and compaction does nothing. *)
Definition Close (e : StorageEngine) : StorageEngine := set_closed e true true.

Record EngineStats := mkStats { st_MemtableBytes : Z; st_SSTables : nat; st_counters : counters; st_WritesHalted : bool }.
Definition Stats (e : StorageEngine) : EngineStats :=
  mkStats (Memtable.Size (active (ly e)) +
           match flushing (ly e) with Some f => Memtable.Size f | None => 0 end)
    (length (sstables (ly e))) (cnt e) (bool_decide (is_Some (halted e))).
End engine.

Arguments layers T B : clear implicits.
Arguments StorageEngine T B : clear implicits.

(** ** Reads *)

Lemma fmap_deref_Merge (a b : list itemptr) :
  deref <$> MergeSiblings a b = MergeSiblings (deref <$> a) (deref <$> b).
Proof. exact (MergeSiblings_map deref clock_deref a b). Qed.

Section reads.
Context {T : Type} `{!BTree (list itemptr) T} `{!BTreeSpec (list itemptr) T}.
Context {B : Type} `{!Bloom B}.
Context `{!JsonCodec value, !JsonCodec Wal.record, !JsonCodec Sstable.record, !JsonCodec (list indexEntry)}.
Implicit Types (l : layers T B) (ess : list (list (string * DataItem))).

Lemma merge_tables_spec a d key tables ess merged :
  Forall2 (table_holds d) tables ess →
  ∃ items, merge_tables a d key tables merged = Ok items ∧
    (deref <$> items) = fold_left MergeSiblings (versions key <$> ess) (deref <$> merged) ∧
    (∀ i, i ∈ items → i ∈ merged ∨ (a ≤ addr i)%N ∧ deref i ∈ concat (versions key <$> ess)).
Proof.
  intros H. revert a merged. induction H as [|s es tables ess Ht H IH]; intros a merged.
  { exists merged. simpl. split_and!; try done. tauto. }
  cbn [merge_tables]. rewrite (GetAll_spec a d s es key Ht), fmap_cons.
  destruct (sst_GetAll_contents a d s es key Ht) as (items & Hg & Hc).
  rewrite (GetAll_spec a d s es key Ht) in Hg. set (new := Memtable.Item <$> alloc a _) in *.
  assert (∀ i, i ∈ new → (a ≤ addr i)%N) as Ha.
  { unfold new. intros i (e & -> & He)%list_elem_of_fmap. clear -He. revert a He.
    induction (run _ _) as [|p l IHl]; intros a; cbn [alloc]; [set_solver|].
    intros [->|He]%elem_of_cons; [simpl; lia|]. apply IHl in He. lia. }
  destruct (versions key es) as [|v vs] eqn:Ev.
  - destruct (IH a merged) as (out & -> & H1 & H2). exists out. cbn [fold_left concat app]. split_and!; try done.
  - injection Hg as Hg. rewrite Hg in *. clear Hg.
    destruct (IH (a + N.of_nat (length items))%N (MergeSiblings merged items)) as (out & -> & H1 & H2).
    exists out. rewrite H1, fmap_deref_Merge, Hc. split_and!; [done|done|]. intros i Hi.
    cbn [concat]. destruct (H2 i Hi) as [Hin|[? ?]]; [|right; split; [lia|set_solver]].
    assert (i ∈ merged ∨ i ∈ items) as [?|Hit]; [|by left|].
    { clear -Hin. revert merged Hin. unfold MergeSiblings.
      induction items as [|x items IHi]; intros m; cbn [fold_left]; [by left|].
      intros [Hr|?]%IHi; [|right; set_solver]. apply Resolve_elem in Hr as [?| ->]; [by left|right; set_solver]. }
    right. split; [by apply Ha|]. apply elem_of_app. left. rewrite <-Hc. by apply list_elem_of_fmap_2.
Qed.

(** The contents of the memory layers for a key. *)
Definition mem_items l key : list itemptr :=
  Memtable.current (active l) key ++ from_option (λ f, Memtable.current f key) [] (flushing l).

Definition layers_ok l : Prop :=
  mt_ok (active l) ∧ from_option mt_ok True (flushing l).

(** What a read sees: the maximal versions of all the layers, newest first. *)
Definition visible l ess key : list DataItem :=
  canon ((deref <$> mem_items l key) ++ concat (versions key <$> ess)).

Lemma merge_found_canon acc m key :
  mt_ok m → merge_found (canon acc) (Memtable.GetAll m key) = canon (acc ++ Memtable.current m key).
Proof.
  intros Hm. unfold merge_found, Memtable.GetAll. pose proof (canon_absorb [] acc (Memtable.current m key)) as E.
  simpl in E. rewrite <-E. destruct (Memtable.current m key) as [|i is'] eqn:Ec.
  - by rewrite app_nil_r, canon_canon.
  - apply MergeSiblings_canon, canon_is_antichain.
Qed.

Lemma mergeLayers_mem a d key l :
  layers_ok l →
  mergeLayers a d key l =
    (merged ←? merge_tables a d key (sstables l) (canon (mem_items l key));
     Ok (merged, match merged with [] => false | _ => true end)).
Proof.
  intros [Ha Hf]. unfold mergeLayers, mem_items.
  change ([] : list itemptr) with (canon ([] : list itemptr)) at 1 2.
  destruct (flushing l) as [f|]; simpl in Hf; rewrite merge_found_canon by done.
  - rewrite merge_found_canon by done. done.
  - simpl. by rewrite app_nil_r.
Qed.

Lemma mergeLayers_run a d key l ess :
  layers_ok l → Forall2 (table_holds d) (sstables l) ess →
  ∃ items, mergeLayers a d key l = Ok (items, match items with [] => false | _ => true end) ∧
    (deref <$> items) = visible l ess key ∧
    (∀ i, i ∈ items → i ∈ canon (mem_items l key) ∨ (a ≤ addr i)%N ∧ deref i ∈ concat (versions key <$> ess)).
Proof.
  intros Hl Ht. rewrite mergeLayers_mem by done.
  destruct (merge_tables_spec a d key _ _ (canon (mem_items l key)) Ht) as (items & -> & Hd & Hel).
  exists items. split_and!; [done| |done]. rewrite Hd. unfold visible.
  rewrite fmap_deref_canon. by rewrite fold_layers.
Qed.

Lemma mergeLayers_spec a d key l ess :
  layers_ok l → Forall2 (table_holds d) (sstables l) ess →
  ∃ items found, mergeLayers a d key l = Ok (items, found) ∧ (deref <$> items) = visible l ess key ∧
    (found = true ↔ visible l ess key ≠ []).
Proof.
  intros Hl Ht. destruct (mergeLayers_run a d key l ess Hl Ht) as (items & Hm & Hv & _).
  exists items, (match items with [] => false | _ => true end). split_and!; [done..|].
  rewrite <-Hv. destruct items; naive_solver.
Qed.
End reads.

(** ** Batches *)

Definition batch_bytes (b : list writeReq) : N := foldr (λ r n, N.of_nat (length (req_record r)) + n)%N 0%N b.

Lemma batch_bytes_snoc b r : batch_bytes (b ++ [r]) = (batch_bytes b + N.of_nat (length (req_record r)))%N.
Proof. unfold batch_bytes. induction b as [|x b IH]; simpl; lia. Qed.

(** A batch within its limits: a record over the byte limit is alone. *)
Definition batch_ok (b : list writeReq) : Prop :=
  1 ≤ length b ≤ maxBatchRecords ∧ (length b = 1 ∨ (batch_bytes b ≤ maxBatchBytes)%N).

Lemma fill_spec queue batch :
  batch_ok batch →
  let '(b, rest) := fill batch (batch_bytes batch) queue in
  batch_ok b ∧ b ++ rest = batch ++ queue ∧ length rest ≤ length queue.
Proof.
  revert batch. induction queue as [|req queue IH]; intros batch Hb; cbn [fill]; [done|].
  destruct (Nat.ltb_spec (length batch) maxBatchRecords) as [Hlt|]; [|done].
  destruct (N.ltb_spec maxBatchBytes (batch_bytes batch + N.of_nat (length (req_record req)))) as [|Hle]; [done|].
  rewrite <-batch_bytes_snoc. specialize (IH (batch ++ [req])).
  destruct (fill _ _ queue) as [b rest]. destruct IH as (H1 & H2 & H3).
  - split; [rewrite length_app; simpl; lia|]. right. by rewrite batch_bytes_snoc.
  - split_and!; [done|by rewrite H2, <-app_assoc|simpl; lia].
Qed.

Lemma batches_spec fuel queue :
  length queue ≤ fuel → Forall batch_ok (batches fuel queue) ∧ concat (batches fuel queue) = queue.
Proof.
  revert queue. induction fuel as [|fuel IH]; intros [|first rest] Hl; simpl in Hl; try lia;
    [by split; [constructor|]..|]. cbn [batches].
  assert (batch_ok [first]) as H1 by (split; [unfold maxBatchRecords; simpl; lia|by left]).
  pose proof (fill_spec rest [first] H1) as Hf. unfold batch_bytes in Hf at 1. simpl foldr in Hf.
  rewrite N.add_0_r in Hf. destruct (fill _ _ rest) as [b rest']. destruct Hf as (Hb & E & Hr).
  destruct (IH rest') as [H2 H3]; [lia|]. split; [by constructor|]. cbn [concat]. by rewrite H3, E.
Qed.

(** ** Restores *)

Section restore.
Context {T : Type} `{!BTree (list itemptr) T} `{!BTreeSpec (list itemptr) T}.
Context {B : Type} `{!Bloom B}.
Context `{!JsonCodec value, !JsonCodec Wal.record, !JsonCodec Sstable.record, !JsonCodec (list indexEntry)}.
Implicit Types (l : layers T B) (ess : list (list (string * DataItem))).

Lemma sameVersions_eq a b :
  (∀ p q, p ∈ a → q ∈ b → addr p = addr q → p = q) → sameVersions a b = true ↔ a = b.
Proof.
  revert b. induction a as [|p a IH]; intros [|q b] Hco; cbn [sameVersions]; try done.
  rewrite andb_true_iff, IH, ptr_eqb_spec by set_solver.
  split; [|by intros [= -> ->]]. intros [Ha ->]. f_equal. apply Hco; set_solver.
Qed.

Lemma Replace_current (m : MemTable T) key items : Memtable.current (Replace m key items) key = items.
Proof.
  rewrite current_contents, Replace_contents. destruct items; [by rewrite lookup_delete_eq|by rewrite lookup_insert_eq].
Qed.

(** The versions of the layers a restore cannot change. *)
Definition others l ess key : list DataItem :=
  (deref <$> from_option (λ f, Memtable.current f key) [] (flushing l)) ++ concat (versions key <$> ess).

Lemma Merge_covered {A} `{Clocked A} (x y : list A) :
  antichain x → (∀ i, i ∈ y → covered (clock i) x) → MergeSiblings x y = x.
Proof.
  intros Hx. unfold MergeSiblings. induction y as [|i y IH]; intros Hy; [done|].
  cbn [fold_left]. rewrite Resolve_covered by (done || apply Hy; set_solver). apply IH. set_solver.
Qed.

Lemma covered_deref c (x : list itemptr) : covered c (deref <$> x) ↔ covered c x.
Proof. exact (covered_map deref clock_deref c x). Qed.

Lemma merge_tables_covered a d key tables ess merged :
  Forall2 (table_holds d) tables ess → antichain merged →
  (∀ i, i ∈ concat (versions key <$> ess) → covered (clock i) merged) →
  merge_tables (B := B) a d key tables merged = Ok merged.
Proof.
  intros H Hm. revert a. induction H as [|s es tables ess Ht H IH]; intros a Hc; [done|].
  rewrite fmap_cons in Hc. cbn [concat merge_tables] in *.
  destruct (sst_GetAll_contents a d s es key Ht) as (items & -> & Hd).
  destruct (versions key es) as [|v vs] eqn:Ev; [apply IH; set_solver|].
  rewrite Merge_covered by (try done; intros i Hi; rewrite <-clock_deref; apply Hc, elem_of_app; left;
    rewrite <-Hd; by apply list_elem_of_fmap_2). apply IH. set_solver.
Qed.

Lemma replaceAndVerify_spec a d l ess key items :
  layers_ok l → Forall2 (table_holds d) (sstables l) ess → antichain items →
  (∀ p, p ∈ items → (addr p < a)%N) →
  coherent (items ++ from_option (λ f, Memtable.current f key) [] (flushing l)) →
  let '(l', err) := replaceAndVerify a d l key items in
  l' = mkLayers (Replace (active l) key items) (flushing l) (sstables l) ∧
  (err = None ∨ err = Some (ErrRestoreIncomplete key)) ∧
  (err = None ↔ ∀ i, i ∈ others l ess key → covered (clock i) items) ∧
  (err = None → mergeLayers a d key l' = Ok (items, match items with [] => false | _ => true end)).
Proof.
  intros [Ha Hf] Ht Hanti Hlow Hco. unfold replaceAndVerify.
  set (l' := mkLayers (Replace (active l) key items) (flushing l) (sstables l)).
  assert (layers_ok l') as Hl' by (split; [by apply Replace_ok|done]).
  set (fl := from_option (λ f, Memtable.current f key) [] (flushing l)) in *.
  assert (mem_items l' key = items ++ fl) as Hmem
    by (unfold mem_items; cbn [active flushing l']; by rewrite Replace_current).
  destruct (mergeLayers_run a d key l' ess Hl' Ht) as (vis & Hrun & Hv & Hel). rewrite Hrun.
  assert (sameVersions vis items = true ↔ vis = items) as Hsame.
  { apply sameVersions_eq. intros p q Hp Hq E. destruct (Hel p Hp) as [Hc%canon_subset|[Hge _]].
    - rewrite Hmem in Hc. apply Hco; [done|set_solver|done].
    - specialize (Hlow q Hq). lia. }
  assert (vis = items ↔ ∀ i, i ∈ others l ess key → covered (clock i) items) as Hiff.
  { split.
    - intros -> i Hi. apply covered_deref. rewrite Hv. unfold visible. apply covered_canon, covered_elem.
      rewrite Hmem, fmap_app. unfold others in Hi. fold fl in Hi. set_solver.
    - intros Hc. rewrite mergeLayers_mem, Hmem in Hrun by done.
      assert (canon (items ++ fl) = items) as Hcan.
      { rewrite <-MergeSiblings_canon by done. apply Merge_covered; [done|]. intros i Hi.
        rewrite <-clock_deref. apply Hc. unfold others. fold fl. apply elem_of_app. left.
        by apply list_elem_of_fmap_2. }
      rewrite Hcan, (merge_tables_covered a d key _ ess) in Hrun; [by injection Hrun as <-|done|done|].
      intros i Hi. apply Hc. unfold others. set_solver. }
  destruct (sameVersions vis items) eqn:E; split_and!; naive_solver.
Qed.
End restore.

(** ** Names of compacted tables *)

Lemma compare_app s t : t ≠ "" → String.compare s (s +:+ t) = Lt.
Proof.
  intros Ht. induction s as [|c s IH]; simpl; [by destruct t|].
  assert (Ascii.compare c c = Eq) as -> by (unfold Ascii.compare; apply N.compare_refl). done.
Qed.

Lemma sapp_assoc (s t u : string) : s +:+ (t +:+ u) = (s +:+ t) +:+ u.
Proof. induction s as [|c s IH]; [done|exact (f_equal (String c) IH)]. Qed.

Lemma sapp_nil_r (s : string) : s +:+ "" = s.
Proof. induction s as [|c s IH]; [done|exact (f_equal (String c) IH)]. Qed.

Lemma ltb_app s t : t ≠ "" → String.ltb s (s +:+ t) = true.
Proof. intros Ht. unfold String.ltb. by rewrite compare_app. Qed.

(** Extending a string keeps it below what it was below, unless that starts
    with it. *)
Lemma ltb_app_l s t x : String.ltb s x = true → ¬ (∃ r, x = s +:+ r) → String.ltb (s +:+ t) x = true.
Proof.
  unfold String.ltb. revert x. induction s as [|c s IH]; intros x; simpl.
  { intros _ Hp. destruct Hp. by exists x. }
  destruct x as [|c' x]; simpl; [done|]. destruct (Ascii.compare c c') eqn:E; [|done|done].
  intros Hs Hp. apply IH; [done|]. intros [r ->]. apply Hp. exists r.
  apply Ascii.compare_eq_iff in E. by subst.
Qed.

#[export] Instance extends_dec s x : Decision (∃ r, x = s +:+ r).
Proof.
  revert x. induction s as [|c s IH]; intros x; [left; by exists x|].
  destruct x as [|c' x]; [right; by intros [r ?]|]. destruct (decide (c = c')) as [<-|Hne].
  - destruct (IH x) as [H|H]; [left|right]; [destruct H as [r ->]; by exists r|].
    intros [r E]. apply H. exists r. by injection E.
  - right. intros [r E]. apply Hne. by injection E.
Defined.

Fixpoint suffixed (id : string) (n : nat) : string :=
  match n with O => id | S n' => suffixed (id +:+ "_c") n' end.

Lemma suffixed_app id n : ∃ t, suffixed id n = id +:+ t ∧ String.length t = 2 * n.
Proof.
  revert id. induction n as [|n IH]; intros id; simpl.
  - exists "". by rewrite sapp_nil_r.
  - destruct (IH (id +:+ "_c")) as (t & -> & Ht). exists ("_c" +:+ t).
    split; [by rewrite sapp_assoc|].
    change (String.length ("_c" +:+ t)) with (2 + String.length t). lia.
Qed.

Lemma sapp_inj (s t u : string) : s +:+ t = s +:+ u → t = u.
Proof. induction s as [|c s IH]; [done|]. intros E. apply IH. by injection E. Qed.

Lemma sapp_inj_r (s t u : string) : s +:+ u = t +:+ u → s = t.
Proof.
  intros E. apply (f_equal to_bytes) in E. rewrite !to_bytes_app in E. apply app_inv_tail in E.
  by rewrite <-(of_to_bytes s), E, of_to_bytes.
Qed.

Lemma suffixed_inj id m n : suffixed id m = suffixed id n → m = n.
Proof.
  destruct (suffixed_app id m) as (t & -> & Ht), (suffixed_app id n) as (u & -> & Hu).
  intros ->%sapp_inj. lia.
Qed.

Lemma compacted_loop_spec fuel d id :
  (∃ n, n < fuel ∧ compacted_loop fuel d id = suffixed id n ∧ d !! sst_name (suffixed id n) = None) ∨
  (∀ n, n < fuel → is_Some (d !! sst_name (suffixed id n))).
Proof.
  revert id. induction fuel as [|fuel IH]; intros id; [right; lia|]. cbn [compacted_loop].
  destruct (d !! sst_name id) as [f|] eqn:E; [|left; exists 0; split_and!; [lia|done|done]].
  destruct (IH (id +:+ "_c")) as [(n & Hn & H1 & H2)|Hall].
  - left. exists (S n). split_and!; [lia|done|done].
  - right. intros [|n] Hn; [by simpl; rewrite E; eauto|]. apply (Hall n). lia.
Qed.

(** [compactedID] finds a free name, whatever files there are. *)
Lemma compactedID_free d id :
  ∃ n, compactedID d id = suffixed id (S n) ∧ d !! sst_name (compactedID d id) = None.
Proof.
  unfold compactedID. destruct (compacted_loop_spec (S (size d)) d (id +:+ "_c")) as [(n & _ & -> & H)|Hall].
  { exists n. done. }
  exfalso. set (names := (λ n, sst_name (suffixed (id +:+ "_c") n)) <$> List.seq 0 (S (size d))).
  assert (NoDup names) as Hnd.
  { apply NoDup_fmap_2_strong; [|apply NoDup_seq]. intros m n _ _ E%sapp_inj_r. by apply suffixed_inj in E. }
  assert (list_to_set names ⊆ dom d) as Hsub.
  { intros x. rewrite elem_of_list_to_set, elem_of_dom. unfold names.
    intros (n & -> & Hn)%list_elem_of_fmap. apply elem_of_seq in Hn. apply Hall. lia. }
  apply subseteq_size in Hsub. rewrite size_list_to_set, size_dom in Hsub by done.
  unfold names in Hsub. rewrite length_fmap, length_seq in Hsub. lia.
Qed.

(** ** Replacing a run *)

Section replace.
Context {B : Type}.
Implicit Types l run tables : list (SSTable B).

Lemma starts_with_app run l : starts_with (run ++ l) run = Some l.
Proof.
  induction run as [|r run IH]; [by destruct l|]. cbn [app starts_with]. unfold same_table.
  by rewrite bool_decide_true.
Qed.

Lemma replaceRun_spec pre run post (merged : SSTable B) :
  NoDup (ID <$> pre ++ run ++ post) → run ≠ [] →
  replaceRun (pre ++ run ++ post) run merged = Some (pre ++ merged :: post).
Proof.
  intros Hnd Hne. unfold replaceRun.
  assert (∀ before, replace_loop before (pre ++ run ++ post) run merged = Some (before ++ pre ++ merged :: post))
    as H; [|apply (H [])].
  destruct run as [|r run]; [done|].
  induction pre as [|s pre IH]; intros before; cbn [app replace_loop].
  - unfold same_table. rewrite bool_decide_true by done. cbn [starts_with]. unfold same_table at 1.
    rewrite bool_decide_true by done. by rewrite starts_with_app.
  - cbn [app] in Hnd. rewrite fmap_cons in Hnd. inversion Hnd as [|? ? Hs Hnd']; subst.
    unfold same_table at 1. rewrite bool_decide_false.
    + rewrite IH by done. by rewrite <-app_assoc.
    + intros E. apply Hs. rewrite E. apply list_elem_of_fmap_2. set_solver.
Qed.
End replace.

(** ** Results *)

Section results.
Context {T : Type} `{!BTree (list itemptr) T} `{!BTreeSpec (list itemptr) T}.
Context {B : Type} `{!Bloom B}.
Context `{!JsonCodec value, !JsonCodec Wal.record, !JsonCodec Sstable.record, !JsonCodec (list indexEntry)}.
Implicit Types (e : StorageEngine T B) (l : layers T B).

(** The errors of a batch, one per request. *)
Lemma apply_loop_errs a d l batch crossed :
  let '(l', errs, _) := apply_loop a d l batch crossed in
  length errs = length batch ∧ flushing l' = flushing l ∧ sstables l' = sstables l.
Proof.
  revert l crossed. induction batch as [|r batch IH]; intros l crossed; cbn [apply_loop]; [done|].
  destruct (Op (req_entry r) =? OpRestore)%N.
  - destruct (replaceAndVerify a d l _ _) as [l1 err] eqn:E.
    assert (flushing l1 = flushing l ∧ sstables l1 = sstables l) as [Hf Hs].
    { revert E. unfold replaceAndVerify. destruct (mergeLayers _ _ _ _) as [[vis ?]|[]]; [destruct (sameVersions _ _)|..];
        by intros [= <- _]. }
    specialize (IH l1 crossed). destruct (apply_loop a d l1 batch crossed) as [[l2 errs] c2].
    destruct IH as (H1 & H2 & H3). cbn [length]. split_and!; congruence.
  - destruct (Wal.Item (req_entry r)) as [item|].
    + destruct (Memtable.Put _ _ _) as [m full]. specialize (IH (mkLayers m (flushing l) (sstables l)) (crossed || full)).
      destruct (apply_loop _ _ _ batch _) as [[l2 errs] c2]. destruct IH as (H1 & H2 & H3). cbn [length].
      split_and!; [congruence|done|done].
    + specialize (IH l crossed). destruct (apply_loop _ _ _ batch _) as [[l2 errs] c2].
      destruct IH as (H1 & H2 & H3). cbn [length]. split_and!; [congruence|done|done].
Qed.

(** The committer's batches.  From any queue of encoded requests the
    committer forms batches that, one after another, are exactly the queue:
    no request is dropped, repeated or moved.  Each batch has between one and
    [maxBatchRecords] requests, and its records come to at most
    [maxBatchBytes], unless it is a single record (which may be larger). *)
Theorem committer_batches (queue : list writeReq) :
  concat (batches (length queue) queue) = queue ∧
  Forall (λ b, 1 ≤ length b ≤ maxBatchRecords ∧
    (length b = 1 ∨ (N.of_nat (length (concat (req_record <$> b))) ≤ maxBatchBytes)%N)) (batches (length queue) queue).
Proof.
  destruct (batches_spec (length queue) queue) as [Hb Hc]; [done|]. split; [done|].
  apply (Forall_impl _ _ _ Hb). intros b [Hl [Hone|Hbytes]]; (split; [done|]); [by left|right].
  assert (batch_bytes b = N.of_nat (length (concat (req_record <$> b)))) as <-; [|done].
  clear. induction b as [|r b IH]; [done|]. rewrite fmap_cons. cbn [concat batch_bytes foldr].
  rewrite length_app. unfold batch_bytes in IH. lia.
Qed.

(** A commit is all or nothing, and a failed log write halts the engine.
    Every request of a batch gets one answer.  On a halted engine nothing is
    touched and each answer is [ErrWritesHalted] with the first failure.  If
    the log write fails, no request is applied (the layers are as before),
    each answer is that error, the engine is halted by it, and every later
    commit is refused without touching anything.  Otherwise the engine stays
    open, the batch is counted, and a flush starts only if none was running;
    it takes the whole active memtable. *)
Theorem commit_all_or_nothing (iow ior : log_io) (a : N) e (batch : list writeReq) :
  let '(e', errs, fl) := commit iow ior a e batch in
  length errs = length batch ∧
  match halted e, log_WriteBatch iow (d_wal e) (wal e) (req_record <$> batch) with
  | Some cause, _ => e' = e ∧ fl = None ∧ Forall (eq (Some (ErrWritesHalted cause))) errs
  | None, (d, Some err) =>
      ly e' = ly e ∧ d_wal e' = d ∧ halted e' = Some err ∧ fl = None ∧ Forall is_Some errs ∧
      ∀ iow' ior' a' batch', commit iow' ior' a' e' batch' =
        (e', (λ _, Some (ErrWritesHalted err)) <$> batch', None)
  | None, (d, None) =>
      halted e' = None ∧ writes (cnt e') = u64 (writes (cnt e) + N.of_nat (length batch)) ∧
      sstables (ly e') = sstables (ly e) ∧
      ∀ m n, fl = Some (m, n) → flushing (ly e) = None ∧ flushing (ly e') = Some m ∧ n = WalLog.seq (wal e) ∧
        active (ly e') = Memtable.New (maxBytes e)
  end.
Proof.
  unfold commit at 1, haltErr. destruct (halted e) as [cause|] eqn:Hh; cbn [fmap option_fmap option_map].
  { rewrite length_fmap. split_and!; [done..|]. apply Forall_fmap, Forall_forall. done. }
  destruct (log_WriteBatch _ _ _ _) as [d [err|]].
  - unfold halt. cbn [halted set_log]. rewrite Hh. rewrite length_fmap. split_and!; try done.
    apply Forall_fmap, Forall_forall. eauto.
  - set (e1 := set_cnt _ _). unfold apply. pose proof (apply_loop_errs a (d_sst e1) (ly e1) batch false) as Hl.
    destruct (apply_loop _ _ _ _ _) as [[l errs] crossed]. destruct Hl as (H1 & H2 & H3).
    destruct (crossed && _) eqn:Ec; [|by split_and!].
    apply andb_true_iff in Ec as [_ Ec]. unfold swap.
    destruct (Rotate _ _ _) as [[d' l'] [n [err|]]] eqn:ER; (split; [done|]); split_and!; try done.
    intros m n' [= <- <-]. cbn in H2 |- *. split_and!; [|done| |done].
    + rewrite <-H2. by destruct (flushing l).
    + revert ER. unfold Rotate. destruct (startSegment _ _ _) as [d2 [?|]]; [done|].
      destruct (l_close _ _); [|done]. by intros [= _ _ <-].
Qed.

(** A restore is verified.  [replaceAndVerify] puts the given versions of
    the key in the active memtable in place of its own and touches nothing
    else.  It returns no error if and only if every version that the frozen
    memtable and the tables still hold for the key is covered by one of the
    given ones, so that a read returns exactly them; otherwise it returns
    [ErrRestoreIncomplete] and no other error. *)
Theorem restore_verified (a : N) (d : sst_dir) l (ess : list (list (string * DataItem))) (key : string)
    (items : list itemptr) :
  layers_ok l → Forall2 (table_holds d) (sstables l) ess → antichain items →
  (∀ p, p ∈ items → (addr p < a)%N) →
  coherent (items ++ from_option (λ f, Memtable.current f key) [] (flushing l)) →
  let '(l', err) := replaceAndVerify a d l key items in
  l' = mkLayers (Replace (active l) key items) (flushing l) (sstables l) ∧
  (err = None ∨ err = Some (ErrRestoreIncomplete key)) ∧
  (err = None ↔ ∀ i, i ∈ others l ess key → covered (clock i) items) ∧
  (err = None → mergeLayers a d key l' = Ok (items, match items with [] => false | _ => true end)).
Proof. by apply replaceAndVerify_spec. Qed.
End results.

(** Names of merged tables.  [compactedID] always finds a name that no file
    has, whatever files there are (so its loop ends).  That name extends the
    newest source's, so it sorts after it, and before every table that was newer
    than the source, unless the newer name itself extends the source's: the
    order of names, by which [Open] loads the tables, stays the order of age. *)
Theorem compacted_name_free_and_ordered (d : sst_dir) (id : string) :
  let new := compactedID d id in
  d !! sst_name new = None ∧ (∃ t, new = id +:+ t ∧ t ≠ "") ∧ String.ltb id new = true ∧
  ∀ newer, String.ltb id newer = true → (∃ r, newer = id +:+ r) ∨ String.ltb new newer = true.
Proof.
  destruct (compactedID_free d id) as (n & E & Hfree). cbv zeta. split; [done|]. rewrite E.
  destruct (suffixed_app id (S n)) as (t & -> & Ht).
  assert (t ≠ "") as Hne by (intros ->; simpl in Ht; lia). split_and!; [eauto|by apply ltb_app|].
  intros newer Hlt. destruct (decide (∃ r, newer = id +:+ r)) as [?|Hno]; [by left|right]. by apply ltb_app_l.
Qed.

(** ** Witnesses *)

Section witnesses.
#[local] Existing Instance gmap_btree.
#[local] Existing Instance gmap_btree_spec.
#[local] Existing Instance set_bloom.
#[local] Existing Instance toy_value_json.
#[local] Existing Instance toy_record_json.
#[local] Existing Instance toy_sst_json.
#[local] Existing Instance toy_index_json.

(** A restore over a frozen memtable that still holds the version to undo. *)
Definition w_frozen_layers : layers (gmap string (list itemptr)) (gset string) :=
  mkLayers (Memtable.New 100)
    (Some (Memtable.Put (Memtable.New 100) "k" (mkPtr 1 (ex_item "bad" {["n1" := 2%N]}))).1) [].
Definition w_prior : list itemptr := [mkPtr 2 (ex_item "good" {["n1" := 1%N]})].

Lemma restore_verified_witness :
  (replaceAndVerify 10 ∅ w_frozen_layers "k" w_prior).2 = Some (ErrRestoreIncomplete "k").
Proof.
  assert (from_option (λ f, Memtable.current f "k") [] (flushing w_frozen_layers) =
    [mkPtr 1 (ex_item "bad" {["n1" := 2%N]})]) as Hfl by reflexivity.
  assert (existsb (le_b (ex_item "bad" {["n1" := 2%N]})) (deref <$> w_prior) = false) as Hle by reflexivity.
  pose proof (restore_verified 10 ∅ w_frozen_layers [] "k" w_prior) as H. rewrite Hfl in H.
  assert (ex_item "bad" {["n1" := 2%N]} ∈ others w_frozen_layers [] "k") as Hin
    by (unfold others; rewrite Hfl; set_solver).
  destruct (replaceAndVerify 10 ∅ w_frozen_layers "k" w_prior) as [l' err].
  destruct H as (_ & [He|He] & H & _).
  - split; [apply New_ok|]. apply (Put_ok _ "k" _ (New_ok 100)).
    intros p q ->%list_elem_of_singleton ->%list_elem_of_singleton. reflexivity.
  - constructor.
  - repeat constructor.
  - intros p ->%list_elem_of_singleton. reflexivity.
  - intros p q Hp Hq. unfold w_prior in Hp, Hq. set_solver.
  - exfalso. pose proof (proj1 H He _ Hin) as Hc. rewrite <-covered_deref, <-covered_le_b, Hle in Hc. discriminate.
  - exact He.
Defined.
End witnesses.
