(* ===== verification/EngineSteps.v ===== *)
(** * The engine as a step relation

    Commits of puts and restores, memtable swaps, the stages of background
    flushes and the two halves of a compaction, interleaved in any order and
    with any outcome of their file operations, the manifest's included; crashes
    and recovery by [Open].  The file holds the invariant that ties memory to
    disk.  Two things are kept in account: whether the manifest's file is
    [intact] (no write to it was torn or failed to sync, without which a
    recovery need not succeed), and how often each key was restored ([rolls]),
    since a restore takes back versions on purpose. *)

From stdpp Require Import gmap strings list sorting pretty.
From Stdlib Require Import ZArith Lia Ascii.
From S2P Require Import Prelude GoLib VectorClock Versioning Json Memtable Wal WalLog Manifest Sstable Compaction Engine.

(** ** Versions in the log *)

(** The versions of a key that put entries hold. *)
Definition wal_items (k : string) (es : list Wal.Entry) : list DataItem :=
  es ≫= λ e, if decide (Wal.Key e = k) then option_list (deref <$> Wal.Item e) else [].

Lemma wal_items_app k es1 es2 : wal_items k (es1 ++ es2) = wal_items k es1 ++ wal_items k es2.
Proof. apply bind_app. Qed.

Lemma wal_items_one k e :
  wal_items k [e] = if decide (Wal.Key e = k) then option_list (deref <$> Wal.Item e) else [].
Proof. unfold wal_items. rewrite bind_cons. apply app_nil_r. Qed.

Lemma wal_items_contents k es es' :
  entry_contents <$> es = entry_contents <$> es' → wal_items k es = wal_items k es'.
Proof.
  revert es'. induction es as [|e es IH]; intros [|e' es']; rewrite ?fmap_cons; try done.
  intros [= H1 H2 H3 H4 H5]. unfold wal_items. rewrite !bind_cons. fold (wal_items k es) (wal_items k es').
  by rewrite H2, H3, (IH _ H5).
Qed.

Lemma elem_of_wal_items k es x :
  x ∈ wal_items k es ↔ ∃ e i, e ∈ es ∧ Wal.Key e = k ∧ Wal.Item e = Some i ∧ deref i = x.
Proof.
  unfold wal_items. rewrite list_elem_of_bind. split.
  - intros (e & Hx & He). destruct (decide _); [|set_solver]. destruct (Wal.Item e) as [i|] eqn:E; [|set_solver].
    simpl in Hx. apply list_elem_of_singleton in Hx. eauto 10.
  - intros (e & i & He & Hk & Hi & <-). exists e. rewrite decide_True, Hi by done. simpl. set_solver.
Qed.

(** The items an entry carries. *)
Definition carried (e : Wal.Entry) : list itemptr := option_list (Wal.Item e) ++ Items e.

Lemma entry_addrs_carried e : entry_addrs e = addr <$> carried e.
Proof. done. Qed.

(** ** Restores in the log *)

Definition is_restore (k : string) (e : Wal.Entry) : Prop := Op e = OpRestore ∧ Wal.Key e = k.
#[export] Instance is_restore_dec k e : Decision (is_restore k e).
Proof. apply _. Defined.

(** How often [es] restores [k]; not at all. *)
Definition requested (k : string) (es : list Wal.Entry) : nat := length (bfilter (λ e, bool_decide (is_restore k e)) es).
Definition unrestored (k : string) (es : list Wal.Entry) : Prop := Forall (λ e, ¬ is_restore k e) es.

Lemma requested_unrestored k es : requested k es = 0 ↔ unrestored k es.
Proof.
  unfold requested, unrestored. induction es as [|e es IH]; [done|]. cbn [bfilter]. rewrite Forall_cons.
  destruct (decide (is_restore k e)).
  - rewrite bool_decide_true by done. naive_solver.
  - rewrite bool_decide_false by done. tauto.
Qed.

Lemma unrestored_app k es1 es2 : unrestored k (es1 ++ es2) ↔ unrestored k es1 ∧ unrestored k es2.
Proof. apply Forall_app. Qed.

Lemma unrestored_contents k es es' :
  entry_contents <$> es = entry_contents <$> es' → unrestored k es' → unrestored k es.
Proof.
  revert es'. induction es as [|e es IH]; intros [|e' es']; rewrite ?fmap_cons; try done.
  intros [= H1 H2 H3 H4 H5] Hu. inversion Hu as [|? ? Hn Hu']; subst. constructor; [|by eapply IH].
  unfold is_restore in *. congruence.
Qed.

(** A put of [k] covers [c], and no restore of [k] comes after it. *)
Definition put_since (k : string) (es : list Wal.Entry) (c : gmap string N) : Prop :=
  ∃ es1 i es2, es = es1 ++ put_entry k i :: es2 ∧ c ⊑c clock i ∧ unrestored k es2.

Lemma put_since_app k es1 es2 c :
  put_since k (es1 ++ es2) c ↔ (put_since k es1 c ∧ unrestored k es2) ∨ put_since k es2 c.
Proof.
  split.
  - intros (a & i & b & E & Hc & Hu). apply app_eq_inv in E as [(l & E1 & E2)|(l & -> & E2)].
    + destruct l as [|x l].
      * right. exists [], i, b. simpl in E2. by rewrite <-E2.
      * left. injection E2 as <- ->. apply unrestored_app in Hu as [Hu1 Hu2].
        split; [|done]. exists a, i, l. by rewrite E1.
    + right. by exists l, i, b.
  - intros [[(a & i & b & -> & Hc & Hu) Hu2]|(a & i & b & -> & Hc & Hu)].
    + exists a, i, (b ++ es2). rewrite <-app_assoc. split_and!; [done|done|]. by apply unrestored_app.
    + exists (es1 ++ a), i, b. by rewrite <-app_assoc.
Qed.

Lemma put_since_nil k c : ¬ put_since k [] c.
Proof. intros (a & i & b & E & _). by destruct a. Qed.

Lemma put_since_covered k es c : put_since k es c → covered c (wal_items k es).
Proof.
  intros (a & i & b & -> & Hc & _). apply (covered_le _ (clock (deref i))); [by rewrite clock_deref|].
  apply covered_elem, elem_of_wal_items. exists (put_entry k i), i. split; [set_solver|done].
Qed.

(** Where [k] is not restored, every put of it counts. *)
Lemma covered_put_since k es c :
  unrestored k es → Forall (λ e, ∀ i, Wal.Item e = Some i → e = put_entry (Wal.Key e) i) es →
  covered c (wal_items k es) → put_since k es c.
Proof.
  intros Hu Hp (x & (e & i & He & <- & Hi & <-)%elem_of_wal_items & Hle).
  pose proof He as He'. apply list_elem_of_split in He' as (a & b & ->).
  rewrite Forall_forall in Hp. pose proof (Hp e He i Hi) as E. exists a, i, b. rewrite <-E.
  split_and!; [done|by rewrite <-clock_deref|]. apply unrestored_app in Hu as [_ Hu]. by inversion Hu.
Qed.

Lemma put_since_contents k es es' c :
  entry_contents <$> es = entry_contents <$> es' → put_since k es' c → put_since k es c.
Proof.
  intros E (a & i & b & -> & Hc & Hu). rewrite fmap_app, fmap_cons in E.
  apply fmap_app_inv in E as (a' & r & Ha & Hr & ->).
  destruct r as [|[op k' [j|] its] b']; rewrite ?fmap_cons in Hr; [done| |done].
  injection Hr as E1 E2 E3 E4 E5. destruct its; [|done]. subst op k'. exists a', j, b'. split_and!; [done| |].
  - by rewrite <-clock_deref, <-E3, clock_deref.
  - by eapply unrestored_contents.
Qed.

(** ** Names *)

Lemma pretty_word (n : N) : Forall (λ c, is_space c = false) (to_bytes (pretty n)).
Proof.
  assert (∀ m s, Forall (λ c, is_space c = false) (to_bytes s) →
    Forall (λ c, is_space c = false) (to_bytes (pretty_N_go m s))) as H.
  { intros m. induction (N.lt_wf_0 m) as [m _ IH]. intros s Hs.
    destruct (decide (0 < m)%N) as [Hm|Hm]; [|assert (m = 0%N) as -> by lia; by rewrite pretty_N_go_0].
    rewrite pretty_N_go_step by done. apply IH; [by apply N.div_lt|].
    constructor; [|done]. unfold pretty_N_char. by repeat case_match. }
  unfold pretty, pretty_N. case_decide; [by repeat constructor|]. apply H. constructor.
Qed.

Lemma sst_tmp_ne id id' : sst_name id ≠ tmp_name id'.
Proof.
  unfold sst_name, tmp_name. intros E. apply (f_equal to_bytes) in E. rewrite !to_bytes_app in E.
  apply (f_equal last) in E. rewrite !last_app in E. done.
Qed.

Lemma sst_name_inj id id' : sst_name id = sst_name id' → id = id'.
Proof. apply sapp_inj_r. Qed.

(** ** Coverage in the memtable *)

Section memtable.
Context {T : Type} `{!BTree (list itemptr) T} `{!BTreeSpec (list itemptr) T}.
Context `{!JsonCodec value}.
Implicit Types m : MemTable T.

Lemma Put_current m k i k' :
  Memtable.current (Memtable.Put m k i).1 k' =
    if decide (k = k') then put_set (Memtable.current m k) i else Memtable.current m k'.
Proof.
  rewrite (current_contents (Memtable.Put m k i).1), Put_contents, lookup_insert.
  case_decide; [done|by rewrite <-current_contents].
Qed.

Lemma Put_covered m k i k' c :
  mt_ok m → coherent (i :: Memtable.current m k) →
  covered c (Memtable.current (Memtable.Put m k i).1 k') ↔
    covered c (Memtable.current m k') ∨ (k = k' ∧ c ⊑c clock i).
Proof.
  intros Hm Hco. rewrite Put_current. case_decide as Hk.
  - subst k'. rewrite put_set_covered by (done || by apply current_antichain). naive_solver.
  - naive_solver.
Qed.

Lemma Put_elem m k i k' p :
  p ∈ Memtable.current (Memtable.Put m k i).1 k' → p ∈ Memtable.current m k' ∨ (k = k' ∧ p = i).
Proof.
  rewrite Put_current. case_decide as Hk; [|by left]. subst k'. unfold put_set, newest_first.
  rewrite elem_of_app, elem_of_bfilter. intros [Hp|[_ Hp]].
  - destruct (existsb _ _); [|set_solver]. apply list_elem_of_singleton in Hp. by right.
  - apply Resolve_elem in Hp as [?| ->]; [by left|by right].
Qed.

Lemma Replace_current_ne m key items k :
  k ≠ key → Memtable.current (Replace m key items) k = Memtable.current m k.
Proof.
  intros Hk. rewrite !current_contents, Replace_contents.
  destruct items; [by rewrite lookup_delete_ne|by rewrite lookup_insert_ne].
Qed.

(** No two objects share an address. *)
Definition one_object (P : itemptr → Prop) : Prop := ∀ p q, P p → P q → addr p = addr q → p = q.

Lemma one_object_sub (P Q : itemptr → Prop) : (∀ p, Q p → P p) → one_object P → one_object Q.
Proof. intros Hs Ho p q Hp Hq. apply Ho; auto. Qed.

Definition objects m (es : list Wal.Entry) (p : itemptr) : Prop :=
  (∃ k, p ∈ Memtable.current m k) ∨ p ∈ es ≫= carried.

(** A put, or a restore of siblings. *)
Definition shaped (e : Wal.Entry) : Prop :=
  (∃ i, e = put_entry (Wal.Key e) i) ∨ ∃ its, e = restore_entry (Wal.Key e) its ∧ antichain its.

(** One entry replayed. *)
Lemma replay_one m e :
  mt_ok m → shaped e → one_object (objects m [e]) →
  mt_ok (replay_entry m e) ∧
  (∀ k p, p ∈ Memtable.current (replay_entry m e) k →
     p ∈ Memtable.current m k ∨ (Wal.Key e = k ∧ p ∈ carried e)) ∧
  (∀ k c, ¬ is_restore k e → covered c (Memtable.current (replay_entry m e) k) ↔
     covered c (Memtable.current m k) ∨ covered c (wal_items k [e])).
Proof.
  intros Hm [[i He]|(its & He & Ha)] Ho; rewrite He in *; set (k0 := Wal.Key e) in *; clearbody k0; clear e He.
  - assert (replay_entry m (put_entry k0 i) = (Memtable.Put m k0 i).1) as -> by done.
    assert (coherent (i :: Memtable.current m k0)) as Hco.
    { intros p q Hp Hq. apply Ho; [clear Hq; rename Hp into H|clear Hp; rename Hq into H];
        (apply elem_of_cons in H as [->|H]; [right; set_solver|left; eauto]). }
    split_and!; [by apply Put_ok| |].
    + intros k p [?|[-> ->]]%Put_elem; [by left|right]. split; [done|]. cbn. set_solver.
    + intros k c _. rewrite Put_covered by done. rewrite wal_items_one.
      cbn [Wal.Key Wal.Item put_entry]. destruct (decide (k0 = k)) as [Hk|Hk]; simpl.
      * unfold covered at 3. setoid_rewrite list_elem_of_singleton. naive_solver.
      * pose proof (covered_nil (A := DataItem) c). tauto.
  - assert (replay_entry m (restore_entry k0 its) = Replace m k0 its) as -> by done. split_and!.
    + by apply Replace_ok.
    + intros k p. destruct (decide (k0 = k)) as [->|Hk].
      * rewrite Replace_current. intros Hp. right. split; [done|]. cbn. done.
      * rewrite Replace_current_ne by done. by left.
    + intros k c Hn. rewrite Replace_current_ne by (intros ->; by apply Hn).
      rewrite wal_items_one. cbn [Wal.Key Wal.Item restore_entry].
      pose proof (covered_nil (A := DataItem) c). destruct (decide (k0 = k)); simpl; tauto.
Qed.

(** What a replay of entries, or a batch applied, makes of a memtable. *)
Lemma replay_entries m es :
  mt_ok m → Forall shaped es → one_object (objects m es) →
  let m' := fold_left replay_entry es m in
  mt_ok m' ∧
  (∀ k p, p ∈ Memtable.current m' k →
     p ∈ Memtable.current m k ∨ ∃ e, e ∈ es ∧ Wal.Key e = k ∧ p ∈ carried e) ∧
  (∀ k c, unrestored k es → covered c (Memtable.current m' k) ↔
     covered c (Memtable.current m k) ∨ covered c (wal_items k es)) ∧
  (∀ k c, put_since k es c → covered c (Memtable.current m' k)).
Proof.
  revert m. induction es as [|e es IH]; intros m Hm Hsh Ho; cbn [fold_left].
  { split_and!; [done|by left| |by intros k c ?%put_since_nil]. intros k c _.
    pose proof (covered_nil (A := DataItem) c). unfold wal_items. simpl. tauto. }
  inversion Hsh as [|? ? He Hsh']; subst.
  destruct (replay_one m e Hm He) as (M1 & M2 & M3).
  { eapply one_object_sub, Ho. intros p. unfold objects. change (e :: es) with ([e] ++ es). rewrite bind_app. set_solver. }
  destruct (IH (replay_entry m e) M1 Hsh') as (I1 & I2 & I3 & I4).
  { eapply one_object_sub, Ho. intros p [[k [Hp|[_ Hp]]%M2]|Hp]; unfold objects; rewrite bind_cons; [eauto|set_solver..]. }
  split_and!; [done| | |].
  - intros k p [[Hp|[Hk Hp]]%M2|(e' & ? & ?)]%I2; [by left| |]; right; [exists e|exists e']; set_solver.
  - intros k c Hu. inversion Hu as [|? ? Hn Hu']; subst. rewrite I3, M3 by done.
    change (e :: es) with ([e] ++ es). rewrite wal_items_app, covered_app. tauto.
  - intros k c. change (e :: es) with ([e] ++ es). rewrite put_since_app. intros [[Hp Hu]|Hp]; [|by apply I4].
    apply I3; [done|]. left. pose proof (put_since_covered _ _ _ Hp) as Hc.
    destruct Hp as (a & i & b & E & _). destruct a as [|x [|y a]]; try done. injection E as -> _.
    apply M3; [by intros []|by right].
Qed.

Lemma PutBack_covered m f k c :
  mt_ok m → mt_ok f →
  covered c (Memtable.current (PutBackOlder m (Snapshot f)) k) ↔
    covered c (Memtable.current m k) ∨ covered c (Memtable.current f k).
Proof. intros Hm Hf. by rewrite PutBackOlder_current, Snapshot_items, covered_MergeSiblings. Qed.

Lemma PutBack_elem m f k p :
  mt_ok m → p ∈ Memtable.current (PutBackOlder m (Snapshot f)) k →
  p ∈ Memtable.current m k ∨ p ∈ Memtable.current f k.
Proof.
  intros Hm. rewrite PutBackOlder_current, Snapshot_items by done.
  rewrite MergeSiblings_canon by (by apply current_antichain). intros Hp%canon_subset. by apply elem_of_app.
Qed.
End memtable.

(** ** The system *)

Section steps.
Context {T : Type} `{!BTree (list itemptr) T} `{!BTreeSpec (list itemptr) T}.
Context {B : Type} `{!Bloom B} `{!BloomSpec B}.
Context `{!JsonCodec value, !JsonCodec Wal.record, !JsonCodec Sstable.record, !JsonCodec (list indexEntry)}.
Context `{!JsonRoundTrip value value_ok, !RecordJson, !JsonRoundTrip Sstable.record Sstable.record_ok,
          !JsonRoundTrip (list indexEntry) index_ok}.

(** A flush up to its install: before its table is written, or after. *)
Inductive pending :=
  | Frozen (m : MemTable T) (n : N)
  | Registered (m : MemTable T) (n : N) (r : res Engine.error (SSTable B)).

Definition frozen_of (p : pending) : MemTable T := match p with Frozen m _ | Registered m _ _ => m end.
Definition sealed_of (p : pending) : N := match p with Frozen _ n | Registered _ n _ => n end.

(** The engine; the flush under way; the flushes that still have to delete
    their segments; a compaction between its manifest records and its swap.
    For the account of a crash: the segment files whose removal is not
    durable; the entries of a batch whose write failed; whether every write to
    the manifest since [Open] took effect whole or not at all; and how many
    restores of each key were requested. *)
Record sys := mkSys {
  eng : StorageEngine T B;
  pend : option pending;
  dels : list N;
  comp : option (list (SSTable B) * SSTable B);
  gone : dir;
  failed : list Wal.Entry;
  intact : bool;
  rolls : string → nat
}.

(** A manifest write that succeeds, or fails without leaving bytes. *)
Definition mio_ok (io : write_io) : bool :=
  match io_write io with Some n => bool_decide (n = 0) | None => io_sync io end.

(** A version the table format can hold. *)
Definition pair_ok (p : string * DataItem) : Prop :=
  Sstable.entry_ok (Memtable.mkEntry p.1 (mkPtr 0 p.2)).

Definition put_ok (e : Wal.Entry) : Prop := ∃ i, e = put_entry (Wal.Key e) i ∧ pair_ok (Wal.Key e, deref i).
Definition restore_ok (e : Wal.Entry) : Prop :=
  ∃ its, e = restore_entry (Wal.Key e) its ∧ antichain its ∧ Forall (λ i, pair_ok (Wal.Key e, deref i)) its.
Definition entry_fine (e : Wal.Entry) : Prop := put_ok e ∨ restore_ok e.

Lemma fine_shaped e : entry_fine e → shaped e.
Proof. intros [(i & ? & _)|(its & ? & ? & _)]; [left|right]; eauto. Qed.

Lemma fine_item e i : entry_fine e → Wal.Item e = Some i → e = put_entry (Wal.Key e) i.
Proof. intros [(j & E & _)|(its & E & _)]; rewrite E; simpl; [by intros [= ->]|done]. Qed.

Lemma fine_pairs e i : entry_fine e → i ∈ carried e → pair_ok (Wal.Key e, deref i).
Proof.
  intros [(j & E & Hp)|(its & E & _ & Hp)] Hi; rewrite E in Hi; unfold carried in Hi; simpl in Hi.
  - by apply list_elem_of_singleton in Hi as ->.
  - rewrite Forall_forall in Hp. auto.
Qed.

(** A batch of puts and restores: every put and every restored version fits
    the formats, the restored versions are siblings, and no two objects of
    memory and batch share an address. *)
Definition batch_fine (e : StorageEngine T B) (batch : list writeReq) : Prop :=
  Forall (λ r, encodes (req_entry r) (req_record r) ∧ entry_fine (req_entry r)) batch ∧
  one_object (λ p, (∃ k, p ∈ mem_items (ly e) k) ∨ p ∈ (req_entry <$> batch) ≫= carried).

Definition start_flush (p : option pending) (fl : option (MemTable T * N)) : option pending :=
  match fl with Some (m, n) => Some (Frozen m n) | None => p end.

Definition sst_id (now : N) : string := "sst_" +:+ pretty now.

(** A new table's size fits an [int64]. *)
Definition size_ok (r : res Engine.error (SSTable B)) : Prop :=
  match r with Ok s => (Size s < two63)%Z | Err _ => True end.

(** What a crash leaves of the disk: the log's files cut anywhere behind what
    was synced, removed segments back or not; the manifest with the start [t]
    of a line being written; the files of the live tables, and otherwise any
    table files. *)
Definition crashed (σ : sys) (t : bytes) (dd : data_dir) : Prop :=
  let mf := data (mfile (manifest (eng σ))) ++ t in
  dir_crash (gone σ) (d_wal (eng σ)) (dd_wal dd) ∧
  no_newline t ∧ dd_manifest dd = Some (mkFile mf mf) ∧
  ∀ id, id ∈ live (manifest (eng σ)) → dd_sst dd !! sst_name id = d_sst (eng σ) !! sst_name id.

(** The files [Open] removed: emptied and synced before. *)
Definition removed (dd dd' : data_dir) : dir := (λ _, mkFile [] []) <$> (dd_wal dd ∖ dd_wal dd').

(** What happens behind a client's back: the stages of a flush and of a
    compaction. *)
Inductive background : sys → sys → Prop :=
  | bg_register σ m n sio mio now e' r :
      pend σ = Some (Frozen m n) → d_sst (eng σ) !! sst_name (sst_id now) = None →
      writeAndRegister sio mio now (eng σ) (Snapshot m) = (e', r) → size_ok r →
      background σ (mkSys e' (Some (Registered m n r)) (dels σ) (comp σ) (gone σ) (failed σ)
               (intact σ && mio_ok mio) (rolls σ))
  | bg_install σ m n r :
      pend σ = Some (Registered m n r) →
      background σ (mkSys (flush_install (eng σ) m r) None
               (match r with Ok _ => n :: dels σ | Err _ => dels σ end) (comp σ) (gone σ) (failed σ) (intact σ) (rolls σ))
  | bg_delete σ n rest io :
      dels σ ≡ₚ n :: rest →
      background σ (mkSys (flush_delete io (eng σ) n) (pend σ) rest (comp σ)
               (gone σ ∪ (d_wal (eng σ) ∖ d_wal (flush_delete io (eng σ) n))) (failed σ) (intact σ) (rolls σ))
  | bg_compact σ io a e' r :
      comp σ = None → compact_write io a (eng σ) = (e', r) →
      (∀ entries id d' s, Merge a (d_sst (eng σ)) (SelectTierForCompaction (sstables (ly (eng σ)))) = Ok entries →
         WriteWithID (B := B) (c_sst io) (d_sst (eng σ)) id entries = (d', Ok s) → (Size s < two63)%Z) →
      background σ (mkSys e' (pend σ) (dels σ) (match r with Ok x => x | Err _ => None end) (gone σ) (failed σ)
               (intact σ && mio_ok (c_add io) && mio_ok (c_remove io)) (rolls σ))
  | bg_swap_tables σ io sources merged e' err :
      comp σ = Some (sources, merged) → compact_install io (eng σ) sources merged = (e', err) →
      background σ (mkSys e' (pend σ) (dels σ) None (gone σ) (failed σ) (intact σ) (rolls σ)).

(** The system after a commit. *)
Definition committed (σ : sys) (batch : list writeReq) (e' : StorageEngine T B) (fl : option (MemTable T * N)) : sys :=
  mkSys e' (start_flush (pend σ) fl) (dels σ) (comp σ) (gone σ)
    (match halted (eng σ), halted e' with None, Some _ => req_entry <$> batch | _, _ => failed σ end)
    (intact σ) (λ k, rolls σ k + requested k (req_entry <$> batch)).

(** The system after [Open]: a manifest that ends in the start of a line is
    not intact. *)
Definition reopened (σ : sys) (t : bytes) (dd dd' : data_dir) (e' : StorageEngine T B) : sys :=
  mkSys e' None [] None (removed dd dd') [] (bool_decide (t = [])) (rolls σ).

(** A batch committed, background work, or a crash with an intact manifest
    and the next [Open]. *)
Inductive step : sys → sys → Prop :=
  | step_commit σ iow ior a batch e' errs fl :
      batch_fine (eng σ) batch → (WalLog.seq (wal (eng σ)) + 3 < two64)%N →
      commit iow ior a (eng σ) batch = (e', errs, fl) → step σ (committed σ batch e' fl)
  | step_background σ σ' : background σ σ' → step σ σ'
  | step_crash σ t a dd max dd' e' :
      intact σ = true → crashed σ t dd → (WalLog.seq (wal (eng σ)) + 3 < two64)%N →
      Open lio_fine oio_fine a dd max = (dd', Ok e') → step σ (reopened σ t dd dd' e').

(** ** The invariant *)

(** What the invariant says exists: the log's segments and current entries
    [segs], [cur], over the directory [d0] before a failed batch; what the
    removed segments held; what the table of each ID holds; and the clocks of
    each key that have to stay covered: those of its puts since the last
    restore of it. *)
Record ghost := mkGhost {
  g_d0 : dir; g_iow : log_io; g_ubs : list bytes;
  segs : list (segment * list Wal.Entry); cur : list Wal.Entry;
  gsegs : list (segment * list Wal.Entry);
  pub : string → list (string * DataItem);
  must : string → gmap string N → Prop
}.

Definition all_segs (σ : sys) (g : ghost) : list (segment * list Wal.Entry) :=
  segs g ++ [(cur_seg (wal (eng σ)), cur g)].

(** [c] is covered by a put of [k] in a segment the condition admits. *)
Definition in_log (σ : sys) (g : ghost) (P : N → Prop) (k : string) (c : gmap string N) : Prop :=
  ∃ s es, (s, es) ∈ all_segs σ g ∧ P (seg_seq s) ∧ covered c (wal_items k es).

(** The same, by a put that no restore of [k] comes after, in this segment or
    in a later one, removed ones included. *)
Definition since (σ : sys) (g : ghost) (P : N → Prop) (k : string) (c : gmap string N) : Prop :=
  ∃ s es, (s, es) ∈ all_segs σ g ∧ P (seg_seq s) ∧ put_since k es c ∧
    ∀ s' es', (s', es') ∈ all_segs σ g ++ gsegs g → (seg_seq s < seg_seq s')%N → unrestored k es'.

Definition in_mem (σ : sys) (k : string) (c : gmap string N) : Prop :=
  covered c (mem_items (ly (eng σ)) k).

(** The tables: one that is registered but not installed, and the layers'. *)
Definition new_of (p : option pending) : list (SSTable B) :=
  match p with Some (Registered _ _ (Ok s)) => [s] | _ => [] end.
Definition tables (σ : sys) : list (SSTable B) := new_of (pend σ) ++ sstables (ly (eng σ)).

Definition in_tables (σ : sys) (g : ghost) (k : string) (c : gmap string N) : Prop :=
  ∃ s, s ∈ tables σ ∧ covered c (versions k (pub g (ID s))).

Definition table_ok (d : sst_dir) (g : ghost) (s : SSTable B) : Prop :=
  table_holds d s (pub g (ID s)) ∧ Path s = sst_name (ID s) ∧ id_ok (ID s) ∧ Forall pair_ok (pub g (ID s)).

(** A published file: it opens to a table that holds [es]. *)
Definition published (d : sst_dir) (id : string) (es : list (string * DataItem)) : Prop :=
  id_ok id ∧ ∃ s, Sstable.Open (B := B) d (sst_name id) = Ok s ∧ ID s = id ∧ Path s = sst_name id ∧ table_holds d s es.

Record log_inv (σ : sys) (g : ghost) : Prop := {
  li_dir : d_wal (eng σ) = (log_WriteBatch (g_iow g) (g_d0 g) (wal (eng σ)) (g_ubs g)).1;
  li_failed : Forall2 encodes (failed σ) (g_ubs g);
  li_fine : halted (eng σ) = None → failed σ = [] ∧ d_wal (eng σ) = g_d0 g;
  li_entries : Forall entry_fine (failed σ) ∧ ∀ s es, (s, es) ∈ all_segs σ g ++ gsegs g → Forall entry_fine es;
  li_view : log_view (g_d0 g) (wal (eng σ)) (segs g) (cur g);
  li_gone : gone_view (gone σ) (wal (eng σ)) (gsegs g);
  li_named : ∀ name s, is_Some (gone σ !! name) → seg_of name = Some s → s ∈ (gsegs g).*1;
  li_gsegs : NoDup (gsegs g).*1 ∧ ∀ s, s ∈ (gsegs g).*1 → (seg_seq s < WalLog.seq (wal (eng σ)))%N ∧ s ∉ (segs g).*1
}.

Record mem_inv (σ : sys) : Prop := {
  mi_ok : layers_ok (ly (eng σ));
  mi_coherent : ∀ k k' p q, p ∈ mem_items (ly (eng σ)) k → q ∈ mem_items (ly (eng σ)) k' → addr p = addr q → p = q;
  mi_pairs : ∀ k p, p ∈ mem_items (ly (eng σ)) k → pair_ok (k, deref p);
  mi_pend : flushing (ly (eng σ)) = frozen_of <$> pend σ
}.

Record table_inv (σ : sys) (g : ghost) : Prop := {
  ti_ok : ∀ s, s ∈ tables σ → table_ok (d_sst (eng σ)) g s;
  ti_distinct : NoDup (ID <$> tables σ);
  ti_new : ∀ m n s k, pend σ = Some (Registered m n (Ok s)) →
    versions k (pub g (ID s)) = deref <$> Memtable.current m k;
  ti_comp : ∀ srcs merged, comp σ = Some (srcs, merged) →
    ∃ pre post, sstables (ly (eng σ)) = pre ++ srcs ++ post ∧ srcs ≠ [] ∧
      table_ok (d_sst (eng σ)) g merged ∧ ID merged ∉ ID <$> tables σ ∧
      (∀ k, versions k (pub g (ID merged)) = canon (concat ((λ s, versions k (pub g (ID s))) <$> srcs)))
}.

(** What an intact manifest's file says: the tables it lists are there, and
    hold together what the engine's tables hold. *)
Record man_inv (σ : sys) (g : ghost) : Prop := {
  mn_clean : mf_clean (manifest (eng σ));
  mn_live : ∀ id, id ∈ live (manifest (eng σ)) →
    published (d_sst (eng σ)) id (pub g id) ∧ Forall pair_ok (pub g id);
  mn_same : ∀ k c, in_tables σ g k c ↔
    ∃ id, id ∈ live (manifest (eng σ)) ∧ covered c (versions k (pub g id));
  mn_comp : ∀ srcs merged, comp σ = Some (srcs, merged) → ∀ s, s ∈ srcs → ID s ∉ live (manifest (eng σ))
}.

(** How memory, log and tables cover each other.  What must be covered is
    visible, and is in tables or in the log behind every restore; for a key
    that was never restored, what is visible in memory must be covered, and
    the log holds nothing that is not visible. *)
Record cover_inv (σ : sys) (g : ghost) : Prop := {
  ci_seen : ∀ k c, must g k c → in_mem σ k c ∨ in_tables σ g k c;
  ci_kept : ∀ k c, must g k c → since σ g (λ _, True) k c ∨ in_tables σ g k c;
  ci_failed : ∀ k c, must g k c → unrestored k (failed σ);
  ci_mem : ∀ k c, rolls σ k = 0 → in_mem σ k c → must g k c;
  ci_log : ∀ k c, rolls σ k = 0 → in_log σ g (λ _, True) k c → in_mem σ k c ∨ in_tables σ g k c;
  ci_gone : ∀ s es k c, rolls σ k = 0 → (s, es) ∈ gsegs g → covered c (wal_items k es) → in_tables σ g k c;
  ci_dels : ∀ n, n ∈ dels σ → (n < WalLog.seq (wal (eng σ)))%N ∧
    (∀ k c, must g k c → since σ g (λ s, (n < s)%N) k c ∨ in_tables σ g k c) ∧
    (∀ k c, rolls σ k = 0 → in_log σ g (λ s, (s ≤ n)%N) k c → in_tables σ g k c);
  ci_pend : ∀ p, pend σ = Some p → (sealed_of p < WalLog.seq (wal (eng σ)))%N ∧
    (∀ n, n ∈ dels σ → (n ≤ sealed_of p)%N) ∧
    (∀ k c, must g k c → since σ g (λ s, (sealed_of p < s)%N) k c ∨
       covered c (Memtable.current (frozen_of p) k) ∨ in_tables σ g k c) ∧
    (∀ k c, rolls σ k = 0 → in_log σ g (λ s, (s ≤ sealed_of p)%N) k c →
       covered c (Memtable.current (frozen_of p) k) ∨ in_tables σ g k c);
  ci_none : ∀ k, rolls σ k = 0 → unrestored k (failed σ) ∧
    ∀ s es, (s, es) ∈ all_segs σ g ++ gsegs g → unrestored k es
}.

Record inv (σ : sys) (g : ghost) : Prop := {
  inv_log : log_inv σ g; inv_mem : mem_inv σ; inv_table : table_inv σ g;
  inv_man : intact σ = true → man_inv σ g; inv_cover : cover_inv σ g
}.

(** ** Files *)

(** The tables' files that exist in [d] are still there in [d']. *)
Definition dir_keeps (d d' : sst_dir) : Prop :=
  ∀ id, is_Some (d !! sst_name id) → d' !! sst_name id = d !! sst_name id.

Lemma published_ext d d' id es :
  (is_Some (d !! sst_name id) → d' !! sst_name id = d !! sst_name id) → published d id es → published d' id es.
Proof.
  intros Hk (Hok & s & Ho & Hi & Hp & Ht). split; [done|]. assert (d' !! sst_name id = d !! sst_name id) as E.
  { apply Hk. unfold Sstable.Open in Ho. destruct (d !! sst_name id); [eauto|done]. }
  exists s. split_and!; [unfold Sstable.Open; by rewrite E|done|done|].
  apply (table_holds_ext d); [done|]. by rewrite Hp.
Qed.

Lemma published_keeps d d' id es : dir_keeps d d' → published d id es → published d' id es.
Proof. intros Hk. apply published_ext, Hk. Qed.

Lemma holds_keeps d d' (s : SSTable B) es :
  dir_keeps d d' → Path s = sst_name (ID s) → table_holds d s es → table_holds d' s es.
Proof.
  intros Hk Hp Ht. apply (table_holds_ext d); [done|]. rewrite Hp. apply Hk. rewrite <-Hp.
  destruct (th_file _ _ _ Ht) as (f & Hf & _). eauto.
Qed.

Lemma write_keeps io d id entries d' (r : res Sstable.error (SSTable B)) :
  d !! sst_name id = None → WriteWithID io d id entries = (d', r) → dir_keeps d d'.
Proof.
  intros Hn Hw id' [f Hf]. eapply WriteWithID_other; [exact Hw| |apply sst_tmp_ne].
  intros E. rewrite E in Hf. congruence.
Qed.

Lemma mf_run_ok io m op :
  mio_ok io = true → mf_clean m → op_ok op →
  mf_clean (mf_run io m op).1 ∧
  ((mf_run io m op).2 = None ∧ live (mf_run io m op).1 = mf_effect op (live m) ∨
   (mf_run io m op).2 ≠ None ∧ live (mf_run io m op).1 = live m).
Proof.
  intros Hio Hm Hop. pose proof (mf_run_clean io m op Hm Hop) as Hcl. unfold mio_ok in Hio.
  rewrite mf_run_eq in * by done. unfold writeLine in *. destruct (io_write io) as [n|].
  - apply bool_decide_eq_true in Hio as ->. simpl in *. split; [|by right].
    destruct Hm as (ls & H1 & H2 & H3). exists ls. rewrite app_nil_r, H2. done.
  - rewrite Hio in *. simpl in *. split; [by apply Hcl|by left].
Qed.

Lemma entry_ok_pair e : pair_ok (plain e) ↔ Sstable.entry_ok e.
Proof. done. Qed.

Lemma snapshot_pairs (m : MemTable T) :
  (∀ k p, p ∈ Memtable.current m k → pair_ok (k, deref p)) → Forall Sstable.entry_ok (Snapshot m).
Proof.
  intros Hp. apply Forall_forall. intros [k i] He. apply entry_ok_pair, Hp.
  rewrite <-Snapshot_items. by apply items_of_elem.
Qed.

Lemma versions_snapshot (m : MemTable T) k : versions k (plain <$> Snapshot m) = deref <$> Memtable.current m k.
Proof. by rewrite versions_items_of, Snapshot_items. Qed.

(** ** Steps that leave the tables alone *)

Definition same_tables (σ σ' : sys) (g g' : ghost) : Prop :=
  dir_keeps (d_sst (eng σ)) (d_sst (eng σ')) ∧
  sstables (ly (eng σ')) = sstables (ly (eng σ)) ∧ comp σ' = comp σ ∧ pub g' = pub g ∧
  new_of (pend σ') = new_of (pend σ) ∧
  (∀ m n s, pend σ' = Some (Registered m n (Ok s)) → pend σ = Some (Registered m n (Ok s))).

Lemma same_tables_tables σ σ' g g' : same_tables σ σ' g g' → tables σ' = tables σ.
Proof. intros (_ & Hs & _ & _ & Hn & _). unfold tables. by rewrite Hs, Hn. Qed.

Lemma in_tables_ext σ σ' g g' k c :
  same_tables σ σ' g g' → in_tables σ' g' k c ↔ in_tables σ g k c.
Proof.
  intros Hs. unfold in_tables. rewrite (same_tables_tables _ _ _ _ Hs).
  by destruct Hs as (_ & _ & _ & -> & _).
Qed.

Lemma table_ok_keep d d' g g' s :
  dir_keeps d d' → pub g' (ID s) = pub g (ID s) → table_ok d g s → table_ok d' g' s.
Proof. intros Hk E (H1 & H2 & H3 & H4). unfold table_ok. rewrite E. split_and!; try done. by eapply holds_keeps. Qed.

Lemma table_inv_ext σ σ' g g' : same_tables σ σ' g g' → table_inv σ g → table_inv σ' g'.
Proof.
  intros Hs [H1 H2 H6 H7]. pose proof (same_tables_tables _ _ _ _ Hs) as Ht.
  destruct Hs as (Hd & Hss & Hc & Hpub & _ & Hp).
  split; rewrite ?Ht, ?Hpub, ?Hss; try done.
  - intros s Hs. eapply table_ok_keep; [done| |by apply H1]. by rewrite Hpub.
  - intros m n s k Hr%Hp. by apply (H6 m n).
  - rewrite Hc. intros srcs merged Hcc.
    destruct (H7 srcs merged Hcc) as (pre & post & ? & ? & Hok & ? & ?).
    exists pre, post. split_and!; try done. eapply table_ok_keep; [done| |done]. by rewrite Hpub.
Qed.

Lemma man_inv_ext σ σ' g g' :
  same_tables σ σ' g g' → mf_clean (manifest (eng σ')) → live (manifest (eng σ')) = live (manifest (eng σ)) →
  man_inv σ g → man_inv σ' g'.
Proof.
  intros Hs Hcl Hl [H3 H4 H5 H7]. pose proof (λ k c, in_tables_ext σ σ' g g' k c Hs) as Hin.
  destruct Hs as (Hd & _ & Hc & Hpub & _). split; rewrite ?Hl, ?Hpub, ?Hc; try done.
  - intros id Hid. destruct (H4 id Hid). split; [by eapply published_keeps|done].
  - intros k c. rewrite Hin. apply H5.
Qed.

(** The tables' and the manifest's part where neither file nor list changes. *)
Lemma tables_ext σ σ' g g' :
  same_tables σ σ' g g' → manifest (eng σ') = manifest (eng σ) → intact σ' = intact σ →
  table_inv σ g → (intact σ = true → man_inv σ g) →
  table_inv σ' g' ∧ (intact σ' = true → man_inv σ' g').
Proof.
  intros Hs Hm Hi Ht Hn. split; [by eapply table_inv_ext|]. rewrite Hi. intros Hn'%Hn.
  apply (man_inv_ext σ σ' g g'); rewrite ?Hm; [done|apply Hn'|done|done].
Qed.

Lemma dir_keeps_refl d : dir_keeps d d.
Proof. done. Qed.

(** The log's part of the invariant while writes are not halted. *)
Lemma mk_log_inv σ g :
  failed σ = [] → g_ubs g = [] → d_wal (eng σ) = g_d0 g →
  (∀ s es, (s, es) ∈ all_segs σ g ++ gsegs g → Forall entry_fine es) →
  log_view (g_d0 g) (wal (eng σ)) (segs g) (cur g) → gone_view (gone σ) (wal (eng σ)) (gsegs g) →
  (∀ name s, is_Some (gone σ !! name) → seg_of name = Some s → s ∈ (gsegs g).*1) → NoDup (gsegs g).*1 →
  (∀ s, s ∈ (gsegs g).*1 → (seg_seq s < WalLog.seq (wal (eng σ)))%N ∧ s ∉ (segs g).*1) →
  log_inv σ g.
Proof.
  intros Hf Hu Hd Hp Hv Hg Hn H1 H2. split; rewrite ?Hf, ?Hu; try done.
  - destruct (lv_current _ _ _ _ Hv) as (f & Hc & _). unfold log_WriteBatch, on_current.
    rewrite Hc. cbn. by rewrite insert_id, Hd.
Qed.

(** The newest segment is the current one. *)
Lemma newest_segment σ g s es :
  log_inv σ g → (s, es) ∈ all_segs σ g ++ gsegs g → (seg_seq s ≤ WalLog.seq (wal (eng σ)))%N.
Proof.
  intros Hlog [[Hin|E%list_elem_of_singleton]%elem_of_app|Hin]%elem_of_app.
  - assert (seg_lt s (cur_seg (wal (eng σ)))) as Hlt; [|unfold seg_lt in Hlt; simpl in Hlt; lia].
    apply (StronglySorted_app_1_elem_of seg_lt (segs g).*1 [cur_seg (wal (eng σ))]);
      [apply (lv_sorted _ _ _ _ (li_view _ _ Hlog))|by apply (list_elem_of_fmap_2 fst _ (s, es))|by left].
  - injection E as -> ->. simpl. lia.
  - destruct (proj2 (li_gsegs _ _ Hlog) s) as [? _]; [by apply (list_elem_of_fmap_2 fst _ (s, es))|]. lia.
Qed.

(** ** Commits *)

Lemma apply_loop_fold a d l batch crossed :
  ∃ errs crossed', apply_loop a d l batch crossed =
    (mkLayers (fold_left replay_entry (req_entry <$> batch) (active l)) (flushing l) (sstables l), errs, crossed') ∧
    length errs = length batch ∧
    ∀ i r, batch !! i = Some r → Op (req_entry r) ≠ OpRestore → errs !! i = Some None.
Proof.
  revert l crossed. induction batch as [|r batch IH]; intros l crossed.
  { exists [], crossed. simpl. by destruct l. }
  rewrite fmap_cons. cbn [apply_loop fold_left]. unfold replay_entry at 2.
  destruct (Op (req_entry r) =? OpRestore)%N eqn:Eop; [apply N.eqb_eq in Eop|apply N.eqb_neq in Eop].
  - destruct (replaceAndVerify a d l _ _) as [l1 err] eqn:E.
    assert (l1 = mkLayers (Replace (active l) (Wal.Key (req_entry r)) (Items (req_entry r))) (flushing l) (sstables l)) as ->.
    { revert E. unfold replaceAndVerify. destruct (mergeLayers _ _ _ _) as [[vis ?]|[]]; [destruct (sameVersions _ _)|..];
        by intros [= <- _]. }
    destruct (IH (mkLayers (Replace (active l) (Wal.Key (req_entry r)) (Items (req_entry r))) (flushing l) (sstables l))
      crossed) as (errs & crossed' & -> & Hl & Hn).
    exists (err :: errs), crossed'. split_and!; [done|simpl; lia|]. intros [|i] r' Hi; [|by apply Hn]. by injection Hi as <-.
  - destruct (Wal.Item (req_entry r)) as [i|] eqn:Ei.
    + destruct (Memtable.Put (active l) (Wal.Key (req_entry r)) i) as [m full].
      destruct (IH (mkLayers m (flushing l) (sstables l)) (crossed || full)) as (errs & crossed' & -> & Hl & Hn).
      exists (None :: errs), crossed'. split_and!; [done|simpl; lia|]. intros [|j] r' Hi; [done|by apply Hn].
    + destruct (IH l crossed) as (errs & crossed' & -> & Hl & Hn).
      exists (None :: errs), crossed'. split_and!; [done|simpl; lia|]. intros [|j] r' Hi; [done|by apply Hn].
Qed.

Definition set_must (g : ghost) (mu : string → gmap string N → Prop) : ghost :=
  mkGhost (g_d0 g) (g_iow g) (g_ubs g) (segs g) (cur g) (gsegs g) (pub g) mu.

Definition ghost_log (g : ghost) (d0 : dir) (io : log_io) (ubs : list bytes)
    (sg : list (segment * list Wal.Entry)) (c : list Wal.Entry) (gs : list (segment * list Wal.Entry)) : ghost :=
  mkGhost d0 io ubs sg c gs (pub g) (must g).

(** The system after a batch reached the log and the memtable. *)
Definition applied (σ : sys) (batch : list writeReq) (e' : StorageEngine T B) : sys :=
  mkSys e' (pend σ) (dels σ) (comp σ) (gone σ) (failed σ) (intact σ)
    (λ k, rolls σ k + requested k (req_entry <$> batch)).

Definition ghost_applied (g : ghost) (d : dir) (us : list Wal.Entry) : ghost :=
  mkGhost d lio_fine [] (segs g) (cur g ++ us) (gsegs g) (pub g)
    (λ k c, must g k c ∧ unrestored k us ∨ put_since k us c).

Lemma in_log_snoc σ σ' g g' us P k c :
  wal (eng σ') = wal (eng σ) → segs g' = segs g → cur g' = cur g ++ us →
  in_log σ' g' P k c ↔
    in_log σ g P k c ∨ (P (WalLog.seq (wal (eng σ))) ∧ covered c (wal_items k us)).
Proof.
  intros Hw Hs Hcu. unfold in_log, all_segs. rewrite Hw, Hs, Hcu. split.
  - intros (s & es & [Hin|E%list_elem_of_singleton]%elem_of_app & HP & Hc).
    + left. exists s, es. set_solver.
    + injection E as -> ->. rewrite wal_items_app, covered_app in Hc. destruct Hc as [Hc|Hc]; [left|by right].
      exists (cur_seg (wal (eng σ))), (cur g). split; [set_solver|done].
  - intros [(s & es & [Hin|E%list_elem_of_singleton]%elem_of_app & HP & Hc)|[HP Hc]].
    + exists s, es. set_solver.
    + injection E as -> ->. exists (cur_seg (wal (eng σ))), (cur g ++ us). split; [set_solver|].
      split; [done|]. rewrite wal_items_app, covered_app. by left.
    + exists (cur_seg (wal (eng σ))), (cur g ++ us). split; [set_solver|]. split; [done|].
      rewrite wal_items_app, covered_app. by right.
Qed.

Lemma since_snoc σ σ' g g' us (P : N → Prop) k c :
  log_inv σ g → wal (eng σ') = wal (eng σ) → segs g' = segs g → cur g' = cur g ++ us → gsegs g' = gsegs g →
  (since σ g P k c ∧ unrestored k us) ∨ (P (WalLog.seq (wal (eng σ))) ∧ put_since k us c) →
  since σ' g' P k c.
Proof.
  intros Hlog Hw Hs Hcu Hg. unfold since, all_segs. rewrite Hw, Hs, Hcu, Hg. set (w := cur_seg (wal (eng σ))).
  intros [[(s & es & [Hin|E%list_elem_of_singleton]%elem_of_app & HP & Hp & Hl) Hu]|[HP Hp]].
  - exists s, es. split_and!; [set_solver|done|done|].
    intros s' es' [[Hin'|E%list_elem_of_singleton]%elem_of_app|Hin']%elem_of_app Hlt.
    + apply (Hl s'); [set_solver|done].
    + injection E as -> ->. apply unrestored_app. split; [|done]. apply (Hl w); [set_solver|done].
    + apply (Hl s'); [set_solver|done].
  - injection E as -> ->. exists w, (cur g ++ us). split_and!; [set_solver|done|apply put_since_app; by left|].
    intros s' es' [[Hin'|E%list_elem_of_singleton]%elem_of_app|Hin']%elem_of_app Hlt.
    + apply (Hl s'); [set_solver|done].
    + injection E as -> ->. lia.
    + apply (Hl s'); [set_solver|done].
  - exists w, (cur g ++ us). split_and!; [set_solver|done|apply put_since_app; by right|]. intros s' es' Hin Hlt.
    assert (∃ es, (s', es) ∈ all_segs σ g ++ gsegs g) as (es & Hin2).
    { unfold all_segs. fold w. apply elem_of_app in Hin as [[?|E%list_elem_of_singleton]%elem_of_app|?];
        [exists es'; set_solver| |exists es'; set_solver]. injection E as -> ->. exists (cur g). set_solver. }
    pose proof (newest_segment _ _ _ _ Hlog Hin2). simpl in Hlt. lia.
Qed.

Lemma batch_fine_parts e batch :
  batch_fine e batch →
  Forall2 encodes (req_entry <$> batch) (req_record <$> batch) ∧ Forall entry_fine (req_entry <$> batch).
Proof.
  intros [Hb _]. rewrite Forall_fmap. split.
  - induction Hb as [|r batch [He _] Hb IH]; rewrite ?fmap_cons; by constructor.
  - apply (Forall_impl _ _ _ Hb). by intros r [_ ?].
Qed.

Lemma fine_puts es : Forall entry_fine es → Forall (λ e, ∀ i, Wal.Item e = Some i → e = put_entry (Wal.Key e) i) es.
Proof. intros Hf. apply (Forall_impl _ _ _ Hf). intros e He i. by apply fine_item. Qed.

Lemma rolls_zero σ us k : rolls σ k + requested k us = 0 → rolls σ k = 0 ∧ unrestored k us.
Proof. intros E. split; [lia|]. apply requested_unrestored. lia. Qed.

(** Log, memory and tables still tell the same story when a batch has been
    added to the log's current segment and to the active memtable. *)
Lemma cover_applied σ g batch e' d :
  let us := req_entry <$> batch in
  let σ' := applied σ batch e' in
  let g' := ghost_applied g d us in
  cover_inv σ g → log_inv σ g → wal e' = wal (eng σ) → Forall entry_fine us → failed σ = [] →
  flushing (ly e') = flushing (ly (eng σ)) →
  (∀ k c, unrestored k us → covered c (Memtable.current (active (ly e')) k) ↔
     covered c (Memtable.current (active (ly (eng σ))) k) ∨ covered c (wal_items k us)) →
  (∀ k c, put_since k us c → covered c (Memtable.current (active (ly e')) k)) →
  (∀ k c, in_tables σ' g' k c ↔ in_tables σ g k c) →
  cover_inv σ' g'.
Proof.
  intros us σ' g' [C1 C2 _ C3 C4 C5 C6 C7 C8] Hlog Hw Hfine Hf Hfl Hlow Hput Hit.
  pose proof (λ P k c, in_log_snoc σ σ' g g' us P k c Hw eq_refl eq_refl) as Hil.
  pose proof (λ P k c, since_snoc σ σ' g g' us P k c Hlog Hw eq_refl eq_refl eq_refl) as Hsi.
  assert (∀ k c, unrestored k us → in_mem σ' k c ↔ in_mem σ k c ∨ covered c (wal_items k us)) as Him.
  { intros k c Hu. unfold in_mem, mem_items. cbn [eng applied σ']. rewrite Hfl, !covered_app, Hlow by done. tauto. }
  assert (∀ k c, put_since k us c → in_mem σ' k c) as Hpm.
  { intros k c Hp%Hput. unfold in_mem, mem_items. cbn [eng applied σ']. rewrite covered_app. by left. }
  assert (∀ (P : N → Prop) k c, P (WalLog.seq (wal (eng σ))) →
    (must g k c → since σ g P k c ∨ in_tables σ g k c) → must g' k c → since σ' g' P k c ∨ in_tables σ' g' k c) as Hmu.
  { intros P k c HP Hold [[Hm Hu]|Hp].
    - rewrite Hit. destruct (Hold Hm) as [?|?]; [left; apply Hsi; by left|by right].
    - left. apply Hsi. by right. }
  split.
  - intros k c [[Hm Hu]|Hp]; [|left; by apply Hpm]. rewrite Hit. destruct (C1 k c Hm) as [?|?]; [left; apply Him; tauto|by right].
  - intros k c. apply Hmu; [done|apply C2].
  - intros k c _. cbn. rewrite Hf. constructor.
  - intros k c [Hr Hu]%rolls_zero [?|Hc]%Him; [left; split; [by apply C3|done]| |done].
    right. apply covered_put_since; [done|by apply fine_puts|done].
  - intros k c [Hr Hu]%rolls_zero. rewrite Hil, Hit, Him by done. naive_solver.
  - intros s es k c [Hr Hu]%rolls_zero. rewrite Hit. by apply C5.
  - intros n Hn. cbn in Hn |- *. rewrite Hw. destruct (C6 n Hn) as (D1 & D2 & D3). split_and!; [done| |].
    + intros k c. apply Hmu; [done|apply D2].
    + intros k c [Hr Hu]%rolls_zero. rewrite Hil, Hit. intros [?|[Hle _]]; [auto|lia].
  - intros p Hp. cbn in Hp |- *. rewrite Hw. destruct (C7 p Hp) as (D1 & D2 & D3 & D4). split_and!; [done|done| |].
    + intros k c [[Hm Hu]|Hps]; [|left; apply Hsi; by right]. rewrite Hit.
      destruct (D3 k c Hm) as [?|?]; [left; apply Hsi; by left|by right].
    + intros k c [Hr Hu]%rolls_zero. rewrite Hil, Hit. intros [?|[Hle _]]; [auto|lia].
  - intros k [Hr Hu]%rolls_zero. destruct (C8 k Hr) as [_ Hall]. cbn. rewrite Hf. split; [constructor|].
    intros s es. unfold all_segs. cbn. rewrite Hw.
    unfold all_segs in Hall. intros [[Hin|E%list_elem_of_singleton]%elem_of_app|Hin]%elem_of_app.
    + apply (Hall s). set_solver.
    + injection E as -> ->. apply unrestored_app. split; [|done]. apply (Hall (cur_seg (wal (eng σ)))). set_solver.
    + apply (Hall s). set_solver.
Qed.

(** A batch that was written and applied keeps the invariant; the swap comes
    after. *)
Lemma inv_applied σ g iow batch e' :
  inv σ g → halted (eng σ) = None → batch_fine (eng σ) batch →
  (log_WriteBatch iow (d_wal (eng σ)) (wal (eng σ)) (req_record <$> batch)).2 = None →
  d_wal e' = (log_WriteBatch iow (d_wal (eng σ)) (wal (eng σ)) (req_record <$> batch)).1 →
  wal e' = wal (eng σ) → manifest e' = manifest (eng σ) → d_sst e' = d_sst (eng σ) → halted e' = None →
  ly e' = mkLayers (fold_left replay_entry (req_entry <$> batch) (active (ly (eng σ))))
            (flushing (ly (eng σ))) (sstables (ly (eng σ))) →
  inv (applied σ batch e') (ghost_applied g (d_wal e') (req_entry <$> batch)).
Proof.
  intros [Hlog Hmem Htab Hman Hcov] Hh Hbf HW Hd Hw Hmf Hss Hh' Hly.
  destruct (batch_fine_parts _ _ Hbf) as (Henc & Hfine). destruct Hbf as (_ & Hone).
  set (us := req_entry <$> batch) in *. set (g' := ghost_applied _ _ _).
  destruct (li_fine _ _ Hlog Hh) as [Hfail Hd0].
  assert (log_view (d_wal e') (wal (eng σ)) (segs g) (cur g ++ us)) as Hview.
  { rewrite Hd. apply log_WriteBatch_ok; [|done|done]. rewrite Hd0. apply Hlog. }
  destruct (mi_ok _ Hmem) as [Hma Hmf'].
  destruct (replay_entries (active (ly (eng σ))) us Hma) as (R1 & R2 & R3 & R4).
  { apply (Forall_impl _ _ _ Hfine). apply fine_shaped. }
  { eapply one_object_sub, Hone. intros p [[k Hp]|Hp]; [left; exists k; unfold mem_items; set_solver|by right]. }
  assert (same_tables σ (applied σ batch e') g g') as Hst
    by (unfold same_tables; cbn; rewrite Hly, Hss; by split_and!).
  destruct (tables_ext _ _ _ _ Hst Hmf eq_refl Htab Hman) as [Htab' Hman'].
  split; [| |done|done|].
  - destruct Hlog as [_ _ _ [_ L4] L5 L6 L6' [L7 L8]]. apply mk_log_inv; cbn; rewrite ?Hw; try done.
    intros s es Hin. unfold all_segs in *. cbn in Hin.
    rewrite ?Hw in Hin. apply elem_of_app in Hin as [[Hin|E%list_elem_of_singleton]%elem_of_app|Hin].
    + apply (L4 s). set_solver.
    + injection E as -> ->. apply Forall_app. split; [|done]. apply (L4 (cur_seg (wal (eng σ)))). set_solver.
    + apply (L4 s). set_solver.
  - destruct Hmem as [M1 M2 M3 M4].
    assert (∀ k p, p ∈ mem_items (ly e') k → p ∈ mem_items (ly (eng σ)) k ∨
      ∃ en, en ∈ us ∧ Wal.Key en = k ∧ p ∈ carried en) as Hel.
    { intros k p. unfold mem_items. rewrite Hly. cbn [active flushing]. rewrite !elem_of_app.
      intros [[?|?]%R2|?]; tauto. }
    split; cbn; try done.
    + rewrite Hly. split; cbn; done.
    + intros k k' p q Hp Hq. apply Hone.
      * destruct (Hel _ _ Hp) as [?|(en & ? & _ & ?)]; [by left; exists k|right]. apply list_elem_of_bind; eauto.
      * destruct (Hel _ _ Hq) as [?|(en & ? & _ & ?)]; [by left; exists k'|right]. apply list_elem_of_bind; eauto.
    + intros k p [Hp|(en & He & <- & Hi)]%Hel; [by apply M3|]. rewrite Forall_forall in Hfine.
      by apply fine_pairs; [apply Hfine|].
    + rewrite Hly. done.
  - apply cover_applied; try done; rewrite ?Hly; try done. intros k c. by apply in_tables_ext.
Qed.

(** A new empty segment changes nothing the log covers. *)
Lemma in_log_rotated σ σ' g g' P k c :
  segs g' = segs g ++ [(cur_seg (wal (eng σ)), cur g)] → cur g' = [] →
  in_log σ' g' P k c ↔ in_log σ g P k c.
Proof.
  intros Hs Hc. unfold in_log, all_segs. rewrite Hs, Hc. split.
  - intros (s & es & [Hin|E%list_elem_of_singleton]%elem_of_app & HP & Hco); [by exists s, es|].
    injection E as -> ->. by apply covered_nil in Hco.
  - intros (s & es & Hin & HP & Hco). exists s, es. set_solver.
Qed.

Lemma since_rotated σ σ' g g' P k c :
  segs g' = segs g ++ [(cur_seg (wal (eng σ)), cur g)] → cur g' = [] → gsegs g' = gsegs g →
  since σ g P k c → since σ' g' P k c.
Proof.
  intros Hs Hc Hg. unfold since, all_segs. rewrite Hs, Hc, Hg. intros (s & es & Hin & HP & Hp & Hl).
  exists s, es. split_and!; [set_solver|done|done|].
  intros s' es' [[Hin'|E%list_elem_of_singleton]%elem_of_app|Hin']%elem_of_app Hlt.
  - apply (Hl s'); [set_solver|done].
  - injection E as -> ->. constructor.
  - apply (Hl s'); [set_solver|done].
Qed.

Lemma New_current k max : Memtable.current (Memtable.New max : MemTable T) k = [].
Proof. rewrite current_contents. unfold contents. cbn. by rewrite bt_New_spec, lookup_empty. Qed.

(** The active memtable frozen, the log rotated. *)
Lemma inv_frozen σ g g' d' l' :
  mem_inv σ → table_inv σ g → (intact σ = true → man_inv σ g) → cover_inv σ g →
  flushing (ly (eng σ)) = None → pend σ = None →
  WalLog.seq l' = (WalLog.seq (wal (eng σ)) + 1)%N →
  pub g' = pub g → gsegs g' = gsegs g → must g' = must g →
  (∀ σ', (d_wal (eng σ') = d' ∧ wal (eng σ') = l' ∧ failed σ' = failed σ ∧ gone σ' = gone σ) → log_inv σ' g') →
  (∀ σ' P k c, in_log σ' g' P k c ↔ in_log σ g P k c) →
  (∀ σ' P k c, since σ g P k c → since σ' g' P k c) →
  (∀ σ' s es, wal (eng σ') = l' → (s, es) ∈ all_segs σ' g' ++ gsegs g' → es = [] ∨ (s, es) ∈ all_segs σ g ++ gsegs g) →
  inv (mkSys (set_layers (set_log (eng σ) l' d')
               (mkLayers (Memtable.New (maxBytes (eng σ))) (Some (active (ly (eng σ)))) (sstables (ly (eng σ)))))
        (Some (Frozen (active (ly (eng σ))) (WalLog.seq (wal (eng σ))))) (dels σ) (comp σ) (gone σ) (failed σ)
        (intact σ) (rolls σ)) g'.
Proof.
  intros Hmem Htab Hman [C1 C2 C2' C3 C4 C5 C6 C7 C8] Hfl Hpend Hseq Hp Hg Hmu HL Hil Hsi Hall. set (σ' := mkSys _ _ _ _ _ _ _ _).
  assert (∀ k, mem_items (ly (eng σ')) k = mem_items (ly (eng σ)) k) as Hmi.
  { intros k. unfold mem_items. cbn. rewrite Hfl. cbn. by rewrite New_current, app_nil_r. }
  assert (∀ k c, in_mem σ' k c ↔ in_mem σ k c) as Him by (intros; unfold in_mem; by rewrite Hmi).
  assert (same_tables σ σ' g g') as Hst.
  { unfold same_tables. cbn. rewrite Hpend. split_and!; try done. }
  pose proof (λ k c, in_tables_ext σ σ' g g' k c Hst) as Hit.
  assert (∀ k c, in_mem σ k c ↔ covered c (Memtable.current (active (ly (eng σ))) k)) as Hact.
  { intros k c. unfold in_mem, mem_items. rewrite Hfl. cbn. by rewrite app_nil_r. }
  destruct (tables_ext _ _ _ _ Hst eq_refl eq_refl Htab Hman) as [Htab' Hman'].
  split; [by apply HL| |done|done|].
  - destruct Hmem as [[M1 M1'] M2 M3 M4]. split; try done.
    + split; cbn; [apply New_ok|done].
    + intros k k' p q. rewrite !Hmi. apply M2.
    + intros k p. rewrite Hmi. apply M3.
  - split; rewrite ?Hmu.
    + intros k c. rewrite Him, Hit. apply C1.
    + intros k c Hm. rewrite Hit. destruct (C2 k c Hm); auto.
    + apply C2'.
    + intros k c. rewrite Him. apply C3.
    + intros k c. rewrite Hil, Him, Hit. apply C4.
    + intros s es k c. rewrite Hg, Hit. apply C5.
    + intros m Hm. destruct (C6 m Hm) as (D1 & D2 & D3). cbn. split_and!; [lia| |].
      * intros k c Hc. rewrite Hit. destruct (D2 k c Hc); auto.
      * intros k c. rewrite Hil, Hit. apply D3.
    + intros p [= <-]. cbn. split_and!; [lia| | |].
      * intros m Hm. destruct (C6 m Hm) as (D1 & _). lia.
      * intros k c Hc. rewrite Hit, <-Hact. right. by apply C1.
      * intros k c Hr. rewrite Hil, Hit, <-Hact. intros (s & es & ? & _ & ?). apply C4; [done|]. by exists s, es.
    + intros k Hr. destruct (C8 k Hr) as [Hf Hn]. split; [done|]. intros s es [->|Hin]%Hall; [constructor|by eapply Hn|done].
Qed.

(** Where only the log's files change. *)
Lemma cover_rotated σ σ' g g' :
  cover_inv σ g → (WalLog.seq (wal (eng σ)) ≤ WalLog.seq (wal (eng σ')))%N → ly (eng σ') = ly (eng σ) →
  pend σ' = pend σ → dels σ' = dels σ → failed σ' = failed σ → rolls σ' = rolls σ →
  pub g' = pub g → gsegs g' = gsegs g → must g' = must g →
  (∀ P k c, in_log σ' g' P k c ↔ in_log σ g P k c) → (∀ P k c, since σ g P k c → since σ' g' P k c) →
  (∀ s es, (s, es) ∈ all_segs σ' g' ++ gsegs g' → es = [] ∨ (s, es) ∈ all_segs σ g ++ gsegs g) →
  cover_inv σ' g'.
Proof.
  intros [C1 C2 C2' C3 C4 C5 C6 C7 C8] Hseq Hly Hp Hd Hf Hr Hpub Hg Hmu Hil Hsi Hall.
  assert (∀ k c, in_mem σ' k c ↔ in_mem σ k c) as Him by (intros; unfold in_mem; by rewrite Hly).
  assert (∀ k c, in_tables σ' g' k c ↔ in_tables σ g k c) as Hit
    by (intros; unfold in_tables, tables; by rewrite Hly, Hp, Hpub).
  split; rewrite ?Hp, ?Hd, ?Hf, ?Hr, ?Hmu, ?Hg.
  - intros k c. rewrite Him, Hit. apply C1.
  - intros k c Hm. rewrite Hit. destruct (C2 k c Hm); auto.
  - apply C2'.
  - intros k c. rewrite Him. apply C3.
  - intros k c. rewrite Hil, Him, Hit. apply C4.
  - intros s es k c. rewrite Hit. apply C5.
  - intros n Hn. destruct (C6 n Hn) as (D1 & D2 & D3). split_and!; [lia| |].
    + intros k c Hm. rewrite Hit. destruct (D2 k c Hm); auto.
    + intros k c. rewrite Hil, Hit. apply D3.
  - intros p Hpp. destruct (C7 p Hpp) as (D1 & D2 & D3 & D4). split_and!; [lia|done| |].
    + intros k c Hm. rewrite Hit. destruct (D3 k c Hm); auto.
    + intros k c. rewrite Hil, Hit. apply D4.
  - intros k Hz. destruct (C8 k Hz) as [Hff Hn]. split; [done|]. rewrite <-Hg. intros s es [->|Hin]%Hall; [constructor|by eapply Hn].
Qed.

Lemma inv_swap σ g io e' fl :
  inv σ g → halted (eng σ) = None → flushing (ly (eng σ)) = None →
  (WalLog.seq (wal (eng σ)) + 1 < two64)%N → swap io (eng σ) = (e', fl) →
  ∃ g', inv (mkSys e' (start_flush (pend σ) fl) (dels σ) (comp σ) (gone σ) (failed σ) (intact σ) (rolls σ)) g' ∧
    must g' = must g.
Proof.
  intros [Hlog Hmem Htab Hman Hcov] Hh Hfl Hseq. unfold swap.
  destruct (li_fine _ _ Hlog Hh) as [Hfail Hd0]. pose proof (li_view _ _ Hlog) as Hv.
  rewrite <-Hd0 in Hv. pose proof (Rotate_view io _ _ _ _ Hv Hseq) as Hrot.
  destruct (Rotate io (d_wal (eng σ)) (wal (eng σ))) as [[d' l'] [n err]].
  assert (pend σ = None) as Hpend.
  { pose proof (mi_pend _ Hmem) as E. rewrite Hfl in E. by destruct (pend σ). }
  destruct Hlog as [_ _ _ [_ L4] L5 L6 L6' [L7 L8]].
  destruct Hrot as [(-> & [err' ->] & Hv')|(-> & Hseq' & Hv' & _)].
  - intros [= <- <-]. exists (ghost_log g d' lio_fine [] (segs g) (cur g) (gsegs g)). split; [|done].
    set (σ' := mkSys _ _ _ _ _ _ _ _). set (g' := ghost_log _ _ _ _ _ _ _).
    assert (same_tables σ σ' g g') as Hst by by split_and!.
    destruct (tables_ext _ _ _ _ Hst eq_refl eq_refl Htab Hman) as [Htab' Hman'].
    split; [by apply mk_log_inv|by destruct Hmem|done|done|by destruct Hcov].
  - set (g' := ghost_log g d' lio_fine [] (segs g ++ [(cur_seg (wal (eng σ)), cur g)]) [] (gsegs g)).
    assert (∀ σ', (d_wal (eng σ') = d' ∧ wal (eng σ') = l' ∧ failed σ' = [] ∧ gone σ' = gone σ) → log_inv σ' g')
      as HL.
    { intros σ' (E1 & E2 & E3 & E4). apply mk_log_inv; cbn; rewrite ?E2, ?E4; try done.
      - unfold all_segs. cbn. intros s es [[Hin|E%list_elem_of_singleton]%elem_of_app|Hin]%elem_of_app.
        + apply (L4 s). unfold all_segs. set_solver.
        + injection E as -> ->. constructor.
        + apply (L4 s). set_solver.
      - intros name f Hg. destruct (L6 name f Hg) as (s & ? & ? & ? & ?). exists s. split_and!; try done. lia.
      - intros s Hs. destruct (L8 s Hs) as [? ?]. split; [lia|]. rewrite fmap_app.
        intros [?|E%list_elem_of_singleton]%elem_of_app; [done|]. simpl in E. subst s. simpl in *. lia. }
    assert (∀ σ' P k c, in_log σ' g' P k c ↔ in_log σ g P k c) as Hil by (intros; by apply in_log_rotated).
    assert (∀ σ' P k c, since σ g P k c → since σ' g' P k c) as Hsi
      by (intros σ' P k c; by apply since_rotated).
    assert (∀ σ' s es, (s, es) ∈ all_segs σ' g' ++ gsegs g' → es = [] ∨ (s, es) ∈ all_segs σ g ++ gsegs g) as Hall.
    { intros σ' s es [[Hin|E%list_elem_of_singleton]%elem_of_app|Hin]%elem_of_app; [right; unfold all_segs; set_solver|
        injection E as _ ->; by left|right; set_solver]. }
    destruct err as [err|]; intros [= <- <-]; exists g'; (split; [|done]).
    + set (σ' := mkSys _ _ _ _ _ _ _ _). assert (same_tables σ σ' g g') as Hst by by split_and!.
      destruct (tables_ext _ _ _ _ Hst eq_refl eq_refl Htab Hman) as [Htab' Hman'].
      split; [by apply HL|by destruct Hmem|done|done|]. apply (cover_rotated σ σ' g g'); try done; [cbn; lia|apply Hsi|apply Hall].
    + apply (inv_frozen σ g g'); try done.
      * intros σ' (? & ? & ? & ?). apply HL. split_and!; congruence.
      * intros σ' s es _. apply Hall.
Qed.

(** A batch whose write failed: nothing is applied, and its entries may or
    may not be in the log. *)
Lemma inv_failed σ g iow batch d err :
  inv σ g → halted (eng σ) = None → batch_fine (eng σ) batch →
  log_WriteBatch iow (d_wal (eng σ)) (wal (eng σ)) (req_record <$> batch) = (d, Some err) →
  let us := req_entry <$> batch in
  inv (mkSys (set_halted (set_log (eng σ) (wal (eng σ)) d) (Some err)) (pend σ) (dels σ) (comp σ) (gone σ)
         us (intact σ) (λ k, rolls σ k + requested k us))
      (mkGhost (g_d0 g) iow (req_record <$> batch) (segs g) (cur g) (gsegs g) (pub g)
         (λ k c, must g k c ∧ unrestored k us)).
Proof.
  intros [Hlog Hmem Htab Hman Hcov] Hh Hbf HW us. destruct (batch_fine_parts _ _ Hbf) as (Henc & Hfine).
  destruct (li_fine _ _ Hlog Hh) as [_ Hd0]. destruct Hlog as [L1 L2 L3 [_ L4] L5 L6 L6' L7].
  set (σ' := mkSys _ _ _ _ _ _ _ _). set (g' := mkGhost _ _ _ _ _ _ _ _).
  assert (same_tables σ σ' g g') as Hst by by split_and!.
  destruct (tables_ext _ _ _ _ Hst eq_refl eq_refl Htab Hman) as [Htab' Hman'].
  split; [|by destruct Hmem|done|done|].
  - split; cbn; try done. by rewrite <-Hd0, HW.
  - destruct Hcov as [C1 C2 C2' C3 C4 C5 C6 C7 C8]. split.
    + intros k c [Hm _]. by apply C1.
    + intros k c [Hm _]. by apply C2.
    + by intros k c [_ ?].
    + intros k c [Hr Hu]%rolls_zero Hc. split; [by apply C3|done].
    + intros k c [Hr Hu]%rolls_zero. by apply C4.
    + intros s es k c [Hr Hu]%rolls_zero. by apply C5.
    + intros n Hn. destruct (C6 n Hn) as (D1 & D2 & D3). split_and!; [done| |].
      * intros k c [Hm _]. by apply D2.
      * intros k c [Hr _]%rolls_zero. by apply D3.
    + intros p Hp. destruct (C7 p Hp) as (D1 & D2 & D3 & D4). split_and!; [done|done| |].
      * intros k c [Hm _]. by apply D3.
      * intros k c [Hr _]%rolls_zero. by apply D4.
    + intros k [Hr Hu]%rolls_zero. destruct (C8 k Hr) as [_ Hn]. by split.
Qed.

(** More restores requested only weaken what is said of the keys. *)
Lemma inv_rolls σ g r :
  inv σ g → (∀ k, rolls σ k ≤ r k) →
  inv (mkSys (eng σ) (pend σ) (dels σ) (comp σ) (gone σ) (failed σ) (intact σ) r) g.
Proof.
  intros [Hlog Hmem Htab Hman [C1 C2 C2' C3 C4 C5 C6 C7 C8]] Hr.
  assert (∀ k, r k = 0 → rolls σ k = 0) as Hz by (intros k E; specialize (Hr k); lia).
  split; [by destruct Hlog|by destruct Hmem|by destruct Htab|intros Hi; by destruct (Hman Hi)|].
  split; try done.
  - intros k c E. apply C3. by apply Hz.
  - intros k c E. apply C4. by apply Hz.
  - intros s es k c E. apply C5. by apply Hz.
  - intros n Hn. destruct (C6 n Hn) as (D1 & D2 & D3). split_and!; [done|done|]. intros k c E. apply D3. by apply Hz.
  - intros p Hp. destruct (C7 p Hp) as (D1 & D2 & D3 & D4). split_and!; [done|done|done|]. intros k c E. apply D4. by apply Hz.
  - intros k E. apply C8. by apply Hz.
Qed.

(** What has to stay covered does, but for keys that are restored. *)
Definition carries (σ σ' : sys) (g g' : ghost) : Prop :=
  ∀ k c, must g k c → rolls σ' k = rolls σ k → must g' k c.

Lemma carries_same σ σ' g g' : must g' = must g → carries σ σ' g g'.
Proof. intros E k c Hm _. by rewrite E. Qed.

Lemma commit_unrestored (σ : sys) us k : rolls σ k + requested k us = rolls σ k → unrestored k us.
Proof. intros E. apply requested_unrestored. lia. Qed.

(** A commit: what is acknowledged has to stay covered from then on. *)
Lemma inv_commit σ g iow ior a batch e' errs fl :
  inv σ g → batch_fine (eng σ) batch → (WalLog.seq (wal (eng σ)) + 3 < two64)%N →
  commit iow ior a (eng σ) batch = (e', errs, fl) →
  ∃ g', inv (committed σ batch e' fl) g' ∧ carries σ (committed σ batch e' fl) g g' ∧
    (Forall is_Some errs ∨ ∀ k c, put_since k (req_entry <$> batch) c → must g' k c).
Proof.
  intros Hinv Hbf Hseq. unfold commit, haltErr, committed.
  assert (∀ err : writeReq → Engine.error, Forall is_Some ((λ r, Some (err r)) <$> batch)) as Hsome
    by (intros err; apply Forall_fmap, Forall_forall; eauto).
  destruct (halted (eng σ)) as [cause|] eqn:Hh; cbn [fmap option_fmap option_map].
  { intros [= <- <- <-]. exists g. cbn [start_flush].
    split_and!; [apply inv_rolls; [done|intros; lia]|by apply carries_same|left; apply (Hsome (λ _, _))]. }
  destruct (log_WriteBatch _ _ _ _) as [d [err|]] eqn:HW.
  { intros [= <- <- <-]. unfold halt. cbn. rewrite Hh. cbn. eexists. split_and!; [by apply inv_failed| |left; apply Hsome].
    intros k c Hm E. split; [done|by apply (commit_unrestored σ)]. }
  set (e1 := set_cnt _ _). unfold apply.
  destruct (apply_loop_fold a (d_sst e1) (ly e1) batch false) as (errs' & crossed & -> & _).
  set (l := mkLayers _ _ _). set (e2 := set_layers e1 l).
  assert (inv (applied σ batch e2) (ghost_applied g (d_wal e2) (req_entry <$> batch))) as H2.
  { eapply (inv_applied σ g iow batch e2); try done; by rewrite HW. }
  assert (∀ k c, must g k c → rolls σ k + requested k (req_entry <$> batch) = rolls σ k →
    must (ghost_applied g (d_wal e2) (req_entry <$> batch)) k c) as Hca.
  { intros k c Hm E. left. split; [done|by apply (commit_unrestored σ)]. }
  destruct (crossed && _) eqn:Ec.
  - destruct (swap ior e2) as [e3 fl'] eqn:Es. intros [= <- <- <-].
    assert (halted e3 = None) as Hh3.
    { revert Es. unfold swap. destruct (Rotate _ _ _) as [[? ?] [? [?|]]]; by intros [= <- _]. }
    rewrite Hh3. edestruct (inv_swap (applied σ batch e2)) as (g' & Hg' & Hm'); [exact H2|done| |cbn; lia|done|].
    { apply andb_true_iff in Ec as [_ Ec]. cbn in *. by destruct (flushing (ly (eng σ))). }
    exists g'. split_and!; [exact Hg'| |right]; rewrite ?Hm'.
    + intros k c Hm E. rewrite Hm'. by apply Hca.
    + intros k c Hp. by right.
  - intros [= <- <- <-]. eexists. cbn [start_flush]. assert (halted e2 = None) as -> by done.
    split_and!; [exact H2|exact Hca|right]. intros k c Hp. by right.
Qed.


(** ** Flushes *)

Lemma sst_id_ok now : id_ok (sst_id now).
Proof.
  unfold sst_id, id_ok, word. rewrite to_bytes_app. split; [done|]. apply Forall_app.
  split; [by repeat constructor|apply pretty_word].
Qed.

Definition with_pub (g : ghost) (id : string) (es : list (string * DataItem)) : ghost :=
  mkGhost (g_d0 g) (g_iow g) (g_ubs g) (segs g) (cur g) (gsegs g)
    (λ id', if decide (id' = id) then es else pub g id') (must g).

(** The log's part only looks at the log. *)
Lemma log_inv_ext σ σ' g g' :
  log_inv σ g → wal (eng σ') = wal (eng σ) → d_wal (eng σ') = d_wal (eng σ) → halted (eng σ') = halted (eng σ) →
  gone σ' = gone σ → failed σ' = failed σ →
  g_d0 g' = g_d0 g → g_iow g' = g_iow g → g_ubs g' = g_ubs g → segs g' = segs g → cur g' = cur g → gsegs g' = gsegs g →
  log_inv σ' g'.
Proof.
  intros [L1 L2 L3 L4 L5 L6 L6' L7] E1 E2 E3 E4 E5 E6 E7 E8 E9 E10 E11.
  split; unfold all_segs in *; rewrite ?E1, ?E2, ?E3, ?E4, ?E5, ?E6, ?E7, ?E8, ?E9, ?E10, ?E11; done.
Qed.

(** Tables that come to hold more keep what memory and the log need of them. *)
Lemma cover_inv_mono σ σ' g g' :
  cover_inv σ g → wal (eng σ') = wal (eng σ) → segs g' = segs g → cur g' = cur g → gsegs g' = gsegs g →
  must g' = must g → dels σ' = dels σ → failed σ' = failed σ → rolls σ' = rolls σ →
  active (ly (eng σ')) = active (ly (eng σ)) → flushing (ly (eng σ')) = flushing (ly (eng σ)) →
  (∀ p, pend σ' = Some p → ∃ q, pend σ = Some q ∧ sealed_of p = sealed_of q ∧ frozen_of p = frozen_of q) →
  (∀ k c, in_tables σ g k c → in_tables σ' g' k c) →
  cover_inv σ' g'.
Proof.
  intros [C1 C2 C2' C3 C4 C5 C6 C7 C8] E1 E2 E3 E4 Em E5 Ef Er E6 E7 Hp Ht.
  assert (∀ P k c, in_log σ' g' P k c ↔ in_log σ g P k c) as Hil
    by (intros; unfold in_log, all_segs; by rewrite E1, E2, E3).
  assert (∀ P k c, since σ' g' P k c ↔ since σ g P k c) as Hsi
    by (intros; unfold since, all_segs; by rewrite E1, E2, E3, E4).
  assert (∀ k c, in_mem σ' k c ↔ in_mem σ k c) as Him by (intros; unfold in_mem, mem_items; by rewrite E6, E7).
  split; rewrite ?E1, ?E4, ?E5, ?E6, ?Em, ?Ef, ?Er.
  - intros k c. rewrite Him. intros [?|?]%C1; auto.
  - intros k c. rewrite Hsi. intros [?|?]%C2; auto.
  - apply C2'.
  - intros k c. rewrite Him. apply C3.
  - intros k c Hr. rewrite Him, Hil. intros [?|?]%C4; auto.
  - intros s es k c Hr Hin Hc. apply Ht. by eapply C5.
  - intros n Hn. destruct (C6 n Hn) as (D1 & D2 & D3). split_and!; [done| |]; intros k c.
    + rewrite Hsi. intros [?|?]%D2; auto.
    + intros Hr. rewrite Hil. intros; by apply Ht, D3.
  - intros p (q & Hq & -> & ->)%Hp. destruct (C7 q Hq) as (D1 & D2 & D3 & D4). split_and!; [done|done| |]; intros k c.
    + rewrite Hsi. intros [?|[?|?]]%D3; auto.
    + intros Hr. rewrite Hil. intros [?|?]%D4; auto.
  - intros k Hr. destruct (C8 k Hr) as [Hf Hn]. split; [done|]. unfold all_segs in *. by rewrite E1, E2, E3.
Qed.

Lemma with_pub_eq g id es : pub (with_pub g id es) id = es.
Proof. cbn. by rewrite decide_True. Qed.

Lemma with_pub_ne g id es id' : id' ≠ id → pub (with_pub g id es) id' = pub g id'.
Proof. intros. cbn. by rewrite decide_False. Qed.

(** A table just written under a free name. *)
Lemma new_table io d g id entries d' s :
  id_ok id → Forall Sstable.entry_ok entries → WriteWithID io d id entries = (d', Ok s) → (Size s < two63)%Z →
  ID s = id ∧ table_ok d' (with_pub g id (plain <$> entries)) s ∧ published d' id (plain <$> entries) ∧
  Forall pair_ok (plain <$> entries).
Proof.
  intros Hid He HW Hs. assert (Forall pair_ok (plain <$> entries)) as Hpo by by apply Forall_fmap.
  destruct (WriteWithID_holds _ _ _ _ _ _ He HW Hs) as (Ht & Hi & Hp & _ & s' & Ho & Ht' & Hi' & Hp' & _).
  split_and!; [done| |by split; [|exists s']|done]. unfold table_ok. rewrite Hi, with_pub_eq. done.
Qed.

(** A free name is no table's. *)
Lemma fresh_id σ g id :
  table_inv σ g → d_sst (eng σ) !! sst_name id = None →
  id ∉ ID <$> tables σ ∧ (∀ srcs merged, comp σ = Some (srcs, merged) → ID merged ≠ id).
Proof.
  intros Ht Hn. assert (∀ s, table_ok (d_sst (eng σ)) g s → ID s ≠ id) as Hne.
  { intros s (Hh & Hp & _) <-. destruct (th_file _ _ _ Hh) as (f & Hf & _). congruence. }
  split_and!.
  - intros (s & -> & Hs)%list_elem_of_fmap. by apply (Hne s); [apply Ht|].
  - intros srcs merged Hc. destruct (ti_comp _ _ Ht _ _ Hc) as (? & ? & _ & _ & Hok & _). by apply Hne.
Qed.

Lemma fresh_live σ g id : man_inv σ g → d_sst (eng σ) !! sst_name id = None → id ∉ live (manifest (eng σ)).
Proof.
  intros Hm Hn Hl. destruct (mn_live _ _ Hm _ Hl) as [(_ & s & Ho & _) _]. revert Ho. unfold Sstable.Open. by rewrite Hn.
Qed.

(** What was there stays as it was when a table is written under a free name. *)
Lemma table_ok_fresh σ g id es d' s :
  d_sst (eng σ) !! sst_name id = None → dir_keeps (d_sst (eng σ)) d' → table_ok (d_sst (eng σ)) g s →
  table_ok d' (with_pub g id es) s ∧ pub (with_pub g id es) (ID s) = pub g (ID s).
Proof.
  intros Hn Hk Hok. assert (ID s ≠ id) as Hne.
  { intros <-. destruct Hok as (Hh & Hp & _). destruct (th_file _ _ _ Hh) as (f & Hf & _). congruence. }
  split; [|by apply with_pub_ne]. eapply table_ok_keep; [done| |done]. by apply with_pub_ne.
Qed.

Lemma comp_fresh σ g id es σ' :
  table_inv σ g → d_sst (eng σ) !! sst_name id = None → dir_keeps (d_sst (eng σ)) (d_sst (eng σ')) →
  comp σ' = comp σ → sstables (ly (eng σ')) = sstables (ly (eng σ)) →
  (∀ x, x ∈ ID <$> tables σ' → x = id ∨ x ∈ ID <$> tables σ) →
  ∀ srcs merged, comp σ' = Some (srcs, merged) →
    ∃ pre post, sstables (ly (eng σ')) = pre ++ srcs ++ post ∧ srcs ≠ [] ∧
      table_ok (d_sst (eng σ')) (with_pub g id es) merged ∧ ID merged ∉ ID <$> tables σ' ∧
      (∀ k, versions k (pub (with_pub g id es) (ID merged)) =
        canon (concat ((λ s, versions k (pub (with_pub g id es) (ID s))) <$> srcs))).
Proof.
  intros Ht Hn Hk Hc Hs Htabs srcs merged Hcc. rewrite Hc in Hcc.
  destruct (ti_comp _ _ Ht _ _ Hcc) as (pre & post & E & Hne & Hok & Hnew & Hv).
  destruct (fresh_id _ _ _ Ht Hn) as (F1 & F3).
  assert (∀ s, s ∈ srcs → s ∈ tables σ) as Hin.
  { intros s Hin. unfold tables. rewrite E. set_solver. }
  destruct (table_ok_fresh σ g id es _ merged Hn Hk Hok) as [Hok' Epub].
  exists pre, post. rewrite Hs. split_and!; try done.
  - intros [E1|?]%Htabs; [by apply (F3 _ _ Hcc)|done].
  - intros k. rewrite Epub, Hv. do 2 f_equal. apply list_fmap_ext. intros i s Hi%list_elem_of_lookup_2.
    by destruct (table_ok_fresh σ g id es _ s Hn Hk (ti_ok _ _ Ht _ (Hin _ Hi))) as [_ ->].
Qed.

Lemma live_fresh σ g id es d' x :
  man_inv σ g → dir_keeps (d_sst (eng σ)) d' →
  published d' id es → Forall pair_ok es → x ∈ {[id]} ∪ live (manifest (eng σ)) →
  published d' x (pub (with_pub g id es) x) ∧ Forall pair_ok (pub (with_pub g id es) x).
Proof.
  intros Ht Hk Hpub Hpo Hx. destruct (decide (x = id)) as [->|Hne]; [by rewrite with_pub_eq|].
  rewrite with_pub_ne by done. destruct (mn_live _ _ Ht x) as [? ?]; [set_solver|].
  split; [by eapply published_keeps|done].
Qed.

(** The tables' part after a flush has registered its table. *)
Lemma table_inv_register σ g m n s d mf es ok :
  table_inv σ g → pend σ = Some (Frozen m n) → d_sst (eng σ) !! sst_name (ID s) = None →
  dir_keeps (d_sst (eng σ)) d → table_ok d (with_pub g (ID s) es) s →
  (∀ k, versions k es = deref <$> Memtable.current m k) →
  let σ' := mkSys (set_tables (eng σ) mf d) (Some (Registered m n (Ok s))) (dels σ) (comp σ) (gone σ) (failed σ)
              ok (rolls σ) in
  table_inv σ' (with_pub g (ID s) es) ∧
  ∀ k c, in_tables σ' (with_pub g (ID s) es) k c ↔ in_tables σ g k c ∨ covered c (versions k es).
Proof.
  intros Ht Hp Hn Hk Hok Hv. cbv zeta. set (σ' := mkSys _ _ _ _ _ _ _ _).
  destruct (fresh_id _ _ _ Ht Hn) as (F1 & F3).
  assert (tables σ' = s :: tables σ) as Htabs by (unfold tables; cbn; by rewrite Hp).
  assert (∀ t, t ∈ tables σ → table_ok d (with_pub g (ID s) es) t ∧ pub (with_pub g (ID s) es) (ID t) = pub g (ID t))
    as Hold by (intros t Hti; apply (table_ok_fresh σ); [done|done|by apply Ht]).
  split; [split; cbn [eng manifest d_sst σ' set_tables]; rewrite ?Htabs|].
  - intros t [->|Hti]%elem_of_cons; [done|by apply Hold].
  - rewrite fmap_cons. constructor; [done|]. apply Ht.
  - intros m' n' s' k [= <- <- <-]. by rewrite with_pub_eq.
  - rewrite <-Htabs. apply (comp_fresh σ g (ID s) es σ'); try done.
    rewrite Htabs. intros x. rewrite fmap_cons. set_solver.
  - intros k c. unfold in_tables. rewrite Htabs. split.
    + intros (t & [->|Hti]%elem_of_cons & Hc); [right; by rewrite with_pub_eq in Hc|].
      left. exists t. destruct (Hold t Hti) as [_ E]. by rewrite E in Hc.
    + intros [(t & Hti & Hc)|Hc]; [exists t|exists s]; (split; [set_solver|]).
      * by destruct (Hold t Hti) as [_ ->].
      * by rewrite with_pub_eq.
Qed.

Lemma man_inv_register σ g (s : SSTable B) es σ' :
  man_inv σ g → table_inv σ g → d_sst (eng σ) !! sst_name (ID s) = None →
  dir_keeps (d_sst (eng σ)) (d_sst (eng σ')) → published (d_sst (eng σ')) (ID s) es → Forall pair_ok es →
  mf_clean (manifest (eng σ')) → live (manifest (eng σ')) = {[ID s]} ∪ live (manifest (eng σ)) → comp σ' = comp σ →
  (∀ k c, in_tables σ' (with_pub g (ID s) es) k c ↔ in_tables σ g k c ∨ covered c (versions k es)) →
  man_inv σ' (with_pub g (ID s) es).
Proof.
  intros Hm Ht Hn Hk Hpub Hpo Hcl Hl Hc Hit. pose proof (fresh_live _ _ _ Hm Hn) as F2.
  destruct (fresh_id _ _ _ Ht Hn) as (F1 & _). split; [done| | |].
  - intros id Hid. apply (live_fresh σ); try done. by rewrite <-Hl.
  - intros k c. rewrite Hit, Hl, (mn_same _ _ Hm). split.
    + intros [(id & Hid & Hco)|Hco]; [exists id|exists (ID s)]; (split; [set_solver|]).
      * rewrite with_pub_ne; [done|]. by intros ->.
      * by rewrite with_pub_eq.
    + intros (id & [->%elem_of_singleton|Hid]%elem_of_union & Hco).
      * right. by rewrite with_pub_eq in Hco.
      * left. exists id. rewrite with_pub_ne in Hco by (by intros ->). done.
  - rewrite Hc, Hl. intros srcs merged Hcc t Hti. destruct (ti_comp _ _ Ht _ _ Hcc) as (pre & post & E & _).
    intros [E1%elem_of_singleton|?]%elem_of_union; [|by eapply (mn_comp _ _ Hm)].
    apply F1. rewrite <-E1. apply list_elem_of_fmap_2. unfold tables. rewrite E. set_solver.
Qed.

(** A flush that could not register its table. *)
Lemma inv_unregistered σ g m n mf d err ok :
  inv σ g → pend σ = Some (Frozen m n) → dir_keeps (d_sst (eng σ)) d →
  (ok = true → intact σ = true ∧ mf_clean mf ∧ live mf = live (manifest (eng σ))) →
  inv (mkSys (set_tables (eng σ) mf d) (Some (Registered m n (Err err))) (dels σ) (comp σ) (gone σ) (failed σ)
         ok (rolls σ)) g.
Proof.
  intros [Hlog Hmem Htab Hman Hcov] Hp Hk Hok. set (σ' := mkSys _ _ _ _ _ _ _ _).
  assert (same_tables σ σ' g g) as Hst by (unfold same_tables; cbn; rewrite Hp; by split_and!).
  split; [by eapply log_inv_ext| |by eapply table_inv_ext| |].
  - destruct Hmem as [M1 M2 M3 M4]. split; try done. cbn. by rewrite M4, Hp.
  - cbn. intros (Hi & Hcl & Hl)%Hok. apply (man_inv_ext σ σ' g g); [done|done|done|by apply Hman].
  - eapply cover_inv_mono; try done; [|intros k c; by apply in_tables_ext]. intros p [= <-]. by exists (Frozen m n).
Qed.

Lemma inv_register σ g m n sio mio now e' r :
  inv σ g → pend σ = Some (Frozen m n) → d_sst (eng σ) !! sst_name (sst_id now) = None →
  writeAndRegister sio mio now (eng σ) (Snapshot m) = (e', r) → size_ok r →
  ∃ g', inv (mkSys e' (Some (Registered m n r)) (dels σ) (comp σ) (gone σ) (failed σ) (intact σ && mio_ok mio)
               (rolls σ)) g' ∧ must g' = must g.
Proof.
  intros Hinv Hp Hfree. pose proof Hinv as [Hlog Hmem Htab Hman Hcov]. unfold writeAndRegister. fold (sst_id now).
  assert (Forall Sstable.entry_ok (Snapshot m)) as Hents.
  { apply snapshot_pairs. intros k p Hin. apply Hmem. unfold mem_items. rewrite (mi_pend _ Hmem), Hp. cbn. set_solver. }
  destruct (WriteWithID sio (d_sst (eng σ)) (sst_id now) (Snapshot m)) as [d [s|err]] eqn:HW;
    pose proof (write_keeps _ _ _ _ _ _ Hfree HW) as Hk.
  - destruct (WriteWithID_id _ _ _ _ _ _ HW) as [Hid _]. rewrite Hid.
    pose proof (λ H1 H2, mf_run_ok mio (manifest (eng σ)) (OpAdd (sst_id now)) H1 H2 (sst_id_ok now)) as Hrun.
    cbn [mf_run mf_effect] in *. destruct (Add mio (manifest (eng σ)) (sst_id now)) as [mf [err|]]; intros [= <- <-] Hsz.
    + exists g. split; [|done]. apply inv_unregistered; [done..|].
      intros [Hi Hio]%andb_true_iff. destruct (Hrun Hio (mn_clean _ _ (Hman Hi))) as (? & [[? _]|[_ ?]]); done.
    + cbn in Hsz. destruct (new_table sio _ g _ _ _ _ (sst_id_ok now) Hents HW Hsz) as (_ & Hok & Hpub & Hpo).
      exists (with_pub g (ID s) (plain <$> Snapshot m)). split; [|done]. rewrite <-Hid in *.
      destruct (table_inv_register σ g m n s d mf _ (intact σ && mio_ok mio) Htab Hp Hfree Hk Hok (versions_snapshot m))
        as [Htab' Hit].
      split; [by eapply log_inv_ext| |done| |].
      * destruct Hmem as [M1 M2 M3 M4]. split; try done. cbn. by rewrite M4, Hp.
      * cbn. intros [Hi Hio]%andb_true_iff. destruct (Hrun Hio (mn_clean _ _ (Hman Hi))) as (? & [[_ ?]|[? _]]); [|done].
        by apply (man_inv_register σ g s); [apply Hman|..].
      * eapply cover_inv_mono; try done; [intros p [= <-]; by exists (Frozen m n)|].
        intros k c Hc. apply Hit. by left.
  - intros [= <- <-] _. exists g. split; [|done]. apply inv_unregistered; [done..|].
    intros [Hi _]%andb_true_iff. split_and!; [done|apply Hman, Hi|done].
Qed.

(** The memory part when the layers hold less, or the same. *)
Lemma mem_inv_sub σ σ' :
  mem_inv σ → layers_ok (ly (eng σ')) → flushing (ly (eng σ')) = frozen_of <$> pend σ' →
  (∀ k p, p ∈ mem_items (ly (eng σ')) k → p ∈ mem_items (ly (eng σ)) k) → mem_inv σ'.
Proof.
  intros [M1 M2 M3 M4] Hl Hp Hsub. split; try done.
  - intros k k' p q Hp1 Hq. by apply (M2 k k'); apply Hsub.
  - intros k p Hin. by apply M3, Hsub.
Qed.

Lemma inv_install_ok σ g m n s :
  inv σ g → pend σ = Some (Registered m n (Ok s)) →
  inv (mkSys (flush_install (eng σ) m (Ok s)) None (n :: dels σ) (comp σ) (gone σ) (failed σ) (intact σ) (rolls σ)) g.
Proof.
  intros [Hlog Hmem Htab Hman Hcov] Hp. set (σ' := mkSys _ _ _ _ _ _ _ _).
  assert (tables σ' = tables σ) as Htabs by (unfold tables; cbn; by rewrite Hp).
  assert (∀ k c, in_tables σ' g k c ↔ in_tables σ g k c) as Hit by (intros; unfold in_tables; by rewrite Htabs).
  assert (∀ k c, covered c (Memtable.current m k) → in_tables σ g k c) as Hfr.
  { intros k c Hc. exists s. split; [unfold tables; rewrite Hp; cbn; set_solver|].
    rewrite (ti_new _ _ Htab m n s k Hp). by apply covered_deref. }
  assert (∀ k, mem_items (ly (eng σ')) k = Memtable.current (active (ly (eng σ))) k) as Hmi
    by (intros; unfold mem_items; cbn; by rewrite app_nil_r).
  assert (∀ k, mem_items (ly (eng σ)) k =
    Memtable.current (active (ly (eng σ))) k ++ Memtable.current m k) as Hmi0
    by (intros; unfold mem_items; by rewrite (mi_pend _ Hmem), Hp).
  assert (∀ k c, in_mem σ' k c → in_mem σ k c) as Him
    by (intros k c; unfold in_mem; rewrite Hmi, Hmi0, covered_app; tauto).
  assert (∀ k c, in_mem σ k c → in_mem σ' k c ∨ in_tables σ g k c) as Him'.
  { intros k c. unfold in_mem. rewrite Hmi, Hmi0, covered_app. intros [?|?]; auto. }
  assert (∀ P k c, in_log σ' g P k c ↔ in_log σ g P k c) as Hil by done.
  assert (∀ P k c, since σ' g P k c ↔ since σ g P k c) as Hsi by done.
  split.
  - by eapply log_inv_ext.
  - apply (mem_inv_sub σ); try done.
    + destruct (mi_ok _ Hmem) as [? _]. done.
    + intros k p. rewrite Hmi, Hmi0. set_solver.
  - destruct Htab as [H1 H2 H6 H7]. split; rewrite ?Htabs; try done.
    intros srcs merged Hc. destruct (H7 srcs merged Hc) as (pre & post & E & ?). exists (s :: pre), post.
    cbn. by rewrite E.
  - intros Hi. destruct (Hman Hi) as [H3 H4 H5 H7]. split; try done. intros k c. rewrite Hit. apply H5.
  - destruct Hcov as [C1 C2 C2' C3 C4 C5 C6 C7 C8]. destruct (C7 _ Hp) as (D1 & D2 & D3 & D4). cbn in D1, D2, D3, D4. split.
    + intros k c Hm. rewrite Hit. destruct (C1 k c Hm) as [?%Him'|?]; tauto.
    + intros k c. rewrite Hit. apply C2.
    + apply C2'.
    + intros k c Hr Hc%Him. by apply C3.
    + intros k c Hr Hl. rewrite Hit. destruct (C4 k c Hr Hl) as [?%Him'|?]; tauto.
    + intros s' es k c. rewrite Hit. apply C5.
    + cbn. intros n' [->|Hn]%elem_of_cons.
      * split_and!; [done| |]; intros k c.
        -- rewrite Hit. intros [?|[?|?]]%D3; auto.
        -- rewrite Hit. intros Hr [?|?]%D4; auto.
      * destruct (C6 n' Hn) as (E1 & E2 & E3). split_and!; [done| |]; intros k c; rewrite Hit; [apply E2|apply E3].
    + done.
    + apply C8.
Qed.

Lemma inv_install_err σ g m n err :
  inv σ g → pend σ = Some (Registered m n (Err err)) →
  inv (mkSys (flush_install (eng σ) m (Err err)) None (dels σ) (comp σ) (gone σ) (failed σ) (intact σ) (rolls σ)) g.
Proof.
  intros [Hlog Hmem Htab Hman Hcov] Hp. set (σ' := mkSys _ _ _ _ _ _ _ _).
  assert (same_tables σ σ' g g) as Hst by (unfold same_tables; cbn; rewrite Hp; by split_and!).
  destruct (tables_ext _ _ _ _ Hst eq_refl eq_refl Htab Hman) as [Htab' Hman'].
  pose proof (λ k c, in_tables_ext σ σ' g g k c Hst) as Hit.
  assert (∀ k, mem_items (ly (eng σ)) k =
    Memtable.current (active (ly (eng σ))) k ++ Memtable.current m k) as Hmi0
    by (intros; unfold mem_items; by rewrite (mi_pend _ Hmem), Hp).
  assert (∀ k, mem_items (ly (eng σ')) k =
    Memtable.current (PutBackOlder (active (ly (eng σ))) (Snapshot m)) k) as Hmi
    by (intros; unfold mem_items; cbn; by rewrite app_nil_r).
  destruct (mi_ok _ Hmem) as [Ha Hf]. rewrite (mi_pend _ Hmem), Hp in Hf. cbn in Hf.
  assert (∀ k c, in_mem σ' k c ↔ in_mem σ k c) as Him
    by (intros k c; unfold in_mem; by rewrite Hmi, Hmi0, covered_app, PutBack_covered).
  split; [by eapply log_inv_ext| |done|done|].
  - apply (mem_inv_sub σ); try done.
    + split; [|done]. cbn. apply PutBackOlder_ok; done.
    + intros k p. rewrite Hmi, Hmi0. intros Hin%PutBack_elem; [|done]. set_solver.
  - destruct Hcov as [C1 C2 C2' C3 C4 C5 C6 C7 C8]. split; try done.
    + intros k c. rewrite Him, Hit. apply C1.
    + intros k c. rewrite Hit. apply C2.
    + intros k c. rewrite Him. apply C3.
    + intros k c. rewrite Him, Hit. apply C4.
    + intros s es k c. rewrite Hit. apply C5.
    + intros n' Hn. destruct (C6 n' Hn) as (E1 & E2 & E3). split_and!; [done| |]; intros k c; rewrite Hit; [apply E2|apply E3].
Qed.

(** Segments removed: the log covers what it covered above them. *)
Lemma in_log_drop σ σ' g g' n k P key c :
  (∀ s es, (s, es) ∈ take k (segs g) → (seg_seq s ≤ n)%N) → segs g' = drop k (segs g) → cur g' = cur g →
  cur_seg (wal (eng σ')) = cur_seg (wal (eng σ)) →
  (in_log σ' g' P key c → in_log σ g P key c) ∧
  ((∀ x, P x → (n < x)%N) → in_log σ g P key c → in_log σ' g' P key c).
Proof.
  intros Hle Hs Hc Hw. unfold in_log, all_segs. rewrite Hs, Hc, Hw. split.
  - intros (s & es & Hin & ?). exists s, es. split; [|done]. rewrite <-(take_drop k (segs g)). set_solver.
  - intros HP (s & es & Hin & Hp & Hco). exists s, es. split; [|done].
    rewrite <-(take_drop k (segs g)), <-app_assoc in Hin. apply elem_of_app in Hin as [Hin|?]; [|done].
    specialize (HP _ Hp). specialize (Hle _ _ Hin). lia.
Qed.

Lemma since_drop σ σ' g g' n k (P : N → Prop) key c :
  (∀ s es, (s, es) ∈ take k (segs g) → (seg_seq s ≤ n)%N) → segs g' = drop k (segs g) → cur g' = cur g →
  gsegs g' = gsegs g ++ take k (segs g) →
  cur_seg (wal (eng σ')) = cur_seg (wal (eng σ)) → (∀ x, P x → (n < x)%N) →
  since σ g P key c → since σ' g' P key c.
Proof.
  intros Hle Hs Hc Hg Hw HP. unfold since, all_segs. rewrite Hs, Hc, Hg, Hw.
  intros (s & es & Hin & Hp & Hps & Hl). exists s, es. split_and!; [|done|done|].
  - rewrite <-(take_drop k (segs g)), <-app_assoc in Hin. apply elem_of_app in Hin as [Hin|?]; [|done].
    specialize (HP _ Hp). specialize (Hle _ _ Hin). lia.
  - intros s' es' Hin'. apply Hl. rewrite <-(take_drop k (segs g)). set_solver.
Qed.

(** What comes back after a deletion. *)
Lemma gone_grows σ g k d0' d' :
  log_inv σ g →
  (∀ name, d0' !! name = if decide (name ∈ seg_path <$> (take k (segs g)).*1) then None else g_d0 g !! name) →
  d' = (log_WriteBatch (g_iow g) d0' (wal (eng σ)) (g_ubs g)).1 →
  let gone' := gone σ ∪ (d_wal (eng σ) ∖ d') in
  gone_view gone' (wal (eng σ)) (gsegs g ++ take k (segs g)) ∧
  (∀ name s, is_Some (gone' !! name) → seg_of name = Some s → s ∈ (gsegs g ++ take k (segs g)).*1) ∧
  NoDup (gsegs g ++ take k (segs g)).*1 ∧
  (∀ s, s ∈ (gsegs g ++ take k (segs g)).*1 → (seg_seq s < WalLog.seq (wal (eng σ)))%N ∧ s ∉ (drop k (segs g)).*1).
Proof.
  intros [L1 L2 L3 L4 Hv L6 L6' [L7 L8]] Hfiles -> gone'.
  pose proof (current_path_fresh _ _ _ _ Hv) as Hcur.
  assert (∀ name f, (d_wal (eng σ) ∖ (log_WriteBatch (g_iow g) d0' (wal (eng σ)) (g_ubs g)).1) !! name = Some f →
    ∃ s es, (s, es) ∈ take k (segs g) ∧ name = seg_path s ∧ g_d0 g !! name = Some f) as Hnew.
  { intros name f [Hd Hn]%lookup_difference_Some. rewrite L1 in Hd. unfold log_WriteBatch, on_current in Hd, Hn.
    destruct (WriteBatch _ _ _) as [f1 e1], (WriteBatch _ _ _) as [f2 e2]. cbn [fst] in *.
    destruct (decide (name = WalLog.current (wal (eng σ)))) as [->|Hne];
      [by rewrite lookup_insert_eq in Hn|]. rewrite lookup_insert_ne in Hd, Hn by done.
    rewrite Hfiles in Hn. case_decide as Hin; [|congruence].
    apply list_elem_of_fmap in Hin as (s & -> & ([s' es] & -> & Hin)%list_elem_of_fmap). by exists s', es. }
  pose proof (lv_NoDup _ _ _ _ [] Hv) as Hnd. rewrite fmap_app in Hnd. apply NoDup_app in Hnd as (Hnd & Hdc & _).
  assert (∀ s, s ∈ (take k (segs g)).*1 → s ∈ (segs g).*1) as Htk.
  { intros s Hs. rewrite <-(take_drop k (segs g)), fmap_app. set_solver. }
  assert (NoDup (gsegs g ++ take k (segs g)).*1) as Hnd'.
  { rewrite fmap_app. apply NoDup_app. split_and!; [done| |].
    - intros s Hs Hin%Htk. by apply (L8 s Hs).
    - rewrite <-(take_drop k (segs g)), fmap_app in Hnd. by apply NoDup_app in Hnd as [? _]. }
  assert (∀ s es, (s, es) ∈ take k (segs g) → seg_of (seg_path s) = Some s ∧ (seg_seq s < WalLog.seq (wal (eng σ)))%N ∧
    ∃ f, g_d0 g !! seg_path s = Some f ∧ log_holds f es ∧ name_ok (seg_path s)) as Hsegs.
  { intros s es Hin. assert ((s, es) ∈ segs g) as Hin' by (rewrite <-(take_drop k (segs g)); set_solver).
    destruct (lv_files _ _ _ _ Hv s es) as (? & f & ? & ?); [set_solver|]. split_and!; [done| |].
    - assert (seg_lt s (cur_seg (wal (eng σ)))) as Hlt; [|done].
      apply (StronglySorted_app_1_elem_of seg_lt (segs g).*1 [cur_seg (wal (eng σ))]);
        [apply (lv_sorted _ _ _ _ Hv)|by apply (list_elem_of_fmap_2 fst _ (s, es))|by left].
    - exists f. split_and!; try done. eapply lv_names; eauto. }
  split_and!.
  - intros name f [Hg|[_ Hg]]%lookup_union_Some_raw.
    + destruct (L6 name f Hg) as (s & Hs & Hh & ? & ?). exists s. split_and!; try done.
      assert (s ∈ (gsegs g).*1) as Hsg by (eapply L6'; eauto).
      apply list_elem_of_fmap in Hsg as ([s' es] & -> & Hsg). cbn [fst] in *.
      rewrite (es_at_present (gsegs g) s' es) in Hh by done.
      by rewrite (es_at_present (_ ++ _) s' es) by (done || set_solver).
    + destruct (Hnew _ _ Hg) as (s & es & Hin & -> & Hd). destruct (Hsegs _ _ Hin) as (? & ? & f' & ? & ? & ?).
      exists s. split_and!; try done. rewrite (es_at_present _ s es); [congruence|done|set_solver].
  - intros name s [f [Hg|[_ Hg]]%lookup_union_Some_raw] Hs; rewrite fmap_app, elem_of_app.
    + left. eapply L6'; eauto.
    + right. destruct (Hnew _ _ Hg) as (s' & es & Hin & -> & Hd). destruct (Hsegs _ _ Hin) as (E & _).
      rewrite E in Hs. injection Hs as ->. by apply (list_elem_of_fmap_2 fst _ (s, es)).
  - done.
  - intros s. rewrite fmap_app, elem_of_app. intros [Hs|Hs].
    + destruct (L8 s Hs) as [? Hn]. split; [done|]. intros Hin. apply Hn.
      rewrite <-(take_drop k (segs g)), fmap_app. set_solver.
    + pose proof Hs as Hs'. apply list_elem_of_fmap in Hs' as ([s' es] & -> & Hin).
      split; [by destruct (Hsegs _ _ Hin) as (_ & ? & _)|].
      rewrite <-(take_drop k (segs g)), fmap_app in Hnd. apply NoDup_app in Hnd as (_ & Hx & _). by apply Hx.
Qed.
Lemma inv_delete σ g n rest io :
  inv σ g → dels σ ≡ₚ n :: rest →
  ∃ g', inv (mkSys (flush_delete io (eng σ) n) (pend σ) rest (comp σ)
               (gone σ ∪ (d_wal (eng σ) ∖ d_wal (flush_delete io (eng σ) n))) (failed σ) (intact σ) (rolls σ)) g' ∧
    must g' = must g.
Proof.
  intros [Hlog Hmem Htab Hman Hcov] Hperm. pose proof (li_view _ _ Hlog) as Hv.
  destruct (DeleteThrough_after io n _ _ _ _ (g_iow g) (g_ubs g) Hv)
    as (k & d0' & l' & err & Hdel & Hv' & Hseq & Hcur & Hle & Hfiles).
  unfold flush_delete. rewrite (li_dir _ _ Hlog), Hdel. cbn [d_wal set_log].
  rewrite <-(li_dir _ _ Hlog). set (d' := (log_WriteBatch _ d0' _ _).1).
  assert (d' = (log_WriteBatch (g_iow g) d0' (wal (eng σ)) (g_ubs g)).1) as Ed
    by (unfold d', log_WriteBatch, on_current; by rewrite Hcur).
  destruct (gone_grows σ g k d0' d' Hlog Hfiles Ed) as (G1 & G2 & G3 & G4).
  set (g' := ghost_log g d0' (g_iow g) (g_ubs g) (drop k (segs g)) (cur g) (gsegs g ++ take k (segs g))).
  exists g'. split; [|done]. set (σ' := mkSys _ _ _ _ _ _ _ _).
  assert (cur_seg (wal (eng σ')) = cur_seg (wal (eng σ))) as Hcs by (unfold cur_seg; cbn; by rewrite Hseq, Hcur).
  assert (same_tables σ σ' g g') as Hst by (unfold same_tables; cbn; by split_and!).
  destruct (tables_ext _ _ _ _ Hst eq_refl eq_refl Htab Hman) as [Htab' Hman'].
  pose proof (λ key c, in_tables_ext σ σ' g g' key c Hst) as Hit.
  pose proof (λ P key c, in_log_drop σ σ' g g' n k P key c Hle eq_refl eq_refl Hcs) as Hil.
  pose proof (λ P key c, since_drop σ σ' g g' n k P key c Hle eq_refl eq_refl eq_refl Hcs) as Hsi.
  assert (n ∈ dels σ ∧ ∀ x, x ∈ rest → x ∈ dels σ) as [Hn Hrest]
    by (split; [|intros x]; rewrite Hperm; set_solver).
  split; [| |done|done|].
  - destruct Hlog as [L1 L2 L3 [L4 L4'] L5 L6 L6' L7]. split; cbn; try done.
    + intros Hh. destruct (L3 Hh) as [Hf _]. split; [done|]. rewrite Hf in L2.
      unfold d', log_WriteBatch, on_current. apply Forall2_nil_inv_l in L2. rewrite L2.
      destruct (lv_current _ _ _ _ Hv') as (f & Hc & _). rewrite Hc. cbn. by rewrite insert_id.
    + split; [done|]. intros s es Hin. apply (L4' s). unfold all_segs in *. cbn in Hin.
      unfold cur_seg in *. rewrite Hseq, Hcur in Hin. rewrite <-(take_drop k (segs g)). set_solver.
    + intros name f Hg. destruct (G1 name f Hg) as (s & ? & ? & ? & ?). exists s. by rewrite Hseq.
    + split; [done|]. intros s Hs. rewrite Hseq. by apply G4.
  - apply (mem_inv_sub σ); try done; apply Hmem.
  - destruct Hcov as [C1 C2 C2' C3 C4 C5 C6 C7 C8]. destruct (C6 n Hn) as (D1 & D2 & D3).
    assert (∀ (P : N → Prop) key c, (∀ x, (n < x)%N → P x) → must g key c → since σ' g' P key c ∨ in_tables σ' g' key c)
      as Hmu.
    { intros P key c HP Hm. rewrite Hit. destruct (D2 key c Hm) as [Hs|?]; [left|by right].
      apply (Hsi (λ x, (n < x)%N)) in Hs; [|done]. destruct Hs as (s & es & ? & ? & ? & ?). exists s, es. split_and!; auto. }
    split.
    + intros key c. rewrite Hit. apply C1.
    + intros key c. by apply Hmu.
    + apply C2'.
    + apply C3.
    + intros key c Hr Hc%Hil. rewrite Hit. by apply C4.
    + intros s es key c Hr. cbn. rewrite Hit. intros [Hin|Hin]%elem_of_app Hc; [by eapply C5|].
      apply D3; [done|]. exists s, es. split_and!; [|by eapply Hle|done]. unfold all_segs.
      rewrite <-(take_drop k (segs g)). set_solver.
    + intros n' Hn'%Hrest. destruct (C6 n' Hn') as (E1 & E2 & E3). cbn. rewrite Hseq. split_and!; [done| |].
      * intros key c Hm. destruct (decide (n ≤ n')%N); [|apply Hmu; [intros; lia|done]]. rewrite Hit.
        destruct (E2 key c Hm); [left; apply Hsi; [intros; lia|done]|by right].
      * intros key c Hr Hc%Hil. rewrite Hit. by apply E3.
    + intros p Hp. destruct (C7 p Hp) as (E1 & E2 & E3 & E4). cbn. rewrite Hseq. split_and!; [done| | |].
      * intros x Hx. by apply E2, Hrest.
      * intros key c Hm. rewrite Hit. specialize (E2 n Hn). destruct (E3 key c Hm); [left; apply Hsi; [intros; lia|done]|by right].
      * intros key c Hr Hc%Hil. rewrite Hit. by apply E4.
    + intros key Hr. destruct (C8 key Hr) as [Hf Hno]. split; [done|]. intros s es Hin. apply (Hno s).
      unfold all_segs in *. rewrite Hcs in Hin. cbn in Hin. rewrite <-(take_drop k (segs g)). set_solver.
Qed.
(** ** Compaction *)

Lemma id_ok_suffixed id n : id_ok id → id_ok (suffixed id n).
Proof.
  revert id. induction n as [|n IH]; intros id [Hne Hw]; [done|]. apply IH. unfold id_ok, word.
  rewrite to_bytes_app. split; [by destruct (to_bytes id)|]. apply Forall_app. split; [done|by repeat constructor].
Qed.

(** The versions a run of tables holds, newest table first. *)
Definition run_versions (g : ghost) (srcs : list (SSTable B)) (k : string) : list DataItem :=
  concat ((λ s, versions k (pub g (ID s))) <$> srcs).

Lemma covered_run g srcs k c :
  covered c (run_versions g srcs k) ↔ ∃ s, s ∈ srcs ∧ covered c (versions k (pub g (ID s))).
Proof.
  unfold run_versions. induction srcs as [|s srcs IH].
  - split; [by intros ?%covered_nil|]. intros (s & Hs & _). set_solver.
  - rewrite fmap_cons. cbn [concat]. rewrite covered_app, IH. set_solver.
Qed.

Lemma run_versions_fresh σ g id es srcs k :
  id ∉ ID <$> tables σ → (∀ s, s ∈ srcs → s ∈ tables σ) →
  run_versions (with_pub g id es) srcs k = run_versions g srcs k.
Proof.
  intros Hid Hin. unfold run_versions. f_equal. apply list_fmap_ext. intros i s Hi%list_elem_of_lookup_2.
  rewrite with_pub_ne; [done|]. intros <-. by apply Hid, list_elem_of_fmap_2, Hin.
Qed.

(** The tables' part after a compaction's records: with the run's removal
    ([cc] is the swap to come), or without. *)
Lemma table_inv_compact σ g pre srcs post s d mf es cc ok :
  table_inv σ g → sstables (ly (eng σ)) = pre ++ srcs ++ post → srcs ≠ [] →
  d_sst (eng σ) !! sst_name (ID s) = None → dir_keeps (d_sst (eng σ)) d →
  table_ok d (with_pub g (ID s) es) s →
  (∀ k, versions k es = canon (run_versions g srcs k)) → (cc = None ∨ cc = Some (srcs, s)) →
  let σ' := mkSys (set_tables (eng σ) mf d) (pend σ) (dels σ) cc (gone σ) (failed σ) ok (rolls σ) in
  table_inv σ' (with_pub g (ID s) es) ∧
  ∀ k c, in_tables σ' (with_pub g (ID s) es) k c ↔ in_tables σ g k c.
Proof.
  intros Ht Htabs Hne Hn Hk Hok Hv Hcc. cbv zeta. set (σ' := mkSys _ _ _ _ _ _ _ _).
  destruct (fresh_id _ _ _ Ht Hn) as (F1 & _).
  assert (∀ t, t ∈ srcs → t ∈ tables σ) as Hsrc by (intros t Hti; unfold tables; rewrite Htabs; set_solver).
  assert (∀ t, t ∈ tables σ → table_ok d (with_pub g (ID s) es) t ∧ pub (with_pub g (ID s) es) (ID t) = pub g (ID t))
    as Hold by (intros t Hti; apply (table_ok_fresh σ); [done|done|by apply Ht]).
  split; [split; cbn [eng manifest d_sst σ' set_tables pend comp]; try done|].
  - intros t Hti. by apply Hold.
  - apply Ht.
  - intros m n t k Hp. rewrite <-(ti_new _ _ Ht m n t k Hp).
    destruct (Hold t) as [_ ->]; [|done]. unfold tables. rewrite Hp. cbn. set_solver.
  - destruct Hcc as [->| ->]; [done|]. intros ? ? [= <- <-]. exists pre, post. split_and!; try done.
    intros k. fold (run_versions (with_pub g (ID s) es) srcs k).
    by rewrite with_pub_eq, (run_versions_fresh σ), Hv.
  - intros k c. split; intros (t & Hti & Hco); exists t; (split; [done|]).
    + by destruct (Hold t Hti) as [_ <-].
    + by destruct (Hold t Hti) as [_ ->].
Qed.

Lemma man_inv_compact σ g srcs (s : SSTable B) es σ' :
  man_inv σ g → (∀ t, t ∈ srcs → t ∈ tables σ) → d_sst (eng σ) !! sst_name (ID s) = None →
  dir_keeps (d_sst (eng σ)) (d_sst (eng σ')) → published (d_sst (eng σ')) (ID s) es → Forall pair_ok es →
  (∀ k, versions k es = canon (run_versions g srcs k)) → ID s ∉ ID <$> srcs → mf_clean (manifest (eng σ')) →
  (live (manifest (eng σ')) = {[ID s]} ∪ live (manifest (eng σ)) ∧ comp σ' = None ∨
   live (manifest (eng σ')) = ({[ID s]} ∪ live (manifest (eng σ))) ∖ list_to_set (ID <$> srcs) ∧ comp σ' = Some (srcs, s)) →
  (∀ k c, in_tables σ' (with_pub g (ID s) es) k c ↔ in_tables σ g k c) →
  man_inv σ' (with_pub g (ID s) es).
Proof.
  intros Hm Hsrc Hn Hk Hpub Hpo Hv Hns Hcl Hl Hit. pose proof (fresh_live _ _ _ Hm Hn) as F2.
  assert (∀ x, x ∈ live (manifest (eng σ')) ↔ (x = ID s ∨ x ∈ live (manifest (eng σ))) ∧
    (comp σ' = None ∨ x ∉ ID <$> srcs)) as Hlive.
  { intros x. destruct Hl as [[-> ->]|[-> ->]]; [set_solver|].
    rewrite elem_of_difference, elem_of_union, elem_of_singleton, elem_of_list_to_set. naive_solver. }
  split; [done| | |].
  - intros id [Hid _]%Hlive. apply (live_fresh σ); try done. set_solver.
  - intros k c. rewrite Hit. split.
    + intros (id & Hid & Hco)%(mn_same _ _ Hm).
      destruct (decide (id ∈ ID <$> srcs)) as [(t & -> & Hti)%list_elem_of_fmap|Hni].
      * exists (ID s). split; [apply Hlive; auto|]. rewrite with_pub_eq, Hv, covered_canon, covered_run. by exists t.
      * exists id. split; [apply Hlive; auto|]. rewrite with_pub_ne; [done|by intros ->].
    + intros (id & [Hid _]%Hlive & Hco). destruct (decide (id = ID s)) as [->|Hneq].
      * rewrite with_pub_eq, Hv, covered_canon, covered_run in Hco. destruct Hco as (t & Hti & Hco).
        exists t. by split; [apply Hsrc|].
      * rewrite with_pub_ne in Hco by done. apply (mn_same _ _ Hm). exists id. naive_solver.
  - intros srcs' merged Hcc t Hti. rewrite Hlive. intros [_ [E|Hx]]; [congruence|].
    destruct Hl as [[_ E]|[_ E]]; rewrite E in Hcc; [done|]. injection Hcc as <- <-. by apply Hx, list_elem_of_fmap_2.
Qed.
(** What a compaction merges. *)
Lemma merged_entries σ g a pre srcs post :
  table_inv σ g → sstables (ly (eng σ)) = pre ++ srcs ++ post →
  ∃ entries, Merge a (d_sst (eng σ)) srcs = Ok entries ∧ Forall Sstable.entry_ok entries ∧
    ∀ k, versions k (plain <$> entries) = canon (run_versions g srcs k).
Proof.
  intros Ht E. assert (∀ s, s ∈ srcs → table_ok (d_sst (eng σ)) g s) as Hok
    by (intros s Hs; apply Ht; unfold tables; rewrite E; set_solver).
  set (held := (λ s, pub g (ID s)) <$> srcs).
  assert (Forall2 (table_holds (d_sst (eng σ))) srcs held) as Hh.
  { unfold held. clear E. induction srcs as [|s srcs IH]; rewrite ?fmap_cons; constructor.
    - by destruct (Hok s) as [? _]; [set_solver|].
    - apply IH. set_solver. }
  destruct (Merge_spec a _ _ _ Hh) as (entries & Hm & _ & Hv & Hel). exists entries. split_and!; [done| |].
  - apply Forall_forall. intros en He%Hel. apply entry_ok_pair.
    apply list_elem_of_In, in_concat in He as (es & Hes%list_elem_of_In & He%list_elem_of_In).
    unfold held in Hes. apply list_elem_of_fmap in Hes as (s & -> & Hs).
    destruct (Hok s Hs) as (_ & _ & _ & Hp). rewrite Forall_forall in Hp. exact (Hp _ He).
  - intros k. rewrite versions_items_of, Hv, versions_concat. unfold run_versions, held.
    by rewrite <-list_fmap_compose.
Qed.

(** A compaction whose records are not all written leaves the layers and
    the live set as they were. *)
Lemma inv_tables_only σ g mf d ok :
  inv σ g → comp σ = None → dir_keeps (d_sst (eng σ)) d →
  (ok = true → intact σ = true ∧ mf_clean mf ∧ live mf = live (manifest (eng σ))) →
  inv (mkSys (set_tables (eng σ) mf d) (pend σ) (dels σ) None (gone σ) (failed σ) ok (rolls σ)) g.
Proof.
  intros [Hlog Hmem Htab Hman Hcov] Hc Hk Hok. set (σ' := mkSys _ _ _ _ _ _ _ _).
  assert (same_tables σ σ' g g) as Hst by (unfold same_tables; cbn; rewrite Hc; by split_and!).
  split; [by eapply log_inv_ext| |by eapply table_inv_ext| |].
  - by apply (mem_inv_sub σ); try apply Hmem.
  - cbn. intros (Hi & Hcl & Hl)%Hok. apply (man_inv_ext σ σ' g g); [done|done|done|by apply Hman].
  - eapply cover_inv_mono; try done. intros p Hp. by exists p.
Qed.

Lemma inv_merged σ g pre srcs post s d mf es cc ok :
  inv σ g → sstables (ly (eng σ)) = pre ++ srcs ++ post → srcs ≠ [] →
  d_sst (eng σ) !! sst_name (ID s) = None → dir_keeps (d_sst (eng σ)) d →
  table_ok d (with_pub g (ID s) es) s → published d (ID s) es → Forall pair_ok es →
  (∀ k, versions k es = canon (run_versions g srcs k)) → (cc = None ∨ cc = Some (srcs, s)) →
  (ok = true → intact σ = true ∧ mf_clean mf ∧
    (live mf = {[ID s]} ∪ live (manifest (eng σ)) ∧ cc = None ∨
     live mf = ({[ID s]} ∪ live (manifest (eng σ))) ∖ list_to_set (ID <$> srcs) ∧ cc = Some (srcs, s))) →
  inv (mkSys (set_tables (eng σ) mf d) (pend σ) (dels σ) cc (gone σ) (failed σ) ok (rolls σ)) (with_pub g (ID s) es).
Proof.
  intros [Hlog Hmem Htab Hman Hcov] Htabs Hne Hn Hk Hok Hpub Hpo Hv Hcc Hl.
  destruct (fresh_id _ _ _ Htab Hn) as (F1 & _). set (σ' := mkSys _ _ _ _ _ _ _ _).
  assert (∀ t, t ∈ srcs → t ∈ tables σ) as Hsrc by (intros t Hti; unfold tables; rewrite Htabs; set_solver).
  assert (ID s ∉ ID <$> srcs) as Hns.
  { intros (t & E & Hti)%list_elem_of_fmap. apply F1. rewrite E. by apply list_elem_of_fmap_2, Hsrc. }
  destruct (table_inv_compact σ g pre srcs post s d mf es cc ok Htab Htabs Hne Hn Hk Hok Hv Hcc) as [Htab' Hit].
  split; [by eapply log_inv_ext| |done| |].
  - by apply (mem_inv_sub σ); try apply Hmem.
  - cbn. intros (Hi & Hcl & Hlv)%Hl. by apply (man_inv_compact σ g srcs); [apply Hman|..].
  - eapply cover_inv_mono; try done; [intros p Hp; by exists p|]. intros k c. apply Hit.
Qed.

Lemma delete_keeps d d' id :
  d !! sst_name id = None → dir_keeps d d' → dir_keeps d (delete (sst_name id) d').
Proof.
  intros Hn Hk id' Hs. rewrite lookup_delete_ne; [by apply Hk|]. intros E. rewrite <-E, Hn in Hs. by destruct Hs.
Qed.

Lemma inv_compact σ g io a e' r :
  inv σ g → comp σ = None → compact_write io a (eng σ) = (e', r) →
  (∀ entries id d' s, Merge a (d_sst (eng σ)) (SelectTierForCompaction (sstables (ly (eng σ)))) = Ok entries →
     WriteWithID (B := B) (c_sst io) (d_sst (eng σ)) id entries = (d', Ok s) → (Size s < two63)%Z) →
  ∃ g', inv (mkSys e' (pend σ) (dels σ) (match r with Ok x => x | Err _ => None end) (gone σ) (failed σ)
               (intact σ && mio_ok (c_add io) && mio_ok (c_remove io)) (rolls σ)) g' ∧ must g' = must g.
Proof.
  intros Hinv Hc Hw Hsz. revert Hw. unfold compact_write. set (ok := _ && _ && _).
  assert (ok = true → intact σ = true ∧ mf_clean (manifest (eng σ)) ∧ mio_ok (c_add io) = true ∧ mio_ok (c_remove io) = true)
    as Hok.
  { intros [[Hi H1]%andb_true_iff H2]%andb_true_iff. split_and!; [done|by apply (mn_clean _ _ (inv_man _ _ Hinv Hi))|done..]. }
  clearbody ok.
  assert (∀ d, dir_keeps (d_sst (eng σ)) d → inv (mkSys (set_tables (eng σ) (manifest (eng σ)) d) (pend σ) (dels σ) None
    (gone σ) (failed σ) ok (rolls σ)) g) as Hsame
    by (intros d Hk; apply inv_tables_only; [done..|]; intros (? & ? & _)%Hok; done).
  assert (set_tables (eng σ) (manifest (eng σ)) (d_sst (eng σ)) = eng σ) as Eeta by by destruct (eng σ).
  destruct (SelectTier_best (sstables (ly (eng σ)))) as [Hb _].
  destruct (SelectTierForCompaction (sstables (ly (eng σ)))) as [|newest srcs'] eqn:Es.
  { intros [= <- <-]. exists g. split; [|done]. rewrite <-Eeta at 1. by apply Hsame. }
  destruct Hb as [?|(_ & _ & pre & post & Htabs & _)]; [done|]. set (srcs := newest :: srcs') in *.
  destruct (merged_entries σ g a pre srcs post (inv_table _ _ Hinv) Htabs) as (entries & Hm & Hents & Hv).
  rewrite Hm in *. destruct (compactedID_free (d_sst (eng σ)) (ID newest)) as (x & Hx & Hfree).
  set (id := compactedID _ _) in *. clearbody id.
  assert (∀ s, s ∈ srcs → id_ok (ID s)) as Hids.
  { intros s Hs. apply (ti_ok _ _ (inv_table _ _ Hinv)). unfold tables. rewrite Htabs. set_solver. }
  assert (id_ok id) as Hidok by (rewrite Hx; apply id_ok_suffixed, Hids; unfold srcs; set_solver).
  destruct (WriteWithID (c_sst io) (d_sst (eng σ)) id entries) as [d [s|err]] eqn:HW;
    pose proof (write_keeps _ _ _ _ _ _ Hfree HW) as Hk;
    [|intros [= <- <-]; exists g; split; [by apply Hsame|done]].
  destruct (WriteWithID_id _ _ _ _ _ _ HW) as [Hid Hpath]. rewrite Hid, Hpath.
  destruct (new_table _ _ g _ _ _ _ Hidok Hents HW (Hsz _ _ _ _ eq_refl HW)) as (_ & Htok & Hpub & Hpo).
  pose proof (λ H1 H2, mf_run_ok (c_add io) (manifest (eng σ)) (OpAdd id) H1 H2 Hidok) as Hadd. cbn [mf_run mf_effect] in *.
  destruct (Add (c_add io) (manifest (eng σ)) id) as [mf [err|]]; cbn [fst snd] in *.
  { intros [= <- <-]. exists g. split; [|done]. apply inv_tables_only; [done|done| |].
    - destruct (c_unlink io _); [by apply delete_keeps|done].
    - intros (? & Hcl & H1 & _)%Hok. destruct (Hadd H1 Hcl) as (? & [[? _]|[_ ?]]); done. }
  assert (op_ok (OpRemove (ID <$> srcs))) as Hops.
  { split; [done|]. apply Forall_fmap, Forall_forall. apply Hids. }
  pose proof (λ H1 H2, mf_run_ok (c_remove io) mf (OpRemove (ID <$> srcs)) H1 H2 Hops) as Hrem. cbn [mf_run mf_effect] in *.
  destruct (Remove (c_remove io) mf (ID <$> srcs)) as [mf' err]; cbn [fst snd] in *. rewrite <-Hid in *.
  assert (ok = true → intact σ = true ∧ mf_clean mf' ∧
    (live mf' = {[ID s]} ∪ live (manifest (eng σ)) ∧ err ≠ None ∨
     live mf' = ({[ID s]} ∪ live (manifest (eng σ))) ∖ list_to_set (ID <$> srcs) ∧ err = None)) as Hlive.
  { intros (Hi & Hcl & H1 & H2)%Hok. destruct (Hadd H1 Hcl) as (Hcl1 & [[_ E1]|[? _]]); [|done].
    destruct (Hrem H2 Hcl1) as (Hcl2 & [[-> E2]|[Hne E2]]); split_and!; try done; [right|left]; split; try done; congruence. }
  destruct err as [err|]; intros [= <- <-]; exists (with_pub g (ID s) (plain <$> entries)); (split; [|done]);
    eapply (inv_merged σ g pre srcs post); try done; try (by left); try (by right); naive_solver.
Qed.
Lemma unlink_all_other io (srcs : list (SSTable B)) d name :
  name ∉ Path <$> srcs → unlink_all io srcs d !! name = d !! name.
Proof.
  unfold unlink_all. revert d. induction srcs as [|s srcs IH]; intros d; [done|]. rewrite fmap_cons. intros Hn.
  cbn [fold_left]. rewrite IH by set_solver. destruct (c_unlink io _); [|done]. apply lookup_delete_ne. set_solver.
Qed.

Lemma inv_swap_tables σ g io srcs merged e' err :
  inv σ g → comp σ = Some (srcs, merged) → compact_install io (eng σ) srcs merged = (e', err) →
  inv (mkSys e' (pend σ) (dels σ) None (gone σ) (failed σ) (intact σ) (rolls σ)) g.
Proof.
  intros [Hlog Hmem Htab Hman Hcov] Hc. unfold compact_install.
  destruct (ti_comp _ _ Htab _ _ Hc) as (pre & post & Htabs & Hne & Hok & Hnew & Hv).
  pose proof (ti_distinct _ _ Htab) as Hnd. pose proof Hnd as Hnd'. unfold tables in Hnd'.
  rewrite fmap_app, Htabs in Hnd'. apply NoDup_app in Hnd' as (_ & _ & Hnd2).
  rewrite Htabs, replaceRun_spec by done. intros [= <- _]. set (σ' := mkSys _ _ _ _ _ _ _ _).
  assert (tables σ ≡ₚ srcs ++ new_of (pend σ) ++ pre ++ post) as Hperm.
  { unfold tables. rewrite Htabs. solve_Permutation. }
  assert (tables σ' ≡ₚ merged :: new_of (pend σ) ++ pre ++ post) as Hperm'.
  { unfold tables. cbn. solve_Permutation. }
  assert (∀ s, s ∈ srcs → s ∈ tables σ) as Hsrc by (intros s Hs; rewrite Hperm; set_solver).
  assert (∀ id, id ∉ ID <$> srcs → unlink_all io srcs (d_sst (eng σ)) !! sst_name id = d_sst (eng σ) !! sst_name id)
    as Hother.
  { intros id Hid. apply unlink_all_other. intros (s & E & Hs)%list_elem_of_fmap. apply Hid.
    destruct (ti_ok _ _ Htab s (Hsrc s Hs)) as (_ & Hp & _). rewrite Hp in E.
    apply sst_name_inj in E as ->. by apply list_elem_of_fmap_2. }
  rewrite Hperm, fmap_app in Hnd. apply NoDup_app in Hnd as (_ & Hdis & Hnd3).
  assert (ID merged ∉ ID <$> srcs) as Hm1
    by (intros (s & E & Hs)%list_elem_of_fmap; apply Hnew; rewrite E; by apply list_elem_of_fmap_2, Hsrc).
  assert (∀ t, table_ok (d_sst (eng σ)) g t → ID t ∉ ID <$> srcs → table_ok (d_sst (eng σ')) g t) as Hkeep.
  { intros t (H1 & H2 & H3 & H4) Hid. split_and!; try done. apply (table_holds_ext (d_sst (eng σ))); [done|].
    rewrite H2. by apply Hother. }
  assert (∀ k c, in_tables σ' g k c ↔ in_tables σ g k c) as Hit.
  { intros k c.
    assert (covered c (versions k (pub g (ID merged))) ↔ ∃ s, s ∈ srcs ∧ covered c (versions k (pub g (ID s)))) as E
      by (rewrite Hv, covered_canon; apply covered_run).
    split; intros (s & Hs & Hco).
    - rewrite Hperm' in Hs. apply elem_of_cons in Hs as [->|Hs].
      + apply E in Hco as (t & Ht & Hco). exists t. by split; [apply Hsrc|].
      + exists s. rewrite Hperm. set_solver.
    - rewrite Hperm in Hs. apply elem_of_app in Hs as [Hs|Hs].
      + exists merged. rewrite Hperm', E. set_solver.
      + exists s. rewrite Hperm'. set_solver. }
  split; [by eapply log_inv_ext|by apply (mem_inv_sub σ); try apply Hmem| | |].
  - destruct Htab as [H1 H2 H6 H7]. split; try done.
    + intros t. rewrite Hperm'. intros [->|Ht]%elem_of_cons; [by apply Hkeep|].
      apply Hkeep; [apply H1; rewrite Hperm; set_solver|].
      intros Hx. by apply (Hdis _ Hx), list_elem_of_fmap_2.
    + rewrite Hperm', fmap_cons. constructor; [|done]. intros Hx. apply Hnew. rewrite Hperm, fmap_app. set_solver.
  - intros Hi. destruct (Hman Hi) as [H3 H4 H5 H7]. split; try done.
    + intros id Hid. cbn in Hid. destruct (H4 id Hid) as [Hp ?]. split; [|done].
      apply (published_ext (d_sst (eng σ))); [|done]. intros _. apply Hother.
      intros (s & -> & Hs)%list_elem_of_fmap. by apply (H7 _ _ Hc s Hs).
    + intros k c. rewrite Hit. apply H5.
  - eapply cover_inv_mono; try done; [intros p Hp; by exists p|]. intros k c. apply Hit.
Qed.

(** ** Recovery *)

Lemma fine_contents es es' :
  entry_contents <$> es = entry_contents <$> es' → Forall entry_fine es' → Forall entry_fine es.
Proof.
  revert es'. induction es as [|e es IH]; intros [|e' es']; rewrite ?fmap_cons; try done.
  intros [= H1 H2 H3 H4 H5] Hp. inversion Hp as [|? ? Hf Hp']; subst. constructor; [|by eapply IH].
  destruct e as [op k it its]. cbn in *. destruct Hf as [(i & E & Hok)|(its' & E & Ha & Hok)]; rewrite E in *; cbn in *; subst.
  - destruct it as [j|]; [|done]. injection H3 as H3. destruct its; [|done].
    left. exists j. split; [done|]. cbn. by rewrite H3.
  - destruct it; [done|]. right. exists its. split_and!; [done| |].
    + apply (antichain_map deref clock_deref). change (map deref its) with (deref <$> its). rewrite H4.
      by apply (antichain_map deref clock_deref).
    + assert (Forall (λ x, pair_ok (Wal.Key e', x)) (deref <$> its)) as Hx by (rewrite H4; by apply Forall_fmap).
      rewrite Forall_fmap in Hx. exact Hx.
Qed.

Lemma load_published d ids (held : string → list (string * DataItem)) :
  (∀ id, id ∈ ids → published d id (held id)) →
  ∃ ssts, load_loop d ids = Ok ssts ∧ ID <$> ssts = ids ∧
    ∀ s, s ∈ ssts → Path s = sst_name (ID s) ∧ id_ok (ID s) ∧ table_holds d s (held (ID s)).
Proof.
  induction ids as [|id ids IH]; intros Hp.
  { exists []. split_and!; [done|done|set_solver]. }
  destruct IH as (ssts & Hl & Hids & Hs); [set_solver|].
  destruct (Hp id) as (Hok & s & Ho & Hi & Hpa & Ht); [set_solver|].
  exists (s :: ssts). cbn [load_loop]. rewrite Ho, Hl, fmap_cons, Hi, Hids. split_and!; [done|done|].
  intros t [->|Hin]%elem_of_cons; [|by apply Hs]. by rewrite Hi.
Qed.

Lemma covered_concat k (ps : list (segment * list Wal.Entry)) c :
  covered c (wal_items k (concat ps.*2)) ↔ ∃ s es, (s, es) ∈ ps ∧ covered c (wal_items k es).
Proof.
  induction ps as [|[s es] ps IH].
  - split; [by intros ?%covered_nil|]. intros (s & es & Hin & _). set_solver.
  - rewrite fmap_cons. cbn [concat snd]. rewrite wal_items_app, covered_app, IH. set_solver.
Qed.

Lemma unrestored_concat k (ps : list (segment * list Wal.Entry)) :
  unrestored k (concat ps.*2) ↔ ∀ s es, (s, es) ∈ ps → unrestored k es.
Proof.
  induction ps as [|[s es] ps IH].
  - split; [by intros _ ? ? ?%not_elem_of_nil|constructor].
  - rewrite fmap_cons. cbn [concat snd]. rewrite unrestored_app, IH. set_solver.
Qed.

Lemma covered_es_at k gs s c :
  covered c (wal_items k (es_at gs s)) → ∃ es, (s, es) ∈ gs ∧ covered c (wal_items k es).
Proof.
  unfold es_at. rewrite covered_concat. intros (t & es & [Ht Hin]%elem_of_bfilter & Hc).
  cbn [fst] in Ht. apply bool_decide_eq_true in Ht as ->. by exists es.
Qed.

(** A put behind every restore of its key stays so when sorted segments are
    replayed in order. *)
Lemma since_concat k (ps : list (segment * list Wal.Entry)) s es c :
  StronglySorted seg_lt ps.*1 → (s, es) ∈ ps → put_since k es c →
  (∀ s' es', (s', es') ∈ ps → (seg_seq s < seg_seq s')%N → unrestored k es') →
  put_since k (concat ps.*2) c.
Proof.
  intros Hs Hin Hp Hl. apply list_elem_of_split in Hin as (a & b & ->).
  rewrite fmap_app, fmap_cons, concat_app. cbn [concat snd]. apply put_since_app. right. apply put_since_app. left.
  split; [done|]. apply unrestored_concat. intros s' es' Hin'.
  apply (Hl s'); [set_solver|]. rewrite fmap_app, fmap_cons in Hs. cbn [fst] in Hs.
  apply (StronglySorted_app_1_elem_of seg_lt (a.*1 ++ [s]) b.*1).
  - by rewrite <-app_assoc.
  - set_solver.
  - by apply (list_elem_of_fmap_2 fst _ (s', es')).
Qed.

Lemma concat_since k (ps : list (segment * list Wal.Entry)) c :
  StronglySorted seg_lt ps.*1 → put_since k (concat ps.*2) c →
  ∃ s es, (s, es) ∈ ps ∧ put_since k es c ∧
    ∀ s' es', (s', es') ∈ ps → (seg_seq s < seg_seq s')%N → unrestored k es'.
Proof.
  induction ps as [|[s es] ps IH]; rewrite ?fmap_cons; cbn [concat fst snd]; [by intros _ ?%put_since_nil|].
  intros [Hsort Hlt]%StronglySorted_inv. rewrite Forall_forall in Hlt. rewrite put_since_app. intros [[Hp Hu]|Hp].
  - exists s, es. split_and!; [set_solver|done|]. intros s' es' [E|Hin]%elem_of_cons Hlt'; [injection E as -> ->; lia|].
    by apply (proj1 (unrestored_concat _ _) Hu s').
  - destruct (IH Hsort Hp) as (s' & es' & Hin & Hs & Hl). exists s', es'. split_and!; [set_solver|done|].
    intros s2 es2 [E|Hin2]%elem_of_cons Hlt'; [|by eapply Hl]. injection E as -> ->.
    assert (seg_lt s s') as Hx by (apply Hlt, (list_elem_of_fmap_2 fst _ _ Hin)). unfold seg_lt in Hx. lia.
Qed.

Lemma unrestored_es_at k gs s : (∀ es, (s, es) ∈ gs → unrestored k es) → unrestored k (es_at gs s).
Proof.
  intros Hu. unfold es_at. apply unrestored_concat. intros t es [Ht Hin]%elem_of_bfilter. cbn [fst] in Ht. apply bool_decide_eq_true in Ht as ->. by apply Hu.
Qed.

(** The segments a recovered log holds. *)
Definition recovered_from (σ : sys) (g : ghost) (k : nat) (sg' : list (segment * list Wal.Entry)) : Prop :=
  StronglySorted seg_lt sg'.*1 ∧
  (∀ p, p ∈ segs g ++ [(cur_seg (wal (eng σ)), cur g ++ take k (failed σ))] → nonempty p = true → p ∈ sg') ∧
  (∀ s es, (s, es) ∈ sg' → (s, es) ∈ segs g ++ [(cur_seg (wal (eng σ)), cur g ++ take k (failed σ))] ∨
     (s ∉ (segs g).*1 ∧ is_Some (gone σ !! seg_path s) ∧ es = es_at (gsegs g) s)).

(** What has to stay covered is still behind every restore. *)
Lemma recovered_since σ g k sg' key c :
  recovered_from σ g k sg' → unrestored key (failed σ) → since σ g (λ _, True) key c →
  put_since key (concat sg'.*2) c.
Proof.
  intros (Hsort & Hin & Hout) Hf (s & es & Hs & _ & Hp & Hl).
  assert (unrestored key (take k (failed σ))) as Hf'.
  { rewrite <-(take_drop k (failed σ)) in Hf. by apply unrestored_app in Hf as [? _]. }
  assert (∀ s' es', (s', es') ∈ sg' → (seg_seq s < seg_seq s')%N → unrestored key es') as Hl'.
  { intros s' es' [[Hx|E%list_elem_of_singleton]%elem_of_app|(_ & _ & ->)]%Hout Hlt.
    - apply (Hl s'); [unfold all_segs; set_solver|done].
    - injection E as -> ->. apply unrestored_app. split; [|done]. apply (Hl (cur_seg (wal (eng σ)))); [unfold all_segs; set_solver|done].
    - apply unrestored_es_at. intros es' Hx. apply (Hl s'); [set_solver|done]. }
  assert (∀ es', put_since key es' c → nonempty (s, es') = true) as Hne
    by (intros [|] Hx; [by apply put_since_nil in Hx|done]).
  unfold all_segs in Hs. apply elem_of_app in Hs as [Hs|E%list_elem_of_singleton].
  - apply (since_concat key sg' s es); [done| |done|done]. apply Hin; [set_solver|by apply Hne].
  - injection E as -> ->. assert (put_since key (cur g ++ take k (failed σ)) c) as Hp' by (apply put_since_app; by left).
    apply (since_concat key sg' (cur_seg (wal (eng σ))) (cur g ++ take k (failed σ))); [done| |done|done].
    apply Hin; [set_solver|by apply Hne].
Qed.

(** Of a key never restored, a recovered log holds what was visible, what a
    failed batch wrote, and nothing else. *)
Lemma recovered_only σ g k sg' key c :
  cover_inv σ g → recovered_from σ g k sg' → rolls σ key = 0 →
  unrestored key (concat sg'.*2) ∧
  (covered c (wal_items key (concat sg'.*2)) →
     in_mem σ key c ∨ in_tables σ g key c ∨ covered c (wal_items key (failed σ))).
Proof.
  intros Hcov (_ & _ & Hout) Hr. destruct (ci_none _ _ Hcov key Hr) as [Hf Hno]. split.
  - apply unrestored_concat. intros s es Hs. destruct (Hout s es Hs) as [[Hx|E%list_elem_of_singleton]%elem_of_app|(_ & _ & ->)].
    + apply (Hno s). unfold all_segs. set_solver.
    + injection E as -> ->. apply unrestored_app. split; [apply (Hno (cur_seg (wal (eng σ)))); unfold all_segs; set_solver|].
      rewrite <-(take_drop k (failed σ)) in Hf. by apply unrestored_app in Hf as [? _].
    + apply unrestored_es_at. intros es Hx. apply (Hno s). set_solver.
  - rewrite covered_concat. assert (∀ s es, (s, es) ∈ all_segs σ g → covered c (wal_items key es) →
      in_mem σ key c ∨ in_tables σ g key c ∨ covered c (wal_items key (failed σ))) as Hlog.
    { intros s es Hs Hc. destruct (ci_log _ _ Hcov key c Hr) as [?|?]; auto. by exists s, es. }
    intros (s & es & [[Hs|E%list_elem_of_singleton]%elem_of_app|(_ & _ & ->)]%Hout & Hc).
    + apply (Hlog s es); [unfold all_segs; set_solver|done].
    + injection E as -> ->. rewrite wal_items_app, covered_app in Hc. destruct Hc as [Hc|Hc].
      * apply (Hlog (cur_seg (wal (eng σ))) (cur g)); [unfold all_segs; set_solver|done].
      * right. right. rewrite <-(take_drop k (failed σ)), wal_items_app, covered_app. by left.
    + apply covered_es_at in Hc as (es & Hs & Hc). right. left. by eapply (ci_gone _ _ Hcov).
Qed.

Lemma es_at_nil (l : list segment) s : es_at ((λ s, (s, [])) <$> l) s = [].
Proof.
  unfold es_at. induction l as [|x l IHl]; [done|]. rewrite fmap_cons. cbn [bfilter fst].
  destruct (bool_decide (x = s)); [|exact IHl]. rewrite fmap_cons. cbn [concat snd app]. exact IHl.
Qed.

(** The log's part after [OpenLog]. *)
Lemma log_inv_recovered σ g σ' d' k sg' held mu :
  log_inv σ g →
  log_view (d_wal (eng σ')) (wal (eng σ')) sg' [] → names_ok d' →
  (∀ s es, (s, es) ∈ sg' → (s, es) ∈ segs g ++ [(cur_seg (wal (eng σ)), cur g ++ take k (failed σ))] ∨
     (s ∉ (segs g).*1 ∧ is_Some (gone σ !! seg_path s) ∧ es = es_at (gsegs g) s)) →
  (∀ name, is_Some (d' !! name) → d_wal (eng σ') !! name = None →
     ∃ s, seg_of name = Some s ∧ (seg_seq s < WalLog.seq (wal (eng σ')))%N) →
  gone σ' = (λ _, mkFile [] []) <$> (d' ∖ d_wal (eng σ')) → failed σ' = [] →
  log_inv σ' (mkGhost (d_wal (eng σ')) lio_fine [] sg' []
               ((λ s, (s, [])) <$> segments (d' ∖ d_wal (eng σ'))) held mu).
Proof.
  intros [L1 L2 L3 [L4 L4'] L5 L6 L6' L7] Hv Hnames Hout Hrm Hgone Hf.
  set (rm := d' ∖ d_wal (eng σ')) in *.
  assert (∀ (s : segment) (es : list Wal.Entry), (s, es) ∈ (λ s, (s, [])) <$> segments rm → es = []) as Hnil
    by (intros s es (? & [= _ ->] & _)%list_elem_of_fmap; done).
  assert (∀ name, is_Some (rm !! name) → is_Some (d' !! name) ∧ d_wal (eng σ') !! name = None) as Hrm'.
  { intros name [f [Hd Hn]%lookup_difference_Some]. eauto. }
  assert (((λ s, (s, [])) <$> segments rm : list (segment * list Wal.Entry)).*1 = segments rm) as Hfst
    by (rewrite <-list_fmap_compose; apply list_fmap_id).
  apply mk_log_inv; cbn; try done.
  - intros s es [[Hin|E%list_elem_of_singleton]%elem_of_app|Hin%Hnil]%elem_of_app; cbn in *;
      [|injection E as -> ->; constructor|by subst].
    destruct (Hout s es Hin) as [[Hs|E%list_elem_of_singleton]%elem_of_app|(_ & _ & ->)].
    + apply (L4' s). unfold all_segs. set_solver.
    + injection E as -> ->. apply Forall_app. split; [|by apply Forall_take].
      apply (L4' (cur_seg (wal (eng σ)))). unfold all_segs. set_solver.
    + apply Forall_forall. intros e He. unfold es_at in He.
      apply list_elem_of_In, in_concat in He as (es & Hes%list_elem_of_In & He%list_elem_of_In).
      apply list_elem_of_fmap in Hes as ([t es'] & -> & [_ Ht]%elem_of_bfilter).
      assert (Forall entry_fine es') as Hfine by (apply (L4' t); set_solver).
      rewrite Forall_forall in Hfine. by apply Hfine.
  - rewrite Hgone. intros name f. rewrite lookup_fmap. intros (f0 & Hr & ->)%fmap_Some.
    destruct (Hrm' name) as [Hd Hn]; [eauto|]. destruct (Hrm name Hd Hn) as (s & Hs & Hlt).
    exists s. split_and!; [done| |done|by apply Hnames].
    rewrite es_at_nil. apply log_holds_nil.
  - rewrite Hgone, Hfst. intros name s. rewrite lookup_fmap, fmap_is_Some. intros Hr Hs.
    pose proof (seg_of_path _ _ Hs) as <-. by apply elem_of_segments.
  - rewrite Hfst. apply NoDup_segments.
  - rewrite Hfst. intros s [Hr Hs]%elem_of_segments. destruct (Hrm' _ Hr) as [Hd Hn].
    destruct (Hrm _ Hd Hn) as (s' & Hs' & Hlt). rewrite Hs in Hs'. injection Hs' as <-. split; [done|].
    intros ([s' es] & -> & Hin)%list_elem_of_fmap. cbn [fst] in *.
    destruct (lv_files _ _ _ _ Hv s' es) as (_ & f & Hf' & _); [set_solver|]. congruence.
Qed.

(** The memory part after the replay. *)
Lemma mem_inv_recovered entries max es' :
  entry_contents <$> entries = entry_contents <$> es' → Forall entry_fine es' → NoDup (entries ≫= entry_addrs) →
  let m := fold_left replay_entry entries (Memtable.New max : MemTable T) in
  mt_ok m ∧ one_object (λ p, ∃ k, p ∈ Memtable.current m k) ∧
  (∀ k p, p ∈ Memtable.current m k → pair_ok (k, deref p)) ∧
  (∀ k c, unrestored k es' → covered c (Memtable.current m k) → covered c (wal_items k es')) ∧
  (∀ k c, put_since k es' c → covered c (Memtable.current m k)).
Proof.
  intros Hc Hfine Hnd m. pose proof (fine_contents _ _ Hc Hfine) as Hfine'.
  assert (one_object (λ p, p ∈ entries ≫= carried)) as Hone.
  { intros p q Hp Hq E. assert (NoDup (addr <$> (entries ≫= carried))) as Hnd'.
    { assert (addr <$> (entries ≫= carried) = entries ≫= entry_addrs) as ->; [|done]. clear.
      induction entries as [|e es IH]; [done|]. rewrite !bind_cons, fmap_app, IH. done. }
    apply list_elem_of_lookup in Hp as [i Hi], Hq as [j Hj].
    assert (i = j) as <-; [|congruence]. eapply NoDup_lookup; [exact Hnd'|rewrite list_lookup_fmap, Hi; done|].
    rewrite list_lookup_fmap, Hj. simpl. by rewrite E. }
  assert (∀ p, objects (Memtable.New max : MemTable T) entries p → p ∈ entries ≫= carried) as Hobj.
  { intros p [[k Hp]|Hp]; [|done]. rewrite New_current in Hp. by apply not_elem_of_nil in Hp. }
  destruct (replay_entries (Memtable.New max : MemTable T) entries) as (R1 & R2 & R3 & R4).
  - apply New_ok.
  - apply (Forall_impl _ _ _ Hfine'). apply fine_shaped.
  - by eapply one_object_sub, Hone.
  - fold m in R1, R2, R3, R4.
    assert (∀ k p, p ∈ Memtable.current m k → ∃ e, e ∈ entries ∧ Wal.Key e = k ∧ p ∈ carried e) as Hel.
    { intros k p [Hp|?]%R2; [|done]. rewrite New_current in Hp. by apply not_elem_of_nil in Hp. }
    split_and!; [done| | | |].
    + eapply one_object_sub, Hone. intros p [k (e & ? & _ & ?)%Hel]. apply list_elem_of_bind. eauto.
    + intros k p (e & He & <- & Hp)%Hel. rewrite Forall_forall in Hfine'. by apply fine_pairs; [apply Hfine'|].
    + intros k c Hu. rewrite R3, New_current, (wal_items_contents k _ _ Hc) by by eapply unrestored_contents.
      intros [?%covered_nil|?]; done.
    + intros k c Hp. apply R4. by eapply put_since_contents.
Qed.

(** Just opened: memory is what the segments hold, the current one is empty, and
    so are those that are gone. *)
Lemma cover_recovered σ g :
  dels σ = [] → pend σ = None → failed σ = [] → cur g = [] → (∀ s es, (s, es) ∈ gsegs g → es = []) →
  StronglySorted seg_lt (segs g).*1 → Forall entry_fine (concat (segs g).*2) →
  (∀ k c, must g k c → put_since k (concat (segs g).*2) c ∨ in_tables σ g k c) →
  (∀ k c, rolls σ k = 0 → put_since k (concat (segs g).*2) c → must g k c) →
  (∀ k c, put_since k (concat (segs g).*2) c → in_mem σ k c) →
  (∀ k, rolls σ k = 0 → unrestored k (concat (segs g).*2)) →
  (∀ k c, rolls σ k = 0 → in_mem σ k c → covered c (wal_items k (concat (segs g).*2))) → cover_inv σ g.
Proof.
  intros Hd Hp Hf Hc Hg Hsort Hfine Hmu Hmu' Him Hno Hup.
  assert (∀ s es, (s, es) ∈ all_segs σ g ++ gsegs g → es = [] ∨ (s, es) ∈ segs g) as Hall.
  { unfold all_segs. rewrite Hc. intros s es [[?|E%list_elem_of_singleton]%elem_of_app|?%Hg]%elem_of_app;
      [by right|injection E as _ ->; by left|by left]. }
  assert (∀ k c, put_since k (concat (segs g).*2) c → since σ g (λ _, True) k c) as Hsi.
  { intros k c Hput. destruct (concat_since _ _ _ Hsort Hput) as (s & es & Hin & Hs & Hl).
    exists s, es. split_and!; [unfold all_segs; set_solver|done|done|].
    intros s' es' [->|Hin']%Hall Hlt; [constructor|by eapply Hl]. }
  split.
  - intros k c [?|?]%Hmu; auto.
  - intros k c [?|?]%Hmu; auto.
  - intros k c _. rewrite Hf. constructor.
  - intros k c Hr Hm. apply Hmu'; [done|]. apply covered_put_since; [by apply Hno|by apply fine_puts|by apply Hup].
  - intros k c Hr (s & es & Hin & _ & Hco). destruct (Hall s es) as [->|Hin']; [set_solver|by apply covered_nil in Hco|].
    left. apply Him, covered_put_since; [by apply Hno|by apply fine_puts|]. apply covered_concat. by exists s, es.
  - intros s es k c _ ->%Hg Hcov. by apply covered_nil in Hcov.
  - rewrite Hd. by intros ? ?%not_elem_of_nil.
  - by rewrite Hp.
  - intros k Hr. rewrite Hf. split; [constructor|]. intros s es [->|Hin]%Hall; [constructor|].
    by apply (proj1 (unrestored_concat _ _) (Hno k Hr) s).
Qed.

Lemma recover σ g t a dd max :
  inv σ g → intact σ = true → crashed σ t dd → (WalLog.seq (wal (eng σ)) + 3 < two64)%N →
  ∃ dd' e' g', Open lio_fine oio_fine a dd max = (dd', Ok e') ∧
    let σ' := reopened σ t dd dd' e' in
    inv σ' g' ∧ carries σ σ' g g' ∧
    (∀ k c, in_tables σ' g' k c ↔ in_tables σ g k c) ∧
    (∀ k c, rolls σ k = 0 → in_mem σ' k c → in_mem σ k c ∨ in_tables σ g k c ∨ covered c (wal_items k (failed σ))).
Proof.
  intros [Hlog Hmem Htab Hman Hcov] Hint (Hcw & Ht & Hcm & Hcs) Hseq. specialize (Hman Hint).
  rewrite (li_dir _ _ Hlog) in Hcw.
  destruct (crash_reopen a _ _ _ _ _ _ _ _ _ _ (li_view _ _ Hlog) (li_gone _ _ Hlog) (li_failed _ _ Hlog)
    ltac:(lia) Hcw) as (k & d'' & l' & entries & sg' & Hopen & _ & Hv' & Hcont & Hin & Hout & Hnames & Hrm).
  destruct (mn_clean _ _ Hman) as (ls & Hls & Hmf & Hlv).
  set (f := mkFile (lines_of ls ++ t) (lines_of ls ++ t)).
  set (ids := rev (sort_strings (elements (live (manifest (eng σ)))))).
  assert (∀ id, id ∈ ids ↔ id ∈ live (manifest (eng σ))) as Hids.
  { intros id. unfold ids. by rewrite <-Permutation_rev, sort_strings_perm, elem_of_elements. }
  assert (NoDup ids) as Hndi by (unfold ids; rewrite <-Permutation_rev, sort_strings_perm; apply NoDup_elements).
  assert (∀ id, id ∈ ids → published (dd_sst dd) id (pub g id)) as Hpub.
  { intros id Hid%Hids. apply (published_ext (d_sst (eng σ))); [intros _; by apply Hcs|].
    by apply (mn_live _ _ Hman). }
  destruct (load_published _ _ _ Hpub) as (ssts & Hload & Hsids & Hssts).
  set (m := fold_left replay_entry entries (Memtable.New max : MemTable T)).
  set (mf := mkManifest f (live (manifest (eng σ)))).
  set (e' := mkEngine (mkLayers m None ssts) l' d'' mf (dd_sst dd) max None false false (mkCnt 0 0 0 0 0)).
  set (dd' := mkDir d'' (Some f) (dd_sst dd)).
  set (g' := mkGhost d'' lio_fine [] sg' [] ((λ s, (s, [])) <$> segments (dd_wal dd ∖ d'')) (pub g)
    (λ k c, must g k c ∨ put_since k (concat sg'.*2) c)).
  exists dd', e', g'. split.
  { unfold Open. rewrite Hopen, Hcm, Hmf. cbn [data]. fold f. rewrite (Open_lines ls t f Hls Ht eq_refl), Hlv.
    cbn [res_bind]. unfold loadLiveSSTables, LiveIDs. cbn [live]. fold ids. by rewrite Hload. }
  intros σ'.
  assert (log_inv σ' g') as Hlog' by (by eapply (log_inv_recovered σ g σ' (dd_wal dd) k)).
  assert (Forall entry_fine (concat sg'.*2)) as Hfine.
  { apply Forall_concat, Forall_fmap, Forall_forall. intros [s es] Hs.
    apply (proj2 (li_entries _ _ Hlog') s). unfold all_segs. cbn. set_solver. }
  assert (StronglySorted seg_lt sg'.*1) as Hsort.
  { pose proof (lv_sorted _ _ _ _ Hv') as Hs. by apply StronglySorted_app_1_l in Hs. }
  assert (recovered_from σ g k sg') as Hrf by by split_and!.
  destruct (mem_inv_recovered entries max _ Hcont Hfine (OpenLog_addrs _ _ _ _ _ _ Hopen)) as (M1 & M2 & M3 & M4 & M5).
  fold m in M1, M2, M3, M4, M5.
  assert (∀ key, mem_items (ly (eng σ')) key = Memtable.current m key) as Hmi
    by (intros; unfold mem_items; cbn; by rewrite app_nil_r).
  assert (∀ key c, in_tables σ' g' key c ↔ in_tables σ g key c) as Hit.
  { intros key c. rewrite (mn_same _ _ Hman). unfold in_tables, tables. cbn. setoid_rewrite <-Hids.
    rewrite <-Hsids. setoid_rewrite list_elem_of_fmap. naive_solver. }
  assert (∀ s, s ∈ ssts → table_ok (dd_sst dd) g' s) as Hoks.
  { intros s Hs. destruct (Hssts s Hs) as (? & ? & ?). split_and!; try done. apply (mn_live _ _ Hman).
    apply Hids. rewrite <-Hsids. by apply list_elem_of_fmap_2. }
  pose proof (λ key c, recovered_only σ g k sg' key c Hcov Hrf) as Hrec.
  split_and!; [split| |done|].
  - done.
  - split; try done.
    + intros k1 k2 p q. rewrite !Hmi. intros. apply M2; eauto.
    + intros key p. rewrite Hmi. apply M3.
  - split; try done. cbn. by rewrite Hsids.
  - intros Hi. assert (t = []) as -> by by apply bool_decide_eq_true in Hi. split; try done.
    + exists ls. cbn. unfold f. by rewrite app_nil_r.
    + intros id Hid. split; [by apply Hpub, Hids|by apply (mn_live _ _ Hman)].
    + intros key c. rewrite Hit. apply (mn_same _ _ Hman).
  - apply (cover_recovered σ' g'); try done.
    + intros s es (? & [= _ ->] & _)%list_elem_of_fmap. done.
    + intros key c [Hm|?]; [|by left]. rewrite Hit. destruct (ci_kept _ _ Hcov key c Hm) as [Hs|?]; [left|by right].
      eapply recovered_since; [done|by eapply (ci_failed _ _ Hcov)|done].
    + intros key c _ ?. by right.
    + intros key c Hp. unfold in_mem. rewrite Hmi. by apply M5.
    + intros key Hr. by apply (Hrec key ∅).
    + intros key c Hr. unfold in_mem. rewrite Hmi. apply M4. by apply (Hrec key ∅).
  - intros key c Hm _. by left.
  - intros key c Hr. unfold in_mem at 1. rewrite Hmi. intros Hc%M4; [|by apply (Hrec key ∅)]. by apply (Hrec key c).
Qed.

(** ** Every step *)

Lemma inv_background σ σ' g : inv σ g → background σ σ' → ∃ g', inv σ' g' ∧ must g' = must g.
Proof.
  intros Hinv Hs. destruct Hs.
  - by eapply inv_register.
  - destruct r; [exists g; split; [by apply inv_install_ok|done]|exists g; split; [by apply (inv_install_err _ _ m n)|done]].
  - by eapply inv_delete.
  - by eapply inv_compact.
  - exists g. split; [by eapply inv_swap_tables|done].
Qed.

Lemma inv_step σ σ' g : inv σ g → step σ σ' → ∃ g', inv σ' g' ∧ carries σ σ' g g'.
Proof.
  intros Hinv Hs. destruct Hs as [σ iow ior a batch e' errs fl Hbf Hseq Hco|σ σ' Hb|σ t a dd max dd' e' Hi Hcr Hseq Ho].
  - destruct (inv_commit _ _ _ _ _ _ _ _ _ Hinv Hbf Hseq Hco) as (g' & ? & ? & _). eauto.
  - destruct (inv_background _ _ _ Hinv Hb) as (g' & ? & ?). exists g'. split; [done|by apply carries_same].
  - destruct (recover σ g t a dd max Hinv Hi Hcr Hseq) as (dd2 & e2 & g' & Ho' & R1 & R2 & _).
    rewrite Ho in Ho'. injection Ho' as <- <-. by exists g'.
Qed.

(** The runs of an engine that starts in an empty directory. *)
Inductive reachable : sys → Prop :=
  | reachable_start a max dd e :
      Open lio_fine oio_fine a (mkDir ∅ None ∅) max = (dd, Ok e) →
      reachable (mkSys e None [] None ∅ [] true (λ _, 0))
  | reachable_step σ σ' : reachable σ → step σ σ' → reachable σ'.

Inductive steps : sys → sys → Prop :=
  | steps_refl σ : steps σ σ
  | steps_cons σ1 σ2 σ3 : step σ1 σ2 → steps σ2 σ3 → steps σ1 σ3.

Lemma mem_items_New max (tabs : list (SSTable B)) k :
  mem_items (mkLayers (Memtable.New max : MemTable T) None tabs) k = [].
Proof. unfold mem_items. cbn [active flushing from_option]. by rewrite New_current. Qed.

Lemma inv_start a max dd e :
  Open lio_fine oio_fine a (mkDir ∅ None ∅) max = (dd, Ok e) → ∃ g, inv (mkSys e None [] None ∅ [] true (λ _, 0)) g.
Proof.
  unfold Open. cbn [dd_wal dd_manifest dd_sst].
  destruct (OpenLog_spec a ∅ (λ _, [])) as (d & l & entries & -> & Hc & _ & Hv).
  { by intros name [? ?]. }
  { intros s Hs%elem_of_segments. destruct Hs as [[? ?] _]. done. }
  assert (segments ∅ = []) as Hs0.
  { destruct (segments ∅) as [|s l'] eqn:E; [done|].
    assert (s ∈ segments ∅) as Hs%elem_of_segments by (rewrite E; set_solver). by destruct Hs as [[? ?] _]. }
  rewrite Hs0 in Hc. destruct entries; [|done]. unfold tagged in Hv. rewrite Hs0 in Hv.
  change (bfilter nonempty _) with ([] : list (segment * list Wal.Entry)) in Hv.
  assert (Manifest.Open oio_fine None = (Some (mkFile [] []), Ok (mkManifest (mkFile [] []) ∅))) as -> by done.
  assert (loadLiveSSTables (B := B) (mkManifest (mkFile [] []) ∅) ∅ = Ok []) as -> by done.
  cbn [fold_left]. intros [= _ <-]. exists (mkGhost d lio_fine [] [] [] [] (λ _, []) (λ _ _, False)).
  split.
  - apply mk_log_inv; cbn; try done.
    + intros s es [= -> ->]%list_elem_of_singleton. constructor.
    + by intros name s [? ?].
    + constructor.
    + by intros s ?%not_elem_of_nil.
  - pose proof (mem_items_New max []) as Hmi. split; try done.
    + split; [apply New_ok|done].
    + intros k k' p q Hp. cbn [eng ly] in Hp. rewrite Hmi in Hp. by apply not_elem_of_nil in Hp.
    + intros k p Hp. cbn [eng ly] in Hp. rewrite Hmi in Hp. by apply not_elem_of_nil in Hp.
  - split; cbn; try done.
    + by intros s ?%not_elem_of_nil.
    + constructor.
  - intros _. split; cbn; try done.
    + by exists [].
    + intros k c. split; [intros (s & ?%not_elem_of_nil & _)|intros (id & ? & _)]; set_solver.
  - apply cover_recovered; cbn; try done.
    + by intros ? ? ?%not_elem_of_nil.
    + constructor.
    + by intros k c _ ?%put_since_nil.
    + by intros k c ?%put_since_nil.
    + intros k _. constructor.
    + intros k c _. unfold in_mem. cbn [eng ly]. rewrite mem_items_New. by intros ?%covered_nil.
Qed.

Lemma reachable_inv σ : reachable σ → ∃ g, inv σ g.
Proof.
  induction 1 as [a max dd e Ho|σ σ' _ [g Hg] Hs]; [by eapply inv_start|].
  destruct (inv_step _ _ _ Hg Hs) as (g' & ? & _). eauto.
Qed.
End steps.
