(* ===== verification/EngineSafety.v ===== *)
(** * What the engine promises its callers

    Over the step relation of [EngineSteps]: background work never changes an
    answer, an acknowledged write is read back by every later read whatever
    flushes, compactions and crashes come between (until the key is restored),
    and a recovery with an intact manifest brings back what was visible and
    nothing that was never written. *)

From stdpp Require Import gmap strings list sorting pretty.
From Stdlib Require Import ZArith Lia Ascii.
From S2P Require Import Prelude GoLib VectorClock Versioning Json Memtable Wal WalLog Manifest Sstable Compaction Engine EngineSteps.

Section safety.
Context {T : Type} `{!BTree (list itemptr) T} `{!BTreeSpec (list itemptr) T}.
Context {B : Type} `{!Bloom B} `{!BloomSpec B}.
Context `{!JsonCodec value, !JsonCodec Wal.record, !JsonCodec Sstable.record, !JsonCodec (list indexEntry)}.
Context `{!JsonRoundTrip value value_ok, !RecordJson, !JsonRoundTrip Sstable.record Sstable.record_ok,
          !JsonRoundTrip (list indexEntry) index_ok}.
Implicit Types (e : StorageEngine T B) (σ : sys (T := T) (B := B)).

(** ** Answers *)

(** Every read of [key] returns the versions [vs], wherever it allocates. *)
Definition answers e (key : string) (vs : list DataItem) : Prop :=
  ∀ a, ∃ items found, Engine.GetAll a e key = Ok (items, found) ∧ deref <$> items = vs ∧ (found = true ↔ vs ≠ []).

Definition held (g : ghost) (tabs : list (SSTable B)) : list (list (string * DataItem)) :=
  (λ s, pub g (ID s)) <$> tabs.

Lemma held_holds d g tabs : (∀ s, s ∈ tabs → table_ok d g s) → Forall2 (table_holds d) tabs (held g tabs).
Proof.
  unfold held. induction tabs as [|s tabs IH]; intros Hok; rewrite ?fmap_cons; constructor.
  - by destruct (Hok s) as [? _]; [set_solver|].
  - apply IH. set_solver.
Qed.

Lemma answers_visible e g key :
  layers_ok (ly e) → (∀ s, s ∈ sstables (ly e) → table_ok (d_sst e) g s) →
  answers e key (visible (ly e) (held g (sstables (ly e))) key).
Proof. intros Hl Hok a. apply mergeLayers_spec; [done|by apply held_holds]. Qed.

Lemma inv_tables_ok σ g s : inv σ g → s ∈ sstables (ly (eng σ)) → table_ok (d_sst (eng σ)) g s.
Proof. intros Hinv Hs. apply (ti_ok _ _ (inv_table _ _ Hinv)). unfold tables. set_solver. Qed.

Lemma inv_answers σ g key :
  inv σ g → answers (eng σ) key (visible (ly (eng σ)) (held g (sstables (ly (eng σ)))) key).
Proof.
  intros Hinv. apply answers_visible; [apply (mi_ok _ (inv_mem _ _ Hinv))|by apply (λ s, inv_tables_ok σ g s Hinv)].
Qed.

Lemma answers_unique e key vs vs' : answers e key vs → answers e key vs' → vs = vs'.
Proof.
  intros H1 H2. destruct (H1 0%N) as (i & f & E & <- & _), (H2 0%N) as (i' & f' & E' & <- & _). congruence.
Qed.

(** ** What is visible, layer by layer *)

Definition sees σ g k c : Prop := in_mem σ k c ∨ in_tables σ g k c.

Lemma covered_visible e g key c :
  covered c (visible (ly e) (held g (sstables (ly e))) key) ↔
    covered c (mem_items (ly e) key) ∨ covered c (run_versions g (sstables (ly e)) key).
Proof.
  unfold visible, held, run_versions. rewrite covered_canon, covered_app, covered_deref.
  by rewrite <-list_fmap_compose.
Qed.

Lemma sees_visible σ g key c :
  inv σ g → covered c (visible (ly (eng σ)) (held g (sstables (ly (eng σ)))) key) ↔ sees σ g key c.
Proof.
  intros Hinv. rewrite covered_visible, covered_run. unfold sees, in_mem, in_tables, tables. split.
  - intros [?|(s & ? & ?)]; [by left|right; exists s; set_solver].
  - intros [?|(s & [Hs|Hs]%elem_of_app & Hc)]; [by left| |right; by exists s].
    left. destruct (pend σ) as [[|m n [s'|]]|] eqn:Hp; try (by apply not_elem_of_nil in Hs).
    apply list_elem_of_singleton in Hs as ->.
    rewrite (ti_new _ _ (inv_table _ _ Hinv) m n s' key Hp), covered_deref in Hc.
    unfold mem_items. rewrite (mi_pend _ (inv_mem _ _ Hinv)), Hp, covered_app. by right.
Qed.
(** ** Background work *)

(** Files added beside the tables' own do not change an answer. *)
Lemma answers_keep σ g e' key :
  inv σ g → ly e' = ly (eng σ) → dir_keeps (d_sst (eng σ)) (d_sst e') →
  answers e' key (visible (ly (eng σ)) (held g (sstables (ly (eng σ)))) key).
Proof.
  intros Hinv Hl Hk. rewrite <-Hl. apply answers_visible; rewrite Hl; [apply (mi_ok _ (inv_mem _ _ Hinv))|].
  intros s Hs. eapply table_ok_keep; [done|done|by apply inv_tables_ok].
Qed.

Lemma register_keeps sio mio now e entries e' r :
  d_sst e !! sst_name (sst_id now) = None → writeAndRegister sio mio now e entries = (e', r) →
  ly e' = ly e ∧ dir_keeps (d_sst e) (d_sst e').
Proof.
  intros Hn. unfold writeAndRegister. fold (sst_id now).
  destruct (WriteWithID _ _ _ _) as [d [s|err]] eqn:HW; pose proof (write_keeps _ _ _ _ _ _ Hn HW).
  - destruct (Add _ _ _) as [m [?|]]; by intros [= <- _].
  - by intros [= <- _].
Qed.

Lemma compact_keeps io a e e' r :
  compact_write io a e = (e', r) → ly e' = ly e ∧ dir_keeps (d_sst e) (d_sst e').
Proof.
  unfold compact_write. destruct (SelectTierForCompaction _) as [|newest srcs]; [by intros [= <- _]|].
  destruct (Merge _ _ _) as [entries|]; [|by intros [= <- _]].
  destruct (compactedID_free (d_sst e) (ID newest)) as (x & _ & Hfree). set (id := compactedID _ _) in *. clearbody id.
  destruct (WriteWithID _ _ _ _) as [d [s|err]] eqn:HW; pose proof (write_keeps _ _ _ _ _ _ Hfree HW) as Hk;
    [|by intros [= <- _]].
  destruct (WriteWithID_id _ _ _ _ _ _ HW) as [_ Hp]. rewrite Hp.
  destruct (Add _ _ _) as [m [?|]].
  - intros [= <- _]. split; [done|]. cbn. destruct (c_unlink io _); [by apply delete_keeps|done].
  - destruct (Remove _ _ _) as [m' [?|]]; by intros [= <- _].
Qed.

Lemma background_answers σ σ' g key :
  inv σ g → background σ σ' → answers (eng σ') key (visible (ly (eng σ)) (held g (sstables (ly (eng σ)))) key).
Proof.
  intros Hinv Hb. destruct Hb as [σ m n sio mio now e' r Hp Hn Hw Hs|σ m n r Hp|σ n rest io Hd
    |σ io a e' r Hc Hw Hs|σ io srcs merged e' err Hc Hw].
  - destruct (register_keeps _ _ _ _ _ _ _ Hn Hw). by eapply answers_keep.
  - pose proof (mi_ok _ (inv_mem _ _ Hinv)) as [Ha Hf]. pose proof (mi_pend _ (inv_mem _ _ Hinv)) as Hfl.
    rewrite Hp in Hfl. cbn in Hfl. destruct r as [s|err].
    + pose proof (inv_install_ok σ g m n s Hinv Hp) as Hinv'.
      assert (visible (ly (eng σ)) (held g (sstables (ly (eng σ)))) key =
        visible (ly (flush_install (eng σ) m (Ok s))) (held g (s :: sstables (ly (eng σ)))) key) as ->.
      { unfold visible, mem_items, held. rewrite Hfl, !fmap_cons.
        cbn [flush_install ly set_cnt set_layers active flushing from_option concat].
        rewrite (ti_new _ _ (inv_table _ _ Hinv) m n s key Hp).
        by rewrite fmap_app, app_nil_r, <-app_assoc. }
      exact (inv_answers _ g key Hinv').
    + pose proof (inv_install_err σ g m n err Hinv Hp) as Hinv'.
      assert (visible (ly (eng σ)) (held g (sstables (ly (eng σ)))) key =
        visible (ly (flush_install (eng σ) m (Err err))) (held g (sstables (ly (eng σ)))) key) as ->.
      { unfold visible, mem_items. rewrite Hfl.
        cbn [flush_install ly set_cnt set_layers active flushing from_option]. rewrite PutBackOlder_current, Snapshot_items, app_nil_r by done.
        rewrite MergeSiblings_canon by by apply current_antichain. rewrite fmap_deref_canon.
        pose proof (canon_absorb [] (deref <$> Memtable.current (active (ly (eng σ))) key ++ Memtable.current m key)
          (concat (versions key <$> held g (sstables (ly (eng σ)))))) as E. rewrite !app_nil_l in E. by rewrite E. }
      exact (inv_answers _ g key Hinv').
  - apply (answers_keep σ); [done| |]; unfold flush_delete; by destruct (DeleteThrough _ _ _ _) as [[? ?] ?].
  - destruct (compact_keeps _ _ _ _ _ Hw). by eapply answers_keep.
  - pose proof (inv_swap_tables σ g io srcs merged e' err Hinv Hc Hw) as Hinv'.
    destruct (ti_comp _ _ (inv_table _ _ Hinv) _ _ Hc) as (pre & post & Htabs & Hne & _ & _ & Hv).
    pose proof (ti_distinct _ _ (inv_table _ _ Hinv)) as Hnd. unfold tables in Hnd.
    rewrite fmap_app, Htabs in Hnd. apply NoDup_app in Hnd as (_ & _ & Hnd).
    unfold compact_install in Hw. rewrite Htabs, replaceRun_spec in Hw by done. injection Hw as <- _.
    assert (visible (ly (eng σ)) (held g (sstables (ly (eng σ)))) key =
      visible (mkLayers (active (ly (eng σ))) (flushing (ly (eng σ))) (pre ++ merged :: post))
        (held g (pre ++ merged :: post)) key) as ->; [|exact (inv_answers _ g key Hinv')].
    unfold visible, held. rewrite Htabs, !fmap_app, !fmap_cons, !concat_app. cbn [concat].
    rewrite Hv, <-!list_fmap_compose, !app_assoc.
    rewrite <-(app_assoc _ (canon _)), <-(app_assoc _ (concat (_ <$> srcs))). by rewrite canon_absorb.
Qed.

(** C5: background work is invisible.  In every state an engine can reach
    (through any interleaving of commits of puts and restores, the stages of
    flushes and compactions, and crashes followed by [Open]), a flush that
    writes and registers its table, installs it or puts its versions back, or
    deletes log segments, and a compaction that writes and records its table,
    or swaps it in and unlinks the run, leave what [GetAll] returns for every
    key as it was: the same versions in the same order, and no read error.
    This holds for any outcome of the table, log and manifest file operations,
    torn manifest lines and failed syncs included; a new table's name is free
    and its size fits an int64. *)
Theorem background_steps_keep_reads σ σ' (key : string) :
  reachable σ → background σ σ' → ∃ vs, answers (eng σ) key vs ∧ answers (eng σ') key vs.
Proof.
  intros [g Hg]%reachable_inv Hb. eexists. split; [by apply inv_answers|by eapply background_answers].
Qed.

(** ** Commits *)

(** A read of [key] returns a version that covers [c]. *)
Definition shown e (key : string) (c : gmap string N) : Prop := ∃ vs, answers e key vs ∧ covered c vs.

Lemma shown_sees σ g key c : inv σ g → shown (eng σ) key c ↔ sees σ g key c.
Proof.
  intros Hinv. rewrite <-(sees_visible σ g) by done. split.
  - intros (vs & Ha & Hc). by rewrite <-(answers_unique _ _ _ _ Ha (inv_answers σ g key Hinv)).
  - intros Hc. eexists. split; [by apply inv_answers|done].
Qed.

(** What has to stay covered is read. *)
Lemma must_shown σ g key c : inv σ g → must g key c → shown (eng σ) key c.
Proof. intros Hinv Hm. apply (shown_sees σ g); [done|]. by apply (ci_seen _ _ (inv_cover _ _ Hinv)). Qed.

Lemma step_rolls σ σ' k : step σ σ' → rolls σ k ≤ rolls σ' k.
Proof. intros [| |]; [cbn; lia| |done]. match goal with H : background _ _ |- _ => by destruct H end. Qed.

Lemma steps_rolls σ σ' k : steps σ σ' → rolls σ k ≤ rolls σ' k.
Proof. induction 1 as [|σ1 σ2 σ3 H1 _ IH]; [done|]. pose proof (step_rolls _ _ k H1). lia. Qed.

Lemma steps_must σ σ' g key c :
  steps σ σ' → inv σ g → must g key c → rolls σ' key = rolls σ key → ∃ g', inv σ' g' ∧ must g' key c.
Proof.
  intros Hs. revert g. induction Hs as [σ|σ1 σ2 σ3 H1 H2 IH]; intros g Hg Hm Hr; [eauto|].
  destruct (inv_step _ _ _ Hg H1) as (g' & Hg' & Hca).
  pose proof (step_rolls _ _ key H1). pose proof (steps_rolls _ _ key H2).
  apply (IH g'); [done|apply Hca; [done|lia]|lia].
Qed.

(** A put of a batch that is acknowledged, behind the batch's restores. *)
Lemma commit_must σ g iow ior a batch e' errs fl i r key item :
  inv σ g → batch_fine (eng σ) batch → (WalLog.seq (wal (eng σ)) + 3 < two64)%N →
  commit iow ior a (eng σ) batch = (e', errs, fl) →
  batch !! i = Some r → errs !! i = Some None → req_entry r = put_entry key item →
  unrestored key (req_entry <$> drop (S i) batch) →
  ∃ g', inv (committed σ batch e' fl) g' ∧ must g' key (clock item).
Proof.
  intros Hinv Hbf Hseq Hco Hi Herr Hreq Hu.
  destruct (inv_commit _ _ _ _ _ _ _ _ _ Hinv Hbf Hseq Hco) as (g' & Hg' & _ & [Hsome|Hmu]).
  { rewrite Forall_lookup in Hsome. by destruct (Hsome _ _ Herr). }
  exists g'. split; [done|]. apply Hmu. exists (req_entry <$> take i batch), item, (req_entry <$> drop (S i) batch).
  split_and!; [|reflexivity|done]. rewrite <-Hreq, <-fmap_cons, <-fmap_app. by rewrite take_drop_middle.
Qed.

(** C1: an acknowledged write is never lost.  In every reachable state, let
    [commit] return no error for a [Put] of a batch.  Then, until a restore of
    that key is requested (in the same batch behind it, or later), each read
    of the key succeeds and returns a version whose clock covers the one
    written: that version itself, or one that supersedes it.  Meanwhile any
    batches of puts and restores are committed or fail, flushes and
    compactions run with any outcome of their file operations, and the process
    crashes and [Open]s its files as often as it likes, as long as it does so
    with an intact manifest: none of whose writes since the last [Open] was
    torn or failed to sync, and which did not end in the start of a line then.
    (The code goes on writing to a manifest that is not intact; see the
    findings on manifest.go and engine.go.) *)
Theorem acknowledged_write_durable σ iow ior a batch e' errs fl σ' i r key item :
  reachable σ → batch_fine (eng σ) batch → (WalLog.seq (wal (eng σ)) + 3 < two64)%N →
  commit iow ior a (eng σ) batch = (e', errs, fl) →
  batch !! i = Some r → errs !! i = Some None → req_entry r = put_entry key item →
  unrestored key (req_entry <$> drop (S i) batch) →
  steps (committed σ batch e' fl) σ' → rolls σ' key = rolls (committed σ batch e' fl) key →
  ∃ vs v, answers (eng σ') key vs ∧ v ∈ vs ∧ clock item ⊑c clock v.
Proof.
  intros Hr Hbf Hseq Hco Hi Herr Hreq Hu Hs Hro. destruct (reachable_inv _ Hr) as [g Hg].
  destruct (commit_must _ _ _ _ _ _ _ _ _ _ _ _ _ Hg Hbf Hseq Hco Hi Herr Hreq Hu) as (g1 & Hg1 & Hm1).
  destruct (steps_must _ _ _ _ _ Hs Hg1 Hm1 Hro) as (g' & Hg' & Hm').
  destruct (must_shown _ _ _ _ Hg' Hm') as (vs & Ha & v & Hv & Hle). eauto.
Qed.

End safety.

(** ** Witnesses *)

Section witnesses.
#[local] Existing Instance gmap_btree.
#[local] Existing Instance gmap_btree_spec.
#[local] Existing Instance set_bloom.
#[local] Existing Instance set_bloom_spec.
#[local] Existing Instance toy_value_json.
#[local] Existing Instance toy_record_json.
#[local] Existing Instance toy_record_roundtrip.
#[local] Existing Instance toy_sst_json.
#[local] Existing Instance toy_index_json.
#[local] Instance toy_value_rt' : JsonRoundTrip value value_ok := countable_codec_roundtrip value value_ok.
#[local] Instance toy_sst_rt' : JsonRoundTrip Sstable.record Sstable.record_ok :=
  countable_codec_roundtrip Sstable.record Sstable.record_ok.
#[local] Instance toy_index_rt' : JsonRoundTrip (list indexEntry) index_ok :=
  countable_codec_roundtrip (list indexEntry) index_ok.
#[local] Arguments wal_bytes : simpl never.

Abbreviation mt := (gmap string (list itemptr)).
Abbreviation bl := (gset string).

(** An engine just opened, whose memtable is full after one put. *)
Definition w_engine : StorageEngine mt bl :=
  mkEngine (mkLayers (Memtable.New 1) None []) (mkLog (segmentPath 1) 1 [])
    {[ segmentPath 1 := mkFile [] [] ]} (mkManifest (mkFile [] []) ∅) ∅ 1 None false false (mkCnt 0 0 0 0 0).

Lemma w_open : Open lio_fine oio_fine 0 (mkDir ∅ None ∅) 1 =
  (mkDir {[ segmentPath 1 := mkFile [] [] ]} (Some (mkFile [] [])) ∅, Ok w_engine).
Proof. reflexivity. Qed.

Definition w_sys : sys := mkSys w_engine None [] None ∅ [] true (λ _, 0).

Lemma w_reachable : reachable w_sys.
Proof. eapply reachable_start, w_open. Qed.

Definition w_batch : list writeReq := [mkReq wal_e1 (wal_bytes wal_e1)].

Lemma w_batch_fine : batch_fine w_engine w_batch.
Proof.
  split.
  - constructor; [|constructor]. split; [apply wal_e1_encodes|]. left. eexists. split; [reflexivity|].
    apply sst_item_ok; [done|by vm_compute|by apply map_Forall_singleton|].
    apply sst_len_ok. vm_cast_no_check (eq_refl true).
  - assert (∀ p, (∃ k, p ∈ mem_items (ly w_engine) k) ∨ p ∈ (req_entry <$> w_batch) ≫= carried →
      p = mkPtr 1 (ex_item "a" {["n1" := 1%N]})) as Hone.
    { intros p [[k Hp]|Hp]; [|by apply list_elem_of_singleton in Hp]. unfold w_engine in Hp. cbn [ly] in Hp.
      rewrite mem_items_New in Hp. by apply not_elem_of_nil in Hp. }
    intros p q ->%Hone ->%Hone _. reflexivity.
Qed.

(** The put commits and starts a flush. *)
Definition w_committed := commit lio_fine lio_fine 10 w_engine w_batch.
Definition w_e1 : StorageEngine mt bl := w_committed.1.1.

Lemma w_errs : w_committed.1.2 = [None].
Proof. vm_cast_no_check (eq_refl ([None] : list (option Engine.error))). Qed.

Definition w_sys1 : sys := committed w_sys w_batch w_e1 w_committed.2.

Lemma w_commit : commit lio_fine lio_fine 10 w_engine w_batch = (w_e1, [None], w_committed.2).
Proof. rewrite <-w_errs. unfold w_e1, w_committed. by destruct (commit _ _ _ _ _) as [[? ?] ?]. Qed.

Lemma w_reachable1 : reachable w_sys1.
Proof.
  eapply (reachable_step w_sys), (step_commit w_sys); [apply w_reachable|apply w_batch_fine|done|apply w_commit].
Qed.

Lemma acknowledged_write_durable_witness :
  ∃ vs v, answers (eng w_sys1) "k" vs ∧ v ∈ vs ∧
    clock (mkPtr 1 (ex_item "a" {["n1" := 1%N]})) ⊑c clock v.
Proof.
  apply (acknowledged_write_durable w_sys lio_fine lio_fine 10 w_batch w_e1 [None] w_committed.2 w_sys1 0
    (mkReq wal_e1 (wal_bytes wal_e1)) "k" (mkPtr 1 (ex_item "a" {["n1" := 1%N]})));
    [apply w_reachable|apply w_batch_fine|reflexivity|apply w_commit|reflexivity|reflexivity|reflexivity|
     constructor|apply steps_refl|reflexivity].
Defined.

(** The flush it started writes and registers its table. *)
Definition w_frozen : MemTable mt := match w_committed.2 with Some (m, _) => m | None => Memtable.New 1 end.
Definition w_registered := writeAndRegister sio_fine io_fine 5 w_e1 (Snapshot w_frozen).
Definition w_size_ok (r : res Engine.error (SSTable bl)) : bool :=
  match r with Ok s => (Size s <? two63)%Z | Err _ => false end.

Lemma w_flush_started : bool_decide (snd <$> w_committed.2 = Some 1%N) = true.
Proof. vm_cast_no_check (eq_refl true). Qed.

Lemma w_sst_empty : bool_decide (d_sst w_e1 = ∅) = true.
Proof. vm_cast_no_check (eq_refl true). Qed.

Lemma w_registered_ok : w_size_ok w_registered.2 = true.
Proof. vm_cast_no_check (eq_refl true). Qed.

Lemma background_steps_keep_reads_witness :
  ∃ r e' vs, w_registered = (e', Ok r) ∧ answers w_e1 "k" vs ∧ answers e' "k" vs.
Proof.
  pose proof w_registered_ok as Hok. destruct w_registered as [e' [s|err]] eqn:E; [|discriminate Hok].
  exists s, e'.
  destruct (background_steps_keep_reads w_sys1
    (mkSys e' (Some (Registered w_frozen 1 (Ok s))) [] None ∅ (failed w_sys1) true (rolls w_sys1)) "k") as (vs & H1 & H2).
  - apply w_reachable1.
  - apply (bg_register w_sys1 w_frozen 1 sio_fine io_fine 5 e' (Ok s)).
    + pose proof w_flush_started as Hf%bool_decide_eq_true. unfold w_sys1, w_frozen. cbn [pend start_flush].
      destruct w_committed.2 as [[m n]|]; [|discriminate Hf]. by injection Hf as ->.
    + pose proof w_sst_empty as Hd%bool_decide_eq_true. change (d_sst w_e1 !! sst_name (sst_id 5) = None). by rewrite Hd.
    + exact E.
    + apply Z.ltb_lt, Hok.
  - exists vs. split; [reflexivity|]. split; [exact H1|exact H2].
Defined.

(** The process dies while the flush is under way, with the start of its
    manifest line written. *)
Definition w_dir : data_dir :=
  let mf := data (mfile (manifest w_e1)) ++ to_bytes "ADD sst" in
  mkDir (d_wal w_e1) (Some (mkFile mf mf)) {[ "sst_5.tmp" := [] ]}.

Lemma w_state : bool_decide (live (manifest w_e1) = ∅) = true ∧ bool_decide (failed w_sys1 = []) = true ∧
  forallb (λ p : string * file, bool_decide (data p.2 = durable p.2)) (map_to_list (d_wal w_e1)) = true ∧
  (WalLog.seq (wal w_e1) <? 10)%N = true.
Proof. split_and!; vm_cast_no_check (eq_refl true). Qed.

Lemma synced_crash (gone d : dir) :
  forallb (λ p : string * file, bool_decide (data p.2 = durable p.2)) (map_to_list d) = true → dir_crash gone d d.
Proof.
  intros Hd name. destruct (d !! name) as [f|] eqn:E; [|by left]. exists f. split; [done|].
  rewrite forallb_forall in Hd. specialize (Hd (name, f)). cbn [snd] in Hd.
  assert (data f = durable f) as Hf.
  { eapply bool_decide_eq_true_1, Hd. by apply list_elem_of_In, elem_of_map_to_list. }
  exists (length (data f)). split; [by rewrite <-Hf|]. rewrite take_ge by lia. destruct f; simpl in *. by subst.
Qed.

Lemma w_torn : no_newline (to_bytes "ADD sst").
Proof. apply (bool_decide_eq_true_1 (no_newline _)). vm_compute. reflexivity. Qed.

End witnesses.
