(* ===== verification/Datastore.v ===== *)
(** * Versioned writes on a persister (internal/store/datastore.go, persister.go)

    The [Persister] interface with what it promises ([PersisterSpec]), the
    [DataStore] on top of it, and what its reads and writes do to a key's
    siblings, proved against the interface. *)

From stdpp Require Import gmap strings list.
From Stdlib Require Import ZArith Lia.
From S2P Require Import Prelude GoLib VectorClock Versioning.

(** ** The interface *)

(** [IO] is what the environment decides about a write; a read allocates the
    items it decodes from the given address. *)
Class Persister (P IO E : Type) := {
  p_Put : IO → P → string → itemptr → P * option E;
  p_GetAll : N → P → string → res E (list itemptr * bool);
  p_Restore : IO → P → string → list itemptr → P * option E;
  p_Keys : P → res E (list string);
  p_Error : E → string
}.

(** What a persister promises, in its states [p_ok] and for the items it can
    take: reads return the key's versions, newest first; a write that returns
    no error merges its item into them with the rules of [Resolve] and leaves
    other keys alone; a write that returns an error leaves every read alone; a
    restore that returns no error makes the given versions the key's own, and
    no restore changes another key; the keys listed are those that have
    versions. *)
Class PersisterSpec (P IO E : Type) `{!Persister P IO E} := {
  p_ok : P → Prop;
  p_accepts : P → string → itemptr → Prop;
  p_restorable : IO → P → string → list itemptr → Prop;
  p_versions : P → string → list DataItem;
  p_antichain p k : p_ok p → antichain (p_versions p k);
  p_reads p a k : p_ok p →
    match p_GetAll a p k with
    | Ok (items, found) => deref <$> items = p_versions p k ∧ (found = true ↔ p_versions p k ≠ [])
    | Err _ => True
    end;
  p_puts io p k item : p_ok p → p_accepts p k item →
    match p_Put io p k item with
    | (p', None) =>
        p_ok p' ∧ (∀ k', k' ≠ k → p_versions p' k' = p_versions p k') ∧
        (∀ v, v ∈ p_versions p' k → v ∈ p_versions p k ∨ v = deref item) ∧
        (∀ c, covered c (p_versions p' k) ↔ covered c (p_versions p k) ∨ c ⊑c clock item)
    | (p', Some _) => p_ok p' ∧ ∀ k', p_versions p' k' = p_versions p k'
    end;
  p_restores io p k items : p_ok p → p_restorable io p k items →
    match p_Restore io p k items with
    | (p', None) => p_ok p' ∧ (∀ k', k' ≠ k → p_versions p' k' = p_versions p k') ∧ p_versions p' k = (deref <$> items)
    | (p', Some _) => p_ok p' ∧ ∀ k', k' ≠ k → p_versions p' k' = p_versions p k'
    end;
  p_lists p : p_ok p →
    match p_Keys p with
    | Ok keys => NoDup keys ∧ ∀ k, k ∈ keys ↔ p_versions p k ≠ []
    | Err _ => True
    end
}.

Section datastore.
Context {P IO E : Type} `{!Persister P IO E}.

(** ** Operations *)

(** The key locks and the hash seed behind them are left out: every write is
    one step. *)
Record DataStore := mkStore { id : string; clockID : string; persister : P }.

Definition NewDataStoreWithPersisterAndClockID (i c : string) (p : P) : DataStore := mkStore i c p.
Definition NewDataStoreWithPersister (i : string) (p : P) : DataStore :=
  NewDataStoreWithPersisterAndClockID i i p.

Definition set_persister (ds : DataStore) (p : P) : DataStore := mkStore (id ds) (clockID ds) p.

Definition reversed (items : list itemptr) : list itemptr := rev items.

(** Oldest first. *)
Definition load (a : N) (ds : DataStore) (key : string) : res E (list itemptr * bool) :=
  match p_GetAll a (persister ds) key with
  | Err err => Err err
  | Ok (items, found) => Ok (reversed items, found)
  end.

Definition Keys (ds : DataStore) : res E (list string) := p_Keys (persister ds).

Definition Get (a : N) (ds : DataStore) (key : string) : res E (list itemptr * bool) := load a ds key.

Definition GetLiveItems (a : N) (ds : DataStore) (key : string) : list itemptr * bool :=
  match load a ds key with
  | Err _ | Ok (_, false) => ([], false)
  | Ok (items, true) =>
      let alive := bfilter (λ i, negb (IsDeleted (deref i))) items in
      (alive, match alive with [] => false | _ => true end)
  end.

(** [new] is the address of the item that [Put] and [Delete] build; a nil
    context is [None]. *)
Definition Put (io : IO) (a new : N) (ds : DataStore) (key : string) (value : value)
    (context : option (gmap string N)) : DataStore * option itemptr :=
  let base :=
    match context with
    | Some ctx => Ok ctx
    | None =>
        match load a ds key with
        | Err err => Err err
        | Ok (existing, true) => Ok (UnionVectorClock existing)
        | Ok (_, false) => Ok ∅
        end
    end in
  match base with
  | Err _ => (ds, None)
  | Ok base =>
      let incoming := mkPtr new (mkItem value (BuildFromContext base (clockID ds)) (id ds) false) in
      match p_Put io (persister ds) key incoming with
      | (p, Some _) => (set_persister ds p, None)
      | (p, None) => (set_persister ds p, Some incoming)
      end
  end.

Definition Delete (io : IO) (a new : N) (ds : DataStore) (key : string) (context : option (gmap string N))
    : DataStore * (bool * string) :=
  match load a ds key with
  | Err err => (ds, (false, "storage error: " +:+ p_Error err))
  | Ok (_, false) => (ds, (false, "Key not found"))
  | Ok (existing, true) =>
      let base := default (UnionVectorClock existing) context in
      let tombstone := mkPtr new (mkItem VNil (BuildFromContext base (clockID ds)) (id ds) true) in
      match p_Put io (persister ds) key tombstone with
      | (p, Some err) => (set_persister ds p, (false, "storage error: " +:+ p_Error err))
      | (p, None) => (set_persister ds p, (true, "Key deleted"))
      end
  end.

(** The two log lines that differ with the error are left out. *)
Definition RestoreVersions (io : IO) (ds : DataStore) (key : string) (items : list itemptr) : DataStore * option E :=
  let '(p, err) := p_Restore io (persister ds) key (reversed items) in (set_persister ds p, err).

Definition MergeReplicated (io : IO) (ds : DataStore) (key : string) (item : itemptr) : DataStore * option E :=
  let '(p, err) := p_Put io (persister ds) key item in (set_persister ds p, err).
End datastore.

Arguments DataStore P : clear implicits.

(** ** What writes do *)

Section spec.
Context {P IO E : Type} `{!Persister P IO E} `{!PersisterSpec P IO E}.
Implicit Types (p : P) (ds : DataStore P).

(** A key's versions as the store returns them, oldest first. *)
Definition siblings ds (key : string) : list DataItem := rev (p_versions (persister ds) key).

Lemma load_siblings a ds key :
  p_ok (persister ds) →
  match load a ds key with
  | Ok (items, found) => deref <$> items = siblings ds key ∧ (found = true ↔ siblings ds key ≠ [])
  | Err _ => True
  end.
Proof.
  intros Hok. pose proof (p_reads (persister ds) a key Hok) as Hr. unfold load.
  destruct (p_GetAll a (persister ds) key) as [[items found]|]; [|done]. destruct Hr as [Hv Hf].
  unfold siblings, reversed. rewrite <-Hv. split; [exact (map_rev deref items)|].
  rewrite Hf, Hv. destruct (p_versions (persister ds) key) as [|v l]; simpl; [done|].
  split; [by destruct (rev l)|done].
Qed.

(** A version that is after all the others replaces them. *)
Lemma superseded (old new : list DataItem) (x : DataItem) :
  antichain new → (∀ v, v ∈ new → v ∈ old ∨ v = x) →
  (∀ c, covered c new ↔ covered c old ∨ c ⊑c clock x) → (∀ y, y ∈ old → clock y ⊏c clock x) → new = [x].
Proof.
  intros Hanti Hel Hcov Hlt.
  assert (x ∈ new) as Hx.
  { destruct (proj2 (Hcov (clock x))) as (w & Hw & Hle); [right; reflexivity|].
    destruct (Hel w Hw) as [Ho| ->]; [|done]. exfalso. apply (vlt_irrefl (clock x)).
    eapply vle_lt_trans; [exact Hle|by apply Hlt]. }
  assert (∀ y, y ∈ new → y = x) as Hall.
  { intros y Hy. destruct (Hel y Hy) as [Ho| ->]; [|done]. eapply antichain_elem; [done..|]. by apply vlt_le, Hlt. }
  pose proof (antichain_NoDup _ Hanti) as Hnd. destruct new as [|y new]; [set_solver|].
  assert (y = x) as -> by (apply Hall; set_solver). destruct new as [|z new]; [done|]. exfalso.
  inversion Hnd as [|? ? Hni _]; subst. apply Hni. assert (z = x) as -> by (apply Hall; set_solver). set_solver.
Qed.

Lemma union_siblings (items : list itemptr) : UnionVectorClock items = UnionVectorClock (deref <$> items).
Proof.
  unfold UnionVectorClock. generalize (∅ : gmap string N) as u. induction items as [|i items IH]; intros u; [done|].
  rewrite fmap_cons. cbn [fold_left]. apply IH.
Qed.

(** What the clock of a write is built on. *)
Definition write_base ds (key : string) (context : option (gmap string N)) : gmap string N :=
  default (UnionVectorClock (siblings ds key)) context.

Lemma Put_base a ds key context :
  p_ok (persister ds) →
  match match context with
        | Some ctx => Ok ctx
        | None => match load a ds key with
                  | Err err => Err err
                  | Ok (existing, true) => Ok (UnionVectorClock existing)
                  | Ok (_, false) => Ok ∅
                  end
        end with
  | Ok base => base = write_base ds key context
  | Err _ => context = None
  end.
Proof.
  intros Hok. unfold write_base. destruct context as [ctx|]; [done|]. pose proof (load_siblings a ds key Hok) as Hl.
  destruct (load a ds key) as [[existing []]|]; [| |done]; destruct Hl as [Hv Hf]; simpl.
  - by rewrite union_siblings, Hv.
  - destruct (siblings ds key) as [|v l]; [done|]. destruct Hf as [_ Hf]. discriminate (Hf ltac:(done)).
Qed.

(** A version of the key that was not merged away. *)
Lemma survivor (old new : list DataItem) (x v : DataItem) :
  antichain old → (∀ w, w ∈ new → w ∈ old ∨ w = x) → (∀ c, covered c new ↔ covered c old ∨ c ⊑c clock x) →
  v ∈ old → ¬ clock v ⊑c clock x → v ∈ new.
Proof.
  intros Ho Hel Hcov Hv Hn. destruct (proj2 (Hcov (clock v))) as (w & Hw & Hle); [left; by apply covered_elem|].
  destruct (Hel w Hw) as [Hwo| ->]; [|done]. by rewrite (antichain_elem _ _ _ Ho Hv Hwo Hle).
Qed.

Lemma write_clock ds key context base :
  base = write_base ds key context → (mget base (clockID ds) < two32 - 1)%N →
  base ⊏c state (BuildFromContext base (clockID ds)).
Proof. intros _ Hlt. rewrite BuildFromContext_state, u32_small by lia. apply insert_supersedes. lia. Qed.

Lemma below_base ds key y :
  y ∈ p_versions (persister ds) key → clock y ⊑c write_base ds key None.
Proof. intros Hy. apply UnionVectorClock_above. unfold siblings. by rewrite <-Permutation_rev. Qed.

(** C16: what [DataStore.Put] does to a key.  If it returns an item, that item
    is the write: its value, this node as its author, and a clock strictly
    after the context it was given, or after all the versions the key had if
    it was given none (while the counter does not wrap).  Without a context it
    becomes the key's only version; with one, every version the context does
    not cover stays beside it.  Other keys do not change.  If it returns nil,
    no read changes. *)
Theorem datastore_put_versions (io : IO) (a new : N) ds (key : string) (value : value) (context : option (gmap string N)) :
  let item := mkPtr new (mkItem value (BuildFromContext (write_base ds key context) (clockID ds)) (id ds) false) in
  p_ok (persister ds) → p_accepts (persister ds) key item →
  (mget (write_base ds key context) (clockID ds) < two32 - 1)%N →
  match Put io a new ds key value context with
  | (ds', Some i) =>
      i = item ∧ p_ok (persister ds') ∧ write_base ds key context ⊏c clock i ∧
      (context = None → siblings ds' key = [deref i]) ∧
      (∀ v, v ∈ siblings ds key → ¬ clock v ⊑c clock i → v ∈ siblings ds' key) ∧
      (∀ v, v ∈ siblings ds' key → v ∈ siblings ds key ∨ v = deref i) ∧ covered (clock i) (siblings ds' key) ∧
      ∀ k, k ≠ key → siblings ds' k = siblings ds k
  | (ds', None) => p_ok (persister ds') ∧ ∀ k, siblings ds' k = siblings ds k
  end.
Proof.
  intros item Hok Hacc Hlt. unfold Put. pose proof (Put_base a ds key context Hok) as Hb.
  destruct (match context with Some ctx => _ | None => _ end) as [base|err]; [|by split].
  rewrite Hb. fold item. pose proof (p_puts io (persister ds) key item Hok Hacc) as Hp.
  destruct (p_Put io (persister ds) key item) as [p' [err|]].
  { destruct Hp as [Hok' Hsame]. split; [done|]. intros k. unfold siblings. by rewrite Hsame. }
  destruct Hp as (Hok' & Hother & Hel & Hcov).
  assert (write_base ds key context ⊏c clock item) as Hclk by (by apply (write_clock ds key context)).
  pose proof (p_antichain (persister ds) key Hok) as Hanti.
  split_and!; try done; unfold siblings; cbn [persister set_persister].
  - intros ->. rewrite (superseded (p_versions (persister ds) key) (p_versions p' key) (deref item)); try done.
    + by apply p_antichain.
    + intros y Hy. eapply vle_lt_trans; [by apply below_base|exact Hclk].
  - intros v. rewrite <-!Permutation_rev. by apply (survivor _ _ (deref item)).
  - intros v. rewrite <-!Permutation_rev. apply Hel.
  - destruct (proj2 (Hcov (clock item))) as (w & Hw & Hle); [right; reflexivity|]. exists w.
    by rewrite <-Permutation_rev.
  - intros k Hk. by rewrite Hother.
Qed.

Lemma tombstone_not_live a ds key t :
  p_ok (persister ds) → siblings ds key = [t] → IsDeleted t = true → GetLiveItems a ds key = ([], false).
Proof.
  intros Hok Hs Ht. pose proof (load_siblings a ds key Hok) as Hl. unfold GetLiveItems.
  destruct (load a ds key) as [[items []]|]; try done. destruct Hl as [Hv _]. rewrite Hs in Hv.
  destruct items as [|i [|j items]]; try done. injection Hv as Hv. cbn [bfilter]. by rewrite Hv, Ht.
Qed.

(** Deletion is a write.  [Delete] answers true only for a key that has
    versions; without a context it leaves a single version, a tombstone after
    all of them, so that the key's live items are gone while [Get] still
    returns the tombstone for replication; other keys do not change.  When it
    answers false no read changes, and the answer says whether the key was not
    there or the storage failed. *)
Theorem datastore_delete_tombstones (io : IO) (a new : N) ds (key : string) (context : option (gmap string N)) :
  let tomb := mkPtr new (mkItem VNil (BuildFromContext (write_base ds key context) (clockID ds)) (id ds) true) in
  p_ok (persister ds) → p_accepts (persister ds) key tomb →
  (mget (write_base ds key context) (clockID ds) < two32 - 1)%N →
  match Delete io a new ds key context with
  | (ds', (true, msg)) =>
      msg = "Key deleted" ∧ siblings ds key ≠ [] ∧ covered (clock tomb) (siblings ds' key) ∧
      (context = None → siblings ds' key = [deref tomb] ∧ ∀ a', GetLiveItems a' ds' key = ([], false)) ∧
      ∀ k, k ≠ key → siblings ds' k = siblings ds k
  | (ds', (false, msg)) =>
      (∀ k, siblings ds' k = siblings ds k) ∧
      (siblings ds key = [] ∧ msg = "Key not found" ∨ ∃ err, msg = "storage error: " +:+ p_Error err)
  end.
Proof.
  intros tomb Hok Hacc Hlt. unfold Delete. pose proof (load_siblings a ds key Hok) as Hl.
  destruct (load a ds key) as [[existing found]|err]; [|by split; [|right; exists err]]. destruct Hl as [Hv Hf].
  destruct found.
  2: { split; [done|]. left. split; [|done]. destruct (siblings ds key); [done|].
       destruct Hf as [_ Hf]. discriminate (Hf ltac:(done)). }
  assert (default (UnionVectorClock existing) context = write_base ds key context) as ->
    by (unfold write_base; by rewrite union_siblings, Hv).
  fold tomb. pose proof (p_puts io (persister ds) key tomb Hok Hacc) as Hp.
  destruct (p_Put io (persister ds) key tomb) as [p' [err|]].
  { destruct Hp as [_ Hsame]. split; [|right; by exists err]. intros k. unfold siblings. cbn. by rewrite Hsame. }
  destruct Hp as (Hok' & Hother & Hel & Hcov).
  assert (write_base ds key context ⊏c clock tomb) as Hclk by (by apply (write_clock ds key context)).
  assert (context = None → siblings (set_persister ds p') key = [deref tomb]) as Hone.
  { intros ->. unfold siblings. cbn [persister set_persister].
    rewrite (superseded (p_versions (persister ds) key) (p_versions p' key) (deref tomb)); try done.
    - by apply p_antichain.
    - intros y Hy. eapply vle_lt_trans; [by apply below_base|exact Hclk]. }
  split_and!; [done|by apply Hf| | |].
  - destruct (proj2 (Hcov (clock tomb))) as (w & Hw & Hle); [right; reflexivity|]. exists w. unfold siblings.
    by rewrite <-Permutation_rev.
  - intros Hc. split; [by apply Hone|]. intros a'. apply (tombstone_not_live a' _ _ (deref tomb)); [exact Hok'|by apply Hone|done].
  - intros k Hk. unfold siblings. cbn. by rewrite Hother.
Qed.
End spec.

(** ** A persister in memory

    The simplest store that keeps the interface's promises: a map from keys to
    sibling sets, oldest first, which never fails. *)

Definition mem_versions (m : gmap string (list itemptr)) (k : string) : list itemptr := default [] (m !! k).

#[export] Instance mem_persister : Persister (gmap string (list itemptr)) unit unit := {
  p_Put _ m k item := (<[k := Resolve (mem_versions m k) item]> m, None);
  p_GetAll _ m k := Ok (rev (mem_versions m k), match mem_versions m k with [] => false | _ => true end);
  p_Restore _ m k items := (match items with [] => delete k m | _ => <[k := rev items]> m end, None);
  p_Keys m := Ok (elements (dom m));
  p_Error _ := EmptyString
}.

Lemma mem_insert m k k' l : mem_versions (<[k := l]> m) k' = if decide (k = k') then l else mem_versions m k'.
Proof.
  unfold mem_versions. destruct (decide (k = k')) as [->|Hne]; [by rewrite lookup_insert_eq|by rewrite lookup_insert_ne].
Qed.

Lemma mem_delete m k k' : mem_versions (delete k m) k' = if decide (k = k') then [] else mem_versions m k'.
Proof.
  unfold mem_versions. destruct (decide (k = k')) as [->|Hne]; [by rewrite lookup_delete_eq|by rewrite lookup_delete_ne].
Qed.

(** Sibling sets, and no key without versions. *)
Definition mem_ok (m : gmap string (list itemptr)) : Prop :=
  ∀ k, antichain (mem_versions m k) ∧ m !! k ≠ Some [].

Lemma mem_ok_empty : mem_ok ∅.
Proof. intros k. unfold mem_versions. rewrite lookup_empty. split; [constructor|done]. Qed.

Lemma antichain_rev {A} `{Clocked A} (l : list A) : antichain l → antichain (rev l).
Proof.
  intros Ha. induction Ha as [|x l Hx _ IH]; [constructor|]. simpl. apply ForallOrdPairs_snoc. split; [exact IH|].
  rewrite Forall_forall in Hx. apply Forall_forall. intros y. rewrite <-Permutation_rev. intros Hy.
  destruct (Hx y Hy). by split.
Qed.

Lemma covered_rev {A} `{Clocked A} (l : list A) c : covered c (rev l) ↔ covered c l.
Proof. unfold covered. split; intros (w & Hw & Hle); exists w; revert Hw; rewrite <-Permutation_rev; by intros. Qed.

Lemma Resolve_nonempty {A} `{Clocked A} (l : list A) x : Resolve l x ≠ [].
Proof.
  intros E. destruct (proj2 (covered_Resolve (clock x) l x)) as (w & Hw & _); [right; reflexivity|].
  rewrite E in Hw. by apply not_elem_of_nil in Hw.
Qed.

Lemma mem_puts (m : gmap string (list itemptr)) k item :
  mem_ok m →
  let m' := <[k := Resolve (mem_versions m k) item]> m in
  mem_ok m' ∧
  (∀ k', k' ≠ k → deref <$> rev (mem_versions m' k') = deref <$> rev (mem_versions m k')) ∧
  (∀ v, v ∈ deref <$> rev (mem_versions m' k) → v ∈ deref <$> rev (mem_versions m k) ∨ v = deref item) ∧
  (∀ c, covered c (deref <$> rev (mem_versions m' k)) ↔
        covered c (deref <$> rev (mem_versions m k)) ∨ c ⊑c clock item).
Proof.
  intros Ha m'. unfold m'. split_and!.
  - intros k'. rewrite mem_insert. destruct (decide (k = k')) as [->|Hne].
    + rewrite lookup_insert_eq. split; [apply Resolve_antichain, Ha|]. intros [= E]. by apply Resolve_nonempty in E.
    + rewrite lookup_insert_ne by done. apply Ha.
  - intros k' Hne. rewrite mem_insert. by rewrite decide_False.
  - rewrite mem_insert, decide_True by done. intros v (i & -> & Hi)%list_elem_of_fmap. revert Hi.
    rewrite <-Permutation_rev. intros [Hi| ->]%Resolve_elem; [left|by right].
    apply list_elem_of_fmap_2. by rewrite <-Permutation_rev.
  - intros c. rewrite mem_insert, decide_True by done. rewrite !(covered_map deref clock_deref), !covered_rev.
    apply covered_Resolve.
Qed.

Lemma fmap_rev_nil (l : list itemptr) : deref <$> rev l ≠ [] ↔ l ≠ [].
Proof.
  destruct l as [|i l]; [done|]. simpl. rewrite fmap_app. split; [done|]. intros _. by destruct (deref <$> rev l).
Qed.

#[export] Program Instance mem_persister_spec : PersisterSpec (gmap string (list itemptr)) unit unit := {
  p_ok := mem_ok;
  p_accepts _ _ _ := True;
  p_restorable _ _ _ items := antichain items;
  p_versions m k := deref <$> rev (mem_versions m k)
}.
Next Obligation. intros m k Ha. apply (antichain_map deref clock_deref), antichain_rev, Ha. Qed.
Next Obligation.
  intros m a k _. cbn. split; [done|]. rewrite fmap_rev_nil. by destruct (mem_versions m k).
Qed.
Next Obligation. intros io m k item Ha _. cbn -[Resolve]. by apply mem_puts. Qed.
Next Obligation.
  intros io m k items Ha Hi. cbn. destruct items as [|i l].
  - split_and!; [|intros k' Hne; by rewrite mem_delete, decide_False|by rewrite mem_delete, decide_True].
    intros k'. rewrite mem_delete. destruct (decide (k = k')) as [->|Hne]; [rewrite lookup_delete_eq; by split; [constructor|]|].
    rewrite lookup_delete_ne by done. apply Ha.
  - split_and!; [|intros k' Hne; by rewrite mem_insert, decide_False|by rewrite mem_insert, decide_True, rev_involutive].
    intros k'. rewrite mem_insert. destruct (decide (k = k')) as [->|Hne].
    + rewrite lookup_insert_eq. split; [by apply antichain_rev|]. intros [= E]. by apply app_nil in E as [_ ?].
    + rewrite lookup_insert_ne by done. apply Ha.
Qed.
Next Obligation.
  intros m Ha. cbn. split; [apply NoDup_elements|]. intros k. rewrite elem_of_elements, elem_of_dom, fmap_rev_nil.
  unfold mem_versions. destruct (Ha k) as [_ Hn]. destruct (m !! k) as [[|]|]; simpl; [done| |].
  - split; [done|]. intros _. by eexists.
  - split; [by intros [? ?]|done].
Qed.

(** ** The theorems at concrete stores *)

Definition w_store : DataStore (gmap string (list itemptr)) :=
  NewDataStoreWithPersisterAndClockID "node-1" "node-1#7"
    {["k" := [mkPtr 1 (mkItem (VString "x") (mkVC {["node-1#7" := 1%N]}) "node-1" false);
              mkPtr 2 (mkItem (VString "y") (mkVC {["node-2#3" := 4%N]}) "node-2" false)]]}.

Lemma w_store_ok : p_ok (persister w_store).
Proof.
  intros k. unfold mem_versions. cbn -[lookup singletonM]. destruct (decide (k = "k"%string)) as [->|Hne].
  - rewrite lookup_singleton_eq. split; [|done]. cbn. constructor; [|repeat constructor]. apply Forall_singleton.
    split; intros Hle; [specialize (Hle "node-1#7"%string)|specialize (Hle "node-2#3"%string)]; vm_compute in Hle; done.
  - rewrite lookup_singleton_ne by done. split; [constructor|done].
Qed.

Lemma datastore_put_versions_witness :
  (mget (write_base w_store "k" None) "node-1#7" = 1)%N ∧
  siblings (fst (Put () 0 9 w_store "k" (VString "z") None)) "k" =
    [mkItem (VString "z") (mkVC {["node-1#7" := 2%N; "node-2#3" := 4%N]}) "node-1" false].
Proof.
  split; [vm_compute; reflexivity|].
  pose proof (datastore_put_versions () 0 9 w_store "k" (VString "z") None w_store_ok I ltac:(vm_compute; reflexivity)) as H.
  revert H. destruct (Put () 0 9 w_store "k" (VString "z") None) as [ds' [i|]] eqn:E.
  - intros (-> & _ & _ & Hone & _). simpl fst. rewrite (Hone eq_refl). vm_compute. reflexivity.
  - exfalso. vm_compute in E. discriminate E.
Defined.

Lemma datastore_delete_tombstones_witness :
  snd (Delete () 0 9 w_store "k" None) = (true, "Key deleted"%string) ∧
  GetLiveItems 0 (fst (Delete () 0 9 w_store "k" None)) "k" = ([], false).
Proof.
  pose proof (datastore_delete_tombstones () 0 9 w_store "k" None w_store_ok I ltac:(vm_compute; reflexivity)) as H.
  revert H. destruct (Delete () 0 9 w_store "k" None) as [ds' [[] msg]] eqn:E.
  - intros (-> & _ & _ & Hone & _). split; [reflexivity|]. apply (Hone eq_refl).
  - exfalso. vm_compute in E. discriminate E.
Defined.
