(* ===== verification/EnginePersister.v ===== *)
(** * The engine as a persister

    [StorageEngine] implements the interface that [DataStore] and the hint
    store are written against ([Persister], [PersisterSpec]): what the engine
    promises, in every state a run of it can reach, discharges what they
    assume. *)

From stdpp Require Import gmap strings list sorting pretty.
From Stdlib Require Import ZArith Lia Ascii.
From S2P Require Import Prelude GoLib VectorClock Versioning Json Memtable Wal WalLog Manifest Sstable Compaction Engine EngineSteps EngineSafety Datastore.

Section engine_persister.
Context {T : Type} `{!BTree (list itemptr) T} `{!BTreeSpec (list itemptr) T}.
Context {B : Type} `{!Bloom B} `{!BloomSpec B}.
Context `{!JsonCodec value, !JsonCodec Wal.record, !JsonCodec Sstable.record, !JsonCodec (list indexEntry)}.
Context `{!JsonRoundTrip value value_ok, !RecordJson, !JsonRoundTrip Sstable.record Sstable.record_ok,
          !JsonRoundTrip (list indexEntry) index_ok}.
(** The text of an engine's error. *)
Context (error_text : Engine.error → string).
Implicit Types (e : StorageEngine T B) (σ : sys (T := T) (B := B)).

(** What the environment decides about a write: the outcome of the log's
    file operations, of the rotation a put may start, and where a
    verification's reads allocate. *)
Record put_io := mkPutIO { io_append : log_io; io_rotate : log_io; io_alloc : N }.

Definition engine_Put (io : put_io) e (key : string) (item : itemptr) : StorageEngine T B * option Engine.error :=
  (Engine.Put (io_append io) (io_rotate io) (io_alloc io) e key item).1.
Definition engine_Restore (io : put_io) e (key : string) (items : list itemptr)
    : StorageEngine T B * option Engine.error :=
  (Engine.Restore (io_append io) (io_rotate io) (io_alloc io) e key items).1.

#[export] Instance engine_persister : Persister (StorageEngine T B) put_io Engine.error := {
  p_Put := engine_Put;
  p_GetAll := Engine.GetAll;
  p_Restore := engine_Restore;
  p_Keys e := Ok (Engine.Keys e);
  p_Error := error_text
}.

(** ** What the engine takes *)

Definition engine_ok e : Prop := ∃ σ, reachable σ ∧ eng σ = e.

(** A put that the log and the table format can hold; no other object in
    memory has the item's address. *)
Definition engine_accepts e (key : string) (item : itemptr) : Prop :=
  Wal.entry_ok (put_entry key item) ∧ put_ok (put_entry key item) ∧
  (∀ b, Encode (put_entry key item) = Ok b → (N.of_nat (length b) < two32)%N) ∧
  one_object (λ p, (∃ k, p ∈ mem_items (ly e) k) ∨ p = item) ∧
  (WalLog.seq (wal e) + 3 < two64)%N.

(** Versions to restore: siblings that the formats can hold, allocated before
    the verification reads; objects of memory may be among them. *)
Definition engine_restorable (io : put_io) e (key : string) (items : list itemptr) : Prop :=
  Wal.entry_ok (restore_entry key items) ∧ restore_ok (restore_entry key items) ∧
  (∀ b, Encode (restore_entry key items) = Ok b → (N.of_nat (length b) < two32)%N) ∧
  one_object (λ p, (∃ k, p ∈ mem_items (ly e) k) ∨ p ∈ items) ∧
  (∀ p, p ∈ items → (addr p < io_alloc io)%N) ∧
  (WalLog.seq (wal e) + 3 < two64)%N.

Definition engine_versions e (key : string) : list DataItem :=
  match Engine.GetAll 0 e key with Ok (items, _) => deref <$> items | Err _ => [] end.

Lemma engine_versions_answers e key vs : answers e key vs → engine_versions e key = vs.
Proof. intros Ha. unfold engine_versions. by destruct (Ha 0%N) as (i & f & -> & <- & _). Qed.

Lemma engine_answers e key : engine_ok e → answers e key (engine_versions e key).
Proof.
  intros (σ & [g Hg]%reachable_inv & <-). pose proof (inv_answers σ g key Hg) as Ha.
  by rewrite (engine_versions_answers _ _ _ Ha).
Qed.

Lemma engine_versions_visible σ g key :
  inv σ g → engine_versions (eng σ) key = visible (ly (eng σ)) (held g (sstables (ly (eng σ)))) key.
Proof. intros Hg. by apply engine_versions_answers, inv_answers. Qed.

(** A read looks at the layers and the table files only. *)
Lemma engine_versions_layers e e' key :
  ly e' = ly e → d_sst e' = d_sst e → engine_versions e' key = engine_versions e key.
Proof. unfold engine_versions, Engine.GetAll. by intros -> ->. Qed.

(** ** One request *)

(** A batch of one request: refused or not written, and then no layer changes;
    or applied, perhaps with a swap after it. *)
Lemma commit_one iow ior a e entry rec e' errs fl :
  commit iow ior a e [mkReq entry rec] = (e', errs, fl) →
  d_sst e' = d_sst e ∧ sstables (ly e') = sstables (ly e) ∧
  ((∃ err, errs = [Some err]) ∧ ly e' = ly e ∨
   (∃ l crossed, apply_loop a (d_sst e) (ly e) [mkReq entry rec] false = (l, errs, crossed)) ∧
   ∀ k, mem_items (ly e') k =
     Memtable.current (replay_entry (active (ly e)) entry) k ++ from_option (λ f, Memtable.current f k) [] (flushing (ly e))).
Proof.
  unfold commit, haltErr. destruct (halted e) as [cause|] eqn:Hh; cbn [fmap option_fmap option_map].
  { intros [= <- <- _]. split_and!; [done|done|]. left. split; [by eexists|done]. }
  destruct (log_WriteBatch _ _ _ _) as [d [err|]].
  { intros [= <- <- _]. unfold halt. cbn. rewrite Hh. split_and!; [done|done|]. left. split; [by eexists|done]. }
  set (e1 := set_cnt _ _). unfold apply.
  destruct (apply_loop_fold a (d_sst e1) (ly e1) [mkReq entry rec] false) as (errs' & crossed & Ha & _).
  change (d_sst e1) with (d_sst e) in *. change (ly e1) with (ly e) in *. rewrite Ha.
  cbn [fmap list_fmap fold_left req_entry]. set (e2 := set_layers e1 _). destruct (crossed && _) eqn:Ec.
  - apply andb_true_iff in Ec as [_ Ec]. cbn in Ec.
    destruct (flushing (ly e)) as [?|] eqn:Hfl; [done|]. unfold swap.
    destruct (Rotate _ _ _) as [[d' l'] [n [err|]]]; intros [= <- <- _]; (split_and!; [done|done|right; split; [eauto|]]);
      intros k; unfold mem_items; cbn [e2 e1 set_layers set_log ly active flushing from_option set_cnt];
      rewrite ?Hfl, ?New_current; cbn [from_option]; by rewrite !app_nil_r.
  - intros [= <- <- _]. split_and!; [done|done|right; split; [eauto|]]. intros k. done.
Qed.

(** A request as a step: where it leads, and what its reads see. *)
Lemma write_step σ g iow ior a entry rec e' errs fl :
  reachable σ → inv σ g → batch_fine (eng σ) [mkReq entry rec] → (WalLog.seq (wal (eng σ)) + 3 < two64)%N →
  commit iow ior a (eng σ) [mkReq entry rec] = (e', errs, fl) →
  engine_ok e' ∧ (d_sst e' = d_sst (eng σ) → sstables (ly e') = sstables (ly (eng σ)) →
    ∀ k, engine_versions e' k = visible (ly e') (held g (sstables (ly (eng σ)))) k).
Proof.
  intros Hr Hg Hbf Hseq Hco. pose proof (reachable_step _ _ Hr (step_commit _ _ _ _ _ _ _ _ Hbf Hseq Hco)) as Hr'.
  split; [by eexists; split; [exact Hr'|]|]. intros Hd Hss k. rewrite <-Hss. apply engine_versions_answers, answers_visible.
  - destruct (reachable_inv _ Hr') as [g' Hg']. apply (mi_ok _ (inv_mem _ _ Hg')).
  - rewrite Hss, Hd. intros s Hs. by apply inv_tables_ok.
Qed.

(** ** A put *)

Lemma put_versions σ g iow ior a key item rec e' fl :
  reachable σ → inv σ g → batch_fine (eng σ) [mkReq (put_entry key item) rec] → (WalLog.seq (wal (eng σ)) + 3 < two64)%N →
  commit iow ior a (eng σ) [mkReq (put_entry key item) rec] = (e', [None], fl) →
  (∀ k, k ≠ key → engine_versions e' k = engine_versions (eng σ) k) ∧
  (∀ v, v ∈ engine_versions e' key → v ∈ engine_versions (eng σ) key ∨ v = deref item) ∧
  (∀ c, covered c (engine_versions e' key) ↔ covered c (engine_versions (eng σ) key) ∨ c ⊑c clock item).
Proof.
  intros Hr Hinv Hbf Hseq Hco. destruct (commit_one _ _ _ _ _ _ _ _ _ Hco) as (Hd & Hss & [[[? ?] _]|[_ Hm]]); [done|].
  destruct (write_step _ _ _ _ _ _ _ _ _ _ Hr Hinv Hbf Hseq Hco) as [_ Hv]. specialize (Hv Hd Hss).
  assert (∀ m : MemTable T, replay_entry m (put_entry key item) = (Memtable.Put m key item).1) as Ep by done.
  setoid_rewrite Ep in Hm. setoid_rewrite Put_current in Hm.
  destruct (mi_ok _ (inv_mem _ _ Hinv)) as [Ha _]. set (old := Memtable.current (active (ly (eng σ))) key) in *.
  assert (antichain old) as Hanti by by apply current_antichain.
  assert (coherent (item :: old)) as Hcoh.
  { destruct Hbf as (_ & Hone). intros p q Hp Hq. apply Hone; [clear Hq; rename Hp into H1|clear Hp; rename Hq into H1];
      (apply elem_of_cons in H1 as [->|H1]; [right; cbn; set_solver|left; exists key; unfold mem_items; set_solver]). }
  split_and!.
  - intros k Hk. rewrite Hv, (engine_versions_visible σ g) by done. unfold visible. rewrite Hm. by rewrite decide_False.
  - intros v. rewrite Hv, (engine_versions_visible σ g) by done. unfold visible.
    rewrite Hm, decide_True by done. unfold mem_items. fold old. rewrite !fmap_app, <-!app_assoc.
    apply (canon_put _ _ (deref item)); [by apply (antichain_map deref clock_deref)|].
    rewrite (put_set_perm _ _ Hanti Hcoh). by rewrite <-(Resolve_map deref clock_deref).
  - intros c. rewrite Hv, (engine_versions_visible σ g) by done. rewrite <-Hss, covered_visible, Hss, covered_visible.
    rewrite Hm, decide_True by done. unfold mem_items. fold old. rewrite !covered_app, put_set_covered by done. tauto.
Qed.

Lemma accepts_batch e key item rec :
  engine_accepts e key item → Encode (put_entry key item) = Ok rec →
  batch_fine e [mkReq (put_entry key item) rec].
Proof.
  intros (He & Hp & Hlen & Hone & _) Henc. split.
  - constructor; [|constructor]. split; [|by left]. by split_and!; [| |apply Hlen].
  - eapply one_object_sub, Hone. intros p [?|Hp']; [by left|right]. by apply list_elem_of_singleton in Hp'.
Qed.

Lemma engine_puts io e key item :
  engine_ok e → engine_accepts e key item →
  match engine_Put io e key item with
  | (e', None) =>
      engine_ok e' ∧ (∀ k, k ≠ key → engine_versions e' k = engine_versions e k) ∧
      (∀ v, v ∈ engine_versions e' key → v ∈ engine_versions e key ∨ v = deref item) ∧
      (∀ c, covered c (engine_versions e' key) ↔ covered c (engine_versions e key) ∨ c ⊑c clock item)
  | (e', Some _) => engine_ok e' ∧ ∀ k, engine_versions e' k = engine_versions e k
  end.
Proof.
  intros Hok Hacc. unfold engine_Put, Engine.Put, write, prepare.
  destruct (haltErr e); [by split|]. destruct (Encode (put_entry key item)) as [rec|] eqn:Henc; [|by split].
  destruct (writesClosed e); [by split|]. pose proof (accepts_batch e key item rec Hacc Henc) as Hbf.
  destruct Hacc as (_ & _ & _ & _ & Hseq). destruct Hok as (σ & Hr & <-).
  destruct (commit _ _ _ _ _) as [[e' errs] fl] eqn:Hco. destruct (reachable_inv _ Hr) as [g Hg].
  destruct (write_step _ _ _ _ _ _ _ _ _ _ Hr Hg Hbf Hseq Hco) as [Hok' _].
  destruct (commit_one _ _ _ _ _ _ _ _ _ Hco) as (Hd & _ & [[[err ->] Hl]|[(l & cr & Hap) _]]).
  - cbn [head default fst]. split; [done|]. intros k. by apply engine_versions_layers.
  - assert (errs = [None]) as ->.
    { revert Hap. cbn [apply_loop req_entry put_entry Op Wal.Item Wal.Key]. change (OpPut =? OpRestore)%N with false.
      destruct (Memtable.Put _ _ _). by intros [= _ <- _]. }
    cbn [head default fst]. split; [done|]. by eapply (put_versions σ g).
Qed.

(** ** A restore *)

Lemma restorable_batch io e key items rec :
  engine_restorable io e key items → Encode (restore_entry key items) = Ok rec →
  batch_fine e [mkReq (restore_entry key items) rec].
Proof.
  intros (He & Hp & Hlen & Hone & _) Henc. split.
  - constructor; [|constructor]. split; [|by right]. by split_and!; [| |apply Hlen].
  - eapply one_object_sub, Hone. intros p [?|Hp']; [by left|right]. revert Hp'. cbn. by rewrite app_nil_r.
Qed.

Lemma restored_versions σ g io key items err l cr e' :
  inv σ g → engine_restorable io (eng σ) key items →
  apply_loop (io_alloc io) (d_sst (eng σ)) (ly (eng σ)) [mkReq (restore_entry key items) []] false = (l, [err], cr) →
  (∀ k, mem_items (ly e') k = Memtable.current (Replace (active (ly (eng σ))) key items) k ++
     from_option (λ f, Memtable.current f k) [] (flushing (ly (eng σ)))) →
  (∀ k, engine_versions e' k = visible (ly e') (held g (sstables (ly (eng σ)))) k) →
  (∀ k, k ≠ key → engine_versions e' k = engine_versions (eng σ) k) ∧
  (err = None → engine_versions e' key = (deref <$> items)).
Proof.
  intros Hg (_ & (its & Eits & Hanti & _) & _ & Hone & Hlow & _) Hap Hm Hv. injection Eits as <-.
  pose proof (mi_ok _ (inv_mem _ _ Hg)) as Hl. split.
  { intros k Hk. rewrite Hv, (engine_versions_visible σ g) by done. unfold visible. by rewrite Hm, Replace_current_ne. }
  intros ->. revert Hap. cbn [apply_loop req_entry]. change (Op (restore_entry key items) =? OpRestore)%N with true.
  cbv iota. cbn [Wal.Key restore_entry Items].
  pose proof (held_holds (d_sst (eng σ)) g _ (λ s, inv_tables_ok σ g s Hg)) as Hh'.
  assert (coherent (items ++ from_option (λ f, Memtable.current f key) [] (flushing (ly (eng σ))))) as Hcoh.
  { intros p q Hp Hq. apply Hone; [clear Hq; rename Hp into H1|clear Hp; rename Hq into H1];
      (apply elem_of_app in H1 as [H1|H1]; [by right|left; exists key; unfold mem_items; set_solver]). }
  pose proof (replaceAndVerify_spec (io_alloc io) _ _ _ key items Hl Hh' Hanti Hlow Hcoh) as Hs.
  destruct (replaceAndVerify _ _ _ _ _) as [l' err]. destruct Hs as (-> & _ & _ & Hread). intros [= _ -> _].
  specialize (Hread eq_refl). set (l' := mkLayers _ _ _) in *.
  assert (layers_ok l') as Hl' by (split; [apply Replace_ok; [apply Hl|done]|apply Hl]).
  destruct (mergeLayers_spec (io_alloc io) (d_sst (eng σ)) key l' _ Hl' Hh') as (vis & found & E & Hd & _).
  rewrite Hv. unfold visible in *. rewrite Hm, Replace_current. rewrite Hread in E. injection E as <- _. rewrite Hd.
  unfold mem_items. cbn [l' active flushing]. by rewrite Replace_current.
Qed.

Lemma engine_restores io e key items :
  engine_ok e → engine_restorable io e key items →
  match engine_Restore io e key items with
  | (e', None) => engine_ok e' ∧ (∀ k, k ≠ key → engine_versions e' k = engine_versions e k) ∧
                  engine_versions e' key = (deref <$> items)
  | (e', Some _) => engine_ok e' ∧ ∀ k, k ≠ key → engine_versions e' k = engine_versions e k
  end.
Proof.
  intros Hok Hres. unfold engine_Restore, Engine.Restore, write, prepare.
  destruct (haltErr e); [by split|]. destruct (Encode _) as [rec|] eqn:Henc; [|by split].
  destruct (writesClosed e); [by split|]. pose proof (restorable_batch io e key items rec Hres Henc) as Hbf.
  assert (WalLog.seq (wal e) + 3 < two64)%N as Hseq by apply Hres. destruct Hok as (σ & Hr & <-).
  destruct (commit _ _ _ _ _) as [[e' errs] fl] eqn:Hco. destruct (reachable_inv _ Hr) as [g Hg].
  destruct (write_step _ _ _ _ _ _ _ _ _ _ Hr Hg Hbf Hseq Hco) as [Hok' Hv].
  destruct (commit_one _ _ _ _ _ _ _ _ _ Hco) as (Hd & Hss & [[[err ->] Hl]|[(l & cr & Hap) Hm]]).
  - cbn [head default fst]. split; [done|]. intros k _. by apply engine_versions_layers.
  - assert (∃ err, errs = [err]) as [err ->].
    { revert Hap. cbn [apply_loop req_entry]. change (Op (restore_entry key items) =? OpRestore)%N with true. cbv iota.
      destruct (replaceAndVerify _ _ _ _ _). intros [= _ <- _]. by eexists. }
    destruct (restored_versions σ g io key items err l cr e' Hg Hres Hap Hm (Hv Hd Hss)) as [H1 H2].
    cbn [head default fst]. destruct err; [by split|]. split_and!; [done|done|by apply H2].
Qed.

Lemma engine_antichain e key : engine_ok e → antichain (engine_versions e key).
Proof.
  intros (σ & [g Hg]%reachable_inv & <-). rewrite (engine_versions_visible σ g) by done. apply canon_is_antichain.
Qed.

(** ** The keys *)

Lemma add_keys (keys : list string) (seen : gset string) k :
  k ∈ fold_left (λ s k, {[k]} ∪ s) keys seen ↔ k ∈ seen ∨ k ∈ keys.
Proof. revert seen. induction keys as [|x keys IH]; intros seen; simpl; [|rewrite IH]; set_solver. Qed.

Lemma add_tables (tabs : list (SSTable B)) (seen : gset string) k :
  k ∈ fold_left (λ s sst, fold_left (λ s k, {[k]} ∪ s) (Sstable.Keys sst) s) tabs seen ↔
    k ∈ seen ∨ ∃ s, s ∈ tabs ∧ k ∈ Sstable.Keys s.
Proof.
  revert seen. induction tabs as [|s tabs IH]; intros seen; cbn [fold_left].
  - split; [by left|]. intros [?|(s & Hs & _)]; [done|]. by apply not_elem_of_nil in Hs.
  - rewrite IH, add_keys. split; [|intros [?|(s' & [->|?]%elem_of_cons & ?)]; eauto].
    intros [[?|?]|(s' & ? & ?)]; [by left|right; exists s; set_solver|right; exists s'; set_solver].
Qed.

Lemma mem_keys (m : MemTable T) k : mt_ok m → k ∈ Memtable.Keys m ↔ Memtable.current m k ≠ [].
Proof.
  intros Hm. rewrite Keys_elem by done. rewrite current_contents. destruct (contents m !! k) as [l|] eqn:E; simpl.
  - split; [|by eexists]. intros _. by apply (mt_sets _ Hm k).
  - split; [by intros [? ?]|done].
Qed.

Lemma canon_nil {A} `{Clocked A} (l : list A) : canon l = [] ↔ l = [].
Proof.
  split; [|by intros ->]. destruct l as [|x l]; [done|]. intros E.
  assert (covered (clock x) (canon (x :: l))) as Hc by (apply covered_canon, covered_elem; set_solver).
  rewrite E in Hc. by apply covered_nil in Hc.
Qed.

Lemma versions_nonempty k (es : list (string * DataItem)) : versions k es ≠ [] ↔ k ∈ es.*1.
Proof.
  unfold versions. split.
  - destruct (bfilter _ es) as [|p l] eqn:E; [done|]. intros _.
    assert (p ∈ bfilter (λ p, bool_decide (p.1 = k)) es) as Hp by (rewrite E; set_solver).
    apply elem_of_bfilter in Hp as [<-%bool_decide_eq_true Hp]. by apply list_elem_of_fmap_2.
  - intros (p & -> & Hp)%list_elem_of_fmap E.
    assert (p ∈ bfilter (λ q, bool_decide (q.1 = p.1)) es) as Hb
      by (apply elem_of_bfilter; split; [by apply bool_decide_eq_true|done]).
    apply (list_elem_of_fmap_2 snd) in Hb. rewrite E in Hb. by apply not_elem_of_nil in Hb.
Qed.

Lemma engine_lists e :
  engine_ok e → NoDup (Engine.Keys e) ∧ ∀ k, k ∈ Engine.Keys e ↔ engine_versions e k ≠ [].
Proof.
  intros (σ & [g Hg]%reachable_inv & <-). unfold Engine.Keys. split.
  { rewrite sort_strings_perm. apply NoDup_elements. }
  intros k. rewrite sort_strings_elem, elem_of_elements, add_tables, (engine_versions_visible σ g) by done.
  destruct (mi_ok _ (inv_mem _ _ Hg)) as [Ha Hf]. unfold visible. rewrite canon_nil.
  assert ((∃ s, s ∈ sstables (ly (eng σ)) ∧ k ∈ Sstable.Keys s) ↔
    concat (versions k <$> held g (sstables (ly (eng σ)))) ≠ []) as ->.
  { unfold held. rewrite <-list_fmap_compose.
    assert (∀ s, s ∈ sstables (ly (eng σ)) → k ∈ Sstable.Keys s ↔ versions k (pub g (ID s)) ≠ []) as Hk.
    { intros s Hs. rewrite versions_nonempty. eapply Keys_spec. by apply (inv_tables_ok σ g s Hg). }
    induction (sstables (ly (eng σ))) as [|s tabs IH]; [set_solver|]. rewrite fmap_cons. cbn [concat compose].
    assert ((∃ s', s' ∈ s :: tabs ∧ k ∈ Sstable.Keys s') ↔
      versions k (pub g (ID s)) ≠ [] ∨ concat (compose (versions k) (λ s, pub g (ID s)) <$> tabs) ≠ []) as ->.
    { rewrite <-(Hk s), <-IH by set_solver. set_solver. }
    destruct (versions k (pub g (ID s))); simpl; [tauto|]. split; [done|by left]. }
  unfold mem_items. rewrite fmap_app. destruct (flushing (ly (eng σ))) as [f|]; cbn [from_option] in *;
    rewrite !add_keys, !mem_keys by done.
  - destruct (Memtable.current (active (ly (eng σ))) k), (Memtable.current f k); set_solver.
  - destruct (Memtable.current (active (ly (eng σ))) k); set_solver.
Qed.

#[export] Program Instance engine_persister_spec : PersisterSpec (StorageEngine T B) put_io Engine.error := {
  p_ok := engine_ok;
  p_accepts := engine_accepts;
  p_restorable := engine_restorable;
  p_versions := engine_versions
}.
Next Obligation. intros e k. apply engine_antichain. Qed.
Next Obligation.
  intros e a k Hok. cbn. destruct (engine_answers e k Hok a) as (items & found & -> & Hd & Hf). by split.
Qed.
Next Obligation. intros io e k item. apply engine_puts. Qed.
Next Obligation. intros io e k items. apply engine_restores. Qed.
Next Obligation. intros e. apply engine_lists. Qed.

(** ** The data store on the engine *)

Lemma engine_put_step io σ key item e' :
  reachable σ → engine_accepts (eng σ) key item → engine_Put io (eng σ) key item = (e', None) →
  ∃ σ1 g1, eng σ1 = e' ∧ step σ σ1 ∧ inv σ1 g1 ∧ must g1 key (clock item).
Proof.
  intros Hr Hacc. unfold engine_Put, Engine.Put, write, prepare.
  destruct (haltErr (eng σ)); [done|]. destruct (Encode (put_entry key item)) as [rec|] eqn:Henc; [|done].
  destruct (writesClosed (eng σ)); [done|]. pose proof (accepts_batch _ key item rec Hacc Henc) as Hbf.
  destruct Hacc as (_ & _ & _ & _ & Hseq). destruct (commit _ _ _ _ _) as [[e1 errs] fl] eqn:Hco.
  destruct (reachable_inv _ Hr) as [g Hg]. intros [= <- Herr].
  assert (errs !! 0 = Some None) as Herr'.
  { destruct (commit_one _ _ _ _ _ _ _ _ _ Hco) as (_ & _ & [[[err ->] _]|[(l & cr & Hap) _]]); [done|].
    revert Hap. cbn [apply_loop req_entry put_entry Op Wal.Item Wal.Key]. change (OpPut =? OpRestore)%N with false.
    destruct (Memtable.Put _ _ _). by intros [= _ <- _]. }
  destruct (commit_must _ _ _ _ _ _ _ _ _ 0 (mkReq (put_entry key item) rec) key item Hg Hbf Hseq Hco eq_refl Herr' eq_refl)
    as (g1 & Hg1 & Hm1); [constructor|].
  exists (committed σ [mkReq (put_entry key item) rec] e1 fl), g1. split_and!; [done|by eapply step_commit|done|done].
Qed.

(** C11: the engine implements the interface the data store and the hint
    store are written against.  In every state a run of it can reach, restores
    included, a read succeeds and returns pairwise concurrent versions; [Keys]
    lists once each key that has any; a put that returns no error merges its
    item into the key's versions with the rules of [Resolve] (what they cover,
    and nothing new but the item) and leaves every other key's as they were; a
    put that returns an error changes no read at all; a restore that returns no
    error makes the given versions the key's own, and no restore, refused,
    failed or incomplete, changes what another key's reads return.  All of them
    leave the engine in such a state. *)
Theorem engine_implements_persister (io : put_io) σ (key : string) (item : itemptr) (items : list itemptr) :
  reachable σ → engine_accepts (eng σ) key item → engine_restorable io (eng σ) key items →
  (∀ a, ∃ got found, Engine.GetAll a (eng σ) key = Ok (got, found) ∧
     deref <$> got = engine_versions (eng σ) key ∧ antichain (deref <$> got)) ∧
  (NoDup (Engine.Keys (eng σ)) ∧ ∀ k, k ∈ Engine.Keys (eng σ) ↔ engine_versions (eng σ) k ≠ []) ∧
  match engine_Put io (eng σ) key item with
  | (e', None) =>
      engine_ok e' ∧ (∀ k, k ≠ key → engine_versions e' k = engine_versions (eng σ) k) ∧
      (∀ v, v ∈ engine_versions e' key → v ∈ engine_versions (eng σ) key ∨ v = deref item) ∧
      (∀ c, covered c (engine_versions e' key) ↔ covered c (engine_versions (eng σ) key) ∨ c ⊑c clock item)
  | (e', Some _) => engine_ok e' ∧ ∀ k, engine_versions e' k = engine_versions (eng σ) k
  end ∧
  match engine_Restore io (eng σ) key items with
  | (e', None) => engine_ok e' ∧ (∀ k, k ≠ key → engine_versions e' k = engine_versions (eng σ) k) ∧
                  engine_versions e' key = (deref <$> items)
  | (e', Some _) => engine_ok e' ∧ ∀ k, k ≠ key → engine_versions e' k = engine_versions (eng σ) k
  end.
Proof.
  intros Hr Hacc Hres. assert (engine_ok (eng σ)) as Hok by by exists σ.
  split_and!; [|by apply engine_lists..|by apply engine_puts|by apply engine_restores].
  intros a. destruct (engine_answers (eng σ) key Hok a) as (got & found & E & Hd & _).
  exists got, found. split_and!; [done|done|]. rewrite Hd. by apply engine_antichain.
Qed.

(** C3: a write the data store acknowledged is durable.  Let [DataStore.Put]
    on an engine return an item.  In every later state of that engine in which
    no restore of the key has been requested since ([RestoreVersions], the
    coordinator's rollback, takes versions back on purpose), the store's [Get]
    finds the key and returns a version that covers the item's clock: whatever
    else is written or restored, whatever flushes and compactions do with any
    outcome of their file operations, and through any crashes with an intact
    manifest (none of its writes since the last [Open] torn or not synced) and
    the recoveries after them. *)
Theorem datastore_write_durable (io : put_io) (a new : N) (i c : string) σ (key : string) (value : value)
    (context : option (gmap string N)) (ds' : DataStore (StorageEngine T B)) (item : itemptr) :
  reachable σ → Put io a new (mkStore i c (eng σ)) key value context = (ds', Some item) →
  engine_accepts (eng σ) key item →
  ∃ σ1, step σ σ1 ∧ eng σ1 = persister ds' ∧
    ∀ σ2 a2, steps σ1 σ2 → rolls σ2 key = rolls σ1 key →
      ∃ items, Get a2 (mkStore i c (eng σ2)) key = Ok (items, true) ∧ covered (clock item) items.
Proof.
  intros Hr Hput Hacc. unfold Put in Hput. destruct (match context with Some ctx => _ | None => _ end) as [base|]; [|done].
  cbn [p_Put engine_persister persister set_persister Datastore.id clockID] in Hput. set (incoming := mkPtr new _) in *.
  destruct (engine_Put io (eng σ) key incoming) as [e' [err|]] eqn:He; [done|]. injection Hput as <- <-.
  destruct (engine_put_step _ _ _ _ _ Hr Hacc He) as (σ1 & g1 & <- & Hs & Hg1 & Hm1). exists σ1. split_and!; [done|done|].
  intros σ2 a2 Hss Hro. destruct (steps_must _ _ _ _ _ Hss Hg1 Hm1 Hro) as (g2 & Hg2 & Hm2).
  destruct (must_shown _ _ _ _ Hg2 Hm2) as (vs & Ha & Hc). destruct (Ha a2) as (items & found & E & <- & Hf).
  exists (reversed items). unfold Get, load. cbn [p_GetAll engine_persister persister]. rewrite E. split.
  - destruct found; [done|]. destruct items as [|x l]; [by apply covered_nil in Hc|]. discriminate (proj2 Hf ltac:(done)).
  - unfold reversed. by rewrite covered_rev, <-covered_deref.
Qed.
End engine_persister.

(** ** Witnesses *)

Definition w_item : itemptr := mkPtr 1 (ex_item "a" {["n1" := 1%N]}).
Definition w_io : put_io := mkPutIO lio_fine lio_fine 10.

Section witnesses.
#[local] Existing Instance gmap_btree.
#[local] Existing Instance gmap_btree_spec.
#[local] Existing Instance set_bloom.
#[local] Existing Instance set_bloom_spec.
#[local] Existing Instance toy_value_json.
#[local] Existing Instance toy_record_json.
#[local] Existing Instance toy_record_roundtrip.
#[local] Existing Instance toy_sst_json.
#[local] Existing Instance toy_index_json.
#[local] Existing Instance toy_value_rt'.
#[local] Existing Instance toy_sst_rt'.
#[local] Existing Instance toy_index_rt'.
#[local] Arguments wal_bytes : simpl never.

Lemma w_accepts : engine_accepts (eng w_sys) "k" w_item.
Proof.
  pose proof wal_e1_encodes as (Hok & He & Hlen). pose proof w_batch_fine as (Hb & Hone).
  apply Forall_inv in Hb as [_ Hb]. destruct Hb as [Hb|(its & E & _)]; [|discriminate E].
  split_and!; [exact Hok|exact Hb| | |reflexivity].
  - intros b Hb'. assert (Ok (wal_bytes wal_e1) = Ok b) as Eb by (rewrite <-He; exact Hb'). injection Eb as <-. exact Hlen.
  - eapply one_object_sub, Hone. intros p [Hp| ->]; [by left|right]. by apply list_elem_of_singleton.
Qed.

(** No versions at all: the key as it was before its first write. *)
Lemma w_restorable : engine_restorable w_io (eng w_sys) "k" [].
Proof.
  split_and!; [| | | | |reflexivity].
  - split; [done|]. right. split; [done|constructor].
  - exists []. split_and!; [reflexivity|constructor|constructor].
  - intros b Hb. assert (bool_decide (N.of_nat (length (match Encode (restore_entry "k" []) with Ok b => b | Err _ => [] end)) <
      two32)%N = true) as Hl by (vm_cast_no_check (eq_refl true)). rewrite Hb in Hl. by apply bool_decide_eq_true in Hl.
  - intros p q [[k Hp]|Hp]; [|by apply not_elem_of_nil in Hp]. unfold w_sys, w_engine in Hp. cbn [eng ly] in Hp.
    rewrite mem_items_New in Hp. by apply not_elem_of_nil in Hp.
  - by intros p ?%not_elem_of_nil.
Qed.

Lemma engine_implements_persister_witness :
  ∃ items found, Engine.GetAll 20 (eng w_sys) "k" = Ok (items, found) ∧
    deref <$> items = engine_versions (eng w_sys) "k" ∧ antichain (deref <$> items).
Proof. exact (proj1 (engine_implements_persister w_io w_sys "k" w_item [] w_reachable w_accepts w_restorable) 20%N). Defined.

Abbreviation mt' := (gmap string (list itemptr)).
Abbreviation bl' := (gset string).
#[local] Instance w_persister : Persister (StorageEngine mt' bl') put_io Engine.error := engine_persister (λ _, EmptyString).

Definition w_ds : DataStore (StorageEngine mt' bl') := mkStore "n1" "n1" (eng w_sys).

Lemma w_store_put : (Put w_io 0 1 w_ds "k" (VString "a") None).2 = Some w_item.
Proof. vm_cast_no_check (eq_refl (Some w_item)). Qed.

Lemma datastore_write_durable_witness :
  ∃ σ1, step w_sys σ1 ∧ eng σ1 = persister (Put w_io 0 1 w_ds "k" (VString "a") None).1 ∧
    ∃ items, Get 20 (mkStore "n1" "n1" (eng σ1)) "k" = Ok (items, true) ∧ covered (clock w_item) items.
Proof.
  destruct (datastore_write_durable (λ _, EmptyString) w_io 0 1 "n1" "n1" w_sys "k" (VString "a") None
    (Put w_io 0 1 w_ds "k" (VString "a") None).1 w_item w_reachable) as (σ1 & Hs & He & Hlater).
  - rewrite <-w_store_put. apply surjective_pairing.
  - apply w_accepts.
  - exists σ1. split; [exact Hs|split; [exact He|]]. apply Hlater; [apply steps_refl|reflexivity].
Defined.
End witnesses.
