(* ===== verification/Hints.v ===== *)
(** * Hinted handoff (internal/hints/hints.go, internal/node/hintdelivery.go)

    The store of writes that could not reach a replica: hints live in a
    persister of their own under target and key, a marker version retires the
    delivered ones, and the delivery round sends what is pending, while writes
    go on adding hints.  Proved against the [Persister] interface. *)

From stdpp Require Import gmap strings list sorting.
From Stdlib Require Import ZArith Lia Ascii.
From S2P Require Import Prelude GoLib VectorClock Versioning Datastore.

(** ** Keys *)

Definition sep_byte : ascii := "000"%char.
Definition sep : string := String sep_byte EmptyString.
Definition deliveredEntry : string := sep +:+ "delivered".

Definition storageKey (target key : string) : string := target +:+ sep +:+ key.

(** [strings.Cut] at [sep]. *)
Fixpoint splitKey (stored : string) : option (string * string) :=
  match stored with
  | EmptyString => None
  | String c rest =>
      if Ascii.eqb c sep_byte then Some (EmptyString, rest)
      else match splitKey rest with Some (t, k) => Some (String c t, k) | None => None end
  end.

(** [strings.Contains(target, sep)] *)
Fixpoint contains_sep (s : string) : bool :=
  match s with EmptyString => false | String c rest => Ascii.eqb c sep_byte || contains_sep rest end.

Lemma splitKey_spec stored t k : splitKey stored = Some (t, k) ↔ stored = storageKey t k ∧ contains_sep t = false.
Proof.
  revert t. induction stored as [|c rest IH]; intros t; simpl.
  { split; [done|]. by intros [E _]; destruct t. }
  destruct (Ascii.eqb_spec c sep_byte) as [->|Hne].
  - split; [by intros [= <- <-]|]. intros [E Hc]. destruct t as [|c' t]; [by injection E as ->|].
    by injection E as <- _.
  - split.
    + destruct (splitKey rest) as [[t' k']|]; [|done]. intros [= <- <-]. destruct (proj1 (IH t') eq_refl) as [-> Hc].
      split; [done|]. simpl. by rewrite (proj2 (Ascii.eqb_neq _ _) Hne), Hc.
    + intros [E Hc]. destruct t as [|c' t]; injection E as -> ->; [done|]. simpl in Hc.
      apply orb_false_iff in Hc as [_ Hc]. by rewrite (proj2 (IH t) (conj eq_refl Hc)).
Qed.

Lemma storageKey_inj t k t' k' :
  contains_sep t = false → contains_sep t' = false → storageKey t k = storageKey t' k' → t = t' ∧ k = k'.
Proof.
  intros Ht Ht' E. pose proof (proj2 (splitKey_spec _ t k) (conj eq_refl Ht)) as H1.
  rewrite E, (proj2 (splitKey_spec _ t' k') (conj eq_refl Ht')) in H1. by injection H1 as <- <-.
Qed.

(** ** Markers *)

Definition isMarker (item : itemptr) : bool :=
  match Snapshot (Clock (deref item)) !! deliveredEntry with Some _ => true | None => false end.

Record Hint := mkHint { h_Key : string; h_Items : list itemptr }.

Inductive hint_error (E : Type) :=
  | InvalidTarget (target : string)
  | ReservedEntry (target key : string)
  | AddFailed (target key : string) (e : E)
  | ListFailed (e : E)
  | ReadFailed (stored : string) (e : E)
  | MarkFailed (target key : string) (e : E).
Arguments InvalidTarget {E} target.
Arguments ReservedEntry {E} target key.
Arguments AddFailed {E} target key e.
Arguments ListFailed {E} e.
Arguments ReadFailed {E} stored e.
Arguments MarkFailed {E} target key e.

Section hints.
Context {P IO E : Type} `{!Persister P IO E}.

(** ** Operations *)

Record Store := mkHints { engine : P; created : N; delivered : N }.

Definition Add (io : IO) (s : Store) (target key : string) (item : itemptr) : Store * option (hint_error E) :=
  if match target with EmptyString => true | _ => contains_sep target end then (s, Some (InvalidTarget target))
  else if isMarker item then (s, Some (ReservedEntry target key))
  else
    match p_Put io (engine s) (storageKey target key) item with
    | (p, Some err) => (mkHints p (created s) (delivered s), Some (AddFailed target key err))
    | (p, None) => (mkHints p (u64 (created s + 1)) (delivered s), None)
    end.

(** The loop of [Targets]: [targets] in the order of their first key. *)
Fixpoint targets_loop (keys : list string) (seen : gset string) : list string :=
  match keys with
  | [] => []
  | k :: rest =>
      match splitKey k with
      | Some (target, _) =>
          if decide (target ∈ seen) then targets_loop rest seen
          else target :: targets_loop rest ({[target]} ∪ seen)
      | None => targets_loop rest seen
      end
  end.

Definition Targets (s : Store) : res (hint_error E) (list string) :=
  match p_Keys (engine s) with
  | Err err => Err (ListFailed err)
  | Ok keys => Ok (sort_strings (targets_loop keys ∅))
  end.

Definition live (items : list itemptr) : list itemptr := bfilter (λ i, negb (isMarker i)) items.

(** The loop of [Pending]. *)
Fixpoint pending_loop (a : N) (p : P) (target : string) (keys : list string) : res (hint_error E) (list Hint) :=
  match keys with
  | [] => Ok []
  | k :: rest =>
      match splitKey k with
      | Some (t, key) =>
          if bool_decide (t = target) then
            match p_GetAll a p k with
            | Err err => Err (ReadFailed k err)
            | Ok (items, _) =>
                pending ←? pending_loop (a + N.of_nat (length items)) p target rest;
                Ok (match live items with [] => pending | its => mkHint key its :: pending end)
            end
          else pending_loop a p target rest
      | None => pending_loop a p target rest
      end
  end.

Definition Pending (a : N) (s : Store) (target : string) : res (hint_error E) (list Hint) :=
  match p_Keys (engine s) with
  | Err err => Err (ListFailed err)
  | Ok keys => pending_loop a (engine s) target keys
  end.

(** The loop of [PendingItems]. *)
Fixpoint count_loop (a : N) (p : P) (keys : list string) (n : nat) : res (hint_error E) nat :=
  match keys with
  | [] => Ok n
  | k :: rest =>
      match splitKey k with
      | None => count_loop a p rest n
      | Some _ =>
          match p_GetAll a p k with
          | Err err => Err (ReadFailed k err)
          | Ok (items, _) => count_loop (a + N.of_nat (length items)) p rest (n + length (live items))
          end
      end
  end.

Definition PendingItems (a : N) (s : Store) : res (hint_error E) nat :=
  match p_Keys (engine s) with
  | Err err => Err (ListFailed err)
  | Ok keys => count_loop a (engine s) keys 0
  end.

(** The marker of a delivery, at the address [new]. *)
Definition marker (new : N) (items : list itemptr) : itemptr :=
  mkPtr new (mkItem VNil (FromSnapshot (<[deliveredEntry := 1%N]> (UnionVectorClock items))) deliveredEntry true).

Definition MarkDelivered (io : IO) (new : N) (s : Store) (target key : string) (items : list itemptr)
    : Store * option (hint_error E) :=
  match items with
  | [] => (s, None)
  | _ =>
      match p_Put io (engine s) (storageKey target key) (marker new items) with
      | (p, Some err) => (mkHints p (created s) (delivered s), Some (MarkFailed target key err))
      | (p, None) => (mkHints p (created s) (u64 (delivered s + N.of_nat (length items))), None)
      end
  end.
End hints.

Arguments Store P : clear implicits.

(** ** What is pending *)

Section spec.
Context {P IO E : Type} `{!Persister P IO E} `{!PersisterSpec P IO E}.
Implicit Types (s : Store P) (t target k key : string).

Definition is_mark (v : DataItem) : bool :=
  match state (Clock v) !! deliveredEntry with Some _ => true | None => false end.

Lemma isMarker_deref i : isMarker i = is_mark (deref i).
Proof. unfold isMarker, is_mark. by rewrite Snapshot_state. Qed.

(** The versions that the store holds for a target and key, and those of them
    that are hints. *)
Definition held_for s target key : list DataItem := p_versions (engine s) (storageKey target key).
Definition unmarked (vs : list DataItem) : list DataItem := bfilter (λ v, negb (is_mark v)) vs.
Definition awaiting s target key : list DataItem := unmarked (held_for s target key).

Lemma live_unmarked (items : list itemptr) : deref <$> live items = unmarked (deref <$> items).
Proof.
  unfold live, unmarked. induction items as [|i items IH]; [done|]. rewrite fmap_cons. cbn [bfilter].
  rewrite isMarker_deref. destruct (is_mark (deref i)); cbn [negb]; rewrite ?fmap_cons; by f_equal.
Qed.

Lemma elem_unmarked vs v : v ∈ unmarked vs ↔ is_mark v = false ∧ v ∈ vs.
Proof. unfold unmarked. by rewrite elem_of_bfilter, negb_true_iff. Qed.

(** A hint is covered by a marker's clock exactly if it is by the union. *)
Lemma hint_below_marker v (u : gmap string N) :
  is_mark v = false → clock v ⊑c <[deliveredEntry := 1%N]> u ↔ clock v ⊑c u.
Proof.
  unfold is_mark. intros Hm. assert (mget (clock v) deliveredEntry = 0%N) as H0.
  { unfold mget, clock, DataItem_clocked. by destruct (state (Clock v) !! deliveredEntry). }
  split; intros Hle n; specialize (Hle n); rewrite mget_insert in *; case_decide as Hd; subst; lia.
Qed.

Lemma marker_clock new (items : list itemptr) :
  clock (marker new items) = <[deliveredEntry := 1%N]> (UnionVectorClock items).
Proof. unfold clock, itemptr_clocked, clock, DataItem_clocked. simpl. apply FromSnapshot_state. Qed.

Lemma marker_is_mark new (items : list itemptr) : is_mark (deref (marker new items)) = true.
Proof. unfold is_mark, marker. cbn [deref Clock]. by rewrite FromSnapshot_state, lookup_insert_eq. Qed.

(** A put leaves the hints of the other targets and keys alone. *)
Lemma awaiting_other p' s n m t key :
  contains_sep t = false → (∀ k', k' ≠ storageKey t key → p_versions p' k' = p_versions (engine s) k') →
  ∀ t' k', contains_sep t' = false → (t', k') ≠ (t, key) → awaiting (mkHints p' n m) t' k' = awaiting s t' k'.
Proof.
  intros Ht Hv t' k' Ht' Hne. unfold awaiting, held_for. cbn [engine]. rewrite Hv; [done|].
  intros Heq. apply Hne. destruct (storageKey_inj _ _ _ _ Ht' Ht Heq) as [-> ->]. done.
Qed.

Lemma mark_retires (old new : list DataItem) (m : itemptr) (u : gmap string N) :
  antichain old → antichain new → clock m = <[deliveredEntry := 1%N]> u → is_mark (deref m) = true →
  (∀ v, v ∈ new → v ∈ old ∨ v = deref m) → (∀ c, covered c new ↔ covered c old ∨ c ⊑c clock m) →
  ∀ v, v ∈ unmarked new ↔ v ∈ unmarked old ∧ ¬ clock v ⊑c u.
Proof.
  intros Ho Hn Hc Hm Hel Hcov v. rewrite !elem_unmarked. split.
  - intros [Hv Hin]. destruct (Hel v Hin) as [Hold| ->]; [|congruence]. split; [done|].
    rewrite <-(hint_below_marker v u Hv), <-Hc. intros Hle.
    destruct (proj2 (Hcov (clock m))) as (w & Hw & Hmw); [right; reflexivity|].
    assert (v = w) as <- by (eapply antichain_elem; [exact Hn|done|done|by etrans]).
    assert (clock v ⊏c clock m) as Hlt.
    { split; [done|]. intros Hge. specialize (Hge deliveredEntry). rewrite Hc, mget_insert, decide_True in Hge by done.
      unfold is_mark in Hv. unfold mget, clock, DataItem_clocked in Hge.
      destruct (state (Clock v) !! deliveredEntry); [done|]. simpl in Hge. lia. }
    apply (vlt_irrefl (clock v)). by eapply vlt_le_trans.
  - intros [[Hv Hold] Hnle]. split; [done|]. eapply (survivor old new (deref m)); [done..|].
    rewrite clock_deref, Hc. by rewrite hint_below_marker.
Qed.

Lemma MarkDelivered_spec (io : IO) (new : N) s target key (items : list itemptr) :
  p_ok (engine s) → contains_sep target = false → items ≠ [] →
  p_accepts (engine s) (storageKey target key) (marker new items) →
  match MarkDelivered io new s target key items with
  | (s', None) =>
      p_ok (engine s') ∧
      (∀ v, v ∈ awaiting s' target key ↔ v ∈ awaiting s target key ∧ ¬ clock v ⊑c UnionVectorClock items) ∧
      ∀ t k, contains_sep t = false → (t, k) ≠ (target, key) → awaiting s' t k = awaiting s t k
  | (s', Some err) => p_ok (engine s') ∧ ∀ t k, awaiting s' t k = awaiting s t k
  end.
Proof.
  intros Hok Ht Hne Hacc. unfold MarkDelivered. destruct items as [|i0 rest] eqn:Hi; [done|]. rewrite <-Hi in *. clear Hi Hne.
  pose proof (p_puts io (engine s) _ _ Hok Hacc) as Hp. destruct (p_Put _ _ _ _) as [p' [err|]].
  { destruct Hp as [Hok' Hsame]. split; [done|]. intros t k. unfold awaiting, held_for. cbn [engine]. by rewrite Hsame. }
  destruct Hp as (Hok' & Hother & Hel & Hcov). split_and!; [done| |by apply awaiting_other].
  apply (mark_retires _ _ (marker new items)); try done; [by apply p_antichain..|apply marker_clock|apply marker_is_mark].
Qed.

(** What marking as delivered retires.  After [MarkDelivered] of some
    hints for a target and key, that target and key still have pending exactly
    the hints whose clocks are not covered by the union of the delivered
    clocks: each delivered hint and everything older is gone, a hint with an
    event the delivered ones have not seen stays.  No other target or key
    loses or gains a hint; if the store reports an error, nothing changed. *)
Theorem mark_delivered_retires (io : IO) (new : N) s target key (items : list itemptr) :
  p_ok (engine s) → contains_sep target = false → items ≠ [] →
  p_accepts (engine s) (storageKey target key) (marker new items) →
  match MarkDelivered io new s target key items with
  | (s', None) =>
      p_ok (engine s') ∧
      (∀ v, v ∈ awaiting s' target key ↔ v ∈ awaiting s target key ∧ ¬ clock v ⊑c UnionVectorClock items) ∧
      (∀ i, i ∈ items → deref i ∉ awaiting s' target key) ∧
      ∀ t k, contains_sep t = false → (t, k) ≠ (target, key) → awaiting s' t k = awaiting s t k
  | (s', Some err) => p_ok (engine s') ∧ ∀ t k, awaiting s' t k = awaiting s t k
  end.
Proof.
  intros Hok Ht Hne Hacc. pose proof (MarkDelivered_spec io new s target key items Hok Ht Hne Hacc) as Hs.
  destruct (MarkDelivered _ _ _ _ _ _) as [s' [err|]]; [done|]. destruct Hs as (Hok' & Hex & Hother).
  split_and!; [done|done| |done]. intros i Hi [_ Hn]%Hex. apply Hn. rewrite clock_deref. by apply UnionVectorClock_above.
Qed.


(** What adding a hint does.  [Add] refuses an empty target ID, one with
    the separator, and an item that carries the marker's clock entry, and then
    changes nothing.  When it returns no error, the item is pending unless a
    version that the store holds for the target and key, marker or hint,
    already covers its clock; hints the item does not supersede stay; nothing
    else becomes pending, and no other target or key is touched. *)
Theorem hint_added (io : IO) s target key (item : itemptr) :
  p_ok (engine s) → p_accepts (engine s) (storageKey target key) item →
  match Add io s target key item with
  | (s', None) =>
      target ≠ EmptyString ∧ contains_sep target = false ∧ isMarker item = false ∧ p_ok (engine s') ∧
      (deref item ∈ awaiting s' target key ∨ covered (clock item) (held_for s target key)) ∧
      (∀ v, v ∈ awaiting s target key → ¬ clock v ⊑c clock item → v ∈ awaiting s' target key) ∧
      (∀ v, v ∈ awaiting s' target key → v ∈ awaiting s target key ∨ v = deref item) ∧
      ∀ t k, contains_sep t = false → (t, k) ≠ (target, key) → awaiting s' t k = awaiting s t k
  | (s', Some (InvalidTarget _)) => s' = s ∧ (target = EmptyString ∨ contains_sep target = true)
  | (s', Some (ReservedEntry _ _)) => s' = s ∧ isMarker item = true
  | (s', Some _) => p_ok (engine s') ∧ ∀ t k, awaiting s' t k = awaiting s t k
  end.
Proof.
  intros Hok Hacc. unfold Add. destruct (match target with EmptyString => true | _ => contains_sep target end) eqn:Et.
  { split; [done|]. destruct target; [by left|by right]. }
  assert (target ≠ EmptyString ∧ contains_sep target = false) as [Ht Hs] by (by destruct target).
  destruct (isMarker item) eqn:Hm; [done|]. pose proof (p_puts io (engine s) _ _ Hok Hacc) as Hp.
  destruct (p_Put _ _ _ _) as [p' [err|]].
  { destruct Hp as [Hok' Hsame]. split; [done|]. intros t k. unfold awaiting, held_for. cbn [engine]. by rewrite Hsame. }
  destruct Hp as (Hok' & Hother & Hel & Hcov). rewrite isMarker_deref in Hm.
  split_and!; [done|done|done|done| | | |by apply awaiting_other];
    unfold awaiting, held_for; cbn [engine].
  - destruct (proj2 (Hcov (clock item))) as (w & Hw & Hle); [right; reflexivity|].
    destruct (Hel w Hw) as [Hold| ->]; [right; by exists w|left; by apply elem_unmarked].
  - intros v [Hv Hin]%elem_unmarked Hn. apply elem_unmarked. split; [done|].
    exact (survivor _ _ (deref item) v (p_antichain _ _ Hok) Hel Hcov Hin Hn).
  - intros v [Hv Hin]%elem_unmarked. destruct (Hel v Hin) as [?| ->]; [left; by apply elem_unmarked|by right].
Qed.

(** ** Reading what is pending *)

Lemma awaiting_split s k target key :
  splitKey k = Some (target, key) → unmarked (p_versions (engine s) k) = awaiting s target key.
Proof. intros [-> _]%splitKey_spec. done. Qed.

Lemma pending_loop_spec a s target keys hs :
  p_ok (engine s) → NoDup keys → pending_loop a (engine s) target keys = Ok hs →
  NoDup (h_Key <$> hs) ∧
  (∀ h, h ∈ hs → h_Items h ≠ [] ∧ deref <$> h_Items h = awaiting s target (h_Key h) ∧
                 storageKey target (h_Key h) ∈ keys) ∧
  (∀ key, contains_sep target = false → storageKey target key ∈ keys → awaiting s target key ≠ [] →
     key ∈ h_Key <$> hs).
Proof.
  intros Hok Hnd. revert a hs. induction Hnd as [|k keys Hk Hnd IH]; intros a hs; cbn [pending_loop].
  { intros [= <-]. split_and!; [constructor|set_solver|set_solver]. }
  destruct (splitKey k) as [[t key0]|] eqn:Esp.
  2: { intros H. destruct (IH a hs H) as (H1 & H2 & H3). split_and!; [done|set_solver|].
       intros key Ht [Hkey|Hin]%elem_of_cons; [|by apply H3].
       rewrite <-Hkey in Esp. by rewrite (proj2 (splitKey_spec _ target key) (conj eq_refl Ht)) in Esp. }
  pose proof (proj1 (splitKey_spec _ _ _) Esp) as [Hkt Hsep]. case_bool_decide as Ht.
  2: { intros H. destruct (IH a hs H) as (H1 & H2 & H3). split_and!; [done|set_solver|].
       intros key Hs [Hkey|Hin]%elem_of_cons; [|by apply H3]. rewrite <-Hkey in Esp.
       rewrite (proj2 (splitKey_spec _ target key) (conj eq_refl Hs)) in Esp. by injection Esp as -> _. }
  subst t. pose proof (p_reads (engine s) a k Hok) as Hr. destruct (p_GetAll a (engine s) k) as [[items fd]|]; [|done].
  destruct Hr as [Hv _]. destruct (pending_loop _ _ _ keys) as [pend|] eqn:Ep; [|done]. cbn [res_bind].
  destruct (IH _ _ Ep) as (H1 & H2 & H3). intros [= <-].
  assert (deref <$> live items = awaiting s target key0) as Hl by (by rewrite live_unmarked, Hv, (awaiting_split s k target key0)).
  destruct (live items) as [|i its] eqn:El.
  - split_and!; [done|set_solver|]. intros key Hs [Hkey|Hin]%elem_of_cons; [|by apply H3].
    rewrite Hkt in Hkey. destruct (storageKey_inj _ _ _ _ Hs Hsep Hkey) as [_ ->]. by rewrite <-Hl.
  - split_and!.
    + rewrite fmap_cons. constructor; [|done]. intros (h & Hh1 & Hh2)%list_elem_of_fmap.
      destruct (H2 h Hh2) as (_ & _ & Hin). apply Hk. rewrite Hkt. cbn [h_Key] in Hh1. by rewrite Hh1.
    + intros h [->|Hh]%elem_of_cons; [|set_solver]. cbn [h_Items h_Key]. split_and!; [done|done|]. rewrite Hkt. set_solver.
    + intros key Hs [Hkey|Hin]%elem_of_cons Hne; rewrite fmap_cons; [|apply elem_of_cons; right; by apply H3].
      rewrite Hkt in Hkey. destruct (storageKey_inj _ _ _ _ Hs Hsep Hkey) as [_ ->]. set_solver.
Qed.

Lemma Pending_spec a s target hs :
  p_ok (engine s) → contains_sep target = false → Pending a s target = Ok hs →
  NoDup (h_Key <$> hs) ∧
  (∀ h, h ∈ hs → h_Items h ≠ [] ∧ deref <$> h_Items h = awaiting s target (h_Key h)) ∧
  (∀ key, awaiting s target key ≠ [] → key ∈ h_Key <$> hs).
Proof.
  intros Hok Ht. unfold Pending. pose proof (p_lists (engine s) Hok) as Hl. destruct (p_Keys (engine s)) as [keys|]; [|done].
  destruct Hl as [Hnd Hkeys]. intros Hp. destruct (pending_loop_spec _ _ _ _ _ Hok Hnd Hp) as (H1 & H2 & H3).
  split_and!; [done| |].
  - intros h Hh. by destruct (H2 h Hh) as (? & ? & _).
  - intros key Hne. apply H3; [done| |done]. apply Hkeys. intros Hv. apply Hne. unfold awaiting, held_for. by rewrite Hv.
Qed.

(** *** Counting *)

Definition sum_by {A} (f : A → nat) (l : list A) : nat := foldr (λ x n, f x + n) 0 l.

Lemma sum_by_ext {A} (f g : A → nat) l : (∀ x, x ∈ l → f x = g x) → sum_by f l = sum_by g l.
Proof.
  induction l as [|x l IH]; intros Hfg; [done|]. simpl. rewrite (Hfg x), IH; [done| |]; set_solver.
Qed.

Lemma sum_by_zero {A} (f : A → nat) l : (∀ x, x ∈ l → f x = 0) → sum_by f l = 0.
Proof. intros Hf. rewrite (sum_by_ext f (λ _, 0)) by done. clear. induction l; simpl in *; lia. Qed.

Lemma sum_by_add {A} (f g : A → nat) l : sum_by (λ x, f x + g x) l = sum_by f l + sum_by g l.
Proof. induction l as [|x l IH]; simpl; lia. Qed.

Lemma sum_by_single (ts : list string) (t : string) w :
  NoDup ts → t ∈ ts → sum_by (λ x, if bool_decide (t = x) then w else 0) ts = w.
Proof.
  induction 1 as [|x ts Hx Hnd IH]; [set_solver|]. simpl. intros [->|Hin]%elem_of_cons.
  - rewrite bool_decide_eq_true_2 by done. rewrite sum_by_zero; [lia|].
    intros y Hy. by rewrite bool_decide_eq_false_2 by set_solver.
  - rewrite bool_decide_eq_false_2 by set_solver. by rewrite IH.
Qed.

Definition hints_at s k : nat := length (unmarked (p_versions (engine s) k)).
Definition target_of k : option string := fst <$> splitKey k.

Lemma count_loop_sum a s keys n m :
  p_ok (engine s) → count_loop a (engine s) keys n = Ok m →
  m = n + sum_by (λ k, match target_of k with Some _ => hints_at s k | None => 0 end) keys.
Proof.
  intros Hok. revert a n. induction keys as [|k keys IH]; intros a n; cbn [count_loop sum_by foldr].
  { intros [= <-]. lia. }
  unfold target_of at 1. destruct (splitKey k) as [[t key]|]; cbn [fmap option_fmap option_map];
    [|intros H; by rewrite (IH _ _ H)].
  pose proof (p_reads (engine s) a k Hok) as Hr. destruct (p_GetAll _ _ _) as [[items fd]|]; [|done]. destruct Hr as [Hv _].
  intros H. rewrite (IH _ _ H). unfold hints_at at 2. rewrite <-Hv, <-live_unmarked, length_fmap.
  fold (sum_by (λ k, match target_of k with Some _ => hints_at s k | None => 0 end) keys). lia.
Qed.

Lemma pending_loop_sum a s target keys hs :
  p_ok (engine s) → pending_loop a (engine s) target keys = Ok hs →
  sum_by (λ h, length (h_Items h)) hs =
    sum_by (λ k, if bool_decide (target_of k = Some target) then hints_at s k else 0) keys.
Proof.
  intros Hok. revert a hs. induction keys as [|k keys IH]; intros a hs; cbn [pending_loop].
  { by intros [= <-]. }
  cbn [sum_by foldr]. fold (sum_by (λ k, if bool_decide (target_of k = Some target) then hints_at s k else 0) keys).
  assert (target_of k = fst <$> splitKey k) as -> by done.
  destruct (splitKey k) as [[t key]|] eqn:Esp; cbn [fmap option_fmap option_map fst].
  2: { rewrite bool_decide_eq_false_2 by done. intros H. by rewrite (IH _ _ H). }
  destruct (decide (t = target)) as [->|Hne].
  2: { rewrite !bool_decide_eq_false_2 by congruence. intros H. by rewrite (IH _ _ H). }
  rewrite !bool_decide_eq_true_2 by done. pose proof (p_reads (engine s) a k Hok) as Hr.
  destruct (p_GetAll _ _ _) as [[items fd]|]; [|done]. destruct Hr as [Hv _].
  destruct (pending_loop _ _ _ keys) as [pend|] eqn:Ep; [|done]. cbn [res_bind]. intros [= <-].
  rewrite <-(IH _ _ Ep). unfold hints_at. rewrite <-Hv, <-live_unmarked, length_fmap. by destruct (live items).
Qed.

Lemma targets_loop_spec keys seen :
  NoDup (targets_loop keys seen) ∧
  ∀ t, t ∈ targets_loop keys seen ↔ t ∉ seen ∧ ∃ k, k ∈ keys ∧ target_of k = Some t.
Proof.
  revert seen. induction keys as [|k keys IH]; intros seen; cbn [targets_loop].
  { split; [constructor|set_solver]. }
  unfold target_of. destruct (splitKey k) as [[t0 key]|] eqn:Esp.
  - case_decide as Hs.
    + destruct (IH seen) as [Hnd Hel]. split; [done|]. intros t. rewrite Hel. split; [set_solver|].
      intros [Hns (k' & [->|Hk]%elem_of_cons & Ht)]; [|set_solver]. rewrite Esp in Ht. by injection Ht as <-.
    + destruct (IH ({[t0]} ∪ seen)) as [Hnd Hel]. split.
      * constructor; [|done]. rewrite Hel. set_solver.
      * intros t. rewrite elem_of_cons, Hel. split.
        -- intros [->|[Hns (k' & Hk & Ht)]]; [split; [done|]; exists k; rewrite Esp; set_solver|set_solver].
        -- intros [Hns (k' & [->|Hk]%elem_of_cons & Ht)].
           ++ rewrite Esp in Ht. injection Ht as <-. by left.
           ++ destruct (decide (t = t0)) as [->|]; [by left|right]. set_solver.
  - destruct (IH seen) as [Hnd Hel]. split; [done|]. intros t. rewrite Hel. split; [set_solver|].
    intros [Hns (k' & [->|Hk]%elem_of_cons & Ht)]; [|set_solver]. by rewrite Esp in Ht.
Qed.

(** One pass counts what the targets' lists add up to.  When [Targets],
    [PendingItems] and [Pending] of every target succeed on a store, the count
    is the number of hinted items in all those lists, although neither uses
    the other, and [Targets] is sorted and names each target once. *)
Theorem pending_items_adds_up (a : N) s (ts : list string) (n : nat) (pending : string → list Hint) :
  p_ok (engine s) → Targets s = Ok ts → PendingItems a s = Ok n →
  (∀ t, t ∈ ts → ∃ a', Pending a' s t = Ok (pending t)) →
  n = sum_by (λ t, sum_by (λ h, length (h_Items h)) (pending t)) ts ∧ NoDup ts ∧ StronglySorted String.le ts.
Proof.
  intros Hok. unfold Targets, PendingItems, Pending. destruct (p_Keys (engine s)) as [keys|]; [|done].
  intros [= <-] Hn Hp. pose proof (targets_loop_spec keys ∅) as [Hnd Hel].
  rewrite (sum_by_ext _ (λ t, sum_by (λ k, if bool_decide (target_of k = Some t) then hints_at s k else 0) keys)).
  2: { intros t Ht. destruct (Hp t Ht) as [a' Ha]. by apply (pending_loop_sum a'). }
  split_and!; [|by rewrite sort_strings_perm|apply sort_strings_sorted].
  rewrite (count_loop_sum _ _ _ _ _ Hok Hn), Nat.add_0_l. set (ts := sort_strings _).
  assert (NoDup ts) as Hnd' by (unfold ts; by rewrite sort_strings_perm).
  assert (∀ k t, k ∈ keys → target_of k = Some t → t ∈ ts) as Hall.
  { intros k t Hk Ht. unfold ts. rewrite sort_strings_elem. apply Hel. split; [set_solver|]. by exists k. }
  clearbody ts. clear Hn Hp Hel Hnd. induction keys as [|k keys IH]; cbn [sum_by foldr].
  { by rewrite sum_by_zero. }
  fold (sum_by (λ k, match target_of k with Some _ => hints_at s k | None => 0 end) keys).
  rewrite (sum_by_add (λ t, if bool_decide (target_of k = Some t) then hints_at s k else 0)), IH by (intros; eapply Hall; set_solver).
  f_equal. destruct (target_of k) as [t|] eqn:Et.
  - etrans; [symmetry; apply (sum_by_single ts t (hints_at s k) Hnd'), (Hall k); [set_solver|done]|].
    apply sum_by_ext. intros x _.
    by repeat case_bool_decide; simplify_eq.
  - by rewrite sum_by_zero.
Qed.
End spec.

(** ** Delivery (internal/node/hintdelivery.go) *)

(** The gRPC status of a failed call. *)
Inductive code := Unavailable | DeadlineExceeded | FailedPrecondition | OtherCode (n : N).

Section delivery.
Context {P IO E : Type} `{!Persister P IO E}.

(** Writes add hints while a round runs: a call of [Add] by one of them. *)
Record add_call := mkAddCall { ad_io : IO; ad_target : string; ad_key : string; ad_item : itemptr }.

(** A call of [Replicate] and its answer; [None] is no error. *)
Record call := mkCall { c_target : string; c_key : string; c_items : list itemptr; c_answer : option code }.

(** A round under way: the store, the hints that were added meanwhile without
    an error, the calls made, and the puts on the persister. *)
Record run := mkHRun {
  r_store : Store P; r_added : list (string * string * itemptr); r_calls : list call; r_puts : list (P * string * itemptr)
}.
Definition set_store (w : run) (s : Store P) : run := mkHRun s (r_added w) (r_calls w) (r_puts w).
Definition log_put (w : run) (stored : string) (item : itemptr) : run :=
  mkHRun (r_store w) (r_added w) (r_calls w) (r_puts w ++ [(engine (r_store w), stored, item)]).
Definition log_call (w : run) (c : call) : run := mkHRun (r_store w) (r_added w) (r_calls w ++ [c]) (r_puts w).
Definition log_added (w : run) (t k : string) (item : itemptr) : run :=
  mkHRun (r_store w) (r_added w ++ [(t, k, item)]) (r_calls w) (r_puts w).

Definition run_add (w : run) (c : add_call) : run :=
  match Add (ad_io c) (r_store w) (ad_target c) (ad_key c) (ad_item c) with
  | (s, None) =>
      log_added (set_store (log_put w (storageKey (ad_target c) (ad_key c)) (ad_item c)) s) (ad_target c) (ad_key c) (ad_item c)
  | (s, Some (AddFailed _ _ _)) => set_store (log_put w (storageKey (ad_target c) (ad_key c)) (ad_item c)) s
  | (s, Some _) => set_store w s
  end.
Definition run_adds (cs : list add_call) (w : run) : run := fold_left run_add cs w.

(** What the environment decides about the hint of one target and key:
    whether the context is cancelled when its turn comes, the hints added until
    the call has returned, what [Replicate] answers, and the outcome of storing
    the marker. *)
Record attempt := mkAttempt {
  at_cancelled : bool; at_adds : list add_call; at_outcome : option code; at_io : IO; at_new : N
}.
(** And about the turn of one target: whether the context is cancelled before
    it, the hints added before its keys are listed and before each key is
    read. *)
Record turn := mkTurn {
  tn_stop : bool; tn_adds : list add_call; tn_reads : string → list add_call; tn_hints : string → attempt
}.

(** The loop of [Pending], with what is added between its reads. *)
Fixpoint read_loop (adds : string → list add_call) (a : N) (w : run) (target : string) (keys : list string)
    : run * res (hint_error E) (list Hint) :=
  match keys with
  | [] => (w, Ok [])
  | k :: rest =>
      match splitKey k with
      | Some (t, key) =>
          if bool_decide (t = target) then
            let w := run_adds (adds k) w in
            match p_GetAll a (engine (r_store w)) k with
            | Err err => (w, Err (ReadFailed k err))
            | Ok (items, _) =>
                let '(w, r) := read_loop adds (a + N.of_nat (length items)) w target rest in
                (w, pending ←? r; Ok (match live items with [] => pending | its => mkHint key its :: pending end))
            end
          else read_loop adds a w target rest
      | None => read_loop adds a w target rest
      end
  end.

(** The loop of [deliverHintsTo]. *)
Fixpoint deliver_loop (ev : string → attempt) (w : run) (target : string) (pending : list Hint)
    : run * option (hint_error E) :=
  match pending with
  | [] => (w, None)
  | h :: rest =>
      let at_h := ev (h_Key h) in
      if at_cancelled at_h then (w, None)
      else
        let w := log_call (run_adds (at_adds at_h) w) (mkCall target (h_Key h) (h_Items h) (at_outcome at_h)) in
        match at_outcome at_h with
        | Some Unavailable | Some DeadlineExceeded => (w, None)
        | Some _ => deliver_loop ev w target rest
        | None =>
            let w := match h_Items h with
                     | [] => w
                     | _ => log_put w (storageKey target (h_Key h)) (marker (at_new at_h) (h_Items h))
                     end in
            match MarkDelivered (at_io at_h) (at_new at_h) (r_store w) target (h_Key h) (h_Items h) with
            | (s', Some err) => (set_store w s', Some err)
            | (s', None) => deliver_loop ev (set_store w s') target rest
            end
        end
  end.

Definition deliverHintsTo (a : N) (tn : turn) (w : run) (target : string) : run * option (hint_error E) :=
  let w := run_adds (tn_adds tn) w in
  match p_Keys (engine (r_store w)) with
  | Err err => (w, Some (ListFailed err))
  | Ok keys =>
      match read_loop (tn_reads tn) a w target keys with
      | (w, Err err) => (w, Some err)
      | (w, Ok pending) => deliver_loop (tn_hints tn) w target pending
      end
  end.

(** The hints' share of a node's state: the store and the count of the last
    complete round. *)
Record HintState := mkHState { hints : Store P; hintsPending : N; hintsPendingKnown : bool }.

Definition set_hints (n : HintState) (s : Store P) : HintState := mkHState s (hintsPending n) (hintsPendingKnown n).

(** The pass that counts is one step here. *)
Definition recordPendingHints (a : N) (n : HintState) : HintState :=
  match PendingItems a (hints n) with
  | Err _ => n
  | Ok pending => mkHState (hints n) (u64 (N.of_nat pending)) true
  end.

(** The loop of [deliverHints]; [false] if the context was cancelled. *)
Fixpoint round_loop (a : N) (members : gset string) (isDead : string → bool) (ev : string → turn) (w : run)
    (targets : list string) : run * bool :=
  match targets with
  | [] => (w, true)
  | target :: rest =>
      if tn_stop (ev target) then (w, false)
      else if bool_decide (target ∉ members) || isDead target then round_loop a members isDead ev w rest
      else round_loop a members isDead ev (deliverHintsTo a (ev target) w target).1 rest
  end.

(** [deliverHints]: the state after the round, and what happened in it. *)
Definition deliverHints (a : N) (members : gset string) (isDead : string → bool) (ev : string → turn)
    (last : list add_call) (n : HintState) : HintState * run :=
  let w := mkHRun (hints n) [] [] [] in
  match Targets (hints n) with
  | Err _ => (n, w)
  | Ok targets =>
      let '(w, complete) := round_loop a members isDead ev w targets in
      let w := run_adds last w in
      (if complete then recordPendingHints a (set_hints n (r_store w)) else set_hints n (r_store w), w)
  end.
End delivery.

Arguments add_call IO : clear implicits.
Arguments attempt IO : clear implicits.
Arguments turn IO : clear implicits.
Arguments run P : clear implicits.
Arguments HintState P : clear implicits.

Section delivery_spec.
Context {P IO E : Type} `{!Persister P IO E} `{!PersisterSpec P IO E}.
Context (members : gset string) (isDead : string → bool).
Implicit Types (s : Store P) (w : run P) (t target k key : string).

(** Every put of the round is one the persister takes. *)
Definition puts_fine w : Prop := Forall (λ x, p_ok x.1.1 → p_accepts x.1.1 x.1.2 x.2) (r_puts w).

(** What holds throughout a round that began with the store [s0]: nothing that
    was covered is lost, a hint added is covered, and each version held is from
    the start, was added, or is the marker of an accepted call. *)
Record round_inv s0 w : Prop := {
  ri_ok : p_ok (engine (r_store w));
  ri_cover : ∀ k c, covered c (p_versions (engine s0) k) → covered c (p_versions (engine (r_store w)) k);
  ri_added : ∀ t k i, (t, k, i) ∈ r_added w →
    contains_sep t = false ∧ is_mark (deref i) = false ∧ covered (clock i) (p_versions (engine (r_store w)) (storageKey t k));
  ri_from : ∀ stored v, v ∈ p_versions (engine (r_store w)) stored →
    v ∈ p_versions (engine s0) stored ∨
    (∃ t k i, (t, k, i) ∈ r_added w ∧ stored = storageKey t k ∧ v = deref i) ∨
    (∃ c new, c ∈ r_calls w ∧ c_answer c = None ∧ stored = storageKey (c_target c) (c_key c) ∧ v = deref (marker new (c_items c)));
  ri_calls : ∀ c, c ∈ r_calls w →
    contains_sep (c_target c) = false ∧ c_target c ∈ members ∧ isDead (c_target c) = false ∧ c_items c ≠ []
}.

(** A part of the round: it only adds to the log of puts, and keeps the
    invariant if they are all taken. *)
Definition good_step s0 w w' : Prop :=
  r_puts w `prefix_of` r_puts w' ∧ (puts_fine w' → round_inv s0 w → round_inv s0 w').

#[local] Instance good_step_preorder s0 : PreOrder (good_step s0).
Proof.
  split; [by intros w; split|]. intros w1 w2 w3 [P1 H1] [P2 H2]. split; [by etrans|]. intros Hf Hi. apply H2; [done|].
  apply H1; [|done]. destruct P2 as [l E2]. unfold puts_fine in *. rewrite E2 in Hf. by apply Forall_app in Hf as [? _].
Qed.

(** A put on the persister, that succeeded or not. *)
Lemma put_inv s0 w (io : IO) stored (item : itemptr) (n m : N) (added : list (string * string * itemptr)) :
  puts_fine (log_put w stored item) → round_inv s0 w →
  (∀ t k i, (t, k, i) ∈ added ↔ (t, k, i) ∈ r_added w ∨
     ((p_Put io (engine (r_store w)) stored item).2 = None ∧ stored = storageKey t k ∧ i = item ∧ contains_sep t = false ∧ is_mark (deref i) = false)) →
  ((∃ t k, (t, k, item) ∈ added ∧ stored = storageKey t k) ∨ (p_Put io (engine (r_store w)) stored item).2 ≠ None ∨
   ∃ c new, c ∈ r_calls w ∧ c_answer c = None ∧ stored = storageKey (c_target c) (c_key c) ∧ item = marker new (c_items c)) →
  round_inv s0 (mkHRun (mkHints (p_Put io (engine (r_store w)) stored item).1 n m) added (r_calls w)
                  (r_puts (log_put w stored item))).
Proof.
  intros Hf [Hok Hcov Hadd Hfrom Hcalls] Hnew Hsrc. unfold puts_fine in Hf. cbn [log_put r_puts] in Hf.
  apply Forall_app in Hf as [_ Hf]. rewrite Forall_singleton in Hf. specialize (Hf Hok). cbn in Hf.
  pose proof (p_puts io (engine (r_store w)) stored item Hok Hf) as Hp.
  destruct (p_Put io (engine (r_store w)) stored item) as [p' [err|]]; cbn [fst snd] in *.
  - destruct Hp as [Hok' Hsame]. split; cbn [r_store r_added r_calls engine]; [done| | | |done].
    + intros k c. rewrite Hsame. apply Hcov.
    + intros t k i [Hi|(? & _)]%Hnew; [rewrite Hsame; by apply Hadd|done].
    + intros sk v. rewrite Hsame. intros [?|[(t & k & i & Hi & ?)|?]]%Hfrom; [by left| |by right; right].
      right. left. exists t, k, i. split; [apply Hnew; by left|done].
  - destruct Hp as (Hok' & Hother & Hel & Hc). split; cbn [r_store r_added r_calls engine]; [done| | | |done].
    + intros k c Hk%Hcov. destruct (decide (k = stored)) as [->|]; [apply Hc; by left|by rewrite Hother].
    + intros t k i [(Ht & Hm & Hi)%Hadd|(_ & Ek & -> & Ht & Hm)]%Hnew; (split; [done|]); (split; [done|]).
      * destruct (decide (storageKey t k = stored)) as [<-|]; [apply Hc; by left|by rewrite Hother].
      * rewrite <-Ek. apply Hc. right. reflexivity.
    + assert (∀ sk v, v ∈ p_versions (engine (r_store w)) sk → v ∈ p_versions (engine s0) sk ∨
        (∃ t k i, (t, k, i) ∈ added ∧ sk = storageKey t k ∧ v = deref i) ∨
        (∃ c new, c ∈ r_calls w ∧ c_answer c = None ∧ sk = storageKey (c_target c) (c_key c) ∧ v = deref (marker new (c_items c)))) as Hold.
      { intros sk v [?|[(t & k & i & Hi & ?)|?]]%Hfrom; [by left| |by right; right].
        right. left. exists t, k, i. split; [apply Hnew; by left|done]. }
      intros sk v. destruct (decide (sk = stored)) as [->|]; [|rewrite Hother by done; apply Hold].
      intros [?| ->]%Hel; [by apply Hold|]. right. destruct Hsrc as [(t & k & Hi & Ek)|[?|(c & new & ? & ? & ? & ->)]]; [|done|].
      * left. by exists t, k, item.
      * right. by exists c, new.
Qed.

Lemma run_add_step s0 w (c : add_call IO) : good_step s0 w (run_add w c).
Proof.
  unfold run_add, Add.
  destruct (match ad_target c with EmptyString => true | _ => contains_sep (ad_target c) end) eqn:Et; [by destruct w|].
  assert (contains_sep (ad_target c) = false) as Hs by (by destruct (ad_target c)).
  destruct (isMarker (ad_item c)) eqn:Hm; [by destruct w|]. rewrite isMarker_deref in Hm.
  pose proof (put_inv s0 w (ad_io c) (storageKey (ad_target c) (ad_key c)) (ad_item c)) as Hp.
  destruct (p_Put _ _ _ _) as [p' [err|]]; cbn [fst snd] in Hp; (split; [by eexists|]); intros Hf Hi.
  - apply Hp; [done|done| |by right; left]. intros t k i. split; [by left|]. by intros [?|(? & _)].
  - apply Hp; [done|done| |].
    + intros t k i. cbn. rewrite elem_of_app, list_elem_of_singleton. split.
      * intros [?|[= -> -> ->]]; [by left|by right].
      * intros [?|(_ & Ek & -> & Ht & _)]; [by left|right]. by destruct (storageKey_inj _ _ _ _ Hs Ht Ek) as [-> ->].
    + left. exists (ad_target c), (ad_key c). cbn. rewrite elem_of_app, list_elem_of_singleton. by split; [right|].
Qed.

Lemma run_adds_step s0 w (cs : list (add_call IO)) : good_step s0 w (run_adds cs w).
Proof.
  revert w. induction cs as [|c cs IH]; intros w; [done|]. etransitivity; [apply (run_add_step s0 w c)|apply IH].
Qed.

Lemma log_call_step s0 w (c : call) :
  contains_sep (c_target c) = false → c_target c ∈ members → isDead (c_target c) = false → c_items c ≠ [] →
  good_step s0 w (log_call w c).
Proof.
  intros H1 H2 H3 H4. split; [done|]. intros _ [Hok Hcov Hadd Hfrom Hcalls]. split; [done|done|done| |].
  - intros stored v [?|[?|(c' & new & Hc & ?)]]%Hfrom; [by left|by right; left|]. right. right. exists c', new.
    split; [|done]. cbn. set_solver.
  - cbn. intros c'. rewrite elem_of_app, list_elem_of_singleton. intros [?| ->]; [by apply Hcalls|done].
Qed.

Lemma mark_step s0 w (io : IO) (new : N) target key (items : list itemptr) :
  items ≠ [] → mkCall target key items None ∈ r_calls w →
  good_step s0 w (set_store (log_put w (storageKey target key) (marker new items)) (MarkDelivered io new (r_store w) target key items).1).
Proof.
  intros Hne Hc. split; [by eexists|]. intros Hf Hi.
  pose proof (put_inv s0 w io (storageKey target key) (marker new items)) as Hp.
  assert (∀ n m, round_inv s0 (mkHRun (mkHints (p_Put io (engine (r_store w)) (storageKey target key) (marker new items)).1 n m) (r_added w)
    (r_calls w) (r_puts (log_put w (storageKey target key) (marker new items))))) as Hd.
  { intros n m. apply Hp; [done|done| |right; right; by exists (mkCall target key items None), new].
    intros t k i. split; [by left|]. intros [?|(_ & _ & -> & _ & Hm)]; [done|]. by rewrite marker_is_mark in Hm. }
  unfold MarkDelivered. destruct items as [|i0 l]; [done|]. by destruct (p_Put _ _ _ _) as [p' [err|]]; apply Hd.
Qed.

Lemma read_loop_step s0 adds a w target keys : good_step s0 w (read_loop adds a w target keys).1.
Proof.
  revert a w. induction keys as [|k keys IH]; intros a w; cbn [read_loop]; [done|].
  destruct (splitKey k) as [[t key]|]; [|apply IH]. case_bool_decide; [|apply IH].
  etransitivity; [apply (run_adds_step s0 w (adds k))|]. destruct (p_GetAll _ _ _) as [[items fd]|]; [|done].
  specialize (IH (a + N.of_nat (length items))%N (run_adds (adds k) w)). by destruct (read_loop _ _ _ _ _) as [w' r].
Qed.

Lemma read_loop_items adds a w target keys hs :
  (read_loop (IO := IO) adds a w target keys).2 = Ok hs → Forall (λ h, h_Items h ≠ []) hs.
Proof.
  revert a w hs. induction keys as [|k keys IH]; intros a w hs; cbn [read_loop]; [by intros [= <-]|].
  destruct (splitKey k) as [[t key]|]; [|apply IH]. case_bool_decide; [|apply IH].
  destruct (p_GetAll _ _ _) as [[items fd]|]; [|done]. specialize (IH (a + N.of_nat (length items))%N (run_adds (adds k) w)).
  destruct (read_loop _ _ _ _ _) as [w' [pend|]]; [|done]. cbn [snd] in *. cbn [res_bind]. intros [= <-].
  specialize (IH pend eq_refl). destruct (live items); [done|]. by constructor.
Qed.

Lemma deliver_loop_step s0 (ev : string → attempt IO) w target pending :
  contains_sep target = false → target ∈ members → isDead target = false → Forall (λ h, h_Items h ≠ []) pending →
  good_step s0 w (deliver_loop ev w target pending).1.
Proof.
  intros Ht Hm Hd Hp. revert w. induction Hp as [|h rest Hne Hp IH]; intros w; cbn [deliver_loop]; [done|].
  destruct (at_cancelled (ev (h_Key h))); [done|].
  assert (good_step s0 w (log_call (run_adds (at_adds (ev (h_Key h))) w) (mkCall target (h_Key h) (h_Items h) (at_outcome (ev (h_Key h)))))) as Hc.
  { etransitivity; [apply run_adds_step|]. by apply log_call_step. }
  destruct (at_outcome (ev (h_Key h))) as [[]|] eqn:Eo; [done|done|by etransitivity|by etransitivity|].
  etransitivity; [exact Hc|]. clear Hc. set (w1 := log_call _ _).
  assert (mkCall target (h_Key h) (h_Items h) None ∈ r_calls w1) as Hin by (cbn; set_solver).
  pose proof (mark_step s0 w1 (at_io (ev (h_Key h))) (at_new (ev (h_Key h))) target (h_Key h) (h_Items h) Hne Hin) as Hmark.
  destruct (h_Items h) as [|i0 l] eqn:Ei; [done|]. rewrite <-Ei in *. clearbody w1.
  set (w2 := log_put w1 _ _) in *. change (r_store w1) with (r_store w2) in Hmark.
  destruct (MarkDelivered _ _ _ _ _ _) as [s1 [err|]]; cbn [fst] in *; [done|]. by etransitivity.
Qed.

Lemma deliverHintsTo_step s0 a (tn : turn IO) w target :
  contains_sep target = false → target ∈ members → isDead target = false → good_step s0 w (deliverHintsTo a tn w target).1.
Proof.
  intros Ht Hm Hd. unfold deliverHintsTo. etransitivity; [apply (run_adds_step s0 w (tn_adds tn))|].
  destruct (p_Keys _) as [keys|]; [|done].
  pose proof (read_loop_step s0 (tn_reads tn) a (run_adds (tn_adds tn) w) target keys) as Hr.
  pose proof (read_loop_items (tn_reads tn) a (run_adds (tn_adds tn) w) target keys) as Hi.
  destruct (read_loop _ _ _ _ _) as [w' [pending|]]; cbn [fst snd] in *; [|done].
  etransitivity; [exact Hr|]. apply deliver_loop_step; auto.
Qed.

Lemma round_loop_step s0 a (ev : string → turn IO) w targets :
  Forall (λ t, contains_sep t = false) targets → good_step s0 w (round_loop a members isDead ev w targets).1.
Proof.
  intros Hf. revert w. induction Hf as [|target rest Ht Hf IH]; intros w; cbn [round_loop]; [done|].
  destruct (tn_stop (ev target)); [done|]. destruct (bool_decide (target ∉ members) || isDead target) eqn:Eskip; [apply IH|].
  apply orb_false_iff in Eskip as [Hm%bool_decide_eq_false Hd]. etransitivity; [|apply IH].
  apply deliverHintsTo_step; [done| |done]. by destruct (decide (target ∈ members)).
Qed.

Lemma Targets_spec s ts :
  p_ok (engine s) → Targets s = Ok ts → Forall (λ t, contains_sep t = false) ts.
Proof.
  intros Hok. unfold Targets. destruct (p_Keys (engine s)) as [keys|]; [|done]. intros [= <-].
  destruct (targets_loop_spec keys ∅) as [Hnd Hel].
  apply Forall_forall. intros t. rewrite sort_strings_elem. intros [_ (k & _ & Hk)]%Hel. unfold target_of in Hk.
  destruct (splitKey k) as [[t' key]|] eqn:Esp; [|done]. injection Hk as <-. by apply splitKey_spec in Esp as [_ ?].
Qed.

(** The target accepted, in a call of this round, hints of the key whose clocks
    together cover [c]. *)
Definition accepted w t k (c : gmap string N) : Prop :=
  ∃ items, mkCall t k items None ∈ r_calls w ∧ c ⊑c UnionVectorClock items.

(** A clock that the store covers, without the marker's entry, is that of a
    pending hint or older, or was covered by a marker at the start, or the
    target has accepted it. *)
Lemma covered_where s0 w t k (v : DataItem) :
  round_inv s0 w → contains_sep t = false → is_mark v = false → covered (clock v) (held_for (r_store w) t k) →
  covered (clock v) (awaiting (r_store w) t k) ∨ accepted w t k (clock v) ∨
  ∃ m, m ∈ held_for s0 t k ∧ is_mark m = true ∧ clock v ⊑c clock m.
Proof.
  intros Hi Ht Hv (x & Hx & Hle). destruct (is_mark x) eqn:Hm; [|left; exists x; split; [by apply elem_unmarked|done]]. right.
  destruct (ri_from _ _ Hi _ _ Hx) as [Hold|[(t' & k' & i & Ha & Ek & ->)|(c & new & Hc & Ha & Ek & ->)]].
  - right. by exists x.
  - destruct (ri_added _ _ Hi _ _ _ Ha) as (_ & Hm' & _). congruence.
  - left. destruct (ri_calls _ _ Hi c Hc) as (Hs & _). destruct (storageKey_inj _ _ _ _ Ht Hs Ek) as [-> ->].
    exists (c_items c). destruct c as [t' k' items ans]. cbn [c_target c_key c_items c_answer] in *. subst ans. split; [done|].
    rewrite clock_deref, marker_clock in Hle. exact (proj1 (hint_below_marker v _ Hv) Hle).
Qed.

Lemma pending_from s0 w t k v :
  round_inv s0 w → contains_sep t = false → v ∈ awaiting (r_store w) t k →
  v ∈ awaiting s0 t k ∨ ∃ i, (t, k, i) ∈ r_added w ∧ v = deref i.
Proof.
  intros Hi Ht [Hv Hin]%elem_unmarked. destruct (ri_from _ _ Hi _ _ Hin) as [?|[(t' & k' & i & Ha & Ek & ->)|(c & new & _ & _ & _ & ->)]].
  - left. by apply elem_unmarked.
  - right. exists i. destruct (ri_added _ _ Hi _ _ _ Ha) as (Ht' & _ & _). by destruct (storageKey_inj _ _ _ _ Ht Ht' Ek) as [-> ->].
  - by rewrite marker_is_mark in Hv.
Qed.

Lemma pending_kept s0 w t k v :
  p_ok (engine s0) → round_inv s0 w → contains_sep t = false → v ∈ awaiting s0 t k →
  covered (clock v) (awaiting (r_store w) t k) ∨ accepted w t k (clock v).
Proof.
  intros Hok Hi Ht [Hv Hin]%elem_unmarked.
  destruct (covered_where s0 w t k v Hi Ht Hv) as [?|[?|(m & Hm & Hmm & Hle)]]; [|by left|by right|].
  - apply (ri_cover _ _ Hi). exists v. split; [done|reflexivity].
  - assert (v = m) as -> by exact (antichain_elem _ _ _ (p_antichain (engine s0) (storageKey t k) Hok) Hin Hm Hle). congruence.
Qed.

Lemma round_inv_init (n : HintState P) : p_ok (engine (hints n)) → round_inv (hints n) (mkHRun (hints n) [] [] []).
Proof. intros Hok. split; [done|done|..]; cbn; [by intros ? ? ? ?%elem_of_nil|by left|by intros ? ?%elem_of_nil]. Qed.

Lemma deliverHints_step (a : N) (ev : string → turn IO) (last : list (add_call IO)) (n : HintState P) :
  p_ok (engine (hints n)) →
  let '(n', w) := deliverHints a members isDead ev last n in
  good_step (hints n) (mkHRun (hints n) [] [] []) w ∧ hints n' = r_store w ∧
  (hintsPending n' = hintsPending n ∨
   ∃ m, PendingItems a (r_store w) = Ok m ∧ hintsPending n' = u64 (N.of_nat m) ∧ hintsPendingKnown n' = true).
Proof.
  intros Hok. unfold deliverHints. destruct (Targets (hints n)) as [ts|] eqn:Et; [|split; [done|]; split; [done|by left]].
  pose proof (round_loop_step (hints n) a ev (mkHRun (hints n) [] [] []) ts (Targets_spec _ _ Hok Et)) as Hr.
  destruct (round_loop _ _ _ _ _ _) as [w1 complete]. cbn [fst] in Hr. split; [etransitivity; [exact Hr|apply run_adds_step]|].
  destruct complete; [|split; [done|by left]]. unfold recordPendingHints. cbn [hints set_hints].
  destruct (PendingItems a _) as [m|] eqn:Ep; (split; [done|]); [right; by exists m|by left].
Qed.

(** C31: a delivery round loses no hint, whatever is added to the store
    meanwhile.  Writes add hints between all the steps of a round, and its
    calls are answered in any way.  Then (1) a hint that was pending when the
    round began is afterwards still pending or superseded by a newer pending
    one, or it is at or below the union of the clocks of hints of its key that
    its target accepted in a call of this round; if nothing was added under its
    key, it is itself still pending or accepted so; (2) of a hint added during
    the round the same holds, or it was at or below a marker already (of an
    earlier delivery); (3) nothing else becomes pending; (4) calls are made
    only to members not marked dead; and (5) the count of pending hints that
    the node reports is the store's own, or still the previous one. *)
Theorem delivery_round_keeps_undelivered (a : N) (ev : string → turn IO) (last : list (add_call IO)) (n : HintState P) :
  p_ok (engine (hints n)) →
  let '(n', w) := deliverHints a members isDead ev last n in
  puts_fine w →
  p_ok (engine (hints n')) ∧
  (∀ t k v, contains_sep t = false → v ∈ awaiting (hints n) t k →
     (covered (clock v) (awaiting (hints n') t k) ∨ accepted w t k (clock v)) ∧
     ((∀ i, (t, k, i) ∉ r_added w) → v ∈ awaiting (hints n') t k ∨ accepted w t k (clock v))) ∧
  (∀ t k i, (t, k, i) ∈ r_added w →
     covered (clock i) (awaiting (hints n') t k) ∨ accepted w t k (clock i) ∨
     ∃ m, m ∈ held_for (hints n) t k ∧ is_mark m = true ∧ clock i ⊑c clock m) ∧
  (∀ t k v, contains_sep t = false → v ∈ awaiting (hints n') t k →
     v ∈ awaiting (hints n) t k ∨ ∃ i, (t, k, i) ∈ r_added w ∧ v = deref i) ∧
  (∀ c, c ∈ r_calls w → c_target c ∈ members ∧ isDead (c_target c) = false ∧ c_items c ≠ []) ∧
  (hintsPending n' = hintsPending n ∨
   ∃ m, PendingItems a (hints n') = Ok m ∧ hintsPending n' = u64 (N.of_nat m) ∧ hintsPendingKnown n' = true).
Proof.
  intros Hok. pose proof (deliverHints_step a ev last n Hok) as Hd.
  destruct (deliverHints _ _ _ _ _ _) as [n' w]. destruct Hd as (Hst & -> & Hcount). intros Hf.
  pose proof (proj2 Hst Hf (round_inv_init n Hok)) as Hi.
  assert (∀ t k v, contains_sep t = false → v ∈ awaiting (r_store w) t k →
    v ∈ awaiting (hints n) t k ∨ ∃ i, (t, k, i) ∈ r_added w ∧ v = deref i) as Hnew by (intros; by eapply pending_from).
  assert (∀ t k v, contains_sep t = false → v ∈ awaiting (hints n) t k →
    covered (clock v) (awaiting (r_store w) t k) ∨ accepted w t k (clock v)) as Hkept by (intros; by apply (pending_kept (hints n))).
  split; [apply Hi|]. split; [|split; [|split; [exact Hnew|split; [|exact Hcount]]]].
  - intros t k v Ht Hv. split; [by apply Hkept|]. intros Hno. destruct (Hkept t k v Ht Hv) as [(x & Hx & Hle)|?]; [left|by right].
    destruct (Hnew t k x Ht Hx) as [Hx'|(i & Hi' & _)]; [|by apply Hno in Hi'].
    apply elem_unmarked in Hv as [_ Hv]. apply elem_unmarked in Hx' as [_ Hx'].
    by rewrite (antichain_elem _ _ _ (p_antichain _ _ Hok) Hv Hx' Hle).
  - intros t k i Ha. destruct (ri_added _ _ Hi _ _ _ Ha) as (Ht & Hm & Hc). rewrite <-clock_deref.
    apply (covered_where (hints n) w t k (deref i) Hi Ht Hm). by rewrite clock_deref.
  - intros c Hc. apply (ri_calls _ _ Hi c Hc).
Qed.
End delivery_spec.

(** ** The theorems at concrete stores *)

(** Two concurrent versions pending for [n3]; a third, concurrent with both. *)
Definition w_hint (v : string) (c : gmap string N) (a : N) : itemptr := mkPtr a (mkItem (VString v) (mkVC c) "n1" false).
Definition w_a := w_hint "a" {["a" := 2%N]} 1.
Definition w_b := w_hint "b" {["b" := 2%N]} 2.
Definition w_x := w_hint "x" {["a" := 1%N; "b" := 1%N]} 3.
Definition w_hints : Store (gmap string (list itemptr)) :=
  (Add () (Add () (mkHints ∅ 0 0) "n3" "k" w_a).1 "n3" "k" w_b).1.

(** A hint can be retired without being delivered.  Let two concurrent
    hints be read for delivery and a third be added for the same target and
    key, concurrent with each of them but covered by the union of their
    clocks.  Marking the two as delivered retires the third as well; and added
    after the marking, it is accepted without an error and never pending. *)
Theorem concurrent_hint_retired_undelivered :
  let s := (Add () w_hints "n3" "k" w_x).1 in
  let s' := (MarkDelivered () 9 s "n3" "k" [w_b; w_a]).1 in
  let late := Add () (MarkDelivered () 9 w_hints "n3" "k" [w_b; w_a]).1 "n3" "k" w_x in
  Pending 20 w_hints "n3" = Ok [mkHint "k" [w_b; w_a]] ∧ deref w_x ∈ awaiting s "n3" "k" ∧
  compare w_x w_a = Concurrent ∧ compare w_x w_b = Concurrent ∧ Pending 20 s' "n3" = Ok [] ∧
  late.2 = None ∧ Pending 20 late.1 "n3" = Ok [].
Proof.
  intros s s' late. split_and!; try (vm_compute; reflexivity).
  vm_compute. left.
Qed.

(** Markers of concurrent deliveries stay side by side. *)
Example markers_accumulate :
  let s := (MarkDelivered () 8 (Add () (mkHints ∅ 0 0) "n3" "k" w_a).1 "n3" "k" [w_a]).1 in
  let s' := (MarkDelivered () 9 (Add () s "n3" "k" w_b).1 "n3" "k" [w_b]).1 in
  is_mark <$> held_for s' "n3" "k" = [true; true].
Proof. vm_compute. reflexivity. Qed.

Lemma w_hints_ok : p_ok (engine w_hints).
Proof.
  exact (proj1 (mem_puts _ (storageKey "n3" "k") w_b (proj1 (mem_puts ∅ (storageKey "n3" "k") w_a mem_ok_empty)))).
Qed.

Lemma mark_delivered_retires_witness :
  deref w_a ∉ awaiting (MarkDelivered () 9 w_hints "n3" "k" [w_a]).1 "n3" "k".
Proof.
  pose proof (mark_delivered_retires () 9 w_hints "n3" "k" [w_a] w_hints_ok eq_refl ltac:(discriminate) I) as H.
  destruct (MarkDelivered () 9 w_hints "n3" "k" [w_a]) as [s' [err|]] eqn:E.
  - exfalso. vm_compute in E. discriminate E.
  - destruct H as (_ & _ & Hd & _). apply Hd. left.
Defined.

Lemma hint_added_witness :
  awaiting (Add () w_hints "n4" "k" w_x).1 "n3" "k" = awaiting w_hints "n3" "k".
Proof.
  pose proof (hint_added () w_hints "n4" "k" w_x w_hints_ok I) as H.
  destruct (Add () w_hints "n4" "k" w_x) as [s' [err|]] eqn:E.
  - exfalso. vm_compute in E. discriminate E.
  - destruct H as (_ & _ & _ & _ & _ & _ & _ & Hother). apply Hother; [reflexivity|discriminate].
Defined.

Lemma pending_items_adds_up_witness :
  2 = sum_by (λ t, sum_by (λ h, length (h_Items h)) [mkHint "k" [w_b; w_a]]) ["n3"%string].
Proof.
  apply (pending_items_adds_up 20 w_hints ["n3"%string] 2 (λ _, [mkHint "k" [w_b; w_a]]) w_hints_ok);
    [vm_compute; reflexivity|vm_compute; reflexivity|].
  intros t Ht. apply list_elem_of_singleton in Ht as ->. exists 20%N. vm_compute. reflexivity.
Defined.

(** [n3] accepts the hints of one key, while another is added for it; [n4]
    does not answer. *)
Definition w_two : HintState (gmap string (list itemptr)) := mkHState (Add () w_hints "n4" "k" w_x).1 0 false.
Definition w_late := w_hint "late" {["c" := 1%N]} 4.
Definition w_ev (t : string) : turn unit :=
  mkTurn false [] (λ _, [])
    (λ _, if decide (t = "n3"%string) then mkAttempt false [mkAddCall () "n3" "k" w_late] None () 9
          else mkAttempt false [] (Some Unavailable) () 9).

Lemma w_two_ok : p_ok (engine (hints w_two)).
Proof. exact (proj1 (mem_puts _ (storageKey "n4" "k") w_x w_hints_ok)). Qed.

Lemma delivery_round_keeps_undelivered_witness :
  let '(n', w) := deliverHints 20 {["n3"; "n4"]} (λ _, false) w_ev [] w_two in
  covered (clock w_late) (awaiting (hints n') "n3" "k") ∧ deref w_x ∈ awaiting (hints n') "n4" "k".
Proof.
  pose proof (delivery_round_keeps_undelivered {["n3"%string; "n4"%string]} (λ _, false) 20 w_ev [] w_two w_two_ok) as H.
  destruct (deliverHints _ _ _ _ _ _) as [n' w] eqn:E.
  assert (r_added w = [("n3"%string, "k"%string, w_late)] ∧
    r_calls w = [mkCall "n3" "k" [w_b; w_a] None; mkCall "n4" "k" [w_x] (Some Unavailable)]) as [Ea Ec].
  { assert (w = (deliverHints 20 {["n3"; "n4"]} (λ _, false) w_ev [] w_two).2) as -> by (rewrite E; reflexivity).
    split; vm_compute; reflexivity. }
  destruct H as (_ & Hkept & Hadd & _).
  { unfold puts_fine. apply Forall_forall. intros x _ _. exact I. }
  split.
  - destruct (Hadd "n3"%string "k"%string w_late) as [H|[(items & Hc & Hle)|(m & Hm & Hmm & _)]]; [rewrite Ea; left|exact H|exfalso|exfalso].
    + rewrite Ec in Hc. apply elem_of_cons in Hc as [Hc|Hc]; [|apply list_elem_of_singleton in Hc; discriminate Hc].
      injection Hc as ->. specialize (Hle "c"%string). vm_compute in Hle. apply Hle. reflexivity.
    + vm_compute in Hm. repeat (apply elem_of_cons in Hm as [->|Hm]; [vm_compute in Hmm; discriminate Hmm|]). apply elem_of_nil in Hm. exact Hm.
  - destruct (proj2 (Hkept "n4"%string "k"%string (deref w_x) eq_refl ltac:(vm_compute; left))) as [H|(items & Hc & _)]; [|exact H|exfalso].
    + intros i Hi. rewrite Ea in Hi. apply list_elem_of_singleton in Hi. discriminate Hi.
    + rewrite Ec in Hc. apply elem_of_cons in Hc as [Hc|Hc]; [discriminate Hc|]. apply list_elem_of_singleton in Hc. discriminate Hc.
Defined.
