(* ===== verification/Coordinate.v ===== *)
(** * Quorum coordination (internal/node/coordinate.go, internal/rpc/server.go)

    A node's coordination of writes and reads: routing by the preference list,
    the write's fan-out and quorum count with rollback and hints, forwarding
    with failover, the quorum read, and the replica's side of both calls. *)

From stdpp Require Import gmap strings list.
From Stdlib Require Import ZArith Lia.
From S2P Require Import Prelude GoLib VectorClock Versioning HashRing Datastore Hints.

Record QuorumConfig := mkQuorum { QN : nat; QW : nat; QR : nat }.

(** What the coordinator's loops receive: a peer's result, in the order in
    which results arrive, or the end of the caller's context. *)
Inductive arrival (A : Type) := Result (peerID : string) (r : A) | CtxDone.
Arguments Result {A} peerID r.
Arguments CtxDone {A}.

Definition results {A} (evs : list (arrival A)) : list (string * A) :=
  evs ≫= λ ev, match ev with Result p r => [(p, r)] | CtxDone => [] end.

(** ** The write's count *)

Record tally := mkTally { received : nat; successes : nat; failures : nat; unavailable : list string }.

Inductive verdict := Reached | Missed | Cancelled.

Definition count (t : tally) (peerID : string) (err : option code) : tally :=
  match err with
  | None => mkTally (S (received t)) (S (successes t)) (failures t) (unavailable t)
  | Some Unavailable => mkTally (S (received t)) (successes t) (S (failures t)) (unavailable t ++ [peerID])
  | Some _ => mkTally (S (received t)) (successes t) (S (failures t)) (unavailable t)
  end.

(** The loop of [putAsReplica]: [i] results left to receive.  [None] is a loop
    still waiting for a result. *)
Fixpoint quorum_loop (i totalNodes needed : nat) (t : tally) (evs : list (arrival (option code)))
    : option (verdict * tally * list (arrival (option code))) :=
  match i with
  | O => Some (Missed, t, evs)
  | S i' =>
      match evs with
      | [] => None
      | CtxDone :: rest => Some (Cancelled, t, rest)
      | Result peerID err :: rest =>
          let t' := count t peerID err in
          if needed <=? successes t' then Some (Reached, t', rest)
          else if totalNodes - failures t' <? needed then Some (Missed, t', rest)
          else quorum_loop i' totalNodes needed t' rest
      end
  end.

(** The verdict: at once if the local write is enough. *)
Definition decide_write (peers : list string) (needed : nat) (evs : list (arrival (option code)))
    : option (verdict * tally * list (arrival (option code))) :=
  let t := mkTally 0 1 0 [] in
  if needed <=? successes t then Some (Reached, t, evs)
  else quorum_loop (length peers) (length peers + 1) needed t evs.

(** [drainReplication]'s loop over the results still to come. *)
Fixpoint drain_loop (remaining : nat) (rs : list (string * option code)) (unavail : list string) : list string :=
  match remaining, rs with
  | S remaining', (peerID, err) :: rest =>
      drain_loop remaining' rest (match err with Some Unavailable => unavail ++ [peerID] | _ => unavail end)
  | _, _ => unavail
  end.

Section node.
Context {P IO E : Type} `{!Persister P IO E}.
Context {H IOH EH : Type} `{!Persister H IOH EH}.

(** A node's state as far as coordination uses it. *)
Record Node := mkNode {
  ID : string;
  quorum : QuorumConfig;
  ring : HashRing;
  Store : DataStore P;
  hintStore : Hints.Store H;
  dead : gset string;
  drainClosing : bool;
  writeQuorumFailures : N;
  readQuorumFailures : N
}.

Definition set_Store (n : Node) (ds : DataStore P) : Node :=
  mkNode (ID n) (quorum n) (ring n) ds (hintStore n) (dead n) (drainClosing n) (writeQuorumFailures n) (readQuorumFailures n).
Definition set_hintStore (n : Node) (h : Hints.Store H) : Node :=
  mkNode (ID n) (quorum n) (ring n) (Store n) h (dead n) (drainClosing n) (writeQuorumFailures n) (readQuorumFailures n).
Definition set_failures (n : Node) (w r : N) : Node :=
  mkNode (ID n) (quorum n) (ring n) (Store n) (hintStore n) (dead n) (drainClosing n) w r.

Definition isDead (n : Node) (peerID : string) : bool := bool_decide (peerID ∈ dead n).

(** The loop of [isReplicaFor]. *)
Fixpoint split_self (self : string) (preferenceList : list string) : bool * list string :=
  match preferenceList with
  | [] => (false, [])
  | nodeID :: rest =>
      let '(isReplica, peers) := split_self self rest in
      if bool_decide (nodeID = self) then (true, peers) else (isReplica, nodeID :: peers)
  end.

Definition isReplicaFor (n : Node) (key : string) : bool * list string :=
  split_self (ID n) (GetPreferenceList (ring n) key (QN (quorum n))).

(** ** Writes *)

Inductive put_error :=
  | LocalRead (e : E)
  | LocalWrite
  | WriteQuorum (successes totalNodes needed : nat) (rollback : option E)
  | PutCanceled
  | ErrNotReplica.

(** The hints a decided write leaves; each can fail on its own. *)
Definition drainReplication (ioh : string → IOH) (n : Node) (key : string) (item : itemptr)
    (rest : list (arrival (option code))) (remaining : nat) (unavail : list string) (keep : bool) : Node :=
  if drainClosing n then n
  else
    let unavail := drain_loop remaining (results rest) unavail in
    if keep then
      set_hintStore n (fold_left (λ h peerID, (Hints.Add (ioh peerID) h peerID key item).1) unavail (hintStore n))
    else n.

(** What the environment decides about a coordinated write: the store's and
    the hint store's outcomes, where reads and the new item are allocated, the
    results and their order, and what else happens to the node while the write
    waits for its quorum. *)
Record put_env := mkPutEnv {
  e_read : N; e_new : N; e_put : IO; e_restore : IO; e_hints : string → IOH;
  e_arrivals : list (arrival (option code)); e_meanwhile : Node → Node
}.

Definition putAsReplica (env : put_env) (n : Node) (key : string) (value : value)
    (clientContext : option (gmap string N)) (peers : list string) : option (Node * option put_error) :=
  match Datastore.Get (e_read env) (Store n) key with
  | Err err => Some (n, Some (LocalRead err))
  | Ok (prevVersions, _) =>
      match Datastore.Put (e_put env) (e_read env) (e_new env) (Store n) key value clientContext with
      | (ds, None) => Some (set_Store n ds, Some LocalWrite)
      | (ds, Some item) =>
          let needed := QW (quorum n) in
          let n := e_meanwhile env (set_Store n ds) in
          match decide_write peers needed (e_arrivals env) with
          | None => None
          | Some (v, t, rest) =>
              let decided keep := drainReplication (e_hints env) n key item rest (length peers - received t)
                                    (unavailable t) keep in
              match v with
              | Reached => Some (decided true, None)
              | Cancelled => Some (decided true, Some PutCanceled)
              | Missed =>
                  let n := set_failures (decided false) (u64 (writeQuorumFailures n + 1)) (readQuorumFailures n) in
                  let '(ds, err) := RestoreVersions (e_restore env) (Store n) key prevVersions in
                  Some (set_Store n ds, Some (WriteQuorum (successes t) (length peers + 1) needed err))
              end
          end
      end
  end.

Definition CoordinatePut (env : put_env) (n : Node) (key : string) (value : value)
    (clientContext : option (gmap string N)) : option (Node * option put_error) :=
  let '(isReplica, peers) := isReplicaFor n key in
  if isReplica then putAsReplica env n key value clientContext peers else Some (n, Some ErrNotReplica).

(** ** Forwarding *)

(** A replica's answer to the forwarded write, or no client for it. *)
Inductive forward_answer := NoClient | Answer (err : option code).

Inductive forward_result :=
  | Forwarded
  | ForwardFailed (replicaID : string) (c : code)
  | NoReplica.

(** The loop of [forwardPut]; the replicas that were sent the write come
    with the result. *)
Fixpoint forward_loop (n : Node) (answer : string → forward_answer) (replicas : list string)
    : forward_result * list string :=
  match replicas with
  | [] => (NoReplica, [])
  | replicaID :: rest =>
      if isDead n replicaID then forward_loop n answer rest
      else
        match answer replicaID with
        | NoClient => forward_loop n answer rest
        | Answer None => (Forwarded, [replicaID])
        | Answer (Some (Unavailable | FailedPrecondition)) =>
            let '(r, sent) := forward_loop n answer rest in (r, replicaID :: sent)
        | Answer (Some c) => (ForwardFailed replicaID c, [replicaID])
        end
  end.

Definition forwardPut (n : Node) (answer : string → forward_answer) (replicas : list string) : forward_result :=
  (forward_loop n answer replicas).1.

Inductive put_result := Coordinated (err : option put_error) | Routed (r : forward_result).

Definition Put (env : put_env) (answer : string → forward_answer) (n : Node) (key : string) (value : value)
    (context : option (gmap string N)) : option (Node * put_result) :=
  let '(isReplica, peers) := isReplicaFor n key in
  if isReplica then
    match putAsReplica env n key value context peers with
    | Some (n', err) => Some (n', Coordinated err)
    | None => None
    end
  else Some (n, Routed (forwardPut n answer peers)).

(** ** Reads *)

Inductive get_error := ReadQuorum (responses totalNodes needed : nat) | GetCanceled.

(** The loop of [Get]; a peer that is marked dead answers with an error at
    once. *)
Fixpoint get_loop (i totalNodes needed responses failures : nat) (merged : list itemptr)
    (evs : list (arrival (res code (list itemptr)))) : option (res get_error (list itemptr) * bool) :=
  match i with
  | O => Some (Err (ReadQuorum responses totalNodes needed), true)
  | S i' =>
      match evs with
      | [] => None
      | CtxDone :: _ => Some (Err GetCanceled, false)
      | Result _ r :: rest =>
          let '(responses, failures, merged) :=
            match r with
            | Err _ => (responses, S failures, merged)
            | Ok items => (S responses, failures, MergeSiblings merged items)
            end in
          if needed <=? responses then Some (Ok merged, false)
          else if totalNodes - failures <? needed then Some (Err (ReadQuorum responses totalNodes needed), true)
          else get_loop i' totalNodes needed responses failures merged rest
      end
  end.

(** [Get] given what arrives; it counts the reads that missed their quorum. *)
Definition Get (a : N) (n : Node) (key : string) (evs : list (arrival (res code (list itemptr))))
    : option (Node * res get_error (list itemptr)) :=
  let '(isReplica, peers) := isReplicaFor n key in
  let '(totalNodes, responses, failures, merged) :=
    if isReplica then
      match Datastore.Get a (Store n) key with
      | Err _ => (S (length peers), 0, 1, [])
      | Ok (local, _) => (S (length peers), 1, 0, local)
      end
    else (length peers, 0, 0, []) in
  let needed := QR (quorum n) in
  if needed <=? responses then Some (n, Ok merged)
  else
    match get_loop (length peers) totalNodes needed responses failures merged evs with
    | None => None
    | Some (r, missed) =>
        Some (if missed then set_failures n (writeQuorumFailures n) (u64 (readQuorumFailures n + 1)) else n, r)
    end.
End node.

Arguments Node P H : clear implicits.
Arguments put_env P IO H IOH : clear implicits.
Arguments put_error E : clear implicits.

(** ** The replica's side (internal/rpc/server.go) *)

Section server.
Context {P IO E : Type} `{!Persister P IO E} (halted : E → bool).

Definition InvalidArgument : code := OtherCode 3.
Definition Internal : code := OtherCode 13.

(** The loop of [Server.Replicate]; an item that does not convert from its
    message is [None]. *)
Fixpoint replicate_loop (io : N → IO) (i : N) (ds : DataStore P) (key : string) (items : list (option itemptr))
    : DataStore P * option code :=
  match items with
  | [] => (ds, None)
  | None :: _ => (ds, Some InvalidArgument)
  | Some item :: rest =>
      match MergeReplicated (io i) ds key item with
      | (ds, Some err) => (ds, Some (if halted err then Unavailable else Internal))
      | (ds, None) => replicate_loop io (i + 1) ds key rest
      end
  end.

Definition Replicate (io : N → IO) (ds : DataStore P) (key : string) (items : list (option itemptr))
    : DataStore P * option code :=
  match items with
  | [] => (ds, Some InvalidArgument)
  | _ => replicate_loop io 0 ds key items
  end.

(** [FetchItem], up to the conversion of each item to its message. *)
Definition FetchItem (a : N) (ds : DataStore P) (key : string) : res code (list itemptr * bool) :=
  match Datastore.Get a ds key with
  | Err _ => Err Internal
  | Ok (items, found) => Ok (if found then items else [], found)
  end.
End server.

(** ** The write's quorum *)

(** All results, none of them a cancellation. *)
Definition arrive {A} (rs : list (string * A)) : list (arrival A) := (λ x, Result x.1 x.2) <$> rs.

Definition acks (rs : list (string * option code)) : nat :=
  length (bfilter (λ x, match x.2 with None => true | Some _ => false end) rs).

(** The peers that were unreachable. *)
Definition unreached (rs : list (string * option code)) : list string :=
  fst <$> bfilter (λ x, match x.2 with Some Unavailable => true | _ => false end) rs.

Lemma results_arrive {A} (rs : list (string * A)) : results (arrive rs) = rs.
Proof. induction rs as [|[p r] rs IH]; [done|]. unfold arrive, results in *. rewrite fmap_cons, bind_cons, IH. done. Qed.

Lemma drain_loop_all rs us : drain_loop (length rs) rs us = us ++ unreached rs.
Proof.
  revert us. induction rs as [|[p err] rs IH]; intros us; cbn [length drain_loop]; [by rewrite app_nil_r|].
  rewrite IH. unfold unreached. cbn [bfilter snd]. destruct err as [[]|]; cbn [fmap list_fmap fst]; by rewrite <-?app_assoc.
Qed.

(** The loop decides as the count over all results would, however they are
    ordered, and keeps account of the unreachable peers. *)
Lemma quorum_loop_spec rs total needed t :
  successes t < needed → total = successes t + failures t + length rs →
  ∃ v t' rest, quorum_loop (length rs) total needed t (arrive rs) = Some (v, t', rest) ∧
    v = (if needed <=? successes t + acks rs then Reached else Missed) ∧
    (∃ rs', rest = arrive rs' ∧ received t' + length rs' = received t + length rs ∧
       unavailable t' ++ unreached rs' = unavailable t ++ unreached rs).
Proof.
  revert t. induction rs as [|[p err] rs IH]; intros t Hlt Htot; cbn [length quorum_loop].
  { exists Missed, t, []. split; [done|]. split; [|by exists []].
    unfold acks. cbn [bfilter length]. rewrite Nat.add_0_r. by rewrite (proj2 (Nat.leb_gt _ _) Hlt). }
  unfold arrive. rewrite fmap_cons. fold (arrive rs). cbn [fst snd].
  assert (∃ a f us, count t p err = mkTally (S (received t)) (successes t + a) (failures t + f) (unavailable t ++ us) ∧
    a + f = 1 ∧ acks ((p, err) :: rs) = a + acks rs ∧ unreached ((p, err) :: rs) = us ++ unreached rs) as (a & f & us & -> & Haf & Hacks & Hun).
  { destruct err as [[]|]; [exists 0, 1, [p]|exists 0, 1, []..|exists 1, 0, []]; unfold count, acks, unreached; cbn [bfilter snd fst length fmap list_fmap];
      rewrite ?app_nil_r, ?Nat.add_0_r, ?Nat.add_1_r; done. }
  rewrite Hacks, Hun. cbn [successes failures].
  assert (∀ us', (unavailable t ++ us) ++ us' = unavailable t ++ us ++ us') as Hassoc by (intros; by rewrite app_assoc).
  pose proof (bfilter_length (λ x : string * option code, match x.2 with None => true | Some _ => false end) rs) as Hmax.
  fold (acks rs) in Hmax. cbn [length] in Htot.
  destruct (Nat.leb_spec needed (successes t + a)) as [Hge|Hn].
  { exists Reached, (mkTally (S (received t)) (successes t + a) (failures t + f) (unavailable t ++ us)), (arrive rs).
    split; [done|]. split; [by destruct (Nat.leb_spec needed (successes t + (a + acks rs))); [|lia]|]. exists rs. cbn. split_and!; [done|lia|apply Hassoc]. }
  destruct (Nat.ltb_spec (total - (failures t + f)) needed) as [Hless|Henough].
  { exists Missed, (mkTally (S (received t)) (successes t + a) (failures t + f) (unavailable t ++ us)), (arrive rs).
    split; [done|]. split; [by destruct (Nat.leb_spec needed (successes t + (a + acks rs))); [lia|]|]. exists rs. cbn. split_and!; [done|lia|apply Hassoc]. }
  destruct (IH (mkTally (S (received t)) (successes t + a) (failures t + f) (unavailable t ++ us))) as (v & t' & rest & -> & -> & rs' & -> & Hrec & Hus);
    cbn in *; [lia|lia|].
  do 3 eexists. split; [done|]. split; [by rewrite Nat.add_assoc|]. exists rs'. split_and!; [done|lia|]. by rewrite Hus, Hassoc.
Qed.

Lemma decide_write_spec peers needed rs :
  rs.*1 ≡ₚ peers →
  ∃ v t rest, decide_write peers needed (arrive rs) = Some (v, t, rest) ∧
    v = (if needed <=? 1 + acks rs then Reached else Missed) ∧
    drain_loop (length peers - received t) (results rest) (unavailable t) = unreached rs.
Proof.
  intros Hp. unfold decide_write. assert (length peers = length rs) as -> by (rewrite <-Hp; by rewrite length_fmap).
  cbv zeta. cbn [successes]. destruct (Nat.leb_spec needed 1) as [Hle|Hgt].
  - do 3 eexists. split; [done|]. split; [by destruct (Nat.leb_spec needed (1 + acks rs)); [|lia]|].
    rewrite results_arrive. cbn [received unavailable]. rewrite Nat.sub_0_r. apply drain_loop_all.
  - destruct (quorum_loop_spec rs (length rs + 1) needed (mkTally 0 1 0 [])) as (v & t & rest & -> & -> & rs' & -> & Hrec & Hus);
      cbn in *; [lia|lia|].
    do 3 eexists. split; [done|]. split; [done|]. rewrite results_arrive.
    assert (length rs - received t = length rs') as -> by lia. by rewrite drain_loop_all, Hus.
Qed.

(** ** Routing *)

Lemma split_self_spec self pl isReplica peers :
  NoDup pl → split_self self pl = (isReplica, peers) →
  (isReplica = true ↔ self ∈ pl) ∧ NoDup peers ∧ (∀ p, p ∈ peers ↔ p ∈ pl ∧ p ≠ self) ∧
  length pl = (if isReplica then 1 else 0) + length peers.
Proof.
  intros Hnd. revert isReplica peers. induction Hnd as [|x pl Hx Hnd IH]; intros isReplica peers; cbn [split_self].
  { intros [= <- <-]. split_and!; [|constructor|set_solver|done]. split; [done|set_solver]. }
  destruct (split_self self pl) as [b ps]. destruct (IH b ps eq_refl) as (Hb & Hps & Hel & Hlen). case_bool_decide as Hxs.
  - intros [= <- <-]. subst x. assert (b = false) as -> by (destruct b; [tauto|done]).
    split_and!; [set_solver|done| |simpl; lia]. intros p. rewrite Hel. set_solver.
  - intros [= <- <-]. split_and!.
    + rewrite Hb. set_solver.
    + constructor; [rewrite Hel; tauto|done].
    + intros p. rewrite elem_of_cons, Hel. set_solver.
    + destruct b; simpl in *; lia.
Qed.

(** ** Two quorums meet *)

Lemma quorums_meet (pl a b : list string) :
  NoDup a → NoDup b → (∀ p, p ∈ a → p ∈ pl) → (∀ p, p ∈ b → p ∈ pl) → length pl < length a + length b →
  ∃ p, p ∈ a ∧ p ∈ b.
Proof.
  intros Ha Hb Hap Hbp Hlen. destruct (decide (Exists (λ p, p ∈ b) a)) as [(p & ? & ?)%Exists_exists|Hno]; [by exists p|].
  exfalso. assert (NoDup (a ++ b)) as Hab.
  { apply NoDup_app. split_and!; [done| |done]. intros p Hp Hpb. apply Hno, Exists_exists. by exists p. }
  assert (length (a ++ b) ≤ length pl) as Hle.
  { apply submseteq_length, NoDup_submseteq; [done|]. intros p [?|?]%elem_of_app; auto. }
  rewrite length_app in Hle. lia.
Qed.

(** ** What a quorum read merges *)

Definition answered (rs : list (string * res code (list itemptr))) : list string :=
  fst <$> bfilter (λ x, match x.2 with Ok _ => true | Err _ => false end) rs.

Lemma answered_elem rs p : p ∈ answered rs ↔ ∃ items, (p, Ok items) ∈ rs.
Proof.
  unfold answered. rewrite list_elem_of_fmap. split.
  - intros ([q [items|]] & -> & [Hok Hin]%elem_of_bfilter); [by exists items|done].
  - intros (items & Hin). exists (p, Ok items). split; [done|]. by apply elem_of_bfilter.
Qed.

Lemma get_loop_merges i total needed responses failures merged rs m missed :
  responses < needed →
  get_loop i total needed responses failures merged (arrive rs) = Some (Ok m, missed) →
  ∃ k, needed ≤ responses + length (answered (take k rs)) ∧
    (∀ c, covered c merged → covered c m) ∧
    (∀ p items c, (p, Ok items) ∈ take k rs → covered c items → covered c m).
Proof.
  revert i responses failures merged. induction rs as [|[p r] rs IH]; intros [|i] responses failures merged Hlt; cbn [get_loop]; try done.
  unfold arrive. rewrite fmap_cons. fold (arrive rs). cbn [fst snd]. destruct r as [items|err].
  - assert (∀ c, covered c (MergeSiblings merged items) ↔ covered c merged ∨ covered c items) as Hcov
      by (intros c; apply covered_MergeSiblings).
    destruct (Nat.leb_spec needed (S responses)) as [Hle|Hgt].
    { intros [= <- <-]. exists 1. cbn [take answered]. split_and!.
      - unfold answered. simpl. lia.
      - intros c Hc. apply Hcov. by left.
      - intros q its c [= -> ->]%list_elem_of_singleton Hc. apply Hcov. by right. }
    destruct (_ <? needed); [done|]. intros Hg. destruct (IH _ _ _ _ Hgt Hg) as (k & Hk & Hm & Hall). exists (S k). split_and!.
    + unfold answered in *. cbn [take bfilter snd fmap list_fmap length]. lia.
    + intros c Hc. apply Hm, Hcov. by left.
    + intros q its c [[= -> ->]|Hin]%elem_of_cons Hc; [apply Hm, Hcov; by right|by eapply Hall].
  - rewrite (proj2 (Nat.leb_gt _ _) Hlt). destruct (_ <? needed); [done|]. intros Hg.
    destruct (IH _ _ _ _ Hlt Hg) as (k & Hk & Hm & Hall). exists (S k). split_and!; [done|done|].
    intros q its c [[=]|Hin]%elem_of_cons Hc. by eapply Hall.
Qed.

Section quorum.
Context {P IO E : Type} `{!Persister P IO E} `{!PersisterSpec P IO E}.
Context {H IOH EH : Type} `{!Persister H IOH EH}.
Implicit Types (n nw nr : Node P H) (env : put_env P IO H IOH) (ds : DataStore P) (key : string).

(** What can happen to a replica's store, as long as [key] is not rolled back:
    writes of any key, each one [Put] of its persister with any outcome (as in
    [DataStore.Put], [Delete] and [MergeReplicated]), and restores of other
    keys ([RestoreVersions]). *)
Inductive store_run (key : string) : DataStore P → DataStore P → Prop :=
  | sr_refl ds : store_run key ds ds
  | sr_write ds io k item p err ds' :
      p_accepts (persister ds) k item → p_Put io (persister ds) k item = (p, err) →
      store_run key (set_persister ds p) ds' → store_run key ds ds'
  | sr_restore ds io k items ds1 err ds' :
      k ≠ key → p_restorable io (persister ds) k (reversed items) → RestoreVersions io ds k items = (ds1, err) →
      store_run key ds1 ds' → store_run key ds ds'.

Lemma write_covers ds io key item p err :
  p_ok (persister ds) → p_accepts (persister ds) key item → p_Put io (persister ds) key item = (p, err) →
  p_ok p ∧ (∀ k c, covered c (siblings ds k) → covered c (siblings (set_persister ds p) k)) ∧
  (err = None → covered (clock item) (siblings (set_persister ds p) key)).
Proof.
  intros Hok Hacc Hput. pose proof (p_puts io (persister ds) key item Hok Hacc) as Hp. rewrite Hput in Hp.
  unfold siblings. cbn [persister set_persister]. destruct err as [err|].
  - destruct Hp as [Hok' Hsame]. split_and!; [done| |done]. intros k c. by rewrite Hsame.
  - destruct Hp as (Hok' & Hother & _ & Hcov). split_and!; [done| |].
    + intros k c. destruct (decide (k = key)) as [->|Hk]; [|by rewrite Hother].
      rewrite !covered_rev, Hcov. by left.
    + intros _. rewrite covered_rev, Hcov. right. reflexivity.
Qed.

Lemma restore_keeps ds io k items ds1 err :
  p_ok (persister ds) → p_restorable io (persister ds) k (reversed items) → RestoreVersions io ds k items = (ds1, err) →
  p_ok (persister ds1) ∧ ∀ k', k' ≠ k → siblings ds1 k' = siblings ds k'.
Proof.
  intros Hok Hres. unfold RestoreVersions. pose proof (p_restores io (persister ds) k (reversed items) Hok Hres) as Hr.
  destruct (p_Restore _ _ _ _) as [p [e|]]; intros [= <- _]; unfold siblings; cbn [persister set_persister];
    destruct Hr as [Hok' Hr]; [|destruct Hr as [Hr _]]; (split; [done|]); intros k' Hk; by rewrite Hr.
Qed.

Lemma store_run_covers key ds ds' c :
  store_run key ds ds' → p_ok (persister ds) → covered c (siblings ds key) →
  p_ok (persister ds') ∧ covered c (siblings ds' key).
Proof.
  induction 1 as [ds|ds io k item p err ds' Hacc Hput _ IH|ds io k items ds1 err ds' Hk Hres Hre _ IH]; intros Hok Hc; [done| |].
  - destruct (write_covers _ _ _ _ _ _ Hok Hacc Hput) as (Hok1 & Hmono & _). by apply IH; [|apply Hmono].
  - destruct (restore_keeps _ _ _ _ _ _ Hok Hres Hre) as [Hok1 Hsame]. apply IH; [done|]. by rewrite Hsame.
Qed.

(** [MergeReplicated], [Put] and [Delete] are such writes. *)
Lemma MergeReplicated_run key io ds k item ds' err :
  p_accepts (persister ds) k item → MergeReplicated io ds k item = (ds', err) → store_run key ds ds'.
Proof.
  intros Hacc. unfold MergeReplicated. destruct (p_Put _ _ _ _) as [p e] eqn:Hput. intros [= <- _].
  eapply sr_write; [exact Hacc|exact Hput|constructor].
Qed.

Lemma Put_run key io a new ds k value context ds' r :
  p_ok (persister ds) →
  p_accepts (persister ds) k
    (mkPtr new (mkItem value (BuildFromContext (write_base ds k context) (clockID ds)) (Datastore.id ds) false)) →
  Datastore.Put io a new ds k value context = (ds', r) → store_run key ds ds'.
Proof.
  intros Hok Hacc. unfold Datastore.Put. pose proof (Put_base a ds k context Hok) as Hb.
  destruct (match context with Some c => _ | None => _ end) as [base|]; [|intros [= <- _]; constructor]. rewrite Hb.
  destruct (p_Put _ _ _ _) as [p e] eqn:Hput. intros Hr. eapply sr_write; [apply Hacc|exact Hput|].
  destruct e; injection Hr as <- _; constructor.
Qed.

Lemma Delete_run key io a new ds k context ds' r :
  p_ok (persister ds) →
  p_accepts (persister ds) k
    (mkPtr new (mkItem VNil (BuildFromContext (write_base ds k context) (clockID ds)) (Datastore.id ds) true)) →
  Datastore.Delete io a new ds k context = (ds', r) → store_run key ds ds'.
Proof.
  intros Hok Hacc. unfold Datastore.Delete. pose proof (load_siblings a ds k Hok) as Hl.
  destruct (load a ds k) as [[existing []]|]; try (intros [= <- _]; constructor).
  destruct Hl as [Hv _].
  assert (default (UnionVectorClock existing) context = write_base ds k context) as ->
    by (unfold write_base; by rewrite union_siblings, Hv).
  destruct (p_Put _ _ _ _) as [p e] eqn:Hput. intros Hr. eapply sr_write; [apply Hacc|exact Hput|].
  destruct e; injection Hr as <- _; constructor.
Qed.

(** A replica that accepted an item holds it. *)
Lemma Replicate_covers (halted : E → bool) (io : N → IO) ds key item ds' :
  p_ok (persister ds) → p_accepts (persister ds) key item →
  Replicate halted io ds key [Some item] = (ds', None) →
  p_ok (persister ds') ∧ covered (clock item) (siblings ds' key).
Proof.
  intros Hok Hacc. cbn [Replicate replicate_loop]. unfold MergeReplicated.
  destruct (p_Put (io 0%N) (persister ds) key item) as [p err] eqn:Hput.
  destruct (write_covers _ _ _ _ _ _ Hok Hacc Hput) as (Hok' & _ & Hc).
  destruct err; [done|]. intros [= <-]. split; [done|by apply Hc].
Qed.

Lemma Put_covers io a new ds key value ctx ds' item :
  p_ok (persister ds) → p_accepts (persister ds) key item → Datastore.Put io a new ds key value ctx = (ds', Some item) →
  p_ok (persister ds') ∧ covered (clock item) (siblings ds' key).
Proof.
  intros Hok Hacc. unfold Datastore.Put. destruct (match ctx with Some c => _ | None => _ end) as [base|]; [|done].
  destruct (p_Put _ _ _ _) as [p err] eqn:Hput. destruct err; [done|]. intros [= <- Hi]. rewrite Hi in Hput.
  destruct (write_covers _ _ _ _ _ _ Hok Hacc Hput) as (Hok' & _ & Hc). split; [done|by apply Hc].
Qed.

Lemma Put_effect io a new ds key value ctx ds' item :
  p_ok (persister ds) → p_accepts (persister ds) key item → Datastore.Put io a new ds key value ctx = (ds', Some item) →
  p_ok (persister ds') ∧ ∀ k, k ≠ key → siblings ds' k = siblings ds k.
Proof.
  intros Hok Hacc. unfold Datastore.Put. destruct (match ctx with Some c => _ | None => _ end) as [base|]; [|done].
  destruct (p_Put _ _ _ _) as [p err] eqn:Hput. destruct err; [done|]. intros [= <- Hi]. rewrite Hi in Hput.
  pose proof (p_puts io (persister ds) key item Hok Hacc) as Hp. rewrite Hput in Hp. destruct Hp as (Hok' & Hother & _).
  split; [done|]. intros k Hk. unfold siblings. cbn [persister set_persister]. by rewrite Hother.
Qed.

(** A store answers a read with its siblings. *)
Lemma fetch_siblings a ds key items found :
  p_ok (persister ds) → FetchItem a ds key = Ok (items, found) → deref <$> items = siblings ds key.
Proof.
  intros Hok. unfold FetchItem, Datastore.Get. pose proof (load_siblings a ds key Hok) as Hl.
  destruct (load a ds key) as [[its []]|]; [| |done]; intros [= <- <-]; destruct Hl as [Hv Hf]; [done|].
  destruct (siblings ds key); [done|]. discriminate (proj2 Hf ltac:(done)).
Qed.

Lemma Get_merges a n key qs n' merged isReplica peers :
  isReplicaFor n key = (isReplica, peers) → Get a n key (arrive qs) = Some (n', Ok merged) →
  ∃ k, QR (quorum n) ≤ (if isReplica then 1 else 0) + length (answered (take k qs)) ∧
    (∀ p items c, (p, Ok items) ∈ take k qs → covered c items → covered c merged) ∧
    (isReplica = true → QR (quorum n) ≤ length (answered (take k qs)) ∨
       ∃ local found, Datastore.Get a (Store n) key = Ok (local, found) ∧ ∀ c, covered c local → covered c merged).
Proof.
  intros Hr. unfold Get. rewrite Hr. destruct isReplica.
  - destruct (Datastore.Get a (Store n) key) as [[local found]|err].
    + destruct (Nat.leb_spec (QR (quorum n)) 1) as [Hle|Hgt].
      { intros [= <- <-]. exists 0. rewrite take_0. split_and!; [simpl; lia|set_solver|]. right. eauto. }
      destruct (get_loop _ _ _ _ _ _ _) as [[r missed]|] eqn:Hg; [|done]. intros [= _ ->].
      destruct (get_loop_merges _ _ _ _ _ _ _ _ _ Hgt Hg) as (k & Hk & Hm & Hall). exists k. split_and!; [done|done|].
      right. eauto.
    + destruct (Nat.leb_spec (QR (quorum n)) 0) as [Hle|Hgt].
      { intros [= <- <-]. exists 0. rewrite take_0. split_and!; [simpl; lia|set_solver|]. left. lia. }
      destruct (get_loop _ _ _ _ _ _ _) as [[r missed]|] eqn:Hg; [|done]. intros [= _ ->].
      destruct (get_loop_merges _ _ _ _ _ _ _ _ _ Hgt Hg) as (k & Hk & Hm & Hall). exists k. split_and!; [lia|done|].
      left. lia.
  - destruct (Nat.leb_spec (QR (quorum n)) 0) as [Hle|Hgt].
    { intros [= <- <-]. exists 0. rewrite take_0. split_and!; [simpl; lia|set_solver|done]. }
    destruct (get_loop _ _ _ _ _ _ _) as [[r missed]|] eqn:Hg; [|done]. intros [= _ ->].
    destruct (get_loop_merges _ _ _ _ _ _ _ _ _ Hgt Hg) as (k & Hk & Hm & Hall). exists k. by split_and!.
Qed.

Lemma put_acknowledged env n key value ctx peers rs n' :
  e_arrivals env = arrive rs → rs.*1 ≡ₚ peers →
  putAsReplica env n key value ctx peers = Some (n', None) → QW (quorum n) ≤ 1 + acks rs.
Proof.
  intros He Hp. unfold putAsReplica. destruct (Datastore.Get _ _ _) as [[prev found]|]; [|done].
  destruct (Datastore.Put _ _ _ _ _ _ _) as [ds [item|]]; [|done]. rewrite He.
  destruct (decide_write_spec peers (QW (quorum n)) rs Hp) as (v & t & rest & -> & -> & _).
  destruct (Nat.leb_spec (QW (quorum n)) (1 + acks rs)); [done|].
  destruct (RestoreVersions _ _ _ _). by intros [=].
Qed.

(** The replicas that acknowledged a write. *)
Definition ackers (self : string) (rs : list (string * option code)) : list string :=
  self :: (fst <$> bfilter (λ x, match x.2 with None => true | Some _ => false end) rs).

Lemma ackers_elem self rs p : p ∈ ackers self rs ↔ p = self ∨ (p, None) ∈ rs.
Proof.
  unfold ackers. rewrite elem_of_cons, list_elem_of_fmap. apply or_iff_compat_l. split.
  - intros ([q [c|]] & -> & [Hok Hin]%elem_of_bfilter); done.
  - intros Hin. exists (p, None). split; [done|]. by apply elem_of_bfilter.
Qed.

Lemma filtered_nodup {A} (f : string * A → bool) (rs : list (string * A)) k :
  NoDup rs.*1 → NoDup (fst <$> bfilter f (take k rs)).
Proof.
  intros Hnd. eapply sublist_NoDup; [exact Hnd|]. apply (fmap_sublist fst).
  etrans; [apply bfilter_sublist|apply sublist_take].
Qed.

Lemma ackers_quorum self pl peers rs :
  NoDup pl → split_self self pl = (true, peers) → rs.*1 ≡ₚ peers →
  NoDup (ackers self rs) ∧ (∀ p, p ∈ ackers self rs → p ∈ pl) ∧ length (ackers self rs) = 1 + acks rs.
Proof.
  intros Hnd Hs Hp. destruct (split_self_spec _ _ _ _ Hnd Hs) as (Hself & Hnp & Hel & _).
  assert (∀ p err, (p, err) ∈ rs → p ∈ pl ∧ p ≠ self) as Hin.
  { intros p err Hr. apply Hel. rewrite <-Hp. by apply (list_elem_of_fmap_2 fst) in Hr. }
  split_and!.
  - unfold ackers. constructor.
    + intros ([q err] & -> & [_ Hr]%elem_of_bfilter)%list_elem_of_fmap. by apply Hin in Hr as [_ ?].
    + rewrite <-(firstn_all rs). apply filtered_nodup. by rewrite Hp.
  - intros p [->|Hr]%ackers_elem; [by apply Hself|by apply Hin in Hr as [? _]].
  - unfold ackers. cbn [length]. by rewrite length_fmap.
Qed.

(** Who a quorum read heard: the peers that answered, and the node itself if it
    is a replica whose own read worked. *)
Lemma readers_quorum self pl isReplica peers (qs : list (string * res code (list itemptr))) k :
  NoDup pl → split_self self pl = (isReplica, peers) → qs.*1 ≡ₚ peers →
  NoDup (answered (take k qs)) ∧ (∀ p, p ∈ answered (take k qs) → p ∈ pl ∧ p ≠ self).
Proof.
  intros Hnd Hs Hp. destruct (split_self_spec _ _ _ _ Hnd Hs) as (Hself & Hnp & Hel & _). split.
  - apply filtered_nodup. by rewrite Hp.
  - intros p (items & Hin)%answered_elem. apply Hel. rewrite <-Hp. apply elem_of_take in Hin as (i & Hi & _).
    apply list_elem_of_lookup_2 in Hi. by apply (list_elem_of_fmap_2 fst) in Hi.
Qed.



(** A write that misses its quorum is undone.  If nothing else touched
    the key's versions while it waited and the rollback reports no error, the
    store holds for every key exactly the versions it held before. *)
Theorem missed_write_undone env n key (value : value) (context : option (gmap string N)) (peers : list string)
    (prev : list itemptr) (found : bool) ds (item : itemptr) n' s total needed :
  p_ok (persister (Store n)) → p_accepts (persister (Store n)) key item →
  Datastore.Get (e_read env) (Store n) key = Ok (prev, found) →
  Datastore.Put (e_put env) (e_read env) (e_new env) (Store n) key value context = (ds, Some item) →
  p_restorable (e_restore env) (persister ds) key (reversed prev) →
  (∀ m, Store (e_meanwhile env m) = Store m) →
  putAsReplica env n key value context peers = Some (n', Some (WriteQuorum s total needed None)) →
  ∀ k, siblings (Store n') k = siblings (Store n) k.
Proof.
  intros Hok Hacc Hget Hput Hres Hmean Hrun k.
  destruct (Put_effect _ _ _ _ _ _ _ _ _ Hok Hacc Hput) as [Hok1 Hother].
  assert (∃ rollback, RestoreVersions (e_restore env) ds key prev = (Store n', rollback) ∧ rollback = None) as (rollback & HR & ->).
  { unfold putAsReplica in Hrun. rewrite Hget, Hput in Hrun.
    destruct (decide_write _ _ _) as [[[[] t] rest]|]; [done| |done|done]. unfold drainReplication in Hrun.
    assert (Store (e_meanwhile env (set_Store n ds)) = ds) as Hm by (by rewrite Hmean).
    destruct (drainClosing _); cbn [Store set_failures] in Hrun; rewrite Hm in Hrun;
      destruct (RestoreVersions _ _ _ _) as [ds' rb]; injection Hrun as <- _ _ _ ->; by eexists. }
  unfold RestoreVersions in HR. pose proof (p_restores _ _ _ _ Hok1 Hres) as Hr.
  destruct (p_Restore _ _ _ _) as [p [err|]]; [done|]. injection HR as <-. destruct Hr as (_ & Hkeep & Hkey).
  unfold siblings. cbn [persister set_persister]. destruct (decide (k = key)) as [->|Hk].
  - rewrite Hkey. pose proof (load_siblings (e_read env) (Store n) key Hok) as Hl. unfold Datastore.Get in Hget.
    rewrite Hget in Hl. destruct Hl as [Hv _]. unfold siblings in Hv. rewrite <-Hv. unfold reversed.
    rewrite <-map_rev. by rewrite rev_involutive.
  - rewrite Hkeep by done. f_equal. pose proof (Hother k Hk) as Ho. unfold siblings in Ho.
    apply (f_equal (@rev _)) in Ho. by rewrite !rev_involutive in Ho.
Qed.

(** *** Forwarding *)

(** The two answers that mean the write was not applied. *)
Definition refused (x : forward_answer) : Prop :=
  x = Answer (Some Unavailable) ∨ x = Answer (Some FailedPrecondition).

Definition forward_fine n (answer : string → forward_answer) (replicas : list string) (r : forward_result)
    (sent : list string) : Prop :=
  sent `sublist_of` replicas ∧ (∀ p, p ∈ sent → isDead n p = false ∧ answer p ≠ NoClient) ∧
  (∀ i p, sent !! i = Some p → S i < length sent → refused (answer p)) ∧
  match r with
  | Forwarded => ∃ p, last sent = Some p ∧ answer p = Answer None
  | ForwardFailed p c =>
      last sent = Some p ∧ answer p = Answer (Some c) ∧ c ≠ Unavailable ∧ c ≠ FailedPrecondition
  | NoReplica => ∀ p, p ∈ replicas → isDead n p = true ∨ answer p = NoClient ∨ refused (answer p)
  end.

Lemma forward_skips n answer p rest r sent :
  isDead n p = true ∨ answer p = NoClient → forward_fine n answer rest r sent → forward_fine n answer (p :: rest) r sent.
Proof.
  intros Hp (H1 & H2 & H3 & H4). split_and!; [by constructor|done|done|]. destruct r; [done|done|].
  intros q [->|Hq]%elem_of_cons; [tauto|by apply H4].
Qed.

Lemma forward_moves_on n answer p rest r sent :
  isDead n p = false → refused (answer p) → forward_fine n answer rest r sent →
  forward_fine n answer (p :: rest) r (p :: sent).
Proof.
  intros Hd Hp (H1 & H2 & H3 & H4). split_and!.
  - by constructor.
  - intros q [->|Hq]%elem_of_cons; [|by apply H2]. split; [done|]. by destruct Hp as [-> | ->].
  - intros [|i] q; cbn [lookup list_lookup length]; [by intros [= <-] _|]. intros Hi Hlen. apply (H3 i); [done|lia].
  - destruct r as [|q c|].
    + destruct H4 as (q & Hl & Hq). exists q. split; [|done]. by rewrite last_cons, Hl.
    + destruct H4 as (Hl & Hq). split; [|done]. by rewrite last_cons, Hl.
    + intros q [->|Hq]%elem_of_cons; [tauto|by apply H4].
Qed.

Lemma forward_ends n answer p rest r err :
  isDead n p = false → answer p = Answer err → r = match err with None => Forwarded | Some c => ForwardFailed p c end →
  err ≠ Some Unavailable → err ≠ Some FailedPrecondition → forward_fine n answer (p :: rest) r [p].
Proof.
  intros Hd Ha -> Hu Hf. split_and!; [apply sublist_skip, sublist_nil_l| |intros [|i] q; simpl; [lia|done]|].
  - intros q ->%list_elem_of_singleton. by rewrite Ha.
  - destruct err as [c|]; [|by exists p]. split_and!; [done|done|congruence|congruence].
Qed.

Lemma forward_loop_fine n answer replicas :
  forward_fine n answer replicas (forward_loop n answer replicas).1 (forward_loop n answer replicas).2.
Proof.
  induction replicas as [|p rest IH]; cbn [forward_loop].
  { split_and!; [constructor|set_solver|done|set_solver]. }
  destruct (isDead n p) eqn:Hd; [apply forward_skips; [by left|done]|].
  destruct (answer p) as [|[c|]] eqn:Ha; [apply forward_skips; [by right|done]| |by apply (forward_ends n answer p rest _ None)].
  destruct (forward_loop n answer rest) as [r sent]. destruct c.
  1, 3: apply forward_moves_on; [done|unfold refused; rewrite Ha; tauto|done].
  all: by eapply (forward_ends n answer p rest _ (Some _)).
Qed.

(** A forwarded write is sent on only while it was certainly not applied.
    The replicas that [forwardPut] sends the write to are tried in
    preference-list order; all but the last answered [Unavailable] or refused
    the key; it reports success exactly if the last one returned no error, and
    that no replica took it only if each one was marked dead, had no client,
    or answered one of those two ways. *)
Theorem forward_put_applied_once n (answer : string → forward_answer) (replicas : list string) :
  let '(r, sent) := forward_loop n answer replicas in
  sent `sublist_of` replicas ∧ (∀ p, p ∈ sent → isDead n p = false ∧ answer p ≠ NoClient) ∧
  (∀ i p, sent !! i = Some p → S i < length sent →
     refused (answer p)) ∧
  match r with
  | Forwarded => ∃ p, last sent = Some p ∧ answer p = Answer None
  | ForwardFailed p c =>
      last sent = Some p ∧ answer p = Answer (Some c) ∧ c ≠ Unavailable ∧ c ≠ FailedPrecondition
  | NoReplica =>
      ∀ p, p ∈ replicas → isDead n p = true ∨ answer p = NoClient ∨ refused (answer p)
  end.
Proof. pose proof (forward_loop_fine n answer replicas) as Hf. by destruct (forward_loop n answer replicas). Qed.
End quorum.

(** ** The theorems at concrete clusters *)

Abbreviation mem := (gmap string (list itemptr)).

Definition w_node (i : string) (ds : mem) : Node mem mem :=
  mkNode i (mkQuorum 3 2 2) ring_example (NewDataStoreWithPersister i ds) (mkHints ∅ 0 0) ∅ false 0 0.

(** [kv-0] writes: [kv-2] acknowledges, [kv-1] is down. *)
Definition w_rs : list (string * option code) := [("kv-1"%string, Some Unavailable); ("kv-2"%string, None)].
Definition w_env : put_env mem unit mem unit := mkPutEnv 0 1 () () (λ _, ()) (arrive w_rs) (λ m, m).
Definition w_written : itemptr := mkPtr 1 (mkItem (VString "hi") (mkVC {["kv-0" := 1%N]}) "kv-0" false).
Definition w_held : mem := {["greeting" := [w_written]]}.

Definition w_replica (p : string) : DataStore mem :=
  NewDataStoreWithPersister p (if decide (p = "kv-1"%string) then ∅ else w_held).

(** [kv-1], back again, reads; [kv-2] answers first. *)
Definition w_qs : list (string * res code (list itemptr)) :=
  [("kv-2"%string, Ok [w_written]); ("kv-0"%string, Err Unavailable)].

Lemma w_held_ok : mem_ok w_held.
Proof. exact (proj1 (mem_puts ∅ "greeting" w_written mem_ok_empty)). Qed.

Lemma w_replica_ok p : p_ok (persister (w_replica p)).
Proof. unfold w_replica. destruct (decide _); [apply mem_ok_empty|apply w_held_ok]. Qed.



(** [kv-0] writes on top of a version and no peer answers. *)
Definition w_lost : list (string * option code) := [("kv-1"%string, Some Unavailable); ("kv-2"%string, Some Unavailable)].
Definition w_env_lost (meanwhile : Node mem mem → Node mem mem) : put_env mem unit mem unit :=
  mkPutEnv 0 2 () () (λ _, ()) (arrive w_lost) meanwhile.
Definition w_next : itemptr := mkPtr 2 (mkItem (VString "ho") (mkVC {["kv-0" := 2%N]}) "kv-0" false).

Lemma missed_write_undone_witness :
  ∃ n' s total needed rb,
    putAsReplica (w_env_lost (λ m, m)) (w_node "kv-0" w_held) "greeting" (VString "ho") None ["kv-2"; "kv-1"] =
      Some (n', Some (WriteQuorum s total needed rb)) ∧
    ∀ k, siblings (Store n') k = siblings (Store (w_node "kv-0" w_held)) k.
Proof.
  do 5 eexists. split; [vm_compute; reflexivity|]. intros k.
  eapply (missed_write_undone (w_env_lost (λ m, m)) (w_node "kv-0" w_held) "greeting" (VString "ho") None
    ["kv-2"%string; "kv-1"%string] [w_written] true (NewDataStoreWithPersister "kv-0" {["greeting" := [w_next]]}) w_next);
    [apply w_held_ok|exact I|vm_compute; reflexivity|vm_compute; reflexivity|repeat constructor|reflexivity|vm_compute; reflexivity].
Defined.

(** A rollback undoes a write that landed meanwhile.  [kv-2] coordinates
    a write that reaches no peer; while it waits, it accepts and acknowledges
    a replicated version from [kv-0].  The rollback restores what was read
    before, and the acknowledged version is gone from [kv-2]. *)
Theorem rollback_removes_concurrent_write :
  let n := w_node "kv-2" ∅ in
  let replicate ds := Replicate (λ _, false) (λ _, ()) ds "greeting" [Some w_written] in
  let env := w_env_lost (λ m, set_Store m (replicate (Store m)).1) in
  let ds := (Datastore.Put (e_put env) (e_read env) (e_new env) (Store n) "greeting" (VString "ho") None).1 in
  (replicate ds).2 = None ∧ deref w_written ∈ siblings (replicate ds).1 "greeting" ∧
  match putAsReplica env n "greeting" (VString "ho") None ["kv-0"; "kv-1"] with
  | Some (n', Some (WriteQuorum _ _ _ None)) => siblings (Store n') "greeting" = []
  | _ => False
  end.
Proof.
  intros n replicate env ds. split; [vm_compute; reflexivity|]. split; [vm_compute; right; left|].
  vm_compute. reflexivity.
Qed.
