(* ===== verification/Sha256.v ===== *)
(** * SHA-256 (crypto/sha256)

    The digest that Merkle trees and membership fingerprints use. *)

From stdpp Require Import base list strings.
From Stdlib Require Import ZArith Lia Ascii.
From S2P Require Import Prelude GoLib.

Local Open Scope N_scope.

Definition rotr (n x : N) : N := N.lor (N.shiftr x n) (u32 (N.shiftl x (32 - n))).
Definition not32 (x : N) : N := N.lxor x 4294967295.

Definition round_constants : list N := [
  1116352408; 1899447441; 3049323471; 3921009573; 961987163; 1508970993; 2453635748; 2870763221;
  3624381080; 310598401; 607225278; 1426881987; 1925078388; 2162078206; 2614888103; 3248222580;
  3835390401; 4022224774; 264347078; 604807628; 770255983; 1249150122; 1555081692; 1996064986;
  2554220882; 2821834349; 2952996808; 3210313671; 3336571891; 3584528711; 113926993; 338241895;
  666307205; 773529912; 1294757372; 1396182291; 1695183700; 1986661051; 2177026350; 2456956037;
  2730485921; 2820302411; 3259730800; 3345764771; 3516065817; 3600352804; 4094571909; 275423344;
  430227734; 506948616; 659060556; 883997877; 958139571; 1322822218; 1537002063; 1747873779;
  1955562222; 2024104815; 2227730452; 2361852424; 2428436474; 2756734187; 3204031479; 3329325298 ].

Definition initial_state : list N :=
  [1779033703; 3144134277; 1013904242; 2773480762; 1359893119; 2600822924; 528734635; 1541459225].

(** The message, a one bit, zeros, and the length in bits: whole blocks. *)
Definition pad (m : bytes) : bytes :=
  let n := N.of_nat (length m) in
  let zeros := N.to_nat ((55 + 64 - n mod 64) mod 64) in
  m ++ ascii_of_N 128 :: replicate zeros (ascii_of_N 0) ++ PutUint64 (u64 (8 * n)).

Fixpoint chunks (k fuel : nat) (l : bytes) : list bytes :=
  match fuel, l with
  | S fuel', _ :: _ => take k l :: chunks k fuel' (drop k l)
  | _, _ => []
  end.

Definition small0 (x : N) : N := N.lxor (rotr 7 x) (N.lxor (rotr 18 x) (N.shiftr x 3)).
Definition small1 (x : N) : N := N.lxor (rotr 17 x) (N.lxor (rotr 19 x) (N.shiftr x 10)).
Definition big0 (x : N) : N := N.lxor (rotr 2 x) (N.lxor (rotr 13 x) (rotr 22 x)).
Definition big1 (x : N) : N := N.lxor (rotr 6 x) (N.lxor (rotr 11 x) (rotr 25 x)).

(** The schedule, newest word first. *)
Fixpoint extend (k : nat) (w : list N) : list N :=
  match k with
  | O => w
  | S k' =>
      let word i := nth i w 0 in
      extend k' (u32 (small1 (word 1%nat) + word 6%nat + small0 (word 14%nat) + word 15%nat) :: w)
  end.

Definition schedule (block : bytes) : list N := rev (extend 48 (rev (be_get <$> chunks 4 16 block))).

Definition round (s : list N) (kw : N * N) : list N :=
  match s with
  | [a; b; c; d; e; f; g; h] =>
      let t1 := h + big1 e + N.lxor (N.land e f) (N.land (not32 e) g) + kw.1 + kw.2 in
      let t2 := big0 a + N.lxor (N.land a b) (N.lxor (N.land a c) (N.land b c)) in
      [u32 (t1 + t2); a; b; c; u32 (d + t1); e; f; g]
  | _ => s
  end.

Definition compress (s : list N) (block : bytes) : list N :=
  zip_with (λ x y, u32 (x + y)) s (fold_left round (zip round_constants (schedule block)) s).

Definition sha256 (m : bytes) : bytes :=
  let p := pad m in
  concat (PutUint32 <$> fold_left compress (chunks 64 (length p) p) initial_state).

(** [hex.EncodeToString] *)
Definition hex_digit (n : N) : ascii :=
  ascii_of_N (if n <? 10 then 48 + n else 87 + n).
Definition hex_encode (b : bytes) : string :=
  of_bytes (b ≫= λ c, [hex_digit (N.shiftr (N_of_ascii c) 4); hex_digit (N.land (N_of_ascii c) 15)]).

(** The standard's test vectors. *)
Example sha256_empty : hex_encode (sha256 []) = "e3b0c44298fc1c149afbf4c8996fb92427ae41e4649b934ca495991b7852b855"%string.
Proof. vm_compute. reflexivity. Qed.

Example sha256_abc : hex_encode (sha256 (to_bytes "abc")) = "ba7816bf8f01cfea414140de5dae2223b00361a396177a9cb410ff61f20015ad"%string.
Proof. vm_compute. reflexivity. Qed.

Example sha256_two_blocks :
  hex_encode (sha256 (to_bytes "abcdbcdecdefdefgefghfghighijhijkijkljklmklmnlmnomnopnopq")) =
    "248d6a61d20638b8e5c026930c3e6039a33ce45964ff2167f6ecedd419db06c1"%string.
Proof. vm_compute. reflexivity. Qed.

(** ** Digests as text *)

Definition hex_pair (c : ascii) : bytes := [hex_digit (N.shiftr (N_of_ascii c) 4); hex_digit (N.land (N_of_ascii c) 15)].

Definition hex_value (c : ascii) : N := if (N_of_ascii c <? 58)%N then (N_of_ascii c - 48)%N else (N_of_ascii c - 87)%N.
Definition unhex_pair (x y : ascii) : ascii := ascii_of_N (hex_value x * 16 + hex_value y).

Lemma unhex_hex_pair c :
  unhex_pair (hex_digit (N.shiftr (N_of_ascii c) 4)) (hex_digit (N.land (N_of_ascii c) 15)) = c.
Proof. destruct c as [[] [] [] [] [] [] [] []]; vm_compute; reflexivity. Qed.

Fixpoint unhex_all (b : bytes) : bytes :=
  match b with
  | x :: y :: b' => unhex_pair x y :: unhex_all b'
  | _ => []
  end.

Lemma hex_encode_inj b b' : hex_encode b = hex_encode b' → b = b'.
Proof.
  assert (∀ l, unhex_all (l ≫= hex_pair) = l) as Hl.
  { intros l. induction l as [|c l IH]; [done|]. change ((c :: l) ≫= hex_pair) with (hex_pair c ++ (l ≫= hex_pair)).
    unfold hex_pair at 1. cbn [app unhex_all]. by rewrite unhex_hex_pair, IH. }
  intros Heq. apply (f_equal to_bytes) in Heq. unfold hex_encode in Heq. rewrite !to_of_bytes in Heq.
  change (b ≫= hex_pair = b' ≫= hex_pair) in Heq. by rewrite <-(Hl b), <-(Hl b'), Heq.
Qed.
