(* ===== verification/Merkle.v ===== *)
(** * Merkle trees (internal/merkle/merkle.go)

    The tree of bucket hashes that two replicas compare: its construction over
    a store, the comparison, and what a match or a difference says about the
    stores. *)

From stdpp Require Import gmap strings list sorting pretty.
From Stdlib Require Import ZArith Lia Ascii.
From S2P Require Import Prelude GoLib VectorClock Versioning Json Datastore Sha256.

Inductive merkle_error (E : Type) :=
  | NotPositive (n : Z)
  | NotPowerOfTwo (n : Z)
  | OddExponent (n exponent : Z)
  | MarshalPanic
  | ListKeys (e : E)
  | ReadKey (key : string) (e : E).
Arguments NotPositive {E} n.
Arguments NotPowerOfTwo {E} n.
Arguments OddExponent {E} n exponent.
Arguments MarshalPanic {E}.
Arguments ListKeys {E} e.
Arguments ReadKey {E} key e.

(** ** Shape *)

Definition validateBucketCount {E} (numBuckets : Z) : option (merkle_error E) :=
  if (numBuckets <? 1)%Z then Some (NotPositive numBuckets)
  else if negb (Z.land numBuckets (numBuckets - 1) =? 0)%Z then Some (NotPowerOfTwo numBuckets)
  else
    let exponent := Z.log2 numBuckets in
    if negb (exponent mod 2 =? 0)%Z then Some (OddExponent numBuckets exponent) else None.

Definition leafIndex (bucketIndex numBuckets : nat) : nat := numBuckets - 1 + bucketIndex.
Definition isLeafIndex (nodeIndex numBuckets : nat) : bool := numBuckets - 1 <=? nodeIndex.
Definition bucketIndexOfLeaf (nodeIndex numBuckets : nat) : nat := nodeIndex - (numBuckets - 1).

Definition BucketFor (key : string) (numBuckets : nat) : nat :=
  N.to_nat (fnv32a (to_bytes key) mod N.of_nat numBuckets).

Abbreviation Hash := bytes.
Definition zeroHash : Hash := replicate 32 "000"%char.

Record Tree := mkTree { NumBuckets : nat; Nodes : list Hash }.

Definition node_at (nodes : list Hash) (i : nat) : Hash := nth i nodes zeroHash.

Definition combineHashes (left right : Hash) : Hash := sha256 (left ++ right).

(** The bottom-up loop: [i] internal nodes left. *)
Fixpoint fill_internal (i : nat) (nodes : list Hash) : list Hash :=
  match i with
  | O => nodes
  | S i' => fill_internal i' (<[i' := combineHashes (node_at nodes (2 * i' + 1)) (node_at nodes (2 * i' + 2))]> nodes)
  end.

(** ** Contents *)

(** [fmt.Sprintf("%v", parts)] *)
Definition sprint_list (parts : list string) : string :=
  "[" +:+ String.concat " " parts +:+ "]".

Section canonical.
Context `{!JsonCodec value}.

Definition canonicalItemString (item : DataItem) : option string :=
  match json_marshal (Value item) with
  | None => None
  | Some valueBytes =>
      let vc := Snapshot (Clock item) in
      let nodes := sort_strings (elements (dom vc)) in
      let vcParts := (λ node, node +:+ ":" +:+ pretty (mget vc node)) <$> nodes in
      Some ("value=" +:+ of_bytes valueBytes +:+ "|vc={" +:+ sprint_list vcParts +:+ "}|by=" +:+ LastUpdatedBy item +:+
            "|deleted=" +:+ (if IsDeleted item then "true" else "false"))
  end.

(** What is written to the hash for one key. *)
Definition key_bytes (key : string) (itemStrings : list string) : bytes :=
  to_bytes key ++ "000"%char :: (sort_strings itemStrings ≫= λ s, to_bytes s ++ ["000"%char]).

Context {P IO E : Type} `{!Persister P IO E}.

Fixpoint hash_loop (a : N) (ds : DataStore P) (keys : list string) (written : bytes) : res (merkle_error E) bytes :=
  match keys with
  | [] => Ok written
  | key :: rest =>
      match Get a ds key with
      | Err err => Err (ReadKey key err)
      | Ok (items, _) =>
          match mapM (λ i, canonicalItemString (deref i)) items with
          | None => Err MarshalPanic
          | Some itemStrings =>
              hash_loop (a + N.of_nat (length items)) ds rest (written ++ key_bytes key itemStrings)
          end
      end
  end.

Definition hashBucketContents (a : N) (ds : DataStore P) (bucketKeys : list string) : res (merkle_error E) Hash :=
  written ←? hash_loop a ds (sort_strings bucketKeys) []; Ok (sha256 written).

(** The keys of each bucket, in the order listed. *)
Definition group_keys (numBuckets : nat) (allKeys : list string) : list (list string) :=
  fold_left (λ bucketKeys k, alter (λ l, l ++ [k]) (BucketFor k numBuckets) bucketKeys) allKeys (replicate numBuckets []).

Fixpoint fill_leaves (a : N) (ds : DataStore P) (numBuckets b : nat) (bucketKeys : list (list string)) (nodes : list Hash)
    : res (merkle_error E) (list Hash) :=
  match bucketKeys with
  | [] => Ok nodes
  | keys :: rest =>
      leaf ←? hashBucketContents a ds keys;
      fill_leaves a ds numBuckets (S b) rest (<[leafIndex b numBuckets := leaf]> nodes)
  end.

Definition Build (a : N) (ds : DataStore P) (n : Z) : res (merkle_error E) Tree :=
  match validateBucketCount n with
  | Some err => Err err
  | None =>
      let numBuckets := Z.to_nat n in
      match Keys ds with
      | Err err => Err (ListKeys err)
      | Ok allKeys =>
          nodes ←? fill_leaves a ds numBuckets 0 (group_keys numBuckets allKeys) (replicate (2 * numBuckets - 1) zeroHash);
          Ok (mkTree numBuckets (fill_internal (numBuckets - 1) nodes))
      end
  end.
End canonical.

(** ** Comparison *)

(** [walk] with its recursion bounded by [fuel]; [None] if that is too little. *)
Fixpoint walk (fuel : nat) (local remote : Tree) (nodeIndex : nat) : option (list nat) :=
  match fuel with
  | O => None
  | S fuel' =>
      if decide (node_at (Nodes local) nodeIndex = node_at (Nodes remote) nodeIndex) then Some []
      else if isLeafIndex nodeIndex (NumBuckets local) then Some [bucketIndexOfLeaf nodeIndex (NumBuckets local)]
      else
        l ← walk fuel' local remote (2 * nodeIndex + 1);
        r ← walk fuel' local remote (2 * nodeIndex + 2);
        Some (l ++ r)
  end.

(** The height of a tree of as many leaves is enough; [None] is the panic over
    trees of different sizes. *)
Definition DivergentBuckets (local remote : Tree) : option (list nat) :=
  if NumBuckets local =? NumBuckets remote then walk (NumBuckets local) local remote 0 else None.

(** ** Bucket counts *)

Lemma land_pred_pow2 n : (1 ≤ n)%Z → Z.land n (n - 1) = 0%Z ↔ n = (2 ^ Z.log2 n)%Z.
Proof.
  intros Hn. pose proof (Z.log2_nonneg n) as He. pose proof (Z.log2_spec n ltac:(lia)) as [Hlo Hhi].
  set (e := Z.log2 n) in *. split.
  - intros Hz. destruct (Z.eq_dec n (2 ^ e)) as [|Hne]; [done|]. exfalso.
    assert (Z.testbit (Z.land n (n - 1)) e = true) as Hb.
    { rewrite Z.land_spec, andb_true_iff. split; [apply Z.bit_log2; lia|].
      assert (e = Z.log2 (n - 1)) as ->; [|apply Z.bit_log2; lia].
      symmetry. apply Z.log2_unique; [done|]. split; [lia|]. rewrite <-Z.add_1_r in Hhi |- *. lia. }
    rewrite Hz, Z.bits_0 in Hb. done.
  - intros E. rewrite E. assert (2 ^ e - 1 = Z.ones e)%Z as -> by (rewrite Z.ones_equiv; lia). rewrite Z.land_ones by done. by rewrite Z.mod_same by (apply Z.pow_nonzero; lia).
Qed.

Lemma validateBucketCount_spec {E} n : validateBucketCount (E := E) n = None ↔ ∃ k, (0 ≤ k)%Z ∧ n = (4 ^ k)%Z.
Proof.
  unfold validateBucketCount. split.
  - destruct (Z.ltb_spec n 1) as [|Hn]; [done|]. destruct (Z.eqb_spec (Z.land n (n - 1)) 0) as [Hl|]; [|done]. cbn [negb].
    destruct (Z.eqb_spec (Z.log2 n mod 2) 0) as [He|]; [|done]. intros _. apply land_pred_pow2 in Hl; [|done].
    exists (Z.log2 n / 2)%Z. pose proof (Z.log2_nonneg n). split; [by apply Z.div_pos|].
    change 4%Z with (2 ^ 2)%Z. rewrite <-Z.pow_mul_r by (try apply Z.div_pos; lia). rewrite Hl at 1. f_equal.
    pose proof (Z.div_mod (Z.log2 n) 2 ltac:(lia)). lia.
  - intros (k & Hk & ->). assert (4 ^ k = 2 ^ (2 * k))%Z as -> by (change 4%Z with (2 ^ 2)%Z; by rewrite <-Z.pow_mul_r by lia).
    pose proof (Z.pow_pos_nonneg 2 (2 * k) ltac:(lia) ltac:(lia)) as Hpos.
    destruct (Z.ltb_spec (2 ^ (2 * k)) 1); [lia|].
    rewrite (proj2 (land_pred_pow2 (2 ^ (2 * k)) ltac:(lia))) by (by rewrite Z.log2_pow2 by lia). cbn [Z.eqb negb].
    rewrite Z.log2_pow2 by lia. rewrite Z.mul_comm, Z.mod_mul by lia. done.
Qed.

(** A valid count is a power of two. *)
Lemma validate_height {E} n : validateBucketCount (E := E) n = None → ∃ L, Z.to_nat n = 2 ^ L.
Proof.
  intros (k & Hk & ->)%validateBucketCount_spec. exists (2 * Z.to_nat k).
  rewrite Nat.pow_mul_r, <-(Z2Nat.id k Hk) at 1. change 4%Z with (Z.of_nat (2 ^ 2)). rewrite <-Nat2Z.inj_pow. by rewrite Nat2Z.id.
Qed.

(** ** Well-formed trees *)

Definition leaf (t : Tree) (b : nat) : Hash := node_at (Nodes t) (leafIndex b (NumBuckets t)).

Record tree_ok (t : Tree) : Prop := {
  tree_height : ∃ L, NumBuckets t = 2 ^ L;
  tree_length : length (Nodes t) = 2 * NumBuckets t - 1;
  tree_nodes i : i < NumBuckets t - 1 →
    node_at (Nodes t) i = combineHashes (node_at (Nodes t) (2 * i + 1)) (node_at (Nodes t) (2 * i + 2))
}.

Lemma node_at_insert nodes i j h :
  i < length nodes → node_at (<[i := h]> nodes) j = if decide (i = j) then h else node_at nodes j.
Proof.
  intros Hi. unfold node_at. rewrite !nth_lookup. destruct (decide (i = j)) as [->|Hne].
  - by rewrite list_lookup_insert_eq.
  - by rewrite list_lookup_insert_ne.
Qed.

Lemma fill_internal_spec i nodes :
  2 * i < length nodes →
  length (fill_internal i nodes) = length nodes ∧
  (∀ j, i ≤ j → node_at (fill_internal i nodes) j = node_at nodes j) ∧
  (∀ j, j < i → node_at (fill_internal i nodes) j =
     combineHashes (node_at (fill_internal i nodes) (2 * j + 1)) (node_at (fill_internal i nodes) (2 * j + 2))).
Proof.
  revert nodes. induction i as [|i IH]; intros nodes Hlen; cbn [fill_internal]; [split_and!; [done|done|lia]|].
  set (nodes' := <[i := _]> nodes). assert (length nodes' = length nodes) as Hl by apply length_insert.
  destruct (IH nodes') as (H1 & H2 & H3); [lia|]. split_and!; [lia| |].
  - intros j Hj. rewrite H2 by lia. unfold nodes'. by rewrite node_at_insert, decide_False by lia.
  - intros j Hj. destruct (decide (j = i)) as [->|Hne]; [|apply H3; lia].
    rewrite !H2 by lia. unfold nodes'. rewrite !node_at_insert by lia.
    rewrite decide_True, !decide_False by lia. done.
Qed.

(** ** The comparison *)

(** No collision among the pairs that the two trees combine. *)
Definition collision_free (s t : Tree) : Prop :=
  ∀ i, i < NumBuckets s - 1 →
    combineHashes (node_at (Nodes s) (2 * i + 1)) (node_at (Nodes s) (2 * i + 2)) =
    combineHashes (node_at (Nodes t) (2 * i + 1)) (node_at (Nodes t) (2 * i + 2)) →
    node_at (Nodes s) (2 * i + 1) = node_at (Nodes t) (2 * i + 1) ∧
    node_at (Nodes s) (2 * i + 2) = node_at (Nodes t) (2 * i + 2).

Definition differs (s t : Tree) (b : nat) : bool := negb (bool_decide (leaf s b = leaf t b)).

Section compare.
Context (s t : Tree) (L : nat).
Hypothesis Hs : tree_ok s.
Hypothesis Ht : tree_ok t.
Hypothesis Hn : NumBuckets s = 2 ^ L.
Hypothesis Hst : NumBuckets t = NumBuckets s.

(** The node at level [l], position [p]: its leaves are [2 ^ h] buckets. *)
Definition idx (l p : nat) : nat := 2 ^ l - 1 + p.

Lemma idx_children l p : 2 * idx l p + 1 = idx (S l) (2 * p) ∧ 2 * idx l p + 2 = idx (S l) (2 * p + 1).
Proof. unfold idx. pose proof (Nat.pow_nonzero 2 l). rewrite Nat.pow_succ_r'. lia. Qed.

Lemma idx_internal l h p : l + S h = L → p < 2 ^ l → idx l p < NumBuckets s - 1.
Proof.
  intros Hl Hp. unfold idx. rewrite Hn, <-Hl. pose proof (Nat.pow_nonzero 2 l). pose proof (Nat.pow_nonzero 2 h).
  rewrite Nat.add_succ_r, Nat.pow_succ_r', Nat.pow_add_r. nia.
Qed.

Lemma idx_leaf p : idx L p = leafIndex p (NumBuckets s).
Proof. unfold idx, leafIndex. by rewrite Hn. Qed.

Lemma range_split h p : seq (p * 2 ^ S h) (2 ^ S h) = seq (2 * p * 2 ^ h) (2 ^ h) ++ seq ((2 * p + 1) * 2 ^ h) (2 ^ h).
Proof.
  rewrite Nat.pow_succ_r'. replace (2 * 2 ^ h) with (2 ^ h + 2 ^ h) by lia. rewrite seq_app. f_equal; f_equal; lia.
Qed.

Lemma equal_node_leaves h l p :
  collision_free s t → l + h = L → p < 2 ^ l → node_at (Nodes s) (idx l p) = node_at (Nodes t) (idx l p) →
  ∀ b, b ∈ seq (p * 2 ^ h) (2 ^ h) → leaf s b = leaf t b.
Proof.
  intros Hcf. revert l p. induction h as [|h IH]; intros l p Hl Hp Heq b.
  - rewrite Nat.mul_1_r. intros ->%list_elem_of_singleton. unfold leaf. rewrite Hst, <-!idx_leaf.
    by rewrite Nat.add_0_r in Hl; subst l.
  - pose proof (idx_internal l h p Hl Hp) as Hi. destruct (idx_children l p) as [E1 E2].
    rewrite (tree_nodes s Hs) in Heq by done. rewrite (tree_nodes t Ht) in Heq by (by rewrite Hst).
    destruct (Hcf _ Hi Heq) as [H1 H2]. rewrite E1 in H1. rewrite E2 in H2.
    rewrite range_split, elem_of_app. intros [Hb|Hb].
    + apply (IH (S l) (2 * p)); [lia|rewrite Nat.pow_succ_r'; lia|done|done].
    + apply (IH (S l) (2 * p + 1)); [lia|rewrite Nat.pow_succ_r'; lia|done|done].
Qed.

Lemma walk_spec h l p fuel :
  l + h = L → p < 2 ^ l → h < fuel →
  ∃ bs, walk fuel s t (idx l p) = Some bs ∧
    (∀ b, b ∈ bs → b ∈ seq (p * 2 ^ h) (2 ^ h) ∧ differs s t b = true) ∧
    (collision_free s t → bs = bfilter (differs s t) (seq (p * 2 ^ h) (2 ^ h))).
Proof.
  revert l p fuel. induction h as [|h IH]; intros l p [|fuel] Hl Hp Hf; try lia; cbn [walk];
    (destruct (decide (node_at (Nodes s) (idx l p) = node_at (Nodes t) (idx l p))) as [Heq|Hne];
    [exists []; split; [done|]; split; [set_solver|]; intros Hcf; symmetry; apply bfilter_none; intros b Hb;
     unfold differs; rewrite bool_decide_eq_true_2; [done|by eapply equal_node_leaves]|]).
  - rewrite Nat.add_0_r in Hl. subst l. rewrite idx_leaf in *. unfold isLeafIndex, bucketIndexOfLeaf, leafIndex in *.
    rewrite (proj2 (Nat.leb_le _ _)) by lia. exists [p]. change (2 ^ 0) with 1. rewrite Nat.mul_1_r.
    assert (differs s t p = true) as Hd.
    { unfold differs, leaf, leafIndex. rewrite Hst. by rewrite bool_decide_eq_false_2. }
    split; [do 2 f_equal; lia|]. split; [|intros _; cbn [bfilter seq]; by rewrite Hd].
    intros b ->%list_elem_of_singleton. split; [set_solver|done].
  - pose proof (idx_internal l h p Hl Hp) as Hi. unfold isLeafIndex. rewrite (proj2 (Nat.leb_gt _ _)) by lia.
    destruct (idx_children l p) as [-> ->].
    destruct (IH (S l) (2 * p) fuel) as (b1 & -> & Hb1 & Hc1); [lia|rewrite Nat.pow_succ_r'; lia|lia|].
    destruct (IH (S l) (2 * p + 1) fuel) as (b2 & -> & Hb2 & Hc2); [lia|rewrite Nat.pow_succ_r'; lia|lia|].
    exists (b1 ++ b2). split; [done|]. rewrite range_split. split.
    + intros b [Hb|Hb]%elem_of_app; [destruct (Hb1 b Hb)|destruct (Hb2 b Hb)]; split; [set_solver|done|set_solver|done].
    + intros Hcf. by rewrite bfilter_app, Hc1, Hc2.
Qed.
End compare.

(** ** What a tree says about its store *)

Section build.
Context `{!JsonCodec value}.
Context {P IO E : Type} `{!Persister P IO E} `{!PersisterSpec P IO E}.
Implicit Types (ds : DataStore P).

Definition in_bucket (n b : nat) (k : string) : bool := BucketFor k n =? b.

Lemma BucketFor_lt k n : 0 < n → BucketFor k n < n.
Proof. intros Hn. unfold BucketFor. pose proof (N.mod_lt (fnv32a (to_bytes k)) (N.of_nat n)). lia. Qed.

Lemma group_keys_spec n keys :
  0 < n → group_keys n keys = (λ b, bfilter (in_bucket n b) keys) <$> seq 0 n.
Proof.
  intros Hn. unfold group_keys.
  assert (∀ acc : nat → list string,
    fold_left (λ bucketKeys k, alter (λ l, l ++ [k]) (BucketFor k n) bucketKeys) keys (acc <$> seq 0 n) =
    ((λ b, acc b ++ bfilter (in_bucket n b) keys) <$> seq 0 n)) as Hacc.
  { induction keys as [|k keys IH]; intros acc; cbn [fold_left].
    { apply list_fmap_ext. intros i b _. by rewrite app_nil_r. }
    assert (alter (λ l, l ++ [k]) (BucketFor k n) (acc <$> seq 0 n) =
      ((λ b, acc b ++ if in_bucket n b k then [k] else []) <$> seq 0 n)) as ->.
    { apply list_eq. intros i. destruct (decide (i < n)) as [Hi|Hi].
      2: { rewrite !lookup_ge_None_2; [done|by rewrite length_fmap, length_seq; lia|by rewrite length_alter, length_fmap, length_seq; lia]. }
      destruct (decide (BucketFor k n = i)) as [Hb|Hb].
      - rewrite Hb, list_lookup_alter_eq, !list_lookup_fmap, lookup_seq_lt by done. simpl. unfold in_bucket.
        by rewrite Hb, Nat.eqb_refl.
      - rewrite list_lookup_alter_ne, !list_lookup_fmap, lookup_seq_lt by done. simpl. unfold in_bucket.
        rewrite (proj2 (Nat.eqb_neq _ _)) by lia. by rewrite app_nil_r. }
    rewrite IH. apply list_fmap_ext. intros i b _. cbn [bfilter]. destruct (in_bucket n b k); by rewrite <-?app_assoc, ?app_nil_r. }
  etrans; [|exact (Hacc (λ _, []))]. f_equal. apply list_eq. intros i.
  destruct (decide (i < n)); [|rewrite !lookup_ge_None_2; [done|rewrite ?length_fmap, ?length_seq, ?length_replicate; lia..]].
  by rewrite lookup_replicate_2, list_lookup_fmap, lookup_seq_lt.
Qed.

(** The canonical forms of a key's siblings, and the bytes of a list of keys. *)
Definition item_strings ds (k : string) : option (list string) := mapM canonicalItemString (siblings ds k).

Fixpoint content_bytes ds (keys : list string) : option bytes :=
  match keys with
  | [] => Some []
  | k :: rest => ss ← item_strings ds k; bs ← content_bytes ds rest; Some (key_bytes k ss ++ bs)
  end.

Lemma hash_loop_content a ds keys written out :
  p_ok (persister ds) → hash_loop a ds keys written = Ok out →
  ∃ bs, content_bytes ds keys = Some bs ∧ out = written ++ bs.
Proof.
  intros Hok. revert a written. induction keys as [|k keys IH]; intros a written; cbn [hash_loop content_bytes].
  { intros [= <-]. exists []. by rewrite app_nil_r. }
  pose proof (load_siblings a ds k Hok) as Hl. unfold Get. destruct (load a ds k) as [[items found]|]; [|done].
  destruct Hl as [Hv _]. destruct (mapM _ items) as [ss|] eqn:Hm; [|done]. intros (bs & Hbs & ->)%IH.
  assert (item_strings ds k = Some ss) as ->.
  { unfold item_strings. rewrite <-Hv. apply mapM_Some, Forall2_fmap_l. by apply mapM_Some. }
  exists (key_bytes k ss ++ bs). cbn [mbind option_bind]. rewrite Hbs. by rewrite app_assoc.
Qed.

Lemma fill_leaves_spec a ds n b ks nodes out :
  p_ok (persister ds) → length nodes = 2 * n - 1 → b + length ks ≤ n → fill_leaves a ds n b ks nodes = Ok out →
  length out = length nodes ∧ (∀ i, i < leafIndex b n → node_at out i = node_at nodes i) ∧
  ∀ j keys, ks !! j = Some keys →
    ∃ bs, content_bytes ds (sort_strings keys) = Some bs ∧ node_at out (leafIndex (b + j) n) = sha256 bs.
Proof.
  intros Hok. revert b nodes. induction ks as [|keys ks IH]; intros b nodes Hlen Hb; cbn [fill_leaves length] in *.
  { intros [= <-]. by split_and!. }
  unfold hashBucketContents. destruct (hash_loop _ _ _ _) as [w|] eqn:Hh; [|done]. cbn [res_bind].
  destruct (hash_loop_content _ _ _ _ _ Hok Hh) as (bs & Hbs & ->). simpl app. intros Hf.
  destruct (IH (S b) (<[leafIndex b n := sha256 bs]> nodes)) as (H1 & H2 & H3);
    [by rewrite length_insert|lia|done|]. rewrite length_insert in H1. split_and!; [done| |].
  - intros i Hi. rewrite H2 by (unfold leafIndex in *; lia). rewrite node_at_insert by (unfold leafIndex in *; lia).
    by rewrite decide_False by lia.
  - intros [|j] ks' Hj.
    + injection Hj as <-. exists bs. split; [done|]. rewrite Nat.add_0_r, H2 by (unfold leafIndex; lia).
      rewrite node_at_insert by (unfold leafIndex; lia). by rewrite decide_True.
    + rewrite Nat.add_succ_r. by apply H3.
Qed.

Lemma Build_spec a ds z t :
  p_ok (persister ds) → Build a ds z = Ok t →
  ∃ keys, Keys ds = Ok keys ∧ tree_ok t ∧ NumBuckets t = Z.to_nat z ∧
    ∀ b, b < NumBuckets t →
      ∃ bs, content_bytes ds (sort_strings (bfilter (in_bucket (NumBuckets t) b) keys)) = Some bs ∧ leaf t b = sha256 bs.
Proof.
  intros Hok. unfold Build. destruct (validateBucketCount z) eqn:Hv; [done|]. apply validate_height in Hv as [L HL].
  destruct (Keys ds) as [keys|]; [|done]. set (n := Z.to_nat z) in *.
  assert (0 < n) as Hn by (rewrite HL; pose proof (Nat.pow_nonzero 2 L); lia).
  rewrite (group_keys_spec n keys Hn). destruct (fill_leaves _ _ _ _ _ _) as [nodes|] eqn:Hf; [|done]. intros [= <-].
  exists keys. split; [done|]. cbn [NumBuckets].
  assert (0 + length ((λ b, bfilter (in_bucket n b) keys) <$> seq 0 n) ≤ n) as Hle by (rewrite length_fmap, length_seq; lia).
  destruct (fill_leaves_spec _ _ _ _ _ _ _ Hok (length_replicate _ _) Hle Hf) as (H1 & _ & H3).
  rewrite length_replicate in H1. destruct (fill_internal_spec (n - 1) nodes ltac:(lia)) as (G1 & G2 & G3).
  split_and!; [split; cbn [NumBuckets Nodes]; [eauto|lia|apply G3]|done|].
  intros b Hb. destruct (H3 b (bfilter (in_bucket n b) keys)) as (bs & Hbs & Hl).
  { rewrite list_lookup_fmap, lookup_seq_lt by done. done. }
  exists bs. split; [done|]. unfold leaf. cbn [NumBuckets Nodes]. rewrite G2; [done|]. unfold leafIndex. lia.
Qed.

Lemma tree_ext (s t : Tree) :
  tree_ok s → tree_ok t → NumBuckets s = NumBuckets t → (∀ b, b < NumBuckets s → leaf s b = leaf t b) → s = t.
Proof.
  intros Hs Ht Hn Hleaf.
  assert (∀ d i, i < 2 * NumBuckets s - 1 → 2 * NumBuckets s - 1 - i ≤ d → node_at (Nodes s) i = node_at (Nodes t) i) as Hall.
  { induction d as [|d IH]; intros i Hi Hd; [lia|]. destruct (decide (i < NumBuckets s - 1)) as [Hin|Hout].
    - rewrite (tree_nodes s Hs), (tree_nodes t Ht) by lia. f_equal; apply IH; lia.
    - specialize (Hleaf (i - (NumBuckets s - 1)) ltac:(lia)). unfold leaf, leafIndex in Hleaf. rewrite <-Hn in Hleaf.
      by replace (NumBuckets s - 1 + (i - (NumBuckets s - 1))) with i in Hleaf by lia. }
  assert (Nodes s = Nodes t) as Hnodes.
  { apply (nth_ext _ _ zeroHash zeroHash); [by rewrite (tree_length s Hs), (tree_length t Ht), Hn|].
    intros i Hi. rewrite (tree_length s Hs) in Hi. by apply (Hall (2 * NumBuckets s - 1)); [|lia]. }
  destruct s, t; cbn in *. by subst.
Qed.

Lemma mapM_perm (f : DataItem → option string) l l' k :
  l ≡ₚ l' → mapM f l = Some k → ∃ k', mapM f l' = Some k' ∧ k ≡ₚ k'.
Proof.
  intros Hp. revert k. induction Hp as [|x l l' _ IH|x y l|l1 l2 l3 _ IH1 _ IH2]; intros k; cbn [mapM].
  - intros [= <-]. by exists [].
  - destruct (f x) as [s|]; [|done]. destruct (mapM f l) as [ss|] eqn:E1; [|done]. intros [= <-].
    destruct (IH ss eq_refl) as (ss' & -> & Hss). exists (s :: ss'). split; [done|by constructor].
  - destruct (f x) as [sx|], (f y) as [sy|]; try done; cbn [mbind option_bind]; try (by destruct (mapM f l)).
    destruct (mapM f l) as [ss|]; [|done]. intros [= <-]. eexists. split; [done|constructor].
  - intros Hk. destruct (IH1 k Hk) as (k' & Hk' & H1). destruct (IH2 k' Hk') as (k'' & Hk'' & H2). exists k''. split; [done|by etrans].
Qed.

(** Two stores with the same keys and siblings write the same bytes. *)
Lemma content_bytes_same ds1 ds2 keys bs :
  (∀ k, siblings ds1 k ≡ₚ siblings ds2 k) → content_bytes ds1 keys = Some bs → content_bytes ds2 keys = Some bs.
Proof.
  intros Hsib. revert bs. induction keys as [|k keys IH]; intros bs; cbn [content_bytes]; [done|]. unfold item_strings.
  destruct (mapM canonicalItemString (siblings ds1 k)) as [ss|] eqn:Hm; [|done].
  destruct (mapM_perm _ _ _ _ (Hsib k) Hm) as (ss' & -> & Hp). cbn [mbind option_bind].
  destruct (content_bytes ds1 keys) as [bs'|]; [|done]. intros [= <-]. rewrite (IH bs' eq_refl). cbn [mbind option_bind].
  unfold key_bytes. by rewrite (sort_strings_perm_eq _ _ Hp).
Qed.
End build.

Section theorems.
Context `{!JsonCodec value}.
Context {P IO E : Type} `{!Persister P IO E} `{!PersisterSpec P IO E}.

(** Replicas in step compare as equal.  If two stores hold for every key
    the same siblings, in whatever order, the trees built over them are the
    same, node by node, whatever order their keys are listed in, and the
    comparison reports no bucket. *)
Theorem merkle_same_contents_same_tree (a1 a2 : N) (ds1 ds2 : DataStore P) (z : Z) (s t : Tree) :
  p_ok (persister ds1) → p_ok (persister ds2) → (∀ k, siblings ds1 k ≡ₚ siblings ds2 k) →
  Build a1 ds1 z = Ok s → Build a2 ds2 z = Ok t → s = t ∧ DivergentBuckets s t = Some [].
Proof.
  intros Hok1 Hok2 Hsib Hs Ht.
  destruct (Build_spec a1 ds1 z s Hok1 Hs) as (keys1 & Hk1 & Hs' & Hn1 & Hl1).
  destruct (Build_spec a2 ds2 z t Hok2 Ht) as (keys2 & Hk2 & Ht' & Hn2 & Hl2).
  assert (keys1 ≡ₚ keys2) as Hkeys.
  { pose proof (p_lists _ Hok1) as L1. pose proof (p_lists _ Hok2) as L2. unfold Keys in Hk1, Hk2. rewrite Hk1 in L1. rewrite Hk2 in L2.
    destruct L1 as [N1 L1], L2 as [N2 L2]. apply NoDup_Permutation; [done|done|]. intros k. rewrite L1, L2.
    specialize (Hsib k). unfold siblings in Hsib. rewrite <-!Permutation_rev in Hsib. split; intros Hne E'; apply Hne; rewrite E' in Hsib;
      [by apply Permutation_nil_r in Hsib|by apply Permutation_nil_l in Hsib]. }
  assert (s = t) as <-.
  { apply tree_ext; [done|done|congruence|]. intros b Hb. destruct (Hl1 b Hb) as (bs1 & E1 & ->).
    destruct (Hl2 b ltac:(congruence)) as (bs2 & E2 & ->). apply (content_bytes_same ds1 ds2) in E1; [|done].
    rewrite Hn1, (sort_strings_perm_eq _ _ (bfilter_perm (in_bucket (Z.to_nat z) b) _ _ Hkeys)) in E1. rewrite Hn2 in E2. congruence. }
  split; [done|]. unfold DivergentBuckets. rewrite Nat.eqb_refl. destruct (tree_height s Hs') as [L HL].
  destruct (NumBuckets s) as [|n] eqn:En; [pose proof (Nat.pow_nonzero 2 L); lia|]. cbn [walk]. by rewrite decide_True.
Qed.

Lemma compare_returns (a1 a2 : N) (ds1 ds2 : DataStore P) (z : Z) (s t : Tree) :
  p_ok (persister ds1) → p_ok (persister ds2) → Build a1 ds1 z = Ok s → Build a2 ds2 z = Ok t →
  ∃ bs, DivergentBuckets s t = Some bs.
Proof.
  intros Hok1 Hok2 Hs Ht.
  destruct (Build_spec a1 ds1 z s Hok1 Hs) as (_ & _ & Hs' & Hn1 & _).
  destruct (Build_spec a2 ds2 z t Hok2 Ht) as (_ & _ & Ht' & Hn2 & _).
  destruct (tree_height s Hs') as [L HL]. assert (NumBuckets t = NumBuckets s) as Hst by congruence.
  destruct (walk_spec s t L Hs' Ht' HL Hst L 0 0 (NumBuckets s)) as (bs & Hw & _);
    [lia|simpl; lia|rewrite HL; apply Nat.pow_gt_lin_r; lia|].
  exists bs. unfold DivergentBuckets. by rewrite Hst, Nat.eqb_refl.
Qed.

(** C13: the comparison finds the buckets that differ.  For trees of the same
    size built over two stores, [DivergentBuckets] returns, and reports only
    buckets whose hashes differ; unless SHA-256 collides on a pair of nodes
    that the trees combine, it reports exactly those, in order. *)
Theorem divergent_buckets_exact (a1 a2 : N) (ds1 ds2 : DataStore P) (z : Z) (s t : Tree) :
  p_ok (persister ds1) → p_ok (persister ds2) → Build a1 ds1 z = Ok s → Build a2 ds2 z = Ok t →
  ∃ bs, DivergentBuckets s t = Some bs ∧
    (∀ b, b ∈ bs → b < NumBuckets s ∧ leaf s b ≠ leaf t b) ∧
    (collision_free s t → bs = bfilter (differs s t) (seq 0 (NumBuckets s))).
Proof.
  intros Hok1 Hok2 Hs Ht.
  destruct (Build_spec a1 ds1 z s Hok1 Hs) as (_ & _ & Hs' & Hn1 & _).
  destruct (Build_spec a2 ds2 z t Hok2 Ht) as (_ & _ & Ht' & Hn2 & _).
  destruct (tree_height s Hs') as [L HL]. assert (NumBuckets t = NumBuckets s) as Hst by congruence.
  destruct (walk_spec s t L Hs' Ht' HL Hst L 0 0 (NumBuckets s)) as (bs & Hw & Hb & Hc);
    [lia|simpl; lia|rewrite HL; apply Nat.pow_gt_lin_r; lia|].
  exists bs. unfold DivergentBuckets. rewrite Hst, Nat.eqb_refl, HL. rewrite HL in Hw. rewrite Nat.mul_0_l in *. split_and!; [done| |done].
  intros b [Hin Hd]%Hb. rewrite elem_of_seq in Hin. split; [lia|]. unfold differs in Hd. by apply negb_true_iff, bool_decide_eq_false in Hd.
Qed.
End theorems.

(** ** One tree for two stores *)

Section ambiguous.
Context `{!JsonCodec value}.

Lemma sort_single k : sort_strings [k] = [k].
Proof. by apply Permutation_singleton_r, sort_strings_perm. Qed.

Lemma sort_pair s1 s2 : String.le s1 s2 → sort_strings [s1; s2] = [s1; s2].
Proof.
  intros Hle. apply (StronglySorted_unique String.le); [apply sort_strings_sorted| |apply sort_strings_perm].
  repeat constructor; done.
Qed.

Lemma Build_one (a : N) (i c k : string) (items : list itemptr) (ss : list string) :
  items ≠ [] → mapM (λ i, canonicalItemString (deref i)) items = Some ss →
  Build a (mkStore i c ({[k := items]} : gmap string (list itemptr))) 1 = Ok (mkTree 1 [sha256 (key_bytes k ss)]).
Proof.
  intros Hne Hss. unfold Build. cbn [validateBucketCount]. change (validateBucketCount 1) with (@None (merkle_error unit)).
  cbv iota. change (Z.to_nat 1) with 1. unfold Keys. cbn [p_Keys mem_persister persister].
  rewrite dom_singleton_L, elements_singleton.
  assert (BucketFor k 1 = 0) as Hb by (unfold BucketFor; by rewrite N.mod_1_r).
  unfold group_keys. cbn [fold_left replicate]. rewrite Hb. cbn [alter list_alter app fill_leaves].
  unfold hashBucketContents. rewrite sort_single. cbn [hash_loop]. unfold Get, load. cbn [p_GetAll mem_persister persister].
  unfold mem_versions. rewrite lookup_singleton_eq. cbn [default from_option]. unfold reversed. rewrite rev_involutive. unfold Datatypes.id. by rewrite Hss.
Qed.

(** Different stores can have the same tree.  A key may contain the NUL
    byte that separates keys and versions in what is hashed: a store with two
    siblings of key [a] and a store with only the second of them, under the
    key that continues [a] with a NUL and the first one's canonical form, hash
    to the same tree, so no comparison tells them apart. *)
Theorem bucket_contents_ambiguous (i1 i2 : itemptr) (s1 s2 : string) :
  canonicalItemString (deref i1) = Some s1 → canonicalItemString (deref i2) = Some s2 → String.le s1 s2 →
  let nul := String "000"%char EmptyString in
  let ds1 := mkStore "n" "n" ({["a" := [i1; i2]]} : gmap string (list itemptr)) in
  let ds2 := mkStore "n" "n" ({["a" +:+ nul +:+ s1 := [i2]]} : gmap string (list itemptr)) in
  ∃ t, Build 0 ds1 1 = Ok t ∧ Build 0 ds2 1 = Ok t ∧ length (siblings ds1 "a") = 2 ∧ siblings ds2 "a" = [].
Proof.
  intros H1 H2 Hle nul ds1 ds2. exists (mkTree 1 [sha256 (key_bytes "a" [s1; s2])]). split_and!.
  - apply Build_one; [done|]. cbn [mapM]. by rewrite H1, H2.
  - unfold ds2. rewrite (Build_one 0 "n" "n" ("a" +:+ nul +:+ s1) [i2] [s2]); [|done|cbn [mapM]; by rewrite H2].
    do 4 f_equal. unfold key_bytes. rewrite sort_single, (sort_pair s1 s2) by done. cbn [mbind list_bind].
    rewrite !to_bytes_app, app_nil_r, <-!app_assoc. done.
  - done.
  - unfold siblings. cbn [p_versions mem_persister_spec persister ds2]. unfold mem_versions.
    by rewrite lookup_singleton_ne.
Qed.
End ambiguous.

(** ** The theorems at concrete stores *)

Section witnesses.
#[local] Existing Instance toy_value_json.

Definition w_swapped : DataStore (gmap string (list itemptr)) :=
  mkStore "node-2" "node-2#3" ((λ l, rev l) <$> persister w_store).

Lemma w_swapped_ok : p_ok (persister w_swapped).
Proof.
  intros k. unfold w_swapped, mem_versions. cbn [persister]. rewrite lookup_fmap. destruct (w_store_ok k) as [Ha Hn].
  unfold mem_versions in Ha. destruct (persister w_store !! k) as [l|]; cbn in *; [|done]. split; [by apply antichain_rev|].
  intros [= E]. apply Hn. apply (f_equal (@rev _)) in E. rewrite rev_involutive in E. by rewrite E.
Qed.

Lemma w_swapped_same k : siblings w_store k ≡ₚ siblings w_swapped k.
Proof.
  assert (∀ m : gmap string (list itemptr), siblings (mkStore "n" "n" m) k = deref <$> mem_versions m k) as Hs.
  { intros m. unfold siblings. cbn [p_versions mem_persister_spec persister].
    change (deref <$> rev (mem_versions m k)) with (map deref (rev (mem_versions m k))).
    by rewrite <-map_rev, rev_involutive. }
  change (siblings w_store k) with (siblings (mkStore "n" "n" (persister w_store)) k).
  change (siblings w_swapped k) with (siblings (mkStore "n" "n" (persister w_swapped)) k).
  rewrite !Hs. apply fmap_Permutation. unfold w_swapped, mem_versions. cbn [persister]. rewrite lookup_fmap.
  destruct (persister w_store !! k); cbn; [apply Permutation_rev|done].
Qed.

Definition w_tree1 : res (merkle_error unit) Tree := Eval vm_compute in Build 0 w_store 4.
Definition w_tree2 : res (merkle_error unit) Tree := Eval vm_compute in Build 0 w_swapped 4.
Definition w_tree3 : res (merkle_error unit) Tree := Eval vm_compute in Build 0 (mkStore "n" "n" (∅ : gmap string (list itemptr))) 4.
Definition tree_of (r : res (merkle_error unit) Tree) : Tree := match r with Ok t => t | Err _ => mkTree 0 [] end.

Lemma merkle_same_contents_same_tree_witness : DivergentBuckets (tree_of w_tree1) (tree_of w_tree2) = Some [].
Proof.
  apply (merkle_same_contents_same_tree 0 0 w_store w_swapped 4 (tree_of w_tree1) (tree_of w_tree2) w_store_ok w_swapped_ok).
  - apply w_swapped_same.
  - vm_cast_no_check (eq_refl w_tree1).
  - vm_cast_no_check (eq_refl w_tree2).
Defined.

Lemma divergent_buckets_exact_witness :
  ∃ bs, DivergentBuckets (tree_of w_tree1) (tree_of w_tree3) = Some bs ∧ bs ≠ [].
Proof.
  destruct (divergent_buckets_exact 0 0 w_store (mkStore "n" "n" (∅ : gmap string (list itemptr))) 4 (tree_of w_tree1)
    (tree_of w_tree3) w_store_ok mem_ok_empty) as (bs & Hbs & _).
  - vm_cast_no_check (eq_refl w_tree1).
  - vm_cast_no_check (eq_refl w_tree3).
  - exists bs. split; [exact Hbs|]. intros ->. vm_compute in Hbs. discriminate Hbs.
Defined.

Definition w_i1 : itemptr := mkPtr 1 (ex_item "x" {["n1" := 1%N]}).
Definition w_i2 : itemptr := mkPtr 2 (ex_item "y" {["n2" := 1%N]}).
Definition w_s1 : string := Eval vm_compute in default EmptyString (canonicalItemString (deref w_i1)).
Definition w_s2 : string := Eval vm_compute in default EmptyString (canonicalItemString (deref w_i2)).

Lemma bucket_contents_ambiguous_witness :
  ∃ t, Build 0 (mkStore "n" "n" ({["a" := [w_i1; w_i2]]} : gmap string (list itemptr))) 1 = Ok t.
Proof.
  destruct (bucket_contents_ambiguous w_i1 w_i2 w_s1 w_s2) as (t & Ht & _);
    [vm_cast_no_check (eq_refl (Some w_s1))|vm_cast_no_check (eq_refl (Some w_s2))| |exists t; exact Ht].
  apply (bool_decide_unpack _). vm_cast_no_check I.
Defined.
End witnesses.
