(* ===== verification/MerkleText.v ===== *)
(** * What equal bucket hashes say (internal/merkle/merkle.go)

    The text that [hashBucketContents] hashes, read back.  Keys and canonical
    items end in a zero byte, and an item starts with ["value="]; so where keys
    contain no zero byte and do not start like an item, and names in clocks and
    authors contain no zero byte, bar or blank ([plain_store]), the text says
    which keys the bucket has and which clocks their versions have.  Hence, as
    long as SHA-256 does not collide on the texts two trees hash, a bucket that
    compares as equal holds versions of the same clocks on both sides.
    ([bucket_contents_ambiguous] shows that the condition on keys is needed.) *)

From stdpp Require Import gmap strings list sorting pretty.
From Stdlib Require Import ZArith Lia Ascii.
From S2P Require Import Prelude GoLib VectorClock Versioning Json Datastore Sha256 Merkle.

(** ** Separators *)

Lemma sep_inj {A} (x : A) (a b r r' : list A) : x ∉ a → x ∉ b → a ++ x :: r = b ++ x :: r' → a = b ∧ r = r'.
Proof.
  revert b. induction a as [|y a IH]; intros [|z b] Ha Hb; cbn [app].
  - by intros [= <-].
  - intros [= <- _]. set_solver.
  - intros [= -> _]. set_solver.
  - intros [= <- E]. destruct (IH b) as [-> ->]; [set_solver|set_solver|done|done].
Qed.

(** From the other end. *)
Lemma sep_inj_r {A} (x : A) (a b r r' : list A) : x ∉ r → x ∉ r' → a ++ x :: r = b ++ x :: r' → a = b ∧ r = r'.
Proof.
  intros Hr Hr' E. apply (f_equal (@rev _)) in E. rewrite !rev_app_distr in E. cbn [rev] in E. rewrite <-!app_assoc in E.
  destruct (sep_inj x (rev r) (rev r') (rev a) (rev b)) as [E1 E2].
  - by rewrite <-Permutation_rev.
  - by rewrite <-Permutation_rev.
  - exact E.
  - apply (f_equal (@rev _)) in E1, E2. by rewrite !rev_involutive in E1, E2.
Qed.

(** Words that each end in a separator. *)
Lemma terminated_inj {A} (x : A) (l1 l2 : list (list A)) :
  Forall (λ w, x ∉ w) l1 → Forall (λ w, x ∉ w) l2 →
  (l1 ≫= λ w, w ++ [x]) = (l2 ≫= λ w, w ++ [x]) → l1 = l2.
Proof.
  revert l2. induction l1 as [|w1 l1 IH]; intros [|w2 l2] H1 H2; rewrite ?bind_cons, <-?app_assoc; try done.
  - intros E. cbn in E. by destruct w2.
  - intros E. cbn in E. by destruct w1.
  - inversion H1; inversion H2; subst. cbn [app]. intros [-> E]%sep_inj; [|done|done]. f_equal. by apply IH.
Qed.

(** Keys, each followed by its items, in one list. *)
Lemma groups_inj {A} (P : A → bool) (g1 g2 : list (A * list A)) :
  Forall (λ p, P p.1 = false ∧ Forall (λ x, P x = true) p.2) g1 →
  Forall (λ p, P p.1 = false ∧ Forall (λ x, P x = true) p.2) g2 →
  (g1 ≫= λ p, p.1 :: p.2) = (g2 ≫= λ p, p.1 :: p.2) → g1 = g2.
Proof.
  revert g2. induction g1 as [|[k1 s1] g1 IH]; intros [|[k2 s2] g2] H1 H2; rewrite ?bind_cons; try done.
  cbn [fst snd app]. inversion H1 as [|? ? [Hk1 Hs1] H1']; inversion H2 as [|? ? [Hk2 Hs2] H2']; subst. cbn [fst snd] in *.
  intros [= <- E].
  assert (s1 = s2 ∧ (g1 ≫= λ p, p.1 :: p.2) = (g2 ≫= λ p, p.1 :: p.2)) as [<- E'].
  { clear IH H1 H2 Hk1. revert s2 Hs2 E. induction s1 as [|x s1 IHs]; intros [|y s2] Hs2; cbn [app].
    - done.
    - inversion Hs2 as [|? ? Hy _]; subst. destruct g1 as [|[k s] g1]; [done|]. rewrite bind_cons. cbn [fst app].
      intros [= <- _]. inversion H1' as [|? ? [Hk _] _]; subst. cbn in Hk. congruence.
    - inversion Hs1 as [|? ? Hx _]; subst. destruct g2 as [|[k s] g2]; [done|]. rewrite bind_cons. cbn [fst app].
      intros [= -> _]. inversion H2' as [|? ? [Hk _] _]; subst. cbn in Hk. congruence.
    - inversion Hs1; inversion Hs2; subst. intros [= <- E]. destruct (IHs ltac:(done) s2 ltac:(done) E) as [-> ?]. done. }
  f_equal. by apply IH.
Qed.

(** ** Names *)

Definition absent (c : ascii) (s : string) : Prop := c ∉ to_bytes s.

Lemma absent_app c s t : absent c (s +:+ t) ↔ absent c s ∧ absent c t.
Proof. unfold absent. rewrite to_bytes_app. set_solver. Qed.

(** A digit, so no separator. *)
Definition is_digit (c : ascii) : bool := (48 <=? N_of_ascii c)%N && (N_of_ascii c <=? 57)%N.

Lemma pretty_digits (n : N) : Forall (λ c, is_digit c = true) (to_bytes (pretty n)).
Proof.
  assert (∀ m s, Forall (λ c, is_digit c = true) (to_bytes s) → Forall (λ c, is_digit c = true) (to_bytes (pretty_N_go m s))) as H.
  { intros m. induction (N.lt_wf_0 m) as [m _ IH]. intros s Hs.
    destruct (decide (0 < m)%N) as [Hm|Hm]; [|assert (m = 0%N) as -> by lia; by rewrite pretty_N_go_0].
    rewrite pretty_N_go_step by done. apply IH; [by apply N.div_lt|].
    constructor; [|done]. unfold pretty_N_char. by repeat case_match. }
  unfold pretty, pretty_N. case_decide; [by repeat constructor|]. apply H. constructor.
Qed.

Lemma pretty_absent c (n : N) : is_digit c = false → absent c (pretty n).
Proof. intros Hc Hin. pose proof (pretty_digits n) as Hd. rewrite Forall_forall in Hd. rewrite (Hd c Hin) in Hc. done. Qed.

Lemma to_bytes_inj s t : to_bytes s = to_bytes t → s = t.
Proof. intros E. rewrite <-(of_to_bytes s), <-(of_to_bytes t). by rewrite E. Qed.
#[export] Instance to_bytes_Inj : Inj (=) (=) to_bytes := to_bytes_inj.

(** Words joined by blanks. *)
Lemma joined_inj (l1 l2 : list string) :
  Forall (λ w, absent " " w ∧ w ≠ EmptyString) l1 → Forall (λ w, absent " " w ∧ w ≠ EmptyString) l2 →
  String.concat " " l1 = String.concat " " l2 → l1 = l2.
Proof.
  assert (∀ w l, w ≠ EmptyString → String.concat " " (w :: l) ≠ EmptyString) as Hne.
  { intros [|c w] [|w' l] Hw; cbn; done. }
  revert l2. induction l1 as [|w1 l1 IH]; intros [|w2 l2] H1 H2 E; [done| | |].
  { inversion H2 as [|? ? [_ ?] _]; subst. by destruct (Hne w2 l2). }
  { inversion H1 as [|? ? [_ ?] _]; subst. by destruct (Hne w1 l1). }
  inversion H1 as [|? ? [Hb1 Hn1] H1']; inversion H2 as [|? ? [Hb2 Hn2] H2']; subst.
  assert (∀ w x l, String.concat " " (w :: x :: l) = w +:+ " " +:+ String.concat " " (x :: l)) as Ec by done.
  destruct l1 as [|x1 l1], l2 as [|x2 l2].
  - by cbn in E; subst.
  - exfalso. rewrite Ec in E. cbn [String.concat] in E. apply Hb1. rewrite E, !to_bytes_app. set_solver.
  - exfalso. rewrite Ec in E. cbn [String.concat] in E. apply Hb2. rewrite <-E, !to_bytes_app. set_solver.
  - rewrite !Ec in E. apply (f_equal to_bytes) in E. rewrite !to_bytes_app in E.
    change (to_bytes " ") with [" "%char] in E. cbn [app] in E. apply sep_inj in E as [E1%to_bytes_inj E2%to_bytes_inj]; [|done|done].
    rewrite E1. f_equal. by apply IH.
Qed.

(** ** Canonical items *)

(** The encoder escapes control characters ([encoding/json]), so its text has
    no zero byte. *)
Class JsonText (A : Type) `{JsonCodec A} : Prop :=
  json_no_zero : ∀ x b, json_marshal x = Some b → "000"%char ∉ b.

Definition nul : ascii := "000"%char.
Definition plain_name (s : string) : Prop := absent nul s ∧ absent "|" s ∧ absent " " s.
Definition plain_item (i : DataItem) : Prop :=
  map_Forall (λ k _, plain_name k) (state (Clock i)) ∧ plain_name (LastUpdatedBy i).

Section canonical.
Context `{!JsonCodec value}.

Definition clock_part (vc : gmap string N) (node : string) : string := node +:+ ":" +:+ pretty (mget vc node).
Definition clock_parts (vc : gmap string N) : list string := clock_part vc <$> sort_strings (elements (dom vc)).

Lemma clock_part_plain vc node : plain_name node → absent " " (clock_part vc node) ∧ absent "|" (clock_part vc node) ∧ absent nul (clock_part vc node) ∧ clock_part vc node ≠ EmptyString.
Proof.
  intros (H0 & H1 & H2). unfold clock_part. rewrite !absent_app. split_and!; try done; try (by apply pretty_absent);
    try (unfold absent; set_solver).
  intros E. apply (f_equal to_bytes) in E. rewrite !to_bytes_app in E. by destruct (to_bytes node).
Qed.

Lemma clock_part_inj vc vc' x y : clock_part vc x = clock_part vc' y → x = y ∧ mget vc x = mget vc' y.
Proof.
  intros E. apply (f_equal to_bytes) in E. unfold clock_part in E. rewrite !to_bytes_app in E.
  change (to_bytes ":") with [":"%char] in E. cbn [app] in E.
  apply sep_inj_r in E as [E1%to_bytes_inj E2%to_bytes_inj]; [|by apply pretty_absent..].
  split; [done|]. by apply (inj pretty) in E2.
Qed.

Lemma clock_parts_inj vc vc' : clock_parts vc = clock_parts vc' → vc = vc'.
Proof.
  unfold clock_parts. intros E.
  assert (∀ l1 l2 : list string, clock_part vc <$> l1 = clock_part vc' <$> l2 → l1 = l2 ∧ ∀ x, x ∈ l1 → mget vc x = mget vc' x) as H.
  { clear E. induction l1 as [|x l1 IH]; intros [|y l2]; rewrite ?fmap_cons; try done.
    - intros _. split; [done|]. by intros x ?%not_elem_of_nil.
    - intros [= E1 E2]. apply clock_part_inj in E1 as [-> E1]. destruct (IH l2 E2) as [-> Hm]. split; [done|].
      intros x [->|Hx]%elem_of_cons; auto. }
  destruct (H _ _ E) as [El Hm].
  assert (∀ k, k ∈ dom vc ↔ k ∈ dom vc') as Hd.
  { intros k. rewrite <-(elem_of_elements (dom vc)), <-(elem_of_elements (dom vc')).
    by rewrite <-(sort_strings_elem (elements (dom vc))), El, sort_strings_elem. }
  apply map_eq. intros k. destruct (decide (k ∈ dom vc)) as [Hk|Hk].
  - assert (mget vc k = mget vc' k) as Em by (apply Hm, sort_strings_elem, elem_of_elements, Hk).
    pose proof Hk as Hk'. apply Hd in Hk'. apply elem_of_dom in Hk as [n Hn], Hk' as [n' Hn'].
    unfold mget in Em. rewrite Hn, Hn' in *. simpl in Em. by subst.
  - assert (k ∉ dom vc') as Hk' by (by rewrite <-Hd). apply not_elem_of_dom in Hk, Hk'. congruence.
Qed.

(** The canonical form's fields, from its end. *)
Lemma canonical_fields i s :
  canonicalItemString i = Some s →
  ∃ v, json_marshal (Value i) = Some v ∧
    to_bytes s = (((to_bytes "value=" ++ v) ++ "|"%char :: to_bytes "vc={[" ++ to_bytes (String.concat " " (clock_parts (Snapshot (Clock i)))) ++
      to_bytes "]}") ++ "|"%char :: to_bytes "by=" ++ to_bytes (LastUpdatedBy i)) ++
      "|"%char :: to_bytes "deleted=" ++ to_bytes (if IsDeleted i then "true" else "false").
Proof.
  unfold canonicalItemString. destruct (json_marshal (Value i)) as [v|]; [|done]. intros [= <-]. exists v. split; [done|].
  rewrite !to_bytes_app. unfold sprint_list. rewrite !to_bytes_app, to_of_bytes. fold (clock_parts (Snapshot (Clock i))).
  change (to_bytes "|vc={") with ("|"%char :: to_bytes "vc={"). change (to_bytes "}|by=") with (to_bytes "}" ++ "|"%char :: to_bytes "by=").
  change (to_bytes "|deleted=") with ("|"%char :: to_bytes "deleted="). change (to_bytes "vc={[") with (to_bytes "vc={" ++ to_bytes "[").
  change (to_bytes "]}") with (to_bytes "]" ++ to_bytes "}"). rewrite <-!app_assoc. cbn [app]. rewrite <-!app_assoc. cbn [app]. done.
Qed.

Lemma clock_words i :
  map_Forall (λ k _, plain_name k) (state (Clock i)) →
  Forall (λ w, absent " " w ∧ w ≠ EmptyString) (clock_parts (Snapshot (Clock i))).
Proof.
  intros Hc. unfold clock_parts. apply Forall_fmap, Forall_forall. intros k Hk. rewrite sort_strings_elem, elem_of_elements in Hk.
  rewrite Snapshot_state in *. apply elem_of_dom in Hk as [n Hn].
  destruct (clock_part_plain (state (Clock i)) k (Hc k n Hn)) as (? & _ & _ & ?). done.
Qed.

Lemma clock_text_plain i : plain_item i → absent "|" (String.concat " " (clock_parts (Snapshot (Clock i)))) ∧
  absent nul (String.concat " " (clock_parts (Snapshot (Clock i)))).
Proof.
  intros [Hc _]. assert (Forall (λ w, absent "|" w ∧ absent nul w) (clock_parts (Snapshot (Clock i)))) as Hf.
  { unfold clock_parts. apply Forall_fmap, Forall_forall. intros k Hk. rewrite sort_strings_elem, elem_of_elements in Hk.
    rewrite Snapshot_state in *. apply elem_of_dom in Hk as [n Hn].
    destruct (clock_part_plain (state (Clock i)) k (Hc k n Hn)) as (_ & ? & ? & _). done. }
  induction Hf as [|w l Hw Hf IH]; [split; unfold absent; apply not_elem_of_nil|]. destruct l as [|w' l]; [done|].
  change (String.concat " " (w :: w' :: l)) with (w +:+ " " +:+ String.concat " " (w' :: l)).
  rewrite !absent_app. split_and!; try apply Hw; try apply IH; unfold absent; set_solver.
Qed.

(** The canonical form tells the clock. *)
Lemma canonical_clock i j s :
  plain_item i → plain_item j → canonicalItemString i = Some s → canonicalItemString j = Some s → clock i = clock j.
Proof.
  intros Hi Hj (v & _ & Ei)%canonical_fields (w & _ & Ej)%canonical_fields. rewrite Ei in Ej. clear Ei.
  assert (∀ b : bool, "|"%char ∉ to_bytes "deleted=" ++ to_bytes (if b then "true" else "false")) as Hd
    by (intros []; apply (bool_decide_unpack _); vm_compute; done).
  apply sep_inj_r in Ej as [Ej _]; [|apply Hd..].
  assert (∀ n, plain_name n → "|"%char ∉ to_bytes "by=" ++ to_bytes n) as Hb.
  { intros n (_ & Hn & _). rewrite not_elem_of_app. split; [|exact Hn]. apply (bool_decide_unpack _). vm_compute. done. }
  apply sep_inj_r in Ej as [Ej _]; [|apply Hb; [apply Hi||apply Hj]..].
  assert (∀ x, absent "|" x → "|"%char ∉ to_bytes "vc={[" ++ to_bytes x ++ to_bytes "]}") as Hv.
  { intros x Hx. rewrite !not_elem_of_app. split_and!; [|exact Hx|]; apply (bool_decide_unpack _); vm_compute; done. }
  apply sep_inj_r in Ej as [_ Ej]; [|apply Hv; by apply clock_text_plain..].
  apply app_inv_head, app_inv_tail, to_bytes_inj, joined_inj in Ej.
  - apply clock_parts_inj in Ej. by rewrite !Snapshot_state in Ej.
  - apply clock_words, Hi.
  - apply clock_words, Hj.
Qed.
End canonical.

(** ** Buckets *)

Section buckets.
Context `{!JsonCodec value} `{!JsonText value}.
Context {P IO E : Type} `{!Persister P IO E} `{!PersisterSpec P IO E}.
Implicit Types (ds : DataStore P).

(** A key that cannot be taken for an item. *)
Definition plain_key (k : string) : Prop := absent nul k ∧ String.prefix "value=" k = false.

Definition plain_store ds : Prop :=
  ∀ k, siblings ds k ≠ [] → plain_key k ∧ ∀ v, v ∈ siblings ds k → plain_item v.

Lemma canonical_form i s :
  plain_item i → canonicalItemString i = Some s → String.prefix "value=" s = true ∧ absent nul s.
Proof.
  intros Hi Hs. pose proof (canonical_fields i s Hs) as (v & Hv & Es). split.
  - unfold canonicalItemString in Hs. rewrite Hv in Hs. injection Hs as <-. cbn. by destruct (of_bytes v +:+ _).
  - unfold absent. rewrite Es. pose proof (json_no_zero _ _ Hv) as Hz. fold nul in Hz.
    destruct (clock_text_plain i Hi) as [_ Hc]. destruct Hi as (_ & Hb & _).
    assert (∀ t, bool_decide (nul ∈ to_bytes t) = false → nul ∉ to_bytes t) as Ht by (intros t; apply bool_decide_eq_false).
    repeat (rewrite not_elem_of_app || rewrite not_elem_of_cons). unfold absent in *.
    split_and!; try done; try (by apply Ht); by destruct (IsDeleted i); apply Ht.
Qed.

(** A key with its items' canonical forms, as they are hashed. *)
Definition hashed ds (k : string) : string * list string := (k, sort_strings (default [] (item_strings ds k))).

Lemma content_words ds keys bs :
  content_bytes ds keys = Some bs →
  bs = (to_bytes <$> ((hashed ds <$> keys) ≫= λ p, p.1 :: p.2)) ≫= λ w, w ++ [nul].
Proof.
  revert bs. induction keys as [|k keys IH]; intros bs; cbn [content_bytes]; [by intros [= <-]|].
  destruct (item_strings ds k) as [ss|] eqn:Hss; [|done]. destruct (content_bytes ds keys) as [bs'|]; [|done].
  cbn [mbind option_bind]. intros [= <-]. rewrite (IH bs' eq_refl), fmap_cons, bind_cons.
  assert (hashed ds k = (k, sort_strings ss)) as -> by (unfold hashed; by rewrite Hss). cbn [fst snd].
  rewrite fmap_app, bind_app, fmap_cons, bind_cons. unfold key_bytes. f_equal. rewrite <-app_assoc. cbn [app]. f_equal. f_equal.
  generalize (sort_strings ss). intros l. induction l as [|s l IHl]; [done|]. rewrite fmap_cons, !bind_cons. by rewrite IHl.
Qed.

Lemma item_strings_plain ds k s :
  plain_store ds → s ∈ default [] (item_strings ds k) → String.prefix "value=" s = true ∧ absent nul s.
Proof.
  intros Hp. unfold item_strings. destruct (mapM canonicalItemString (siblings ds k)) as [ss|] eqn:Hm; cbn [default from_option];
    [|by intros ?%not_elem_of_nil]. unfold id. intros Hs. apply mapM_Some in Hm.
  apply list_elem_of_lookup in Hs as [i Hi]. destruct (Forall2_lookup_r _ _ _ _ _ Hm Hi) as (v & Hv & Hc).
  apply list_elem_of_lookup_2 in Hv. eapply canonical_form; [|exact Hc]. apply (Hp k); [|done]. intros E0. rewrite E0 in Hv.
  by apply not_elem_of_nil in Hv.
Qed.

(** The keys' and items' words of a bucket of a plain store. *)
Lemma hashed_plain ds keys :
  plain_store ds → (∀ k, k ∈ keys → siblings ds k ≠ []) →
  Forall (λ p, String.prefix "value=" p.1 = false ∧ Forall (λ x, String.prefix "value=" x = true) p.2) (hashed ds <$> keys) ∧
  Forall (λ w, nul ∉ w) (to_bytes <$> ((hashed ds <$> keys) ≫= λ p, p.1 :: p.2)).
Proof.
  intros Hp Hk. rewrite !Forall_fmap, !Forall_forall. split.
  - intros k Hin. cbn. split; [apply (Hp k), Hk, Hin|]. apply Forall_forall. intros s. rewrite sort_strings_elem.
    intros Hs. by apply (item_strings_plain ds k).
  - intros w (p & Hw & (k & -> & Hin)%list_elem_of_fmap)%list_elem_of_bind. cbn in Hw. apply elem_of_cons in Hw as [->|Hw].
    + apply (Hp k), Hk, Hin.
    + rewrite sort_strings_elem in Hw. by apply (item_strings_plain ds k).
Qed.

(** Equal texts: the same keys, with versions of the same clocks. *)
Lemma equal_texts ds1 ds2 keys1 keys2 bs :
  plain_store ds1 → plain_store ds2 → (∀ k, k ∈ keys1 → siblings ds1 k ≠ []) → (∀ k, k ∈ keys2 → siblings ds2 k ≠ []) →
  content_bytes ds1 keys1 = Some bs → content_bytes ds2 keys2 = Some bs →
  keys1 = keys2 ∧ ∀ k, k ∈ keys1 → ∀ x, covered x (siblings ds1 k) ↔ covered x (siblings ds2 k).
Proof.
  intros Hp1 Hp2 Hk1 Hk2 H1 H2. destruct (hashed_plain ds1 keys1 Hp1 Hk1) as [F1 W1], (hashed_plain ds2 keys2 Hp2 Hk2) as [F2 W2].
  assert (hashed ds1 <$> keys1 = hashed ds2 <$> keys2) as Hh.
  { apply (groups_inj (String.prefix "value=") _ _ F1 F2). apply (inj (fmap (M := list) to_bytes)).
    apply (terminated_inj nul _ _ W1 W2). rewrite <-(content_words _ _ _ H1). by apply content_words. }
  assert (keys1 = keys2) as <-.
  { apply (f_equal (fmap fst)) in Hh. rewrite <-!list_fmap_compose in Hh. unfold compose in Hh. cbn in Hh.
    by rewrite !list_fmap_id in Hh. }
  split; [done|]. intros k Hk.
  assert (hashed ds1 k = hashed ds2 k) as Ek.
  { apply list_elem_of_lookup in Hk as [i Hi]. apply (f_equal (λ l, l !! i)) in Hh. rewrite !list_lookup_fmap, Hi in Hh.
    by apply (inj Some) in Hh. }
  assert (∀ ds, content_bytes ds keys1 = Some bs → is_Some (item_strings ds k)) as Hsome.
  { intros ds. clear -Hk. revert bs. induction keys1 as [|k' keys IH]; intros bs; cbn [content_bytes]; [set_solver|].
    destruct (item_strings ds k') as [ss|] eqn:E1; [|done]. destruct (content_bytes ds keys) as [b|]; [|done]. intros _.
    apply elem_of_cons in Hk as [->|Hk]; [eauto|by eapply IH]. }
  destruct (Hsome ds1 H1) as [ss1 E1], (Hsome ds2 H2) as [ss2 E2]. unfold hashed in Ek. rewrite E1, E2 in Ek. injection Ek as Ek.
  cbn in Ek. assert (ss1 ≡ₚ ss2) as Hperm by (by rewrite <-(sort_strings_perm ss1), Ek, sort_strings_perm).
  unfold item_strings in E1, E2. apply mapM_Some in E1, E2.
  assert (∀ dsa dsb ssa ssb, plain_store dsa → plain_store dsb → ssa ≡ₚ ssb →
    Forall2 (λ v s, canonicalItemString v = Some s) (siblings dsa k) ssa →
    Forall2 (λ v s, canonicalItemString v = Some s) (siblings dsb k) ssb →
    ∀ x, covered x (siblings dsa k) → covered x (siblings dsb k)) as Hgo.
  { intros dsa dsb ssa ssb Ha Hb Hpp Fa Fb x (v & Hv & Hle). pose proof Hv as Hv'. apply list_elem_of_lookup in Hv' as [i Hi].
    destruct (Forall2_lookup_l _ _ _ _ _ Fa Hi) as (s & Hs & Hc). apply list_elem_of_lookup_2 in Hs. rewrite Hpp in Hs.
    apply list_elem_of_lookup in Hs as [j Hj]. destruct (Forall2_lookup_r _ _ _ _ _ Fb Hj) as (w & Hw & Hc').
    apply list_elem_of_lookup_2 in Hw. exists w. split; [done|].
    rewrite <-(canonical_clock v w s); [done| | |done|done].
    - apply (Ha k); [|done]. intros E0. rewrite E0 in Hv. by apply not_elem_of_nil in Hv.
    - apply (Hb k); [|done]. intros E0. rewrite E0 in Hw. by apply not_elem_of_nil in Hw. }
  intros x. split; [by apply (Hgo ds1 ds2 ss1 ss2)|by apply (Hgo ds2 ds1 ss2 ss1)].
Qed.

(** The text of bucket [b] of a store. *)
Definition bucket_text ds (n b : nat) : option bytes :=
  match Keys ds with Ok keys => content_bytes ds (sort_strings (bfilter (in_bucket n b) keys)) | Err _ => None end.

(** SHA-256 does not collide on the texts of the two stores' buckets. *)
Definition texts_apart ds1 ds2 (n : nat) : Prop :=
  ∀ b bs1 bs2, b < n → bucket_text ds1 n b = Some bs1 → bucket_text ds2 n b = Some bs2 → sha256 bs1 = sha256 bs2 → bs1 = bs2.

Definition texts_apartb ds1 ds2 (n : nat) : bool :=
  forallb (λ b, match bucket_text ds1 n b, bucket_text ds2 n b with
                | Some bs1, Some bs2 => bool_decide (bs1 = bs2) || negb (bool_decide (sha256 bs1 = sha256 bs2))
                | _, _ => true
                end) (seq 0 n).

Lemma texts_apartb_true ds1 ds2 n : texts_apartb ds1 ds2 n = true → texts_apart ds1 ds2 n.
Proof.
  unfold texts_apartb. rewrite forallb_forall. intros Hb b bs1 bs2 Hlt H1 H2 Heq. specialize (Hb b).
  rewrite H1, H2 in Hb. destruct (bool_decide (bs1 = bs2)) eqn:Eb; [by apply bool_decide_eq_true in Eb|].
  rewrite (bool_decide_eq_true_2 _ Heq) in Hb. discriminate Hb. apply in_seq. lia.
Qed.

(** A bucket of which no difference is reported is the same on both sides. *)
Lemma equal_buckets_agree a1 a2 ds1 ds2 z s t bs :
  p_ok (persister ds1) → p_ok (persister ds2) → plain_store ds1 → plain_store ds2 →
  Build a1 ds1 z = Ok s → Build a2 ds2 z = Ok t → DivergentBuckets s t = Some bs →
  collision_free s t → texts_apart ds1 ds2 (Z.to_nat z) →
  ∀ k, BucketFor k (Z.to_nat z) ∉ bs → ∀ x, covered x (siblings ds1 k) ↔ covered x (siblings ds2 k).
Proof.
  intros Hok1 Hok2 Hp1 Hp2 Hs Ht Hd Hcf Hapart k Hk.
  destruct (Build_spec a1 ds1 z s Hok1 Hs) as (keys1 & Hk1 & Hs' & Hn1 & Hl1).
  destruct (Build_spec a2 ds2 z t Hok2 Ht) as (keys2 & Hk2 & Ht' & Hn2 & Hl2).
  destruct (tree_height s Hs') as [L HL]. assert (NumBuckets t = NumBuckets s) as Hst by congruence.
  assert (0 < NumBuckets s) as Hpos by (rewrite HL; pose proof (Nat.pow_nonzero 2 L); lia).
  set (b := BucketFor k (Z.to_nat z)) in *. assert (b < NumBuckets s) as Hb by (rewrite Hn1 in *; by apply BucketFor_lt).
  assert (leaf s b = leaf t b) as Hleaf.
  { destruct (walk_spec s t L Hs' Ht' HL Hst L 0 0 (NumBuckets s)) as (bs' & Hw & _ & Hall);
      [lia|simpl; lia|rewrite HL; apply Nat.pow_gt_lin_r; lia|].
    unfold DivergentBuckets in Hd. rewrite Hst, Nat.eqb_refl in Hd. change (idx 0 0) with 0 in Hw. rewrite Hd in Hw.
    injection Hw as ->. destruct (decide (leaf s b = leaf t b)) as [|Hne]; [done|]. exfalso. apply Hk. rewrite (Hall Hcf).
    apply elem_of_bfilter. split; [unfold differs; by rewrite bool_decide_eq_false_2|]. apply elem_of_seq. rewrite <-HL. lia. }
  destruct (Hl1 b Hb) as (bs1 & E1 & L1), (Hl2 b ltac:(lia)) as (bs2 & E2 & L2). rewrite Hn1 in E1. rewrite Hn2 in E2.
  assert (bs1 = bs2) as <-.
  { apply (Hapart b); [lia| | |congruence]; unfold bucket_text; [by rewrite Hk1|by rewrite Hk2]. }
  assert (∀ ds keys, p_ok (persister ds) → Keys ds = Ok keys → ∀ j, j ∈ sort_strings (bfilter (in_bucket (Z.to_nat z) b) keys) ↔
    siblings ds j ≠ [] ∧ BucketFor j (Z.to_nat z) = b) as Hin.
  { intros ds keys Hok Hkeys j. rewrite sort_strings_elem, elem_of_bfilter. unfold in_bucket. rewrite Nat.eqb_eq.
    pose proof (p_lists _ Hok) as Hls. unfold Keys in Hkeys. rewrite Hkeys in Hls. destruct Hls as [_ Hls]. rewrite Hls.
    unfold siblings. split; intros [H1 H2]; split; try done; intros E0; [apply H2|apply H1; by rewrite E0].
    apply (f_equal (@rev _)) in E0. by rewrite rev_involutive in E0. }
  destruct (equal_texts ds1 ds2 _ _ bs1 Hp1 Hp2 (λ j Hj, proj1 (proj1 (Hin ds1 keys1 Hok1 Hk1 j) Hj))
    (λ j Hj, proj1 (proj1 (Hin ds2 keys2 Hok2 Hk2 j) Hj)) E1 E2) as [Hsame Hcov].
  destruct (decide (siblings ds1 k = [])) as [Hnil|Hne].
  - assert (siblings ds2 k = []) as Hnil2.
    { destruct (decide (siblings ds2 k = [])) as [|Hne2]; [done|]. exfalso.
      assert (k ∈ sort_strings (bfilter (in_bucket (Z.to_nat z) b) keys2)) as Hx by (apply (Hin ds2 keys2 Hok2 Hk2); done).
      rewrite <-Hsame in Hx. apply (Hin ds1 keys1 Hok1 Hk1) in Hx as [Hx _]. done. }
    by rewrite Hnil, Hnil2.
  - apply Hcov. apply (Hin ds1 keys1 Hok1 Hk1). done.
Qed.
End buckets.

(** ** The conditions, decided *)

Definition absentb (c : ascii) (s : string) : bool := bool_decide (c ∉ to_bytes s).
Definition plain_nameb (s : string) : bool := absentb nul s && absentb "|" s && absentb " " s.
Definition plain_itemb (i : DataItem) : bool :=
  forallb (λ p, plain_nameb p.1) (map_to_list (state (Clock i))) && plain_nameb (LastUpdatedBy i).

Lemma plain_nameb_true s : plain_nameb s = true → plain_name s.
Proof.
  unfold plain_nameb, absentb. rewrite !andb_true_iff, !bool_decide_eq_true. by intros [[? ?] ?].
Qed.

Lemma plain_itemb_true i : plain_itemb i = true → plain_item i.
Proof.
  unfold plain_itemb. rewrite andb_true_iff, forallb_forall. intros [Hc Hn]. split; [|by apply plain_nameb_true].
  intros k n Hk. apply plain_nameb_true. apply (Hc (k, n)). by apply list_elem_of_In, elem_of_map_to_list.
Qed.

(** A store in memory. *)
Definition plain_memb (m : gmap string (list itemptr)) : bool :=
  forallb (λ p, absentb nul p.1 && negb (String.prefix "value=" p.1) && forallb (λ i, plain_itemb (deref i)) p.2) (map_to_list m).

Lemma plain_memb_true (ds : DataStore (gmap string (list itemptr))) : plain_memb (persister ds) = true → plain_store ds.
Proof.
  unfold plain_memb. rewrite forallb_forall. intros Hm k Hk. unfold siblings in *. cbn [p_versions mem_persister_spec] in *.
  unfold mem_versions in *. destruct (persister ds !! k) as [items|] eqn:E; [|by destruct Hk].
  specialize (Hm (k, items)). cbn [fst snd] in Hm. rewrite !andb_true_iff, negb_true_iff, forallb_forall in Hm.
  destruct Hm as [[H1 H2] H3]; [by apply list_elem_of_In, elem_of_map_to_list|].
  split; [split; [by apply bool_decide_eq_true in H1|done]|]. intros v. rewrite <-Permutation_rev. cbn [default from_option].
  unfold id. intros (i & -> & Hi)%list_elem_of_fmap. apply plain_itemb_true, H3. rewrite <-Permutation_rev in Hi. by apply list_elem_of_In.
Qed.

Definition collision_freeb (s t : Tree) : bool :=
  forallb (λ i, let a := (node_at (Nodes s) (2 * i + 1), node_at (Nodes s) (2 * i + 2)) in
                let b := (node_at (Nodes t) (2 * i + 1), node_at (Nodes t) (2 * i + 2)) in
                bool_decide (a = b) || negb (bool_decide (combineHashes a.1 a.2 = combineHashes b.1 b.2)))
    (seq 0 (NumBuckets s - 1)).

Lemma collision_freeb_true s t : collision_freeb s t = true → collision_free s t.
Proof.
  unfold collision_freeb. rewrite forallb_forall. intros Hb i Hi Heq. specialize (Hb i ltac:(apply in_seq; lia)).
  cbv zeta in Hb. apply orb_true_iff in Hb as [Hb|Hb].
  - apply bool_decide_eq_true in Hb. by injection Hb.
  - cbn [fst snd] in Hb. rewrite (bool_decide_eq_true_2 _ Heq) in Hb. discriminate Hb.
Qed.

(** The codec on [Countable] writes only digits. *)
Lemma toy_value_text : @JsonText value toy_value_json.
Proof.
  intros v b E. injection E as <-. generalize (encode v). intros p. induction p as [p IH|p IH|]; cbn [bits_of]; set_solver.
Qed.
