(* ===== verification/AntiEntropy.v ===== *)
(** * Anti-entropy (internal/node/antientropy.go, internal/rpc/server.go)

    One node's reconciliation with a peer: the trees are compared, and for each
    key of a divergent bucket that both replicate, each side is sent the
    versions it is missing.  The peer is its store behind the server's
    operations. *)

From stdpp Require Import gmap strings list.
From Stdlib Require Import ZArith Lia.
From S2P Require Import Prelude GoLib VectorClock Versioning Json HashRing Datastore Hints Coordinate Merkle.

Definition antiEntropyNumBuckets : nat := 16.

(** ** What is missing *)

(** The inner loop of [missingFrom]. *)
Fixpoint covers (set : list itemptr) (item : itemptr) : bool :=
  match set with
  | [] => false
  | have :: rest =>
      match compare have item with
      | After | Equal => true
      | Before | Concurrent => covers rest item
      end
  end.

Fixpoint missingFrom (set incoming : list itemptr) : list itemptr :=
  match incoming with
  | [] => []
  | item :: rest => if covers set item then missingFrom set rest else item :: missingFrom set rest
  end.

Lemma compare_covers (have item : itemptr) :
  match compare have item with After | Equal => clock item ⊑c clock have | Before | Concurrent => ¬ clock item ⊑c clock have end.
Proof.
  unfold compare. destruct (CompareSnapshots_spec (clock have) (clock item)) as (HE & HB & HA).
  pose proof (Relation_exhaustive (clock have) (clock item)) as HC. destruct (CompareSnapshots (clock have) (clock item)).
  - apply (proj1 HE eq_refl).
  - apply (proj1 HB eq_refl).
  - apply vlt_le, HA. done.
  - apply (proj1 HC eq_refl).
Qed.

Lemma covers_spec set item : covers set item = true ↔ covered (clock item) set.
Proof.
  induction set as [|have rest IH]; cbn [covers].
  { split; [done|]. intros Hc. by apply covered_nil in Hc. }
  pose proof (compare_covers have item) as Hspec.
  assert (covered (clock item) (have :: rest) ↔ clock item ⊑c clock have ∨ covered (clock item) rest) as ->.
  { unfold covered. split.
    - intros (y & [->|Hy]%elem_of_cons & Hle); [by left|right; by exists y].
    - intros [Hle|(y & Hy & Hle)]; [exists have|exists y]; (split; [set_solver|done]). }
  destruct (compare have item); rewrite ?IH; tauto.
Qed.

Lemma missingFrom_spec set incoming i : i ∈ missingFrom set incoming ↔ i ∈ incoming ∧ ¬ covered (clock i) set.
Proof.
  induction incoming as [|x rest IH]; cbn [missingFrom]; [set_solver|]. destruct (covers set x) eqn:Ec.
  - apply covers_spec in Ec. rewrite IH, elem_of_cons. split; [tauto|]. intros [[->|?] ?]; [tauto|done].
  - apply not_true_iff_false in Ec. rewrite covers_spec in Ec. rewrite !elem_of_cons, IH. split; [|tauto].
    intros [->|?]; tauto.
Qed.

(** What a merge of the missing versions covers is what both sides covered. *)
Lemma missing_covers set incoming c :
  covered c set ∨ covered c (missingFrom set incoming) ↔ covered c set ∨ covered c incoming.
Proof.
  split; (intros [Hc|(i & Hi & Hle)]; [by left|]).
  - apply missingFrom_spec in Hi as [Hi _]. right. by exists i.
  - destruct (decide (covers set i = true)) as [Hcov|Hn].
    + left. eapply covered_le; [exact Hle|by apply covers_spec].
    + right. exists i. split; [|done]. apply missingFrom_spec. split; [done|]. by rewrite <-covers_spec.
Qed.

(** ** Operations *)

Section operations.
Context `{!JsonCodec value}.
Context {P IO E : Type} `{!Persister P IO E} (halted : E → bool).

(** The preference list names both. *)
Fixpoint shares_loop (self peer : string) (preferenceList : list string) (s p : bool) : bool :=
  match preferenceList with
  | [] => s && p
  | nodeID :: rest =>
      shares_loop self peer rest (s || bool_decide (nodeID = self)) (p || bool_decide (nodeID = peer))
  end.

Definition sharesReplicaSet (self : string) (hr : HashRing) (n : nat) (key peerID : string) : bool :=
  shares_loop self peerID (GetPreferenceList hr key n) false false.

(** [Server.GetBucketKeys] *)
Definition GetBucketKeys (ds : DataStore P) (bucketIndex numBuckets : nat) : res code (list string) :=
  match Keys ds with
  | Err _ => Err Internal
  | Ok allKeys => Ok (bfilter (λ k, BucketFor k numBuckets =? bucketIndex) allKeys)
  end.

(** [Server.GetMerkleTree]; a panic of [Build] ends the server, and the caller
    sees it as unavailable. *)
Definition GetMerkleTree (a : N) (ds : DataStore P) (numBuckets : Z) : res code Tree :=
  match Build a ds numBuckets with
  | Err (ListKeys _) | Err (ReadKey _ _) => Err Internal
  | Err _ => Err Unavailable
  | Ok t => Ok t
  end.

Inductive ae_error :=
  | BuildLocal (e : merkle_error E)
  | Dial
  | FetchTree (c : code)
  | ListLocal (e : E)
  | BucketKeys (c : code)
  | ReadLocal (key : string) (e : E)
  | FetchKey (key : string) (c : code)
  | InstallLocal (key : string) (e : E)
  | PushKey (key : string) (c : code).

(** What the environment decides: where reads allocate, the stores' outcomes
    on each side, whether the peer can be dialled, which calls fail on the way ([lost] with the request or with
    the answer), and in which order the map of keys is iterated. *)
Record ae_env := mkAeEnv {
  ae_alloc : N; ae_io : string → N → IO; ae_peer_io : string → N → IO;
  dial_fails : bool; tree_lost : option code; keys_lost : nat → option code;
  fetch_lost : string → option code; push_lost : string → option code; push_reply_lost : string → option code;
  key_order : gset string → list string
}.

(** Both stores, and the node's counts of keys pulled and pushed. *)
Record ae_state := mkAe { local : DataStore P; peer : DataStore P; aeKeysPulled : N; aeKeysPushed : N }.

Fixpoint install_loop (io : N → IO) (i : N) (ds : DataStore P) (key : string) (items : list itemptr)
    : DataStore P * option E :=
  match items with
  | [] => (ds, None)
  | item :: rest =>
      match MergeReplicated (io i) ds key item with
      | (ds, Some err) => (ds, Some err)
      | (ds, None) => install_loop io (i + 1) ds key rest
      end
  end.

(** The body of [reconcileBucket]'s last loop. *)
Definition reconcile_key (env : ae_env) (st : ae_state) (key : string) : ae_state * option ae_error :=
  match Datastore.Get (ae_alloc env) (local st) key with
  | Err err => (st, Some (ReadLocal key err))
  | Ok (localItems, _) =>
      match fetch_lost env key with
      | Some c => (st, Some (FetchKey key c))
      | None =>
          match FetchItem (ae_alloc env + N.of_nat (length localItems)) (peer st) key with
          | Err c => (st, Some (FetchKey key c))
          | Ok (remoteItems, _) =>
              let toPull := missingFrom localItems remoteItems in
              match install_loop (ae_io env key) 0 (local st) key toPull with
              | (ds, Some err) => (mkAe ds (peer st) (aeKeysPulled st) (aeKeysPushed st), Some (InstallLocal key err))
              | (ds, None) =>
                  let pulled := match toPull with [] => aeKeysPulled st | _ => u64 (aeKeysPulled st + 1) end in
                  let toPush := missingFrom remoteItems localItems in
                  match toPush with
                  | [] => (mkAe ds (peer st) pulled (aeKeysPushed st), None)
                  | _ =>
                      match push_lost env key with
                      | Some c => (mkAe ds (peer st) pulled (aeKeysPushed st), Some (PushKey key c))
                      | None =>
                          let '(pds, err) := Replicate halted (ae_peer_io env key) (peer st) key (Some <$> toPush) in
                          match err, push_reply_lost env key with
                          | None, None => (mkAe ds pds pulled (u64 (aeKeysPushed st + 1)), None)
                          | Some c, _ | None, Some c => (mkAe ds pds pulled (aeKeysPushed st), Some (PushKey key c))
                          end
                      end
                  end
              end
          end
      end
  end.

Fixpoint reconcile_keys (env : ae_env) (st : ae_state) (keys : list string) : ae_state * option ae_error :=
  match keys with
  | [] => (st, None)
  | key :: rest =>
      match reconcile_key env st key with
      | (st, Some err) => (st, Some err)
      | (st, None) => reconcile_keys env st rest
      end
  end.

(** The keys of a bucket to reconcile: held by either side, replicated by both. *)
Definition bucket_keys (shares : string → bool) (bucketIdx : nat) (localKeys remoteKeys : list string) : gset string :=
  list_to_set (bfilter shares (bfilter (λ k, BucketFor k antiEntropyNumBuckets =? bucketIdx) localKeys)) ∪
  list_to_set (bfilter shares remoteKeys).

Definition reconcileBucket (env : ae_env) (shares : string → bool) (st : ae_state) (bucketIdx : nat)
    : ae_state * option ae_error :=
  match Keys (local st) with
  | Err err => (st, Some (ListLocal err))
  | Ok allLocalKeys =>
      match keys_lost env bucketIdx, GetBucketKeys (peer st) bucketIdx antiEntropyNumBuckets with
      | Some c, _ | None, Err c => (st, Some (BucketKeys c))
      | None, Ok remoteKeys =>
          reconcile_keys env st (key_order env (bucket_keys shares bucketIdx allLocalKeys remoteKeys))
      end
  end.

Fixpoint reconcile_buckets (env : ae_env) (shares : string → bool) (st : ae_state) (diverged : list nat)
    : ae_state * option ae_error :=
  match diverged with
  | [] => (st, None)
  | bucketIdx :: rest =>
      match reconcileBucket env shares st bucketIdx with
      | (st, Some err) => (st, Some err)
      | (st, None) => reconcile_buckets env shares st rest
      end
  end.

(** [RunAntiEntropy]; [None] if the trees could not be compared. *)
Definition RunAntiEntropy (env : ae_env) (shares : string → bool) (st : ae_state) : option (ae_state * option ae_error) :=
  match Build (ae_alloc env) (local st) (Z.of_nat antiEntropyNumBuckets) with
  | Err err => Some (st, Some (BuildLocal err))
  | Ok localTree =>
      if dial_fails env then Some (st, Some Dial) else
      match tree_lost env, GetMerkleTree (ae_alloc env) (peer st) (Z.of_nat antiEntropyNumBuckets) with
      | Some c, _ | None, Err c => Some (st, Some (FetchTree c))
      | None, Ok remoteTree =>
          match DivergentBuckets localTree remoteTree with
          | None => None
          | Some diverged => Some (reconcile_buckets env shares st diverged)
          end
      end
  end.
End operations.

Arguments ae_state P : clear implicits.
Arguments ae_env IO : clear implicits.

(** ** What reconciliation does *)

Section spec.
Context `{!JsonCodec value}.
Context {P IO E : Type} `{!Persister P IO E} `{!PersisterSpec P IO E} (halted : E → bool).
Implicit Types (ds : DataStore P) (st : ae_state P) (env : ae_env IO).

(** The stores can take each version they are sent. *)
Fixpoint accepts_all (io : N → IO) (i : N) ds (key : string) (items : list itemptr) : Prop :=
  match items with
  | [] => True
  | item :: rest =>
      p_accepts (persister ds) key item ∧ accepts_all io (i + 1) (MergeReplicated (io i) ds key item).1 key rest
  end.

Definition key_accepts env st (key : string) : Prop :=
  ∀ localItems remoteItems f g,
    Datastore.Get (ae_alloc env) (local st) key = Ok (localItems, f) →
    FetchItem (ae_alloc env + N.of_nat (length localItems)) (peer st) key = Ok (remoteItems, g) →
    accepts_all (ae_io env key) 0 (local st) key (missingFrom localItems remoteItems) ∧
    accepts_all (ae_peer_io env key) 0 (peer st) key (missingFrom remoteItems localItems).

Fixpoint keys_accept env st (keys : list string) : Prop :=
  match keys with
  | [] => True
  | key :: rest => key_accepts env st key ∧ keys_accept env (reconcile_key halted env st key).1 rest
  end.

Fixpoint buckets_accept env (shares : string → bool) st (diverged : list nat) : Prop :=
  match diverged with
  | [] => True
  | b :: rest =>
      (∀ localKeys remoteKeys, Keys (local st) = Ok localKeys → GetBucketKeys (peer st) b antiEntropyNumBuckets = Ok remoteKeys →
         keys_accept env st (key_order env (bucket_keys shares b localKeys remoteKeys))) ∧
      buckets_accept env shares (reconcileBucket halted env shares st b).1 rest
  end.

Lemma merge_effect io ds key item :
  p_ok (persister ds) → p_accepts (persister ds) key item →
  let '(ds', err) := MergeReplicated io ds key item in
  p_ok (persister ds') ∧ (∀ k, k ≠ key → siblings ds' k = siblings ds k) ∧
  ∀ c, covered c (siblings ds' key) ↔ covered c (siblings ds key) ∨ (err = None ∧ c ⊑c clock item).
Proof.
  intros Hok Hacc. unfold MergeReplicated. pose proof (p_puts io (persister ds) key item Hok Hacc) as Hp.
  destruct (p_Put _ _ _ _) as [p [err|]]; unfold siblings; cbn [persister set_persister].
  - destruct Hp as [Hok' Hsame]. split_and!; [done| |]; intros; rewrite Hsame; [done|]. split; [by left|]. by intros [?|[? ?]].
  - destruct Hp as (Hok' & Hother & _ & Hcov). split_and!; [done|intros k Hk; by rewrite Hother|].
    intros c. rewrite !covered_rev, Hcov. tauto.
Qed.

Lemma install_effect io i ds key items :
  p_ok (persister ds) → accepts_all io i ds key items →
  let '(ds', err) := install_loop io i ds key items in
  p_ok (persister ds') ∧ (∀ k, k ≠ key → siblings ds' k = siblings ds k) ∧
  (∀ c, covered c (siblings ds key) → covered c (siblings ds' key)) ∧
  (err = None → ∀ c, covered c (siblings ds' key) ↔ covered c (siblings ds key) ∨ covered c items).
Proof.
  revert i ds. induction items as [|item items IH]; intros i ds Hok Hacc; cbn [install_loop].
  { split_and!; [done|done|done|]. intros _ c. pose proof (covered_nil (A := itemptr) c). tauto. }
  destruct Hacc as [Hi Hrest]. pose proof (merge_effect (io i) ds key item Hok Hi) as Hm.
  destruct (MergeReplicated (io i) ds key item) as [ds1 err]. cbn [fst] in Hrest. destruct Hm as (Hok1 & Ho1 & Hc1).
  destruct err as [err|].
  { split_and!; [done|done| |done]. intros c Hc. apply Hc1. by left. }
  specialize (IH (i + 1)%N ds1 Hok1 Hrest). destruct (install_loop io (i + 1) ds1 key items) as [ds' err].
  destruct IH as (Hok' & Ho' & Hm' & Hc'). split_and!; [done| | |].
  - intros k Hk. by rewrite Ho', Ho1.
  - intros c Hc. apply Hm', Hc1. by left.
  - intros Herr c. rewrite (Hc' Herr c), Hc1.
    assert (covered c (item :: items) ↔ c ⊑c clock item ∨ covered c items) as ->; [|tauto].
    unfold covered. split.
    + intros (y & [->|Hy]%elem_of_cons & Hle); [by left|right; by exists y].
    + intros [Hle|(y & Hy & Hle)]; [exists item|exists y]; (split; [set_solver|done]).
Qed.

(** A replica merges what it is sent as a node merges what it pulls. *)
Lemma replicate_install io i ds key items :
  replicate_loop halted io i ds key (Some <$> items) =
    let '(ds', err) := install_loop io i ds key items in
    (ds', (λ e, if halted e then Unavailable else Internal) <$> err).
Proof.
  revert i ds. induction items as [|item items IH]; intros i ds; [done|]. rewrite fmap_cons. cbn [replicate_loop install_loop].
  destruct (MergeReplicated (io i) ds key item) as [ds1 [err|]]; [done|]. apply IH.
Qed.

(** Both sides afterwards cover what either side covered. *)
Definition reconciled st st' (k : string) : Prop :=
  ∀ c, (covered c (siblings (local st') k) ↔ covered c (siblings (local st) k) ∨ covered c (siblings (peer st) k)) ∧
       (covered c (siblings (peer st') k) ↔ covered c (siblings (local st) k) ∨ covered c (siblings (peer st) k)).

Definition untouched st st' (k : string) : Prop :=
  siblings (local st') k = siblings (local st) k ∧ siblings (peer st') k = siblings (peer st) k.

Definition keeps st st' : Prop :=
  ∀ k c, (covered c (siblings (local st) k) → covered c (siblings (local st') k)) ∧
         (covered c (siblings (peer st) k) → covered c (siblings (peer st') k)).

Definition both_ok st : Prop := p_ok (persister (local st)) ∧ p_ok (persister (peer st)).

(** A store that gained versions of one key. *)
Definition gained ds ds' (key : string) : Prop :=
  p_ok (persister ds') ∧ (∀ k, k ≠ key → siblings ds' k = siblings ds k) ∧
  ∀ c, covered c (siblings ds key) → covered c (siblings ds' key).

Lemma gained_refl ds key : p_ok (persister ds) → gained ds ds key.
Proof. done. Qed.

Lemma both_gained st ds pds pulled pushed key :
  gained (local st) ds key → gained (peer st) pds key →
  let st' := mkAe ds pds pulled pushed in both_ok st' ∧ (∀ k, k ≠ key → untouched st st' k) ∧ keeps st st'.
Proof.
  intros (Hok & Ho & Hm) (Hok' & Ho' & Hm'). split_and!; [done|by split; [apply Ho|apply Ho']|].
  intros k c. cbn [local peer]. destruct (decide (k = key)) as [->|Hne]; [split; auto|]. by rewrite Ho, Ho'.
Qed.

Lemma install_gains io ds key items :
  p_ok (persister ds) → accepts_all io 0 ds key items → gained ds (install_loop io 0 ds key items).1 key.
Proof.
  intros Hok Hacc. pose proof (install_effect io 0 ds key items Hok Hacc) as Hi.
  destruct (install_loop io 0 ds key items) as [ds' err]. destruct Hi as (H1 & H2 & H3 & _). done.
Qed.

(** The push: what the peer's store becomes. *)
Lemma push_effect io ds key items :
  p_ok (persister ds) → accepts_all io 0 ds key items → items ≠ [] →
  let '(ds', err) := Replicate halted io ds key (Some <$> items) in
  gained ds ds' key ∧ (err = None → ∀ c, covered c (siblings ds' key) ↔ covered c (siblings ds key) ∨ covered c items).
Proof.
  intros Hok Hacc Hne.
  assert (Replicate halted io ds key (Some <$> items) = replicate_loop halted io 0 ds key (Some <$> items)) as -> by (by destruct items).
  rewrite replicate_install. pose proof (install_effect io 0 ds key items Hok Hacc) as Hi.
  destruct (install_loop io 0 ds key items) as [ds' err]. destruct Hi as (H1 & H2 & H3 & H4). split; [done|].
  destruct err; [done|]. intros _. by apply H4.
Qed.

Lemma reconcile_key_effect env st key :
  both_ok st → key_accepts env st key →
  let '(st', err) := reconcile_key halted env st key in
  both_ok st' ∧ (∀ k, k ≠ key → untouched st st' k) ∧ keeps st st' ∧ (err = None → reconciled st st' key).
Proof.
  intros [Hl Hp] Hacc. unfold reconcile_key.
  assert (both_ok st ∧ (∀ k, k ≠ key → untouched st st k) ∧ keeps st st) as (S1 & S2 & S3) by done.
  pose proof (load_siblings (ae_alloc env) (local st) key Hl) as Hlv. unfold Datastore.Get.
  destruct (load (ae_alloc env) (local st) key) as [[li lf]|] eqn:Eg; [|done].
  destruct (fetch_lost env key); [done|]. destruct (FetchItem _ (peer st) key) as [[ri rf]|] eqn:Ef; [|done].
  pose proof (fetch_siblings _ _ _ _ _ Hp Ef) as Hrv. destruct Hlv as [Hlv _].
  destruct (Hacc li ri lf rf Eg Ef) as [Hal Hap]. clear Hacc S1 S2 S3.
  assert (∀ c, covered c li ↔ covered c (siblings (local st) key)) as Cl by (intros c; rewrite <-Hlv; symmetry; apply (covered_map deref clock_deref)).
  assert (∀ c, covered c ri ↔ covered c (siblings (peer st) key)) as Cr by (intros c; rewrite <-Hrv; symmetry; apply (covered_map deref clock_deref)).
  pose proof (install_gains _ _ _ _ Hl Hal) as Hgl. pose proof (install_effect _ _ _ _ _ Hl Hal) as Hi.
  destruct (install_loop _ _ (local st) _ _) as [ds [err|]]; cbn [fst] in Hgl.
  { destruct (both_gained st ds (peer st) (aeKeysPulled st) (aeKeysPushed st) key Hgl (gained_refl _ _ Hp)) as (? & ? & ?). by split_and!. }
  destruct Hi as (_ & _ & _ & Hc1). specialize (Hc1 eq_refl). cbv zeta.
  assert (∀ c, covered c (siblings ds key) ↔ covered c (siblings (local st) key) ∨ covered c (siblings (peer st) key)) as Hlocal
    by (intros c; rewrite Hc1, <-Cl, <-Cr; apply missing_covers).
  set (pulled := match missingFrom li ri with [] => aeKeysPulled st | _ => _ end). clearbody pulled.
  destruct (missingFrom ri li) as [|m ms] eqn:Em.
  - destruct (both_gained st ds (peer st) pulled (aeKeysPushed st) key Hgl (gained_refl _ _ Hp)) as (? & ? & ?).
    split_and!; [done..|]. intros _ c. cbn [local peer]. split; [apply Hlocal|]. pose proof (missing_covers ri li c) as Hmc.
    rewrite Em, Cl, Cr in Hmc. pose proof (covered_nil (A := itemptr) c). tauto.
  - rewrite <-Em in *. assert (missingFrom ri li ≠ []) as Hne by (by rewrite Em). clear Em m ms.
    destruct (push_lost env key).
    { destruct (both_gained st ds (peer st) pulled (aeKeysPushed st) key Hgl (gained_refl _ _ Hp)) as (? & ? & ?). by split_and!. }
    pose proof (push_effect (ae_peer_io env key) (peer st) key _ Hp Hap Hne) as Hpush.
    destruct (Replicate halted _ (peer st) key _) as [pds perr]. destruct Hpush as [Hgp Hcp].
    destruct perr as [c0|], (push_reply_lost env key) as [c1|];
      match goal with |- context [mkAe ds pds pulled ?n] => destruct (both_gained st ds pds pulled n key Hgl Hgp) as (? & ? & ?) end;
      split_and!; try done.
    intros _ c. cbn [local peer]. split; [apply Hlocal|]. rewrite (Hcp eq_refl c), <-Cl, <-Cr.
    pose proof (missing_covers ri li c). tauto.
Qed.

(** *** Sequences of steps *)

Lemma keeps_trans st1 st2 st3 : keeps st1 st2 → keeps st2 st3 → keeps st1 st3.
Proof. intros H1 H2 k c. destruct (H1 k c), (H2 k c). auto. Qed.

Lemma untouched_trans st1 st2 st3 k : untouched st1 st2 k → untouched st2 st3 k → untouched st1 st3 k.
Proof. intros [E1 E2] [E3 E4]. split; congruence. Qed.

Lemma untouched_reconciled st1 st2 st3 k : untouched st1 st2 k → reconciled st2 st3 k → reconciled st1 st3 k.
Proof. intros [E1 E2] H c. destruct (H c) as [H1 H2]. rewrite E1, E2 in *. done. Qed.

Lemma reconciled_untouched st1 st2 st3 k : reconciled st1 st2 k → untouched st2 st3 k → reconciled st1 st3 k.
Proof. intros H [E1 E2] c. destruct (H c) as [H1 H2]. rewrite E1, E2 in *. done. Qed.

Lemma reconciled_trans st1 st2 st3 k : reconciled st1 st2 k → reconciled st2 st3 k → reconciled st1 st3 k.
Proof. intros H H' c. destruct (H c) as [H1 H2], (H' c) as [H3 H4]. tauto. Qed.

Lemma reconcile_keys_effect env st keys :
  both_ok st → keys_accept env st keys →
  let '(st', err) := reconcile_keys halted env st keys in
  both_ok st' ∧ keeps st st' ∧ (∀ k, k ∉ keys → untouched st st' k) ∧ (err = None → ∀ k, k ∈ keys → reconciled st st' k).
Proof.
  revert st. induction keys as [|key keys IH]; intros st Hok Hacc; cbn [reconcile_keys].
  { split_and!; [done|done|done|set_solver]. }
  destruct Hacc as [Hk Hrest]. pose proof (reconcile_key_effect env st key Hok Hk) as He.
  destruct (reconcile_key halted env st key) as [st1 [err|]]; cbn [fst] in Hrest; destruct He as (Hok1 & Hu1 & Hk1 & Hr1).
  { split_and!; [done|done| |done]. intros k Hn. apply Hu1. set_solver. }
  specialize (IH st1 Hok1 Hrest). destruct (reconcile_keys halted env st1 keys) as [st' err].
  destruct IH as (Hok' & Hk' & Hu' & Hr'). split_and!; [done|by eapply keeps_trans| |].
  - intros k Hn. eapply untouched_trans; [apply Hu1; set_solver|apply Hu'; set_solver].
  - intros Herr k [->|Hin]%elem_of_cons.
    + destruct (decide (key ∈ keys)) as [Hin|Hn].
      * eapply reconciled_trans; [by apply Hr1|by apply Hr'].
      * eapply reconciled_untouched; [by apply Hr1|by apply Hu'].
    + destruct (decide (k = key)) as [->|Hne].
      * eapply reconciled_trans; [by apply Hr1|by apply Hr'].
      * eapply untouched_reconciled; [by apply Hu1|by apply Hr'].
Qed.

(** The map of keys is iterated in some order. *)
Definition order_ok env : Prop := ∀ s : gset string, key_order env s ≡ₚ elements s.

Lemma keys_elem ds keys k : p_ok (persister ds) → Keys ds = Ok keys → k ∈ keys ↔ siblings ds k ≠ [].
Proof.
  intros Hok. unfold Keys. pose proof (p_lists (persister ds) Hok) as Hl. intros E1. rewrite E1 in Hl. destruct Hl as [_ Hl].
  rewrite Hl. unfold siblings. destruct (p_versions (persister ds) k) as [|v l]; [done|]. simpl.
  split; [|done]. intros _. by destruct (rev l).
Qed.

Lemma empty_reconciled st k : siblings (local st) k = [] → siblings (peer st) k = [] → reconciled st st k.
Proof. intros E1 E2 c. rewrite E1, E2. pose proof (covered_nil (A := DataItem) c). tauto. Qed.

Lemma reconcileBucket_effect env shares st b :
  both_ok st → order_ok env →
  (∀ lk rk, Keys (local st) = Ok lk → GetBucketKeys (peer st) b antiEntropyNumBuckets = Ok rk →
     keys_accept env st (key_order env (bucket_keys shares b lk rk))) →
  let '(st', err) := reconcileBucket halted env shares st b in
  both_ok st' ∧ keeps st st' ∧
  (∀ k, shares k = false ∨ BucketFor k antiEntropyNumBuckets ≠ b → untouched st st' k) ∧
  (err = None → ∀ k, shares k = true → BucketFor k antiEntropyNumBuckets = b → reconciled st st' k).
Proof.
  intros [Hl Hp] Hord Hacc. unfold reconcileBucket. destruct (Keys (local st)) as [lk|] eqn:Ek; [|done].
  destruct (keys_lost env b); [done|]. destruct (GetBucketKeys (peer st) b antiEntropyNumBuckets) as [rk|] eqn:Er; [|done].
  specialize (Hacc lk rk eq_refl eq_refl). pose proof (reconcile_keys_effect env st _ (conj Hl Hp) Hacc) as He.
  destruct (reconcile_keys _ _ _ _) as [st' err]. destruct He as (Hok' & Hk' & Hu' & Hr').
  unfold GetBucketKeys in Er. destruct (Keys (peer st)) as [pk|] eqn:Ep; [|done]. injection Er as <-.
  assert (∀ k, k ∈ key_order env (bucket_keys shares b lk (bfilter (λ k, BucketFor k antiEntropyNumBuckets =? b) pk)) ↔
    shares k = true ∧ BucketFor k antiEntropyNumBuckets = b ∧ (siblings (local st) k ≠ [] ∨ siblings (peer st) k ≠ [])) as Hmem.
  { intros k. rewrite (Hord _), elem_of_elements. unfold bucket_keys.
    rewrite elem_of_union, !elem_of_list_to_set, !elem_of_bfilter, Nat.eqb_eq.
    rewrite (keys_elem _ _ _ Hl Ek), (keys_elem _ _ _ Hp Ep). tauto. }
  split_and!; [done|done| |].
  - intros k Hk. apply Hu'. rewrite Hmem. intros (? & ? & _). destruct Hk; congruence.
  - intros Herr k Hs Hb. destruct (decide (k ∈ key_order env (bucket_keys shares b lk (bfilter (λ k, BucketFor k antiEntropyNumBuckets =? b) pk)))) as [Hin|Hn].
    + by apply Hr'.
    + eapply untouched_reconciled; [by apply Hu'|]. destruct (Hu' k Hn) as [E1 E2]. rewrite Hmem in Hn.
      apply empty_reconciled; [rewrite E1|rewrite E2].
      * destruct (siblings (local st) k); [done|]. exfalso. apply Hn. by split_and!; [| |left].
      * destruct (siblings (peer st) k); [done|]. exfalso. apply Hn. by split_and!; [| |right].
Qed.

Lemma reconcile_buckets_effect env shares st diverged :
  both_ok st → order_ok env → buckets_accept env shares st diverged →
  let '(st', err) := reconcile_buckets halted env shares st diverged in
  both_ok st' ∧ keeps st st' ∧
  (∀ k, shares k = false ∨ BucketFor k antiEntropyNumBuckets ∉ diverged → untouched st st' k) ∧
  (err = None → ∀ k, shares k = true → BucketFor k antiEntropyNumBuckets ∈ diverged → reconciled st st' k).
Proof.
  intros Hok Hord. revert st Hok. induction diverged as [|b rest IH]; intros st Hok Hacc; cbn [reconcile_buckets].
  { split_and!; [done|done|done|set_solver]. }
  destruct Hacc as [Hb Hrest]. pose proof (reconcileBucket_effect env shares st b Hok Hord Hb) as He.
  destruct (reconcileBucket halted env shares st b) as [st1 [err|]]; cbn [fst] in Hrest; destruct He as (Hok1 & Hk1 & Hu1 & Hr1).
  { split_and!; [done|done| |done]. intros k [Hs|Hn]; apply Hu1; [by left|right; set_solver]. }
  specialize (IH st1 Hok1 Hrest). destruct (reconcile_buckets halted env shares st1 rest) as [st' err].
  destruct IH as (Hok' & Hk' & Hu' & Hr'). split_and!; [done|by eapply keeps_trans| |].
  - intros k Hk. eapply untouched_trans; [apply Hu1|apply Hu']; (destruct Hk as [?|Hn]; [by left|right; set_solver]).
  - intros Herr k Hs Hin. destruct (decide (BucketFor k antiEntropyNumBuckets = b)) as [Heq|Hne].
    + destruct (decide (BucketFor k antiEntropyNumBuckets ∈ rest)) as [Hin'|Hn].
      * eapply reconciled_trans; [by apply Hr1|by apply Hr'].
      * eapply reconciled_untouched; [by apply Hr1|apply Hu'; by right].
    + eapply untouched_reconciled; [apply Hu1; by right|apply Hr'; [done|done|set_solver]].
Qed.

(** A run against one peer, whatever its outcome. *)
Lemma RunAntiEntropy_effect env (shares : string → bool) st :
  both_ok st → order_ok env →
  (∀ s t diverged, Build (ae_alloc env) (local st) (Z.of_nat antiEntropyNumBuckets) = Ok s →
     GetMerkleTree (ae_alloc env) (peer st) (Z.of_nat antiEntropyNumBuckets) = Ok t →
     DivergentBuckets s t = Some diverged → buckets_accept env shares st diverged) →
  ∃ st' err, RunAntiEntropy halted env shares st = Some (st', err) ∧ both_ok st' ∧ keeps st st' ∧
    (err = None →
     ∃ s t diverged, Build (ae_alloc env) (local st) (Z.of_nat antiEntropyNumBuckets) = Ok s ∧
       Build (ae_alloc env) (peer st) (Z.of_nat antiEntropyNumBuckets) = Ok t ∧ DivergentBuckets s t = Some diverged ∧
       ∀ k, if shares k && bool_decide (BucketFor k antiEntropyNumBuckets ∈ diverged)
            then reconciled st st' k else untouched st st' k).
Proof.
  intros Hok Hord Hacc. unfold RunAntiEntropy. destruct (Build _ (local st) _) as [s|] eqn:Es; [|by eexists _, _].
  destruct (dial_fails env); [by eexists _, _|]. destruct (tree_lost env); [by eexists _, _|]. unfold GetMerkleTree in *. destruct (Build _ (peer st) _) as [t|e] eqn:Et; [|destruct e; by eexists _, _].
  destruct (compare_returns _ _ _ _ _ _ _ (proj1 Hok) (proj2 Hok) Es Et) as [diverged Hd]. rewrite Hd.
  pose proof (reconcile_buckets_effect env shares st diverged Hok Hord (Hacc s t diverged eq_refl eq_refl Hd)) as He.
  destruct (reconcile_buckets _ _ _ _ _) as [st' err]. destruct He as (H1 & H2 & H3 & H4).
  exists st', err. split_and!; [done|done|done|]. intros Herr. exists s, t, diverged. split_and!; [done..|]. intros k.
  destruct (shares k) eqn:Hs; cbn [andb]; [|apply H3; by left]. case_bool_decide; [by apply H4|apply H3; by right].
Qed.

(** Anti-entropy brings two replicas together.  Whatever fails on the
    way, neither store loses a version that is not superseded, and keys that
    the two nodes do not both replicate, or in buckets that compare as equal,
    are not touched.  If [RunAntiEntropy] returns no error, then for every
    other key both stores cover exactly what either of them covered before:
    their siblings carry the same clocks. *)
Theorem anti_entropy_converges env (shares : string → bool) st :
  both_ok st → order_ok env →
  (∀ s t diverged, Build (ae_alloc env) (local st) (Z.of_nat antiEntropyNumBuckets) = Ok s →
     GetMerkleTree (ae_alloc env) (peer st) (Z.of_nat antiEntropyNumBuckets) = Ok t →
     DivergentBuckets s t = Some diverged → buckets_accept env shares st diverged) →
  ∃ st' err, RunAntiEntropy halted env shares st = Some (st', err) ∧ both_ok st' ∧ keeps st st' ∧
    (err = None →
     ∃ s t diverged, Build (ae_alloc env) (local st) (Z.of_nat antiEntropyNumBuckets) = Ok s ∧
       Build (ae_alloc env) (peer st) (Z.of_nat antiEntropyNumBuckets) = Ok t ∧ DivergentBuckets s t = Some diverged ∧
       ∀ k, if shares k && bool_decide (BucketFor k antiEntropyNumBuckets ∈ diverged)
            then reconciled st st' k else untouched st st' k).
Proof. apply RunAntiEntropy_effect. Qed.
End spec.

(** ** The theorem at concrete stores *)

Section witness.
#[local] Existing Instance toy_value_json.
Abbreviation mem := (gmap string (list itemptr)).

Lemma mem_accepts_all (io : N → unit) i (ds : DataStore mem) key items : accepts_all io i ds key items.
Proof. revert i ds. induction items as [|x items IH]; intros i ds; [done|]. by split. Qed.

Lemma mem_keys_accept halted (env : ae_env unit) (st : ae_state mem) keys : keys_accept halted env st keys.
Proof.
  revert st. induction keys as [|k keys IH]; intros st; [done|]. split; [|apply IH].
  intros ? ? ? ? _ _. split; apply mem_accepts_all.
Qed.

Lemma mem_buckets_accept halted (env : ae_env unit) shares (st : ae_state mem) bs : buckets_accept halted env shares st bs.
Proof.
  revert st. induction bs as [|b bs IH]; intros st; [done|]. split; [|apply IH]. intros. apply mem_keys_accept.
Qed.

Definition w_ae_env : ae_env unit :=
  mkAeEnv 10 (λ _ _, ()) (λ _ _, ()) false None (λ _, None) (λ _, None) (λ _, None) (λ _, None) elements.

(** One side holds two siblings of a key, the other nothing. *)
Definition w_ae : ae_state mem := mkAe w_store (mkStore "node-2" "node-2#3" ∅) 0 0.

Lemma anti_entropy_converges_witness :
  ∃ st', RunAntiEntropy (λ _, false) w_ae_env (λ _, true) w_ae = Some (st', None) ∧ keeps w_ae st' ∧
    reconciled w_ae st' "k".
Proof.
  destruct (anti_entropy_converges (λ _, false) w_ae_env (λ _, true) w_ae) as (st' & err & Hrun & _ & Hk & Hr).
  - split; [apply w_store_ok|apply mem_ok_empty].
  - intros s. reflexivity.
  - intros. apply mem_buckets_accept.
  - assert (err = None) as ->.
    { pose proof (f_equal (λ r, match r with Some (_, None) => true | _ => false end) Hrun) as E. cbv beta in E.
      destruct err; [|reflexivity]. exfalso.
      assert (match RunAntiEntropy (λ _, false) w_ae_env (λ _, true) w_ae with Some (_, None) => true | _ => false end = true)
        as E' by (vm_cast_no_check (eq_refl true)).
      rewrite E' in E. discriminate E. }
    exists st'. split; [exact Hrun|]. split; [exact Hk|].
    destruct (Hr eq_refl) as (s & t & bs & Hs & Ht & Hd & Hall). specialize (Hall "k"%string).
    assert (bool_decide (BucketFor "k" antiEntropyNumBuckets ∈ bs) = true) as Hin.
    { assert (match Build (ae_alloc w_ae_env) (local w_ae) 16, Build (ae_alloc w_ae_env) (peer w_ae) 16 with
              | Ok s, Ok t => match DivergentBuckets s t with
                              | Some bs => bool_decide (BucketFor "k" antiEntropyNumBuckets ∈ bs)
                              | None => false end
              | _, _ => false end = true) as E by (vm_cast_no_check (eq_refl true)).
      change (Z.of_nat antiEntropyNumBuckets) with 16%Z in Hs, Ht. rewrite Hs, Ht, Hd in E. exact E. }
    rewrite Hin in Hall. exact Hall.
Defined.
End witness.
