(* ===== verification/Quote.v ===== *)
(** * Quoted strings (strconv.Quote, fmt's %q)

    [strconv.Quote] on arbitrary byte strings: UTF-8 decoding, the escapes, and
    raw output of what Unicode calls printable.  The file shows that a quoted
    string can be read back, whatever follows it, so that texts built from
    quoted strings determine them. *)

From stdpp Require Import base list strings.
From Stdlib Require Import ZArith Lia Ascii.
From S2P Require Import Prelude GoLib Sha256.

Open Scope N_scope.

(** ** UTF-8 *)

(** The lead byte: the length of the encoding and the range of the second byte. *)
Definition utf8_first (c : N) : option (nat * N * N) :=
  if (c <? 0xC2) then None
  else if (c <=? 0xDF) then Some (2%nat, 0x80, 0xBF)
  else if (c =? 0xE0) then Some (3%nat, 0xA0, 0xBF)
  else if (c =? 0xED) then Some (3%nat, 0x80, 0x9F)
  else if (c <=? 0xEF) then Some (3%nat, 0x80, 0xBF)
  else if (c =? 0xF0) then Some (4%nat, 0x90, 0xBF)
  else if (c <=? 0xF3) then Some (4%nat, 0x80, 0xBF)
  else if (c =? 0xF4) then Some (4%nat, 0x80, 0x8F)
  else None.

Definition between (lo c hi : N) : bool := (lo <=? c) && (c <=? hi).

(** [utf8.DecodeRuneInString] from a lead byte of 0x80 or more: the rune and
    its bytes, [None] where it returns [(RuneError, 1)]. *)
Definition decode_rune (c0 : N) (rest : list N) : option (N * nat) :=
  match utf8_first c0, rest with
  | Some (2%nat, lo, hi), c1 :: _ =>
      if between lo c1 hi then Some (c0 mod 32 * 64 + c1 mod 64, 2%nat) else None
  | Some (3%nat, lo, hi), c1 :: c2 :: _ =>
      if between lo c1 hi && between 0x80 c2 0xBF
      then Some (c0 mod 16 * 4096 + c1 mod 64 * 64 + c2 mod 64, 3%nat) else None
  | Some (4%nat, lo, hi), c1 :: c2 :: c3 :: _ =>
      if between lo c1 hi && between 0x80 c2 0xBF && between 0x80 c3 0xBF
      then Some (c0 mod 8 * 262144 + c1 mod 64 * 4096 + c2 mod 64 * 64 + c3 mod 64, 4%nat) else None
  | _, _ => None
  end.

(** [utf8.AppendRune] of a valid rune *)
Definition encode_rune (r : N) : list N :=
  if r <? 0x80 then [r]
  else if r <? 0x800 then [0xC0 + r / 64; 0x80 + r mod 64]
  else if r <? 0x10000 then [0xE0 + r / 4096; 0x80 + r / 64 mod 64; 0x80 + r mod 64]
  else [0xF0 + r / 262144; 0x80 + r / 4096 mod 64; 0x80 + r / 64 mod 64; 0x80 + r mod 64].

Ltac decode_bounds :=
  repeat match goal with
  | H : context [if ?b then _ else _] |- _ => destruct b eqn:?; try discriminate
  | H : Some _ = Some _ |- _ => injection H as; subst
  | H : between _ _ _ = true |- _ => unfold between in H
  | H : _ && _ = true |- _ => apply andb_prop in H as [? ?]
  | H : (_ <? _) = true |- _ => apply N.ltb_lt in H
  | H : (_ <? _) = false |- _ => apply N.ltb_ge in H
  | H : (_ <=? _) = true |- _ => apply N.leb_le in H
  | H : (_ <=? _) = false |- _ => apply N.leb_gt in H
  | H : (_ =? _) = true |- _ => apply N.eqb_eq in H
  | H : (_ =? _) = false |- _ => apply N.eqb_neq in H
  end.

(** [lia] with division and modulo *)
Ltac dlia := zify; Z.to_euclidean_division_equations; lia.

Lemma utf8_first_size c sz lo hi :
  utf8_first c = Some (sz, lo, hi) →
  (sz = 2%nat ∧ 0xC2 <= c <= 0xDF ∧ lo = 0x80 ∧ hi = 0xBF) ∨
  (sz = 3%nat ∧ 0xE0 <= c <= 0xEF ∧ 0x80 <= lo ∧ hi <= 0xBF ∧ (c = 0xE0 → lo = 0xA0)) ∨
  (sz = 4%nat ∧ 0xF0 <= c <= 0xF4 ∧ 0x80 <= lo ∧ hi <= 0xBF ∧ (c = 0xF0 → lo = 0x90) ∧ (c = 0xF4 → hi = 0x8F)).
Proof. unfold utf8_first. intros H. decode_bounds; lia. Qed.

(** Decoding is the inverse of encoding, on runes outside ASCII. *)
Lemma decode_encode c0 rest r w :
  decode_rune c0 rest = Some (r, w) →
  encode_rune r = take w (c0 :: rest) ∧ (1 < w ≤ S (length rest))%nat ∧ 0x80 <= r < 0x110000.
Proof.
  unfold decode_rune. destruct (utf8_first c0) as [[[sz lo] hi]|] eqn:E; [|done].
  destruct (utf8_first_size _ _ _ _ E) as [(-> & Hc & -> & ->)|[(-> & Hc & Hlo & Hhi & H0)|(-> & Hc & Hlo & Hhi & H0 & H4)]];
    [destruct rest as [|c1 rest]|destruct rest as [|c1 [|c2 rest]]|destruct rest as [|c1 [|c2 [|c3 rest]]]]; try done;
    clear E; intros H; decode_bounds.
  - assert (c0 mod 32 = c0 - 0xC0 ∧ c1 mod 64 = c1 - 0x80) as [-> ->] by (split; dlia).
    split_and!; [|simpl; lia..]. unfold encode_rune.
    rewrite (proj2 (N.ltb_ge _ _)), (proj2 (N.ltb_lt _ _)) by lia. cbn [take]. repeat f_equal; dlia.
  - assert (c0 mod 16 = c0 - 0xE0 ∧ c1 mod 64 = c1 - 0x80 ∧ c2 mod 64 = c2 - 0x80) as (-> & -> & ->) by (split_and!; dlia).
    assert (0x800 <= (c0 - 0xE0) * 4096 + (c1 - 0x80) * 64 + (c2 - 0x80)) by (destruct (decide (c0 = 0xE0)); [rewrite H0 in *; lia|lia]).
    split_and!; [|simpl; lia..]. unfold encode_rune.
    rewrite !(proj2 (N.ltb_ge _ _)) by lia. rewrite (proj2 (N.ltb_lt _ _)) by lia. cbn [take]. repeat f_equal; dlia.
  - assert (c0 mod 8 = c0 - 0xF0 ∧ c1 mod 64 = c1 - 0x80 ∧ c2 mod 64 = c2 - 0x80 ∧ c3 mod 64 = c3 - 0x80) as (-> & -> & -> & ->) by (split_and!; dlia).
    assert (0x10000 <= (c0 - 0xF0) * 262144 + (c1 - 0x80) * 4096 + (c2 - 0x80) * 64 + (c3 - 0x80) < 0x110000).
    { split; [destruct (decide (c0 = 0xF0)); [rewrite H0 in *; lia|lia]|].
      destruct (decide (c0 = 0xF4)); [rewrite H4 in *; lia|lia]. }
    split_and!; [|simpl; lia..]. unfold encode_rune. rewrite !(proj2 (N.ltb_ge _ _)) by lia. cbn [take]. repeat f_equal; dlia.
Qed.

(** ** Quoting *)

(** Which runes above Latin-1 are printable is in Unicode's tables. *)
Class Unicode := { is_print_wide : N → bool }.

Definition hexd (n : N) : N := if n <? 10 then 48 + n else 87 + n.
Definition unhex (c : N) : N := if c <? 58 then c - 48 else c - 87.

Lemma unhex_hexd n : n < 16 → unhex (hexd n) = n.
Proof.
  unfold unhex, hexd. intros Hn. destruct (N.ltb_spec n 10); [rewrite (proj2 (N.ltb_lt _ _))|rewrite (proj2 (N.ltb_ge _ _))]; lia.
Qed.

Lemma hexd_bound n : n < 16 → hexd n < 128.
Proof. unfold hexd. intros. destruct (N.ltb_spec n 10); lia. Qed.

(** The last [k] digits of [n], and the number some digits stand for. *)
Fixpoint hex_digits (k : nat) (n : N) : list N :=
  match k with
  | O => []
  | S k' => hex_digits k' (n / 16) ++ [hexd (n mod 16)]
  end.
Definition read_hex (l : list N) : N := fold_left (λ n x, n * 16 + unhex x) l 0.

Lemma read_hex_digits k n : n < 16 ^ N.of_nat k → read_hex (hex_digits k n) = n.
Proof.
  revert n. induction k as [|k IH]; intros n Hn; [change (16 ^ N.of_nat 0) with 1 in Hn; unfold read_hex; cbn; lia|]. cbn [hex_digits].
  unfold read_hex in *. rewrite fold_left_app, IH; [cbn [fold_left]; rewrite unhex_hexd; dlia|].
  rewrite Nat2N.inj_succ, N.pow_succ_r' in Hn. apply N.Div0.div_lt_upper_bound. lia.
Qed.

Section quote.
Context `{!Unicode}.

(** [strconv.IsPrint] *)
Definition is_print (r : N) : bool :=
  if r <=? 0xFF then between 0x20 r 0x7E || (between 0xA1 r 0xFF && negb (r =? 0xAD)) else is_print_wide r.

(** The letters after the backslash, and what they stand for. *)
Definition letters : list (N * N) := [(7, 97); (8, 98); (12, 102); (10, 110); (13, 114); (9, 116); (11, 118)].

Definition letter_of (r : N) : option N := snd <$> List.find (λ p, p.1 =? r) letters.
Definition of_letter (e : N) : N := default e (fst <$> List.find (λ p, p.2 =? e) letters).

Definition escape_byte (c : N) : list N := [92; 120; hexd (c / 16); hexd (c mod 16)].

(** [appendEscapedRune] for the double quote *)
Definition escape_rune (r : N) : list N :=
  if (r =? 34) || (r =? 92) then [92; r]
  else if is_print r then encode_rune r
  else match letter_of r with
  | Some e => [92; e]
  | None =>
      if (r <? 32) || (r =? 127) then escape_byte r
      else if r <? 0x10000 then 92 :: 117 :: hex_digits 4 r
      else 92 :: 85 :: hex_digits 8 r
  end.

(** [appendQuotedWith]'s loop; as many rounds as there are bytes are enough. *)
Fixpoint quote_loop (fuel : nat) (s : list N) : list N :=
  match fuel, s with
  | S fuel', c :: rest =>
      if c <? 0x80 then escape_rune c ++ quote_loop fuel' rest
      else match decode_rune c rest with
           | None => escape_byte c ++ quote_loop fuel' rest
           | Some (r, w) => escape_rune r ++ quote_loop fuel' (drop (w - 1) rest)
           end
  | _, _ => []
  end.

Definition quote_codes (s : list N) : list N := 34 :: quote_loop (length s) s ++ [34].

(** [strconv.Quote] *)
Definition codes (b : bytes) : list N := N_of_ascii <$> b.
Definition Quote (s : string) : bytes := ascii_of_N <$> quote_codes (codes (to_bytes s)).

(** ** Reading a quoted string back *)

(** The text behind the opening quote up to the closing one, and what follows. *)
Fixpoint unquote (l acc : list N) : option (list N * list N) :=
  match l with
  | [] => None
  | c :: l1 =>
      if c =? 34 then Some (acc, l1)
      else if c =? 92 then
        match l1 with
        | [] => None
        | e :: l2 =>
            if e =? 120 then
              match l2 with
              | x1 :: x0 :: l3 => unquote l3 (acc ++ [unhex x1 * 16 + unhex x0])
              | _ => None
              end
            else if e =? 117 then
              match l2 with
              | x3 :: x2 :: x1 :: x0 :: l3 =>
                  unquote l3 (acc ++ encode_rune (read_hex [x3; x2; x1; x0]))
              | _ => None
              end
            else if e =? 85 then
              match l2 with
              | x7 :: x6 :: x5 :: x4 :: x3 :: x2 :: x1 :: x0 :: l3 =>
                  unquote l3 (acc ++ encode_rune (read_hex [x7; x6; x5; x4; x3; x2; x1; x0]))
              | _ => None
              end
            else unquote l2 (acc ++ [of_letter e])
        end
      else unquote l1 (acc ++ [c])
  end.

Lemma unquote_raw b l acc :
  Forall (λ c, c ≠ 34 ∧ c ≠ 92) b → unquote (b ++ l) acc = unquote l (acc ++ b).
Proof.
  intros Hb. revert acc. induction Hb as [|c b [H1 H2] _ IH]; intros acc; cbn [app]; [by rewrite app_nil_r|].
  cbn [unquote]. rewrite (proj2 (N.eqb_neq _ _) H1), (proj2 (N.eqb_neq _ _) H2), IH, <-app_assoc. done.
Qed.

Lemma unquote_byte c l acc : c < 256 → unquote (escape_byte c ++ l) acc = unquote l (acc ++ [c]).
Proof.
  intros Hc. unfold escape_byte. cbn [app unquote]. change (92 =? 34) with false. change (92 =? 92) with true.
  change (120 =? 120) with true. cbn match.
  rewrite !unhex_hexd by dlia. do 3 f_equal. dlia.
Qed.

Lemma encode_rune_plain r : r ≠ 34 → r ≠ 92 → Forall (λ c, c ≠ 34 ∧ c ≠ 92) (encode_rune r).
Proof.
  intros H1 H2. unfold encode_rune. repeat case_match; repeat constructor; decode_bounds; dlia.
Qed.

Lemma encode_rune_ascii r : r < 0x80 → encode_rune r = [r].
Proof. intros Hr. unfold encode_rune. by rewrite (proj2 (N.ltb_lt _ _) Hr). Qed.

Lemma letter_of_spec r e : letter_of r = Some e → r < 32 ∧ of_letter e = r ∧ e ≠ 120 ∧ e ≠ 117 ∧ e ≠ 85.
Proof.
  unfold letter_of, letters. cbn [List.find fst]. intros Hl.
  repeat (destruct (_ =? r) eqn:Heq in Hl;
    [apply N.eqb_eq in Heq as <-; injection Hl as <-; split_and!; [lia|reflexivity|lia..]|]; clear Heq).
  done.
Qed.

Lemma unquote_letter e l acc : e ≠ 120 → e ≠ 117 → e ≠ 85 → unquote (92 :: e :: l) acc = unquote l (acc ++ [of_letter e]).
Proof.
  intros H1 H2 H3. cbn [unquote]. change (92 =? 34) with false. change (92 =? 92) with true. cbn match.
  by rewrite (proj2 (N.eqb_neq _ _) H1), (proj2 (N.eqb_neq _ _) H2), (proj2 (N.eqb_neq _ _) H3).
Qed.

Lemma unquote_rune r l acc : r < 0x110000 → unquote (escape_rune r ++ l) acc = unquote l (acc ++ encode_rune r).
Proof.
  intros Hr. unfold escape_rune. destruct (N.eqb_spec r 34) as [->|Hq1]; [by cbn [orb app]; rewrite unquote_letter|].
  destruct (N.eqb_spec r 92) as [->|Hq2]; [by cbn [orb app]; rewrite unquote_letter|]. cbn [orb].
  destruct (is_print r); [by apply unquote_raw, encode_rune_plain|].
  destruct (letter_of r) as [e|] eqn:El.
  { destruct (letter_of_spec _ _ El) as (H32 & <- & ? & ? & ?). cbn [app]. rewrite unquote_letter by done.
    by rewrite (encode_rune_ascii (of_letter e)) by lia. }
  destruct ((r <? 32) || (r =? 127)) eqn:Ec.
  { assert (r < 0x80). { apply orb_true_iff in Ec as [?%N.ltb_lt|?%N.eqb_eq]; lia. }
    rewrite unquote_byte, encode_rune_ascii by lia. done. }
  destruct (N.ltb_spec r 0x10000) as [Hs|Hl].
  - rewrite <-(read_hex_digits 4 r) at 2 by (simpl; lia). reflexivity.
  - rewrite <-(read_hex_digits 8 r) at 2 by (simpl; lia). reflexivity.
Qed.

Lemma unquote_loop fuel s l acc :
  (length s ≤ fuel)%nat → Forall (λ c, c < 256) s →
  unquote (quote_loop fuel s ++ 34 :: l) acc = Some (acc ++ s, l).
Proof.
  revert s acc. induction fuel as [|fuel IH]; intros s acc Hf Hs; cbn [quote_loop].
  { destruct s; [|simpl in Hf; lia]. cbn [app unquote]. by rewrite app_nil_r. }
  destruct s as [|c rest]; [cbn [app unquote]; by rewrite app_nil_r|].
  apply Forall_cons in Hs as [Hc Hs]. simpl in Hf. destruct (N.ltb_spec c 0x80) as [Ha|Ha].
  { rewrite <-app_assoc, unquote_rune, IH, encode_rune_ascii, <-app_assoc; [done|lia|lia|done|lia]. }
  destruct (decode_rune c rest) as [[r w]|] eqn:E.
  - destruct (decode_encode _ _ _ _ E) as (He & Hw & Hr).
    rewrite <-app_assoc, unquote_rune, IH, He, <-app_assoc; [|rewrite length_drop; lia|by apply Forall_drop|lia].
    destruct w as [|w]; [lia|]. cbn [take]. replace (S w - 1)%nat with w by lia. cbn [app]. by rewrite take_drop.
  - rewrite <-app_assoc, unquote_byte, IH, <-app_assoc; [done|lia|done|lia].
Qed.

Lemma codes_bound b : Forall (λ c, c < 256) (codes b).
Proof. apply Forall_fmap, Forall_true. intros c. apply N_ascii_bounded. Qed.

Lemma codes_inj b b' : codes b = codes b' → b = b'.
Proof. apply list_fmap_eq_inj. intros x y Hxy. by rewrite <-(ascii_N_embedding x), Hxy, ascii_N_embedding. Qed.

Lemma codes_of_N l : Forall (λ c, c < 256) l → codes (ascii_of_N <$> l) = l.
Proof.
  induction 1 as [|c l Hc _ IH]; [done|]. unfold codes in *. cbn. by rewrite IH, N_ascii_embedding.
Qed.

Lemma encode_rune_bound r : r < 0x110000 → Forall (λ c, c < 256) (encode_rune r).
Proof. intros Hr. unfold encode_rune. repeat case_match; repeat constructor; decode_bounds; dlia. Qed.

Lemma hex_digits_bound k n : Forall (λ c, c < 256) (hex_digits k n).
Proof.
  revert n. induction k as [|k IH]; intros n; [constructor|]. apply Forall_app; split; [apply IH|].
  repeat constructor. pose proof (hexd_bound (n mod 16)). dlia.
Qed.

Lemma escape_byte_bound c : c < 256 → Forall (λ c, c < 256) (escape_byte c).
Proof.
  intros Hc. pose proof (hexd_bound (c / 16) ltac:(dlia)). pose proof (hexd_bound (c mod 16) ltac:(dlia)).
  unfold escape_byte. repeat constructor; lia.
Qed.

Lemma letter_of_bound r e : letter_of r = Some e → e < 256.
Proof.
  unfold letter_of, letters. cbn [List.find fst]. intros Hl.
  repeat (destruct (_ =? r) in Hl; [injection Hl as <-; lia|]). done.
Qed.

Lemma escape_rune_bound r : r < 0x110000 → Forall (λ c, c < 256) (escape_rune r).
Proof.
  intros Hr. unfold escape_rune. destruct ((r =? 34) || (r =? 92)) eqn:Hq.
  { apply orb_true_iff in Hq as [->%N.eqb_eq| ->%N.eqb_eq]; repeat constructor. }
  destruct (is_print r); [by apply encode_rune_bound|]. destruct (letter_of r) as [e|] eqn:El.
  { apply letter_of_bound in El. repeat constructor; lia. }
  destruct ((r <? 32) || (r =? 127)) eqn:Ec.
  { apply escape_byte_bound. apply orb_true_iff in Ec as [?%N.ltb_lt|?%N.eqb_eq]; lia. }
  destruct (r <? 0x10000); do 2 (constructor; [lia|]); apply hex_digits_bound.
Qed.

Lemma quote_loop_bound fuel s : Forall (λ c, c < 256) s → Forall (λ c, c < 256) (quote_loop fuel s).
Proof.
  revert s. induction fuel as [|fuel IH]; intros s Hs; [constructor|]. destruct s as [|c rest]; [constructor|].
  cbn [quote_loop]. apply Forall_cons in Hs as [Hc Hs]. destruct (N.ltb_spec c 0x80).
  { apply Forall_app; split; [apply escape_rune_bound; lia|by apply IH]. }
  destruct (decode_rune c rest) as [[r w]|] eqn:E; apply Forall_app; split.
  - apply escape_rune_bound. destruct (decode_encode _ _ _ _ E) as (_ & _ & ?). lia.
  - by apply IH, Forall_drop.
  - by apply escape_byte_bound.
  - by apply IH.
Qed.

(** A quoted string ends where it ends: what two texts that start with quoted
    strings quote, and what follows, is the same if the texts are. *)
Lemma Quote_cancel s t (l m : bytes) : Quote s ++ l = Quote t ++ m → s = t ∧ l = m.
Proof.
  intros Heq. apply (f_equal codes) in Heq. unfold codes, Quote in Heq. rewrite !fmap_app in Heq. fold codes in Heq.
  change (N_of_ascii <$> ?x) with (codes x) in Heq.
  assert (∀ u, codes (ascii_of_N <$> quote_codes (codes (to_bytes u))) = quote_codes (codes (to_bytes u))) as Hq.
  { intros u. apply codes_of_N. unfold quote_codes. constructor; [lia|]. apply Forall_app; split; [|repeat constructor; lia].
    apply quote_loop_bound, codes_bound. }
  rewrite !Hq in Heq. unfold quote_codes in Heq. cbn [app] in Heq. injection Heq as Heq. rewrite <-!app_assoc in Heq. cbn [app] in Heq.
  apply (f_equal (λ x, unquote x [])) in Heq. rewrite !unquote_loop in Heq by (done || apply codes_bound).
  injection Heq as H1%codes_inj H2%codes_inj. split; [|done]. by rewrite <-(of_to_bytes s), H1, of_to_bytes.
Qed.
End quote.

(** ** Examples *)

Section examples.
#[local] Instance all_print : Unicode := {| is_print_wide := λ _, true |}.

Example quote_escapes :
  of_bytes (Quote (of_bytes (ascii_of_N <$> [97; 34; 92; 10; 1; 0xC3; 0xA9; 0xC2; 0x80; 0xFF]))) =
    of_bytes (ascii_of_N <$> [34; 97; 92; 34; 92; 92; 92; 110; 92; 120; 48; 49; 0xC3; 0xA9; 92; 117; 48; 48; 56; 48; 92; 120; 102; 102; 34]).
Proof. vm_compute. reflexivity. Qed.
End examples.
