(* ===== verification/Fsutil.v ===== *)
(** * Atomic file replacement (internal/storage/fsutil/fsutil.go)

    A file replaced by writing a temporary file, syncing it, renaming it over
    the path and syncing the directory, where every call can fail, and what a
    crash can leave. *)

From stdpp Require Import base list strings sets fin_sets.
From Stdlib Require Import ZArith Lia Ascii.
From S2P Require Import Prelude GoLib.

(** One path: what a reader sees, what the path may hold after a crash, and
    the temporary file beside it with whether its contents are synced. *)
Record file := mkFile { content : option bytes; after_crash : list (option bytes); tmp : option (bytes * bool) }.

Inductive fs_error := FsCreate | FsWrite | FsSync | FsClose | FsInstall | FsOpenDir | FsSyncDir.

(** The outcomes of the system calls; a failing write has written some bytes. *)
Record atomic_io := mkAtomicIO {
  windows : bool; create_fails : bool; write_fails : option nat; sync_fails : bool; close_fails : bool;
  rename_fails : bool; opendir_fails : bool; syncdir_fails : bool
}.

Definition set_tmp (f : file) (t : option (bytes * bool)) : file := mkFile (content f) (after_crash f) t.

(** A rename takes effect at once, and durably at the directory's next sync.
    A crash may cut off contents that were not synced before it. *)
Definition rename_tmp (f : file) : file :=
  match tmp f with
  | None => f
  | Some (b, synced) =>
      mkFile (Some b)
        (after_crash f ++ if synced then [Some b] else (λ k, Some (take k b)) <$> seq 0 (S (length b))) None
  end.

Definition SyncDir (io : atomic_io) (f : file) : file * option fs_error :=
  if windows io then (f, None)
  else if opendir_fails io then (f, Some FsOpenDir)
  else if syncdir_fails io then (f, Some FsSyncDir)
  else (mkFile (content f) [content f] (tmp f), None).

Definition WriteFileAtomic (io : atomic_io) (f : file) (data : bytes) : file * option fs_error :=
  if create_fails io then (f, Some FsCreate)
  else match write_fails io with
  | Some k => (set_tmp f (Some (take k data, false)), Some FsWrite)
  | None =>
      if sync_fails io then (set_tmp f (Some (data, false)), Some FsSync)
      else
        let f := set_tmp f (Some (data, true)) in
        if close_fails io then (f, Some FsClose)
        else if rename_fails io then (f, Some FsInstall)
        else SyncDir io (rename_tmp f)
  end.

(** A crash leaves one of the possible contents, and any temporary file. *)
Definition recovered (f f' : file) : Prop :=
  content f' ∈ after_crash f ∧ after_crash f' = [content f'].

Definition file_ok (f : file) : Prop := content f ∈ after_crash f.

Lemma recovered_ok f f' : recovered f f' → file_ok f'.
Proof. intros [_ Ha]. unfold file_ok. rewrite Ha. by left. Qed.

(** What replacing a file does, on every path through it.  Readers see the
    old contents or all of the new; so does whoever reads after a crash.  If
    no error is returned readers see the new contents, and (where a directory
    can be synced) a crash no longer brings the old ones back. *)
Lemma WriteFileAtomic_effect io f data :
  file_ok f →
  let '(f', err) := WriteFileAtomic io f data in
  file_ok f' ∧ (content f' = content f ∨ content f' = Some data) ∧
  (∀ c, c ∈ after_crash f' → c ∈ after_crash f ∨ c = Some data) ∧
  (err = None → content f' = Some data ∧ (windows io = false → after_crash f' = [Some data])).
Proof.
  intros Hf. unfold WriteFileAtomic, SyncDir, rename_tmp, set_tmp, file_ok in *. cbn [tmp content after_crash].
  destruct (create_fails io), (write_fails io), (sync_fails io), (close_fails io), (rename_fails io), (windows io),
    (opendir_fails io), (syncdir_fails io); cbn [content after_crash];
    (split_and!; [set_solver|by auto|set_solver|done || (intros _; split; done)]).
Qed.

Example interrupted_replacement :
  let f := mkFile (Some ["a"%char]) [Some ["a"%char]] None in
  WriteFileAtomic (mkAtomicIO false false None false false false false true) f ["b"%char] =
    (mkFile (Some ["b"%char]) [Some ["a"%char]; Some ["b"%char]] None, Some FsSyncDir).
Proof. reflexivity. Qed.
