(* ===== verification/Membership.v ===== *)
(** * Membership views (internal/node/view.go, membership.go, clients.go)

    The view a node holds of the cluster: its construction, its fingerprint,
    the rules for member sets; how a new view is persisted and published, and
    what is retired, pruned and started with it; and loading it at a restart. *)

From stdpp Require Import gmap strings list sorting pretty.
From Stdlib Require Import ZArith Lia Ascii.
From S2P Require Import Prelude GoLib Json HashRing Sha256 Quote Fsutil.

Open Scope nat_scope.

Definition defaultVirtualNodesPerPhysical : nat := 150.
Definition ringScheme : string := "ring-v1".

(** ** Views *)

Record view := mkView { epoch : N; view_fingerprint : string; members : gmap string string; view_ring : HashRing }.

(** [slices.Sorted(maps.Keys(m))] *)
Definition sorted_ids (m : gmap string string) : list string := sort_strings (elements (dom m)).

Section views.
Context `{!Unicode}.

Definition lf : ascii := "010"%char.

(** [fmt.Fprintf(h, "member %q %q\n", id, address)] *)
Definition member_line (id address : string) : bytes :=
  to_bytes "member " ++ Quote id ++ " "%char :: Quote address ++ [lf].

(** [members[id]] for the members in the order of their IDs *)
Definition sorted_members (m : gmap string string) : list (string * string) :=
  (λ id, (id, default EmptyString (m !! id))) <$> sorted_ids m.

(** What is hashed. *)
Definition fingerprint_text (m : gmap string string) (n : nat) : bytes :=
  (sorted_members m ≫= λ p, member_line p.1 p.2) ++
  to_bytes ("n " +:+ pretty n) ++ lf :: to_bytes ("vnodes " +:+ pretty defaultVirtualNodesPerPhysical) ++
  lf :: to_bytes ("scheme " +:+ ringScheme) ++ [lf].

Definition fingerprint (m : gmap string string) (n : nat) : string := hex_encode (sha256 (fingerprint_text m n)).

Definition buildView (e : N) (m : gmap string string) (n : nat) : res ring_error view :=
  ring ←? NewHashRingFromMembers defaultVirtualNodesPerPhysical (sorted_ids m);
  Ok (mkView e (fingerprint m n) m ring).

Definition initialView (id address : string) (neighborAddrs : gmap string string) (n : nat) : res ring_error view :=
  buildView 0 (<[id := address]> neighborAddrs) n.

(** ** The rules for member sets *)

Inductive invalid :=
  | NoMembers
  | TooFew (count n : nat)
  | EmptyID
  | BadID (id : string)
  | EmptyAddress (id : string)
  | SharedAddress (other id addr : string).

(** [strings.ContainsAny(id, "#\x00")] *)
Definition has_separator (id : string) : bool :=
  existsb (λ c, bool_decide (c = "#"%char) || bool_decide (c = "000"%char)) (to_bytes id).

Fixpoint validate_loop (m : gmap string string) (ids : list string) (byAddr : gmap string string) : option invalid :=
  match ids with
  | [] => None
  | id :: rest =>
      let addr := default EmptyString (m !! id) in
      if bool_decide (id = EmptyString) then Some EmptyID
      else if has_separator id then Some (BadID id)
      else if bool_decide (addr = EmptyString) then Some (EmptyAddress id)
      else match byAddr !! addr with
      | Some other => Some (SharedAddress other id addr)
      | None => validate_loop m rest (<[addr := id]> byAddr)
      end
  end.

Definition validateMembers (m : gmap string string) (n : nat) : option invalid :=
  if size m =? 0 then Some NoMembers
  else if size m <? n then Some (TooFew (size m) n)
  else validate_loop m (sorted_ids m) ∅.

(** ** What a fingerprint identifies *)

Lemma sorted_ids_elem m id : id ∈ sorted_ids m ↔ is_Some (m !! id).
Proof. unfold sorted_ids. by rewrite sort_strings_elem, elem_of_elements, elem_of_dom. Qed.

Lemma sorted_ids_nodup m : NoDup (sorted_ids m).
Proof. unfold sorted_ids. rewrite sort_strings_perm. apply NoDup_elements. Qed.

Lemma sorted_members_map m : list_to_map (sorted_members m) = m.
Proof.
  apply map_eq. intros id. destruct (m !! id) as [addr|] eqn:E.
  - apply elem_of_list_to_map_1.
    + unfold sorted_members. rewrite <-list_fmap_compose, list_fmap_id. apply sorted_ids_nodup.
    + apply list_elem_of_fmap. exists id. rewrite E. split; [done|]. apply sorted_ids_elem. by rewrite E.
  - apply not_elem_of_list_to_map_1. unfold sorted_members. rewrite <-list_fmap_compose, list_fmap_id, sorted_ids_elem, E.
    by intros [? ?].
Qed.

Lemma member_line_cancel id id' a a' (t t' : bytes) :
  member_line id a ++ t = member_line id' a' ++ t' → id = id' ∧ a = a' ∧ t = t'.
Proof.
  unfold member_line. rewrite <-!app_assoc. intros Heq%app_inv_head. apply Quote_cancel in Heq as [-> Heq].
  apply (f_equal tail) in Heq. cbn [tail app] in Heq. rewrite <-!app_assoc in Heq. apply Quote_cancel in Heq as [-> Heq].
  apply (f_equal tail) in Heq. done.
Qed.

(** Lines of members are told apart, from each other and from what follows. *)
Lemma member_lines_cancel l l' (t t' : bytes) :
  hd_error t = Some "n"%char → hd_error t' = Some "n"%char →
  (l ≫= λ p, member_line p.1 p.2) ++ t = (l' ≫= λ p, member_line p.1 p.2) ++ t' → l = l' ∧ t = t'.
Proof.
  assert (∀ p q (u : bytes), hd_error (member_line p q ++ u) = Some "m"%char) as Hm by done.
  intros Ht Ht'. revert l'. induction l as [|[id a] l IH]; intros [|[id' a'] l'] Heq; [done| | |];
    cbn [mbind list_bind fst snd app] in Heq; rewrite <-?app_assoc in Heq.
  - exfalso. subst t. by rewrite Hm in Ht.
  - exfalso. subst t'. by rewrite Hm in Ht'.
  - apply member_line_cancel in Heq as (-> & -> & Heq). by destruct (IH l' Heq) as [-> ->].
Qed.

Lemma fingerprint_text_inj m n m' n' : fingerprint_text m n = fingerprint_text m' n' → m = m' ∧ n = n'.
Proof.
  unfold fingerprint_text. intros Heq. apply member_lines_cancel in Heq as [Hl Heq]; [|done..].
  split; [by rewrite <-(sorted_members_map m), Hl, sorted_members_map|].
  rewrite !to_bytes_app in Heq. rewrite <-!app_assoc in Heq. apply app_inv_head, app_inv_tail in Heq.
  apply (f_equal of_bytes) in Heq. rewrite !of_to_bytes in Heq. by apply (inj pretty) in Heq.
Qed.

Lemma buildView_Ok e m n v :
  buildView e m n = Ok v →
  epoch v = e ∧ members v = m ∧ view_fingerprint v = fingerprint m n ∧
  NewHashRingFromMembers defaultVirtualNodesPerPhysical (sorted_ids m) = Ok (view_ring v).
Proof. unfold buildView. destruct (NewHashRingFromMembers _ _); [|done]. cbn. by intros [= <-]. Qed.

(** Equal fingerprints mean the same placement.  Two views that nodes
    build, for whatever epochs, members and replication factors: if their
    fingerprints are equal then their members, addresses and replication
    factor are equal, and they route every key alike; or else their two
    different texts are a collision of SHA-256. *)
Theorem fingerprint_identifies_placement e e' m m' n n' v v' :
  buildView e m n = Ok v → buildView e' m' n' = Ok v' → view_fingerprint v = view_fingerprint v' →
  (members v = members v' ∧ n = n' ∧ view_ring v = view_ring v' ∧
   ∀ key, GetPreferenceList (view_ring v) key n = GetPreferenceList (view_ring v') key n') ∨
  (fingerprint_text m n ≠ fingerprint_text m' n' ∧ sha256 (fingerprint_text m n) = sha256 (fingerprint_text m' n')).
Proof.
  intros (_ & Hm & Hf & Hr)%buildView_Ok (_ & Hm' & Hf' & Hr')%buildView_Ok Heq.
  rewrite Hf, Hf' in Heq. apply hex_encode_inj in Heq.
  destruct (decide (fingerprint_text m n = fingerprint_text m' n')) as [Ht|Hne]; [left|by right].
  apply fingerprint_text_inj in Ht as [<- <-]. rewrite Hr in Hr'. injection Hr' as Hr'. rewrite Hr'. by subst.
Qed.

(** ** Which member sets are accepted *)

Definition members_valid (m : gmap string string) (n : nat) : Prop :=
  m ≠ ∅ ∧ n ≤ size m ∧
  (∀ id addr, m !! id = Some addr → id ≠ EmptyString ∧ has_separator id = false ∧ addr ≠ EmptyString) ∧
  (∀ id id' addr, m !! id = Some addr → m !! id' = Some addr → id = id').

Lemma validate_loop_None m ids byAddr :
  NoDup ids → (∀ id, id ∈ ids → is_Some (m !! id)) →
  validate_loop m ids byAddr = None ↔
  (∀ id addr, id ∈ ids → m !! id = Some addr →
     id ≠ EmptyString ∧ has_separator id = false ∧ addr ≠ EmptyString ∧ byAddr !! addr = None) ∧
  (∀ id id' addr, id ∈ ids → id' ∈ ids → m !! id = Some addr → m !! id' = Some addr → id = id').
Proof.
  revert byAddr. induction ids as [|id ids IH]; intros byAddr Hnd Hin; cbn [validate_loop]; [set_solver|].
  apply NoDup_cons in Hnd as [Hn Hnd]. destruct (Hin id ltac:(by left)) as [addr E]. rewrite E. change (default EmptyString (Some addr)) with addr.
  assert (∀ e : invalid, ¬ (id ≠ EmptyString ∧ has_separator id = false ∧ addr ≠ EmptyString ∧ byAddr !! addr = None) →
    Some e = None ↔
    (∀ id0 addr0, id0 ∈ id :: ids → m !! id0 = Some addr0 →
       id0 ≠ EmptyString ∧ has_separator id0 = false ∧ addr0 ≠ EmptyString ∧ byAddr !! addr0 = None) ∧
    (∀ id0 id' addr0, id0 ∈ id :: ids → id' ∈ id :: ids → m !! id0 = Some addr0 → m !! id' = Some addr0 → id0 = id')) as Hbad.
  { intros e Hb. split; [done|]. intros [Ha _]. exfalso. apply Hb, Ha; [by left|done]. }
  case_bool_decide; [apply Hbad; tauto|]. destruct (has_separator id) eqn:Es; [apply Hbad; intros (_ & ? & _); congruence|].
  case_bool_decide; [apply Hbad; tauto|]. destruct (byAddr !! addr) as [other|] eqn:Eb; [apply Hbad; intros (_ & _ & _ & ?); congruence|].
  clear Hbad.
  rewrite IH by (done || set_solver). split.
  - intros [Ha Hu]. split.
    + intros i a [->|Hi]%elem_of_cons Hm; [rewrite E in Hm; injection Hm as <-; done|].
      destruct (Ha i a Hi Hm) as (? & ? & ? & Hb). apply lookup_insert_None in Hb as [? _]. done.
    + intros i i' a [->|Hi]%elem_of_cons [->|Hi']%elem_of_cons Hm Hm'; [done| | |by eapply Hu].
      * rewrite E in Hm; injection Hm as <-. destruct (Ha i' addr Hi' Hm') as (_ & _ & _ & Hb). by rewrite lookup_insert_eq in Hb.
      * rewrite E in Hm'; injection Hm' as <-. destruct (Ha i addr Hi Hm) as (_ & _ & _ & Hb). by rewrite lookup_insert_eq in Hb.
  - intros [Ha Hu]. split.
    + intros i a Hi Hm. destruct (Ha i a ltac:(by right) Hm) as (? & ? & ? & ?). split_and!; [done..|].
      apply lookup_insert_None. split; [done|]. intros <-. apply Hn. by rewrite (Hu id i addr ltac:(by left) ltac:(by right) E Hm).
    + intros. by eapply Hu; try (right; done).
Qed.

(** The rules are what [validateMembers] checks. *)
Lemma validateMembers_spec m n : validateMembers m n = None ↔ members_valid m n.
Proof.
  unfold validateMembers, members_valid. destruct (Nat.eqb_spec (size m) 0) as [E|E].
  { apply map_size_empty_inv in E. split; [done|]. by intros []. }
  destruct (Nat.ltb_spec (size m) n); [split; [done|]; intros; lia|].
  rewrite validate_loop_None; [|apply sorted_ids_nodup|intros id; apply sorted_ids_elem].
  assert (m ≠ ∅) by (intros ->; by rewrite map_size_empty in E). split.
  - intros [Ha Hu]. split_and!; [done|done| |].
    + intros id addr Hm. destruct (Ha id addr) as (? & ? & ? & _); [by apply sorted_ids_elem|done|done].
    + intros id id' addr Hm Hm'. eapply Hu; [by apply sorted_ids_elem|by apply sorted_ids_elem|done|done].
  - intros (_ & _ & Ha & Hu). split; [|by intros; eapply Hu]. intros id addr _ Hm.
    destruct (Ha id addr Hm) as (? & ? & ?). by split_and!.
Qed.

(** A valid member set has a ring. *)
Lemma buildView_valid e m n : validateMembers m n = None → ∃ v, buildView e m n = Ok v.
Proof.
  intros (_ & _ & Ha & _)%validateMembers_spec. unfold buildView.
  rewrite NewHashRingFromMembers_ok; [by eexists|apply sorted_ids_nodup|].
  intros [addr Hm]%sorted_ids_elem. by destruct (Ha _ _ Hm).
Qed.
End views.

(** ** The node's state around its membership *)

Record peerHealth := mkHealth { misses : N; dead : bool; seen_epoch : N; reachable : bool }.

(** What is guarded by [healthMu]. *)
Record health_state := mkHS {
  health : gmap string peerHealth; conflictSeen : gmap string string; mismatchSeen : gmap string string;
  pingingBack : gset string
}.

(** A connection is a number; [clients] caches one per peer, with its address. *)
Record peerClient := mkPC { pc_addr : string; pc_client : N }.
Record client_state := mkCS { clients : gmap string peerClient; retired : list N; clientsClosed : bool }.

Record HandoffStatus := mkStatus { hs_Epoch : N; Done : bool; Pushed : N; Hinted : N; Pending : Z }.

(** What is guarded by [handoffMu]; timings are left out. *)
Record handoff_state := mkHO {
  handoffBase : view; handoffTarget : option view; handoffRunning : bool; handoffGen : N;
  handoffStatus : HandoffStatus; handoffsCompleted : N; handoff_file : file
}.

Record node := mkMember {
  node_ID : string; node_address : string; repl : nat; maxMissed : Z;
  membership : view; membership_file : file;
  hs : health_state; cs : client_state; ho : handoff_state;
  adopting : bool; bgStopped : bool; pingsReceived : N; membershipConflicts : N
}.

Definition set_view (n : node) (v : view) (f : file) : node :=
  mkMember (node_ID n) (node_address n) (repl n) (maxMissed n) v f (hs n) (cs n) (ho n) (adopting n) (bgStopped n)
    (pingsReceived n) (membershipConflicts n).
Definition set_hs (n : node) (h : health_state) : node :=
  mkMember (node_ID n) (node_address n) (repl n) (maxMissed n) (membership n) (membership_file n) h (cs n) (ho n)
    (adopting n) (bgStopped n) (pingsReceived n) (membershipConflicts n).
Definition set_cs (n : node) (c : client_state) : node :=
  mkMember (node_ID n) (node_address n) (repl n) (maxMissed n) (membership n) (membership_file n) (hs n) c (ho n)
    (adopting n) (bgStopped n) (pingsReceived n) (membershipConflicts n).
Definition set_ho (n : node) (h : handoff_state) : node :=
  mkMember (node_ID n) (node_address n) (repl n) (maxMissed n) (membership n) (membership_file n) (hs n) (cs n) h
    (adopting n) (bgStopped n) (pingsReceived n) (membershipConflicts n).
Definition set_flags (n : node) (ad : bool) (pings conflicts : N) : node :=
  mkMember (node_ID n) (node_address n) (repl n) (maxMissed n) (membership n) (membership_file n) (hs n) (cs n) (ho n)
    ad (bgStopped n) pings conflicts.

(** ** Connections *)

Inductive client_error := UnknownPeer (id : string) | NodeClosed | DialFailed.

(** [clientFor]; [dialled] is what a dial would give. *)
Definition clientFor (c : client_state) (v : view) (peerID : string) (dialled : option N)
    : client_state * res client_error N :=
  match members v !! peerID with
  | None => (c, Err (UnknownPeer peerID))
  | Some addr =>
      if clientsClosed c then (c, Err NodeClosed)
      else
        let dial c :=
          match dialled with
          | None => (c, Err DialFailed)
          | Some client => (mkCS (<[peerID := mkPC addr client]> (clients c)) (retired c) (clientsClosed c), Ok client)
          end in
        match clients c !! peerID with
        | Some pc =>
            if bool_decide (pc_addr pc = addr) then (c, Ok (pc_client pc))
            else dial (mkCS (delete peerID (clients c)) (retired c ++ [pc_client pc]) (clientsClosed c))
        | None => dial c
        end
  end.

(** [retireClient] *)
Definition retireClient (c : client_state) (peerID : string) : client_state * option N :=
  match clients c !! peerID with
  | None => (c, None)
  | Some pc => (mkCS (delete peerID (clients c)) (retired c ++ [pc_client pc]) (clientsClosed c), Some (pc_client pc))
  end.

(** [retireClientsNotIn], which iterates the map in some order *)
Definition retireClientsNotIn (c : client_state) (v : view) : client_state :=
  let gone := filter (λ p, members v !! p.1 = None) (clients c) in
  mkCS (filter (λ p, is_Some (members v !! p.1)) (clients c)) (retired c ++ (pc_client ∘ snd <$> map_to_list gone))
    (clientsClosed c).

(** [pruneHealth] *)
Definition pruneHealth (h : health_state) (v : view) : health_state :=
  mkHS (filter (λ p, is_Some (members v !! p.1)) (health h)) (filter (λ p, is_Some (members v !! p.1)) (conflictSeen h))
    (filter (λ p, is_Some (members v !! p.1)) (mismatchSeen h)) (pingingBack h).

(** ** Starting a handoff *)

(** A run of the handoff worker: its generation and the views it goes between. *)
Record handoff_run := mkRun { run_gen : N; run_base : view; run_newest : view }.

(** [startHandoff]: the run it starts, if any.  Published views have increasing
    epochs, so comparing them is comparing the pointers. *)
Definition startHandoff (n : node) : node * option handoff_run :=
  let newest := membership n in
  let h := ho n in
  let base := handoffBase h in
  if (epoch newest <=? epoch base)%N then (n, None)
  else if handoffRunning h && bool_decide (epoch <$> handoffTarget h = Some (epoch newest)) then (n, None)
  else
    let gen := u64 (handoffGen h + 1) in
    let status := mkStatus (epoch newest) false 0 0 0 in
    let started := negb (bgStopped n) in
    (set_ho n (mkHO base (Some newest) (if started then true else handoffRunning h) gen status (handoffsCompleted h)
                 (handoff_file h)),
     if started then Some (mkRun gen base newest) else None).

(** ** Publishing a view *)

(** The end of [setMembership]: the view is stored for readers, then the
    connections, the health records and the handoff follow it. *)
Definition publish (n : node) (v : view) : node * option handoff_run :=
  let n := set_view n v (membership_file n) in
  let n := set_cs n (retireClientsNotIn (cs n) v) in
  let n := set_hs n (pruneHealth (hs n) v) in
  startHandoff n.

(** ** Persistence *)

Record membershipFile := mkMF { mf_Epoch : N; mf_Members : gmap string string; mf_Fingerprint : string }.

Inductive persist_error := EncodeFailed | FsFailed (e : fs_error).

Inductive set_error :=
  | Invalid (e : invalid)
  | RingError (e : ring_error)
  | FingerprintMismatch (claimed computed : string)
  | StaleEpoch (epoch current : N)
  | MembershipConflict (epoch : N)
  | PersistFailed (e : persist_error).

Inductive load_error :=
  | ReadFailed
  | Corrupt
  | LoadInvalid (e : invalid)
  | LoadRing (e : ring_error)
  | LoadFingerprint (stored computed : string).

Section persistence.
Context `{!Unicode} `{!JsonCodec membershipFile}.

Definition writeMembership (io : atomic_io) (f : file) (v : view) : file * option persist_error :=
  match json_marshal (mkMF (epoch v) (members v) (view_fingerprint v)) with
  | None => (f, Some EncodeFailed)
  | Some data => let '(f, err) := WriteFileAtomic io f data in (f, FsFailed <$> err)
  end.

(** [loadMembership] from what the file holds; [None] if there is none. *)
Definition load_content (data : bytes) (n : nat) : res load_error view :=
  match json_unmarshal data with
  | None => Err Corrupt
  | Some mf =>
      match validateMembers (mf_Members mf) n with
      | Some e => Err (LoadInvalid e)
      | None =>
          match buildView (mf_Epoch mf) (mf_Members mf) n with
          | Err e => Err (LoadRing e)
          | Ok v =>
              if bool_decide (view_fingerprint v = mf_Fingerprint mf) then Ok v
              else Err (LoadFingerprint (mf_Fingerprint mf) (view_fingerprint v))
          end
      end
  end.

Definition loadMembership (read_fails : bool) (f : file) (n : nat) : res load_error (option view) :=
  match content f with
  | None => Ok None
  | Some data => if read_fails then Err ReadFailed else v ←? load_content data n; Ok (Some v)
  end.

(** [setMembership]: the node, whether its view changed, and the handoff run
    this starts. *)
Definition setMembership (io : atomic_io) (n : node) (e : N) (m : gmap string string) (claimed : string)
    : node * res set_error bool * option handoff_run :=
  match validateMembers m (repl n) with
  | Some err => (n, Err (Invalid err), None)
  | None =>
      match buildView e m (repl n) with
      | Err err => (n, Err (RingError err), None)
      | Ok v =>
          if negb (bool_decide (claimed = EmptyString)) && negb (bool_decide (view_fingerprint v = claimed))
          then (n, Err (FingerprintMismatch claimed (view_fingerprint v)), None)
          else
            let cur := membership n in
            if (e <? epoch cur)%N then (n, Err (StaleEpoch e (epoch cur)), None)
            else if (e =? epoch cur)%N then
              if bool_decide (view_fingerprint v = view_fingerprint cur) then (n, Ok false, None)
              else (n, Err (MembershipConflict e), None)
            else
              match writeMembership io (membership_file n) v with
              | (f, Some err) => (set_view n cur f, Err (PersistFailed err), None)
              | (f, None) => let '(n, run) := publish (set_view n cur f) v in (n, Ok true, run)
              end
      end
  end.

Definition SetMembership (io : atomic_io) (n : node) (e : N) (m : gmap string string)
    : node * res set_error bool * option handoff_run := setMembership io n e m EmptyString.
End persistence.

(** ** The last completed handoff on disk, and starting a node *)

Record handoffFile := mkHF { hf_Epoch : N; hf_Members : gmap string string }.

Inductive boot_error := BootRing (e : ring_error) | BootMembership (e : load_error) | BootHandoff (e : load_error).

Section boot.
Context `{!Unicode} `{!JsonCodec membershipFile} `{!JsonCodec handoffFile}.

Definition writeHandoff (io : atomic_io) (f : file) (v : view) : file * option persist_error :=
  match json_marshal (mkHF (epoch v) (members v)) with
  | None => (f, Some EncodeFailed)
  | Some data => let '(f, err) := WriteFileAtomic io f data in (f, FsFailed <$> err)
  end.

Definition load_handoff_content (data : bytes) (n : nat) : res load_error view :=
  match json_unmarshal data with
  | None => Err Corrupt
  | Some hf =>
      match validateMembers (hf_Members hf) n with
      | Some e => Err (LoadInvalid e)
      | None => match buildView (hf_Epoch hf) (hf_Members hf) n with Err e => Err (LoadRing e) | Ok v => Ok v end
      end
  end.

Definition loadHandoff (read_fails : bool) (f : file) (n : nat) : res load_error (option view) :=
  match content f with
  | None => Ok None
  | Some data => if read_fails then Err ReadFailed else v ←? load_handoff_content data n; Ok (Some v)
  end.

(** [newNode], its membership part *)
Definition newNode (id address : string) (n : nat) (maxMissed : Z) (v base : view) (mfile hfile : file) : node :=
  mkMember id address n maxMissed v mfile (mkHS ∅ ∅ ∅ ∅) (mkCS ∅ [] false)
    (mkHO base None false 0 (mkStatus (epoch v) (epoch v <=? epoch base)%N 0 0 0) 0 hfile) false false 0 0.

(** [New], its membership part: the persisted view in place of the configured
    one, and the last completed handoff as the base. *)
Definition boot (id address : string) (n : nat) (maxMissed : Z) (neighborAddrs : gmap string string)
    (mread_fails hread_fails : bool) (mfile hfile : file) : res boot_error node :=
  match initialView id address neighborAddrs n with
  | Err e => Err (BootRing e)
  | Ok v0 =>
      match loadMembership mread_fails mfile n with
      | Err e => Err (BootMembership e)
      | Ok persisted =>
          match loadHandoff hread_fails hfile n with
          | Err e => Err (BootHandoff e)
          | Ok handedOff => Ok (newNode id address n maxMissed (default v0 persisted) (default v0 handedOff) mfile hfile)
          end
      end
  end.
End boot.

(** ** What a new membership does *)

Section set_membership.
Context `{!Unicode} `{!JsonCodec membershipFile}.

(** Everything but the file of the membership is as it was. *)
Definition same_but_file (n n' : node) : Prop := n' = set_view n (membership n) (membership_file n').

Lemma same_but_file_refl n : same_but_file n n.
Proof. by destruct n. Qed.

Lemma startHandoff_keeps n :
  let n' := (startHandoff n).1 in
  membership n' = membership n ∧ membership_file n' = membership_file n ∧ hs n' = hs n ∧ cs n' = cs n ∧
  repl n' = repl n ∧ node_ID n' = node_ID n ∧ handoffBase (ho n') = handoffBase (ho n) ∧ handoff_file (ho n') = handoff_file (ho n).
Proof. unfold startHandoff. by repeat case_match. Qed.

(** A run is only started towards the node's current view, from the last view
    whose handoff completed. *)
Lemma startHandoff_run n run :
  (startHandoff n).2 = Some run →
  run_newest run = membership n ∧ run_base run = handoffBase (ho n) ∧ (epoch (run_base run) < epoch (run_newest run))%N.
Proof.
  unfold startHandoff. destruct (N.leb_spec (epoch (membership n)) (epoch (handoffBase (ho n)))); [done|].
  case_match; [done|]. destruct (bgStopped n); [done|]. by intros [= <-].
Qed.

Lemma filter_partition {A} (P : string * A → Prop) `{!∀ x, Decision (P x)} (m : gmap string A) :
  map_to_list (filter P m) ++ map_to_list (filter (λ x, ¬ P x) m) ≡ₚ map_to_list m.
Proof.
  assert (∀ (Q : string * A → Prop) `{!∀ x, Decision (Q x)}, map_to_list (filter Q m) ≡ₚ filter Q (map_to_list m)) as Hq.
  { intros Q HQ. rewrite map_filter_alt. apply map_to_list_to_map.
    eapply sublist_NoDup; [apply (NoDup_fst_map_to_list m)|]. apply fmap_sublist, sublist_filter. }
  rewrite !Hq. apply filter_app_complement.
Qed.

(** Retiring connections loses track of none. *)
Lemma retire_perm c v :
  retired (retireClientsNotIn c v) ++ (pc_client ∘ snd <$> map_to_list (clients (retireClientsNotIn c v))) ≡ₚ
  retired c ++ (pc_client ∘ snd <$> map_to_list (clients c)).
Proof.
  cbn [retired clients retireClientsNotIn]. rewrite <-app_assoc. apply Permutation_app_head. rewrite <-fmap_app. apply fmap_Permutation.
  rewrite Permutation_app_comm, <-(filter_partition (λ p, is_Some (members v !! p.1)) (clients c)). apply Permutation_app_head.
  assert (filter (λ p, members v !! p.1 = None) (clients c) = filter (λ p, ¬ is_Some (members v !! p.1)) (clients c)) as ->; [|done].
  apply map_filter_ext. intros i x _. cbn. by rewrite <-eq_None_not_Some.
Qed.

Lemma publish_effect n v :
  let '(n', run) := publish n v in
  membership n' = v ∧ membership_file n' = membership_file n ∧
  clients (cs n') = filter (λ p, is_Some (members v !! p.1)) (clients (cs n)) ∧
  retired (cs n') ++ (pc_client ∘ snd <$> map_to_list (clients (cs n'))) ≡ₚ
    retired (cs n) ++ (pc_client ∘ snd <$> map_to_list (clients (cs n))) ∧
  health (hs n') = filter (λ p, is_Some (members v !! p.1)) (health (hs n)) ∧
  handoffBase (ho n') = handoffBase (ho n) ∧ handoff_file (ho n') = handoff_file (ho n) ∧ repl n' = repl n ∧
  (bgStopped n = false → (epoch (handoffBase (ho n)) < epoch v)%N → epoch <$> handoffTarget (ho n) ≠ Some (epoch v) →
   ∃ g, run = Some (mkRun g (handoffBase (ho n)) v) ∧ handoffGen (ho n') = g).
Proof.
  unfold publish. match goal with |- context [startHandoff ?x] => pose proof (startHandoff_keeps x) as Hk; set (n1 := x) in * end.
  destruct (startHandoff n1) as [n' run] eqn:Es. cbn [fst] in Hk. destruct Hk as (Hk1 & Hk2 & Hk3 & Hk4 & Hk5 & Hk6 & Hk7 & Hk8).
  rewrite Hk1, Hk2, Hk3, Hk4, Hk5, Hk7, Hk8. split_and!; [done|done|done|apply retire_perm|done..|].
  intros Hb He Ht. unfold startHandoff in Es. change (membership n1) with v in Es. change (ho n1) with (ho n) in Es.
  change (bgStopped n1) with (bgStopped n) in Es. rewrite (proj2 (N.leb_gt _ _) He) in Es.
  rewrite (bool_decide_false _ Ht), andb_false_r, Hb in Es. injection Es as <- <-. by eexists.
Qed.

(** What [setMembership] does, on each of its paths.  It reports a change
    only for a valid member set under a newer epoch whose fingerprint is the
    claimed one, if any; then the node's view is exactly that, the cached
    connections and health records that remain are those of its members, no
    connection is lost track of, and a handoff runs from the last completed
    view.  It reports no change only for the view the node already has (up to
    the fingerprint), and an error leaves all but the file as it was. *)
Theorem set_membership_outcome io n e m claimed :
  let '(n', r, run) := setMembership io n e m claimed in
  match r with
  | Ok true =>
      (epoch (membership n) < e)%N ∧ members_valid m (repl n) ∧ buildView e m (repl n) = Ok (membership n') ∧
      (claimed ≠ EmptyString → claimed = fingerprint m (repl n)) ∧
      clients (cs n') = filter (λ p, is_Some (m !! p.1)) (clients (cs n)) ∧
      retired (cs n') ++ (pc_client ∘ snd <$> map_to_list (clients (cs n'))) ≡ₚ
        retired (cs n) ++ (pc_client ∘ snd <$> map_to_list (clients (cs n))) ∧
      health (hs n') = filter (λ p, is_Some (m !! p.1)) (health (hs n)) ∧
      handoffBase (ho n') = handoffBase (ho n) ∧
      (bgStopped n = false → (epoch (handoffBase (ho n)) < e)%N → epoch <$> handoffTarget (ho n) ≠ Some e →
       ∃ g, run = Some (mkRun g (handoffBase (ho n)) (membership n')) ∧ handoffGen (ho n') = g)
  | Ok false => n' = n ∧ run = None ∧ e = epoch (membership n) ∧ view_fingerprint (membership n) = fingerprint m (repl n)
  | Err err =>
      same_but_file n n' ∧ run = None ∧
      match err with
      | Invalid _ => ¬ members_valid m (repl n)
      | RingError _ => False
      | FingerprintMismatch c f => c = claimed ∧ f = fingerprint m (repl n) ∧ c ≠ f
      | StaleEpoch _ cur => cur = epoch (membership n) ∧ (e < cur)%N
      | MembershipConflict _ => e = epoch (membership n) ∧ view_fingerprint (membership n) ≠ fingerprint m (repl n)
      | PersistFailed _ => (epoch (membership n) < e)%N
      end
  end.
Proof.
  unfold setMembership. destruct (validateMembers m (repl n)) as [err|] eqn:Ev.
  { split_and!; [apply same_but_file_refl|done|]. rewrite <-validateMembers_spec. congruence. }
  destruct (buildView_valid e m (repl n) Ev) as [v Hv]. rewrite Hv. destruct (buildView_Ok _ _ _ _ Hv) as (He & Hm & Hf & _).
  rewrite Hf. case_bool_decide as Hc; cbn [negb andb].
  2: case_bool_decide as Hc'; cbn [negb andb]; [|split_and!; [apply same_but_file_refl|done..|congruence]].
  all: destruct (N.ltb_spec e (epoch (membership n))); [split_and!; [apply same_but_file_refl|done..]|];
    destruct (N.eqb_spec e (epoch (membership n))) as [Heq|Hne];
    [case_bool_decide; [done|split_and!; [apply same_but_file_refl|done..|congruence]]|];
    destruct (writeMembership io (membership_file n) v) as [f [err|]]; [split_and!; [done..|lia]|].
  all: pose proof (publish_effect (set_view n (membership n) f) v) as Hp; destruct (publish _ _) as [n' run];
    destruct Hp as (-> & _ & -> & Hp & -> & -> & _ & _ & Hrun); rewrite ?Hm, ?He in *;
    split_and!; [lia|by apply validateMembers_spec|done|congruence|done|done|done|done|done].
Qed.

Lemma setMembership_handoff_file io n e m claimed :
  handoff_file (ho (setMembership io n e m claimed).1.1) = handoff_file (ho n).
Proof.
  unfold setMembership. destruct (validateMembers m (repl n)); [done|]. destruct (buildView e m (repl n)) as [v|]; [|done].
  destruct (negb _ && negb _); [done|]. destruct (e <? _)%N; [done|]. destruct (e =? _)%N; [by destruct (bool_decide _)|].
  destruct (writeMembership io (membership_file n) v) as [f [err|]]; [done|].
  pose proof (publish_effect (set_view n (membership n) f) v) as Hp. destruct (publish _ _) as [n' run].
  destruct Hp as (_ & _ & _ & _ & _ & _ & Hp & _). exact Hp.
Qed.
End set_membership.

(** ** Across restarts *)

(** Text that JSON carries faithfully. *)
Definition members_text_ok (m : gmap string string) : Prop :=
  map_Forall (λ id addr, string_ok id = true ∧ string_ok addr = true) m.
Definition mf_ok (f : membershipFile) : Prop := members_text_ok (mf_Members f) ∧ string_ok (mf_Fingerprint f) = true.
Definition hf_ok (f : handoffFile) : Prop := members_text_ok (hf_Members f).

Lemma ascii_valid l : Forall (λ c, (c < 0x80)%N) l → utf8_valid l = true.
Proof. induction 1 as [|c l Hc _ IH]; [done|]. cbn [utf8_valid]. by rewrite (proj2 (N.ltb_lt _ _) Hc). Qed.

Lemma hex_pair_ascii c : Forall (λ x, (N_of_ascii x < 0x80)%N) (hex_pair c).
Proof. destruct c as [[] [] [] [] [] [] [] []]; repeat constructor. Qed.

Lemma hex_encode_ok b : string_ok (hex_encode b) = true.
Proof.
  unfold string_ok, hex_encode. rewrite to_of_bytes. apply ascii_valid, Forall_fmap.
  change (Forall (λ x, (N_of_ascii x < 0x80)%N) (b ≫= hex_pair)).
  induction b as [|c b IH]; [constructor|]. apply Forall_app. split; [apply hex_pair_ascii|exact IH].
Qed.

Section restarts.
Context `{!Unicode} `{!JsonCodec membershipFile} `{!JsonCodec handoffFile}.
Context `{!JsonRoundTrip membershipFile mf_ok, !JsonRoundTrip handoffFile hf_ok}.

(** Where a member set is written, it is read back. *)
Lemma membership_roundtrip e m n v b :
  validateMembers m n = None → members_text_ok m → buildView e m n = Ok v →
  json_marshal (mkMF (epoch v) (members v) (view_fingerprint v)) = Some b → load_content b n = Ok v.
Proof.
  intros Hv Ht Hb Hj. destruct (buildView_Ok _ _ _ _ Hb) as (He & Hm & Hf & _).
  unfold load_content. rewrite (json_roundtrip (ok := mf_ok) (mkMF (epoch v) (members v) (view_fingerprint v)) b); [|split; cbn; [by rewrite Hm|rewrite Hf; apply hex_encode_ok]|done].
  cbn. rewrite Hm, He, Hv, Hb. by rewrite bool_decide_true.
Qed.

Lemma handoff_roundtrip e m n v b :
  validateMembers m n = None → members_text_ok m → buildView e m n = Ok v →
  json_marshal (mkHF (epoch v) (members v)) = Some b → load_handoff_content b n = Ok v.
Proof.
  intros Hv Ht Hb Hj. destruct (buildView_Ok _ _ _ _ Hb) as (He & Hm & _).
  unfold load_handoff_content. rewrite (json_roundtrip (ok := hf_ok) (mkHF (epoch v) (members v)) b); [|red; cbn; by rewrite Hm|done].
  cbn. by rewrite Hm, He, Hv, Hb.
Qed.

(** What happens to a node's view and its two files: [setMembership] with any
    outcome of the disk, a handoff recorded, anything else, and a restart that
    finds on disk what a crash may have left. *)
Inductive mstep : node → node → Prop :=
  | m_set io n e m claimed n' r run :
      windows io = false → members_text_ok m → setMembership io n e m claimed = (n', r, run) → mstep n n'
  | m_handoff io n v f err :
      windows io = false → validateMembers (members v) (repl n) = None → members_text_ok (members v) →
      buildView (epoch v) (members v) (repl n) = Ok v →
      writeHandoff io (handoff_file (ho n)) v = (f, err) →
      mstep n (set_ho n (mkHO v (handoffTarget (ho n)) false (handoffGen (ho n)) (handoffStatus (ho n))
                           (handoffsCompleted (ho n)) f))
  | m_other n n' :
      membership n' = membership n → membership_file n' = membership_file n → repl n' = repl n →
      handoff_file (ho n') = handoff_file (ho n) → mstep n n'
  | m_restart n n' id address mm neighborAddrs f h :
      recovered (membership_file n) f → recovered (handoff_file (ho n)) h →
      boot id address (repl n) mm neighborAddrs false false f h = Ok n' → mstep n n'.

Definition no_file : file := mkFile None [None] None.

(** A node started in an empty directory, and what becomes of it. *)
Inductive mreachable : node → Prop :=
  | mr_init id address n mm neighborAddrs n0 :
      boot id address n mm neighborAddrs false false no_file no_file = Ok n0 → mreachable n0
  | mr_step n n' : mreachable n → mstep n n' → mreachable n'.

(** What the files may hold after a crash. *)
Definition found_view (n : node) (c : option bytes) : Prop :=
  match c with
  | None => epoch (membership n) = 0%N
  | Some b => ∃ v, load_content b (repl n) = Ok v ∧ ((epoch (membership n) < epoch v)%N ∨ v = membership n)
  end.
Definition found_handoff (n : node) (c : option bytes) : Prop :=
  match c with None => True | Some b => ∃ v, load_handoff_content b (repl n) = Ok v end.

Record files_ok (n : node) : Prop := {
  fo_file : file_ok (membership_file n);
  fo_hfile : file_ok (handoff_file (ho n));
  fo_found : ∀ c, c ∈ after_crash (membership_file n) → found_view n c;
  fo_hfound : ∀ c, c ∈ after_crash (handoff_file (ho n)) → found_handoff n c
}.

Lemma boot_Ok id address n mm neighborAddrs f h n0 :
  boot id address n mm neighborAddrs false false f h = Ok n0 →
  ∃ v0, initialView id address neighborAddrs n = Ok v0 ∧ membership_file n0 = f ∧ handoff_file (ho n0) = h ∧ repl n0 = n ∧
    match content f with None => membership n0 = v0 | Some b => load_content b n = Ok (membership n0) end ∧
    match content h with None => True | Some b => ∃ v, load_handoff_content b n = Ok v end.
Proof.
  unfold boot, loadMembership, loadHandoff. destruct (initialView _ _ _ _) as [v0|] eqn:Ei; [|done].
  intros Hb. exists v0. split; [done|]. destruct (content f) as [b|]; destruct (content h) as [b'|]; cbn in Hb.
  - destruct (load_content b n) as [v|]; [|done]. cbn in Hb. destruct (load_handoff_content b' n) as [v'|]; [|done].
    injection Hb as <-. by split_and!; try eexists.
  - destruct (load_content b n) as [v|]; [|done]. by injection Hb as <-.
  - destruct (load_handoff_content b' n) as [v'|]; [|done]. injection Hb as <-. by split_and!; try eexists.
  - by injection Hb as <-.
Qed.

Lemma booted_ok id address n mm neighborAddrs f h n0 :
  after_crash f = [content f] → after_crash h = [content h] →
  boot id address n mm neighborAddrs false false f h = Ok n0 → files_ok n0.
Proof.
  intros Hf Hh (v0 & Hi & Ef & Eh & En & Hm & Hh')%boot_Ok. split; rewrite ?Ef, ?Eh; unfold file_ok.
  - rewrite Hf. by left.
  - rewrite Hh. by left.
  - intros c. rewrite Hf. intros ->%list_elem_of_singleton. unfold found_view. rewrite En.
    destruct (content f) as [b|]; [exists (membership n0); auto|]. subst v0. by apply buildView_Ok in Hi as [-> _].
  - intros c. rewrite Hh. intros ->%list_elem_of_singleton. unfold found_handoff. by rewrite En.
Qed.

Lemma files_ok_set io n e m claimed n' r run :
  windows io = false → members_text_ok m → setMembership io n e m claimed = (n', r, run) → files_ok n → files_ok n'.
Proof.
  intros Hw Ht Hs [Hf Hh Hc Hhc]. unfold setMembership in Hs.
  destruct (validateMembers m (repl n)) eqn:Ev; [by injection Hs as <- _ _|].
  destruct (buildView e m (repl n)) as [v|] eqn:Hv; [|by injection Hs as <- _ _].
  destruct (negb _ && negb _); [by injection Hs as <- _ _|].
  destruct (N.ltb_spec e (epoch (membership n))); [by injection Hs as <- _ _|].
  destruct (N.eqb_spec e (epoch (membership n))); [case_bool_decide; by injection Hs as <- _ _|].
  pose proof (buildView_Ok _ _ _ _ Hv) as (He & _). unfold writeMembership in Hs.
  destruct (json_marshal _) as [b|] eqn:Hj; [|injection Hs as <- _ _; by destruct n].
  pose proof (membership_roundtrip _ _ _ _ _ Ev Ht Hv Hj) as Hl.
  pose proof (WriteFileAtomic_effect io (membership_file n) b Hf) as Ha.
  destruct (WriteFileAtomic io (membership_file n) b) as [f err]. destruct Ha as (Hok & _ & Hcr & Hfine).
  destruct err as [err|]; cbn [fmap option_fmap option_map] in Hs.
  - injection Hs as <- _ _. split; [done|done| |done]. intros c [Hi| ->]%Hcr; [by apply Hc|].
    exists v. split; [done|]. left. cbn. lia.
  - pose proof (publish_effect (set_view n (membership n) f) v) as Hp. destruct (publish _ _) as [n1 run1].
    injection Hs as -> _ _. destruct Hp as (Em & Ef & _ & _ & _ & _ & Eh & En & _). destruct (Hfine eq_refl) as [_ Hd].
    split; [by rewrite Ef|by rewrite Eh| |].
    + intros c. rewrite Ef. cbn. rewrite (Hd Hw). intros ->%list_elem_of_singleton. exists v. rewrite En. split; [done|]. right. done.
    + intros c. rewrite Eh. intros Hi. pose proof (Hhc c Hi). unfold found_handoff in *. by rewrite En.
Qed.

Lemma files_ok_handoff io n v f err h :
  validateMembers (members v) (repl n) = None → members_text_ok (members v) →
  buildView (epoch v) (members v) (repl n) = Ok v → writeHandoff io (handoff_file (ho n)) v = (f, err) →
  handoff_file h = f → files_ok n → files_ok (set_ho n h).
Proof.
  intros Ev Ht Hv Hs Eh [Hf Hh Hc Hhc]. unfold writeHandoff in Hs.
  destruct (json_marshal _) as [b|] eqn:Hj; [|injection Hs as <- _; split; cbn; rewrite ?Eh; done].
  pose proof (handoff_roundtrip _ _ _ _ _ Ev Ht Hv Hj) as Hl. pose proof (WriteFileAtomic_effect io (handoff_file (ho n)) b Hh) as Ha.
  destruct (WriteFileAtomic io (handoff_file (ho n)) b) as [f' err']. injection Hs as -> _. destruct Ha as (Hok & _ & Hcr & _).
  split; cbn [membership_file ho set_ho membership]; rewrite ?Eh; [done|done|done|].
  intros c [Hi| ->]%Hcr; [by apply Hhc|]. by exists v.
Qed.

Lemma files_ok_step n n' : mstep n n' → files_ok n → files_ok n'.
Proof.
  intros [io n0 e m claimed n1 r run Hw Ht Hs|io n0 v f err Hw Ev Ht Hv Hs|n0 n1 E1 E2 E3 E4|n0 n1 id address mm nb f h [_ Hf] [_ Hh] Hb] Hok.
  - by eapply files_ok_set.
  - by apply (files_ok_handoff io n0 v f err _ Ev Ht Hv Hs).
  - destruct Hok as [Hf Hh Hc Hhc]. split; unfold found_view, found_handoff; rewrite ?E1, ?E2, ?E3, ?E4; done.
  - exact (booted_ok _ _ _ _ _ _ _ _ Hf Hh Hb).
Qed.

Lemma mreachable_ok n : mreachable n → files_ok n.
Proof. induction 1 as [id address n mm nb n0 Hb|n n' _ IH Hs]; [by apply (booted_ok id address n mm nb no_file no_file n0)|by apply (files_ok_step _ _ Hs)]. Qed.

(** C25: a view that was announced survives.  Whatever memberships a node was
    given, whatever the disk answered and however often it was restarted: if
    it crashes now it starts again, under any configuration of neighbors with
    its replication factor, and the view it then holds is the one it has
    announced or one of a later epoch (whose write was under way or had
    failed half-way). *)
Theorem announced_view_survives n id address mm neighborAddrs f h :
  mreachable n → id ≠ EmptyString → neighborAddrs !! EmptyString = None →
  recovered (membership_file n) f → recovered (handoff_file (ho n)) h →
  ∃ n', boot id address (repl n) mm neighborAddrs false false f h = Ok n' ∧
    ((epoch (membership n) < epoch (membership n'))%N ∨ membership n' = membership n ∨
     epoch (membership n) = 0%N ∧ initialView id address neighborAddrs (repl n) = Ok (membership n')).
Proof.
  intros Hok%mreachable_ok Hid Hnb [Hf _] [Hh _]. destruct Hok as [_ _ Hc Hhc]. specialize (Hc _ Hf). specialize (Hhc _ Hh).
  assert (∃ v0, initialView id address neighborAddrs (repl n) = Ok v0) as [v0 Hv0].
  { unfold initialView, buildView. rewrite NewHashRingFromMembers_ok; [by eexists|apply sorted_ids_nodup|].
    intros [a Ha]%sorted_ids_elem. rewrite lookup_insert_ne in Ha by done. congruence. }
  unfold boot, loadMembership, loadHandoff. rewrite Hv0. unfold found_view, found_handoff in *.
  destruct (content f) as [b|]; [destruct Hc as (v & Hv & Hcase); rewrite Hv|]; cbn;
    (destruct (content h) as [b'|]; [destruct Hhc as [v' Hv']; rewrite Hv'|]; cbn); eexists; (split; [done|]); cbn; naive_solver.
Qed.
End restarts.

(** ** The theorems at concrete members *)

#[export] Instance membershipFile_eq_dec : EqDecision membershipFile.
Proof. solve_decision. Defined.
#[export] Instance membershipFile_countable : Countable membershipFile.
Proof.
  apply (inj_countable' (λ f, (mf_Epoch f, mf_Members f, mf_Fingerprint f)) (λ '(e, m, s), mkMF e m s)). by intros [].
Defined.
#[export] Instance handoffFile_eq_dec : EqDecision handoffFile.
Proof. solve_decision. Defined.
#[export] Instance handoffFile_countable : Countable handoffFile.
Proof. apply (inj_countable' (λ f, (hf_Epoch f, hf_Members f)) (λ '(e, m), mkHF e m)). by intros []. Defined.

Definition toy_mf_json : JsonCodec membershipFile := countable_codec membershipFile.
Definition toy_hf_json : JsonCodec handoffFile := countable_codec handoffFile.
Definition ascii_print : Unicode := {| is_print_wide := λ _, false |}.

Definition w_members : gmap string string := {["kv-0" := "host0:7000"; "kv-1" := "host1:7000"]}.
Definition w_grown : gmap string string := <["kv-2" := "host2:7000"]> w_members.
Definition disk_fine : atomic_io := mkAtomicIO false false None false false false false false.

Section witnesses.
#[local] Existing Instance ascii_print.
#[local] Existing Instance toy_mf_json.
#[local] Existing Instance toy_hf_json.
#[local] Instance toy_mf_rt : JsonRoundTrip membershipFile mf_ok := countable_codec_roundtrip membershipFile mf_ok.
#[local] Instance toy_hf_rt : JsonRoundTrip handoffFile hf_ok := countable_codec_roundtrip handoffFile hf_ok.

Lemma w_members_valid : validateMembers w_members 2 = None.
Proof. vm_cast_no_check (eq_refl (@None invalid)). Qed.
Lemma w_grown_valid : validateMembers w_grown 2 = None.
Proof. vm_cast_no_check (eq_refl (@None invalid)). Qed.

Example shared_address_refused :
  validateMembers {["kv-0" := "host:7000"; "kv-1" := "host:7000"]} 2 = Some (SharedAddress "kv-0" "kv-1" "host:7000").
Proof. vm_compute. reflexivity. Qed.

Lemma fingerprint_identifies_placement_witness :
  ∃ v v', buildView 1 w_members 2 = Ok v ∧ buildView 7 w_members 2 = Ok v' ∧
    ((members v = members v' ∧ 2 = 2 ∧ view_ring v = view_ring v' ∧
      ∀ key, GetPreferenceList (view_ring v) key 2 = GetPreferenceList (view_ring v') key 2) ∨
     (fingerprint_text w_members 2 ≠ fingerprint_text w_members 2 ∧
      sha256 (fingerprint_text w_members 2) = sha256 (fingerprint_text w_members 2))).
Proof.
  destruct (buildView_valid 1 w_members 2 w_members_valid) as [v Hv].
  destruct (buildView_valid 7 w_members 2 w_members_valid) as [v' Hv'].
  exists v, v'. split; [exact Hv|]. split; [exact Hv'|].
  apply (fingerprint_identifies_placement 1 7 w_members w_members 2 2 v v' Hv Hv').
  apply buildView_Ok in Hv as (_ & _ & -> & _). apply buildView_Ok in Hv' as (_ & _ & -> & _). reflexivity.
Defined.

Lemma w_boot : ∃ n0, boot "kv-0" "host0:7000" 2 3 w_members false false no_file no_file = Ok n0 ∧ repl n0 = 2.
Proof.
  unfold boot, initialView.
  destruct (buildView_valid 0 (<["kv-0" := "host0:7000"]> w_members) 2) as [v ->]; [|by eexists].
  vm_cast_no_check (eq_refl (@None invalid)).
Qed.

Lemma w_text_ok : members_text_ok w_grown.
Proof. apply (bool_decide_unpack _). vm_compute. exact I. Qed.

(** A node that was given a third member, and crashes. *)
Lemma announced_view_survives_witness :
  ∃ n n', mreachable n ∧ boot "kv-0" "host0:7000" (repl n) 3 w_members false false
    (mkFile (content (membership_file n)) [content (membership_file n)] None) no_file = Ok n' ∧
    ((epoch (membership n) < epoch (membership n'))%N ∨ membership n' = membership n ∨
     epoch (membership n) = 0%N ∧ initialView "kv-0" "host0:7000" w_members (repl n) = Ok (membership n')).
Proof.
  destruct w_boot as (n0 & Hb & Hn). pose proof (mr_init _ _ _ _ _ _ Hb) as Hr0.
  destruct (setMembership disk_fine n0 1 w_grown EmptyString) as [[n r] run] eqn:Hs.
  pose proof (mr_step n0 n Hr0 (m_set disk_fine n0 1 w_grown EmptyString n r run eq_refl w_text_ok Hs)) as Hr.
  pose proof (fo_file n (mreachable_ok n Hr)) as Hf.
  assert (handoff_file (ho n) = no_file) as Eh.
  { pose proof (boot_Ok _ _ _ _ _ _ _ _ Hb) as (_ & _ & _ & Eh & _). rewrite <-Eh.
    by rewrite <-(setMembership_handoff_file disk_fine n0 1 w_grown EmptyString), Hs. }
  destruct (announced_view_survives n "kv-0" "host0:7000" 3 w_members
    (mkFile (content (membership_file n)) [content (membership_file n)] None) no_file Hr) as (n' & H1 & H2).
  - discriminate.
  - reflexivity.
  - split; [exact Hf|reflexivity].
  - rewrite Eh. split; [by left|reflexivity].
  - exists n, n'. split; [exact Hr|]. split; [exact H1|exact H2].
Defined.
End witnesses.
