(* ===== verification/Heartbeat.v ===== *)
(** * Heartbeats and the spread of memberships (internal/node/heartbeat.go, peers.go)

    What a node records about its peers from the pings it sends, how it answers
    theirs, and how a newer membership travels from node to node with them. *)

From stdpp Require Import gmap strings list pretty.
From Stdlib Require Import ZArith Lia.
From S2P Require Import Prelude GoLib Json HashRing Sha256 Quote Fsutil Membership.

Open Scope nat_scope.

(** ** Health records *)

Definition set_health (n : node) (h : gmap string peerHealth) : node :=
  set_hs n (mkHS h (conflictSeen (hs n)) (mismatchSeen (hs n)) (pingingBack (hs n))).

Definition is_member (n : node) (id : string) : bool := bool_decide (is_Some (members (membership n) !! id)).

(** [IsMember] *)
Definition IsMember (n : node) : bool := is_member n (node_ID n).

Definition isDead (n : node) (peerID : string) : bool :=
  match health (hs n) !! peerID with Some h => dead h | None => false end.

Definition fresh_health : peerHealth := mkHealth 0 false 0 false.

Definition recordHeartbeat (n : node) (peerID : string) (ok : bool) : node :=
  if negb (is_member n peerID) then n
  else
    let h := default fresh_health (health (hs n) !! peerID) in
    let h' :=
      if ok then mkHealth 0 false (seen_epoch h) ok
      else
        let misses := (misses h + 1)%N in
        mkHealth misses (if (maxMissed n <=? Z.of_N misses)%Z then true else dead h) (seen_epoch h) ok in
    set_health n (<[peerID := h']> (health (hs n))).

Definition recordPeerEpoch (n : node) (peerID : string) (e : N) : node :=
  if negb (is_member n peerID) then n
  else
    let h := default fresh_health (health (hs n) !! peerID) in
    set_health n (<[peerID := mkHealth (misses h) (dead h) e (reachable h)]> (health (hs n))).

Record PeerStatus := mkPeerStatus { Alive : bool; LastSeenEpoch : N; Reachable : bool }.

Definition status_of (h : option peerHealth) : PeerStatus :=
  match h with
  | Some h => mkPeerStatus (negb (dead h)) (seen_epoch h) (reachable h)
  | None => mkPeerStatus true 0 false
  end.

Definition PeerStatuses (n : node) : gmap string PeerStatus :=
  map_imap (λ id _, if bool_decide (id = node_ID n) then None else Some (status_of (health (hs n) !! id)))
    (members (membership n)).

(** [allPeersAtLeast], which iterates the map in some order *)
Definition allPeersAtLeast (n : node) (v : view) (e : N) : bool :=
  forallb (λ id, bool_decide (id = node_ID n) ||
                 match health (hs n) !! id with None => false | Some h => (e <=? seen_epoch h)%N end)
    (elements (dom (members v))).

(** ** Memberships that differ *)

Definition noteConflict (n : node) (peerID : string) (e : N) (fp : string) : node :=
  let n := set_flags n (adopting n) (pingsReceived n) (u64 (membershipConflicts n + 1)) in
  let h := hs n in
  set_hs n (mkHS (health h) (<[peerID := pretty e +:+ "/" +:+ fp]> (conflictSeen h)) (mismatchSeen h) (pingingBack h)).

Definition noteAddressMismatch (n : node) (peerID claimed : string) : node :=
  let h := hs n in
  set_hs n (mkHS (health h) (conflictSeen h) (<[peerID := claimed]> (mismatchSeen h)) (pingingBack h)).

Record MembershipInfo := mkInfo { info_Epoch : N; info_Members : gmap string string; info_Fingerprint : string }.

Definition CurrentMembership (n : node) : MembershipInfo :=
  mkInfo (epoch (membership n)) (members (membership n)) (view_fingerprint (membership n)).

(** Background work that a call starts: a fetch of a peer's membership, over
    its connection or from an address; a ping back. *)
Inductive task := Fetch (peerID : string) (from : option string) | PingBack (peerID : string).

(** [adoptFrom]: single-flight, and nothing once background work was stopped *)
Definition adoptFrom (n : node) (peerID : string) (from : option string) : node * list task :=
  if adopting n then (n, [])
  else if bgStopped n then (n, [])
  else (set_flags n true (pingsReceived n) (membershipConflicts n), [Fetch peerID from]).

Section adopt.
Context `{!Unicode} `{!JsonCodec membershipFile}.

Definition adoptFetched (io : atomic_io) (n : node) (peerID : string) (info : MembershipInfo) : node * option handoff_run :=
  let '(n, r, run) := setMembership io n (info_Epoch info) (info_Members info) (info_Fingerprint info) in
  match r with
  | Err (MembershipConflict _) => (noteConflict n peerID (info_Epoch info) (info_Fingerprint info), run)
  | _ => (n, run)
  end.

(** The background function of [adoptFrom], given what the fetch returned. *)
Definition runFetch (io : atomic_io) (n : node) (peerID : string) (fetched : option MembershipInfo) : node * option handoff_run :=
  let '(n, run) := match fetched with Some info => adoptFetched io n peerID info | None => (n, None) end in
  (set_flags n false (pingsReceived n) (membershipConflicts n), run).
End adopt.

(** ** Pings *)

Record PingInfo := mkPing { SenderID : string; SenderAddress : string; ping_Epoch : N; ping_Fingerprint : string }.
Record PingReply := mkReply { reply_NodeID : string; reply_Epoch : N; reply_Fingerprint : string }.

(** What the ping of a peer meets: what a dial gives, whether the caller's
    context has ended, the answer ([None] if the call failed), and what else
    happens to the node while the call is under way. *)
Record ping_env := mkPingEnv {
  pe_dial : option N; pe_ended : bool; pe_reply : option PingReply; pe_meanwhile : node → node
}.

(** [pingPeer] after the call *)
Definition ping_answered (n : node) (peerID : string) (reply : PingReply) : node * list task :=
  if negb (bool_decide (reply_NodeID reply = peerID)) then (recordHeartbeat n peerID false, [])
  else
    let n := recordPeerEpoch (recordHeartbeat n peerID true) peerID (reply_Epoch reply) in
    let cur := membership n in
    if (epoch cur <? reply_Epoch reply)%N then adoptFrom n peerID None
    else if (reply_Epoch reply =? epoch cur)%N && negb (bool_decide (reply_Fingerprint reply = view_fingerprint cur))
    then (noteConflict n peerID (epoch cur) (reply_Fingerprint reply), [])
    else (n, []).

(** The request is what the node announces. *)
Definition ping_request (n : node) : PingInfo :=
  mkPing (node_ID n) (node_address n) (epoch (membership n)) (view_fingerprint (membership n)).

Definition pingPeer (env : ping_env) (n : node) (v : view) (peerID : string) : node * list task :=
  let '(c, client) := clientFor (cs n) v peerID (pe_dial env) in
  let n := set_cs n c in
  match client with
  | Err _ => (if pe_ended env then n else recordHeartbeat n peerID false, [])
  | Ok _ =>
      let n := pe_meanwhile env n in
      if pe_ended env then (n, [])
      else match pe_reply env with
      | None => (recordHeartbeat n peerID false, [])
      | Some reply => ping_answered n peerID reply
      end
  end.

(** [heartbeatRound]: the pings of the view's other members, in the order in
    which they get to run. *)
Fixpoint heartbeat_loop (env : string → ping_env) (n : node) (v : view) (peers : list string) : node * list task :=
  match peers with
  | [] => (n, [])
  | id :: rest =>
      let '(n, ts) := pingPeer (env id) n v id in
      let '(n, ts') := heartbeat_loop env n v rest in
      (n, ts ++ ts')
  end.
Definition heartbeatRound (order : gset string → list string) (env : string → ping_env) (n : node) : node * list task :=
  let v := membership n in
  heartbeat_loop env n v (order (dom (members v) ∖ {[node_ID n]})).

(** [pingBack] *)
Definition pingBack (n : node) (from : PingInfo) : node * list task :=
  let peerID := SenderID from in
  match members (membership n) !! peerID with
  | None => (n, [])
  | Some addr =>
      if bool_decide (peerID = node_ID n) then (n, [])
      else if negb (bool_decide (SenderAddress from = addr)) then (noteAddressMismatch n peerID (SenderAddress from), [])
      else
        let h := hs n in
        let h := mkHS (health h) (conflictSeen h) (delete peerID (mismatchSeen h)) (pingingBack h) in
        if match health h !! peerID with Some ph => reachable ph | None => false end || bool_decide (peerID ∈ pingingBack h)
        then (set_hs n h, [])
        else if bgStopped n then (set_hs n h, [])
        else (set_hs n (mkHS (health h) (conflictSeen h) (mismatchSeen h) ({[peerID]} ∪ pingingBack h)), [PingBack peerID])
  end.

(** The background function of [pingBack]: the old connection, which
    [closeRetiredLater] closes, is replaced by a new one. *)
Definition runPingBack (env : ping_env) (n : node) (peerID : string) : node * list task * option N :=
  let '(c, old) := retireClient (cs n) peerID in
  let '(n, ts) := pingPeer env (set_cs n c) (membership n) peerID in
  let h := hs n in
  (set_hs n (mkHS (health h) (conflictSeen h) (mismatchSeen h) (pingingBack h ∖ {[peerID]})), ts, old).

(** [closeRetiredLater] when its timer fires: whether [old] is closed. *)
Fixpoint remove_first (old : N) (l : list N) : list N :=
  match l with
  | [] => []
  | c :: l' => if (c =? old)%N then l' else c :: remove_first old l'
  end.
Definition closeRetired (c : client_state) (old : N) : client_state * bool :=
  if bool_decide (old ∈ retired c) then (mkCS (clients c) (remove_first old (retired c)) (clientsClosed c), true) else (c, false).

(** [HandlePing] *)
Definition HandlePing (n : node) (from : PingInfo) : node * PingReply * list task :=
  let n := set_flags n (adopting n) (u64 (pingsReceived n + 1)) (membershipConflicts n) in
  let '(n, ts) := pingBack n from in
  let cur := membership n in
  let '(n, ts') :=
    if (epoch cur <? ping_Epoch from)%N && negb (bool_decide (SenderAddress from = EmptyString))
    then adoptFrom n (SenderID from) (Some (SenderAddress from))
    else if (ping_Epoch from =? epoch cur)%N && negb (bool_decide (ping_Fingerprint from = view_fingerprint cur))
    then (noteConflict n (SenderID from) (epoch cur) (ping_Fingerprint from), [])
    else (n, []) in
  (n, mkReply (node_ID n) (epoch cur) (view_fingerprint cur), ts ++ ts').

(** ** What pings add up to *)

(** The outcomes of pings in the order recorded: the failures in a row at the
    end, for one peer, and whether its last ping was answered. *)
Definition missed (evs : list (string * bool)) (id : string) : N :=
  fold_left (λ (k : N) (e : string * bool), if bool_decide (e.1 = id) then (if e.2 then 0%N else (k + 1)%N) else k) evs 0%N.
Definition answered (evs : list (string * bool)) (id : string) : bool :=
  fold_left (λ (b : bool) (e : string * bool), if bool_decide (e.1 = id) then e.2 else b) evs false.

Definition record_all (n : node) (evs : list (string * bool)) : node :=
  fold_left (λ n e, recordHeartbeat n e.1 e.2) evs n.

Lemma recordHeartbeat_keeps n p ok :
  membership (recordHeartbeat n p ok) = membership n ∧ node_ID (recordHeartbeat n p ok) = node_ID n ∧
  maxMissed (recordHeartbeat n p ok) = maxMissed n.
Proof. unfold recordHeartbeat. by destruct (negb _). Qed.

Lemma record_all_keeps n evs :
  membership (record_all n evs) = membership n ∧ node_ID (record_all n evs) = node_ID n ∧
  maxMissed (record_all n evs) = maxMissed n.
Proof.
  unfold record_all. revert n. induction evs as [|e evs IH]; intros n; [done|]. cbn [fold_left].
  destruct (IH (recordHeartbeat n e.1 e.2)) as (-> & -> & ->). apply recordHeartbeat_keeps.
Qed.

(** A record agrees with the outcomes [k] and [b] sum up. *)
Definition record_fits (max : Z) (h : option peerHealth) (k : N) (b : bool) : Prop :=
  match h with
  | None => k = 0%N ∧ b = false
  | Some h => misses h = k ∧ reachable h = b ∧ (dead h = true ↔ (Z.max 1 max ≤ Z.of_N k)%Z)
  end.

Lemma recordHeartbeat_fits n p ok id k b :
  is_member n id = true → record_fits (maxMissed n) (health (hs n) !! id) k b →
  record_fits (maxMissed n) (health (hs (recordHeartbeat n p ok)) !! id)
    (if bool_decide (p = id) then (if ok then 0 else k + 1) else k)%N (if bool_decide (p = id) then ok else b).
Proof.
  intros Hm Hf. unfold recordHeartbeat. case_bool_decide as Hp.
  - subst p. rewrite Hm. cbn [negb set_health set_hs hs health]. rewrite lookup_insert_eq.
    destruct ok; cbn [record_fits misses reachable dead]; [split_and!; [done|done|]; split; [done|lia]|].
    destruct (health (hs n) !! id) as [h|]; cbn [default record_fits] in *.
    + destruct Hf as (Hk & Hb & Hd). split_and!; [cbv [from_option Datatypes.id]; congruence|done|]. cbv [from_option Datatypes.id].
      destruct (Z.leb_spec (maxMissed n) (Z.of_N (misses h + 1))); [split; [lia|done]|]. rewrite Hd, Hk in *. lia.
    + destruct Hf as [-> ->]. cbv [from_option]. split_and!; [done|done|]. cbn [misses dead fresh_health].
      destruct (Z.leb_spec (maxMissed n) (Z.of_N (0 + 1))); [split; [lia|done]|split; [done|lia]].
  - destruct (negb (is_member n p)); [done|]. cbn [set_health set_hs hs health]. by rewrite lookup_insert_ne.
Qed.

Lemma record_all_fits n evs id :
  is_member n id = true → health (hs n) !! id = None →
  record_fits (maxMissed n) (health (hs (record_all n evs)) !! id) (missed evs id) (answered evs id).
Proof.
  intros Hm Hn. induction evs as [|e evs IH] using rev_ind; [cbn; by rewrite Hn|].
  unfold record_all, missed, answered in *. rewrite !fold_left_app. cbn [fold_left].
  destruct (record_all_keeps n evs) as (E1 & _ & E3). unfold record_all in E1, E3. rewrite <-E3 in IH |- *.
  apply recordHeartbeat_fits; [|done]. unfold is_member in *. by rewrite E1.
Qed.

(** Only members have records. *)
Lemma recordHeartbeat_members n p ok :
  dom (health (hs n)) ⊆ dom (members (membership n)) →
  dom (health (hs (recordHeartbeat n p ok))) ⊆ dom (members (membership (recordHeartbeat n p ok))).
Proof.
  intros Hd. unfold recordHeartbeat, is_member. case_bool_decide as Hm; cbn [negb]; [|done].
  cbn [set_health set_hs hs health membership]. rewrite dom_insert. apply elem_of_dom in Hm. set_solver.
Qed.

Lemma record_all_members n evs :
  dom (health (hs n)) ⊆ dom (members (membership n)) →
  dom (health (hs (record_all n evs))) ⊆ dom (members (membership n)).
Proof.
  unfold record_all. revert n. induction evs as [|e evs IH]; intros n Hd; [done|]. cbn [fold_left].
  destruct (recordHeartbeat_keeps n e.1 e.2) as (E & _). rewrite <-E. apply IH. by apply recordHeartbeat_members.
Qed.

(** What the recorded pings say about the peers.  From no records, after
    the outcomes of any pings in any order (some to nodes that are no members):
    [PeerStatuses] lists exactly the other members; a member is alive unless
    its last [MaxMissedHeartbeats] pings in a row (one, if that is not
    positive) failed, and reachable exactly if its latest one was answered;
    [isDead] says the same, and never holds of a node that is no member. *)
Theorem heartbeat_verdict n evs :
  health (hs n) = ∅ →
  let n' := record_all n evs in
  dom (PeerStatuses n') = dom (members (membership n)) ∖ {[node_ID n]} ∧
  (∀ id st, PeerStatuses n' !! id = Some st →
     (Alive st = false ↔ (Z.max 1 (maxMissed n) ≤ Z.of_N (missed evs id))%Z) ∧
     Reachable st = answered evs id ∧ isDead n' id = negb (Alive st)) ∧
  (∀ id, id ∉ dom (members (membership n)) → isDead n' id = false).
Proof.
  intros Hn n'. destruct (record_all_keeps n evs) as (Em & Ei & _). fold n' in Em, Ei.
  pose proof (record_all_members n evs ltac:(rewrite Hn; set_solver)) as Hd. fold n' in Hd.
  split_and!.
  - apply set_eq. intros id. rewrite elem_of_dom. unfold PeerStatuses. rewrite map_lookup_imap, Em, Ei.
    rewrite elem_of_difference, elem_of_singleton, elem_of_dom. destruct (members (membership n) !! id) eqn:E; cbn.
    + case_bool_decide; split; try done; naive_solver.
    + split; [by intros []|intros [[] _]; done].
  - intros id st. unfold PeerStatuses. rewrite map_lookup_imap, Em, Ei. destruct (members (membership n) !! id) as [addr|] eqn:E; [|done].
    cbn. case_bool_decide; [done|]. intros [= <-]. unfold isDead.
    assert (is_member n id = true) as Hm by (unfold is_member; rewrite E; done).
    pose proof (record_all_fits n evs id Hm ltac:(by rewrite Hn)) as Hf. fold n' in Hf.
    destruct (health (hs n') !! id) as [h|]; cbn [status_of Alive Reachable record_fits] in *.
    + destruct Hf as (_ & -> & Hdead). rewrite negb_involutive, <-Hdead. split_and!; [|done|done]. by destruct (dead h).
    + destruct Hf as [-> ->]. split_and!; [|done|done]. split; [done|lia].
  - intros id Hid. unfold isDead. destruct (health (hs n') !! id) as [h|] eqn:E; [|done].
    exfalso. apply Hid, Hd, elem_of_dom. by rewrite E.
Qed.

(** ** What pings leave alone *)

(** Nothing but health, connections, flags and counters changes. *)
Definition same_view (n n' : node) : Prop :=
  membership n' = membership n ∧ membership_file n' = membership_file n ∧ repl n' = repl n ∧ node_ID n' = node_ID n ∧
  bgStopped n' = bgStopped n ∧ ho n' = ho n.

Lemma same_view_trans n1 n2 n3 : same_view n1 n2 → same_view n2 n3 → same_view n1 n3.
Proof. unfold same_view. intuition congruence. Qed.

Lemma recordHeartbeat_view n p ok : same_view n (recordHeartbeat n p ok).
Proof. unfold recordHeartbeat. by destruct (negb _). Qed.
Lemma recordHeartbeat_adopting n p ok : adopting (recordHeartbeat n p ok) = adopting n.
Proof. unfold recordHeartbeat. by destruct (negb _). Qed.

Lemma recordPeerEpoch_view n p e : same_view n (recordPeerEpoch n p e).
Proof. unfold recordPeerEpoch. by destruct (negb _). Qed.
Lemma recordPeerEpoch_adopting n p e : adopting (recordPeerEpoch n p e) = adopting n.
Proof. unfold recordPeerEpoch. by destruct (negb _). Qed.

Lemma pingBack_view n from : same_view n (pingBack n from).1.
Proof. unfold pingBack. by repeat case_match. Qed.

(** ** A cluster *)

Section cluster.
Context `{!Unicode} `{!JsonCodec membershipFile} `{!JsonCodec handoffFile}.
Context `{!JsonRoundTrip membershipFile mf_ok, !JsonRoundTrip handoffFile hf_ok}.

(** The memberships that are posted to nodes, by epoch: any, and several for
    one epoch too; and the replication factor all nodes are configured with. *)
Context (posted : N → gmap string string → Prop) (N0 : nat).
Hypothesis posted_text : ∀ e m, posted e m → members_text_ok m.

(** What happens to one node, given the memberships nodes have sent. *)
Inductive nstep (sent : list MembershipInfo) : node → node → Prop :=
  | n_declare io n e m n' r run :
      windows io = false → posted e m → SetMembership io n e m = (n', r, run) → nstep sent n n'
  | n_fetch io n peerID info n' run :
      windows io = false → info ∈ sent → runFetch io n peerID (Some info) = (n', run) → nstep sent n n'
  | n_other n n' :
      membership n' = membership n → membership_file n' = membership_file n → repl n' = repl n →
      handoff_file (ho n') = handoff_file (ho n) → nstep sent n n'
  | n_restart n n' id address mm neighborAddrs f h :
      recovered (membership_file n) f → recovered (handoff_file (ho n)) h →
      boot id address (repl n) mm neighborAddrs false false f h = Ok n' → nstep sent n n'.

(** The nodes, and what was ever sent: a message may arrive late or never. *)
Inductive gstep : gmap string node * list MembershipInfo → gmap string node * list MembershipInfo → Prop :=
  | g_node cl sent i n n' : cl !! i = Some n → nstep sent n n' → gstep (cl, sent) (<[i := n']> cl, sent)
  | g_send cl sent i n : cl !! i = Some n → gstep (cl, sent) (cl, CurrentMembership n :: sent).

Inductive greachable : gmap string node * list MembershipInfo → Prop :=
  | gr_init cl :
      (∀ i n, cl !! i = Some n →
         ∃ id address mm nb, boot id address N0 mm nb false false no_file no_file = Ok n) → greachable (cl, [])
  | gr_step s s' : greachable s → gstep s s' → greachable s'.

(** A view that was declared, or one a node was configured with. *)
Definition planned (v : view) : Prop :=
  epoch v = 0%N ∨ posted (epoch v) (members v) ∧ buildView (epoch v) (members v) N0 = Ok v.

Definition planned_info (info : MembershipInfo) : Prop :=
  info_Epoch info = 0%N ∨ posted (info_Epoch info) (info_Members info).

Record node_planned (n : node) : Prop := {
  np_repl : repl n = N0;
  np_files : files_ok n;
  np_view : planned (membership n);
  np_found : ∀ b v, Some b ∈ after_crash (membership_file n) → load_content b N0 = Ok v → planned v
}.

(** How a node's view changes: to one of a later epoch or, but for the
    configured view of epoch 0, not at all. *)
Definition follows (v v' : view) : Prop :=
  (epoch v ≤ epoch v')%N ∧ (epoch v' = epoch v → epoch v ≠ 0%N → v' = v).

#[local] Instance follows_preorder : PreOrder follows.
Proof.
  split; [done|]. intros v1 v2 v3 [H1 E1] [H2 E2]. split; [lia|]. intros E H0.
  rewrite E2 by lia. by apply E1; [lia|].
Qed.

Lemma setMembership_planned io n e m claimed n' r run :
  windows io = false → (e = 0%N ∨ posted e m) → setMembership io n e m claimed = (n', r, run) →
  node_planned n → node_planned n' ∧ follows (membership n) (membership n').
Proof.
  intros Hw Hplan Hs [Hr Hf Hv Hfound]. pose proof (files_ok_set io n e m claimed n' r run Hw) as Hfok.
  unfold setMembership in Hs. destruct (validateMembers m (repl n)) eqn:Ev; [injection Hs as <- _ _; done|].
  destruct (buildView e m (repl n)) as [v|] eqn:Hb; [|injection Hs as <- _ _; done].
  destruct (negb _ && negb _) eqn:Ec; [injection Hs as <- _ _; done|].
  destruct (N.ltb_spec e (epoch (membership n))) as [|Hge]; [injection Hs as <- _ _; done|].
  destruct (N.eqb_spec e (epoch (membership n))) as [|Hne]; [case_bool_decide; injection Hs as <- _ _; done|].
  destruct Hplan as [->|Hplan]; [lia|]. specialize (Hfok (posted_text _ _ Hplan)). unfold setMembership in Hfok.
  rewrite Ev, Hb, Ec, (proj2 (N.ltb_ge _ _) Hge), (proj2 (N.eqb_neq _ _) Hne) in Hfok. specialize (Hfok Hs Hf).
  pose proof (buildView_Ok _ _ _ _ Hb) as (He & Hm & _). assert (planned v) as Hpv by (right; rewrite He, Hm, <-Hr; done).
  unfold writeMembership in Hs. destruct (json_marshal _) as [b|] eqn:Hj; [|injection Hs as <- _ _; by destruct n].
  pose proof (membership_roundtrip _ _ _ _ _ Ev (posted_text _ _ Hplan) Hb Hj) as Hl. rewrite Hr in Hl.
  pose proof (WriteFileAtomic_effect io (membership_file n) b (fo_file n Hf)) as Ha.
  destruct (WriteFileAtomic io (membership_file n) b) as [f err]. destruct Ha as (_ & _ & Hcr & _).
  assert (∀ b' v', Some b' ∈ after_crash f → load_content b' N0 = Ok v' → planned v') as Hfound'.
  { intros b' v' [Hi|[= ->]]%Hcr Hl'; [by eapply Hfound|]. rewrite Hl in Hl'. by injection Hl' as <-. }
  destruct err as [err|]; cbn [fmap option_fmap option_map] in Hs; [injection Hs as <- _ _; done|].
  pose proof (publish_effect (set_view n (membership n) f) v) as Hp. destruct (publish _ _) as [n1 run1].
  injection Hs as -> _ _. destruct Hp as (Em & Ef & _ & _ & _ & _ & _ & En & _).
  split; [|rewrite Em; split; lia]. split; [by rewrite En|done|by rewrite Em|by rewrite Ef].
Qed.

Lemma node_planned_other n n' :
  membership n' = membership n → membership_file n' = membership_file n → repl n' = repl n →
  handoff_file (ho n') = handoff_file (ho n) → node_planned n → node_planned n'.
Proof.
  intros E1 E2 E3 E4 [Hr Hf Hv Hfound]. split; rewrite ?E1, ?E2, ?E3; try done.
  by apply (files_ok_step n n'); [apply m_other|].
Qed.

Lemma booted_planned id address mm nb f h n' :
  after_crash f = [content f] → after_crash h = [content h] → (∀ b v, content f = Some b → load_content b N0 = Ok v → planned v) →
  boot id address N0 mm nb false false f h = Ok n' → node_planned n'.
Proof.
  intros Hf Hh Hc Hb. pose proof (booted_ok _ _ _ _ _ _ _ _ Hf Hh Hb) as Hok.
  destruct (boot_Ok _ _ _ _ _ _ _ _ Hb) as (v0 & Hi & Ef & Eh & En & Hm & _).
  split; [done|done| |].
  - destruct (content f) as [b|]; [by eapply Hc|]. subst v0. left. by apply buildView_Ok in Hi as [? _].
  - intros b v. rewrite Ef, Hf. intros Hi'%list_elem_of_singleton Hl. by eapply Hc.
Qed.

Lemma nstep_planned sent n n' :
  (∀ info, info ∈ sent → planned_info info) → nstep sent n n' → node_planned n →
  node_planned n' ∧ follows (membership n) (membership n').
Proof.
  intros Hsent Hs Hn.
  destruct Hs as [io n e m n' r run Hw Hp Hs|io n peerID info n' run Hw Hi Hs|n n' E1 E2 E3 E4|n n' id address mm nb f h Hf Hh Hb].
  - eapply setMembership_planned; [done|by right|done|done].
  - unfold runFetch, adoptFetched in Hs. destruct (setMembership io n _ _ _) as [[n1 r] run1] eqn:Hs1.
    destruct (setMembership_planned _ _ _ _ _ _ _ _ Hw (Hsent _ Hi) Hs1 Hn) as [Hn1 He].
    assert (membership n' = membership n1 ∧ membership_file n' = membership_file n1 ∧ repl n' = repl n1 ∧ ho n' = ho n1) as (E1 & E2 & E3 & E4).
    { by destruct r as [|[]]; injection Hs as <- _. }
    split; [|by rewrite E1]. by apply (node_planned_other n1 n'); try done; rewrite E4.
  - split; [by eapply node_planned_other|by rewrite E1].
  - destruct Hn as [Hr Hfo Hv Hfound]. destruct Hf as [Hf1 Hf2], Hh as [Hh1 Hh2]. rewrite Hr in Hb. split.
    + eapply (booted_planned id address mm nb f h); [done|done| |done]. intros b v Hc. apply Hfound. by rewrite <-Hc.
    + destruct (boot_Ok _ _ _ _ _ _ _ _ Hb) as (v0 & Hi & _ & _ & _ & Hm & _). pose proof (fo_found n Hfo _ Hf1) as Hfv.
      unfold found_view in Hfv. rewrite Hr in Hfv. destruct (content f) as [b|]; [|unfold follows; rewrite Hfv; split; [lia|done]].
      destruct Hfv as (v & Hl & Hcase). rewrite Hl in Hm. injection Hm as <-. destruct Hcase as [|<-]; [split; lia|done].
Qed.

Lemma greachable_planned s :
  greachable s → (∀ i n, s.1 !! i = Some n → node_planned n) ∧ (∀ info, info ∈ s.2 → planned_info info).
Proof.
  induction 1 as [cl Hb|s s' _ [IHn IHs] Hs]; cbn [fst snd].
  - split; [|set_solver]. intros i n (id & address & mm & nb & Hbt)%Hb.
    by apply (booted_planned id address mm nb no_file no_file n).
  - destruct Hs as [cl sent i n n' Hi Hst|cl sent i n Hi]; cbn [fst snd] in *.
    + split; [|done]. intros j nj. destruct (decide (i = j)) as [<-|]; [rewrite lookup_insert_eq|rewrite lookup_insert_ne by done; apply IHn].
      intros [= <-]. by apply (nstep_planned sent n n' IHs Hst), (IHn i).
    + split; [done|]. intros info [->|Hin]%elem_of_cons; [|by apply IHs].
      destruct (np_view n (IHn i n Hi)) as [?|[? _]]; [by left|by right].
Qed.

Lemma gstep_follows s s' :
  greachable s → gstep s s' → ∀ i n, s.1 !! i = Some n → ∃ n', s'.1 !! i = Some n' ∧ follows (membership n) (membership n').
Proof.
  intros [Hn Hs]%greachable_planned Hst i n Hi. destruct Hst as [cl sent j m m' Hj Hm|]; cbn [fst snd] in *; [|by exists n].
  destruct (decide (j = i)) as [->|]; [|exists n; by rewrite lookup_insert_ne].
  exists m'. rewrite lookup_insert_eq. split; [done|]. rewrite Hi in Hj. injection Hj as <-.
  by apply (nstep_planned sent n m' Hs Hm), (Hn i).
Qed.

Lemma gsteps_follow s s' :
  greachable s → rtc gstep s s' → ∀ i n, s.1 !! i = Some n → ∃ n', s'.1 !! i = Some n' ∧ follows (membership n) (membership n').
Proof.
  intros Hr Hs. induction Hs as [s|s1 s2 s3 Hst _ IH]; intros i n Hi; [by exists n|].
  destruct (gstep_follows _ _ Hr Hst i n Hi) as (n2 & H2 & F2).
  destruct (IH (gr_step _ _ Hr Hst) i n2 H2) as (n3 & H3 & F3). exists n3. split; [done|]. by etransitivity.
Qed.

(** A conflict that [n'] notes with the node [peer] and leaves at that. *)
Definition conflict_noted (n n' : node) (peer : string) (e : N) (fp : string) : Prop :=
  membership n' = membership n ∧ membership_file n' = membership_file n ∧
  membershipConflicts n' = u64 (membershipConflicts n + 1) ∧
  conflictSeen (hs n') !! peer = Some (pretty e +:+ "/" +:+ fp).

Lemma setMembership_conflict io n m claimed :
  validateMembers m (repl n) = None → fingerprint m (repl n) ≠ view_fingerprint (membership n) →
  claimed = EmptyString ∨ claimed = fingerprint m (repl n) →
  setMembership io n (epoch (membership n)) m claimed = (n, Err (MembershipConflict (epoch (membership n))), None).
Proof.
  intros Hv Hf Hc. unfold setMembership. rewrite Hv. destruct (buildView_valid (epoch (membership n)) m (repl n) Hv) as [v Hb].
  rewrite Hb. apply buildView_Ok in Hb as (_ & _ & -> & _). rewrite N.ltb_irrefl, N.eqb_refl, (bool_decide_false _ Hf).
  destruct Hc as [-> | ->]; [done|]. by rewrite (bool_decide_true (fingerprint m (repl n) = fingerprint m (repl n))), andb_false_r.
Qed.

Lemma HandlePing_conflict n from :
  ping_Epoch from = epoch (membership n) → ping_Fingerprint from ≠ view_fingerprint (membership n) →
  conflict_noted n (HandlePing n from).1.1 (SenderID from) (epoch (membership n)) (ping_Fingerprint from).
Proof.
  intros He Hf. unfold HandlePing. set (n1 := set_flags _ _ _ _).
  assert (membershipConflicts (pingBack n1 from).1 = membershipConflicts n) as Ec by (unfold pingBack; by repeat case_match).
  pose proof (pingBack_view n1 from) as (E1 & E2 & _). destruct (pingBack n1 from) as [n2 ts]. cbn [fst] in *.
  change (membership n1) with (membership n) in E1. change (membership_file n1) with (membership_file n) in E2.
  rewrite E1, He, N.ltb_irrefl, N.eqb_refl, (bool_decide_false _ Hf). cbn [andb negb fst].
  split_and!; [done|done|by cbn; rewrite Ec|]. cbn. by rewrite lookup_insert_eq.
Qed.

(** C24: where a node's membership comes from, and what becomes of two for one
    epoch.  Any memberships are posted to any nodes, several for one epoch
    too; nodes adopt what they fetch from each other, from messages of any age;
    disks fail and nodes crash and restart.  Then (1) the view a node holds
    beyond the configured epoch 0 is that of a member set posted, for that very
    epoch, to some node; (2) however the cluster goes on, no node goes back to
    an earlier epoch, and while it is at one epoch, beyond 0, its view stays
    what it is; (3) a valid member set under the node's epoch whose fingerprint
    is not that of its view is refused when it is posted, and noted as a
    conflict when it is fetched, as is a ping from a node whose view of that
    epoch has another fingerprint: the conflict is counted and recorded, and
    neither view nor file changes; (4) so nodes at an epoch for which one
    member set was posted hold the same view. *)
Theorem views_posted_and_kept cl sent :
  greachable (cl, sent) →
  (∀ i n, cl !! i = Some n → epoch (membership n) ≠ 0%N →
     posted (epoch (membership n)) (members (membership n)) ∧
     buildView (epoch (membership n)) (members (membership n)) N0 = Ok (membership n)) ∧
  (∀ s', rtc gstep (cl, sent) s' → ∀ i n, cl !! i = Some n →
     ∃ n', s'.1 !! i = Some n' ∧ follows (membership n) (membership n')) ∧
  (∀ i n, cl !! i = Some n →
     let e := epoch (membership n) in
     (∀ io peer m, validateMembers m N0 = None → fingerprint m N0 ≠ view_fingerprint (membership n) →
        SetMembership io n e m = (n, Err (MembershipConflict e), None) ∧
        conflict_noted n (runFetch io n peer (Some (mkInfo e m (fingerprint m N0)))).1 peer e (fingerprint m N0)) ∧
     (∀ j n', cl !! j = Some n' → epoch (membership n') = e → view_fingerprint (membership n') ≠ view_fingerprint (membership n) →
        conflict_noted n (HandlePing n (ping_request n')).1.1 (node_ID n') e (view_fingerprint (membership n')))) ∧
  (∀ i j n n', cl !! i = Some n → cl !! j = Some n' → epoch (membership n) = epoch (membership n') →
     epoch (membership n) ≠ 0%N →
     (∀ m m', posted (epoch (membership n)) m → posted (epoch (membership n)) m' → m = m') →
     membership n = membership n').
Proof.
  intros Hr. pose proof (greachable_planned _ Hr) as [Hn Hs]. cbn [fst snd] in *.
  assert (∀ i n, cl !! i = Some n → epoch (membership n) ≠ 0%N → posted (epoch (membership n)) (members (membership n)) ∧
    buildView (epoch (membership n)) (members (membership n)) N0 = Ok (membership n)) as Hfrom.
  { intros i n Hi H0. by destruct (np_view n (Hn i n Hi)). }
  split; [done|split; [|split]].
  - intros s' Hs' i n Hi. by apply (gsteps_follow (cl, sent) s').
  - intros i n Hi. pose proof (np_repl n (Hn i n Hi)) as Er. split.
    + intros io peer m Hv Hf. rewrite <-Er in Hv, Hf |- *. split; [apply setMembership_conflict; auto|].
      unfold runFetch, adoptFetched. cbn [info_Epoch info_Members info_Fingerprint].
      rewrite (setMembership_conflict io n m _ Hv Hf) by auto. cbn.
      split_and!; [done|done|done|]. cbn. by rewrite lookup_insert_eq.
    + intros j n' Hj Ej Hf. by apply (HandlePing_conflict n (ping_request n')).
  - intros i j n n' Hi Hj He H0 Hone. destruct (Hfrom i n Hi H0) as [Hp Hb].
    destruct (Hfrom j n' Hj) as [Hp' Hb']; [congruence|]. rewrite <-He in Hp', Hb'.
    rewrite <-(Hone _ _ Hp Hp'), Hb in Hb'. by injection Hb'.
Qed.
End cluster.

(** ** How a membership spreads *)

Lemma adoptFrom_view n p from : same_view n (adoptFrom n p from).1.
Proof. unfold adoptFrom. by repeat case_match. Qed.

Lemma HandlePing_view n from :
  let '(n', reply, _) := HandlePing n from in
  same_view n n' ∧ reply = mkReply (node_ID n) (epoch (membership n)) (view_fingerprint (membership n)).
Proof.
  unfold HandlePing. set (n1 := set_flags _ _ _ _). pose proof (pingBack_view n1 from) as Hp.
  destruct (pingBack n1 from) as [n2 ts]. cbn [fst] in Hp. assert (same_view n n2) as Hn by by apply (same_view_trans n n1).
  destruct Hn as (E1 & E2 & E3 & E4 & E5 & E6). destruct (_ && negb (bool_decide (SenderAddress from = EmptyString))).
  - pose proof (adoptFrom_view n2 (SenderID from) (Some (SenderAddress from))) as Ha. destruct (adoptFrom _ _ _) as [n3 ts3].
    cbn [fst] in Ha. destruct Ha as (F1 & F2 & F3 & F4 & F5 & F6). split; [unfold same_view; intuition congruence|congruence].
  - destruct (_ && negb _); (split; [done|cbn; congruence]).
Qed.

(** Pings change no view and no file: only [setMembership] does. *)
Lemma pingPeer_view env n v p :
  (∀ m, same_view m (pe_meanwhile env m)) → same_view n (pingPeer env n v p).1.
Proof.
  intros Hmw. unfold pingPeer. destruct (clientFor _ _ _ _) as [c [cl|err]].
  2: { destruct (pe_ended env); [done|]. apply (same_view_trans n (set_cs n c)); [done|apply recordHeartbeat_view]. }
  pose proof (Hmw (set_cs n c)) as Hn. set (n1 := pe_meanwhile env (set_cs n c)) in *.
  assert (same_view n n1) as Hn1 by done. clear Hn. destruct (pe_ended env); [done|].
  destruct (pe_reply env) as [reply|]; [|by eapply same_view_trans, recordHeartbeat_view].
  unfold ping_answered. case_match; [by eapply same_view_trans, recordHeartbeat_view|].
  pose proof (recordHeartbeat_view n1 p true) as H1. pose proof (recordPeerEpoch_view (recordHeartbeat n1 p true) p (reply_Epoch reply)) as H2.
  pose proof (same_view_trans _ _ _ (same_view_trans _ _ _ Hn1 H1) H2) as H3. set (n2 := recordPeerEpoch _ _ _) in *.
  case_match; [eapply same_view_trans; [done|apply adoptFrom_view]|]. by case_match.
Qed.

Section spread.
Context `{!Unicode} `{!JsonCodec membershipFile}.

(** A ping brings a newer membership over.  A node pings a member that
    holds a later epoch, and the call succeeds.  Then it fetches that member's
    membership, and if the disk takes it, the node's view afterwards is the
    member's, whose own view the ping has not changed. *)
Theorem ping_spreads_membership io env n np :
  is_Some (members (membership n) !! node_ID np) →
  match (clientFor (cs n) (membership n) (node_ID np) (pe_dial env)).2 with Ok _ => True | Err _ => False end →
  pe_ended env = false → (∀ m, pe_meanwhile env m = m) →
  pe_reply env = Some (HandlePing np (ping_request n)).1.2 →
  (epoch (membership n) < epoch (membership np))%N →
  validateMembers (members (membership np)) (repl n) = None →
  buildView (epoch (membership np)) (members (membership np)) (repl n) = Ok (membership np) →
  adopting n = false → bgStopped n = false →
  (writeMembership io (membership_file n) (membership np)).2 = None →
  let np' := (HandlePing np (ping_request n)).1.1 in
  let '(n1, tasks) := pingPeer env n (membership n) (node_ID np) in
  membership np' = membership np ∧ tasks = [Fetch (node_ID np) None] ∧
  let n2 := (runFetch io n1 (node_ID np) (Some (CurrentMembership np'))).1 in
  membership n2 = membership np ∧ adopting n2 = false ∧ membership_file n2 = (writeMembership io (membership_file n) (membership np)).1.
Proof.
  intros Hmem Hcl Hend Hmw Hrep He Hval Hb Had Hbg Hw. pose proof (HandlePing_view np (ping_request n)) as Hh.
  destruct (HandlePing np (ping_request n)) as [[np' reply] ts] eqn:Eh. cbn [fst snd] in *. destruct Hh as [(E1 & _ & _ & E4 & _) Hreply].
  unfold pingPeer. destruct (clientFor _ _ _ _) as [c [cl|]]; [|done]. rewrite Hmw, Hend, Hrep. unfold ping_answered. rewrite Hreply.
  cbn [reply_NodeID reply_Epoch reply_Fingerprint]. rewrite bool_decide_true by done. cbn [negb].
  set (n0 := set_cs n c). pose proof (recordHeartbeat_view n0 (node_ID np) true) as H1.
  pose proof (recordPeerEpoch_view (recordHeartbeat n0 (node_ID np) true) (node_ID np) (epoch (membership np))) as H2.
  pose proof (recordPeerEpoch_adopting (recordHeartbeat n0 (node_ID np) true) (node_ID np) (epoch (membership np))) as A2.
  pose proof (recordHeartbeat_adopting n0 (node_ID np) true) as A1.
  pose proof (same_view_trans _ _ _ H1 H2) as Hv. set (n1 := recordPeerEpoch _ _ _) in *. destruct Hv as (V1 & V2 & V3 & V4 & V5 & V6).
  rewrite V1. change (membership n0) with (membership n) in *. rewrite (proj2 (N.ltb_lt _ _) He). unfold adoptFrom.
  rewrite A2, A1, V5. change (adopting n0) with (adopting n). change (bgStopped n0) with (bgStopped n). rewrite Had, Hbg.
  split_and!; [done|done|..]. all: unfold runFetch, adoptFetched, CurrentMembership; cbn [info_Epoch info_Members info_Fingerprint]; rewrite E1.
  all: unfold setMembership; cbn [set_flags repl membership membership_file]; rewrite V3, V1, V2.
  all: change (repl n0) with (repl n); change (membership n0) with (membership n); change (membership_file n0) with (membership_file n).
  all: rewrite Hval, Hb, (bool_decide_true (view_fingerprint (membership np) = view_fingerprint (membership np))) by done; cbn [negb]; rewrite andb_false_r.
  all: rewrite (proj2 (N.ltb_ge _ _)), (proj2 (N.eqb_neq _ _)) by lia.
  all: destruct (writeMembership io (membership_file n) (membership np)) as [f err]; cbn [fst snd] in Hw |- *; rewrite Hw.
  all: match goal with |- context [publish ?a ?b] => pose proof (publish_effect a b) as Hp; destruct (publish a b) as [n3 run3] end.
  all: destruct Hp as (P1 & P2 & _).
  all: cbn [fst set_flags membership adopting membership_file set_view] in *; done.
Qed.
End spread.

(** ** The theorems at concrete nodes *)

Section witnesses.
#[local] Existing Instance ascii_print.
#[local] Existing Instance toy_mf_json.
#[local] Existing Instance toy_hf_json.
#[local] Instance toy_mf_rt' : JsonRoundTrip membershipFile mf_ok := countable_codec_roundtrip membershipFile mf_ok.
#[local] Instance toy_hf_rt' : JsonRoundTrip handoffFile hf_ok := countable_codec_roundtrip handoffFile hf_ok.

Definition w_view (e : N) : view := mkView e "fp" w_members (NewHashRing 0).
Definition w_peer : node := newNode "kv-0" "host0:7000" 2 3 (w_view 1) (w_view 1) no_file no_file.

(** Three failures in a row, and an answer after them. *)
Definition w_pings : list (string * bool) := [("kv-1", false); ("kv-1", false); ("kv-9", false); ("kv-1", false)].

Lemma heartbeat_verdict_witness :
  isDead (record_all w_peer w_pings) "kv-1" = true ∧ isDead (record_all w_peer (w_pings ++ [("kv-1", true)])) "kv-1" = false ∧
  isDead (record_all w_peer w_pings) "kv-9" = false.
Proof.
  pose proof (heartbeat_verdict w_peer w_pings eq_refl) as (_ & H1 & H2).
  pose proof (heartbeat_verdict w_peer (w_pings ++ [("kv-1", true)]) eq_refl) as (_ & H3 & _).
  cbv zeta in *. split; [|split].
  - destruct (PeerStatuses (record_all w_peer w_pings) !! "kv-1") as [st|] eqn:E; [|vm_compute in E; discriminate E].
    destruct (H1 "kv-1" st E) as (Ha & _ & ->). rewrite (proj2 Ha); [reflexivity|]. vm_compute. discriminate.
  - destruct (PeerStatuses (record_all w_peer (w_pings ++ [("kv-1", true)])) !! "kv-1") as [st|] eqn:E; [|vm_compute in E; discriminate E].
    destruct (H3 "kv-1" st E) as (Ha & _ & ->). destruct (Alive st); [reflexivity|]. exfalso.
    pose proof (proj1 Ha eq_refl) as Hle. vm_compute in Hle. by apply Hle.
  - apply H2. apply (bool_decide_unpack _). vm_compute. exact I.
Defined.

(** One membership posted, at epoch 1. *)
Definition w_posts (e : N) (m : gmap string string) : Prop := e = 1%N ∧ m = w_grown.

Lemma w_posts_text e m : w_posts e m → members_text_ok m.
Proof. intros [_ ->]. apply w_text_ok. Qed.

Lemma w_boot1 : ∃ n0, boot "kv-1" "host1:7000" 2 3 w_members false false no_file no_file = Ok n0.
Proof.
  unfold boot, initialView.
  destruct (buildView_valid 0 (<["kv-1" := "host1:7000"]> w_members) 2) as [v ->]; [|by eexists].
  vm_cast_no_check (eq_refl (@None invalid)).
Qed.

Lemma w_declared id address n0 v :
  boot id address 2 3 w_members false false no_file no_file = Ok n0 → buildView 1 w_grown 2 = Ok v →
  ∃ n1, nstep w_posts [] n0 n1 ∧ membership n1 = v.
Proof.
  intros Hb Hv. destruct (boot_Ok _ _ _ _ _ _ _ _ Hb) as (v0 & Hi & Ef & _ & Hn0 & Em & _). cbn in Em. subst v0.
  apply buildView_Ok in Hi as (He & _). destruct (SetMembership disk_fine n0 1 w_grown) as [[n1 r] run] eqn:Hs. exists n1.
  split; [exact (n_declare w_posts [] disk_fine n0 1 w_grown n1 r run eq_refl (conj eq_refl eq_refl) Hs)|].
  unfold SetMembership, setMembership in Hs. rewrite Hn0, w_grown_valid, Hv, He in Hs.
  change (bool_decide (EmptyString = EmptyString)) with true in Hs. cbn [negb andb N.ltb N.eqb N.compare] in Hs.
  unfold writeMembership in Hs. cbn [json_marshal toy_mf_json countable_codec] in Hs.
  unfold WriteFileAtomic, SyncDir in Hs. cbn in Hs.
  match type of Hs with context [publish ?a ?b] => pose proof (publish_effect a b) as Hp; destruct (publish a b) as [n3 run3] end.
  destruct Hp as [Hp _]. injection Hs as <- _ _. exact Hp.
Qed.

(** Two nodes that were both given it hold the same view. *)
Lemma views_posted_and_kept_witness :
  ∃ n n', greachable w_posts 2 ({["kv-0" := n; "kv-1" := n']}, []) ∧
    epoch (membership n) = 1%N ∧ epoch (membership n') = 1%N ∧ membership n = membership n'.
Proof.
  destruct w_boot as (n0 & Hb & _). destruct w_boot1 as [n1 Hb1]. destruct (buildView_valid 1 w_grown 2 w_grown_valid) as [v Hv].
  destruct (w_declared _ _ _ _ Hb Hv) as (m0 & Hm0 & E0). destruct (w_declared _ _ _ _ Hb1 Hv) as (m1 & Hm1 & E1).
  assert (greachable w_posts 2 ({["kv-0" := m0; "kv-1" := m1]}, [])) as Hr.
  { assert (greachable w_posts 2 ({["kv-0" := n0; "kv-1" := n1]}, [])) as H0.
    { constructor. intros i n Hl. apply lookup_insert_Some in Hl as [[_ <-]|[_ Hl]]; [by eexists _, _, _, _|].
      apply lookup_singleton_Some in Hl as [_ <-]. by eexists _, _, _, _. }
    pose proof (gr_step w_posts 2 _ _ H0 (g_node w_posts _ [] "kv-0" n0 m0 (lookup_insert_eq _ _ _) Hm0)) as H1.
    rewrite insert_insert_eq in H1.
    assert (({["kv-0" := m0; "kv-1" := n1]} : gmap string node) !! "kv-1" = Some n1) as Hl by reflexivity.
    pose proof (gr_step w_posts 2 _ _ H1 (g_node w_posts _ [] "kv-1" n1 m1 Hl Hm1)) as H2.
    rewrite insert_insert_ne, insert_singleton_eq in H2 by discriminate. exact H2. }
  exists m0, m1. apply buildView_Ok in Hv as (Hev & _).
  split; [exact Hr|]. split; [rewrite E0; exact Hev|]. split; [rewrite E1; exact Hev|].
  destruct (views_posted_and_kept w_posts 2 w_posts_text _ [] Hr) as (_ & _ & _ & Hone).
  apply (Hone "kv-0" "kv-1" m0 m1); [reflexivity|reflexivity|rewrite E0, E1; reflexivity|rewrite E0, Hev; discriminate|].
  intros m m' [_ ->] [_ ->]. reflexivity.
Defined.

(** A node at epoch 0 pings one that was given epoch 1. *)
Definition w_env (reply : PingReply) : ping_env := mkPingEnv (Some 7%N) false (Some reply) (λ m, m).

Lemma ping_spreads_membership_witness :
  ∃ n np, epoch (membership n) = 0%N ∧ epoch (membership np) = 1%N ∧
    let '(n1, tasks) := pingPeer (w_env (HandlePing np (ping_request n)).1.2) n (membership n) (node_ID np) in
    tasks = [Fetch (node_ID np) None] ∧
    membership (runFetch disk_fine n1 (node_ID np) (Some (CurrentMembership (HandlePing np (ping_request n)).1.1))).1 = membership np.
Proof.
  destruct w_boot as (n0 & Hb & Hr0). destruct w_boot1 as [n1 Hb1]. destruct (buildView_valid 1 w_grown 2 w_grown_valid) as [v Hv].
  pose proof (buildView_Ok _ _ _ _ Hv) as (Hev & Hmv & _).
  destruct (boot_Ok _ _ _ _ _ _ _ _ Hb) as (v0 & Hi & Ef & _ & _ & Em & _). cbn in Em. subst v0.
  apply buildView_Ok in Hi as (He & Hm & _).
  exists n0, (newNode "kv-1" "host1:7000" 2 3 v v no_file no_file). split; [exact He|]. split; [exact Hev|].
  set (np := newNode _ _ _ _ _ _ _ _).
  assert (cs n0 = mkCS ∅ [] false ∧ adopting n0 = false ∧ bgStopped n0 = false) as (Hcs & Had & Hbg).
  { unfold boot, loadMembership, loadHandoff in Hb. destruct (initialView _ _ _ _); [|discriminate Hb].
    injection Hb as <-. repeat split. }
  pose proof (ping_spreads_membership disk_fine (w_env (HandlePing np (ping_request n0)).1.2) n0 np) as Hs.
  change (node_ID np) with "kv-1"%string in *. change (membership np) with v in Hs. rewrite Hm, Hcs, Hr0, Ef, Hmv, Hev, He in Hs.
  specialize (Hs ltac:(by eexists)). unfold clientFor in Hs. rewrite Hm in Hs. specialize (Hs I eq_refl (λ m, eq_refl) eq_refl eq_refl w_grown_valid Hv Had Hbg eq_refl).
  destruct (pingPeer _ _ _ _) as [n2 ts]. cbv zeta in Hs. destruct Hs as (_ & Ht & Hv2 & _). split; [exact Ht|exact Hv2].
Defined.
End witnesses.
