(* ===== verification/Handoff.v ===== *)
(** * Handoff (internal/node/handoff.go)

    Moving keys to the owners a new view gives them: which nodes a key must be
    pushed to, a push with its retries and the hint that can stand in for it,
    the run over all local keys, with other work at the nodes between them, and
    the record of a completed handoff. *)

From stdpp Require Import gmap strings list.
From Stdlib Require Import ZArith Lia.
From S2P Require Import Prelude GoLib VectorClock Versioning Json HashRing Datastore Hints Coordinate Merkle AntiEntropy Sha256 Quote Fsutil Membership Heartbeat.

Open Scope nat_scope.

(** ** Targets *)

Definition handoffTargets (self : string) (n : nat) (base newest : view) (key : string) : list string :=
  let newOwners := GetPreferenceList (view_ring newest) key n in
  let stays := bool_decide (self ∈ newOwners) in
  let oldOwners := if stays then GetPreferenceList (view_ring base) key n else [] in
  bfilter (λ id, negb (bool_decide (id = self)) && negb (bool_decide (id ∈ oldOwners))) newOwners.

(** Each new owner but this node is a target, unless it has its copy: it was
    an owner before, and this node stays one. *)
Lemma handoffTargets_spec self n base newest key id :
  id ∈ handoffTargets self n base newest key ↔
  id ∈ GetPreferenceList (view_ring newest) key n ∧ id ≠ self ∧
  ¬ (self ∈ GetPreferenceList (view_ring newest) key n ∧ id ∈ GetPreferenceList (view_ring base) key n).
Proof.
  unfold handoffTargets. rewrite elem_of_bfilter, andb_true_iff, !negb_true_iff, !bool_decide_eq_false.
  case_bool_decide; set_solver.
Qed.

(** ** The run's state *)

(** [updateHandoff]: a run that was superseded counts nothing. *)
Definition set_status (h : handoff_state) (s : HandoffStatus) : handoff_state :=
  mkHO (handoffBase h) (handoffTarget h) (handoffRunning h) (handoffGen h) s (handoffsCompleted h) (handoff_file h).
Definition updateHandoff (n : node) (gen : N) (update : HandoffStatus → HandoffStatus) : node :=
  if (gen =? handoffGen (ho n))%N then set_ho n (set_status (ho n) (update (handoffStatus (ho n)))) else n.

Definition one_pushed (s : HandoffStatus) : HandoffStatus := mkStatus (hs_Epoch s) (Done s) (Pushed s + 1) (Hinted s) (Pending s).
Definition one_hinted (s : HandoffStatus) : HandoffStatus := mkStatus (hs_Epoch s) (Done s) (Pushed s) (Hinted s + 1) (Pending s).
Definition set_pending (p : Z) (s : HandoffStatus) : HandoffStatus := mkStatus (hs_Epoch s) (Done s) (Pushed s) (Hinted s) p.
Definition one_less (s : HandoffStatus) : HandoffStatus := set_pending (Pending s - 1) s.

Section handoff.
Context {P IO E : Type} `{!Persister P IO E} (halted : E → bool).
Context {H IOH EH : Type} `{!Persister H IOH EH}.

(** The node, its data and its hints, and the data of the nodes it can push to. *)
Record hstate := mkH { hnode : node; own : DataStore P; hintstore : Hints.Store H; stores : gmap string (DataStore P) }.

Definition set_hnode (st : hstate) (n : node) : hstate := mkH n (own st) (hintstore st) (stores st).
Definition set_hints (st : hstate) (h : Hints.Store H) : hstate := mkH (hnode st) (own st) h (stores st).
Definition set_peer (st : hstate) (t : string) (ds : DataStore P) : hstate :=
  mkH (hnode st) (own st) (hintstore st) (<[t := ds]> (stores st)).

(** [addHints] *)
Fixpoint addHints (io : N → IOH) (i : N) (h : Hints.Store H) (target key : string) (siblings : list itemptr)
    : Hints.Store H * option (hint_error EH) :=
  match siblings with
  | [] => (h, None)
  | item :: rest =>
      match Hints.Add (io i) h target key item with
      | (h, Some err) => (h, Some err)
      | (h, None) => addHints io (i + 1) h target key rest
      end
  end.

(** What one attempt of a push meets: the dial, a loss of the call or of its
    answer, the target's disk, the hint store's disk, whether the context has
    ended, and whether the wait for the next attempt is a full one. *)
Record attempt := mkAttempt {
  at_dial : option N; at_lost : bool; at_reply_lost : bool; at_io : N → IO; at_hint_io : N → IOH;
  at_ended : bool; at_slept : bool
}.

Inductive push_result := Delivered | Ended | Retry.

(** The body of [handoffPush]'s loop once [pushOnce] has failed. *)
Definition push_failed (a : attempt) (st : hstate) (gen : N) (staysInView : bool) (key : string)
    (siblings : list itemptr) (target : string) : hstate * push_result :=
  if at_ended a then (st, Ended)
  else
    let next := if at_slept a then Retry else Ended in
    if staysInView then
      match addHints (at_hint_io a) 0 (hintstore st) target key siblings with
      | (h, None) => (set_hnode (set_hints st h) (updateHandoff (hnode st) gen one_hinted), Delivered)
      | (h, Some _) => (set_hints st h, next)
      end
    else (st, next).

(** [pushOnce]: whether the push succeeded. *)
Definition pushOnce (a : attempt) (st : hstate) (newest : view) (target key : string) (siblings : list itemptr)
    : hstate * bool :=
  if isDead (hnode st) target then (st, false)
  else
    let '(c, client) := clientFor (cs (hnode st)) newest target (at_dial a) in
    let st := set_hnode st (set_cs (hnode st) c) in
    match client, stores st !! target with
    | Ok _, Some ds =>
        if at_lost a then (st, false)
        else
          let '(ds, err) := Replicate halted (at_io a) ds key (Some <$> siblings) in
          (set_peer st target ds, match err with None => negb (at_reply_lost a) | Some _ => false end)
    | _, _ => (st, false)
    end.

(** One round of [handoffPush]'s loop. *)
Definition push_attempt (a : attempt) (st : hstate) (gen : N) (newest : view) (key : string) (siblings : list itemptr)
    (target : string) : hstate * push_result :=
  let staysInView := bool_decide (is_Some (members newest !! node_ID (hnode st))) in
  match pushOnce a st newest target key siblings with
  | (st, true) => (set_hnode st (updateHandoff (hnode st) gen one_pushed), Delivered)
  | (st, false) => push_failed a st gen staysInView key siblings target
  end.

(** [handoffPush]; [None] while it is still retrying after these attempts. *)
Fixpoint handoffPush (attempts : list attempt) (st : hstate) (gen : N) (newest : view) (key : string)
    (siblings : list itemptr) (target : string) : option (hstate * bool) :=
  match attempts with
  | [] => None
  | a :: rest =>
      match push_attempt a st gen newest key siblings target with
      | (st, Delivered) => Some (st, true)
      | (st, Ended) => Some (st, false)
      | (st, Retry) => handoffPush rest st gen newest key siblings target
      end
  end.

(** The pushes of a key run in parallel; each has its own target's store and
    its own keys of the hint store.  Whether all were delivered. *)
Fixpoint push_all (ev : string → list attempt) (st : hstate) (gen : N) (newest : view) (key : string)
    (siblings : list itemptr) (targets : list string) : option (hstate * bool) :=
  match targets with
  | [] => Some (st, true)
  | t :: rest =>
      '(st, ok) ← handoffPush (ev t) st gen newest key siblings t;
      '(st, ok') ← push_all ev st gen newest key siblings rest;
      Some (st, ok && ok')
  end.

(** What a run meets at a key: reads that fail at first, each with the wait
    that follows; the attempts at each target; whether the context has ended
    before the key or during its pushes; and what else happens meanwhile, to the
    node, to its data and hints, and to the other nodes' data. *)
Record key_env := mkKeyEnv {
  ke_read_fails : list bool; ke_attempts : string → list attempt; ke_ended : bool; ke_ended_after : bool;
  ke_meanwhile : hstate → hstate
}.

(** [handoffKey]: false only if the context ended first. *)
Definition handoffKey (a : N) (env : key_env) (st : hstate) (gen : N) (newest : view) (key : string) (targets : list string)
    : option (hstate * bool) :=
  if negb (forallb (λ slept, slept) (ke_read_fails env)) then Some (st, false)
  else
    match Datastore.Get a (own st) key with
    | Err _ => None
    | Ok (_, false) => Some (st, true)
    | Ok (siblings, true) =>
        '(st, ok) ← push_all (ke_attempts env) st gen newest key siblings targets;
        Some (st, ok && negb (ke_ended_after env))
    end.

(** [runHandoff]'s loop over its plan *)
Fixpoint plan_loop (a : N) (env : string → key_env) (st : hstate) (gen : N) (newest : view)
    (plan : list (string * list string)) : option (hstate * bool) :=
  match plan with
  | [] => Some (st, true)
  | (key, targets) :: rest =>
      let st := ke_meanwhile (env key) st in
      if ke_ended (env key) then Some (st, false)
      else
        match handoffKey a (env key) st gen newest key targets with
        | Some (st, true) => plan_loop a env (set_hnode st (updateHandoff (hnode st) gen one_less)) gen newest rest
        | stopped => stopped
        end
  end.

(** Keys with their targets, where they have any. *)
Definition handoff_plan (self : string) (n : nat) (base newest : view) (keys : list string) : list (string * list string) :=
  bfilter (λ p, match p.2 with [] => false | _ => true end) ((λ k, (k, handoffTargets self n base newest k)) <$> keys).

Context `{!Unicode} `{!JsonCodec handoffFile}.

(** [finishHandoff]; the anti-entropy round it asks for is not part of the state. *)
Definition finishHandoff (io : atomic_io) (n : node) (gen : N) (newest : view) : node :=
  let h := ho n in
  if negb (gen =? handoffGen h)%N then n
  else
    let '(f, _) := writeHandoff io (handoff_file h) newest in
    let s := handoffStatus h in
    set_ho n (mkHO newest (handoffTarget h) false (handoffGen h) (mkStatus (hs_Epoch s) true (Pushed s) (Hinted s) 0)
                (u64 (handoffsCompleted h + 1)) f).

(** [runHandoff]: whether the run got to its end. *)
Definition runHandoff (a : N) (list_fails : list bool) (env : string → key_env) (io : atomic_io) (st : hstate)
    (run : handoff_run) : option (hstate * bool) :=
  let '(mkRun gen base newest) := run in
  if negb (forallb (λ slept, slept) list_fails) then Some (st, false)
  else
    match Datastore.Keys (own st) with
    | Err _ => None
    | Ok keys =>
        let plan := handoff_plan (node_ID (hnode st)) (repl (hnode st)) base newest keys in
        let st := set_hnode st (updateHandoff (hnode st) gen (set_pending (Z.of_nat (length plan)))) in
        match plan_loop a env st gen newest plan with
        | Some (st, true) => Some (set_hnode st (finishHandoff io (hnode st) gen newest), true)
        | stopped => stopped
        end
    end.
End handoff.

Arguments hstate P H : clear implicits.
Arguments attempt IO IOH : clear implicits.
Arguments key_env P IO H IOH : clear implicits.

(** ** What a run does *)

Section spec.
Context {P IO E : Type} `{!Persister P IO E} `{!PersisterSpec P IO E} (halted : E → bool).
Context {H IOH EH : Type} `{!Persister H IOH EH} `{!PersisterSpec H IOH EH}.
Implicit Types (st : hstate P H) (a : attempt IO IOH) (ds : DataStore P) (key : string) (sib : list itemptr).

Definition st_ok st : Prop :=
  p_ok (persister (own st)) ∧ p_ok (engine (hintstore st)) ∧ map_Forall (λ _ ds, p_ok (persister ds)) (stores st).

(** No store loses a version that nothing else covers. *)
Record progress st st' : Prop := {
  pr_own : ∀ k c, covered c (siblings (own st) k) → covered c (siblings (own st') k);
  pr_id : node_ID (hnode st') = node_ID (hnode st);
  pr_stores : ∀ t ds, stores st !! t = Some ds →
    ∃ ds', stores st' !! t = Some ds' ∧ ∀ k c, covered c (siblings ds k) → covered c (siblings ds' k);
  pr_hints : ∀ k c, covered c (p_versions (engine (hintstore st)) k) → covered c (p_versions (engine (hintstore st')) k)
}.

Lemma progress_refl st : progress st st.
Proof. split; eauto. Qed.

Lemma progress_trans st1 st2 st3 : progress st1 st2 → progress st2 st3 → progress st1 st3.
Proof.
  intros [O1 I1 S1 H1] [O2 I2 S2 H2]. split; [auto|congruence| |auto].
  intros t ds (ds2 & E2 & M2)%S1. destruct (S2 t ds2 E2) as (ds3 & E3 & M3). eauto.
Qed.

Lemma progress_node st n : node_ID n = node_ID (hnode st) → progress st (set_hnode st n).
Proof. intros Hn. split; eauto. Qed.

Lemma updateHandoff_id n gen f : node_ID (updateHandoff n gen f) = node_ID n.
Proof. unfold updateHandoff. by destruct (_ =? _)%N. Qed.

(** The target has all of the siblings, or this node stays and holds hints for
    them. *)
Definition reached st (newest : view) key sib (target : string) : Prop :=
  (∃ ds, stores st !! target = Some ds ∧ ∀ c, covered c sib → covered c (siblings ds key)) ∨
  (is_Some (members newest !! node_ID (hnode st)) ∧
   ∀ c, covered c sib → covered c (p_versions (engine (hintstore st)) (storageKey target key))).

Lemma reached_progress st st' newest key sib target :
  progress st st' → reached st newest key sib target → reached st' newest key sib target.
Proof.
  intros [_ Hi Hs Hh] [(ds & E1 & Hc)|[Hm Hc]].
  - left. destruct (Hs _ _ E1) as (ds' & E2 & Hc'). eauto.
  - right. rewrite Hi. auto.
Qed.

(** *** Hints *)

Fixpoint hints_accept (io : N → IOH) (i : N) (h : Hints.Store H) (target key : string) sib : Prop :=
  match sib with
  | [] => True
  | item :: rest =>
      p_accepts (engine h) (storageKey target key) item ∧
      hints_accept io (i + 1) (Hints.Add (io i) h target key item).1 target key rest
  end.

Lemma Add_effect (io : IOH) (h : Hints.Store H) target key (item : itemptr) :
  p_ok (engine h) → p_accepts (engine h) (storageKey target key) item →
  let '(h', err) := Hints.Add io h target key item in
  p_ok (engine h') ∧ (∀ k c, covered c (p_versions (engine h) k) → covered c (p_versions (engine h') k)) ∧
  (err = None → covered (clock item) (p_versions (engine h') (storageKey target key))).
Proof.
  intros Hok Hacc. unfold Hints.Add.
  destruct (match target with EmptyString => true | _ => contains_sep target end); [done|]. destruct (isMarker item); [done|].
  pose proof (p_puts io (engine h) _ _ Hok Hacc) as Hp. destruct (p_Put _ _ _ _) as [p [err|]]; cbn [engine].
  - destruct Hp as [Hok' Hsame]. split_and!; [done| |done]. intros k c. by rewrite Hsame.
  - destruct Hp as (Hok' & Hother & _ & Hcov). split_and!; [done| |intros _; apply Hcov; right; reflexivity].
    intros k c. destruct (decide (k = storageKey target key)) as [->|Hne]; [rewrite Hcov; by left|by rewrite Hother].
Qed.

Lemma addHints_effect io i (h : Hints.Store H) target key sib :
  p_ok (engine h) → hints_accept io i h target key sib →
  let '(h', err) := addHints io i h target key sib in
  p_ok (engine h') ∧ (∀ k c, covered c (p_versions (engine h) k) → covered c (p_versions (engine h') k)) ∧
  (err = None → ∀ c, covered c sib → covered c (p_versions (engine h') (storageKey target key))).
Proof.
  revert i h. induction sib as [|item sib IH]; intros i h Hok Hacc; cbn [addHints].
  { split_and!; [done|done|]. intros _ c Hc. by apply covered_nil in Hc. }
  destruct Hacc as [Hi Hrest]. pose proof (Add_effect (io i) h target key item Hok Hi) as Ha.
  destruct (Hints.Add (io i) h target key item) as [h1 [err|]]; destruct Ha as (Hok1 & Hm1 & Hc1); [done|]. cbn [fst] in Hrest.
  specialize (IH (i + 1)%N h1 Hok1 Hrest). destruct (addHints io (i + 1) h1 target key sib) as [h' err]. destruct IH as (Hok' & Hm' & Hc').
  split_and!; [done|auto|]. intros Herr c (w & [->|Hw]%elem_of_cons & Hle); [|apply Hc'; [done|]; by exists w].
  destruct (Hm' _ _ (Hc1 eq_refl)) as (x & Hx & Hle'). exists x. split; [done|]. by etrans.
Qed.

(** *** Pushes *)

Definition attempt_accepts a st key sib (target : string) : Prop :=
  (∀ ds, stores st !! target = Some ds → accepts_all (at_io a) 0 ds key sib) ∧
  hints_accept (at_hint_io a) 0 (hintstore st) target key sib.

Lemma pushOnce_effect a st newest target key sib :
  st_ok st → attempt_accepts a st key sib target → sib ≠ [] →
  let '(st', ok) := pushOnce halted a st newest target key sib in
  st_ok st' ∧ progress st st' ∧ hintstore st' = hintstore st ∧
  (ok = true → ∃ ds, stores st' !! target = Some ds ∧ ∀ c, covered c sib → covered c (siblings ds key)).
Proof.
  intros (Ho & Hh & Hs) [Hacc _] Hne. unfold pushOnce. destruct (isDead (hnode st) target); [split_and!; [done|apply progress_refl|done..]|].
  destruct (clientFor _ _ _ _) as [c client]. set (st1 := set_hnode st _).
  assert (progress st st1) as Hp1 by by apply progress_node. change (stores st1) with (stores st).
  destruct client; [|by split_and!]. destruct (stores st !! target) as [ds|] eqn:Et; [|by split_and!].
  destruct (at_lost a); [by split_and!|].
  pose proof (push_effect halted (at_io a) ds key sib (Hs _ _ Et) (Hacc _ eq_refl) Hne) as Hpush.
  destruct (Replicate halted (at_io a) ds key (Some <$> sib)) as [ds' err]. destruct Hpush as [(Hok' & Hother & Hmono) Hall].
  split_and!; [| |done|].
  - split_and!; [done|done|]. cbn [stores set_peer]. by apply map_Forall_insert_2.
  - split; [done|done| |done]. intros t d Hd. cbn [stores set_peer]. destruct (decide (t = target)) as [->|Hn].
    + rewrite lookup_insert_eq. exists ds'. split; [done|]. rewrite Et in Hd. injection Hd as <-. intros k c'.
      destruct (decide (k = key)) as [->|Hk]; [apply Hmono|by rewrite Hother].
    + rewrite lookup_insert_ne by done. eauto.
  - intros Hok. cbn [stores set_peer]. rewrite lookup_insert_eq. exists ds'. split; [done|]. destruct err; [done|].
    intros c'. rewrite Hall by done. by right.
Qed.

Lemma push_attempt_effect a st gen newest key sib target :
  st_ok st → attempt_accepts a st key sib target → sib ≠ [] →
  let '(st', r) := push_attempt halted a st gen newest key sib target in
  st_ok st' ∧ progress st st' ∧ (r = Delivered → reached st' newest key sib target).
Proof.
  intros Hok Hacc Hne. unfold push_attempt. pose proof (pushOnce_effect a st newest target key sib Hok Hacc Hne) as Hp.
  destruct (pushOnce halted a st newest target key sib) as [st1 ok]. destruct Hp as (Hok1 & Hp1 & Eh & Hr).
  destruct ok.
  { split_and!; [done| |].
    - eapply progress_trans; [done|]. apply progress_node, updateHandoff_id.
    - intros _. left. by apply Hr. }
  unfold push_failed. destruct (at_ended a); [done|]. destruct Hok1 as (Ho1 & Hh1 & Hs1).
  assert (((if at_slept a then Retry else Ended) = Delivered) → False) as Hnd by (by destruct (at_slept a)).
  case_bool_decide as Hstay; [|split_and!; [done|done|intros ?; by destruct Hnd]].
  destruct Hacc as [_ Hha]. rewrite Eh. pose proof (addHints_effect (at_hint_io a) 0 (hintstore st) target key sib ltac:(apply Hok) Hha) as Ha.
  destruct (addHints _ _ _ _ _ _) as [h err]. destruct Ha as (Hok' & Hm' & Hc').
  assert (progress st (set_hints st1 h)) as Hp2.
  { destruct Hp1 as [O1 I1 S1 H1]. by split. }
  destruct err as [err|].
  - split_and!; [by split_and!|done|intros ?; by destruct Hnd].
  - split_and!; [by split_and!| |].
    + eapply progress_trans; [done|]. apply (progress_node (set_hints st1 h)), updateHandoff_id.
    + intros _. right. cbn [hnode set_hnode set_hints hintstore]. rewrite updateHandoff_id, (pr_id _ _ Hp1). split; [done|by apply Hc'].
Qed.

(** *** The run *)

Fixpoint attempts_accept (attempts : list (attempt IO IOH)) st (gen : N) (newest : view) key sib (target : string) : Prop :=
  match attempts with
  | [] => True
  | a :: rest =>
      attempt_accepts a st key sib target ∧
      attempts_accept rest (push_attempt halted a st gen newest key sib target).1 gen newest key sib target
  end.

Fixpoint targets_accept (ev : string → list (attempt IO IOH)) st (gen : N) (newest : view) key sib (targets : list string) : Prop :=
  match targets with
  | [] => True
  | t :: rest =>
      attempts_accept (ev t) st gen newest key sib t ∧
      ∀ st' ok, handoffPush halted (ev t) st gen newest key sib t = Some (st', ok) → targets_accept ev st' gen newest key sib rest
  end.

(** Every write of the run is of an item that its store can take. *)
Fixpoint plan_accepts (a : N) (env : string → key_env P IO H IOH) st (gen : N) (newest : view) (plan : list (string * list string)) : Prop :=
  match plan with
  | [] => True
  | (key, targets) :: rest =>
      let st := ke_meanwhile (env key) st in
      (∀ sib, Datastore.Get a (own st) key = Ok (sib, true) → targets_accept (ke_attempts (env key)) st gen newest key sib targets) ∧
      ∀ st', handoffKey halted a (env key) st gen newest key targets = Some (st', true) →
        plan_accepts a env (set_hnode st' (updateHandoff (hnode st') gen one_less)) gen newest rest
  end.

Lemma handoffPush_effect attempts st gen newest key sib target st' ok :
  st_ok st → attempts_accept attempts st gen newest key sib target → sib ≠ [] →
  handoffPush halted attempts st gen newest key sib target = Some (st', ok) →
  st_ok st' ∧ progress st st' ∧ (ok = true → reached st' newest key sib target).
Proof.
  revert st. induction attempts as [|a attempts IH]; intros st Hok Hacc Hne; cbn [handoffPush]; [done|].
  destruct Hacc as [Ha Hrest]. pose proof (push_attempt_effect a st gen newest key sib target Hok Ha Hne) as Hp.
  destruct (push_attempt halted a st gen newest key sib target) as [st1 r]. destruct Hp as (Hok1 & Hp1 & Hr1). cbn [fst] in Hrest.
  destruct r; [intros [= <- <-]; by auto|by intros [= <- <-]|]. intros Hrun.
  destruct (IH st1 Hok1 Hrest Hne Hrun) as (? & ? & ?). split_and!; [done|by eapply progress_trans|done].
Qed.

Lemma push_all_effect ev st gen newest key sib targets st' ok :
  st_ok st → targets_accept ev st gen newest key sib targets → sib ≠ [] →
  push_all halted ev st gen newest key sib targets = Some (st', ok) →
  st_ok st' ∧ progress st st' ∧ (ok = true → ∀ t, t ∈ targets → reached st' newest key sib t).
Proof.
  revert st ok. induction targets as [|t targets IH]; intros st ok Hok Hacc Hne; cbn [push_all].
  { intros [= <- <-]. split_and!; [done|apply progress_refl|set_solver]. }
  destruct Hacc as [Ha Hrest]. destruct (handoffPush halted (ev t) st gen newest key sib t) as [[st1 ok1]|] eqn:E1; [|done].
  destruct (handoffPush_effect _ _ _ _ _ _ _ _ _ Hok Ha Hne E1) as (Hok1 & Hp1 & Hr1). cbn [mbind option_bind].
  destruct (push_all halted ev st1 gen newest key sib targets) as [[st2 ok2]|] eqn:E2; [|done]. cbn. intros [= <- <-].
  destruct (IH st1 ok2 Hok1 (Hrest _ _ eq_refl) Hne E2) as (Hok2 & Hp2 & Hr2).
  split_and!; [done|by eapply progress_trans|]. intros [H1 H2]%andb_prop t' [->|Ht]%elem_of_cons; [|by apply Hr2].
  eapply reached_progress; [done|]. by apply Hr1.
Qed.

(** What was to be moved is there: all of the versions of the key in [st] are
    at the target, or this node stays a member and each of them has a hint for
    the target pending, or the marker of a delivery to it covers it. *)
Definition moved st (st' : hstate P H) newest key target : Prop :=
  (∃ ds, stores st' !! target = Some ds ∧ ∀ c, covered c (siblings (own st) key) → covered c (siblings ds key)) ∨
  (is_Some (members newest !! node_ID (hnode st')) ∧
   ∀ c, covered c (siblings (own st) key) →
     covered c (awaiting (hintstore st') target key) ∨
     ∃ m, m ∈ held_for (hintstore st') target key ∧ is_mark m = true ∧ c ⊑c clock m).

Lemma pending_or_marked (h : Hints.Store H) target key (c : gmap string N) :
  covered c (held_for h target key) ↔
  covered c (awaiting h target key) ∨ ∃ m, m ∈ held_for h target key ∧ is_mark m = true ∧ c ⊑c clock m.
Proof.
  split.
  - intros (x & Hx & Hle). destruct (is_mark x) eqn:Hm; [right; by exists x|left]. exists x. split; [by apply elem_unmarked|done].
  - intros [(x & [_ Hx]%elem_unmarked & Hle)|(m & Hm & _ & Hle)]; [by exists x|by exists m].
Qed.

Lemma reached_siblings st (st' : hstate P H) newest key sib target :
  deref <$> sib = siblings (own st) key → reached st' newest key sib target → moved st st' newest key target.
Proof.
  intros Hs. assert (∀ c, covered c (siblings (own st) key) → covered c sib) as Hc.
  { intros c. rewrite <-Hs. apply (covered_map deref clock_deref). }
  intros [(ds & E1 & Hr)|[Hm Hr]]; [left|right]; [eauto|]. split; [done|]. intros c ?%Hc%Hr. by apply pending_or_marked.
Qed.

Lemma moved_progress st st1 st2 st3 newest key target :
  progress st st1 → progress st2 st3 → moved st1 st2 newest key target → moved st st3 newest key target.
Proof.
  intros [Ho _ _ _] [_ Hi Hs Hh] [(ds & E1 & Hc)|[Hm Hc]].
  - left. destruct (Hs _ _ E1) as (ds' & E2 & Hc'). exists ds'. split; [done|]. intros c ?%Ho%Hc. by apply Hc'.
  - right. rewrite Hi. split; [done|]. intros c ?%Ho%Hc%pending_or_marked%Hh. by apply pending_or_marked.
Qed.

Lemma handoffKey_effect (a : N) env st gen newest key targets st' ok :
  st_ok st → (∀ sib, Datastore.Get a (own st) key = Ok (sib, true) → targets_accept (ke_attempts env) st gen newest key sib targets) →
  handoffKey halted a env st gen newest key targets = Some (st', ok) →
  st_ok st' ∧ progress st st' ∧ (ok = true → siblings (own st) key ≠ [] → ∀ t, t ∈ targets → moved st st' newest key t).
Proof.
  intros Hok Hacc. unfold handoffKey. destruct (negb _); [intros [= <- <-]; split_and!; [done|apply progress_refl|done]|].
  pose proof (load_siblings a (own st) key (proj1 Hok)) as Hl. unfold Datastore.Get in *.
  destruct (load a (own st) key) as [[sib found]|]; [|done]. destruct Hl as [Hs Hf]. destruct found.
  2: { intros [= <- <-]. split_and!; [done|apply progress_refl|]. intros _ Hne. discriminate (proj2 Hf Hne). }
  destruct (push_all _ _ _ _ _ _ _ _) as [[st1 ok1]|] eqn:E1; [|done]. cbn. intros [= <- <-].
  assert (sib ≠ []) as Hne by (intros ->; by apply (proj1 Hf)).
  destruct (push_all_effect _ _ _ _ _ _ _ _ _ Hok (Hacc sib eq_refl) Hne E1) as (Hok1 & Hp1 & Hr1).
  split_and!; [done|done|]. intros [H1 _]%andb_prop _ t Ht. by eapply reached_siblings, Hr1.
Qed.

(** What goes on meanwhile takes no version away. *)
Definition meanwhile_fine (env : string → key_env P IO H IOH) : Prop :=
  ∀ k st, st_ok st → st_ok (ke_meanwhile (env k) st) ∧ progress st (ke_meanwhile (env k) st).

Lemma siblings_kept st st' key : progress st st' → siblings (own st) key ≠ [] → siblings (own st') key ≠ [].
Proof.
  intros Hp Hne. destruct (siblings (own st) key) as [|v l] eqn:Es; [done|].
  destruct (pr_own _ _ Hp key (clock v)) as (x & Hx & _); [rewrite Es; exists v; split; [by left|reflexivity]|].
  intros Hn. rewrite Hn in Hx. by apply elem_of_nil in Hx.
Qed.

Lemma plan_loop_effect (a : N) env st gen newest plan st' ok :
  st_ok st → meanwhile_fine env → plan_accepts a env st gen newest plan →
  plan_loop halted a env st gen newest plan = Some (st', ok) →
  st_ok st' ∧ progress st st' ∧
  (ok = true → ∀ key targets t, (key, targets) ∈ plan → siblings (own st) key ≠ [] → t ∈ targets → moved st st' newest key t).
Proof.
  intros Hok Hmw. revert st Hok. induction plan as [|[key targets] plan IH]; intros st Hok Hacc; cbn [plan_loop].
  { intros [= <- <-]. split_and!; [done|apply progress_refl|set_solver]. }
  destruct Hacc as [Ha Hrest]. destruct (Hmw key st Hok) as [Hok0 Hp0]. set (st0 := ke_meanwhile (env key) st) in *. clearbody st0.
  destruct (ke_ended (env key)); [by intros [= <- <-]|].
  destruct (handoffKey halted a (env key) st0 gen newest key targets) as [[st1 ok1]|] eqn:E1; [|done].
  destruct (handoffKey_effect a (env key) st0 gen newest key targets st1 ok1 Hok0 Ha E1) as (Hok1 & Hp1 & Hr1).
  pose proof (progress_trans _ _ _ Hp0 Hp1) as Hp01. destruct ok1; [|by intros [= <- <-]]. intros Hrun.
  set (st2 := set_hnode st1 _) in *. assert (progress st1 st2) as Hp2 by apply progress_node, updateHandoff_id.
  destruct (IH st2 Hok1 (Hrest st1 eq_refl) Hrun) as (Hok' & Hp' & Hr').
  pose proof (progress_trans _ _ _ Hp2 Hp') as Hp2'. pose proof (progress_trans _ _ _ Hp01 Hp2) as Hp02.
  split_and!; [done|by eapply progress_trans|].
  intros Hok2 k ts t [[= -> ->]|Hin]%elem_of_cons Hne Ht.
  - eapply (moved_progress st st0 st1 st'); [done|done|]. apply Hr1; [done|by eapply siblings_kept|done].
  - eapply (moved_progress st st2 st' st'); [done|apply progress_refl|]. apply (Hr' Hok2 k ts t Hin); [by eapply siblings_kept|done].
Qed.

Lemma handoff_plan_elem self n base newest keys key targets :
  (key, targets) ∈ handoff_plan self n base newest keys ↔
  key ∈ keys ∧ targets = handoffTargets self n base newest key ∧ targets ≠ [].
Proof.
  unfold handoff_plan. rewrite elem_of_bfilter, list_elem_of_fmap. cbn [snd]. split.
  - intros [Hne (k & [= -> ->] & Hk)]. split_and!; [done|done|]. by destruct (handoffTargets _ _ _ _ _).
  - intros (Hk & -> & Hne). split; [by destruct (handoffTargets _ _ _ _ _)|]. by exists key.
Qed.

Section theorem.
Context `{!Unicode} `{!JsonCodec handoffFile}.

Lemma finishHandoff_id io n gen newest : node_ID (finishHandoff io n gen newest) = node_ID n.
Proof. unfold finishHandoff. destruct (negb _); [done|]. by destruct (writeHandoff _ _ _). Qed.

Lemma finishHandoff_base io n gen newest :
  let n' := finishHandoff io n gen newest in
  (handoffGen (ho n') = gen ∧ handoffBase (ho n') = newest ∧ handoffRunning (ho n') = false ∧
   Done (handoffStatus (ho n')) = true ∧ Pending (handoffStatus (ho n')) = 0%Z) ∨
  (handoffGen (ho n') ≠ gen ∧ n' = n).
Proof.
  unfold finishHandoff. destruct (N.eqb_spec gen (handoffGen (ho n))) as [->|Hne]; cbn [negb]; [left|right; by split].
  by destruct (writeHandoff _ _ _).
Qed.

(** C26: a handoff that completed has moved the data.  Let a run from [base] to
    [newest] get to its end, with pushes lost, refused and retried, dead
    targets, and hints in the place of pushes; meanwhile, before each key, any
    other work goes on at the node and at the others (writes, deliveries of
    hints, repairs) that takes no version away without a newer one.  Take a
    version the node held of a key when the run began, and a new owner of the
    key other than itself.  Unless the new owner was one under [base] already
    and this node remains an owner: the new owner holds all of the key's
    versions; or this node stays a member, and for each of them a hint for
    that owner is pending or the marker of a delivery to it covers the version
    (so that no hint for it would be pending).  No store has lost a version,
    and unless a newer run was started, [newest] is the new base. *)
Theorem handoff_delivers (a : N) (fails : list bool) (env : string → key_env P IO H IOH) (io : atomic_io) st gen base newest st' :
  st_ok st → meanwhile_fine env →
  (∀ keys, Datastore.Keys (own st) = Ok keys →
     let plan := handoff_plan (node_ID (hnode st)) (repl (hnode st)) base newest keys in
     plan_accepts a env (set_hnode st (updateHandoff (hnode st) gen (set_pending (Z.of_nat (length plan))))) gen newest plan) →
  runHandoff halted a fails env io st (mkRun gen base newest) = Some (st', true) →
  st_ok st' ∧ progress st st' ∧
  (∀ key id, siblings (own st) key ≠ [] → id ∈ GetPreferenceList (view_ring newest) key (repl (hnode st)) → id ≠ node_ID (hnode st) →
     (node_ID (hnode st) ∈ GetPreferenceList (view_ring newest) key (repl (hnode st)) ∧
      id ∈ GetPreferenceList (view_ring base) key (repl (hnode st))) ∨
     moved st st' newest key id) ∧
  (handoffGen (ho (hnode st')) = gen → handoffBase (ho (hnode st')) = newest ∧ Done (handoffStatus (ho (hnode st'))) = true).
Proof.
  intros Hok Hid Hacc. unfold runHandoff. destruct (negb _); [done|].
  pose proof (keys_elem (own st)) as Hke. destruct (Datastore.Keys (own st)) as [keys|] eqn:Ek; [|done].
  specialize (Hacc keys eq_refl). cbv zeta in Hacc. set (plan := handoff_plan _ _ _ _ _) in *.
  set (st0 := set_hnode st _) in *. assert (progress st st0) as Hp0 by apply progress_node, updateHandoff_id.
  destruct (plan_loop _ _ _ _ _ _ _) as [[st1 ok]|] eqn:E1; [|done]. destruct ok; [|done]. intros [= <-].
  destruct (plan_loop_effect a env st0 gen newest plan st1 true Hok Hid Hacc E1) as (Hok1 & Hp1 & Hr1).
  assert (progress st1 (set_hnode st1 (finishHandoff io (hnode st1) gen newest))) as Hp2 by apply progress_node, finishHandoff_id.
  pose proof (progress_trans _ _ _ Hp0 (progress_trans _ _ _ Hp1 Hp2)) as Hp. split_and!; [done|done| |].
  - intros key id Hne Hin Hns. destruct (decide (id ∈ handoffTargets (node_ID (hnode st)) (repl (hnode st)) base newest key)) as [Ht|Hn].
    + right. eapply (moved_progress st st0 st1); [done|done|]. assert ((key, handoffTargets (node_ID (hnode st)) (repl (hnode st)) base newest key) ∈ plan) as Hpl.
      { apply handoff_plan_elem. split_and!; [by apply (Hke keys key (proj1 Hok) eq_refl)|done|]. intros Hnil. rewrite Hnil in Ht. set_solver. }
      exact (Hr1 eq_refl _ _ _ Hpl Hne Ht).
    + left. rewrite handoffTargets_spec in Hn. destruct (decide (node_ID (hnode st) ∈ GetPreferenceList (view_ring newest) key (repl (hnode st)))),
        (decide (id ∈ GetPreferenceList (view_ring base) key (repl (hnode st)))); tauto.
  - cbn [hnode set_hnode]. destruct (finishHandoff_base io (hnode st1) gen newest) as [(_ & ? & _ & ? & _)|[? _]]; [done|done].
Qed.

(** *** Termination *)

(** A hint store that refuses no write, and a target it takes hints for. *)
Definition hints_up : Prop := ∀ (p : H) (io : IOH) k item, (p_Put io p k item).2 = None.
Definition hintable (target : string) : Prop := target ≠ EmptyString ∧ contains_sep target = false.

Lemma addHints_up io i (h : Hints.Store H) target key sib :
  hints_up → hintable target → Forall (λ x, isMarker x = false) sib → (addHints io i h target key sib).2 = None.
Proof.
  intros Hup [Ht Hs] Hm. revert i h. induction Hm as [|item sib Hi _ IH]; intros i h; cbn [addHints]; [done|].
  unfold Hints.Add. destruct target as [|ch target]; [done|]. rewrite Hs, Hi.
  pose proof (Hup (engine h) (io i) (storageKey (String ch target) key) item) as Hp.
  destruct (p_Put _ _ _ _) as [p err]. cbn [snd] in Hp. rewrite Hp. apply IH.
Qed.

Lemma pushOnce_keeps a st newest target key sib :
  own (pushOnce halted a st newest target key sib).1 = own st ∧
  node_ID (hnode (pushOnce halted a st newest target key sib).1) = node_ID (hnode st) ∧
  ho (hnode (pushOnce halted a st newest target key sib).1) = ho (hnode st).
Proof.
  unfold pushOnce. destruct (isDead _ _); [done|]. destruct (clientFor _ _ _ _) as [c [cl|]]; [|done].
  destruct (stores _ !! target); [|done]. destruct (at_lost a); [done|]. by destruct (Replicate _ _ _ _ _).
Qed.

Lemma updateHandoff_gen n gen f : handoffGen (ho (updateHandoff n gen f)) = handoffGen (ho n).
Proof. unfold updateHandoff. by destruct (_ =? _)%N. Qed.

(** The same local data, node and run. *)
Definition same_run st st' : Prop :=
  own st' = own st ∧ node_ID (hnode st') = node_ID (hnode st) ∧ handoffGen (ho (hnode st')) = handoffGen (ho (hnode st)).

Lemma same_run_trans st1 st2 st3 : same_run st1 st2 → same_run st2 st3 → same_run st1 st3.
Proof. unfold same_run. intuition congruence. Qed.

(** A node that stays a member is done with a target after one attempt. *)
Lemma push_attempt_up a st gen newest key sib target :
  hints_up → hintable target → Forall (λ x, isMarker x = false) sib →
  is_Some (members newest !! node_ID (hnode st)) → at_ended a = false →
  ∃ st', push_attempt halted a st gen newest key sib target = (st', Delivered) ∧ same_run st st'.
Proof.
  intros Hup Ht Hm Hstay He. unfold push_attempt. rewrite (bool_decide_true _ Hstay).
  destruct (pushOnce_keeps a st newest target key sib) as (K1 & K2 & K3).
  destruct (pushOnce halted a st newest target key sib) as [st1 ok]. cbn [fst] in *. destruct ok.
  { eexists. split; [done|]. unfold same_run. cbn [hnode set_hnode own]. by rewrite updateHandoff_id, updateHandoff_gen, K2, K3. }
  unfold push_failed. rewrite He. pose proof (addHints_up (at_hint_io a) 0 (hintstore st1) target key sib Hup Ht Hm) as Ha.
  destruct (addHints _ _ _ _ _ _) as [h err]. cbn [snd] in Ha. rewrite Ha. eexists. split; [done|].
  unfold same_run. cbn [hnode set_hnode set_hints own]. by rewrite updateHandoff_id, updateHandoff_gen, K2, K3.
Qed.

Lemma push_all_up ev st gen newest key sib targets :
  hints_up → Forall hintable targets → Forall (λ x, isMarker x = false) sib →
  is_Some (members newest !! node_ID (hnode st)) → (∀ t, t ∈ targets → ∃ a rest, ev t = a :: rest ∧ at_ended a = false) →
  ∃ st', push_all halted ev st gen newest key sib targets = Some (st', true) ∧ same_run st st'.
Proof.
  intros Hup Ht Hm. revert st. induction Ht as [|t targets Ht _ IH]; intros st Hstay Hev; cbn [push_all]; [by eexists|].
  destruct (Hev t ltac:(by left)) as (a & rest & -> & He). cbn [handoffPush].
  destruct (push_attempt_up a st gen newest key sib t Hup Ht Hm Hstay He) as (st1 & -> & Hs1). cbn [mbind option_bind].
  destruct (IH st1) as (st2 & -> & Hs2); [by rewrite (proj1 (proj2 Hs1))|intros t' ?; apply Hev; by right|].
  cbn. eexists. split; [done|]. by eapply same_run_trans.
Qed.

(** Nothing interrupts the run at a key. *)
Definition undisturbed (env : key_env P IO H IOH) (targets : list string) : Prop :=
  forallb (λ slept, slept) (ke_read_fails env) = true ∧ ke_ended env = false ∧ ke_ended_after env = false ∧
  (∀ t, t ∈ targets → ∃ a rest, ke_attempts env t = a :: rest ∧ at_ended a = false) ∧
  ∀ st, same_run st (ke_meanwhile env st).

Lemma plan_loop_up (a : N) env st gen newest plan :
  hints_up → is_Some (members newest !! node_ID (hnode st)) →
  (∀ key targets, (key, targets) ∈ plan →
     undisturbed (env key) targets ∧ Forall hintable targets ∧
     ∃ sib found, Datastore.Get a (own st) key = Ok (sib, found) ∧ Forall (λ x, isMarker x = false) sib) →
  ∃ st', plan_loop halted a env st gen newest plan = Some (st', true) ∧ same_run st st'.
Proof.
  intros Hup. revert st. induction plan as [|[key targets] plan IH]; intros st Hstay Hall; cbn [plan_loop]; [by eexists|].
  destruct (Hall key targets ltac:(by left)) as ((Hr & He & Hea & Hev & Hmw) & Hht & sib & found & Hget & Hsib).
  pose proof (Hmw st) as Hs0. set (st0 := ke_meanwhile (env key) st) in *. rewrite He. unfold handoffKey. rewrite Hr. cbn [negb].
  rewrite (proj1 Hs0), Hget. clearbody st0.
  assert (∃ st1, match found with true => '(st, ok) ← push_all halted (ke_attempts (env key)) st0 gen newest key sib targets;
                                       Some (st, ok && negb (ke_ended_after (env key)))
                           | false => Some (st0, true) end = Some (st1, true) ∧ same_run st0 st1) as (st1 & E1 & Hs1).
  { destruct found; [|by eexists].
    destruct (push_all_up (ke_attempts (env key)) st0 gen newest key sib targets Hup Hht Hsib) as (st1 & -> & Hs1);
      [by rewrite (proj1 (proj2 Hs0))|done|]. cbn. rewrite Hea. by eexists. }
  destruct found; [rewrite E1; clear E1|assert (st0 = st1) as -> by congruence; clear E1].
  all: set (st2 := set_hnode st1 _); assert (same_run st1 st2) as Hs2 by
    (unfold st2, same_run; cbn [hnode set_hnode own]; by rewrite updateHandoff_id, updateHandoff_gen).
  all: pose proof (same_run_trans _ _ _ (same_run_trans _ _ _ Hs0 Hs1) Hs2) as Hs.
  all: destruct (IH st2) as (st' & -> & Hs'); [by rewrite (proj1 (proj2 Hs))|rewrite (proj1 Hs); intros k ts Hin; apply Hall; by right|].
  all: eexists; split; [done|]; by eapply same_run_trans.
Qed.

(** A handoff comes to its end.  On a node that stays a member of the
    newest view, whose reads succeed sooner or later and whose hint store
    takes hints, a run that nobody cancels finishes, however many targets are
    dead or refuse: after one attempt at each.  Then the node has no keys
    pending and [newest] is its base. *)
Theorem handoff_completes (a : N) (fails : list bool) (env : string → key_env P IO H IOH) (io : atomic_io) st base newest keys :
  let gen := handoffGen (ho (hnode st)) in
  hints_up → is_Some (members newest !! node_ID (hnode st)) → forallb (λ slept, slept) fails = true →
  Datastore.Keys (own st) = Ok keys →
  (∀ key, key ∈ keys →
     let targets := handoffTargets (node_ID (hnode st)) (repl (hnode st)) base newest key in
     undisturbed (env key) targets ∧ Forall hintable targets ∧
     ∃ sib found, Datastore.Get a (own st) key = Ok (sib, found) ∧ Forall (λ x, isMarker x = false) sib) →
  ∃ st', runHandoff halted a fails env io st (mkRun gen base newest) = Some (st', true) ∧
    handoffBase (ho (hnode st')) = newest ∧ Done (handoffStatus (ho (hnode st'))) = true ∧
    Pending (handoffStatus (ho (hnode st'))) = 0%Z ∧ handoffRunning (ho (hnode st')) = false.
Proof.
  intros gen Hup Hstay Hf Hk Hall. unfold runHandoff. rewrite Hf, Hk. cbn [negb]. set (plan := handoff_plan _ _ _ _ _).
  set (st0 := set_hnode st _). assert (same_run st st0) as Hs0.
  { unfold st0, same_run. cbn [hnode set_hnode own]. by rewrite updateHandoff_id, updateHandoff_gen. }
  destruct (plan_loop_up a env st0 gen newest plan Hup) as (st1 & -> & Hs1).
  { by rewrite (proj1 (proj2 Hs0)). }
  { intros key targets (Hin & -> & _)%handoff_plan_elem. rewrite (proj1 Hs0). by apply Hall. }
  eexists. split; [done|]. cbn [hnode set_hnode].
  destruct (finishHandoff_base io (hnode st1) gen newest) as [(_ & ? & ? & ? & ?)|[Hne Heq]]; [done|].
  exfalso. apply Hne. rewrite Heq. apply (same_run_trans _ _ _ Hs0 Hs1).
Qed.
End theorem.
End spec.

(** ** The theorems at concrete nodes *)

Section witnesses.
#[local] Existing Instance ascii_print.
#[local] Existing Instance toy_hf_json.
Abbreviation mem := (gmap string (list itemptr)).

Definition w_base : view := mkView 1 "b" {["node-1" := "h1"; "node-2" := "h2"]} (members_ring 2 ["node-1"; "node-2"]).
Definition w_newest : view :=
  mkView 2 "n" {["node-1" := "h1"; "node-2" := "h2"; "node-3" := "h3"]} (members_ring 2 ["node-1"; "node-2"; "node-3"]).

(** [node-1] holds a key and stays; [node-3] is new; the factor is three. *)
Definition w_node : node :=
  set_ho (newNode "node-1" "h1" 3 3 w_newest w_base no_file no_file)
    (mkHO w_base (Some w_newest) true 1 (mkStatus 2 false 0 0 0) 0 no_file).
Definition w_st : hstate mem mem :=
  mkH w_node w_store (mkHints ∅ 0 0) {["node-2" := mkStore "node-2" "node-2#3" ∅; "node-3" := mkStore "node-3" "node-3#9" ∅]}.

(** One attempt at each target: lost, with a hint in its place, or not. *)
Definition w_attempt (lost : bool) : attempt unit unit := mkAttempt (Some 5%N) lost false (λ _, ()) (λ _, ()) false true.
Definition w_key_env (lost : bool) (k : string) : key_env mem unit mem unit :=
  mkKeyEnv [true] (λ _, [w_attempt lost]) false false (λ st, st).

Example w_targets : handoffTargets "node-1" 3 w_base w_newest "k" = ["node-3"].
Proof. vm_compute. reflexivity. Qed.

Lemma mem_hints_accept (io : N → unit) i (h : Hints.Store mem) target key sib : hints_accept io i h target key sib.
Proof. revert i h. induction sib as [|x sib IH]; intros i h; [done|]. by split. Qed.

Lemma mem_plan_accepts halted a env (st : hstate mem mem) gen newest plan : plan_accepts halted a env st gen newest plan.
Proof.
  assert (∀ attempts st gen newest key sib t, attempts_accept (IO := unit) (IOH := unit) halted attempts st gen newest key sib t) as Ha.
  { intros attempts. induction attempts as [|x attempts IH]; intros; [done|]. split; [|apply IH].
    split; [intros; apply mem_accepts_all|apply mem_hints_accept]. }
  assert (∀ ev st gen newest key sib ts, targets_accept (IO := unit) (IOH := unit) halted ev st gen newest key sib ts) as Ht.
  { intros ev st' g w k sib ts. revert st'. induction ts as [|t ts IH]; intros st'; [done|]. split; [apply Ha|]. intros; apply IH. }
  revert st. induction plan as [|[k ts] plan IH]; intros st; [done|]. split; [intros; apply Ht|intros; apply IH].
Qed.

Lemma w_st_ok : st_ok w_st.
Proof.
  split_and!; [apply w_store_ok|apply mem_ok_empty|].
  apply map_Forall_insert_2; [apply mem_ok_empty|]. apply map_Forall_singleton, mem_ok_empty.
Qed.

Definition w_ran (lost : bool) : hstate mem mem :=
  match runHandoff (λ _, false) 0 [] (w_key_env lost) disk_fine w_st (mkRun 1 w_base w_newest) with
  | Some (st, _) => st
  | None => w_st
  end.

(** The new owner gets the key when its push works, a hint when it does not. *)
Lemma handoff_delivers_witness :
  moved w_st (w_ran false) w_newest "k" "node-3" ∧ moved w_st (w_ran true) w_newest "k" "node-3".
Proof.
  assert (∀ lost, runHandoff (λ _, false) 0 [] (w_key_env lost) disk_fine w_st (mkRun 1 w_base w_newest) = Some (w_ran lost, true)) as Hrun.
  { intros lost. unfold w_ran. destruct (runHandoff _ _ _ _ _ _ _) as [[st' ok]|] eqn:E.
    - pose proof (f_equal (λ r, match r with Some (_, ok) => ok | None => false end) E) as E'. cbv beta in E'.
      assert (match runHandoff (λ _, false) 0 [] (w_key_env lost) disk_fine w_st (mkRun 1 w_base w_newest) with Some (_, ok) => ok | None => false end = true)
        as Ht by (destruct lost; vm_cast_no_check (eq_refl true)). rewrite E' in Ht. rewrite Ht. reflexivity.
    - exfalso. pose proof (f_equal (λ r, match r with Some (_, ok) => ok | None => false end) E) as E'. cbv beta in E'.
      assert (match runHandoff (λ _, false) 0 [] (w_key_env lost) disk_fine w_st (mkRun 1 w_base w_newest) with Some (_, ok) => ok | None => false end = true)
        as Ht by (destruct lost; vm_cast_no_check (eq_refl true)). rewrite E' in Ht. discriminate Ht. }
  assert (∀ lost, moved w_st (w_ran lost) w_newest "k" "node-3") as Hm; [|split; apply Hm].
  intros lost. destruct (handoff_delivers (λ _, false) 0 [] (w_key_env lost) disk_fine w_st 1 w_base w_newest (w_ran lost))
    as (_ & _ & Hall & _).
  - apply w_st_ok.
  - intros k st Hst. split; [exact Hst|apply progress_refl].
  - intros. apply mem_plan_accepts.
  - apply Hrun.
  - destruct (Hall "k"%string "node-3"%string) as [[_ Hold]|Hm]; [vm_compute; discriminate| | | |exact Hm].
    + assert (bool_decide ("node-3"%string ∈ GetPreferenceList (view_ring w_newest) "k" 3) = true) as Hb by (vm_cast_no_check (eq_refl true)).
      apply (bool_decide_eq_true_1 _ Hb).
    + discriminate.
    + exfalso. assert (bool_decide ("node-3"%string ∈ GetPreferenceList (view_ring w_base) "k" 3) = false) as Hb by (vm_cast_no_check (eq_refl false)).
      apply (bool_decide_eq_false_1 _ Hb Hold).
Defined.

(** With every push lost. *)
Lemma handoff_completes_witness :
  ∃ st', runHandoff (λ _, false) 0 [true; true] (w_key_env true) disk_fine w_st (mkRun 1 w_base w_newest) = Some (st', true) ∧
    handoffBase (ho (hnode st')) = w_newest ∧ Pending (handoffStatus (ho (hnode st'))) = 0%Z.
Proof.
  destruct (handoff_completes (λ _, false) 0 [true; true] (w_key_env true) disk_fine w_st w_base w_newest ["k"%string])
    as (st' & H1 & H2 & _ & H3 & _).
  - intros p io k item. reflexivity.
  - by eexists.
  - reflexivity.
  - reflexivity.
  - intros key Hkey. apply list_elem_of_singleton in Hkey as ->. cbv zeta.
    change (node_ID (hnode w_st)) with "node-1"%string. change (repl (hnode w_st)) with 3. rewrite w_targets.
    split; [|split].
    + repeat split; try reflexivity. intros t _. by eexists _, _.
    + repeat constructor. discriminate.
    + eexists _, _. split; [vm_compute; reflexivity|]. repeat constructor.
  - exists st'. split; [exact H1|]. split; [exact H2|exact H3].
Defined.
End witnesses.
