(* ===== verification/GoStrings.v ===== *)
(** * Go's strings and strconv, as the operator and the chaos tools use them

    [strings.Cut], [CutPrefix], [HasPrefix], [Contains] and [Split] on one
    separator character, [strconv.Atoi] and [Itoa], and [fmt]'s [%07d]. *)

From stdpp Require Import strings list pretty.
From Stdlib Require Import ZArith Lia Ascii.
From S2P Require Import Prelude.

Open Scope nat_scope.

(** ** Strings *)

Fixpoint CutPrefix (p s : string) : option string :=
  match p, s with
  | EmptyString, _ => Some s
  | String a p', String b s' => if Ascii.eqb a b then CutPrefix p' s' else None
  | String _ _, EmptyString => None
  end.
Definition HasPrefix (s p : string) : bool := match CutPrefix p s with Some _ => true | None => false end.

Fixpoint Contains (s p : string) : bool :=
  HasPrefix s p || match s with EmptyString => false | String _ s' => Contains s' p end.

(** [strings.Cut] around a character: what is before it, and after it if it is there. *)
Fixpoint Cut (sep : ascii) (s : string) : string * option string :=
  match s with
  | EmptyString => ("", None)
  | String c s' => if Ascii.eqb c sep then ("", Some s') else let '(b, a) := Cut sep s' in (String c b, a)
  end.

(** [strings.Split]: never empty. *)
Fixpoint Split (sep : ascii) (s : string) : list string :=
  match s with
  | EmptyString => [""]
  | String c s' =>
      if Ascii.eqb c sep then "" :: Split sep s'
      else match Split sep s' with [] => [String c ""] | x :: xs => String c x :: xs end
  end.

Fixpoint Repeat (c : ascii) (n : nat) : string := match n with O => "" | S n' => String c (Repeat c n') end.

(** ** Numbers *)

Definition max_int : N := 9223372036854775807.

Definition digit_of (c : ascii) : option N :=
  let n := N_of_ascii c in if ((48 <=? n) && (n <=? 57))%N then Some (n - 48)%N else None.
Fixpoint atoi_loop (s : string) (acc : N) : option N :=
  match s with
  | EmptyString => Some acc
  | String c s' => match digit_of c with Some d => atoi_loop s' (acc * 10 + d)%N | None => None end
  end.
Definition atoi_abs (s : string) (limit : N) : option N :=
  match s with
  | EmptyString => None
  | _ => match atoi_loop s 0 with Some i => if (i <=? limit)%N then Some i else None | None => None end
  end.

(** [strconv.Atoi] of a 64-bit [int]: an optional sign and digits. *)
Definition Atoi (s : string) : option Z :=
  match s with
  | String c s' =>
      if Ascii.eqb c "-" then match atoi_abs s' (max_int + 1) with Some i => Some (- Z.of_N i)%Z | None => None end
      else match atoi_abs (if Ascii.eqb c "+" then s' else s) max_int with Some i => Some (Z.of_N i) | None => None end
  | EmptyString => None
  end.

Definition Itoa (i : Z) : string := pretty i.

(** [%07d] of a number that is not negative *)
Definition pad7 (i : nat) : string := Repeat "0" (7 - String.length (pretty i)) +:+ pretty i.

(** ** What they satisfy *)

Lemma string_app_assoc (s t u : string) : (s +:+ t) +:+ u = s +:+ (t +:+ u).
Proof.
  induction s as [|a s IH]; [done|].
  change (String a ((s +:+ t) +:+ u) = String a (s +:+ (t +:+ u))). by f_equal.
Qed.

Lemma string_app_nil s : s +:+ "" = s.
Proof. induction s as [|a s IH]; [done|]. change (String a (s +:+ "") = String a s). by f_equal. Qed.

Lemma CutPrefix_Some p s t : CutPrefix p s = Some t ↔ s = p +:+ t.
Proof.
  revert s. induction p as [|a p IH]; intros s; [split; [by intros [= ->]|by intros ->]|].
  change (String a p +:+ t) with (String a (p +:+ t)). destruct s as [|b s]; simpl; [done|].
  destruct (Ascii.eqb_spec a b) as [->|Hne]; [rewrite IH|]; split; intros H; try done; congruence.
Qed.

Lemma HasPrefix_true s p : HasPrefix s p = true ↔ ∃ t, s = p +:+ t.
Proof.
  unfold HasPrefix. destruct (CutPrefix p s) as [t|] eqn:E.
  - apply CutPrefix_Some in E. split; [eauto|done].
  - split; [done|]. intros [t H%CutPrefix_Some]. congruence.
Qed.

Lemma digit_of_char d : (d < 10)%N → digit_of (pretty_N_char d) = Some d.
Proof.
  intros Hd. assert (d ∈ [0;1;2;3;4;5;6;7;8;9]%N) as Hin by (rewrite !elem_of_cons; lia).
  repeat (apply elem_of_cons in Hin as [->|Hin]; [reflexivity|]). by apply elem_of_nil in Hin.
Qed.

Lemma atoi_pretty_go x s : atoi_loop (pretty_N_go x s) 0 = atoi_loop s x.
Proof.
  revert s. induction (N.lt_wf_0 x) as [x _ IH]. intros s.
  destruct (decide (x = 0)%N) as [->|Hx]; [by rewrite pretty_N_go_0|].
  rewrite pretty_N_go_step by lia. rewrite IH by (apply N.div_lt; lia). simpl.
  rewrite digit_of_char by (apply N.mod_upper_bound; lia). f_equal. pose proof (N.div_mod' x 10). lia.
Qed.

Lemma atoi_loop_pretty (i : N) : atoi_loop (pretty i) 0 = Some i.
Proof.
  unfold pretty, pretty_N. destruct (decide (i = 0)%N) as [->|Hne]; [done|]. by rewrite atoi_pretty_go.
Qed.

Lemma pretty_not_empty (i : N) : pretty i ≠ "".
Proof.
  unfold pretty, pretty_N. destruct (decide (i = 0)%N) as [|Hne]; [done|]. intros E.
  pose proof (atoi_pretty_go i "") as H. rewrite E in H. simpl in H. congruence.
Qed.

Lemma Atoi_pretty (i : N) : (i ≤ max_int)%N → Atoi (pretty i) = Some (Z.of_N i).
Proof.
  intros Hi. pose proof (atoi_loop_pretty i) as Hl. destruct (pretty i) as [|c s] eqn:E; [by apply pretty_not_empty in E|].
  unfold Atoi. assert (Hd : is_Some (digit_of c)) by (simpl in Hl; destruct (digit_of c); [eauto|done]).
  destruct (Ascii.eqb_spec c "-") as [->|_]; [by destruct Hd|].
  destruct (Ascii.eqb_spec c "+") as [->|_]; [by destruct Hd|].
  unfold atoi_abs. rewrite Hl. by rewrite (proj2 (N.leb_le i max_int) Hi).
Qed.

Lemma Itoa_of_N (i : N) : Itoa (Z.of_N i) = pretty i.
Proof. by destruct i. Qed.

(** A character that is no digit ends a number. *)
Lemma Cut_number sep s acc n t : digit_of sep = None → atoi_loop s acc = Some n → Cut sep (s +:+ String sep t) = (s, Some t).
Proof.
  intros Hsep. revert acc. induction s as [|c s IH]; intros acc; simpl.
  - intros _. change ("" +:+ String sep t) with (String sep t). simpl. by rewrite Ascii.eqb_refl.
  - destruct (digit_of c) as [d|] eqn:Ed; [|done]. intros Hs. change (String c s +:+ String sep t) with (String c (s +:+ String sep t)).
    simpl. destruct (Ascii.eqb_spec c sep) as [->|_]; [congruence|]. by rewrite (IH _ Hs).
Qed.

Lemma atoi_loop_pad7 i : atoi_loop (pad7 i) 0 = Some (N.of_nat i).
Proof.
  unfold pad7. generalize (7 - String.length (pretty i)) as k. intros k. induction k as [|k IH]; [apply atoi_loop_pretty|].
  change (Repeat "0" (S k) +:+ pretty i) with (String "0" (Repeat "0" k +:+ pretty i)). done.
Qed.
