(* ===== verification/Planner.v ===== *)
(** * The operator's planner (operator/internal/planner/planner.go, render/render.go)

    The pure function that decides the operator's next step from what it
    observes of a cluster: bootstrap, scaling up and down one node at a time,
    drains, rollouts, and the states it refuses to act on.  Messages for humans
    are left out; reasons and phases are kept. *)

From stdpp Require Import gmap strings list pretty sorting.
From Stdlib Require Import ZArith Lia.
From S2P Require Import Prelude GoLib GoStrings.

Open Scope nat_scope.

(** ** Names of members (render.go) *)

Record KVCluster := mkCluster {
  Name : string; Namespace : string;
  spec_Replicas : nat; spec_N : nat; spec_DrainTimeout : Z;
  status_Phase : option string; status_DrainStartedAt : option Z
}.

Definition GRPCPort : N := 7000.
Definition MemberID (c : KVCluster) (ordinal : nat) : string := Name c +:+ "-" +:+ pretty ordinal.
Definition PodHost (c : KVCluster) (ordinal : nat) : string :=
  MemberID c ordinal +:+ "." +:+ Name c +:+ "." +:+ Namespace c +:+ ".svc.cluster.local".
Definition MemberAddress (c : KVCluster) (ordinal : nat) : string := PodHost c ordinal +:+ ":" +:+ pretty GRPCPort.

Fixpoint Members (c : KVCluster) (count : nat) : gmap string string :=
  match count with
  | O => ∅
  | S i => <[MemberID c i := MemberAddress c i]> (Members c i)
  end.

Definition Ordinal (c : KVCluster) (id : string) : option nat :=
  match CutPrefix (Name c +:+ "-") id with
  | None => None
  | Some s => match Atoi s with
              | None => None
              | Some i => if (i <? 0)%Z || bool_decide (Itoa i ≠ s) then None else Some (Z.to_nat i)
              end
  end.

(** A member is one of the cluster's pods, at exactly its address; what both
    [render.ConfigMap] and the planner's [validMembers] require. *)
Definition member_ok (c : KVCluster) (p : string * string) : bool :=
  match Ordinal c p.1 with Some i => bool_decide (p.2 = MemberAddress c i) | None => false end.

(** [render.ConfigMap]'s refusals *)
Definition render_check (c : KVCluster) (m : gmap string string) : bool :=
  (spec_N c <=? size m) && forallb (member_ok c) (map_to_list m).

(** ** What the names of members satisfy *)

(** Ordinals of this size are [int]s. *)
Definition int_ok (i : nat) : Prop := (N.of_nat i ≤ max_int)%N.

Section names.
Context (c : KVCluster).

#[global] Instance MemberID_inj : Inj (=) (=) (MemberID c).
Proof. intros i j H. unfold MemberID in H. by simplify_eq. Qed.

Lemma Ordinal_MemberID i : int_ok i → Ordinal c (MemberID c i) = Some i.
Proof.
  intros Hi. unfold Ordinal, MemberID. rewrite <-string_app_assoc, (proj2 (CutPrefix_Some _ _ _) eq_refl).
  change (pretty i) with (pretty (N.of_nat i)). rewrite Atoi_pretty, Itoa_of_N by done.
  rewrite bool_decide_false by (intros H; by apply H). rewrite (proj2 (Z.ltb_ge _ _)) by lia. simpl. f_equal. lia.
Qed.

Lemma Ordinal_Some id i : Ordinal c id = Some i → id = MemberID c i.
Proof.
  unfold Ordinal, MemberID. destruct (CutPrefix _ id) as [s|] eqn:E; [|done]. apply CutPrefix_Some in E as ->.
  destruct (Atoi s) as [x|]; [|done]. destruct (Z.ltb_spec x 0) as [|Hx]; simpl; [done|].
  destruct (bool_decide_reflect (Itoa x ≠ s)) as [|Hs]; [done|]. intros [= <-]. rewrite string_app_assoc. do 2 f_equal.
  apply dec_stable in Hs. rewrite <-Hs. unfold pretty, pretty_nat. rewrite <-Itoa_of_N. f_equal. lia.
Qed.

Lemma Members_lookup k id a :
  Members c k !! id = Some a ↔ ∃ i, i < k ∧ id = MemberID c i ∧ a = MemberAddress c i.
Proof.
  induction k as [|k IH]; simpl; [rewrite lookup_empty; naive_solver lia|].
  rewrite lookup_insert_Some, IH. split.
  - intros [[<- <-]|(_ & i & Hi & -> & ->)]; [exists k|exists i]; repeat split; auto with lia.
  - intros (i & Hi & -> & ->). destruct (decide (i = k)) as [->|Hne]; [by left|].
    right. split; [by intros ?%(inj (MemberID c))|exists i; auto with lia].
Qed.

Lemma Members_None k i : k ≤ i → Members c k !! MemberID c i = None.
Proof.
  intros Hk. apply eq_None_not_Some. intros [a (j & Hj & E%(inj (MemberID c)) & _)%Members_lookup]. lia.
Qed.

Lemma Members_elem k i : MemberID c i ∈ dom (Members c k) ↔ i < k.
Proof.
  rewrite elem_of_dom. split.
  - intros [a (j & Hj & ->%(inj (MemberID c)) & _)%Members_lookup]. done.
  - intros Hi. exists (MemberAddress c i). apply Members_lookup. eauto.
Qed.

Lemma Members_size k : size (Members c k) = k.
Proof. induction k as [|k IH]; simpl; [apply map_size_empty|]. rewrite map_size_insert_None, IH; [done|by apply Members_None]. Qed.

#[global] Instance Members_inj : Inj (=) (=) (Members c).
Proof. intros k k' H. by rewrite <-(Members_size k), H, Members_size. Qed.

Lemma Members_ok k : int_ok k → forallb (member_ok c) (map_to_list (Members c k)) = true.
Proof.
  intros Hk. apply forallb_forall. intros [id a] Hin%list_elem_of_In.
  apply elem_of_map_to_list, Members_lookup in Hin as (i & Hi & -> & ->).
  unfold member_ok; simpl. rewrite Ordinal_MemberID; [by apply bool_decide_true|]. unfold int_ok in *. lia.
Qed.

Lemma Members_delete k : delete (MemberID c k) (Members c (S k)) = Members c k.
Proof. simpl. by rewrite delete_insert_id by (by apply Members_None). Qed.
End names.

(** ** Observations, actions, status *)

Record Membership := mkMembership { m_Epoch : N; m_Members : gmap string string; h_Epoch : N; h_Done : bool }.
Record Handoff := mkHandoff { d_Epoch : N; d_Drained : bool }.

(** Times are [Z]; a zero time is [None]. *)
Record PodObs := mkPod {
  Ordinal_ : nat; Exists : bool; Terminating : bool; PodReady : bool; Since : option Z;
  pod_Membership : option Membership; UnreachableSince : option Z; Drain : option Handoff
}.

Record StatefulSetObs := mkSts { Replicas : nat; ReadyReplicas : nat; RolledOut : bool; TemplateCurrent : bool }.
Record ConfigMapObs := mkCM { cm_Epoch : N; cm_Members : gmap string string; cm_Invalid : bool }.

Record Observation := mkObs {
  Now : Z; Cluster : KVCluster; StatefulSet : option StatefulSetObs; ConfigMap : option ConfigMapObs;
  Pods : list PodObs; PVCs : list nat
}.

Definition reachable (p : PodObs) : bool := match pod_Membership p with Some _ => true | None => false end.
Definition healthy (p : PodObs) : bool := Exists p && negb (Terminating p) && PodReady p && reachable p.

Inductive reason :=
  | CreatingConfigMap | CreatingStatefulSet | ConfigMapMissing | ConfigMapUnexpected | AddressMismatch
  | MembershipConflict | UnexplainedDivergence | PodUnavailable | AddingPod | WaitingForEpoch | WaitingForHandoff
  | RemovingPod | Draining | DrainBlocked | Drained | WaitingForPodRemoval | WaitingForVolumeRemoval
  | WaitingForOldVolume | WaitingForPods | RollingUpdate | ReadyReason.

Inductive Action :=
  | ActNone (after : Z)
  | ActWait (after : Z)
  | ActWriteConfigMap (e : N) (m : gmap string string)
  | ActScaleStatefulSet (replicas : nat)
  | ActUpdateTemplate (replicas : nat)
  | ActPostMembership (ordinal : nat) (e : N) (m : gmap string string).

Record Status := mkStatus {
  st_Phase : string; st_Reason : option reason; st_Epoch : N; st_Members : gmap string string;
  st_Replicas : nat; st_ReadyReplicas : nat; DrainStartedAt : option Z
}.

Record Config := mkConfig { Grace : Z; Fast : Z; Slow : Z; Idle : Z }.

Definition PhasePending : string := "Pending".
Definition PhaseReady : string := "Ready".
Definition PhaseScaling : string := "Scaling".
Definition PhaseDrainBlocked : string := "DrainBlocked".
Definition PhaseDegraded : string := "Degraded".

Definition report (st : Status) (phase : string) (r : reason) : Status :=
  mkStatus phase (Some r) (st_Epoch st) (st_Members st) (st_Replicas st) (st_ReadyReplicas st) (DrainStartedAt st).
Definition set_started (st : Status) (t : option Z) : Status :=
  mkStatus (st_Phase st) (st_Reason st) (st_Epoch st) (st_Members st) (st_Replicas st) (st_ReadyReplicas st) t.
Definition set_epoch (st : Status) (e : N) (m : gmap string string) : Status :=
  mkStatus (st_Phase st) (st_Reason st) e m (st_Replicas st) (st_ReadyReplicas st) (DrainStartedAt st).

Section planner.
Context (obs : Observation) (cfg : Config).

Definition kv : KVCluster := Cluster obs.

Definition wait (st : Status) (phase : string) (r : reason) (after : Z) : Action * Status := (ActWait after, report st phase r).
Definition degraded (st : Status) (r : reason) : Action * Status :=
  let st := match status_DrainStartedAt kv with Some t => set_started st (Some t) | None => st end in
  wait st PhaseDegraded r (Idle cfg).
Definition act (st : Status) (a : Action) (phase : string) (r : reason) : Action * Status := (a, report st phase r).

Definition prevPhase : string := match status_Phase kv with None => PhasePending | Some ph => ph end.
Definition waitingPhase : string :=
  if bool_decide (prevPhase = PhaseDegraded) || bool_decide (prevPhase = PhaseDrainBlocked) then PhaseScaling else prevPhase.

Definition pod (ordinal : nat) : PodObs :=
  match Pods obs !! ordinal with Some p => p | None => mkPod ordinal false false false None None None None end.
Definition hasPVC (ordinal : nat) : bool := bool_decide (ordinal ∈ PVCs obs).

(** [validMembers]; the map is iterated in some order, and any bad member is
    an error. *)
Definition validMembers (m : gmap string string) : option (nat * bool) :=
  if forallb (member_ok kv) (map_to_list m) then Some (size m, bool_decide (m = Members kv (size m))) else None.

(** [bootstrap]: the ConfigMap's member count, or what to do instead. *)
Definition bootstrap (st : Status) : nat + (Action * Status) :=
  match ConfigMap obs, StatefulSet obs with
  | None, None =>
      inr (act st (ActWriteConfigMap 0 (Members kv (spec_Replicas kv))) PhasePending CreatingConfigMap)
  | None, Some _ => inr (degraded st ConfigMapMissing)
  | Some cm, sts =>
      if cm_Invalid cm then inr (degraded st ConfigMapUnexpected)
      else
        match validMembers (cm_Members cm) with
        | None | Some (_, false) => inr (degraded st ConfigMapUnexpected)
        | Some (c, true) =>
            match sts with
            | None => inr (act st (ActScaleStatefulSet c) PhasePending CreatingStatefulSet)
            | Some _ => inl c
            end
        end
  end.

(** [readViews], its two loops: the views in the order of the pods, and the
    members seen at each epoch. *)
Record pview := mkPView { ordinal : nat; v_epoch : N; v_members : gmap string string }.

Fixpoint collect (ordinals : list nat) : option (list pview) :=
  match ordinals with
  | [] => Some []
  | i :: rest =>
      match pod_Membership (pod i) with
      | None => collect rest
      | Some m =>
          match validMembers (m_Members m) with
          | None => None
          | Some _ => match collect rest with Some vs => Some (mkPView i (m_Epoch m) (m_Members m) :: vs) | None => None end
          end
      end
  end.

Fixpoint by_epoch (vs : list pview) (byEpoch : gmap N (gmap string string)) : option (gmap N (gmap string string)) :=
  match vs with
  | [] => Some byEpoch
  | v :: rest =>
      match byEpoch !! v_epoch v with
      | Some prev => if bool_decide (prev = v_members v) then by_epoch rest (<[v_epoch v := v_members v]> byEpoch) else None
      | None => by_epoch rest (<[v_epoch v := v_members v]> byEpoch)
      end
  end.

Definition sorted_epochs (b : gmap N (gmap string string)) : list N := merge_sort N.le (elements (dom b)).

Definition readViews (st : Status) (S_ : nat) : (list pview * Status) + (Action * Status) :=
  match collect (seq 0 S_) with
  | None => inr (degraded st AddressMismatch)
  | Some views =>
      match by_epoch views ∅ with
      | None => inr (degraded st MembershipConflict)
      | Some b =>
          match sorted_epochs b with
          | [] => inl (views, st)
          | [e] => inl (views, set_epoch st e (default ∅ (b !! e)))
          | [e0; e1] =>
              if (e1 =? u64 (e0 + 1))%N then inl (views, set_epoch st e1 (default ∅ (b !! e1)))
              else inr (degraded st UnexplainedDivergence)
          | _ => inr (degraded st UnexplainedDivergence)
          end
      end
  end.

(** [allIn]: the states seen, if every view is an allowed one. *)
Fixpoint allIn (views : list pview) (allowed : list (N * nat)) : option (list (N * nat)) :=
  match views with
  | [] => Some []
  | v :: rest =>
      let s := (v_epoch v, size (v_members v)) in
      if bool_decide (s ∈ allowed) && bool_decide (v_members v = Members kv s.2) then
        match allIn rest allowed with Some seen => Some (s :: seen) | None => None end
      else None
  end.

Definition ordinalTaken (i : nat) : bool := Exists (pod i) || hasPVC i.

Definition scaleUp (st : Status) (S_ : nat) : Action * Status :=
  if negb (forallb (λ i, healthy (pod i)) (seq 0 S_)) then wait st PhaseScaling WaitingForPods (Fast cfg)
  else if ordinalTaken S_ then wait st PhaseScaling WaitingForOldVolume (Fast cfg)
  else act st (ActScaleStatefulSet (S_ + 1)) PhaseScaling AddingPod.

Definition viewAt (e : N) : option (gmap string string) :=
  m ← List.find (λ p, match pod_Membership p with Some m => (m_Epoch m =? e)%N | None => false end) (Pods obs);
  m_Members <$> pod_Membership m.

Definition drain (st : Status) (S_ : nat) (e : N) : Action * Status :=
  let leaving := pod (S_ - 1) in
  if match Drain leaving, pod_Membership leaving with
     | Some d, Some m => (d_Epoch d =? e)%N && d_Drained d && (m_Epoch m =? e)%N
     | _, _ => false
     end
  then act (set_started st None) (ActWriteConfigMap e (default ∅ (viewAt e))) PhaseScaling Drained
  else
    let started := default (Now obs) (status_DrainStartedAt kv) in
    let st := set_started st (Some started) in
    let waited := (Now obs - started)%Z in
    if ((0 <? spec_DrainTimeout kv) && (spec_DrainTimeout kv <? waited))%Z
    then wait st PhaseDrainBlocked DrainBlocked (Slow cfg)
    else wait st PhaseScaling Draining (Slow cfg).

(** [converged]; [None] is a panic (a write to a nil map). *)
Definition converged (st : Status) (S_ : nat) (cm : ConfigMapObs) (sts : StatefulSetObs) (views : list pview)
    : option (Action * Status) :=
  if existsb (λ p, (S_ <=? Ordinal_ p) && Exists p) (Pods obs) then Some (wait st PhaseScaling WaitingForPodRemoval (Fast cfg))
  else if existsb (λ i, S_ <=? i) (PVCs obs) then Some (wait st PhaseScaling WaitingForVolumeRemoval (Fast cfg))
  else if existsb (λ v, match pod_Membership (pod (ordinal v)) with
                        | Some m => (h_Epoch m <? cm_Epoch cm)%N || negb (h_Done m)
                        | None => false
                        end) views
  then Some (wait st PhaseScaling WaitingForHandoff (Slow cfg))
  else if negb (forallb (λ i, healthy (pod i)) (seq 0 S_)) then Some (wait st waitingPhase WaitingForPods (Fast cfg))
  else if negb (RolledOut sts) || (ReadyReplicas sts <? S_) then Some (wait st PhaseScaling RollingUpdate (Fast cfg))
  else
    let e := cm_Epoch cm in
    let desired := spec_Replicas kv in
    if negb (TemplateCurrent sts) then Some (act st (ActUpdateTemplate S_) PhaseScaling RollingUpdate)
    else if S_ <? desired then
      if ordinalTaken S_ then Some (wait st PhaseScaling WaitingForOldVolume (Fast cfg))
      else
        match viewAt e with
        | None => None
        | Some m =>
            Some (act st (ActWriteConfigMap (u64 (e + 1)) (<[MemberID kv S_ := MemberAddress kv S_]> m)) PhaseScaling AddingPod)
        end
    else if desired <? S_ then
      match pod_Membership (pod 0) with
      | None => None
      | Some m =>
          Some (act st (ActPostMembership 0 (u64 (e + 1)) (delete (MemberID kv (S_ - 1)) (m_Members m))) PhaseScaling RemovingPod)
      end
    else Some (ActNone (Idle cfg), report st PhaseReady ReadyReason).

(** [uint64] subtraction *)
Definition pred64 (e : N) : N := u64 (e + two64 - 1).

(** The views are all allowed, and [s] is among them. *)
Definition allIn_seen (views : list pview) (allowed : list (N * nat)) (s : N * nat) : bool :=
  match allIn views allowed with Some seen => bool_decide (s ∈ seen) | None => false end.
Definition allIn_ok (views : list pview) (allowed : list (N * nat)) : bool :=
  match allIn views allowed with Some _ => true | None => false end.

Definition unexplained (st : Status) : Action * Status := degraded st UnexplainedDivergence.

(** [classify]: the step's action, the ordinal whose ill health it expects,
    and whether the state is one of a step. *)
Definition classify (st : Status) (S_ c : nat) (cm : ConfigMapObs) (sts : StatefulSetObs) (views : list pview)
    : option (Action * Status * option nat * bool) :=
  let e := cm_Epoch cm in
  if c =? S_ + 1 then
    let allowed := (e, S_ + 1) :: if (1 <=? e)%N then [(pred64 e, S_)] else [] in
    if allIn_ok views allowed then Some (scaleUp st S_, None, true) else Some (unexplained st, None, false)
  else if c =? S_ then
    if allIn_ok views [(e, S_)] then d ← converged st S_ cm sts views; Some (d, None, true)
    else if (1 <=? e)%N && allIn_seen views [(pred64 e, S_ - 1); (e, S_)] (pred64 e, S_ - 1)
    then Some (wait st PhaseScaling WaitingForEpoch (Fast cfg), None, true)
    else if allIn_seen views [(e, S_); (u64 (e + 1), S_ - 1)] (u64 (e + 1), S_ - 1)
    then Some (drain st S_ (u64 (e + 1)), Some (S_ - 1), true)
    else Some (unexplained st, None, false)
  else if c =? S_ - 1 then
    if allIn_ok views [(e, c)]
    then Some (act st (ActScaleStatefulSet c) PhaseScaling RemovingPod, Some (S_ - 1), true)
    else Some (unexplained st, None, false)
  else Some (unexplained st, None, false).

(** [unavailable]: a pod that should be serving has not been for longer than
    [Grace]. *)
Definition down_too_long (exempt : option nat) (i : nat) : bool :=
  let pd := pod i in
  if bool_decide (exempt = Some i) || healthy pd || negb (Exists pd) then false
  else match (if PodReady pd then UnreachableSince pd else Since pd) with
       | None => false
       | Some since => (Grace cfg <? Now obs - since)%Z
       end.
Definition unavailable (st : Status) (S_ : nat) (exempt : option nat) : option (Action * Status) :=
  if existsb (down_too_long exempt) (seq 0 S_) then Some (degraded st PodUnavailable) else None.

Definition is_wait (a : Action) : bool := match a with ActWait _ => true | _ => false end.

Definition plan (st : Status) : option (Action * Status) :=
  match bootstrap st with
  | inr d => Some d
  | inl c =>
      match StatefulSet obs, ConfigMap obs with
      | Some sts, Some cm =>
          let S_ := Replicas sts in
          match readViews st S_ with
          | inr d => Some d
          | inl (views, st) =>
              '(a, st, exempt, ok) ← classify st S_ c cm sts views;
              if negb ok then Some (a, st)
              else match unavailable st S_ exempt with
                   | Some d => Some d
                   | None => Some (a, if is_wait a then st else set_started st None)
                   end
          end
      | _, _ => None
      end
  end.

Definition Plan : option (Action * Status) :=
  let '(r, rr) := match StatefulSet obs with Some sts => (Replicas sts, ReadyReplicas sts) | None => (0, 0) end in
  plan (mkStatus "" None 0 ∅ r rr None).
End planner.

(** ** Reading the pods

    The state of a membership change is read from the pods; when every
    membership they answer with is one of a few states [(e, k)] ([k] members at
    epoch [e]), the two loops of [readViews] find nothing wrong. *)

Section reading.
Context (obs : Observation) (cfg : Config).

Notation M := (Members (kv obs)).

Definition state_of (s : N * nat) (e : N) (m : gmap string string) : Prop := e = s.1 ∧ m = M s.2.
Definition one_of (l : list (N * nat)) (e : N) (m : gmap string string) : Prop := ∃ s, s ∈ l ∧ state_of s e m.
Definition pods_in (l : list (N * nat)) : Prop :=
  ∀ i m, pod_Membership (pod obs i) = Some m → one_of l (m_Epoch m) (m_Members m).

Definition views_of (l : list nat) : list pview :=
  omap (λ i, (λ m, mkPView i (m_Epoch m) (m_Members m)) <$> pod_Membership (pod obs i)) l.

Lemma elem_of_views v l :
  v ∈ views_of l ↔ ∃ m, ordinal v ∈ l ∧ pod_Membership (pod obs (ordinal v)) = Some m ∧
                        v_epoch v = m_Epoch m ∧ v_members v = m_Members m.
Proof.
  unfold views_of. rewrite list_elem_of_omap. split.
  - intros (i & Hi & H). destruct (pod_Membership (pod obs i)) as [m|] eqn:Hm; [|done].
    injection H as <-. exists m. auto.
  - intros (m & Hi & Hm & He & Hv). exists (ordinal v). rewrite Hm. split; [done|].
    destruct v; simpl in *. by subst.
Qed.

Lemma validMembers_Members k : int_ok k → validMembers obs (M k) = Some (k, true).
Proof. intros Hk. unfold validMembers. by rewrite Members_ok, Members_size, bool_decide_true. Qed.

Definition states_ok (l : list (N * nat)) : Prop := Forall (λ s, int_ok s.2) l.

Lemma collect_views l ords : states_ok l → pods_in l → collect obs ords = Some (views_of ords).
Proof.
  intros Hl Hp. induction ords as [|i ords IH]; [done|]. simpl.
  destruct (pod_Membership (pod obs i)) as [m|] eqn:Hm; simpl; [|done].
  destruct (Hp i m Hm) as (s & Hs & _ & Ev). rewrite Ev, validMembers_Members; [by rewrite IH|].
  by eapply (proj1 (Forall_forall _ _) Hl).
Qed.

Lemma by_epoch_agrees (f : N → gmap string string) vs b :
  (∀ v, v ∈ vs → v_members v = f (v_epoch v)) → (∀ e m, b !! e = Some m → m = f e) →
  ∃ b', by_epoch vs b = Some b' ∧ ∀ e, e ∈ dom b' ↔ e ∈ dom b ∨ e ∈ v_epoch <$> vs.
Proof.
  revert b. induction vs as [|v vs IH]; intros b Hv Hb; simpl.
  - exists b. split; [done|]. intros e. rewrite elem_of_nil. tauto.
  - assert (Hb' : ∀ e m, <[v_epoch v := v_members v]> b !! e = Some m → m = f e).
    { intros e m [[<- <-]|[_ H]]%lookup_insert_Some; [apply Hv; set_solver|by apply Hb]. }
    destruct (IH (<[v_epoch v := v_members v]> b) ltac:(intros; apply Hv; set_solver) Hb') as (b' & Hby & Hdom).
    exists b'. split.
    + destruct (b !! v_epoch v) as [prev|] eqn:E; [|done].
      rewrite bool_decide_true; [done|]. rewrite (Hb _ _ E). symmetry. apply Hv. set_solver.
    + intros e. rewrite Hdom. set_solver.
Qed.

Lemma sorted_pair l (e : N) :
  NoDup l → StronglySorted N.le l → (∀ x, x ∈ l → x = e ∨ x = e + 1)%N →
  l = [] ∨ (∃ x, l = [x]) ∨ l = [e; e + 1]%N.
Proof.
  intros Hn Hs Hx. destruct l as [|a [|b l]]; [by left|by right; left; eexists|]. right; right.
  apply NoDup_cons in Hn as [Ha Hn]. apply NoDup_cons in Hn as [Hb Hn].
  inversion_clear Hs as [|? ? Hs' Hab]. inversion_clear Hs' as [|? ? _ Hbl].
  assert (Hle : (a ≤ b)%N) by (rewrite Forall_forall in Hab; apply Hab; set_solver).
  assert (a ≠ b) by set_solver.
  pose proof (Hx a ltac:(set_solver)) as HA. pose proof (Hx b ltac:(set_solver)) as HB.
  destruct l as [|x l]; [f_equal; [lia|f_equal; lia]|].
  exfalso. pose proof (Hx x ltac:(set_solver)). assert (x ≠ a) by set_solver. assert (x ≠ b) by set_solver. lia.
Qed.

(** Two states of one change at most: the views are read. *)
Lemma readViews_ok st S_ (l : list (N * nat)) (e : N) :
  states_ok l → pods_in l → (e + 1 < two64)%N →
  (∀ s, s ∈ l → s.1 = e ∨ s.1 = e + 1)%N → (∀ s t, s ∈ l → t ∈ l → s.1 = t.1 → s = t) →
  ∃ st', readViews obs cfg st S_ = inl (views_of (seq 0 S_), st').
Proof.
  intros Hl Hp He Hse Hinj. unfold readViews. rewrite (collect_views l) by done.
  set (f := λ x, match List.find (λ s : N * nat, (s.1 =? x)%N) l with Some s => M s.2 | None => ∅ end).
  destruct (by_epoch_agrees f (views_of (seq 0 S_)) ∅) as (b & -> & Hdom).
  { intros v (m & _ & Hm & -> & ->)%elem_of_views. destruct (Hp _ _ Hm) as (s & Hs & -> & ->).
    unfold f. destruct (List.find _ l) as [t|] eqn:Ef.
    - apply find_some in Ef as [Ht Et]. apply N.eqb_eq in Et. f_equal. f_equal. symmetry.
      apply Hinj; [by apply list_elem_of_In|done|done].
    - exfalso. eapply find_none in Ef; [|by apply list_elem_of_In, Hs]. simpl in Ef. apply N.eqb_neq in Ef. done. }
  { intros ? ? H. by rewrite lookup_empty in H. }
  destruct (sorted_pair (sorted_epochs b) e) as [E|[[x E]|E]]; [| | |rewrite E; eauto..|rewrite E].
  - unfold sorted_epochs. rewrite merge_sort_Permutation. apply NoDup_elements.
  - apply (StronglySorted_merge_sort N.le).
  - intros x Hx. unfold sorted_epochs in Hx. rewrite merge_sort_Permutation, elem_of_elements in Hx.
    apply Hdom in Hx as [Hx|Hx]; [set_solver|].
    apply list_elem_of_fmap in Hx as (v & -> & (m & _ & Hm & -> & _)%elem_of_views).
    destruct (Hp _ _ Hm) as (s & Hs & -> & _). auto.
  - rewrite u64_small, N.eqb_refl by lia. eauto.
Qed.

Definition v_one_of (l : list (N * nat)) (v : pview) : Prop := one_of l (v_epoch v) (v_members v).

Lemma allIn_Some vs l seen :
  allIn obs vs l = Some seen ↔
    (∀ v, v ∈ vs → v_one_of l v) ∧ seen = (λ v, (v_epoch v, size (v_members v))) <$> vs.
Proof.
  assert (Hone : ∀ v, v_one_of l v ↔
    ((v_epoch v, size (v_members v)) ∈ l ∧ v_members v = M (size (v_members v)))).
  { intros v. split.
    - intros ([e k] & Hs & -> & ->). simpl. by rewrite Members_size.
    - intros [Hin Hm]. exists (v_epoch v, size (v_members v)). done. }
  revert seen. induction vs as [|v vs IH]; intros seen; simpl.
  - split; [intros [= <-]; split; [set_solver|done]|intros [_ ->]; done].
  - destruct (bool_decide_reflect ((v_epoch v, size (v_members v)) ∈ l)) as [Hi|Hi],
      (bool_decide_reflect (v_members v = M (size (v_members v)))) as [Hm|Hm]; simpl;
      try (split; [done|]; intros [Ha _]; specialize (Ha v ltac:(set_solver)); by apply Hone in Ha as []).
    destruct (allIn obs vs l) as [seen'|] eqn:E.
    + destruct (proj1 (IH seen') eq_refl) as [Ha ->]. split.
      * intros [= <-]. split; [|done]. intros v' [->|?]%elem_of_cons; [by apply Hone|auto].
      * intros [_ ->]. done.
    + split; [done|]. intros [Ha _]. exfalso.
      enough (None = Some ((λ v, (v_epoch v, size (v_members v))) <$> vs)) by done.
      apply IH. split; [|done]. intros v' Hv'. apply Ha. set_solver.
Qed.

Lemma allIn_ok_true vs l : allIn_ok obs vs l = true ↔ ∀ v, v ∈ vs → v_one_of l v.
Proof.
  unfold allIn_ok. destruct (allIn obs vs l) as [seen|] eqn:E.
  - apply allIn_Some in E as [H _]. done.
  - split; [done|]. intros H. exfalso.
    enough (None = Some ((λ v, (v_epoch v, size (v_members v))) <$> vs)) by done.
    rewrite <-E. by apply allIn_Some.
Qed.

Lemma allIn_seen_true vs l s :
  allIn_seen obs vs l s = true ↔ (∀ v, v ∈ vs → v_one_of l v) ∧ ∃ v, v ∈ vs ∧ state_of s (v_epoch v) (v_members v).
Proof.
  unfold allIn_seen. destruct (allIn obs vs l) as [seen|] eqn:E.
  - apply allIn_Some in E as [H ->]. rewrite bool_decide_eq_true, list_elem_of_fmap. split.
    + intros (v & -> & Hv). split; [done|]. exists v. split; [done|]. split; [done|].
      destruct (H v Hv) as ([e k] & _ & _ & Hm). simpl in *. rewrite Hm at 1. by rewrite Hm, Members_size.
    + intros [_ (v & Hv & Hs1 & Hs2)]. exists v. split; [|done]. destruct s as [e k]; simpl in *.
      by rewrite Hs1, Hs2, Members_size.
  - split; [done|]. intros [H _]. apply allIn_ok_true in H. unfold allIn_ok in H. by rewrite E in H.
Qed.

Lemma views_one_of l S_ v : pods_in l → v ∈ views_of (seq 0 S_) → v_one_of l v.
Proof. intros Hp (m & _ & Hm & He & Hv)%elem_of_views. unfold v_one_of. rewrite He, Hv. by apply (Hp _ _ Hm). Qed.
End reading.

(** ** What [Plan] answers at each step *)

(** The reasons of a state that no step produces, on which the operator does nothing. *)
Definition refusal (r : reason) : bool :=
  match r with
  | ConfigMapMissing | ConfigMapUnexpected | AddressMismatch | MembershipConflict | UnexplainedDivergence => true
  | _ => false
  end.
Definition explained (st : Status) : Prop := ∃ r, st_Reason st = Some r ∧ refusal r = false.

(** The planner answers, with a state it knows, and waits or acts as [P] says. *)
Definition outcome (d : option (Action * Status)) (P : Action → Prop) : Prop :=
  ∃ a st, d = Some (a, st) ∧ explained st ∧ (is_wait a = true ∨ P a).

Lemma outcome_wait st phase r after (P : Action → Prop) : refusal r = false → outcome (Some (wait st phase r after)) P.
Proof. intros Hr. do 2 eexists. split; [reflexivity|]. split; [by exists r|by left]. Qed.

Lemma outcome_act st a phase r (P : Action → Prop) : refusal r = false → P a → outcome (Some (act st a phase r)) P.
Proof. intros Hr Ha. do 2 eexists. split; [reflexivity|]. split; [by exists r|by right]. Qed.

Lemma outcome_impl d (P Q : Action → Prop) : (∀ a, P a → Q a) → outcome d P → outcome d Q.
Proof. intros H (a & st & ? & ? & [?|?]); exists a, st; auto. Qed.

#[export] Hint Resolve outcome_wait outcome_act : kv.

Section outcomes.
Context (obs : Observation) (cfg : Config).

Notation M := (Members (kv obs)).

Lemma pod_in_Pods i m : pod_Membership (pod obs i) = Some m → ∃ p, Pods obs !! i = Some p ∧ pod_Membership p = Some m.
Proof. unfold pod. destruct (Pods obs !! i) as [p|]; [eauto|done]. Qed.

Lemma viewAt_spec e mm :
  (∀ i m, pod_Membership (pod obs i) = Some m → m_Epoch m = e → m_Members m = mm) →
  (∃ i m, pod_Membership (pod obs i) = Some m ∧ m_Epoch m = e) → viewAt obs e = Some mm.
Proof.
  intros Hall (i & m & Hm & He). unfold viewAt. apply pod_in_Pods in Hm as (p & Hp & Hm).
  destruct (List.find _ (Pods obs)) as [q|] eqn:Ef; simpl.
  - apply find_some in Ef as [Hq Eq]. apply list_elem_of_In, list_elem_of_lookup in Hq as [j Hj].
    destruct (pod_Membership q) as [mq|] eqn:Emq; [|done]. simpl. f_equal. apply (Hall j); [|by apply N.eqb_eq].
    unfold pod. by rewrite Hj.
  - exfalso. eapply find_none in Ef; [|by apply list_elem_of_In; eapply list_elem_of_lookup_2, Hp].
    simpl in Ef. rewrite Hm in Ef. apply N.eqb_neq in Ef. done.
Qed.

(** Every pod below [k] answers [(e, k)] with its handoff done, and nothing is left above. *)
Definition at_rest (e : N) (k : nat) : Prop :=
  (∀ i, i < k → healthy (pod obs i) = true ∧ ∃ m, pod_Membership (pod obs i) = Some m ∧
     state_of obs (e, k) (m_Epoch m) (m_Members m) ∧ (e ≤ h_Epoch m)%N ∧ h_Done m = true) ∧
  ∀ i, k ≤ i → i ∉ PVCs obs.

Inductive next_change (e : N) (k : nat) : Action → Prop :=
  | next_none : spec_Replicas (kv obs) = k → next_change e k (ActNone (Idle cfg))
  | next_template : next_change e k (ActUpdateTemplate k)
  | next_up : k < spec_Replicas (kv obs) → next_change e k (ActWriteConfigMap (e + 1) (M (S k)))
  | next_down : spec_Replicas (kv obs) < k → next_change e k (ActPostMembership 0 (e + 1) (M (k - 1))).

Lemma healthy_reachable p : healthy p = true → ∃ m, pod_Membership p = Some m.
Proof. unfold healthy, reachable. destruct (pod_Membership p); [eauto|]. by rewrite andb_false_r. Qed.

Lemma forallb_false {A} (f : A → bool) l : forallb f l = false → ∃ x, x ∈ l ∧ f x = false.
Proof.
  induction l as [|x l IH]; simpl; [done|]. destruct (f x) eqn:E; simpl.
  - intros (y & ? & ?)%IH. exists y. set_solver.
  - intros _. exists x. set_solver.
Qed.

Lemma converged_outcome st e k cm sts :
  0 < k → cm_Epoch cm = e → (e + 1 < two64)%N →
  (∀ v, v ∈ views_of obs (seq 0 k) → v_one_of obs [(e, k)] v) →
  (∀ i m, pod_Membership (pod obs i) = Some m → m_Epoch m = e → m_Members m = M k) →
  outcome (converged obs cfg st k cm sts (views_of obs (seq 0 k))) (λ a, at_rest e k ∧ next_change e k a).
Proof.
  intros Hk He Hb Hv Hat. unfold converged.
  destruct (existsb (λ p, _) (Pods obs)) eqn:E1; [auto with kv|].
  destruct (existsb _ (PVCs obs)) eqn:E2; [auto with kv|].
  destruct (existsb (λ v, _) (views_of _ _)) eqn:E3; [auto with kv|].
  destruct (forallb _ (seq 0 k)) eqn:E4; simpl; [|auto with kv].
  destruct (negb (RolledOut sts) || (ReadyReplicas sts <? k)) eqn:E5; [auto with kv|].
  assert (Hrest : at_rest e k).
  { split.
    - intros i Hi. assert (Hh : healthy (pod obs i) = true).
      { apply (proj1 (forallb_forall _ _) E4), in_seq. lia. }
      split; [done|]. destruct (healthy_reachable _ Hh) as [m Hm]. exists m. split; [done|].
      set (v := mkPView i (m_Epoch m) (m_Members m)).
      assert (Hin : v ∈ views_of obs (seq 0 k)).
      { apply elem_of_views. exists m. split; [apply elem_of_seq; simpl; lia|auto]. }
      split.
      { destruct (Hv v Hin) as (s & Hs & Hst). apply list_elem_of_singleton in Hs as ->. done. }
      rewrite existsb_false in E3. specialize (E3 v Hin). simpl in E3. rewrite Hm in E3.
      apply orb_false_iff in E3 as [E3 E3']. apply N.ltb_ge in E3. apply negb_false_iff in E3'. by subst e.
    - intros i Hi Hin. rewrite existsb_false in E2. specialize (E2 i Hin). simpl in E2. apply Nat.leb_gt in E2. lia. }
  destruct (TemplateCurrent sts); simpl; [|apply outcome_act; [done|split; [done|constructor]]].
  destruct (proj1 Hrest 0 Hk) as (_ & m0 & Hm0 & Hs0 & _).
  destruct (Nat.ltb_spec k (spec_Replicas (kv obs))) as [Hup|Hup].
  - destruct (ordinalTaken obs k); [auto with kv|]. rewrite He, (viewAt_spec e (M k)); [|done|by exists 0, m0; destruct Hs0].
    apply outcome_act; [done|]. split; [done|]. rewrite u64_small by done. change (<[_:=_]> (M k)) with (M (S k)).
    by constructor.
  - destruct (Nat.ltb_spec (spec_Replicas (kv obs)) k) as [Hdn|Hdn].
    + rewrite Hm0. apply outcome_act; [done|]. split; [done|]. destruct Hs0 as [_ ->]. simpl. rewrite He, u64_small by done.
      replace (M k) with (M (S (k - 1))) by (f_equal; lia). rewrite Members_delete. by constructor.
    + do 2 eexists. split; [reflexivity|]. split; [by exists ReadyReason|]. right. split; [done|]. constructor. lia.
Qed.

(** [unavailable] may turn a step into waiting, and nothing else does. *)
Lemma plan_outcome cm sts c (l : list (N * nat)) e (P : Action → Prop) :
  ConfigMap obs = Some cm → cm_Invalid cm = false → cm_Members cm = M c → int_ok c → StatefulSet obs = Some sts →
  states_ok l → pods_in obs l → (e + 1 < two64)%N →
  (∀ s, s ∈ l → s.1 = e ∨ s.1 = e + 1)%N → (∀ s t, s ∈ l → t ∈ l → s.1 = t.1 → s = t) →
  (∀ st, ∃ d ex, classify obs cfg st (Replicas sts) c cm sts (views_of obs (seq 0 (Replicas sts))) = Some (d, ex, true) ∧
                 outcome (Some d) P) →
  outcome (Plan obs cfg) P.
Proof.
  intros Hcm Hinv Hmem Hc Hsts Hl Hp Hb He Hinj Hcl. unfold Plan, plan, bootstrap. rewrite Hcm, Hsts, Hinv, Hmem.
  rewrite validMembers_Members by done. simpl.
  destruct (readViews_ok obs cfg (mkStatus "" None 0 ∅ (Replicas sts) (ReadyReplicas sts) None) (Replicas sts) l e) as (st & ->); try done.
  destruct (Hcl st) as ([a st'] & ex & -> & (a' & st'' & [= <- <-] & (r & Hr & Hr') & Ha)). simpl.
  unfold unavailable. destruct (existsb _ _).
  - unfold degraded. by apply outcome_wait.
  - do 2 eexists. split; [reflexivity|]. split; [|done]. exists r. destruct (is_wait a); done.
Qed.

Lemma one_of_pair (vs : list pview) s t :
  (∀ v, v ∈ vs → v_one_of obs [s; t] v) →
  (∀ v, v ∈ vs → v_one_of obs [s] v) ∨ ∃ v, v ∈ vs ∧ state_of obs t (v_epoch v) (v_members v).
Proof.
  induction vs as [|v vs IH]; intros H; [left; set_solver|].
  destruct IH as [Hs|(w & Hw & Ht)]; [intros; apply H; set_solver| |right; exists w; set_solver].
  destruct (H v ltac:(set_solver)) as (x & Hx & Hxv).
  apply elem_of_cons in Hx as [->|Hx]; [|apply list_elem_of_singleton in Hx as ->; right; exists v; set_solver].
  left. intros w [->|Hw]%elem_of_cons; [exists s; set_solver|auto].
Qed.

Lemma v_one_of_weaken l l' v : l ⊆ l' → v_one_of obs l v → v_one_of obs l' v.
Proof. intros Hl (s & Hs & H). exists s. auto. Qed.

Lemma one_of_swap s t v : v_one_of obs [s; t] v → v_one_of obs [t; s] v.
Proof. apply v_one_of_weaken. set_solver. Qed.

Lemma scaleUp_outcome st k : outcome (Some (scaleUp obs cfg st k)) (λ a, a = ActScaleStatefulSet (S k) ∧ k ∉ PVCs obs).
Proof.
  unfold scaleUp. destruct (forallb _ _); simpl; [|auto with kv].
  unfold ordinalTaken, hasPVC. destruct (bool_decide_reflect (k ∈ PVCs obs)); [rewrite orb_true_r; auto with kv|].
  destruct (Exists _); simpl; [auto with kv|]. apply outcome_act; [done|]. split; [|done]. f_equal. lia.
Qed.

Lemma pred64_succ E : (E + 1 < two64)%N → pred64 (E + 1) = E.
Proof.
  intros H. unfold pred64, u64. replace (E + 1 + two64 - 1)%N with (E + 1 * two64)%N by lia.
  rewrite N.Div0.mod_add. apply N.mod_small. lia.
Qed.

Lemma classify_U1 st E k cm sts (vs : list pview) :
  (E + 1 < two64)%N → cm_Epoch cm = (E + 1)%N → (∀ v, v ∈ vs → v_one_of obs [(E, k); (E + 1, S k)%N] v) →
  ∃ d ex, classify obs cfg st k (S k) cm sts vs = Some (d, ex, true) ∧
          outcome (Some d) (λ a, a = ActScaleStatefulSet (S k) ∧ k ∉ PVCs obs).
Proof.
  intros Hb He Hv. unfold classify. rewrite (proj2 (Nat.eqb_eq (S k) (k + 1))) by lia. rewrite He.
  rewrite (proj2 (N.leb_le 1 (E + 1))) by lia. rewrite pred64_succ by done. replace (k + 1) with (S k) by lia.
  rewrite (proj2 (allIn_ok_true obs vs _)).
  - do 2 eexists. split; [done|]. apply scaleUp_outcome.
  - intros v Hin. by apply one_of_swap, Hv.
Qed.

Lemma classify_U3 st E k cm sts :
  let vs := views_of obs (seq 0 (S k)) in
  (E + 1 + 1 < two64)%N → cm_Epoch cm = (E + 1)%N → pods_in obs [(E, k); (E + 1, S k)%N] →
  ∃ d ex, classify obs cfg st (S k) (S k) cm sts vs = Some (d, ex, true) ∧
          outcome (Some d) (λ a, at_rest (E + 1) (S k) ∧ next_change (E + 1) (S k) a).
Proof.
  intros vs Hb He Hp. assert (Hv : ∀ v, v ∈ vs → v_one_of obs [(E, k); (E + 1, S k)%N] v) by (intros; by eapply views_one_of).
  unfold classify. rewrite (proj2 (Nat.eqb_neq (S k) (S k + 1))) by lia. rewrite Nat.eqb_refl, He.
  destruct (one_of_pair vs (E + 1, S k)%N (E, k)) as [Hall|Hlow]; [intros; by apply one_of_swap, Hv| |].
  - rewrite (proj2 (allIn_ok_true obs vs _) Hall).
    destruct (converged_outcome st (E + 1) (S k) cm sts) as (a & st' & Hc & Ho); [lia|done|done|done| |].
    { intros i m Hm Hme. destruct (Hp _ _ Hm) as (s & Hs & Hse & Hsm). rewrite Hsm.
      apply elem_of_cons in Hs as [->|Hs]; simpl in *; [lia|]. by apply list_elem_of_singleton in Hs as ->. }
    subst vs. rewrite Hc. do 2 eexists. split; [done|]. exists a, st'. done.
  - assert (Hseen : allIn_seen obs vs [(E, k); (E + 1, S k)%N] (E, k) = true) by (by apply allIn_seen_true).
    destruct (allIn_ok obs vs [((E + 1)%N, S k)]) eqn:Eok.
    + exfalso. rewrite allIn_ok_true in Eok. destruct Hlow as (v & Hin & Hs & _).
      destruct (Eok v Hin) as (s & Hs' & Hse & _). apply list_elem_of_singleton in Hs' as ->. simpl in *. lia.
    + rewrite pred64_succ by lia. replace (S k - 1) with k by lia. rewrite Hseen.
      rewrite (proj2 (N.leb_le 1 (E + 1))) by lia. do 2 eexists. split; [done|]. by apply outcome_wait.
Qed.

(** The pod that leaves says it has drained, at the epoch it holds. *)
Definition says_drained (e : N) (k : nat) : Prop :=
  ∃ d m, Drain (pod obs k) = Some d ∧ d_Drained d = true ∧ d_Epoch d = e ∧
         pod_Membership (pod obs k) = Some m ∧ m_Epoch m = e.

Lemma drain_outcome st E k :
  (∀ i m, pod_Membership (pod obs i) = Some m → m_Epoch m = E → m_Members m = M k) →
  outcome (Some (drain obs cfg st (S k) E)) (λ a, a = ActWriteConfigMap E (M k) ∧ says_drained E k).
Proof.
  intros Hall. unfold drain. replace (S k - 1) with k by lia. set (started := default (Now obs) _).
  assert (Hblocked : ∀ b : bool, outcome (Some (if b then wait (set_started st (Some started)) PhaseDrainBlocked DrainBlocked (Slow cfg)
                        else wait (set_started st (Some started)) PhaseScaling Draining (Slow cfg)))
                      (λ a, a = ActWriteConfigMap E (M k) ∧ says_drained E k)) by (intros []; auto with kv).
  destruct (Drain (pod obs k)) as [d|] eqn:Ed; [|apply Hblocked].
  destruct (pod_Membership (pod obs k)) as [m|] eqn:Em; [|apply Hblocked].
  destruct ((d_Epoch d =? E)%N && d_Drained d && (m_Epoch m =? E)%N) eqn:Eb; [|apply Hblocked].
  apply andb_prop in Eb as [Eb Eb3]. apply andb_prop in Eb as [Eb1 Eb2]. apply N.eqb_eq in Eb1, Eb3.
  rewrite (viewAt_spec E (M k)); [|done|by exists k, m]. apply outcome_act; [done|]. split; [done|]. by exists d, m.
Qed.

Lemma classify_D2 st E k cm sts :
  let vs := views_of obs (seq 0 (S k)) in
  (E + 2 < two64)%N → cm_Epoch cm = E → pods_in obs [(E, S k); (E + 1, k)%N] →
  ∃ d ex, classify obs cfg st (S k) (S k) cm sts vs = Some (d, ex, true) ∧
          outcome (Some d) (λ a, (at_rest E (S k) ∧ next_change E (S k) a) ∨
                                 (a = ActWriteConfigMap (E + 1) (M k) ∧ says_drained (E + 1) k)).
Proof.
  intros vs Hb He Hp. assert (Hv : ∀ v, v ∈ vs → v_one_of obs [(E, S k); (E + 1, k)%N] v) by (intros; by eapply views_one_of).
  unfold classify. rewrite (proj2 (Nat.eqb_neq (S k) (S k + 1))) by lia. rewrite Nat.eqb_refl, He.
  destruct (one_of_pair vs _ _ Hv) as [Hall|Hhigh].
  - rewrite (proj2 (allIn_ok_true obs vs _) Hall).
    destruct (converged_outcome st E (S k) cm sts) as (a & st' & Hc & Hx & Ho); [lia|done|lia|done| |].
    { intros i m Hm Hme. destruct (Hp _ _ Hm) as (s & Hs & Hse & Hsm). rewrite Hsm.
      apply elem_of_cons in Hs as [->|Hs]; simpl in *; [done|]. apply list_elem_of_singleton in Hs as ->. simpl in *. lia. }
    subst vs. rewrite Hc. do 2 eexists. split; [done|]. exists a, st'. split; [done|]. split; [done|]. tauto.
  - pose proof Hhigh as (v & Hin & Hve & _). simpl in Hve.
    rewrite (u64_small (E + 1)) by lia. replace (S k - 1) with k by lia.
    rewrite (proj2 (allIn_seen_true obs vs [(E, S k); (E + 1, k)%N] (E + 1, k)%N) (conj Hv Hhigh)).
    destruct (allIn_ok obs vs [(E, S k)]) eqn:E1.
    { exfalso. rewrite allIn_ok_true in E1. destruct (E1 v Hin) as (s & Hs & Hse & _).
      apply list_elem_of_singleton in Hs as ->. simpl in *. lia. }
    destruct ((1 <=? E)%N && allIn_seen obs vs [(pred64 E, k); (E, S k)] (pred64 E, k)) eqn:E2.
    { exfalso. apply andb_prop in E2 as [E2 E2']. apply N.leb_le in E2. apply allIn_seen_true in E2' as [E2' _].
      destruct (E2' v Hin) as (s & Hs & Hse & _). replace E with (E - 1 + 1)%N in Hs by lia. rewrite pred64_succ in Hs by lia.
      apply elem_of_cons in Hs as [->|Hs]; [simpl in *; lia|]. apply list_elem_of_singleton in Hs as ->. simpl in *. lia. }
    do 2 eexists. split; [done|]. eapply outcome_impl; [|apply drain_outcome]; [by right|].
    intros i m Hm Hme. destruct (Hp _ _ Hm) as (s & Hs & Hse & Hsm). rewrite Hsm.
    apply elem_of_cons in Hs as [->|Hs]; [simpl in *; lia|]. by apply list_elem_of_singleton in Hs as ->.
Qed.

Lemma classify_D3 st E k cm sts (vs : list pview) :
  cm_Epoch cm = E → (∀ v, v ∈ vs → v_one_of obs [(E, k)] v) →
  ∃ d ex, classify obs cfg st (S k) k cm sts vs = Some (d, ex, true) ∧ outcome (Some d) (λ a, a = ActScaleStatefulSet k).
Proof.
  intros He Hv. unfold classify. rewrite (proj2 (Nat.eqb_neq k (S k + 1))), (proj2 (Nat.eqb_neq k (S k))) by lia.
  rewrite (proj2 (Nat.eqb_eq k (S k - 1))), He by lia. rewrite (proj2 (allIn_ok_true obs vs _) Hv).
  do 2 eexists. split; [done|]. by apply outcome_act.
Qed.
End outcomes.
