(* ===== verification/Operator.v ===== *)
(** * The operator and the cluster it runs (operator/internal/controller, planner)

    The planner's decisions carried out against a cluster that moves on its
    own: pods are created and start with the ConfigMap's membership, restart,
    learn newer memberships from each other, finish handoffs; volumes of
    removed pods are deleted; the spec changes.  The operator acts on what it
    observes, which may miss any pod that does not answer.

    Shown: the operator never leads the cluster into a state it refuses to act
    on, never removes a pod before it has drained, and can always reach what
    the spec asks for. *)

From stdpp Require Import gmap strings list.
From Stdlib Require Import ZArith Lia.
From S2P Require Import Prelude GoLib GoStrings Planner.

Open Scope nat_scope.

(** ** The cluster *)

(** A node's persisted membership, and the epoch its last complete handoff was for. *)
Record nodev := mkNode { n_epoch : N; n_members : gmap string string; n_done : N }.

(** The spec's replicas, the ConfigMap, the StatefulSet's replicas, the nodes'
    state on the volumes of the pods' ordinals, the volumes. *)
Record world := mkWorld {
  w_spec : nat; w_cm : option (N * gmap string string); w_sts : option nat;
  w_node : gmap nat nodev; w_pvc : gset nat
}.

Definition set_spec (w : world) (n : nat) : world := mkWorld n (w_cm w) (w_sts w) (w_node w) (w_pvc w).
Definition set_cm (w : world) (e : N) (m : gmap string string) : world :=
  mkWorld (w_spec w) (Some (e, m)) (w_sts w) (w_node w) (w_pvc w).
Definition set_sts (w : world) (r : nat) : world := mkWorld (w_spec w) (w_cm w) (Some r) (w_node w) (w_pvc w).
Definition set_node (w : world) (i : nat) (v : nodev) : world :=
  mkWorld (w_spec w) (w_cm w) (w_sts w) (<[i := v]> (w_node w)) (w_pvc w).
Definition claim (w : world) (i : nat) : world := mkWorld (w_spec w) (w_cm w) (w_sts w) (w_node w) ({[i]} ∪ w_pvc w).
Definition release (w : world) (i : nat) : world :=
  mkWorld (w_spec w) (w_cm w) (w_sts w) (delete i (w_node w)) (w_pvc w ∖ {[i]}).

Section operator.
Context (c0 : KVCluster).

Notation M := (Members c0).

(** [execute]: one action.  [None] is an error: the renderer or the node refuses. *)
Definition execute (a : Action) (w : world) : option world :=
  match a with
  | ActNone _ | ActWait _ => Some w
  | ActWriteConfigMap e m => if render_check c0 m then Some (set_cm w e m) else None
  | ActScaleStatefulSet r | ActUpdateTemplate r => Some (set_sts w r)
  | ActPostMembership i e m =>
      match w_node w !! i with
      | Some v => if (n_epoch v <? e)%N && (spec_N c0 <=? size m) then Some (set_node w i (mkNode e m (n_done v))) else None
      | None => None
      end
  end.

(** ** What the operator observes *)

(** A removed node answers that it has drained once its own handoff is done and
    every member of its membership has been seen at its epoch. *)
Definition drained_at (w : world) (i : nat) (e : N) : Prop :=
  ∃ v, w_node w !! i = Some v ∧ (e ≤ n_done v)%N ∧
    ∀ j, MemberID c0 j ∈ dom (n_members v) → j ≠ i → ∃ u, w_node w !! j = Some u ∧ (e ≤ n_epoch u)%N.

Definition pod_truth (w : world) (i : nat) (p : PodObs) : Prop :=
  (∀ m, pod_Membership p = Some m → ∃ v, w_node w !! i = Some v ∧ m_Epoch m = n_epoch v ∧ m_Members m = n_members v ∧
     (h_Done m = true → (h_Epoch m ≤ n_done v)%N)) ∧
  (∀ d, Drain p = Some d → d_Drained d = true → drained_at w i (d_Epoch d)).

Record observes (w : world) (obs : Observation) : Prop := {
  obs_name : Name (Cluster obs) = Name c0 ∧ Namespace (Cluster obs) = Namespace c0;
  obs_spec : spec_Replicas (Cluster obs) = w_spec w;
  obs_cm : match w_cm w, ConfigMap obs with
           | Some (e, m), Some cm => cm_Epoch cm = e ∧ cm_Members cm = m ∧ cm_Invalid cm = false
           | None, None => True
           | _, _ => False
           end;
  obs_sts : Replicas <$> StatefulSet obs = w_sts w;
  obs_pvcs : ∀ i, i ∈ PVCs obs ↔ i ∈ w_pvc w;
  obs_pods : ∀ i p, Pods obs !! i = Some p → pod_truth w i p
}.

(** ** Steps *)

(** Replicas fit an [int32], and the API server admits at least one, and at least [N]. *)
Definition rep_ok (k : nat) : Prop := (N.of_nat k ≤ 2147483647)%N.
Definition spec_ok (n : nat) : Prop := 1 ≤ n ∧ spec_N c0 ≤ n ∧ rep_ok n.

Lemma rep_ok_S k : rep_ok (S k) → rep_ok k.
Proof. unfold rep_ok. lia. Qed.

Inductive env : world → world → Prop :=
  | env_spec w n : spec_ok n → env w (set_spec w n)
  | env_claim w i r : w_sts w = Some r → i < r → env w (claim w i)
  | env_start w i r e m d :
      w_sts w = Some r → i < r → w_cm w = Some (e, m) → MemberID c0 i ∈ dom m → i ∈ w_pvc w →
      match w_node w !! i with Some v => n_epoch v < e ∧ d = n_done v | None => d ≤ e end%N →
      env w (set_node w i (mkNode e m d))
  | env_gossip w i j v u :
      w_node w !! i = Some v → w_node w !! j = Some u → (n_epoch u < n_epoch v)%N →
      env w (set_node w j (mkNode (n_epoch v) (n_members v) (n_done u)))
  | env_handoff w i v : w_node w !! i = Some v → env w (set_node w i (mkNode (n_epoch v) (n_members v) (n_epoch v)))
  | env_release w i r : w_sts w = Some r → r ≤ i → env w (release w i).

(** The epochs are far from the end of their range. *)
Definition room (w : world) : Prop := match w_cm w with Some (e, _) => (e + 3 < two64)%N | None => True end.

Inductive step : world → world → Prop :=
  | step_env w w' : env w w' → step w w'
  | step_operator w obs cfg a st w' :
      observes w obs → room w → Plan obs cfg = Some (a, st) → execute a w = Some w' → step w w'.

Definition init (n : nat) : world := mkWorld n None None ∅ ∅.

Inductive reachable_world : world → Prop :=
  | rw_init n : spec_ok n → reachable_world (init n)
  | rw_step w w' : reachable_world w → step w w' → reachable_world w'.

(** ** The phases of a membership change *)

(** Every node holds one of the memberships [(e, k)]. *)
Definition in_states (w : world) (l : list (N * nat)) : Prop :=
  ∀ i v, w_node w !! i = Some v → ∃ s, s ∈ l ∧ n_epoch v = s.1 ∧ n_members v = M s.2.

Inductive phase (w : world) : Prop :=
  | ph_boot0 : w_cm w = None → w_sts w = None → w_node w = ∅ → phase w
  | ph_boot1 k : w_cm w = Some (0%N, M k) → w_sts w = None → w_node w = ∅ → spec_ok k → phase w
  | ph_steady E k :
      w_cm w = Some (E, M k) → w_sts w = Some k → in_states w [(E, k)] → spec_ok k → (E + 2 < two64)%N → phase w
  | ph_U1 E k :
      w_cm w = Some (E + 1, M (S k))%N → w_sts w = Some k → in_states w [(E, k); (E + 1, S k)%N] →
      spec_ok k → rep_ok (S k) → (E + 3 < two64)%N → phase w
  | ph_U3 E k :
      w_cm w = Some (E + 1, M (S k))%N → w_sts w = Some (S k) → in_states w [(E, k); (E + 1, S k)%N] →
      spec_ok k → rep_ok (S k) → (E + 3 < two64)%N → phase w
  | ph_D2 E k :
      w_cm w = Some (E, M (S k)) → w_sts w = Some (S k) → in_states w [(E, S k); (E + 1, k)%N] →
      (∀ i, S k ≤ i → w_node w !! i = None) → spec_ok k → rep_ok (S k) → (E + 3 < two64)%N → phase w
  | ph_D3 E k :
      w_cm w = Some (E + 1, M k)%N → w_sts w = Some (S k) → in_states w [(E + 1, k)%N] →
      (∀ i, i < S k → ∃ v, w_node w !! i = Some v) → (∃ v, w_node w !! k = Some v ∧ (E + 1 ≤ n_done v)%N) →
      spec_ok k → rep_ok (S k) → (E + 3 < two64)%N → phase w.

Record inv (w : world) : Prop := {
  inv_spec : spec_ok (w_spec w);
  inv_pvc : dom (w_node w) ⊆ w_pvc w;
  inv_phase : phase w
}.

Lemma in_states_set w l i v :
  in_states w l → (∃ s, s ∈ l ∧ n_epoch v = s.1 ∧ n_members v = M s.2) → in_states (set_node w i v) l.
Proof. intros Hl Hv j u Hj. simpl in Hj. apply lookup_insert_Some in Hj as [[<- <-]|[_ Hj]]; [done|]. by apply (Hl j). Qed.

Lemma in_states_mono w w' l : w_node w' ⊆ w_node w → in_states w l → in_states w' l.
Proof. intros Hs Hl i v Hi. eapply Hl, lookup_weaken, Hs. exact Hi. Qed.

Lemma in_states_one w e k i v : in_states w [(e, k)] → w_node w !! i = Some v → n_epoch v = e ∧ n_members v = M k.
Proof. intros Hl Hi. destruct (Hl i v Hi) as (s & Hs & H). by apply list_elem_of_singleton in Hs as ->. Qed.

(** A node takes over a membership of the phase.  While a drained pod awaits
    its removal no node has anything left to take over. *)
Lemma phase_take w i v :
  phase w → is_Some (w_node w !! i) ∨ (∃ r, w_sts w = Some r ∧ i < r) →
  (∀ l, in_states w l → (∀ e m, w_cm w = Some (e, m) → ∃ s, s ∈ l ∧ e = s.1 ∧ m = M s.2) →
        ∃ s, s ∈ l ∧ n_epoch v = s.1 ∧ n_members v = M s.2) →
  match w_node w !! i with Some u => n_epoch u < n_epoch v ∨ n_done v = n_epoch u | None => True end%N →
  phase (set_node w i v).
Proof.
  intros Hph Hlive Hv Hu.
  assert (Hs : ∀ l e m s, in_states w l → w_cm w = Some (e, m) → s ∈ l → e = s.1 → m = M s.2 → in_states (set_node w i v) l).
  { intros l e m s Hl Hcm Hin He Hm. apply in_states_set; [done|]. apply Hv; [done|].
    intros e' m' Hcm'. rewrite Hcm in Hcm'. injection Hcm' as <- <-. eauto. }
  destruct Hph as [H1 H2 H3|k H1 H2 H3|E k H1 H2 H3|E k H1 H2 H3|E k H1 H2 H3|E k H1 H2 H3 H4|E k H1 H2 H3 Hall (u & Hk & Hd)].
  - exfalso. destruct Hlive as [[? H]|(r & H & _)]; [by rewrite H3, lookup_empty in H|congruence].
  - exfalso. destruct Hlive as [[? H']|(r & H' & _)]; [by rewrite H3, lookup_empty in H'|congruence].
  - apply (ph_steady _ E k); try done. by eapply (Hs _ _ _ (E, k)); [|done|set_solver|..].
  - apply (ph_U1 _ E k); try done. by eapply (Hs _ _ _ (E + 1, S k)%N); [|done|set_solver|..].
  - apply (ph_U3 _ E k); try done. by eapply (Hs _ _ _ (E + 1, S k)%N); [|done|set_solver|..].
  - apply (ph_D2 _ E k); try done; [by eapply (Hs _ _ _ (E, S k)); [|done|set_solver|..]|].
    intros j Hj. simpl. rewrite lookup_insert_ne; [auto|]. intros <-.
    destruct Hlive as [[? Hx]|(r & Hx & ?)]; [by rewrite H4 in Hx|]. assert (r = S k) by congruence. lia.
  - apply (ph_D3 _ E k); try done.
    + by eapply (Hs _ _ _ (E + 1, k)%N); [|done|set_solver|..].
    + intros j Hj. simpl. destruct (decide (i = j)) as [->|Hne]; [rewrite lookup_insert_eq; eauto|].
      rewrite lookup_insert_ne by done. auto.
    + simpl. destruct (decide (i = k)) as [->|Hne]; [|rewrite lookup_insert_ne by done; eauto].
      rewrite lookup_insert_eq. exists v. split; [done|]. rewrite Hk in Hu.
      destruct (in_states_one _ _ _ _ _ H3 Hk) as [Hue _].
      destruct (Hv [(E + 1, k)%N] H3) as (s & Hs' & Hve & _).
      { intros e m Hcm. rewrite H1 in Hcm. injection Hcm as <- <-. eexists. split; [by left|done]. }
      apply list_elem_of_singleton in Hs' as ->. simpl in Hve. destruct Hu; lia.
Qed.

Lemma phase_frame w w' :
  w_cm w' = w_cm w → w_sts w' = w_sts w → w_node w' = w_node w → phase w → phase w'.
Proof.
  intros Hc Hs Hn Hph.
  assert (Hin : ∀ l, in_states w l → in_states w' l) by (intros l; unfold in_states; by rewrite Hn).
  destruct Hph; [eapply ph_boot0|eapply ph_boot1|eapply ph_steady|eapply ph_U1|eapply ph_U3|eapply ph_D2|eapply ph_D3];
    rewrite ?Hc, ?Hs, ?Hn; eauto.
Qed.

Lemma env_inv w w' : env w w' → inv w → inv w'.
Proof.
  intros Henv [Hspec Hpvc Hph]. destruct Henv as [w n Hn|w i r Hr Hi|w i r e m d Hr Hi Hcm Hmem Hp Hold|w i j v u Hv Hu Hlt|w i v Hv|w i r Hr Hi].
  - split; [done|done|by eapply phase_frame, Hph].
  - split; [done|simpl; set_solver|by eapply phase_frame, Hph].
  - split; [done|simpl; set_solver|]. apply phase_take; [done|right; eauto| |].
    + intros l Hl Hc. exact (Hc e m Hcm).
    + destruct (w_node w !! i); [by left; apply Hold|done].
  - split; [done|simpl; apply elem_of_dom_2 in Hu; set_solver|]. apply phase_take; [done|by left; eexists| |].
    + intros l Hl _. exact (Hl i v Hv).
    + rewrite Hu. by left.
  - split; [done|simpl; apply elem_of_dom_2 in Hv; set_solver|]. apply phase_take; [done|by left; eexists| |].
    + intros l Hl _. exact (Hl i v Hv).
    + rewrite Hv. by right.
  - split; [done|simpl; set_solver|].
    assert (Hin : ∀ l, in_states w l → in_states (release w i) l).
    { intros l. apply in_states_mono. apply delete_subseteq. }
    destruct Hph as [? ? Hn|? ? ? Hn| | | | |E k H1 H2 H3 Hall (u & Hk & Hd)];
      [congruence|congruence|eapply ph_steady; eauto|eapply ph_U1; eauto|eapply ph_U3; eauto|eapply ph_D2; eauto|].
    { intros j Hj. simpl. apply lookup_delete_None. auto. }
    rewrite H2 in Hr. injection Hr as <-. apply (ph_D3 _ E k); try done; [by apply Hin| |].
    + intros j Hj. simpl. rewrite lookup_delete_ne by lia. auto.
    + exists u. simpl. rewrite lookup_delete_ne by lia. done.
Qed.

(** ** What the operator does in each phase *)

Section observed.
Context (w : world) (obs : Observation) (cfg : Config) (Hobs : observes w obs).

Lemma kv_MemberID i : MemberID (kv obs) i = MemberID c0 i.
Proof. destruct (obs_name _ _ Hobs) as [Hn _]. unfold MemberID, kv. by rewrite Hn. Qed.

Lemma kv_Members k : Members (kv obs) k = M k.
Proof.
  destruct (obs_name _ _ Hobs) as [Hn Hns]. induction k as [|k IH]; [done|]. simpl. rewrite IH, kv_MemberID.
  unfold MemberAddress, PodHost, MemberID, kv. by rewrite Hn, Hns.
Qed.

Lemma pod_answers i m :
  pod_Membership (pod obs i) = Some m →
  ∃ v, w_node w !! i = Some v ∧ m_Epoch m = n_epoch v ∧ m_Members m = n_members v ∧
       (h_Done m = true → (h_Epoch m ≤ n_done v)%N).
Proof.
  intros (p & Hp & Hm)%pod_in_Pods. destruct (obs_pods _ _ Hobs i p Hp) as [H _]. auto.
Qed.

Lemma observed_pods_in l : in_states w l → pods_in obs l.
Proof.
  intros Hl i m (v & Hv & He & Hm & _)%pod_answers. destruct (Hl i v Hv) as (s & Hs & Hse & Hsm).
  exists s. split; [done|]. split; [congruence|]. rewrite kv_Members. congruence.
Qed.

(** Every pod holds the membership, and its handoff is complete. *)
Definition settled (E : N) (k : nat) : Prop :=
  w_cm w = Some (E, M k) ∧ w_sts w = Some k ∧
  (∀ i, i < k → ∃ v, w_node w !! i = Some v ∧ n_epoch v = E ∧ n_members v = M k ∧ (E ≤ n_done v)%N) ∧
  ∀ i, k ≤ i → w_node w !! i = None.

Definition holds (i : nat) (e : N) (k : nat) : Prop :=
  ∃ v, w_node w !! i = Some v ∧ n_epoch v = e ∧ n_members v = M k.

(** Pod [k] is outside the membership [(E, k)] that every pod holds, and has handed its data off. *)
Definition drained (E : N) (k : nat) : Prop :=
  w_cm w = Some (E, M k) ∧ (∀ i, i ≤ k → holds i E k) ∧ ∃ v, w_node w !! k = Some v ∧ (E ≤ n_done v)%N.

Lemma at_rest_settled E k :
  inv w → w_cm w = Some (E, M k) → w_sts w = Some k → at_rest obs E k → settled E k.
Proof.
  intros Hinv Hcm Hsts [Hpods Hpvc]. repeat split; [done|done| |].
  - intros i Hi. destruct (Hpods i Hi) as (_ & m & Hm & [He Hmm] & Hh & Hd). simpl in *.
    destruct (pod_answers i m Hm) as (v & Hv & E1 & E2 & E3). exists v. rewrite kv_Members in Hmm.
    repeat split; [done|congruence|congruence|]. specialize (E3 Hd). lia.
  - intros i Hi. apply not_elem_of_dom. intros Hin%(inv_pvc _ Hinv). apply (Hpvc i Hi), (obs_pvcs _ _ Hobs), Hin.
Qed.

Lemma settled_in_states E k : settled E k → in_states w [(E, k)].
Proof.
  intros (_ & _ & Hlow & Hhigh) i v Hi. destruct (decide (i < k)) as [Hik|Hik].
  - destruct (Hlow i Hik) as (v' & Hv' & He & Hm & _). exists (E, k). split; [by left|]. simpl. by simplify_map_eq.
  - rewrite Hhigh in Hi by lia. done.
Qed.

Definition starts_change (a : Action) : Prop :=
  match a with
  | ActPostMembership _ _ _ => True
  | ActWriteConfigMap e m => match w_cm w with Some (_, m0) => size m0 < size m | None => False end
  | _ => False
  end.
Definition removes_pod (a : Action) (k : nat) : Prop :=
  match a with
  | ActScaleStatefulSet r | ActUpdateTemplate r => r = k ∧ ∃ r0, w_sts w = Some r0 ∧ r < r0
  | _ => False
  end.

(** The action is carried out, keeps the invariant, starts a change only from a
    settled cluster and removes only a drained pod. *)
Definition good_action (a : Action) : Prop :=
  (∃ w', execute a w = Some w' ∧ (room w → inv w')) ∧
  (starts_change a → ∃ E k, settled E k) ∧ (∀ k, removes_pod a k → w_sts w = Some (S k) ∧ ∃ E, drained E k).

Lemma render_Members k : spec_ok k → render_check c0 (M k) = true.
Proof.
  intros (_ & Hn & Hr). unfold render_check. rewrite Members_size, (proj2 (Nat.leb_le _ _) Hn). simpl.
  apply Members_ok. unfold int_ok, rep_ok, max_int in *. lia.
Qed.

Lemma rest_good E k a :
  inv w → settled E k → spec_ok k → (E + 2 < two64)%N → next_change obs cfg E k a → good_action a.
Proof.
  intros Hinv Hset Hk Hb Ha. pose proof Hset as (Hcm & Hsts & Hlow & Hhigh). pose proof (inv_spec _ Hinv) as Hspec.
  assert (Hroom : room w → (E + 3 < two64)%N) by (unfold room; by rewrite Hcm).
  assert (Hkv : spec_Replicas (kv obs) = w_spec w) by apply (obs_spec _ _ Hobs).
  assert (Hst : in_states w [(E, k)]) by by apply settled_in_states.
  destruct Ha as [_| |Hup|Hdn].
  - split; [|split]; [|done|done]. exists w. split; [done|]. done.
  - split; [|split]; [|done|intros ? (-> & r0 & Hr & Hlt); rewrite Hsts in Hr; injection Hr as <-; lia].
    exists (set_sts w k). split; [done|]. intros _. split; [apply Hinv|apply Hinv|].
    apply (ph_steady _ E k); done.
  - rewrite Hkv in Hup. destruct Hspec as (? & ? & Hr). destruct Hk as (? & ? & ?).
    assert (Hk' : spec_ok (S k)) by (unfold spec_ok, rep_ok in *; lia).
    split; [|split]; [|by eauto|done]. unfold execute. rewrite kv_Members, render_Members by done. eexists. split; [done|].
    intros Hrm. split; [by split|apply Hinv|]. apply (ph_U1 _ E k); try done; [|by apply Hk'|by apply Hroom].
    intros i v Hi. destruct (Hst i v Hi) as (s & Hs & ?). exists s. set_solver.
  - rewrite Hkv in Hdn. destruct Hspec as (? & ? & Hr). destruct Hk as (? & ? & Hkr).
    assert (Hk' : spec_ok (k - 1)) by (unfold spec_ok, rep_ok in *; lia).
    destruct (Hlow 0 ltac:(lia)) as (v & Hv & He & Hm & _).
    split; [|split]; [|by eauto|done]. simpl. rewrite Hv, He, kv_Members, Members_size.
    rewrite (proj2 (N.ltb_lt E (E + 1))), (proj2 (Nat.leb_le (spec_N c0) (k - 1))) by lia. simpl. eexists. split; [done|].
    intros Hrm. split; [by split|simpl; apply elem_of_dom_2 in Hv; pose proof (inv_pvc _ Hinv); set_solver|].
    apply (ph_D2 _ E (k - 1)); try done; replace (S (k - 1)) with k by lia; try done; [| |by apply Hroom].
    + apply in_states_set; [|by exists ((E + 1)%N, k - 1); split; [set_solver|]].
      intros i u Hi. destruct (Hst i u Hi) as (s & Hs & ?). exists s. set_solver.
    + intros i Hi. simpl. rewrite lookup_insert_ne by lia. by apply Hhigh.
Qed.

Lemma drained_D3 E k :
  w_sts w = Some (S k) → in_states w [(E, S k); (E + 1, k)%N] → (∀ i, S k ≤ i → w_node w !! i = None) →
  says_drained obs (E + 1) k →
  in_states w [(E + 1, k)%N] ∧ (∀ i, i < S k → ∃ v, w_node w !! i = Some v) ∧
  ∃ v, w_node w !! k = Some v ∧ (E + 1 ≤ n_done v)%N.
Proof.
  intros Hsts Hst Hhigh (d & m & Hd & Hdr & Hde & Hm & Hme).
  destruct (pod_in_Pods _ _ _ Hm) as (p & Hp & Hpm). destruct (obs_pods _ _ Hobs k p Hp) as [_ Hdrain].
  assert (Hdp : Drain p = Some d) by (unfold pod in Hd; by rewrite Hp in Hd).
  destruct (Hdrain d Hdp Hdr) as (v & Hv & Hdone & Hmem). rewrite Hde in Hdone, Hmem.
  destruct (pod_answers k m Hm) as (v' & Hv' & He & _). assert (v' = v) as -> by congruence.
  assert (Hnew : ∀ i u, w_node w !! i = Some u → (E + 1 ≤ n_epoch u)%N → n_epoch u = (E + 1)%N ∧ n_members u = M k).
  { intros i u Hu Hue. destruct (Hst i u Hu) as (s & Hs & H1 & H2).
    apply elem_of_cons in Hs as [->|Hs]; [simpl in *; lia|]. by apply list_elem_of_singleton in Hs as ->. }
  assert (Hvk : n_epoch v = (E + 1)%N ∧ n_members v = M k) by (apply (Hnew k v Hv); lia).
  assert (Hall : ∀ i, i < S k → ∃ u, w_node w !! i = Some u ∧ n_epoch u = (E + 1)%N ∧ n_members u = M k).
  { intros i Hi. destruct (decide (i = k)) as [->|Hne]; [eauto|].
    destruct (Hmem i) as (u & Hu & Hue); [|done|exists u; split; [done|by apply (Hnew i)]].
    destruct Hvk as [_ ->]. apply Members_elem. lia. }
  split; [|split; [|by exists v]].
  - intros i u Hu. destruct (decide (i < S k)) as [Hi|Hi]; [|rewrite Hhigh in Hu by lia; done].
    destruct (Hall i Hi) as (u' & Hu' & ? & ?). assert (u' = u) as -> by congruence. exists (E + 1, k)%N. split; [by left|done].
  - intros i Hi. destruct (Hall i Hi) as (u & Hu & _). eauto.
Qed.

Lemma observed_cm e m : w_cm w = Some (e, m) → ∃ cm, ConfigMap obs = Some cm ∧ cm_Epoch cm = e ∧ cm_Members cm = m ∧ cm_Invalid cm = false.
Proof. intros H. pose proof (obs_cm _ _ Hobs) as Hc. rewrite H in Hc. destruct (ConfigMap obs) as [cm|]; [eauto|done]. Qed.

Lemma observed_no_cm : w_cm w = None → ConfigMap obs = None.
Proof. intros H. pose proof (obs_cm _ _ Hobs) as Hc. rewrite H in Hc. by destruct (ConfigMap obs). Qed.

Lemma observed_sts r : w_sts w = Some r → ∃ sts, StatefulSet obs = Some sts ∧ Replicas sts = r.
Proof. intros H. pose proof (obs_sts _ _ Hobs) as Hs. rewrite H in Hs. destruct (StatefulSet obs) as [sts|]; [|done]. exists sts. by injection Hs. Qed.

Lemma observed_no_sts : w_sts w = None → StatefulSet obs = None.
Proof. intros H. pose proof (obs_sts _ _ Hobs) as Hs. rewrite H in Hs. by destruct (StatefulSet obs). Qed.

(** [plan_outcome] for two memberships of one change. *)
Lemma plan_two e k r E s t (P : Action → Prop) :
  w_cm w = Some (e, M k) → rep_ok k → w_sts w = Some r → in_states w [s; t] →
  rep_ok s.2 → rep_ok t.2 → (E + 1 < two64)%N → s.1 = E → t.1 = (E + 1)%N →
  (∀ cm sts st, cm_Epoch cm = e →
     ∃ d ex, classify obs cfg st r k cm sts (views_of obs (seq 0 r)) = Some (d, ex, true) ∧ outcome (Some d) P) →
  outcome (Plan obs cfg) P.
Proof.
  intros Hcm Hk Hsts Hst Hs Ht Hb Es Et Hcl.
  destruct (observed_cm e (M k) Hcm) as (cm & Hc & Hce & Hcmm & Hci). destruct (observed_sts r Hsts) as (sts & Hss & <-).
  unfold rep_ok in *.
  eapply (plan_outcome obs cfg cm sts k [s; t] E); [done|done|by rewrite kv_Members|unfold int_ok, max_int; lia|done| |by apply observed_pods_in|done| | |].
  - repeat constructor; unfold int_ok, max_int; lia.
  - intros x [->|[->|[]%elem_of_nil]%elem_of_cons]%elem_of_cons; auto.
  - intros x y [->|[->|[]%elem_of_nil]%elem_of_cons]%elem_of_cons [->|[->|[]%elem_of_nil]%elem_of_cons]%elem_of_cons; try done; lia.
  - intros st. by apply Hcl.
Qed.

Lemma in_states_weaken l l' : l ⊆ l' → in_states w l → in_states w l'.
Proof. intros Hl Hs i v Hi. destruct (Hs i v Hi) as (s & Hin & H). exists s. auto. Qed.

Lemma plan_boot : inv w → w_sts w = None → outcome (Plan obs cfg) good_action.
Proof.
  intros Hinv Hsts. pose proof (inv_spec _ Hinv) as Hspec. pose proof (observed_no_sts Hsts) as Hns.
  destruct (inv_phase _ Hinv) as [H1 H2 H3|k H1 H2 H3 Hk| | | | |]; try congruence.
  - unfold Plan, plan, bootstrap. rewrite Hns, (observed_no_cm H1). apply outcome_act; [done|].
    rewrite kv_Members. replace (spec_Replicas (kv obs)) with (w_spec w) by (symmetry; apply (obs_spec _ _ Hobs)).
    split; [|split]; [|simpl; by rewrite H1|done]. unfold execute. rewrite render_Members by done. eexists. split; [done|].
    intros _. split; [done|apply Hinv|]. by apply (ph_boot1 _ (w_spec w)).
  - destruct (observed_cm _ _ H1) as (cm & Hc & Hce & Hcmm & Hci).
    unfold Plan, plan, bootstrap. rewrite Hns, Hc, Hci, Hcmm, <-kv_Members, validMembers_Members.
    2: { destruct Hk as (_ & _ & Hk). unfold rep_ok, int_ok, max_int in *. lia. }
    apply outcome_act; [done|]. split; [|split]; [|done|intros ? (_ & r & Hr & _); congruence].
    eexists. split; [done|]. intros _. split; [done|apply Hinv|]. apply (ph_steady _ 0%N k); try done.
    intros i v Hi. simpl in Hi. by rewrite H3, lookup_empty in Hi.
Qed.

Lemma plan_up E k :
  inv w → w_cm w = Some (E + 1, M (S k))%N → in_states w [(E, k); (E + 1, S k)%N] → spec_ok k → rep_ok (S k) →
  (E + 3 < two64)%N → w_sts w = Some k ∨ w_sts w = Some (S k) → outcome (Plan obs cfg) good_action.
Proof.
  intros Hinv Hcm Hst Hk Hr Hb [Hsts|Hsts].
  - eapply outcome_impl; [|eapply (plan_two _ (S k) k E (E, k) (E + 1, S k)%N); try done; [by apply Hk|lia|]].
    2: { intros cm sts st Hce. apply (classify_U1 obs cfg st E); [lia|done|]. intros v. eapply views_one_of, observed_pods_in, Hst. }
    intros a [-> _]. split; [|split]; [|done|intros ? (<- & r & Hx & ?); assert (r = k) by congruence; lia].
    eexists. split; [done|]. intros _. split; [apply Hinv|apply Hinv|]. by apply (ph_U3 _ E k).
  - eapply outcome_impl; [|eapply (plan_two _ (S k) (S k) E (E, k) (E + 1, S k)%N); try done; [by apply Hk|lia|]].
    2: { intros cm sts st Hce. apply (classify_U3 obs cfg st E); [lia|done|]. by apply observed_pods_in. }
    intros a [Hrest Hnext]. eapply rest_good; [done|by eapply at_rest_settled| |lia|done].
    destruct Hk as (? & ? & ?). repeat split; [lia|lia|done].
Qed.

Lemma plan_down E k :
  inv w → w_cm w = Some (E, M (S k)) → w_sts w = Some (S k) → in_states w [(E, S k); (E + 1, k)%N] →
  (spec_ok k ∧ (∀ i, S k ≤ i → w_node w !! i = None) ∨ in_states w [(E, S k)]) → spec_ok (S k) → (E + 2 < two64)%N →
  outcome (Plan obs cfg) good_action.
Proof.
  intros Hinv Hcm Hsts Hst Hcase Hk' Hb.
  assert (Hr : rep_ok (S k)) by apply Hk'.
  eapply outcome_impl; [|eapply (plan_two E (S k) (S k) E (E, S k) (E + 1, k)%N); try done; [by apply rep_ok_S|lia|]].
  2: { intros cm sts st Hce. apply (classify_D2 obs cfg st E); [lia|done|]. by apply observed_pods_in. }
  intros a [[Hrest Hnext]|[-> Hdr]].
  - eapply rest_good; [done|by eapply at_rest_settled|done|lia|done].
  - destruct Hcase as [[Hk Hhigh]|Hone].
    + destruct (drained_D3 E k Hsts Hst Hhigh Hdr) as (Hnew & Hall & Hdone).
      split; [|split]; [|simpl; rewrite Hcm, kv_Members, !Members_size; lia|done].
      unfold execute. rewrite kv_Members, render_Members by done. eexists. split; [done|].
      intros Hroom. unfold room in Hroom. rewrite Hcm in Hroom. split; [apply Hinv|apply Hinv|]. by apply (ph_D3 _ E k).
    + exfalso. destruct Hdr as (d & m & _ & _ & _ & Hm & Hme). destruct (pod_answers k m Hm) as (v & Hv & He & _).
      destruct (in_states_one _ _ _ _ _ Hone Hv) as [Hx _]. lia.
Qed.

Lemma plan_world : inv w → outcome (Plan obs cfg) good_action.
Proof.
  intros Hinv. pose proof (inv_phase _ Hinv) as [| |E k H1 H2 H3 Hk Hb|E k H1 H2 H3 Hk|E k H1 H2 H3 Hk|E k H1 H2 H3 H4 Hk Hr Hb|E k H1 H2 H3 Hall Hd Hk Hr Hb].
  - by apply plan_boot.
  - by apply plan_boot.
  - assert (Hk1 : 1 ≤ k) by apply Hk. destruct k as [|k]; [lia|].
    apply (plan_down E k); auto. eapply in_states_weaken, H3. set_solver.
  - eapply plan_up; eauto.
  - eapply plan_up; eauto.
  - apply (plan_down E k); auto; [|lia]. destruct Hk as (? & ? & ?). repeat split; [lia|lia|done].
  - apply (outcome_impl _ (λ a, a = ActScaleStatefulSet k)); [|eapply (plan_two _ k (S k) (E + 1) (E + 1, k)%N (E + 1 + 1, k)%N); try done; try apply Hk; [|lia|]].
    + intros a ->. split; [|split]; [|done|].
      * eexists. split; [done|]. intros _. split; [apply Hinv|apply Hinv|]. apply (ph_steady _ (E + 1) k); try done. lia.
      * intros ? (<- & _). split; [done|]. exists (E + 1)%N. split; [done|]. split; [|done].
        intros i Hi. destruct (Hall i ltac:(lia)) as (v & Hv). destruct (in_states_one _ _ _ _ _ H3 Hv). by exists v.
    + eapply in_states_weaken, H3. set_solver.
    + intros cm sts st Hce. apply (classify_D3 obs cfg st (E + 1)); [done|]. intros v. eapply views_one_of, observed_pods_in, H3.
Qed.
End observed.

Lemma step_inv w w' : step w w' → inv w → inv w'.
Proof.
  intros [? ? He|? obs cfg a st w'' Hobs Hroom Hplan Hex] Hinv; [by eapply env_inv|].
  destruct (plan_world w0 obs cfg Hobs Hinv) as (a' & st' & Hp & _ & [Hw|((w1 & Hex' & Hinv') & _)]).
  - assert (a' = a) as -> by congruence. destruct a; try done. simpl in Hex. congruence.
  - assert (a' = a) as -> by congruence. rewrite Hex in Hex'. injection Hex' as <-. auto.
Qed.

Lemma world_reachable_inv w : reachable_world w → inv w.
Proof.
  induction 1 as [n Hn|w w' _ IH Hs]; [|by eapply step_inv].
  split; [done|set_solver|by apply ph_boot0].
Qed.

(** ** An observation in which every pod answers *)

Definition drained_b (w : world) (i : nat) (v : nodev) : bool :=
  (n_epoch v <=? n_done v)%N &&
  forallb (λ p, match Ordinal c0 p.1 with
                | Some j => (j =? i) || match w_node w !! j with Some u => (n_epoch v <=? n_epoch u)%N | None => false end
                | None => false
                end) (map_to_list (n_members v)).

Definition pod_of (w : world) (i : nat) : PodObs :=
  match w_node w !! i with
  | Some v =>
      mkPod i true false true None (Some (mkMembership (n_epoch v) (n_members v) (n_done v) true)) None
        (match n_members v !! MemberID c0 i with
         | Some _ => None
         | None => Some (Planner.mkHandoff (n_epoch v) (drained_b w i v))
         end)
  | None => mkPod i (bool_decide (i ∈ w_pvc w)) false false None None None None
  end.

Definition obs_of (w : world) : Observation :=
  mkObs 0 (mkCluster (Name c0) (Namespace c0) (w_spec w) (spec_N c0) 0 None None)
    ((λ r, mkSts r r true true) <$> w_sts w) ((λ p, mkCM p.1 p.2 false) <$> w_cm w)
    (pod_of w <$> seq 0 (default 0 (w_sts w))) (elements (w_pvc w)).

Lemma drained_b_true w i v : w_node w !! i = Some v → drained_b w i v = true → drained_at w i (n_epoch v).
Proof.
  intros Hv [Hd Hall]%andb_prop. exists v. split; [done|]. split; [by apply N.leb_le|].
  intros j [a Ha]%elem_of_dom Hne. rewrite forallb_forall in Hall.
  specialize (Hall (MemberID c0 j, a) ltac:(by apply list_elem_of_In, elem_of_map_to_list)). simpl in Hall.
  destruct (Ordinal c0 (MemberID c0 j)) as [j'|] eqn:Ej; [|done].
  apply Ordinal_Some, (inj (MemberID c0)) in Ej as <-. rewrite (proj2 (Nat.eqb_neq j i) Hne) in Hall. simpl in Hall.
  destruct (w_node w !! j) as [u|]; [|done]. exists u. split; [done|]. by apply N.leb_le.
Qed.

Lemma obs_of_observes w : observes w (obs_of w).
Proof.
  split; simpl; try done.
  - destruct (w_cm w) as [[e m]|]; done.
  - by destruct (w_sts w).
  - intros i. apply elem_of_elements.
  - intros i p Hp. apply list_lookup_fmap_Some in Hp as (j & -> & Hp). apply lookup_seq in Hp as [-> _]. simpl.
    unfold pod_truth, pod_of. destruct (w_node w !! i) as [v|] eqn:Hv; [|by split].
    split; simpl.
    + intros m [= <-]. exists v. done.
    + intros d Hd Hdr. destruct (n_members v !! MemberID c0 i); [done|]. injection Hd as <-. simpl in *. by apply drained_b_true.
Qed.

(** One round of the operator, seeing every pod. *)
Definition op_step (cfg : Config) (w : world) : world :=
  match Plan (obs_of w) cfg with Some (a, _) => default w (execute a w) | None => w end.

Lemma op_step_reachable cfg w : room w → reachable_world w → reachable_world (op_step cfg w).
Proof.
  intros Hr Hw. unfold op_step. destruct (Plan (obs_of w) cfg) as [[a st]|] eqn:Hp; [|done].
  destruct (execute a w) as [w'|] eqn:Hx; [|done]. eapply rw_step, step_operator; eauto using obs_of_observes.
Qed.

(** ** The operator's promises *)

(** C18: In every state the operator and the cluster can reach, whatever subset
    of the pods answers, the planner answers (it never panics), it never finds
    a state that no step of a membership change explains, and what it decides
    to do is refused neither by the renderer nor by the node it is sent to. *)
Theorem operator_never_stuck w obs cfg :
  reachable_world w → observes w obs →
  ∃ a st w', Plan obs cfg = Some (a, st) ∧ explained st ∧ execute a w = Some w'.
Proof.
  intros Hw Hobs. destruct (plan_world w obs cfg Hobs (world_reachable_inv w Hw)) as (a & st & Hp & Hx & [Hwait|((w' & He & _) & _)]).
  - exists a, st, w. destruct a; try done.
  - by exists a, st, w'.
Qed.

(** C17: The StatefulSet is scaled down by one pod at a time, and only when that
    pod is outside the membership, every pod holds the membership without it,
    and its data has been handed off. *)
Theorem pod_removed_only_drained w obs cfg a st k :
  reachable_world w → observes w obs → Plan obs cfg = Some (a, st) → removes_pod w a k →
  w_sts w = Some (S k) ∧ ∃ E, drained w E k.
Proof.
  intros Hw Hobs Hp Hr. destruct (plan_world w obs cfg Hobs (world_reachable_inv w Hw)) as (a' & st' & Hp' & _ & Ha).
  rewrite Hp in Hp'. injection Hp' as <- <-. destruct Ha as [Hwait|(_ & _ & H)]; [by destruct a|auto].
Qed.

(** C19: A membership change starts only from a settled cluster: every pod of the
    StatefulSet holds the ConfigMap's membership and has completed its handoff,
    and no volume of an earlier pod is left. *)
Theorem change_starts_settled w obs cfg a st :
  reachable_world w → observes w obs → Plan obs cfg = Some (a, st) → starts_change w a →
  ∃ E k, settled w E k.
Proof.
  intros Hw Hobs Hp Hr. destruct (plan_world w obs cfg Hobs (world_reachable_inv w Hw)) as (a' & st' & Hp' & _ & Ha).
  rewrite Hp in Hp'. injection Hp' as <- <-. destruct Ha as [Hwait|(_ & H & _)]; [by destruct a|auto].
Qed.

Lemma phase_states w : phase w → ∃ E k k', in_states w [(E, k); (E + 1, k')%N] ∧ (k' = S k ∨ k = S k').
Proof.
  intros [_ _ Hn|k _ _ Hn _|E k _ _ H _ _|E k _ _ H _ _ _|E k _ _ H _ _ _|E k _ _ H _ _ _ _|E k _ _ H _ _ _ _ _].
  - exists 0%N, 0, 1. split; [|auto]. intros i v Hi. by rewrite Hn, lookup_empty in Hi.
  - exists 0%N, 0, 1. split; [|auto]. intros i v Hi. by rewrite Hn, lookup_empty in Hi.
  - exists E, k, (S k). split; [|auto]. eapply in_states_weaken, H. set_solver.
  - exists E, k, (S k). auto.
  - exists E, k, (S k). auto.
  - exists E, (S k), k. auto.
  - exists E, (S k), k. split; [|auto]. eapply in_states_weaken, H. set_solver.
Qed.

(** At most one membership change is in flight: two nodes hold the same
    membership, or memberships of consecutive epochs that differ by one node,
    the one with the highest ordinal. *)
Theorem memberships_one_apart w i j u v :
  reachable_world w → w_node w !! i = Some u → w_node w !! j = Some v → (n_epoch u ≤ n_epoch v)%N →
  (n_epoch u = n_epoch v ∧ n_members u = n_members v) ∨
  (n_epoch v = n_epoch u + 1 ∧ ∃ k, (n_members u = M k ∧ n_members v = M (S k)) ∨ (n_members u = M (S k) ∧ n_members v = M k))%N.
Proof.
  intros Hw Hu Hv Hle. destruct (phase_states w (inv_phase _ (world_reachable_inv w Hw))) as (E & k & k' & Hst & Hk).
  destruct (Hst i u Hu) as (s & Hs & Hs1 & Hs2), (Hst j v Hv) as (t & Ht & Ht1 & Ht2).
  apply elem_of_cons in Hs as [->|Hs]; [|apply list_elem_of_singleton in Hs as ->];
    (apply elem_of_cons in Ht as [->|Ht]; [|apply list_elem_of_singleton in Ht as ->]); simpl in *.
  - left. split; congruence.
  - right. split; [lia|]. destruct Hk as [->| ->]; eauto.
  - lia.
  - left. split; congruence.
Qed.
End operator.

(** ** A removal, step by step *)

Module Example.
Definition kv2 : KVCluster := mkCluster "kv" "default" 2 1 0 None None.
Definition cfg : Config := mkConfig 120 2 10 60.
Definition bootstrapped : world := claim (claim (op_step kv2 cfg (op_step kv2 cfg (init 2))) 0) 1.
Definition started : world :=
  set_node (set_node bootstrapped 0 (mkNode 0 (Members kv2 2) 0)) 1 (mkNode 0 (Members kv2 2) 0).
Definition shrinking : world := set_spec started 1.
Definition posted : world := op_step kv2 cfg shrinking.
Definition spread : world := set_node posted 1 (mkNode 1 (Members kv2 1) 0).
Definition handed_off : world := set_node spread 1 (mkNode 1 (Members kv2 1) 1).
Definition leaving : world := op_step kv2 cfg handed_off.

Lemma spec_ok_kv2 n : 1 ≤ n → n ≤ 9 → spec_ok kv2 n.
Proof. intros ? ?. repeat split; [lia|simpl; lia|unfold rep_ok; lia]. Qed.

Lemma shrinking_reachable : reachable_world kv2 shrinking.
Proof.
  apply (rw_step _ started); [|apply step_env, (env_spec kv2 started 1), spec_ok_kv2; lia].
  assert (Hb : reachable_world kv2 bootstrapped).
  { do 2 (eapply rw_step; [|eapply step_env, (env_claim _ _ _ 2); [vm_compute; reflexivity|lia]]).
    apply op_step_reachable; [vm_compute; reflexivity|]. apply op_step_reachable; [exact I|].
    apply rw_init, spec_ok_kv2; lia. }
  assert (H0 : reachable_world kv2 (set_node bootstrapped 0 (mkNode 0 (Members kv2 2) 0))).
  { eapply rw_step; [exact Hb|]. apply step_env, (env_start kv2 bootstrapped 0 2); try (vm_compute; reflexivity); try (vm_compute; discriminate); lia. }
  eapply rw_step; [exact H0|]. apply step_env, (env_start kv2 _ 1 2); try (vm_compute; reflexivity); try (vm_compute; discriminate); lia.
Qed.

Lemma leaving_reachable : reachable_world kv2 leaving.
Proof.
  assert (Hp : reachable_world kv2 posted).
  { apply op_step_reachable; [vm_compute; reflexivity|apply shrinking_reachable]. }
  apply op_step_reachable; [vm_compute; reflexivity|].
  apply (rw_step _ spread).
  - apply (rw_step _ posted); [done|]. apply step_env.
    apply (env_gossip _ posted 0 1 (mkNode 1 (Members kv2 1) 0) (mkNode 0 (Members kv2 2) 0)); vm_compute; reflexivity.
  - apply step_env. apply (env_handoff _ spread 1 (mkNode 1 (Members kv2 1) 0)). vm_compute. reflexivity.
Qed.
End Example.

Lemma operator_never_stuck_witness :
  ∃ a st w', Plan (obs_of Example.kv2 Example.shrinking) Example.cfg = Some (a, st) ∧ explained st ∧
             execute Example.kv2 a Example.shrinking = Some w'.
Proof. apply (operator_never_stuck Example.kv2); [apply Example.shrinking_reachable|apply obs_of_observes]. Defined.

Lemma pod_removed_only_drained_witness :
  w_sts Example.leaving = Some 2 ∧ ∃ E, drained Example.kv2 Example.leaving E 1.
Proof.
  destruct (Plan (obs_of Example.kv2 Example.leaving) Example.cfg) as [[a st]|] eqn:Hp; [|by vm_compute in Hp].
  apply (pod_removed_only_drained Example.kv2 Example.leaving (obs_of Example.kv2 Example.leaving) Example.cfg a st 1);
    [apply Example.leaving_reachable|apply obs_of_observes|done|].
  assert (Ha : fst <$> Plan (obs_of Example.kv2 Example.leaving) Example.cfg = Some (ActScaleStatefulSet 1)) by (vm_compute; reflexivity).
  rewrite Hp in Ha. injection Ha as ->. split; [done|]. exists 2. split; [vm_compute; reflexivity|lia].
Defined.

Lemma change_starts_settled_witness : ∃ E k, settled Example.kv2 Example.shrinking E k.
Proof.
  destruct (Plan (obs_of Example.kv2 Example.shrinking) Example.cfg) as [[a st]|] eqn:Hp; [|by vm_compute in Hp].
  apply (change_starts_settled Example.kv2 Example.shrinking (obs_of Example.kv2 Example.shrinking) Example.cfg a st);
    [apply Example.shrinking_reachable|apply obs_of_observes|done|].
  assert (Ha : fst <$> Plan (obs_of Example.kv2 Example.shrinking) Example.cfg = Some (ActPostMembership 0 1 (Members Example.kv2 1)))
    by (vm_compute; reflexivity).
  rewrite Hp in Ha. injection Ha as ->. exact I.
Defined.

Lemma memberships_one_apart_witness :
  (0 = 0 ∧ Members Example.kv2 2 = Members Example.kv2 2)%N ∨
  (0 = 0 + 1 ∧ ∃ k, (Members Example.kv2 2 = Members Example.kv2 k ∧ Members Example.kv2 2 = Members Example.kv2 (S k)) ∨
                    (Members Example.kv2 2 = Members Example.kv2 (S k) ∧ Members Example.kv2 2 = Members Example.kv2 k))%N.
Proof.
  apply (memberships_one_apart Example.kv2 Example.shrinking 0 1 (mkNode 0 (Members Example.kv2 2) 0) (mkNode 0 (Members Example.kv2 2) 0));
    [apply Example.shrinking_reachable|vm_compute; reflexivity|vm_compute; reflexivity|simpl; lia].
Defined.
