(* ===== verification/Progress.v ===== *)
(** * The operator reaches what the spec asks for

    From every state the operator and the cluster can reach there is a run —
    pods start, memberships spread, handoffs complete, old volumes are deleted,
    and the operator acts on what it then sees — that ends settled at the
    spec's replicas, where the planner reports Ready and has nothing to do. *)

From stdpp Require Import gmap strings list relations.
From Stdlib Require Import ZArith Lia.
From S2P Require Import Prelude GoLib GoStrings Planner Operator.

Open Scope nat_scope.

(** ** What the planner answers when every pod answers *)

Section exact.
Context (obs : Observation) (cfg : Config).

Notation M := (Members (kv obs)).

(** [plan_outcome], when no pod is reported down. *)
Lemma plan_exact cm sts c (l : list (N * nat)) e a r :
  ConfigMap obs = Some cm → cm_Invalid cm = false → cm_Members cm = M c → int_ok c → StatefulSet obs = Some sts →
  states_ok l → pods_in obs l → (e + 1 < two64)%N →
  (∀ s, s ∈ l → s.1 = e ∨ s.1 = e + 1)%N → (∀ s t, s ∈ l → t ∈ l → s.1 = t.1 → s = t) →
  (∀ ex i, down_too_long obs cfg ex i = false) →
  (∀ st, ∃ st' ex, classify obs cfg st (Replicas sts) c cm sts (views_of obs (seq 0 (Replicas sts))) = Some (a, st', ex, true) ∧
                   st_Reason st' = Some r) →
  ∃ st, Plan obs cfg = Some (a, st) ∧ st_Reason st = Some r.
Proof.
  intros Hcm Hinv Hmem Hc Hsts Hl Hp Hb He Hinj Hup Hcl. unfold Plan, plan, bootstrap. rewrite Hcm, Hsts, Hinv, Hmem.
  rewrite validMembers_Members by done. simpl.
  destruct (readViews_ok obs cfg (mkStatus "" None 0 ∅ (Replicas sts) (ReadyReplicas sts) None) (Replicas sts) l e) as (st & ->); try done.
  destruct (Hcl st) as (st' & ex & -> & Hr). simpl.
  unfold unavailable. destruct (existsb _ _) eqn:E.
  - exfalso. apply existsb_exists in E as (i & _ & Hd). by rewrite Hup in Hd.
  - eexists. split; [reflexivity|]. by destruct (is_wait a).
Qed.

(** The action of a cluster at rest, and the reason it reports. *)
Definition rest_action (e : N) (k : nat) : Action * reason :=
  if k <? spec_Replicas (kv obs) then (ActWriteConfigMap (e + 1) (M (S k)), AddingPod)
  else if spec_Replicas (kv obs) <? k then (ActPostMembership 0 (e + 1) (M (k - 1)), RemovingPod)
  else (ActNone (Idle cfg), ReadyReason).

Lemma converged_exact st e k cm sts :
  0 < k → cm_Epoch cm = e → (e + 1 < two64)%N → at_rest obs e k →
  (∀ i p, Pods obs !! i = Some p → Ordinal_ p = i) → length (Pods obs) ≤ k → RolledOut sts = true → TemplateCurrent sts = true → ReadyReplicas sts = k →
  (∀ i m, pod_Membership (pod obs i) = Some m → m_Epoch m = e → m_Members m = M k) →
  ∃ st', converged obs cfg st k cm sts (views_of obs (seq 0 k)) = Some ((rest_action e k).1, st') ∧
         st_Reason st' = Some (rest_action e k).2.
Proof.
  intros Hk He Hb [Hpods Hpvc] Hord Hlen Hro Htc Hrr Hat. unfold converged, rest_action.
  rewrite (proj2 (existsb_false (λ p, (k <=? Ordinal_ p) && Exists p) (Pods obs))).
  2: { intros p [i Hp]%list_elem_of_lookup. rewrite (Hord i p Hp). apply lookup_lt_Some in Hp.
       rewrite (proj2 (Nat.leb_gt k i)) by lia. done. }
  rewrite (proj2 (existsb_false _ (PVCs obs))).
  2: { intros i Hi. apply Nat.leb_gt. destruct (decide (k ≤ i)) as [Hki|]; [by apply Hpvc in Hki|lia]. }
  rewrite (proj2 (existsb_false _ (views_of obs (seq 0 k)))).
  2: { intros v (m & Hin & Hm & _)%elem_of_views. rewrite Hm. apply elem_of_seq in Hin.
       destruct (Hpods (ordinal v) ltac:(lia)) as (_ & m' & Hm' & _ & Hh & Hd). assert (m' = m) as -> by congruence.
       rewrite Hd, He. apply orb_false_iff. split; [by apply N.ltb_ge|done]. }
  rewrite (proj2 (forallb_forall _ (seq 0 k))).
  2: { intros i Hi%in_seq. apply Hpods. lia. }
  rewrite Hro, Htc, Hrr, (proj2 (Nat.ltb_ge k k)), He by lia. simpl.
  destruct (Hpods 0 Hk) as (_ & m0 & Hm0 & Hs0 & _).
  assert (Htaken : ordinalTaken obs k = false).
  { unfold ordinalTaken, hasPVC, pod. rewrite (bool_decide_false _ (Hpvc k (le_n k))), orb_false_r.
    by rewrite lookup_ge_None_2. }
  destruct (Nat.ltb_spec k (spec_Replicas (kv obs))) as [Hup|Hup].
  - rewrite Htaken, (viewAt_spec obs e (M k)); [|done|by exists 0, m0; destruct Hs0]. rewrite u64_small by done.
    eexists. split; [reflexivity|done].
  - destruct (Nat.ltb_spec (spec_Replicas (kv obs)) k) as [Hdn|Hdn].
    + rewrite Hm0, u64_small by done. destruct Hs0 as [_ ->]. simpl.
      replace (M k) with (M (S (k - 1))) by (f_equal; lia). rewrite Members_delete. eexists. split; [reflexivity|done].
    + eexists. split; [reflexivity|done].
Qed.
End exact.

(** ** The rounds of the operator *)

Section rounds.
Context (c0 : KVCluster) (cfg : Config).

Notation M := (Members c0).
Notation obs_of := (obs_of c0).
Notation steps := (rtc (step c0)).

Lemma obs_of_pod w i :
  pod (obs_of w) i = if decide (i < default 0 (w_sts w)) then pod_of c0 w i else mkPod i false false false None None None None.
Proof.
  unfold pod; simpl. rewrite list_lookup_fmap. destruct (decide (i < _)) as [Hi|Hi].
  - by rewrite lookup_seq_lt.
  - by rewrite lookup_seq_ge by lia.
Qed.

Lemma obs_of_up w ex i : down_too_long (obs_of w) cfg ex i = false.
Proof.
  unfold down_too_long. rewrite obs_of_pod. destruct (_ || _ || _); [done|]. destruct (decide _); [|done].
  unfold pod_of. by destruct (w_node w !! i).
Qed.

Lemma obs_of_answers w i r v :
  w_sts w = Some r → i < r → w_node w !! i = Some v →
  healthy (pod (obs_of w) i) = true ∧
  pod_Membership (pod (obs_of w) i) = Some (mkMembership (n_epoch v) (n_members v) (n_done v) true).
Proof. intros Hr Hi Hv. rewrite obs_of_pod, Hr, decide_True by done. unfold pod_of. by rewrite Hv. Qed.

Lemma plan_two_exact w e k r E s t a rs :
  w_cm w = Some (e, M k) → rep_ok k → w_sts w = Some r → in_states c0 w [s; t] →
  rep_ok s.2 → rep_ok t.2 → (E + 1 < two64)%N → s.1 = E → t.1 = (E + 1)%N →
  (∀ cm sts st, cm_Epoch cm = e → RolledOut sts = true → TemplateCurrent sts = true → ReadyReplicas sts = r →
     ∃ st' ex, classify (obs_of w) cfg st r k cm sts (views_of (obs_of w) (seq 0 r)) = Some (a, st', ex, true) ∧
               st_Reason st' = Some rs) →
  ∃ st, Plan (obs_of w) cfg = Some (a, st) ∧ st_Reason st = Some rs.
Proof.
  intros Hcm Hk Hsts Hst Hs Ht Hb Es Et Hcl. pose proof (obs_of_observes c0 w) as Hobs. unfold rep_ok in *.
  eapply (plan_exact (obs_of w) cfg (mkCM e (M k) false) (mkSts r r true true) k [s; t] E);
    [simpl; by rewrite Hcm|done|simpl; by rewrite (kv_Members c0 w _ Hobs)|unfold int_ok, max_int; lia|simpl; by rewrite Hsts| |
     by apply (observed_pods_in c0 w _ Hobs)|done| | |apply obs_of_up|].
  - repeat constructor; unfold int_ok, max_int; lia.
  - intros x [->|[->|[]%elem_of_nil]%elem_of_cons]%elem_of_cons; auto.
  - intros x y [->|[->|[]%elem_of_nil]%elem_of_cons]%elem_of_cons [->|[->|[]%elem_of_nil]%elem_of_cons]%elem_of_cons; try done; lia.
  - intros st. by apply Hcl.
Qed.

(** A settled cluster with no volume left above. *)
Definition clean (w : world) (k : nat) : Prop := ∀ i, i ∈ w_pvc w → i < k.

Lemma settled_rest w E k : settled c0 w E k → clean w k → at_rest (obs_of w) E k.
Proof.
  intros (Hcm & Hsts & Hlow & _) Hc. split.
  - intros i Hi. destruct (Hlow i Hi) as (v & Hv & He & Hm & Hd).
    destruct (obs_of_answers w i k v Hsts Hi Hv) as [Hh Hp]. split; [done|]. eexists. split; [exact Hp|]. simpl.
    split; [|by rewrite <-He in Hd |- *]. split; [done|]. by rewrite (kv_Members c0 w _ (obs_of_observes c0 w)).
  - intros i Hi Hin. simpl in Hin. apply elem_of_elements, Hc in Hin. lia.
Qed.

Lemma exact_settled w E k :
  settled c0 w E k → clean w k → spec_ok c0 k → (E + 2 < two64)%N →
  ∃ st, Plan (obs_of w) cfg = Some ((rest_action (obs_of w) cfg E k).1, st) ∧
        st_Reason st = Some (rest_action (obs_of w) cfg E k).2.
Proof.
  intros Hset Hc (Hk & _ & Hr) Hb. pose proof Hset as (Hcm & Hsts & _). pose proof (settled_in_states c0 w E k Hset) as Hst.
  eapply (plan_two_exact w E k k E (E, k) (E + 1, k)%N); try done; [eapply in_states_weaken, Hst; set_solver|lia|].
  intros cm sts st Hce Hro Htc Hrr.
  destruct (converged_exact (obs_of w) cfg st E k cm sts) as (st' & Hcv & Hres); try done; [lia|by apply settled_rest| | | |].
  - intros i p Hp. simpl in Hp. apply list_lookup_fmap_Some in Hp as (j & -> & Hp). apply lookup_seq in Hp as [-> _].
    simpl. unfold pod_of. by destruct (w_node w !! i).
  - simpl. by rewrite length_fmap, length_seq, Hsts.
  - intros i m Hm _. destruct (observed_pods_in c0 w _ (obs_of_observes c0 w) _ Hst i m Hm) as (s & Hs & _ & Hsm).
    by apply list_elem_of_singleton in Hs as ->.
  - exists st', None. split; [|done]. unfold classify. rewrite (proj2 (Nat.eqb_neq k (k + 1))) by lia. rewrite Nat.eqb_refl, Hce.
    rewrite (proj2 (allIn_ok_true (obs_of w) _ _)); [by rewrite Hcv|].
    intros v. eapply views_one_of, observed_pods_in, Hst. apply obs_of_observes.
Qed.

Lemma exact_U1 w E k :
  w_cm w = Some (E + 1, M (S k))%N → w_sts w = Some k → in_states c0 w [(E, k); (E + 1, S k)%N] →
  rep_ok (S k) → (E + 3 < two64)%N → (∀ i, i < k → is_Some (w_node w !! i)) → k ∉ w_pvc w →
  ∃ st, Plan (obs_of w) cfg = Some (ActScaleStatefulSet (S k), st) ∧ st_Reason st = Some AddingPod.
Proof.
  intros Hcm Hsts Hst Hr Hb Hall Hpvc.
  eapply (plan_two_exact w _ (S k) k E (E, k) (E + 1, S k)%N); try done; [by apply rep_ok_S|lia|].
  intros cm sts st Hce _ _ _. unfold classify. rewrite (proj2 (Nat.eqb_eq (S k) (k + 1))) by lia. rewrite Hce.
  rewrite (proj2 (N.leb_le 1 (E + 1))) by lia. rewrite pred64_succ by lia. replace (k + 1) with (S k) by lia.
  rewrite (proj2 (allIn_ok_true _ _ _)).
  - unfold scaleUp. rewrite (proj2 (forallb_forall _ _)).
    2: { intros i Hi%in_seq. destruct (Hall i ltac:(lia)) as [v Hv]. apply (obs_of_answers w i k v); [done|lia|done]. }
    unfold ordinalTaken, hasPVC. rewrite obs_of_pod, Hsts, decide_False by (simpl; lia). simpl.
    rewrite bool_decide_false by (by rewrite elem_of_elements). replace (k + 1) with (S k) by lia. do 2 eexists. split; done.
  - intros v Hin. apply one_of_swap. eapply views_one_of, Hin. apply (observed_pods_in c0 w); [apply obs_of_observes|done].
Qed.

Lemma exact_D2 w E k :
  w_cm w = Some (E, M (S k)) → w_sts w = Some (S k) → spec_ok c0 k → rep_ok (S k) → (E + 3 < two64)%N →
  (∀ i, i < S k → w_node w !! i = Some (mkNode (E + 1) (M k) (E + 1))) → (∀ i, S k ≤ i → w_node w !! i = None) →
  ∃ st, Plan (obs_of w) cfg = Some (ActWriteConfigMap (E + 1) (M k), st) ∧ st_Reason st = Some Drained.
Proof.
  intros Hcm Hsts Hk Hr Hb Hall Hhigh. pose proof (obs_of_observes c0 w) as Hobs.
  assert (Hst : in_states c0 w [(E + 1, k)%N]).
  { intros i v Hv. destruct (decide (i < S k)) as [Hi|Hi]; [|rewrite Hhigh in Hv by lia; done].
    rewrite Hall in Hv by done. injection Hv as <-. eexists. split; [by left|done]. }
  assert (Hst2 : in_states c0 w [(E, S k); (E + 1, k)%N]) by (eapply in_states_weaken, Hst; set_solver).
  eapply (plan_two_exact w E (S k) (S k) E (E, S k) (E + 1, k)%N); try done; [by apply Hk|lia|].
  intros cm sts st Hce _ _ _.
  assert (Hv : ∀ v, v ∈ views_of (obs_of w) (seq 0 (S k)) → v_one_of (obs_of w) [(E + 1, k)%N] v).
  { intros v. eapply views_one_of, observed_pods_in, Hst. done. }
  destruct (obs_of_answers w k (S k) _ Hsts ltac:(lia) (Hall k ltac:(lia))) as [_ Hpk]. simpl in Hpk.
  set (v0 := mkPView k (E + 1) (M k)).
  assert (Hv0 : v0 ∈ views_of (obs_of w) (seq 0 (S k))).
  { apply elem_of_views. eexists. split; [apply elem_of_seq; simpl; lia|]. split; [exact Hpk|done]. }
  unfold classify. rewrite (proj2 (Nat.eqb_neq (S k) (S k + 1))) by lia. rewrite Nat.eqb_refl, Hce.
  replace (S k - 1) with k by lia. rewrite (u64_small (E + 1)) by lia.
  destruct (allIn_ok (obs_of w) _ [(E, S k)]) eqn:E1.
  { exfalso. rewrite allIn_ok_true in E1. destruct (E1 v0 Hv0) as (s & Hs & Hse & _).
    apply list_elem_of_singleton in Hs as ->. simpl in *. lia. }
  destruct ((1 <=? E)%N && _) eqn:E2.
  { exfalso. apply andb_prop in E2 as [E2 E2']. apply N.leb_le in E2. apply allIn_seen_true in E2' as [E2' _].
    destruct (E2' v0 Hv0) as (s & Hs & Hse & _). replace E with (E - 1 + 1)%N in Hs by lia. rewrite pred64_succ in Hs by lia.
    apply elem_of_cons in Hs as [->|Hs]; [simpl in *; lia|]. apply list_elem_of_singleton in Hs as ->. simpl in *. lia. }
  rewrite (proj2 (allIn_seen_true _ _ _ _)).
  2: { split.
       - intros v Hin. eapply v_one_of_weaken, Hv, Hin. set_solver.
       - exists v0. split; [done|]. split; [done|]. by rewrite (kv_Members c0 w _ Hobs). }
  unfold drain. replace (S k - 1) with k by lia. rewrite Hpk.
  assert (Hd : Drain (pod (obs_of w) k) = Some (Planner.mkHandoff (E + 1) true)).
  { rewrite obs_of_pod, Hsts, decide_True by (simpl; lia). unfold pod_of. rewrite Hall by lia. simpl.
    rewrite Members_None by done. do 2 f_equal. unfold drained_b. simpl. rewrite N.leb_refl. simpl.
    apply forallb_forall. intros [id ad] Hin%list_elem_of_In. apply elem_of_map_to_list, Members_lookup in Hin as (j & Hj & -> & ->).
    simpl. rewrite Ordinal_MemberID by (unfold rep_ok, int_ok, max_int in *; lia). rewrite Hall by lia. simpl.
    rewrite N.leb_refl. by rewrite orb_true_r. }
  rewrite Hd. simpl. rewrite N.eqb_refl. simpl.
  rewrite (viewAt_spec (obs_of w) (E + 1) (M k)).
  - do 2 eexists. split; done.
  - intros i m Hm _. destruct (observed_pods_in c0 w _ Hobs _ Hst i m Hm) as (s & Hs & _ & Hsm).
    apply list_elem_of_singleton in Hs as ->. by rewrite Hsm, (kv_Members c0 w _ Hobs).
  - exists k. eexists. split; [exact Hpk|done].
Qed.

Lemma exact_D3 w E k :
  w_cm w = Some (E, M k) → w_sts w = Some (S k) → in_states c0 w [(E, k)] → rep_ok k → (E + 2 < two64)%N →
  ∃ st, Plan (obs_of w) cfg = Some (ActScaleStatefulSet k, st) ∧ st_Reason st = Some RemovingPod.
Proof.
  intros Hcm Hsts Hst Hr Hb.
  eapply (plan_two_exact w E k (S k) E (E, k) (E + 1, k)%N); try done; [eapply in_states_weaken, Hst; set_solver|lia|].
  intros cm sts st Hce _ _ _. unfold classify. rewrite (proj2 (Nat.eqb_neq k (S k + 1))), (proj2 (Nat.eqb_neq k (S k))) by lia.
  rewrite (proj2 (Nat.eqb_eq k (S k - 1))), Hce by lia. rewrite (proj2 (allIn_ok_true _ _ _)); [do 2 eexists; split; done|].
  intros v. eapply views_one_of, observed_pods_in, Hst. apply obs_of_observes.
Qed.

(** ** What the cluster can do by itself *)

Definition frame (w w' : world) : Prop := w_spec w' = w_spec w ∧ w_cm w' = w_cm w ∧ w_sts w' = w_sts w.

#[local] Instance frame_preorder : PreOrder frame.
Proof. split; [done|]. unfold frame. intros x y z. naive_solver congruence. Qed.

Lemma steps_inv w w' : steps w w' → inv c0 w → inv c0 w'.
Proof. induction 1; eauto using step_inv. Qed.

(** Node [i] can be brought to the membership [(e, k)], with its handoff done. *)
Definition can_take (w : world) (i : nat) (e : N) (k : nat) : Prop :=
  (∀ v, w_node w !! i = Some v → (n_epoch v ≤ e)%N ∧ (n_epoch v = e → n_members v = M k)) ∧
  ∃ e0 c r, w_cm w = Some (e0, M c) ∧ w_sts w = Some r ∧ i < r ∧ i < c ∧ (e0 ≤ e)%N ∧ (e0 = e → c = k) ∧
    (e0 = e ∨ ∃ j u, w_node w !! j = Some u ∧ n_epoch u = e ∧ n_members u = M k).

Definition brought (w w' : world) (i : nat) (e : N) (k : nat) : Prop :=
  steps w w' ∧ frame w w' ∧ w_node w' = <[i := mkNode e (M k) e]> (w_node w) ∧ w_pvc w' = {[i]} ∪ w_pvc w.

Lemma env_steps w w' : env c0 w w' → steps w w'.
Proof. intros H. by apply rtc_once, step_env. Qed.

Lemma bring_same w i e k v :
  i ∈ w_pvc w → w_node w !! i = Some v → n_epoch v = e → n_members v = M k → ∃ w', brought w w' i e k.
Proof.
  intros Hp Hv He Hm. unfold brought. rewrite <-He, <-Hm. exists (set_node w i (mkNode (n_epoch v) (n_members v) (n_epoch v))).
  split; [by apply env_steps, env_handoff|]. split; [done|]. split; [done|]. simpl. set_solver.
Qed.

Lemma brought_after w w1 i e k :
  steps w w1 → frame w w1 → (∀ x, <[i := x]> (w_node w1) = <[i := x]> (w_node w)) → w_pvc w1 = {[i]} ∪ w_pvc w →
  (∃ w', brought w1 w' i e k) → ∃ w', brought w w' i e k.
Proof.
  intros Hs Hf Hn Hp (w' & Hs' & Hf' & Hn' & Hp'). exists w'. split; [by etrans|]. split; [by etrans|].
  split; [by rewrite Hn', Hn|]. rewrite Hp', Hp. set_solver.
Qed.

Lemma bring_newer w i e k v j u :
  i ∈ w_pvc w → w_node w !! i = Some v → (n_epoch v < e)%N → w_node w !! j = Some u → n_epoch u = e → n_members u = M k →
  ∃ w', brought w w' i e k.
Proof.
  intros Hp Hv Hlt Hu He Hm. eapply (brought_after w (set_node w i (mkNode (n_epoch u) (n_members u) (n_done v)))).
  - apply env_steps. eapply env_gossip; [exact Hu|exact Hv|lia].
  - done.
  - intros x. simpl. by rewrite insert_insert_eq.
  - simpl. set_solver.
  - eapply bring_same; [done|simpl; by rewrite lookup_insert_eq|done|done].
Qed.

Lemma bring w i e k : dom (w_node w) ⊆ w_pvc w → can_take w i e k → ∃ w', brought w w' i e k.
Proof.
  intros Hdom [Hv (e0 & c & r & Hcm & Hsts & Hr & Hc & He0 & Hck & Hsrc)].
  assert (Hstart : ∀ v, w_node w !! i = Some v → (n_epoch v < e)%N → e0 = e → ∃ w', brought w w' i e k).
  { intros v Hvi Hlt ->. rewrite (Hck eq_refl) in *.
    eapply (brought_after w (set_node w i (mkNode e (M k) (n_done v)))).
    - apply env_steps. eapply env_start; eauto; [by apply Members_elem|apply Hdom; by eapply elem_of_dom_2|by rewrite Hvi].
    - done.
    - intros x. simpl. by rewrite insert_insert_eq.
    - simpl. apply elem_of_dom_2 in Hvi. set_solver.
    - eapply bring_same; [apply Hdom; by eapply elem_of_dom_2|simpl; by rewrite lookup_insert_eq|done|done]. }
  destruct (w_node w !! i) as [v|] eqn:Hvi.
  - assert (Hp : i ∈ w_pvc w) by (apply Hdom; by eapply elem_of_dom_2).
    destruct (Hv v eq_refl) as [Hle Heq]. destruct (decide (n_epoch v = e)) as [Hx|Hx]; [by eapply bring_same; eauto|].
    destruct Hsrc as [->|(j & u & Hu & Hue & Hum)]; [by apply (Hstart v); [|lia|]|].
    eapply (bring_newer w i e k v j u); try done; lia.
  - set (w1 := claim w i). set (w2 := set_node w1 i (mkNode e0 (M c) 0)).
    assert (H1 : steps w w1) by (by apply env_steps; eapply env_claim).
    assert (H2 : steps w1 w2).
    { apply env_steps. eapply env_start; eauto; [by apply Members_elem|simpl; set_solver|simpl; rewrite Hvi; lia]. }
    apply (brought_after w w2); [by etrans|done|intros x; simpl; by rewrite insert_insert_eq|done|].
    assert (Hp2 : i ∈ w_pvc w2) by (simpl; set_solver).
    assert (Hn2 : w_node w2 !! i = Some (mkNode e0 (M c) 0)) by (simpl; by rewrite lookup_insert_eq).
    destruct (decide (e0 = e)) as [->|Hne]; [eapply bring_same; [done|exact Hn2|done|simpl; by rewrite Hck]|].
    destruct Hsrc as [|(j & u & Hu & Hue & Hum)]; [done|].
    eapply (bring_newer w2 i e k _ j u Hp2 Hn2); [simpl; lia| |done|done].
    simpl. rewrite lookup_insert_ne; [done|]. intros ->. congruence.
Qed.

Lemma bring_all w r e k n :
  inv c0 w → (∀ i, i < r → can_take w i e k) → n ≤ r →
  ∃ w', steps w w' ∧ frame w w' ∧ (∀ i, i < n → w_node w' !! i = Some (mkNode e (M k) e)) ∧
        (∀ i, n ≤ i → w_node w' !! i = w_node w !! i) ∧ (∀ i, i ∈ w_pvc w' → i ∈ w_pvc w ∨ i < n).
Proof.
  intros Hinv Htake. induction n as [|n IH]; intros Hn.
  - exists w. split; [done|]. split; [done|]. split; [lia|]. split; [done|]. auto.
  - destruct IH as (w1 & Hs & (Hf1 & Hf2 & Hf3) & Hlow & Hhigh & Hp); [lia|].
    destruct (bring w1 n e k) as (w2 & Hs2 & Hf' & Hn2 & Hp2).
    + apply inv_pvc with c0. by eapply steps_inv.
    + destruct (Htake n ltac:(lia)) as [Hv (e0 & c & r' & Hcm & Hsts & Hr & Hc & He0 & Hck & Hsrc)].
      split; [by rewrite Hhigh by lia|]. exists e0, c, r'. rewrite Hf2, Hf3. do 6 (split; [done|]).
      destruct Hsrc as [|(j & u & Hu & Hue & Hum)]; [by left|]. right. exists j.
      destruct (decide (j < n)) as [Hj|Hj]; [rewrite Hlow by done; eauto|exists u; by rewrite Hhigh by lia].
    + exists w2. split; [by etrans|]. split; [by transitivity w1|]. rewrite Hn2, Hp2. split; [|split].
      * intros i Hi. destruct (decide (i = n)) as [->|Hne]; [by rewrite lookup_insert_eq|].
        rewrite lookup_insert_ne by done. apply Hlow. lia.
      * intros i Hi. rewrite lookup_insert_ne by lia. apply Hhigh. lia.
      * intros i [->%elem_of_singleton|[?|?]%Hp]%elem_of_union; [lia|auto|lia].
Qed.

Lemma release_some w r n :
  w_sts w = Some r →
  ∃ w', steps w w' ∧ frame w w' ∧ (∀ i, i < r → w_node w' !! i = w_node w !! i) ∧
        (∀ i, i ∈ w_pvc w' → i ∈ w_pvc w ∧ (i < r ∨ r + n ≤ i)).
Proof.
  intros Hr. induction n as [|n (w1 & Hs & Hf & Hlow & Hp)].
  - exists w. split; [done|]. split; [done|]. split; [done|]. intros i Hi. split; [done|]. lia.
  - exists (release w1 (r + n)). split.
    { etrans; [exact Hs|]. apply env_steps. eapply env_release; [|by apply Nat.le_add_r]. destruct Hf as (_ & _ & ->). done. }
    split; [exact Hf|]. split.
    + intros i Hi. simpl. rewrite lookup_delete_ne by lia. auto.
    + intros i [Hi Hne]%elem_of_difference. apply Hp in Hi as [Hi Hc]. split; [done|].
      assert (i ≠ r + n) by set_solver. lia.
Qed.

Lemma release_all w r :
  w_sts w = Some r → inv c0 w →
  ∃ w', steps w w' ∧ frame w w' ∧ (∀ i, i < r → w_node w' !! i = w_node w !! i) ∧
        (∀ i, r ≤ i → w_node w' !! i = None) ∧ clean w' r.
Proof.
  intros Hr Hinv. destruct (release_some w r (S (max_list (elements (w_pvc w)))) Hr) as (w' & Hs & Hf & Hlow & Hp).
  assert (Hclean : clean w' r).
  { intros i Hi. apply Hp in Hi as [Hi [?|Hbig]]; [done|].
    assert (i ≤ max_list (elements (w_pvc w))) by (by apply max_list_elem_of_le, elem_of_elements). lia. }
  exists w'. split; [done|]. split; [done|]. split; [done|]. split; [|done].
  intros i Hi. apply not_elem_of_dom. intros Hin%(inv_pvc _ _ (steps_inv _ _ Hs Hinv)). apply Hclean in Hin. lia.
Qed.

Lemma bring_and_release w r e k :
  inv c0 w → w_sts w = Some r → (∀ i, i < r → can_take w i e k) →
  ∃ w', steps w w' ∧ frame w w' ∧ (∀ i, i < r → w_node w' !! i = Some (mkNode e (M k) e)) ∧
        (∀ i, r ≤ i → w_node w' !! i = None) ∧ clean w' r.
Proof.
  intros Hinv Hr Htake. destruct (bring_all w r e k r Hinv Htake (le_n r)) as (w1 & Hs1 & Hf1 & Hlow1 & _).
  pose proof Hf1 as (_ & _ & Hsts1).
  destruct (release_all w1 r) as (w2 & Hs2 & Hf2 & Hlow2 & Hhigh2 & Hc2); [congruence|by eapply steps_inv|].
  exists w2. split; [by etrans|]. split; [by transitivity w1|]. split; [|done].
  intros i Hi. rewrite Hlow2 by done. auto.
Qed.

(** Nothing in the way: the pods start, spread the ConfigMap's membership and hand off. *)
Lemma to_settled w e k :
  inv c0 w → w_cm w = Some (e, M k) → w_sts w = Some k →
  (∀ i v, w_node w !! i = Some v → (n_epoch v ≤ e)%N ∧ (n_epoch v = e → n_members v = M k)) →
  ∃ w', steps w w' ∧ w_spec w' = w_spec w ∧ settled c0 w' e k ∧ clean w' k.
Proof.
  intros Hinv Hcm Hsts Hv.
  destruct (bring_and_release w k e k Hinv Hsts) as (w' & Hs & (Hf1 & Hf2 & Hf3) & Hlow & Hhigh & Hc).
  { intros i Hi. split; [by apply Hv|]. exists e, k, k. repeat split; try done. by left. }
  exists w'. split; [done|]. split; [done|]. split; [|done]. split; [congruence|]. split; [congruence|]. split; [|done].
  intros i Hi. rewrite Hlow by done. eexists. split; [done|]. simpl. repeat split; lia || done.
Qed.

Lemma op_round w a st w' :
  Plan (obs_of w) cfg = Some (a, st) → execute c0 a w = Some w' → room w → steps w w'.
Proof. intros Hp Hx Hr. apply rtc_once. eapply step_operator; eauto using obs_of_observes. Qed.

Lemma in_pair w i v s t :
  in_states c0 w [s; t] → w_node w !! i = Some v →
  (n_epoch v = s.1 ∧ n_members v = M s.2) ∨ (n_epoch v = t.1 ∧ n_members v = M t.2).
Proof.
  intros H Hi. destruct (H i v Hi) as (x & Hx & Hxx).
  apply elem_of_cons in Hx as [->|Hx]; [by left|]. apply list_elem_of_singleton in Hx as ->. by right.
Qed.

Lemma finish_up w E k :
  inv c0 w → w_cm w = Some (E + 1, M (S k))%N → w_sts w = Some k ∨ w_sts w = Some (S k) →
  in_states c0 w [(E, k); (E + 1, S k)%N] → rep_ok (S k) → (E + 4 < two64)%N →
  ∃ w', steps w w' ∧ w_spec w' = w_spec w ∧ settled c0 w' (E + 1) (S k) ∧ clean w' (S k).
Proof.
  assert (Hle : ∀ w, in_states c0 w [(E, k); (E + 1, S k)%N] → ∀ i v, w_node w !! i = Some v →
    (n_epoch v ≤ E + 1)%N ∧ (n_epoch v = (E + 1)%N → n_members v = M (S k))).
  { intros w' Hst i v Hi. destruct (in_pair w' i v _ _ Hst Hi) as [[H1 H2]|[H1 H2]]; simpl in *; split; [lia|lia|lia|done]. }
  intros Hinv Hcm [Hsts|Hsts] Hst Hr Hb; [|by apply to_settled; eauto].
  destruct (bring_and_release w k (E + 1) (S k) Hinv Hsts) as (w1 & Hs & Hf & Hlow & Hhigh & Hc).
  { intros i Hi. split; [by apply Hle|]. exists (E + 1)%N, (S k), k. repeat split; try done; [lia|by left]. }
  pose proof Hf as (Hf1 & Hf2 & Hf3).
  assert (Hst1 : in_states c0 w1 [(E, k); (E + 1, S k)%N]).
  { intros i v Hi. destruct (decide (i < k)) as [Hik|Hik]; [|rewrite Hhigh in Hi by lia; done].
    rewrite Hlow in Hi by done. injection Hi as <-. exists (E + 1, S k)%N. split; [set_solver|done]. }
  destruct (exact_U1 w1 E k) as (st & Hp & _); try congruence; try lia; [done|by intros i Hi; rewrite Hlow by done|intros Hk%Hc; lia|].
  destruct (to_settled (set_sts w1 (S k)) (E + 1) (S k)) as (w2 & Hs2 & Hsp & Hset & Hcl); [|cbn [w_cm set_sts]; congruence|done|by apply Hle|].
  - eapply steps_inv; [|exact Hinv]. etrans; [exact Hs|]. eapply op_round; [exact Hp|done|]. unfold room. rewrite Hf2, Hcm. lia.
  - exists w2. split; [|split; [simpl in Hsp; congruence|done]]. etrans; [exact Hs|]. etrans; [|exact Hs2].
    eapply op_round; [exact Hp|done|]. unfold room. rewrite Hf2, Hcm. lia.
Qed.

(** D4 and after. *)
Lemma finish_removed w E k :
  inv c0 w → w_cm w = Some (E, M k) → w_sts w = Some (S k) → in_states c0 w [(E, k)] → rep_ok k → (E + 3 < two64)%N →
  ∃ w', steps w w' ∧ w_spec w' = w_spec w ∧ settled c0 w' E k ∧ clean w' k.
Proof.
  intros Hinv Hcm Hsts Hst Hr Hb. destruct (exact_D3 w E k) as (st & Hp & _); try done; [lia|].
  assert (Hround : steps w (set_sts w k)) by (eapply op_round; [exact Hp|done|unfold room; rewrite Hcm; lia]).
  destruct (to_settled (set_sts w k) E k) as (w2 & Hs2 & Hsp & Hset & Hcl); [by eapply steps_inv|done|done| |].
  - intros i v Hi. destruct (in_states_one c0 w _ _ i v Hst Hi) as [-> ?]. done.
  - exists w2. split; [by etrans|done].
Qed.

Lemma finish_down w E k j u :
  inv c0 w → w_cm w = Some (E, M (S k)) → w_sts w = Some (S k) → in_states c0 w [(E, S k); (E + 1, k)%N] →
  spec_ok c0 k → rep_ok (S k) → (E + 4 < two64)%N → w_node w !! j = Some u → n_epoch u = (E + 1)%N →
  ∃ w', steps w w' ∧ w_spec w' = w_spec w ∧ settled c0 w' (E + 1) k ∧ clean w' k.
Proof.
  intros Hinv Hcm Hsts Hst Hk Hr Hb Hu Hue.
  assert (Hum : n_members u = M k) by (destruct (in_pair w j u _ _ Hst Hu) as [[? ?]|[? ?]]; simpl in *; [lia|done]).
  destruct (bring_and_release w (S k) (E + 1) k Hinv Hsts) as (w1 & Hs & Hf & Hlow & Hhigh & Hc).
  { intros i Hi. split.
    - intros v Hv. destruct (in_pair w i v _ _ Hst Hv) as [[? ?]|[? ?]]; simpl in *; split; [lia|lia|lia|done].
    - exists E, (S k), (S k). repeat split; try done; [lia|lia|]. right. eauto. }
  pose proof Hf as (Hf1 & Hf2 & Hf3).
  destruct (exact_D2 w1 E k) as (st & Hp & _); try congruence; try done; [lia|].
  set (w2 := set_cm w1 (E + 1) (M k)).
  assert (Hround : steps w w2).
  { etrans; [exact Hs|]. eapply op_round; [exact Hp|unfold execute; by rewrite render_Members|unfold room; rewrite Hf2, Hcm; lia]. }
  destruct (finish_removed w2 (E + 1) k) as (w3 & Hs3 & Hsp & Hset & Hcl); [by eapply steps_inv|done|simpl; congruence| |by apply Hk|lia|].
  - intros i v Hi. simpl in Hi. destruct (decide (i < S k)) as [Hik|Hik]; [|rewrite Hhigh in Hi by lia; done].
    rewrite Hlow in Hi by done. injection Hi as <-. eexists. split; [by left|done].
  - exists w3. split; [by etrans|]. split; [simpl in Hsp; congruence|done].
Qed.

Lemma spec_ok_S k : spec_ok c0 k → rep_ok (S k) → spec_ok c0 (S k).
Proof. intros (? & ? & ?) ?. repeat split; [lia|lia|done]. Qed.

(** ** From anywhere to a settled cluster *)

Definition settles (w : world) (b : N) : Prop :=
  ∃ w' E k, steps w w' ∧ w_spec w' = w_spec w ∧ settled c0 w' E k ∧ clean w' k ∧ spec_ok c0 k ∧ (E + b < two64)%N.

Lemma settles_boot1 w k b :
  inv c0 w → w_cm w = Some (0%N, M k) → w_sts w = None → w_node w = ∅ → spec_ok c0 k → (b < two64)%N → settles w b.
Proof.
  intros Hinv Hcm Hsts Hn Hk Hb.
  assert (Hround : steps w (set_sts w k)).
  { assert (Hp : ∃ st, Plan (obs_of w) cfg = Some (ActScaleStatefulSet k, st)).
    { unfold Plan, plan, bootstrap. simpl. rewrite Hcm, Hsts. simpl.
      rewrite <-(kv_Members c0 w _ (obs_of_observes c0 w)), validMembers_Members; [by eexists|].
      destruct Hk as (_ & _ & Hk). unfold rep_ok, int_ok, max_int in *. lia. }
    destruct Hp as [st Hp]. eapply op_round; [exact Hp|done|]. unfold room. rewrite Hcm. done. }
  destruct (to_settled (set_sts w k) 0 k) as (w2 & Hs2 & Hsp & Hset & Hcl); [by eapply steps_inv|done|done| |].
  - intros i v Hi. simpl in Hi. by rewrite Hn, lookup_empty in Hi.
  - exists w2, 0%N, k. repeat (split; [done || by etrans|]). lia.
Qed.

Lemma settles_boot0 w b :
  inv c0 w → w_cm w = None → w_sts w = None → w_node w = ∅ → (b < two64)%N → settles w b.
Proof.
  intros Hinv Hcm Hsts Hn Hb. pose proof (inv_spec _ _ Hinv) as Hk. set (w1 := set_cm w 0 (M (w_spec w))).
  assert (Hround : steps w w1).
  { eapply (op_round _ (ActWriteConfigMap 0 (M (w_spec w)))); [| |unfold room; by rewrite Hcm].
    - unfold Plan, plan, bootstrap. simpl. rewrite Hcm, Hsts. simpl.
      rewrite (kv_Members c0 w _ (obs_of_observes c0 w)). reflexivity.
    - unfold execute. by rewrite render_Members. }
  destruct (settles_boot1 w1 (w_spec w) b) as (w2 & E & k & Hs2 & Hsp & Hrest); try done; [by eapply steps_inv|].
  exists w2, E, k. split; [by etrans|]. done.
Qed.

Lemma settles_any w b :
  inv c0 w → match w_cm w with Some (e, _) => e + b + 4 < two64 | None => b < two64 end%N → settles w b.
Proof.
  intros Hinv Hb. destruct (inv_phase _ _ Hinv) as
    [Hcm Hsts Hn|k Hcm Hsts Hn Hk|E k Hcm Hsts Hst Hk _|E k Hcm Hsts Hst Hk Hr _|E k Hcm Hsts Hst Hk Hr _|E k Hcm Hsts Hst Hh Hk Hr _|E k Hcm Hsts Hst _ _ Hk Hr _];
    rewrite Hcm in Hb.
  - by apply settles_boot0.
  - apply (settles_boot1 w k); try done. lia.
  - destruct (to_settled w E k) as (w' & Hs & Hsp & Hset & Hcl); try done.
    + intros i v Hi. destruct (in_states_one c0 w _ _ i v Hst Hi) as [-> ?]. done.
    + exists w', E, k. repeat (split; [done|]). lia.
  - destruct (finish_up w E k) as (w' & Hs & Hsp & Hset & Hcl); auto; [lia|].
    exists w', (E + 1)%N, (S k). do 4 (split; [done|]). split; [by apply spec_ok_S|lia].
  - destruct (finish_up w E k) as (w' & Hs & Hsp & Hset & Hcl); auto; [lia|].
    exists w', (E + 1)%N, (S k). do 4 (split; [done|]). split; [by apply spec_ok_S|lia].
  - destruct (decide (map_Forall (λ _ v, n_epoch v ≠ (E + 1)%N) (w_node w))) as [Hall|Hsome].
    + destruct (to_settled w E (S k)) as (w' & Hs & Hsp & Hset & Hcl); try done.
      * intros i v Hi. pose proof (Hall i v Hi). destruct (in_pair w i v _ _ Hst Hi) as [[-> ?]|[? ?]]; [done|]. simpl in *. lia.
      * exists w', E, (S k). do 4 (split; [done|]). split; [by apply spec_ok_S|lia].
    + apply map_not_Forall in Hsome as (j & u & Hu & Hue); [|apply _].
      destruct (finish_down w E k j u) as (w' & Hs & Hsp & Hset & Hcl); try done; [lia|destruct (decide (n_epoch u = (E + 1)%N)); [done|naive_solver]|].
      exists w', (E + 1)%N, k. do 5 (split; [done|]). lia.
  - destruct (finish_removed w (E + 1) k) as (w' & Hs & Hsp & Hset & Hcl); try done; [by apply Hk|lia|].
    exists w', (E + 1)%N, k. do 5 (split; [done|]). lia.
Qed.

(** One change towards the spec. *)
Lemma settled_change w E k :
  inv c0 w → settled c0 w E k → clean w k → spec_ok c0 k → (E + 4 < two64)%N → k ≠ w_spec w →
  ∃ w' k', steps w w' ∧ w_spec w' = w_spec w ∧ settled c0 w' (E + 1) k' ∧ clean w' k' ∧ spec_ok c0 k' ∧
           k' = (if k <? w_spec w then S k else k - 1).
Proof.
  intros Hinv Hset Hc Hk Hb Hne. pose proof Hset as (Hcm & Hsts & Hlow & Hhigh). pose proof (inv_spec _ _ Hinv) as Hspec.
  pose proof (settled_in_states c0 w E k Hset) as Hst. pose proof (obs_of_observes c0 w) as Hobs.
  destruct (exact_settled w E k Hset Hc Hk) as (st & Hp & _); [lia|].
  assert (Hroom : room w) by (unfold room; rewrite Hcm; lia).
  unfold rest_action in Hp. change (spec_Replicas (kv (obs_of w))) with (w_spec w) in Hp.
  rewrite !(kv_Members c0 w _ Hobs) in Hp.
  destruct (Nat.ltb_spec k (w_spec w)) as [Hup|Hup].
  - assert (Hk' : spec_ok c0 (S k)).
    { apply spec_ok_S; [done|]. destruct Hspec as (_ & _ & Hr). unfold rep_ok in *. lia. }
    cbn [fst] in Hp. set (w1 := set_cm w (E + 1) (M (S k))).
    assert (Hround : steps w w1) by (eapply op_round; [exact Hp|unfold execute; by rewrite render_Members|done]).
    destruct (finish_up w1 E k) as (w' & Hs & Hsp & Hset' & Hcl); [by eapply steps_inv|done|by left| |by apply Hk'|lia|].
    + eapply in_states_weaken, Hst. set_solver.
    + exists w', (S k). split; [by etrans|]. done.
  - assert (Hdn : w_spec w < k) by lia. rewrite (proj2 (Nat.ltb_lt _ _) Hdn) in Hp. simpl in Hp.
    assert (Hk' : spec_ok c0 (k - 1)).
    { destruct Hspec as (? & ? & ?), Hk as (? & ? & Hr). unfold spec_ok, rep_ok in *. lia. }
    destruct (Hlow 0) as (v & Hv & He & Hm & Hd); [lia|].
    set (w1 := set_node w 0 (mkNode (E + 1) (M (k - 1)) (n_done v))).
    assert (Hround : steps w w1).
    { eapply op_round; [exact Hp| |done]. simpl. rewrite Hv, He, Members_size.
      rewrite (proj2 (N.ltb_lt E (E + 1))) by lia. destruct Hk' as (_ & Hn & _). by rewrite (proj2 (Nat.leb_le _ _) Hn). }
    assert (Hk1 : S (k - 1) = k) by lia.
    destruct (finish_down w1 E (k - 1) 0 (mkNode (E + 1) (M (k - 1)) (n_done v))) as (w' & Hs & Hsp & Hset' & Hcl);
      rewrite ?Hk1; try done; [by eapply steps_inv| |by apply Hk|simpl; by rewrite lookup_insert_eq|].
    + apply in_states_set; [eapply in_states_weaken, Hst; set_solver|].
      exists ((E + 1)%N, k - 1). split; [set_solver|done].
    + exists w', (k - 1). split; [by etrans|]. done.
Qed.

Lemma settled_spec d w E k :
  inv c0 w → settled c0 w E k → clean w k → spec_ok c0 k → (k - w_spec w) + (w_spec w - k) = d → (E + N.of_nat d + 4 < two64)%N →
  ∃ w' E', steps w w' ∧ w_spec w' = w_spec w ∧ settled c0 w' E' (w_spec w) ∧ clean w' (w_spec w) ∧ (E' + 4 < two64)%N.
Proof.
  revert w E k. induction d as [|d IH]; intros w E k Hinv Hset Hc Hk Hd Hb.
  - assert (k = w_spec w) as -> by lia. exists w, E. repeat (split; [done|]). lia.
  - destruct (settled_change w E k) as (w1 & k1 & Hs1 & Hsp1 & Hset1 & Hc1 & Hk1 & Hkk); try done; [lia|lia|].
    destruct (IH w1 (E + 1)%N k1) as (w2 & E2 & Hs2 & Hsp2 & Hset2 & Hc2 & Hb2); try done.
    + by eapply steps_inv.
    + rewrite Hsp1. destruct (Nat.ltb_spec k (w_spec w)); lia.
    + lia.
    + exists w2, E2. rewrite Hsp1 in *. split; [by etrans|]. done.
Qed.

(** C20: From every reachable state of the cluster, while the epochs are at least
    [2^32] below their limit, there is a run to a state in which every pod the
    spec asks for, and no other, holds one membership of exactly those pods with
    its handoff done, no volume of a removed pod is left, and the planner, seeing
    every pod, reports Ready and has nothing to do. *)
Theorem spec_is_reachable w :
  reachable_world c0 w → match w_cm w with Some (e, _) => e + 4294967296 < two64 | None => True end%N →
  ∃ w' E st, steps w w' ∧ w_spec w' = w_spec w ∧ settled c0 w' E (w_spec w) ∧ clean w' (w_spec w) ∧
             Plan (obs_of w') cfg = Some (ActNone (Idle cfg), st) ∧ st_Reason st = Some ReadyReason.
Proof.
  intros Hw Hb. pose proof (world_reachable_inv c0 w Hw) as Hinv. pose proof (inv_spec _ _ Hinv) as Hspec.
  destruct (settles_any w 2147483660 Hinv) as (w1 & E1 & k1 & Hs1 & Hsp1 & Hset1 & Hc1 & Hk1 & Hb1).
  { destruct (w_cm w) as [[e m]|]; [lia|unfold two64; lia]. }
  destruct (settled_spec _ w1 E1 k1 (steps_inv _ _ Hs1 Hinv) Hset1 Hc1 Hk1 eq_refl) as (w2 & E2 & Hs2 & Hsp2 & Hset2 & Hc2 & Hb2).
  { destruct Hspec as (_ & _ & Hr), Hk1 as (_ & _ & Hr1). rewrite Hsp1. unfold rep_ok in *. lia. }
  rewrite Hsp1 in *.
  destruct (exact_settled w2 E2 (w_spec w) Hset2 Hc2 Hspec) as (st & Hp & Hr); [lia|].
  exists w2, E2, st. split; [by etrans|]. split; [done|]. split; [done|]. split; [done|].
  unfold rest_action in Hp, Hr. change (spec_Replicas (kv (obs_of w2))) with (w_spec w2) in Hp, Hr.
  rewrite Hsp2, (proj2 (Nat.ltb_ge (w_spec w) (w_spec w)) (le_n _)) in Hp, Hr. done.
Qed.
End rounds.

Lemma spec_is_reachable_witness :
  ∃ w' E st, rtc (step Example.kv2) Example.leaving w' ∧ w_spec w' = 1 ∧ settled Example.kv2 w' E 1 ∧ clean w' 1 ∧
             Plan (obs_of Example.kv2 w') Example.cfg = Some (ActNone 60, st) ∧ st_Reason st = Some ReadyReason.
Proof.
  apply (spec_is_reachable Example.kv2 Example.cfg Example.leaving); [apply Example.leaving_reachable|vm_compute; reflexivity].
Defined.
