(* ===== verification/ChaosPredict.v ===== *)
(** * Predicting a fault's effect (internal/chaos/topology.go, predict.go)

    The tool that predicts, before a failure test, which requests a fault makes
    fail: the captured topology with the nodes' own ring, fault
    specifications, and the outcome of a request for a key sent to a pod or
    through the Service.

    Shown: what a parsed fault names; that a prediction counts exactly the
    replicas the coordinator can reach, and that the prediction for a request
    through the Service holds whatever pod it reaches. *)

From stdpp Require Import gmap strings list sorting pretty.
From Stdlib Require Import ZArith Lia Ascii.
From S2P Require Import Prelude GoLib GoStrings HashRing Sha256 Quote Membership.

Open Scope nat_scope.

(** ** Topologies *)

(** Durations in nanoseconds *)
Record Timing := mkTiming {
  HeartbeatInterval : Z; HeartbeatTimeout : Z; MaxMissedHeartbeats : Z; ReplicationTimeout : Z;
  MaxReconnectBackoff : Z; HintDelivery : Z; AntiEntropyInterval : Z
}.

Definition Detection (t : Timing) : Z := (MaxMissedHeartbeats t * HeartbeatInterval t + HeartbeatTimeout t)%Z.
Definition Recovery (t : Timing) : Z := (MaxReconnectBackoff t + 2 * HeartbeatInterval t + HeartbeatTimeout t)%Z.

Record Pod := mkPod { ID : string; Address : string; Node : string; Zone : string }.

Record Topology := mkTopology {
  t_Epoch : N; t_N : nat; t_W : nat; t_R : nat; t_Fingerprint : string; t_Timing : Timing; t_Pods : list Pod;
  t_ring : HashRing; byID : gmap string Pod
}.

Inductive topology_error :=
  | NoPods | BadQuorums | PodIncomplete (p : Pod) | PodTwice (id : string) | FingerprintDiffers | NoRing (e : ring_error).

Definition pod_le (p q : Pod) : Prop := String.le (ID p) (ID q).
#[global] Instance pod_le_dec : RelDecision pod_le.
Proof. intros p q. unfold pod_le. apply _. Defined.

Definition Members (pods : list Pod) : gmap string string :=
  fold_left (λ m p, <[ID p := Address p]> m) pods ∅.

Definition pod_incomplete (p : Pod) : bool :=
  bool_decide (ID p = "") || bool_decide (Address p = "") || bool_decide (Zone p = "").

Fixpoint index_pods (pods : list Pod) (m : gmap string Pod) : res topology_error (gmap string Pod) :=
  match pods with
  | [] => Ok m
  | p :: rest =>
      if pod_incomplete p then Err (PodIncomplete p)
      else match m !! ID p with
           | Some _ => Err (PodTwice (ID p))
           | None => index_pods rest (<[ID p := p]> m)
           end
  end.

Section ring.
Context `{Unicode}.

Definition NewRing (m : gmap string string) (n : nat) (fp : string) : res topology_error HashRing :=
  if bool_decide (fp = fingerprint m n) then
    match NewHashRingFromMembers defaultVirtualNodesPerPhysical (sorted_ids m) with Ok r => Ok r | Err e => Err (NoRing e) end
  else Err FingerprintDiffers.

(** [init]: the topology it leaves. *)
Definition init (e : N) (n w r : nat) (fp : string) (tm : Timing) (pods : list Pod) : res topology_error Topology :=
  if length pods =? 0 then Err NoPods
  else if (n <? 1) || (w <? 1) || (r <? 1) || (n <? w) || (n <? r) || (length pods <? n) then Err BadQuorums
  else
    let pods := merge_sort pod_le pods in
    match index_pods pods ∅ with
    | Err e => Err e
    | Ok ids =>
        match NewRing (Members pods) n fp with
        | Err e => Err e
        | Ok ring => Ok (mkTopology e n w r fp tm pods ring ids)
        end
    end.

Definition NewTopology (pods : list Pod) (n w r : nat) (tm : Timing) : res topology_error Topology :=
  init 0 n w r (fingerprint (Members pods) n) tm pods.
End ring.

Definition Zones (t : Topology) : gmap string (list string) :=
  fold_left (λ z p, <[Zone p := default [] (z !! Zone p) ++ [ID p]]> z) (t_Pods t) ∅.
Definition SortedZones (t : Topology) : list string := sort_strings (elements (dom (Zones t))).
Definition Replicas (t : Topology) (key : string) : list string := GetPreferenceList (t_ring t) key (t_N t).

(** ** Faults *)

Inductive Op := OpPut | OpGet.
Inductive FaultKind := FaultNone | FaultDown | FaultPartition.
Record Fault := mkFault { Kind : FaultKind; FPods : list string }.
Inductive fault_error := NoneTakesNoPods | NoZone (z : string) | BadFault | NoMember (id : string) | SomeNotAll.

#[global] Instance FaultKind_eq_dec : EqDecision FaultKind.
Proof. solve_decision. Defined.
#[global] Instance Op_eq_dec : EqDecision Op.
Proof. solve_decision. Defined.

(** [slices.Compact] *)
Fixpoint compact (l : list string) : list string :=
  match l with
  | [] => []
  | x :: rest => match rest with [] => [x] | y :: _ => if bool_decide (x = y) then compact rest else x :: compact rest end
  end.

(** The end of [ParseFault]: the pods in order, once each. *)
Definition named_fault (t : Topology) (k : FaultKind) (pods : list string) : res fault_error Fault :=
  let pods := compact (sort_strings pods) in
  match List.find (λ id, match byID t !! id with Some _ => false | None => true end) pods with
  | Some id => Err (NoMember id)
  | None => if (length pods =? 0) || (length pods =? length (t_Pods t)) then Err SomeNotAll else Ok (mkFault k pods)
  end.

Definition ParseFault (spec : string) (t : Topology) : res fault_error Fault :=
  let '(kind, rest) := Cut ":" spec in
  let arg := default "" rest in
  if bool_decide (kind = "none") then if bool_decide (arg = "") then Ok (mkFault FaultNone []) else Err NoneTakesNoPods
  else if bool_decide (kind = "down") then named_fault t FaultDown (Split "," arg)
  else if bool_decide (kind = "partition") then named_fault t FaultPartition (Split "," arg)
  else if bool_decide (kind = "zone") || bool_decide (kind = "partition-zone") then
    match Zones t !! arg with
    | None => Err (NoZone arg)
    | Some pods => named_fault t (if bool_decide (kind = "partition-zone") then FaultPartition else FaultDown) pods
    end
  else Err BadFault.

(** ** Predictions *)

Inductive Outcome := OutOk | OutFail | TargetDown | Unknowable.
#[global] Instance Outcome_eq_dec : EqDecision Outcome.
Proof. solve_decision. Defined.

Section topology.
Context (t : Topology).

Definition need (op : Op) : nat := match op with OpGet => t_R t | OpPut => t_W t end.

Definition in_fault (f : Fault) (id : string) : bool := bool_decide (id ∈ FPods f).

(** [reach]: the replicas on one side. *)
Definition reach (f : Fault) (key : string) (side : bool) : nat :=
  length (bfilter (λ r, Bool.eqb (in_fault f r) side) (Replicas t key)).

Definition ok (op : Op) (n : nat) : Outcome := if need op <=? n then OutOk else OutFail.

(** An empty target is a request through the Service. *)
Definition Expect (f : Fault) (op : Op) (key target : string) : Outcome :=
  match Kind f with
  | FaultNone => OutOk
  | FaultDown =>
      if negb (bool_decide (target = "")) && in_fault f target then TargetDown else ok op (reach f key false)
  | FaultPartition =>
      if bool_decide (target = "") then
        if bool_decide (ok op (reach f key true) = ok op (reach f key false)) then ok op (reach f key true) else Unknowable
      else ok op (reach f key (in_fault f target))
  end.

(** [None] is -1. *)
Definition Unreachable (f : Fault) (key target : string) : option nat :=
  match Kind f with
  | FaultNone => Some 0
  | k =>
      if bool_decide (k = FaultPartition) && bool_decide (target = "") then None
      else
        let targetIn := bool_decide (k = FaultPartition) && in_fault f target in
        Some (length (bfilter (λ r, (bool_decide (k = FaultDown) && in_fault f r) ||
                                    (bool_decide (k = FaultPartition) && negb (Bool.eqb (in_fault f r) targetIn)))
                              (Replicas t key)))
  end.

(** [KeyName], with [%07d] *)
Definition KeyName (prefix : string) (i : nat) : string := prefix +:+ "-" +:+ pad7 i.

Definition ParseKeySpec (spec : string) : option (list string) :=
  let '(prefix, rest) := Cut ":" spec in
  match rest with
  | None => None
  | Some count =>
      if bool_decide (prefix = "") then None
      else match Atoi count with
           | Some n => if (n <=? 0)%Z then None else Some (KeyName prefix <$> seq 0 (Z.to_nat n))
           | None => None
           end
  end.

Inductive Side := SideLive | SideGroup | SideRest.

(** The first pod inside and outside of the fault, the empty string for none. *)
Definition first_in (f : Fault) (inside : bool) : string :=
  match List.find (λ p, Bool.eqb (in_fault f (ID p)) inside) (t_Pods t) with Some p => ID p | None => "" end.
Definition Sides (f : Fault) : list (Side * string) :=
  match Kind f with
  | FaultPartition => [(SideGroup, first_in f true); (SideRest, first_in f false)]
  | _ => [(SideLive, first_in f false)]
  end.

Record KeyPrediction := mkKP { kp_Key : string; kp_Replicas : list string; kp_Zones : list string; kp_Expect : list (Side * (Op → Outcome)) }.

Definition PredictKey (f : Fault) (key : string) : KeyPrediction :=
  mkKP key (Replicas t key)
    ((λ r, match byID t !! r with Some p => Zone p | None => "" end) <$> Replicas t key)
    ((λ s, (s.1, λ op, Expect f op key s.2)) <$> Sides f).

(** [Summarize]: for each side and operation the keys that fail, and those that fail from every side. *)
Definition fails (f : Fault) (op : Op) (target : string) (keys : list string) : nat :=
  length (bfilter (λ k, negb (bool_decide (Expect f op k target = OutOk))) keys).
Definition Fails (f : Fault) (keys : list string) : list (Side * (Op → nat)) :=
  (λ s, (s.1, λ op, fails f op s.2 keys)) <$> Sides f.
Definition Nowhere (f : Fault) (keys : list string) (op : Op) : nat :=
  length (bfilter (λ k, forallb (λ s, negb (bool_decide (Expect f op k s.2 = OutOk))) (Sides f)) keys).

Definition small_zones : list (list string) :=
  omap (λ z, match Zones t !! z with Some pods => if length pods <? length (t_Pods t) then Some pods else None | None => None end)
    (SortedZones t).
Definition StandardFaults : list Fault :=
  ((λ p, mkFault FaultDown [ID p]) <$> t_Pods t) ++ (mkFault FaultDown <$> small_zones) ++ (mkFault FaultPartition <$> small_zones).
End topology.

(** ** Properties *)

Lemma sort_strings_elem_of l x : x ∈ sort_strings l ↔ x ∈ l.
Proof. by rewrite sort_strings_perm. Qed.

Lemma compact_spec l : StronglySorted String.le l →
  StronglySorted String.le (compact l) ∧ NoDup (compact l) ∧ ∀ x, x ∈ compact l ↔ x ∈ l.
Proof.
  induction l as [|x l IH]; intros Hs; [split; [constructor|split; [constructor|done]]|].
  apply StronglySorted_inv in Hs as [Hs Hx]. destruct (IH Hs) as (IH1 & IH2 & IH3). clear IH.
  destruct l as [|y l]; [split; [by repeat constructor|split; [apply NoDup_singleton|done]]|].
  change (compact (x :: y :: l)) with (if bool_decide (x = y) then compact (y :: l) else x :: compact (y :: l)).
  destruct (bool_decide_reflect (x = y)) as [->|Hne].
  - split; [done|]. split; [done|]. intros z. rewrite IH3. set_solver.
  - assert (Hall : ∀ z, z ∈ compact (y :: l) → String.le x z).
    { intros z Hz%IH3. by eapply (proj1 (Forall_forall _ _) Hx). }
    split; [constructor; [done|by apply Forall_forall]|]. split.
    + constructor; [|done]. intros Hin%IH3. apply elem_of_cons in Hin as [->|Hin]; [done|].
      apply Hne. apply (anti_symm String.le); [by apply Hall, IH3; left|].
      apply StronglySorted_inv in Hs as [_ Hy]. by eapply (proj1 (Forall_forall _ _) Hy).
    + intros z. rewrite !elem_of_cons, IH3, elem_of_cons. tauto.
Qed.

(** The pods of a fault: members, in order, once each, some but not all. *)
Definition fault_ok (t : Topology) (f : Fault) : Prop :=
  match Kind f with
  | FaultNone => FPods f = []
  | _ => StronglySorted String.le (FPods f) ∧ NoDup (FPods f) ∧ (∀ id, id ∈ FPods f → is_Some (byID t !! id)) ∧
         0 < length (FPods f) ∧ length (FPods f) ≠ length (t_Pods t)
  end.

Lemma named_fault_ok t k pods f :
  k ≠ FaultNone → named_fault t k pods = Ok f → fault_ok t f ∧ Kind f = k ∧ ∀ id, id ∈ FPods f ↔ id ∈ pods.
Proof.
  intros Hk. unfold named_fault. destruct (compact_spec (sort_strings pods)) as (H1 & H2 & H3); [apply sort_strings_sorted|].
  destruct (List.find _ _) eqn:Ef; [done|].
  destruct ((length (compact (sort_strings pods)) =? 0) || (length (compact (sort_strings pods)) =? length (t_Pods t))) eqn:El; [done|].
  intros [= <-]. apply orb_false_iff in El as [E0 E1]. apply Nat.eqb_neq in E0, E1. simpl.
  split; [|split; [done|]].
  - assert (Hm : ∀ id, id ∈ compact (sort_strings pods) → is_Some (byID t !! id)).
    { intros id Hid. eapply find_none in Ef; [|by apply list_elem_of_In]. destruct (byID t !! id); [eauto|done]. }
    unfold fault_ok; simpl. destruct k; [done|..]; repeat split; auto; lia.
  - intros id. by rewrite H3, sort_strings_elem_of.
Qed.

Lemma ParseFault_ok spec t f : ParseFault spec t = Ok f → fault_ok t f.
Proof.
  unfold ParseFault. destruct (Cut ":" spec) as [kind rest].
  destruct (bool_decide (kind = "none")); [destruct (bool_decide _); [intros [= <-]; done|done]|].
  destruct (bool_decide (kind = "down")); [intros H; by apply named_fault_ok in H as [? _]|].
  destruct (bool_decide (kind = "partition")); [intros H; by apply named_fault_ok in H as [? _]|].
  destruct (_ || _); [|done]. destruct (Zones t !! _) as [pods|]; [|done].
  intros H. apply named_fault_ok in H as [? _]; [done|]. by destruct (bool_decide _).
Qed.

(** What [init] establishes. *)
Definition topology_ok (t : Topology) : Prop :=
  NoDup (ID <$> t_Pods t) ∧ "" ∉ ID <$> t_Pods t ∧ (∀ id, is_Some (byID t !! id) ↔ id ∈ ID <$> t_Pods t) ∧
  0 < t_W t ≤ t_N t ∧ 0 < t_R t ≤ t_N t ∧ t_N t ≤ length (t_Pods t).

Lemma index_pods_ok pods m ids :
  index_pods pods m = Ok ids →
  NoDup (ID <$> pods) ∧ "" ∉ ID <$> pods ∧ (∀ id, id ∈ ID <$> pods → m !! id = None) ∧
  ∀ id, is_Some (ids !! id) ↔ is_Some (m !! id) ∨ id ∈ ID <$> pods.
Proof.
  revert m. induction pods as [|p pods IH]; intros m; simpl.
  - intros [= <-]. split; [constructor|]. split; [set_solver|]. split; [set_solver|]. set_solver.
  - destruct (pod_incomplete p) eqn:Ep; [done|]. destruct (m !! ID p) eqn:Em; [done|].
    intros (H1 & H2 & H3 & H4)%IH. apply orb_false_iff in Ep as [Ep _]. apply orb_false_iff in Ep as [Ep _].
    apply bool_decide_eq_false in Ep.
    assert (Hp : ID p ∉ ID <$> pods) by (intros Hin%H3; by rewrite lookup_insert_eq in Hin).
    split; [by constructor|]. split; [by rewrite not_elem_of_cons|]. split.
    + intros id [->|Hin]%elem_of_cons; [done|]. pose proof (H3 id Hin) as Hx.
      rewrite lookup_insert_ne in Hx; [done|]. intros <-. done.
    + intros id. rewrite H4, elem_of_cons. destruct (decide (ID p = id)) as [->|Hne].
      * rewrite lookup_insert_eq. split; [by auto|]. intros _. left. eauto.
      * rewrite lookup_insert_ne by done. naive_solver.
Qed.

Lemma init_ok `{Unicode} e n w r fp tm pods t : init e n w r fp tm pods = Ok t → topology_ok t.
Proof.
  unfold init. destruct (length pods =? 0) eqn:E0; [done|].
  destruct ((n <? 1) || (w <? 1) || (r <? 1) || (n <? w) || (n <? r) || (length pods <? n)) eqn:Eq; [done|].
  destruct (index_pods _ ∅) as [ids|] eqn:Ei; [|done]. destruct (NewRing _ _ _); [|done]. intros [= <-].
  repeat (apply orb_false_iff in Eq as [Eq ?]). repeat match goal with H : (_ <? _) = false |- _ => apply Nat.ltb_ge in H end.
  apply index_pods_ok in Ei as (Hnd & Hne & _ & Hids). unfold topology_ok; simpl. split; [done|]. split; [done|]. split.
  - intros id. rewrite Hids, lookup_empty. split; [intros [[? [=]]|]; done|by right].
  - rewrite merge_sort_Permutation. lia.
Qed.

(** Pod [a] can reach pod [b] during the fault. *)
Definition reaches (f : Fault) (a b : string) : bool :=
  match Kind f with
  | FaultNone => true
  | FaultDown => negb (in_fault f a) && negb (in_fault f b)
  | FaultPartition => Bool.eqb (in_fault f a) (in_fault f b)
  end.

(** A pod that clients still reach. *)
Definition live (f : Fault) (a : string) : bool := negb (bool_decide (Kind f = FaultDown) && in_fault f a).

Definition reached (t : Topology) (f : Fault) (key target : string) : nat :=
  length (bfilter (reaches f target) (Replicas t key)).

Lemma Expect_known t f op key target :
  Kind f ≠ FaultNone → target ≠ "" →
  Expect t f op key target = if live f target then ok t op (reached t f key target) else TargetDown.
Proof.
  intros Hk Ht. unfold Expect, live, reached, reaches, reach. rewrite (bool_decide_false (target = "")) by done.
  destruct (Kind f) eqn:E; [done| |]; simpl.
  - destruct (in_fault f target); simpl; [done|].
    by do 2 f_equal.
  - do 2 f_equal. apply bfilter_ext. intros x _. by destruct (in_fault f x), (in_fault f target).
Qed.

Lemma some_inside_and_outside t f :
  topology_ok t → fault_ok t f → Kind f ≠ FaultNone →
  (∃ p, p ∈ t_Pods t ∧ in_fault f (ID p) = true) ∧ (∃ p, p ∈ t_Pods t ∧ in_fault f (ID p) = false).
Proof.
  intros (Hnd & _ & Hids & _) Hf Hk.
  assert (Hf' : NoDup (FPods f) ∧ (∀ id, id ∈ FPods f → is_Some (byID t !! id)) ∧ 0 < length (FPods f) ∧ length (FPods f) ≠ length (t_Pods t)).
  { unfold fault_ok in Hf. destruct (Kind f); [done|naive_solver..]. }
  destruct Hf' as (Hnf & Hm & Hpos & Hne).
  assert (Hsub : FPods f ⊆ ID <$> t_Pods t) by (intros id Hid; by apply Hids, Hm).
  split.
  - destruct (FPods f) as [|id l] eqn:E; [simpl in Hpos; lia|].
    destruct (proj1 (list_elem_of_fmap ID (t_Pods t) id) (Hsub id ltac:(by left))) as (p & -> & Hp).
    exists p. split; [done|]. apply bool_decide_true. rewrite E. by left.
  - destruct (existsb (λ p, negb (in_fault f (ID p))) (t_Pods t)) eqn:Ex.
    + apply existsb_exists in Ex as (p & Hp%list_elem_of_In & Hx). exists p. split; [done|]. by apply negb_true_iff.
    + exfalso. rewrite existsb_false in Ex. apply Hne. rewrite <-(length_fmap ID (t_Pods t)).
      apply Permutation_length, NoDup_Permutation; [done..|]. intros id. split; [apply Hsub|].
      intros (p & -> & Hp)%list_elem_of_fmap. specialize (Ex p Hp). simpl in Ex. apply negb_false_iff in Ex.
      by apply bool_decide_eq_true in Ex.
Qed.

Lemma Expect_live t f op key id :
  Kind f ≠ FaultNone → id ≠ "" → live f id = true → Expect t f op key id = ok t op (reach t f key (in_fault f id)).
Proof.
  intros Hk Hid Hl. unfold Expect, live in *. rewrite (bool_decide_false (id = "")) by done.
  destruct (Kind f) eqn:E; [done| |done]. rewrite bool_decide_true in Hl by done. simpl in *. apply negb_true_iff in Hl. by rewrite Hl.
Qed.

Lemma bfilter_compl {A} (p : A → bool) l : length (bfilter (λ x, negb (p x)) l) = length l - length (bfilter p l).
Proof.
  induction l as [|x l IH]; simpl; [done|]. pose proof (bfilter_length p l).
  destruct (p x); simpl; rewrite ?IH; lia.
Qed.

Lemma Unreachable_live t f key target :
  Kind f ≠ FaultNone → target ≠ "" → live f target = true →
  Unreachable t f key target = Some (length (Replicas t key) - reached t f key target).
Proof.
  intros Hk Ht Hl. unfold Unreachable, reached, live in *. rewrite (bool_decide_false (target = "")) by done.
  rewrite <-bfilter_compl. destruct (Kind f) eqn:E; [done| |].
  - rewrite bool_decide_true in Hl by done. simpl in Hl. apply negb_true_iff in Hl. rewrite (bool_decide_false (FaultDown = FaultPartition)) by done. simpl.
    do 2 f_equal. apply bfilter_ext. intros x _. unfold reaches. rewrite E, Hl. simpl.
    by destruct (in_fault f x).
  - rewrite (bool_decide_true (FaultPartition = FaultPartition)) by done. rewrite andb_false_r. simpl.
    do 2 f_equal. apply bfilter_ext. intros x _. unfold reaches. rewrite E.
    by destruct (in_fault f x), (in_fault f target).
Qed.

(** C34: The prediction for a request during a parsed fault.  Sent to a pod, it
    is [TargetDown] exactly when that pod is down, and otherwise [OutOk] exactly
    when the key's replicas the pod can reach are a quorum; the rest of the
    replicas are the hints expected for it.  Sent through the Service, it is
    [OutOk] (or [OutFail]) exactly when it would be for every pod that clients
    reach, and [Unknowable] exactly when that depends on the pod. *)
Theorem prediction_exact `{Unicode} e n w r fp tm pods t spec f op key :
  init e n w r fp tm pods = Ok t → ParseFault spec t = Ok f → Kind f ≠ FaultNone →
  let lives := bfilter (live f) (ID <$> t_Pods t) in
  (∀ target, target ≠ "" →
     (Expect t f op key target = TargetDown ↔ live f target = false) ∧
     (live f target = true →
        (Expect t f op key target = OutOk ↔ need t op ≤ reached t f key target) ∧
        (Expect t f op key target = OutFail ↔ reached t f key target < need t op) ∧
        Unreachable t f key target = Some (length (Replicas t key) - reached t f key target))) ∧
  lives ≠ [] ∧
  (Expect t f op key "" = OutOk ↔ ∀ id, id ∈ lives → Expect t f op key id = OutOk) ∧
  (Expect t f op key "" = OutFail ↔ ∀ id, id ∈ lives → Expect t f op key id = OutFail) ∧
  (Expect t f op key "" = Unknowable ↔
     ∃ a b, a ∈ lives ∧ b ∈ lives ∧ Expect t f op key a = OutOk ∧ Expect t f op key b = OutFail).
Proof.
  intros Hinit%init_ok Hf%ParseFault_ok Hk lives. pose proof Hinit as (_ & Hne & _).
  destruct (some_inside_and_outside t f Hinit Hf Hk) as [(pin & Hpin & Hin) (pout & Hpout & Hout)].
  assert (Hlive : ∀ id, id ∈ lives ↔ live f id = true ∧ id ∈ ID <$> t_Pods t) by (intros id; apply elem_of_bfilter).
  assert (Hid : ∀ id, id ∈ lives → Expect t f op key id = ok t op (reach t f key (in_fault f id))).
  { intros id [Hl Hi]%Hlive. apply Expect_live; [done|by intros ->|done]. }
  assert (Hb : ID pout ∈ lives).
  { apply Hlive. split; [unfold live; by rewrite Hout, andb_false_r|by apply list_elem_of_fmap_2]. }
  assert (Hokne : ∀ n, ok t op n ≠ Unknowable ∧ ok t op n ≠ TargetDown) by (intros m; unfold ok; by case_match).
  split; [|split; [by intros E; rewrite E in Hb; apply elem_of_nil in Hb|]].
  - intros target Ht. rewrite Expect_known by done. split; [destruct (live f target); split; try done; intros E; by apply Hokne in E|].
    intros Hl. rewrite Hl. split; [|split].
    + unfold ok. destruct (Nat.leb_spec (need t op) (reached t f key target)); split; try done; lia.
    + unfold ok. destruct (Nat.leb_spec (need t op) (reached t f key target)); split; try done; lia.
    + by apply Unreachable_live.
  - unfold Expect at 1 3 5. rewrite (bool_decide_true (_ = "")) by done. destruct (Kind f) eqn:Ek; [done| |]; simpl.
    + assert (Hsame : ∀ id, id ∈ lives → Expect t f op key id = ok t op (reach t f key false)).
      { intros id Hin'. rewrite Hid by done. apply Hlive in Hin' as [Hl _]. unfold live in Hl. rewrite Ek in Hl.
        rewrite bool_decide_true in Hl by done. simpl in Hl. apply negb_true_iff in Hl. by rewrite Hl. }
      split; [|split].
      * split; [intros E id Hi; by rewrite Hsame|intros E; by rewrite <-(Hsame _ Hb), E].
      * split; [intros E id Hi; by rewrite Hsame|intros E; by rewrite <-(Hsame _ Hb), E].
      * split; [intros E; by apply Hokne in E|]. intros (a & b & Ha & Hb' & E1 & E2). rewrite Hsame in E1, E2 by done. congruence.
    + assert (Ha : ID pin ∈ lives).
      { apply Hlive. split; [unfold live; rewrite Ek; done|by apply list_elem_of_fmap_2]. }
      pose proof (Hid _ Ha) as Ea. pose proof (Hid _ Hb) as Eb. rewrite Hin in Ea. rewrite Hout in Eb.
      destruct (bool_decide_reflect (ok t op (reach t f key true) = ok t op (reach t f key false))) as [Eq|Nq].
      * assert (Hsame : ∀ id, id ∈ lives → Expect t f op key id = ok t op (reach t f key true)).
        { intros id Hi. rewrite Hid by done. by destruct (in_fault f id). }
        split; [|split].
        -- split; [intros E id Hi; by rewrite Hsame|intros E; by rewrite <-(Hsame _ Ha), E].
        -- split; [intros E id Hi; by rewrite Hsame|intros E; by rewrite <-(Hsame _ Ha), E].
        -- split; [intros E; by apply Hokne in E|]. intros (a & b & Ha' & Hb' & E1 & E2). rewrite Hsame in E1, E2 by done. congruence.
      * split; [|split].
        -- split; [done|]. intros E. exfalso. apply Nq. by rewrite <-Ea, <-Eb, !E.
        -- split; [done|]. intros E. exfalso. apply Nq. by rewrite <-Ea, <-Eb, !E.
        -- split; [|done]. intros _. unfold ok in *. destruct (need t op <=? reach t f key true), (need t op <=? reach t f key false); try done.
           ++ by exists (ID pin), (ID pout).
           ++ by exists (ID pout), (ID pin).
Qed.

(** ** An example *)

Definition w_timing : Timing := mkTiming 1000000000 500000000 3 5000000000 5000000000 10000000000 900000000000.
Definition w_pods : list Pod := [mkPod "kv-1" "h1:7000" "n1" "zb"; mkPod "kv-0" "h0:7000" "n0" "za"].
#[local] Existing Instance ascii_print.
Definition w_topology : Topology :=
  match NewTopology w_pods 2 1 2 w_timing with
  | Ok t => t
  | Err _ => mkTopology 0 0 0 0 "" w_timing [] (NewHashRing 0) ∅
  end.

Lemma w_topology_ok : init 0 2 1 2 (fingerprint (Members w_pods) 2) w_timing w_pods = Ok w_topology.
Proof. vm_compute. reflexivity. Qed.

Definition w_fault : Fault := mkFault FaultDown ["kv-0"].
Lemma w_fault_ok : ParseFault "zone:za" w_topology = Ok w_fault.
Proof. vm_compute. reflexivity. Qed.

Lemma prediction_exact_witness :
  Expect w_topology w_fault OpGet "greeting" "kv-0" = TargetDown ∧
  Expect w_topology w_fault OpGet "greeting" "" = OutFail.
Proof.
  destruct (prediction_exact _ _ _ _ _ _ _ _ _ _ OpGet "greeting" w_topology_ok w_fault_ok) as (Hknown & _ & _ & Hfail & _); [done|].
  split.
  - apply (Hknown "kv-0"); [done|]. vm_compute. reflexivity.
  - apply Hfail. intros id Hid.
    assert (Hl : bfilter (live w_fault) (ID <$> t_Pods w_topology) = ["kv-1"]) by (vm_compute; reflexivity).
    rewrite Hl in Hid. apply list_elem_of_singleton in Hid as ->. vm_compute. reflexivity.
Defined.
