(* ===== verification/ChaosCheck.v ===== *)
(** * Checking a failure test (internal/chaos/record.go, readback.go, check.go)

    The tool that compares what a load saw during a fault with the prediction,
    request by request, and what a read-back found with the acknowledged
    writes, key by key.  Times are nanoseconds since the Unix epoch, as
    unbounded integers (an int64 in the source, which lasts until 2262);
    [zero_time] is Go's zero [time.Time].  Error codes and messages a report prints are
    left out, as is printing itself.

    Shown: when a check passes, in terms of the records alone. *)

From stdpp Require Import gmap strings list sorting pretty.
From Stdlib Require Import ZArith Lia Ascii.
From S2P Require Import Prelude GoLib GoStrings HashRing Sha256 Quote Membership ChaosPredict.

Open Scope nat_scope.

(** ** Records *)

Inductive Result := ResultOK | ResultFailed | ResultUnknown | ResultNotFound | ResultMismatch | ResultDropped.
#[global] Instance Result_eq_dec : EqDecision Result.
Proof. solve_decision. Defined.

Record Request := mkReq {
  r_Test : string; r_Seq : Z; r_Op : Op; r_Key : string; r_Target : string; r_Start : Z; r_End : Z; r_Result : Result
}.

Definition serverPhrases : list string :=
  ["quorum not reached"; "no replica accepted"; "local write failed"; "local read failed"].
Definition maxMsg : nat := 160.

(** gRPC status codes *)
Definition Canceled : N := 1.
Definition DeadlineExceeded : N := 4.
Definition Unavailable : N := 14.

(** [Classify]: an error is its status code and message. *)
Definition Classify (err : option (N * string)) : Result * option N * string :=
  match err with
  | None => (ResultOK, None, "")
  | Some (code, message) =>
      let msg := String.substring 0 maxMsg message in
      if (code =? Canceled)%N || (code =? DeadlineExceeded)%N then (ResultUnknown, Some code, msg)
      else if (code =? Unavailable)%N then
        (if existsb (Contains message) serverPhrases then ResultFailed else ResultUnknown, Some code, msg)
      else (ResultFailed, Some code, msg)
  end.

Definition Value (key : string) (size : nat) : string :=
  let v := key +:+ "|" in v +:+ Repeat "x" (size - String.length v).
Definition ValueMatches (key v : string) : bool := HasPrefix v (key +:+ "|").

Definition getResult (key : string) (found : bool) (values : list string) : Result :=
  if negb found then ResultNotFound else if existsb (ValueMatches key) values then ResultOK else ResultMismatch.

(** [PutKeys]: the keys in order of first appearance. *)
Fixpoint put_keys_loop (reqs : list Request) (seen : gset string) : list string :=
  match reqs with
  | [] => []
  | r :: rest =>
      if bool_decide (r_Op r = OpPut) && negb (bool_decide (r_Result r = ResultDropped)) && negb (bool_decide (r_Key r ∈ seen))
      then r_Key r :: put_keys_loop rest ({[r_Key r]} ∪ seen)
      else put_keys_loop rest seen
  end.
Definition PutKeys (reqs : list Request) : list string := put_keys_loop reqs ∅.

(** [send]: the record of one request, from when it was sent and what came back. *)
Inductive answer := PutAnswer (err : option (N * string)) | GetAnswer (err : option (N * string)) (found : bool) (values : list string).
Definition send (test : string) (seq : Z) (op : Op) (key target : string) (start end_ : Z) (a : answer) : Request :=
  mkReq test seq op key target start end_
    (match a with
     | PutAnswer err => (Classify err).1.1
     | GetAnswer None found values => getResult key found values
     | GetAnswer err _ _ => (Classify err).1.1
     end).

Record ReadbackEntry := mkRB {
  b_Key : string; b_Time : Z; b_Target : string; b_Result : Result; b_Owners : list string; b_Holders : list string;
  b_Unreadable : list string
}.

(** ** Events and timelines *)

Definition zero_time : Z := -62135596800000000000.
Definition is_zero (t : Z) : bool := (t =? zero_time)%Z.

Record Event := mkEvent { e_Time : Z; e_Test : string; e_Event : string; e_Fault : string; e_Mark : string }.

Definition EventInject : string := "inject".
Definition EventMark : string := "mark".
Definition EventHeal : string := "heal".
Definition MarkServing : string := "serving".
Definition MarkServingPod : string := MarkServing +:+ "-".

Inductive Phase := PhaseNormal | PhaseFault | PhaseTransition.
Inductive Bucket :=
  | AsPredicted | UnexpectedSuccess | UnexpectedFailure | ServiceFailure | TargetDownOK | StaleRead | UnjudgedRead
  | Transition | UnknowableBucket | Dropped.
#[global] Instance Phase_eq_dec : EqDecision Phase.
Proof. solve_decision. Defined.
#[global] Instance Bucket_eq_dec : EqDecision Bucket.
Proof. solve_decision. Defined.

Definition violations : list Bucket := [UnexpectedSuccess; UnexpectedFailure; StaleRead].

Record CheckConfig := mkCfg {
  c_Topology : Topology; Events : list Event; Records : list Request; Readback : list ReadbackEntry;
  c_Converged : bool; Tolerance : Z; c_Detection : Z; c_Recovery : Z; c_Examples : nat
}.

Record window := mkWindow { from : Z; to : Z }.
Definition no_window : window := mkWindow zero_time zero_time.
Definition overlaps (w : window) (r : Request) : bool :=
  negb (is_zero (from w)) && (r_Start r <=? to w)%Z && (from w <=? r_End r)%Z.

Record testTimeline := mkTL {
  tl_fault : option Fault; tl_inject : Z; tl_heal : Z; tl_in : window; tl_out : window; tl_marks : list Event;
  tl_back : gmap string Z; tl_backs : list window
}.
Definition new_timeline : testTimeline := mkTL None zero_time zero_time no_window no_window [] ∅ [].

Inductive check_error :=
  | InjectedTwice (test : string) | BadTestFault (test : string) (e : fault_error) | MarkUnnamed (test : string)
  | HealedTwice (test : string) | BadEvent (test : string) | NeverInjected (test : string) | HealedBefore (test : string)
  | NotDown (test pod : string).

Section timelines.
Context (cfg : CheckConfig).

(** One event of [parseTimelines]'s first loop. *)
Definition add_event (timelines : gmap string testTimeline) (e : Event) : res check_error (gmap string testTimeline) :=
  let tl := default new_timeline (timelines !! e_Test e) in
  let put tl := Ok (<[e_Test e := tl]> timelines) in
  if bool_decide (e_Event e = EventInject) then
    match tl_fault tl with
    | Some _ => Err (InjectedTwice (e_Test e))
    | None =>
        match ParseFault (e_Fault e) (c_Topology cfg) with
        | Err er => Err (BadTestFault (e_Test e) er)
        | Ok f => put (mkTL (Some f) (e_Time e) (tl_heal tl) (tl_in tl) (tl_out tl) (tl_marks tl) (tl_back tl) (tl_backs tl))
        end
    end
  else if bool_decide (e_Event e = EventMark) then
    if bool_decide (e_Mark e = "") then Err (MarkUnnamed (e_Test e))
    else put (mkTL (tl_fault tl) (tl_inject tl) (tl_heal tl) (tl_in tl) (tl_out tl) (tl_marks tl ++ [e]) (tl_back tl) (tl_backs tl))
  else if bool_decide (e_Event e = EventHeal) then
    if negb (is_zero (tl_heal tl)) then Err (HealedTwice (e_Test e))
    else put (mkTL (tl_fault tl) (tl_inject tl) (e_Time e) (tl_in tl) (tl_out tl) (tl_marks tl) (tl_back tl) (tl_backs tl))
  else Err (BadEvent (e_Test e)).

Fixpoint add_events (es : list Event) (timelines : gmap string testTimeline) : res check_error (gmap string testTimeline) :=
  match es with
  | [] => Ok timelines
  | e :: rest => match add_event timelines e with Ok ts => add_events rest ts | Err er => Err er end
  end.

(** [slices.SortStableFunc] by time *)
Fixpoint insert_event (e : Event) (l : list Event) : list Event :=
  match l with
  | [] => [e]
  | x :: rest => if (e_Time e <? e_Time x)%Z then e :: l else x :: insert_event e rest
  end.
Definition sort_events (l : list Event) : list Event := fold_left (λ acc e, insert_event e acc) l [].

(** When the fault ends for the other nodes. *)
Definition served_from (heal : Z) (marks : list Event) : Z :=
  fold_left (λ t m, if bool_decide (e_Mark m = MarkServing) && (e_Time m <? t)%Z then e_Time m else t) marks heal.

Definition after_back (t : Z) : window := mkWindow (t - Tolerance cfg) (t + (c_Recovery cfg + Tolerance cfg))%Z.

Fixpoint back_loop (name : string) (f : Fault) (marks : list Event) (back : gmap string Z) (backs : list window)
    : res check_error (gmap string Z * list window) :=
  match marks with
  | [] => Ok (back, backs)
  | m :: rest =>
      match CutPrefix MarkServingPod (e_Mark m) with
      | None => back_loop name f rest back backs
      | Some pod =>
          if negb (bool_decide (Kind f = FaultDown)) || negb (bool_decide (pod ∈ FPods f)) then Err (NotDown name pod)
          else match back !! pod with
               | Some _ => back_loop name f rest back backs
               | None => back_loop name f rest (<[pod := e_Time m]> back) (backs ++ [after_back (e_Time m)])
               end
      end
  end.

(** The second loop's body. *)
Definition finish_timeline (name : string) (tl : testTimeline) : res check_error testTimeline :=
  match tl_fault tl with
  | None => Err (NeverInjected name)
  | Some f =>
      let marks := sort_events (tl_marks tl) in
      let healed := negb (is_zero (tl_heal tl)) in
      if healed && (tl_heal tl <? tl_inject tl)%Z then Err (HealedBefore name)
      else
        let win := mkWindow (tl_inject tl - Tolerance cfg) (tl_inject tl + (c_Detection cfg + Tolerance cfg))%Z in
        let wout := if healed
                    then mkWindow (served_from (tl_heal tl) marks - Tolerance cfg) (tl_heal tl + (c_Recovery cfg + Tolerance cfg))%Z
                    else tl_out tl in
        match back_loop name f marks (tl_back tl) (tl_backs tl) with
        | Err e => Err e
        | Ok (back, backs) => Ok (mkTL (Some f) (tl_inject tl) (tl_heal tl) win wout marks back backs)
        end
  end.

(** The map is iterated in some order; any failure is an error. *)
Fixpoint finish_timelines (l : list (string * testTimeline)) : res check_error (gmap string testTimeline) :=
  match l with
  | [] => Ok ∅
  | (name, tl) :: rest =>
      match finish_timeline name tl with
      | Err e => Err e
      | Ok tl' => match finish_timelines rest with Ok m => Ok (<[name := tl']> m) | Err e => Err e end
      end
  end.

Definition parseTimelines : res check_error (gmap string testTimeline) :=
  match add_events (Events cfg) ∅ with Ok ts => finish_timelines (map_to_list ts) | Err e => Err e end.
End timelines.

(** ** Judging a request *)

Definition faultAt (tl : testTimeline) (f : Fault) (start : Z) : Fault :=
  if bool_decide (tl_back tl = ∅) then f
  else
    let down := bfilter (λ p, match tl_back tl !! p with Some at_ => (start <? at_)%Z | None => true end) (FPods f) in
    match down with [] => mkFault FaultNone [] | _ => mkFault FaultDown down end.

Definition fault_of (tl : testTimeline) (start : Z) : Fault :=
  match tl_fault tl with Some f => faultAt tl f start | None => mkFault FaultNone [] end.

Definition phaseOf (tl : option testTimeline) (r : Request) : Phase :=
  match tl with
  | None => PhaseNormal
  | Some tl =>
      if overlaps (tl_in tl) r || overlaps (tl_out tl) r || existsb (λ w, overlaps w r) (tl_backs tl) then PhaseTransition
      else if (tl_inject tl <? r_Start r)%Z && (is_zero (tl_heal tl) || (r_End r <? tl_heal tl)%Z) then PhaseFault
      else PhaseNormal
  end.

Definition answered (r : Request) : bool :=
  negb (bool_decide (r_Result r = ResultFailed)) && negb (bool_decide (r_Result r = ResultUnknown)).

Definition is_miss (r : Request) : bool :=
  bool_decide (r_Op r = OpGet) && (bool_decide (r_Result r = ResultNotFound) || bool_decide (r_Result r = ResultMismatch)).

(** The last part of [bucket]: the request against its prediction. *)
Definition against (expect : Outcome) (target : string) (r : Request) : Bucket :=
  match expect with
  | OutFail => if answered r then UnexpectedSuccess else AsPredicted
  | TargetDown => if answered r then TargetDownOK else AsPredicted
  | Unknowable => UnknowableBucket
  | OutOk => if answered r then AsPredicted else if bool_decide (target = "") then ServiceFailure else UnexpectedFailure
  end.

Definition expectation (t : Topology) (tl : option testTimeline) (phase : Phase) (r : Request) (target : string) : Outcome :=
  match phase, tl with
  | PhaseFault, Some tl => Expect t (fault_of tl (r_Start r)) (r_Op r) (r_Key r) target
  | _, _ => OutOk
  end.

Definition bucket (t : Topology) (tl : option testTimeline) (phase : Phase) (r : Request) (target : string)
    (ackedAt : gmap string Z) : Bucket :=
  if bool_decide (r_Result r = ResultDropped) then Dropped
  else if is_miss r && match ackedAt !! r_Key r with Some at_ => (at_ <? r_Start r)%Z | None => false end then StaleRead
  else if is_miss r && bool_decide (r_Result r = ResultNotFound) then UnjudgedRead
  else if bool_decide (phase = PhaseTransition) then Transition
  else against (expectation t tl phase r target) target r.

(** ** Reports *)

Record TestReport := mkTR {
  tr_Test : string; tr_Fault : option Fault; tr_Inject : Z; tr_Heal : Z; tr_Marks : list Event;
  Counts : Phase → Op → Result → nat; Buckets : Bucket → nat; Examples : Bucket → list Request;
  Hints : nat; HintsUnknown : nat; HintsMaybe : nat; tr_UnderReplicated : nat
}.

Definition new_report (test : string) (tl : option testTimeline) : TestReport :=
  match tl with
  | Some tl => mkTR test (tl_fault tl) (tl_inject tl) (tl_heal tl) (tl_marks tl) (λ _ _ _, 0) (λ _, 0) (λ _, []) 0 0 0 0
  | None => mkTR test None zero_time zero_time [] (λ _ _ _, 0) (λ _, 0) (λ _, []) 0 0 0 0
  end.

Record Report := mkReport {
  Tests : list TestReport; Acked : nat; Lost : nat; NotReadBack : nat; Unreadable : nat; LostKeys : list string;
  UnackedPresent : nat; UnackedAbsent : nat;
  CopiesChecked : nat; UnderReplicated : nat; UnderReplicatedExpected : nat; UnexpectedUnderReplicated : list string;
  HaveReadback : bool; Converged : bool
}.

Section compare.
Context (cfg : CheckConfig) (timelines : gmap string testTimeline) (ackedAt : gmap string Z).

(** A target that is no member is a connection through the Service. *)
Definition pod_target (r : Request) : string :=
  match byID (c_Topology cfg) !! r_Target r with Some _ => r_Target r | None => "" end.

Definition judge (r : Request) : Bucket :=
  let tl := timelines !! r_Test r in bucket (c_Topology cfg) tl (phaseOf tl r) r (pod_target r) ackedAt.

Definition acked_put (r : Request) : bool := bool_decide (r_Op r = OpPut) && bool_decide (r_Result r = ResultOK).

(** An acknowledged write that the fault may have left under-replicated. *)
Definition may_lack_copies (r : Request) : bool :=
  match timelines !! r_Test r with
  | Some tl =>
      acked_put r && bool_decide (phaseOf (Some tl) r = PhaseTransition) &&
      negb (bool_decide (ChaosPredict.Unreachable (c_Topology cfg) (fault_of tl (r_Start r)) (r_Key r) (pod_target r) = Some 0)) &&
      overlaps (tl_in tl) r
  | None => false
  end.

(** What one request adds to its test's report. *)
Definition count_hints (r : Request) (tr : TestReport) : TestReport :=
  match timelines !! r_Test r with
  | None => tr
  | Some tl =>
      if acked_put r then
        let n := ChaosPredict.Unreachable (c_Topology cfg) (fault_of tl (r_Start r)) (r_Key r) (pod_target r) in
        let upd h u m x := mkTR (tr_Test tr) (tr_Fault tr) (tr_Inject tr) (tr_Heal tr) (tr_Marks tr) (Counts tr) (Buckets tr)
                             (Examples tr) h u m x in
        match phaseOf (Some tl) r with
        | PhaseFault =>
            match n with
            | None => upd (Hints tr) (S (HintsUnknown tr)) (HintsMaybe tr) (tr_UnderReplicated tr)
            | Some n => upd (Hints tr + n) (HintsUnknown tr) (HintsMaybe tr) (tr_UnderReplicated tr)
            end
        | PhaseTransition =>
            upd (Hints tr) (HintsUnknown tr) (HintsMaybe tr + default 0 n)
              (if may_lack_copies r then S (tr_UnderReplicated tr) else tr_UnderReplicated tr)
        | PhaseNormal => tr
        end
      else tr
  end.

Definition count_request (r : Request) (tr : TestReport) : TestReport :=
  let ph := phaseOf (timelines !! r_Test r) r in
  let b := judge r in
  let tr := count_hints r tr in
  mkTR (tr_Test tr) (tr_Fault tr) (tr_Inject tr) (tr_Heal tr) (tr_Marks tr)
    (λ ph' op' res', if bool_decide (ph' = ph ∧ op' = r_Op r ∧ res' = r_Result r) then S (Counts tr ph' op' res') else Counts tr ph' op' res')
    (λ b', if bool_decide (b' = b) then S (Buckets tr b') else Buckets tr b')
    (λ b', if bool_decide (b' = b) && (length (Examples tr b) <? c_Examples cfg) &&
              negb (bool_decide (b = AsPredicted)) && negb (bool_decide (b = Dropped))
           then Examples tr b' ++ [r] else Examples tr b')
    (Hints tr) (HintsUnknown tr) (HintsMaybe tr) (tr_UnderReplicated tr).

(** The reports, in the order in which tests first appear. *)
Fixpoint upd_report (r : Request) (tests : list TestReport) : list TestReport :=
  match tests with
  | [] => [count_request r (new_report (r_Test r) (timelines !! r_Test r))]
  | tr :: rest => if bool_decide (tr_Test tr = r_Test r) then count_request r tr :: rest else tr :: upd_report r rest
  end.

Definition compareRecords : list TestReport * gset string :=
  fold_left (λ s r, (upd_report r s.1, if may_lack_copies r then {[r_Key r]} ∪ s.2 else s.2)) (Records cfg) ([], ∅).

Definition maxListed : nat := 50.

Definition latest_entry (l : list ReadbackEntry) : gmap string ReadbackEntry :=
  fold_left (λ m e, match m !! b_Key e with
                    | Some x => if (b_Time x <=? b_Time e)%Z then <[b_Key e := e]> m else m
                    | None => <[b_Key e := e]> m
                    end) l ∅.

Definition list_key (l : list string) (k : string) : list string := if length l <? maxListed then l ++ [k] else l.

(** One acknowledged key of [joinReadback]. *)
Definition join_key (latest : gmap string ReadbackEntry) (expectedUnder : gset string) (rep : Report) (k : string) : Report :=
  match latest !! k with
  | None => mkReport (Tests rep) (S (Acked rep)) (Lost rep) (S (NotReadBack rep)) (Unreadable rep) (LostKeys rep)
              (UnackedPresent rep) (UnackedAbsent rep) (CopiesChecked rep) (UnderReplicated rep) (UnderReplicatedExpected rep)
              (UnexpectedUnderReplicated rep) (HaveReadback rep) (Converged rep)
  | Some e =>
      let lost := bool_decide (b_Result e = ResultNotFound) || bool_decide (b_Result e = ResultMismatch) in
      let unread := negb lost && negb (bool_decide (b_Result e = ResultOK)) in
      let copies := negb (length (b_Owners e) =? 0) in
      let under := copies && (length (b_Holders e) <? length (b_Owners e)) in
      let expected := bool_decide (k ∈ expectedUnder) && negb (c_Converged cfg) in
      mkReport (Tests rep) (S (Acked rep)) (if lost then S (Lost rep) else Lost rep) (NotReadBack rep)
        (if unread then S (Unreadable rep) else Unreadable rep) (if lost then list_key (LostKeys rep) k else LostKeys rep)
        (UnackedPresent rep) (UnackedAbsent rep)
        (if copies then S (CopiesChecked rep) else CopiesChecked rep)
        (if under then S (UnderReplicated rep) else UnderReplicated rep)
        (if under && expected then S (UnderReplicatedExpected rep) else UnderReplicatedExpected rep)
        (if under && negb expected then list_key (UnexpectedUnderReplicated rep) k else UnexpectedUnderReplicated rep)
        (HaveReadback rep) (Converged rep)
  end.

(** The writes never acknowledged. *)
Definition unacked : gset string :=
  list_to_set (r_Key <$> bfilter (λ r, bool_decide (r_Op r = OpPut) && bool_decide (ackedAt !! r_Key r = None) &&
    (bool_decide (r_Result r = ResultFailed) || bool_decide (r_Result r = ResultUnknown))) (Records cfg)).

Definition found_as (latest : gmap string ReadbackEntry) (res : Result) (k : string) : bool :=
  match latest !! k with Some e => bool_decide (b_Result e = res) | None => false end.

Definition joinReadback (expectedUnder : gset string) (rep : Report) : Report :=
  let latest := latest_entry (Readback cfg) in
  let rep := fold_left (join_key latest expectedUnder) (sort_strings (elements (dom ackedAt))) rep in
  mkReport (Tests rep) (Acked rep) (Lost rep) (NotReadBack rep) (Unreadable rep) (LostKeys rep)
    (UnackedPresent rep + length (bfilter (found_as latest ResultOK) (elements unacked)))
    (UnackedAbsent rep + length (bfilter (found_as latest ResultNotFound) (elements unacked)))
    (CopiesChecked rep) (UnderReplicated rep) (UnderReplicatedExpected rep) (UnexpectedUnderReplicated rep)
    (HaveReadback rep) (Converged rep).
End compare.

(** The first acknowledgment of each key. *)
Definition acked_at (records : list Request) : gmap string Z :=
  fold_left (λ m r, if acked_put r
                    then match m !! r_Key r with
                         | Some at_ => if (r_End r <? at_)%Z then <[r_Key r := r_End r]> m else m
                         | None => <[r_Key r := r_End r]> m
                         end
                    else m) records ∅.

Definition with_defaults (cfg : CheckConfig) : CheckConfig :=
  mkCfg (c_Topology cfg) (Events cfg) (Records cfg) (Readback cfg) (c_Converged cfg) (Tolerance cfg)
    (if (c_Detection cfg =? 0)%Z then Detection (t_Timing (c_Topology cfg)) else c_Detection cfg)
    (if (c_Recovery cfg =? 0)%Z then Recovery (t_Timing (c_Topology cfg)) else c_Recovery cfg)
    (if c_Examples cfg =? 0 then 5 else c_Examples cfg).

Definition Check (cfg : CheckConfig) : res check_error Report :=
  let cfg := with_defaults cfg in
  match parseTimelines cfg with
  | Err e => Err e
  | Ok timelines =>
      let ackedAt := acked_at (Records cfg) in
      let have := negb (length (Readback cfg) =? 0) in
      let '(tests, expectedUnder) := compareRecords cfg timelines ackedAt in
      let rep := mkReport tests 0 0 0 0 [] 0 0 0 0 0 [] have (c_Converged cfg) in
      Ok (if have then joinReadback cfg ackedAt expectedUnder rep else rep)
  end.

Definition report_OK (rep : Report) : bool :=
  forallb (λ tr, forallb (λ b, Buckets tr b =? 0) violations) (Tests rep) &&
  (Lost rep =? 0) && (NotReadBack rep =? 0) && (Unreadable rep =? 0) && (length (UnexpectedUnderReplicated rep) =? 0).

(** ** When a check passes *)

(** A read that missed a key whose write was acknowledged before the read was sent. *)
Definition stale_read (records : list Request) (r : Request) : Prop :=
  is_miss r = true ∧ ∃ p, p ∈ records ∧ acked_put p = true ∧ r_Key p = r_Key r ∧ (r_End p < r_Start r)%Z.

Section verdict.
Context (cfg : CheckConfig) (timelines : gmap string testTimeline).

(** A request outside the transitions that succeeded against its prediction, or
    was sent to a pod, failed, and should not have. *)
Definition against_prediction (r : Request) : Prop :=
  let tl := timelines !! r_Test r in
  let e := expectation (c_Topology cfg) tl (phaseOf tl r) r (pod_target cfg r) in
  phaseOf tl r ≠ PhaseTransition ∧ r_Result r ≠ ResultDropped ∧
  ((e = OutFail ∧ answered r = true ∧ ¬ (r_Op r = OpGet ∧ r_Result r = ResultNotFound)) ∨
   (e = OutOk ∧ answered r = false ∧ pod_target cfg r ≠ "")).

(** The latest read-back of an acknowledged key found its value, on all of its
    owners or, in a cluster not declared converged, on fewer if a write of it may
    lack copies. *)
Definition read_back_ok (k : string) : Prop :=
  ∃ e, latest_entry (Readback cfg) !! k = Some e ∧ b_Result e = ResultOK ∧
    (length (b_Owners e) ≤ length (b_Holders e) ∨
     (c_Converged cfg = false ∧ ∃ p, p ∈ Records cfg ∧ r_Key p = k ∧ may_lack_copies cfg timelines p = true)).

Lemma acked_at_snoc rs r :
  acked_at (rs ++ [r]) =
    if acked_put r
    then match acked_at rs !! r_Key r with
         | Some at_ => if (r_End r <? at_)%Z then <[r_Key r := r_End r]> (acked_at rs) else acked_at rs
         | None => <[r_Key r := r_End r]> (acked_at rs)
         end
    else acked_at rs.
Proof. unfold acked_at. by rewrite fold_left_app. Qed.

Lemma acked_at_spec rs k :
  match acked_at rs !! k with
  | Some a => (∃ p, p ∈ rs ∧ acked_put p = true ∧ r_Key p = k ∧ r_End p = a) ∧
              ∀ p, p ∈ rs → acked_put p = true → r_Key p = k → (a ≤ r_End p)%Z
  | None => ∀ p, p ∈ rs → acked_put p = true → r_Key p ≠ k
  end.
Proof.
  induction rs as [|r rs IH] using rev_ind; [unfold acked_at; simpl; rewrite lookup_empty; intros p Hp; by apply elem_of_nil in Hp|].
  rewrite acked_at_snoc.
  assert (Hkeep : (acked_put r = true → r_Key r = k → ∃ a, acked_at rs !! k = Some a ∧ (a ≤ r_End r)%Z) →
    match acked_at rs !! k with
    | Some a => (∃ p, p ∈ rs ++ [r] ∧ acked_put p = true ∧ r_Key p = k ∧ r_End p = a) ∧
                ∀ p, p ∈ rs ++ [r] → acked_put p = true → r_Key p = k → (a ≤ r_End p)%Z
    | None => ∀ p, p ∈ rs ++ [r] → acked_put p = true → r_Key p ≠ k
    end).
  { intros Hr. destruct (acked_at rs !! k) as [a|].
    - destruct IH as [(p & Hp & H1) H2]. split; [exists p; split; [set_solver|done]|].
      intros q [Hq|Hq%list_elem_of_singleton]%elem_of_app Hq1 Hq2; [by apply H2|subst q].
      destruct (Hr Hq1 Hq2) as (a' & [= <-] & ?). done.
    - intros q [Hq|Hq%list_elem_of_singleton]%elem_of_app Hq1 Hq2; [by apply (IH q)|subst q].
      by destruct (Hr Hq1 Hq2) as (a' & ? & _). }
  destruct (acked_put r) eqn:Er; [|by apply Hkeep].
  destruct (decide (r_Key r = k)) as [<-|Hne].
  - destruct (acked_at rs !! r_Key r) as [a|] eqn:Ea.
    + destruct (Z.ltb_spec (r_End r) a) as [Hlt|Hge]; [|rewrite Ea; apply Hkeep; eauto].
      rewrite lookup_insert_eq. split; [exists r; set_solver|]. destruct IH as [_ IH].
      intros q [Hq|Hq%list_elem_of_singleton]%elem_of_app Hq1 Hq2; [specialize (IH q Hq Hq1 Hq2); lia|subst q; lia].
    + rewrite lookup_insert_eq. split; [exists r; set_solver|].
      intros q [Hq|Hq%list_elem_of_singleton]%elem_of_app Hq1 Hq2; [exfalso; by apply (IH q)|subst q; lia].
  - assert (E : (match acked_at rs !! r_Key r with
                 | Some at_ => if (r_End r <? at_)%Z then <[r_Key r := r_End r]> (acked_at rs) else acked_at rs
                 | None => <[r_Key r := r_End r]> (acked_at rs)
                 end) !! k = acked_at rs !! k) by (repeat case_match; by rewrite ?lookup_insert_ne).
    rewrite E. apply Hkeep. done.
Qed.

Lemma acked_at_dom rs k : k ∈ dom (acked_at rs) ↔ ∃ p, p ∈ rs ∧ acked_put p = true ∧ r_Key p = k.
Proof.
  pose proof (acked_at_spec rs k) as H. rewrite elem_of_dom. destruct (acked_at rs !! k) as [a|].
  - destruct H as [(p & Hp & Ha & Hk & _) _]. split; eauto.
  - split; [by intros [? [=]]|]. intros (p & Hp & Ha & Hk). by apply (H p) in Ha.
Qed.

Lemma stale_read_spec rs r :
  stale_read rs r ↔ is_miss r && match acked_at rs !! r_Key r with Some at_ => (at_ <? r_Start r)%Z | None => false end = true.
Proof.
  unfold stale_read. rewrite andb_true_iff. pose proof (acked_at_spec rs (r_Key r)) as H.
  destruct (acked_at rs !! r_Key r) as [a|].
  - destruct H as [(p & Hp & Ha & Hk & He) Hmin]. rewrite Z.ltb_lt. split; intros [Hm Hx]; (split; [done|]).
    + destruct Hx as (q & Hq & Hqa & Hqk & Hlt). specialize (Hmin q Hq Hqa Hqk). lia.
    + exists p. repeat split; try done. lia.
  - split; [|by intros [_ [=]]]. intros [_ (p & Hp & Ha & Hk & _)]. by apply (H p) in Ha.
Qed.

Lemma judge_violation r :
  judge cfg timelines (acked_at (Records cfg)) r ∈ violations ↔ stale_read (Records cfg) r ∨ against_prediction r.
Proof.
  rewrite stale_read_spec. unfold judge, bucket, against_prediction.
  set (tl := timelines !! r_Test r). set (st := is_miss r && _).
  destruct (bool_decide_reflect (r_Result r = ResultDropped)) as [Hd|Hd].
  { assert (st = false) as -> by (unfold st, is_miss; rewrite Hd; by rewrite andb_false_r).
    split; [set_solver|intros [[=]|(_ & Hx & _)]; done]. }
  destruct st; [split; [by left|set_solver]|].
  destruct (is_miss r && bool_decide (r_Result r = ResultNotFound)) eqn:Em.
  { apply andb_prop in Em as [Em1 Em2%bool_decide_eq_true]. apply andb_prop in Em1 as [Em1%bool_decide_eq_true _].
    split; [set_solver|]. intros [[=]|(_ & _ & [(_ & _ & Hn)|(_ & Hn & _)])]; [exfalso; by apply Hn|].
    unfold answered in Hn. by rewrite Em2 in Hn. }
  destruct (bool_decide_reflect (phaseOf tl r = PhaseTransition)) as [Hp|Hp]; [split; [set_solver|intros [[=]|(Hx & _)]; done]|].
  assert (Hmiss : ¬ (r_Op r = OpGet ∧ r_Result r = ResultNotFound)).
  { intros [H1 H2]. unfold is_miss in Em. rewrite H1, H2 in Em. simpl in Em. by vm_compute in Em. }
  set (e := expectation _ _ _ _ _). unfold against.
  destruct e, (answered r) eqn:Ea, (bool_decide_reflect (pod_target cfg r = "")); split; intros H; try set_solver;
    try (destruct H as [[=]|(_ & _ & [(? & ? & _)|(? & ? & ?)])]; done).
Qed.

Lemma count_request_buckets ackedAt r tr b :
  0 < Buckets (count_request cfg timelines ackedAt r tr) b ↔ judge cfg timelines ackedAt r = b ∨ 0 < Buckets tr b.
Proof.
  assert (E : Buckets (count_hints cfg timelines r tr) = Buckets tr) by (unfold count_hints; repeat case_match; done).
  simpl. rewrite E. destruct (bool_decide_reflect (b = judge cfg timelines ackedAt r)) as [->|Hne]; [|naive_solver].
  split; [by left|lia].
Qed.

Lemma upd_report_buckets ackedAt r tests b :
  (∃ tr, tr ∈ upd_report cfg timelines ackedAt r tests ∧ 0 < Buckets tr b) ↔
  judge cfg timelines ackedAt r = b ∨ ∃ tr, tr ∈ tests ∧ 0 < Buckets tr b.
Proof.
  induction tests as [|tr tests IH]; simpl.
  - split.
    + intros (tr & ->%list_elem_of_singleton & H). apply count_request_buckets in H as [H|H]; [by left|].
      exfalso. unfold new_report in H. destruct (timelines !! r_Test r); simpl in H; lia.
    + intros [H|(tr & Hin%elem_of_nil & _)]; [|done]. eexists. split; [by left|]. apply count_request_buckets. by left.
  - destruct (bool_decide _).
    + split.
      * intros (x & [->|Hx]%elem_of_cons & H); [|right; exists x; set_solver].
        apply count_request_buckets in H as [H|H]; [by left|]. right. exists tr. set_solver.
      * intros [H|(x & [->|Hx]%elem_of_cons & H)].
        -- eexists. split; [by left|]. apply count_request_buckets. by left.
        -- eexists. split; [by left|]. apply count_request_buckets. by right.
        -- exists x. set_solver.
    + split.
      * intros (x & [->|Hx]%elem_of_cons & H); [right; exists tr; set_solver|].
        destruct (proj1 IH) as [?|(y & ? & ?)]; [by exists x|by left|right; exists y; set_solver].
      * intros [H|(x & [->|Hx]%elem_of_cons & H)].
        -- destruct (proj2 IH) as (y & ? & ?); [by left|]. exists y. set_solver.
        -- exists tr. set_solver.
        -- destruct (proj2 IH) as (y & ? & ?); [right; by exists x|]. exists y. set_solver.
Qed.

Lemma compareRecords_spec ackedAt :
  (∀ b, (∃ tr, tr ∈ (compareRecords cfg timelines ackedAt).1 ∧ 0 < Buckets tr b) ↔
        ∃ r, r ∈ Records cfg ∧ judge cfg timelines ackedAt r = b) ∧
  ∀ k, k ∈ (compareRecords cfg timelines ackedAt).2 ↔
       ∃ p, p ∈ Records cfg ∧ r_Key p = k ∧ may_lack_copies cfg timelines p = true.
Proof.
  unfold compareRecords. generalize (Records cfg) as rs. intros rs. induction rs as [|r rs [IH1 IH2]] using rev_ind; simpl.
  - split; [intros b; split; intros (? & ?%elem_of_nil & _); done|]. intros k. split; [set_solver|by intros (? & ?%elem_of_nil & _)].
  - rewrite fold_left_app. simpl. split.
    + intros b. rewrite upd_report_buckets, IH1. split.
      * intros [H|(x & Hx & H)]; [exists r|exists x]; set_solver.
      * intros (x & [Hx| ->%list_elem_of_singleton]%elem_of_app & H); [right; by exists x|by left].
    + intros k. destruct (may_lack_copies cfg timelines r) eqn:Er; [rewrite elem_of_union, elem_of_singleton|]; rewrite IH2; split.
      * intros [->|(x & Hx & H)]; [exists r|exists x]; set_solver.
      * intros (x & [Hx| ->%list_elem_of_singleton]%elem_of_app & H); [right; by exists x|left; naive_solver].
      * intros (x & Hx & H). exists x. set_solver.
      * intros (x & [Hx| ->%list_elem_of_singleton]%elem_of_app & H); [by exists x|]. destruct H. congruence.
Qed.

(** The counters of the read-back that fail a check. *)
Definition clean (rep : Report) : Prop :=
  Lost rep = 0 ∧ NotReadBack rep = 0 ∧ Unreadable rep = 0 ∧ UnexpectedUnderReplicated rep = [].

Lemma list_key_nonempty l k : list_key l k ≠ [].
Proof. unfold list_key, maxListed. destruct l; simpl; [done|]. by case_match. Qed.

Lemma join_key_clean expectedUnder rep k :
  (∀ x, x ∈ expectedUnder ↔ ∃ p, p ∈ Records cfg ∧ r_Key p = x ∧ may_lack_copies cfg timelines p = true) →
  clean (join_key cfg (latest_entry (Readback cfg)) expectedUnder rep k) ↔ clean rep ∧ read_back_ok k.
Proof.
  intros Hexp. unfold join_key, clean, read_back_ok. destruct (latest_entry (Readback cfg) !! k) as [e|]; simpl.
  2: { split; [intros (_ & ? & _); lia|]. by intros (_ & e & [=] & _). }
  pose proof (list_key_nonempty (UnexpectedUnderReplicated rep) k) as Hl. pose proof (list_key_nonempty (LostKeys rep) k) as Hl'.
  assert (Hx : bool_decide (k ∈ expectedUnder) && negb (c_Converged cfg) = true ↔
    c_Converged cfg = false ∧ ∃ p, p ∈ Records cfg ∧ r_Key p = k ∧ may_lack_copies cfg timelines p = true).
  { rewrite andb_true_iff, bool_decide_eq_true, negb_true_iff, Hexp. tauto. }
  assert (Hu : negb (length (b_Owners e) =? 0) && (length (b_Holders e) <? length (b_Owners e)) = true ↔
               length (b_Holders e) < length (b_Owners e)).
  { rewrite andb_true_iff, negb_true_iff, Nat.eqb_neq, Nat.ltb_lt. lia. }
  assert (Hr : (b_Result e = ResultOK ∧ bool_decide (b_Result e = ResultNotFound) || bool_decide (b_Result e = ResultMismatch) = false ∧ bool_decide (b_Result e = ResultOK) = true) ∨
               (b_Result e ≠ ResultOK ∧ bool_decide (b_Result e = ResultOK) = false)).
  { destruct (b_Result e); [left; done|right; done..]. }
  destruct Hr as [(Hr1 & -> & ->)|(Hr1 & ->)]; simpl.
  - destruct (bool_decide (k ∈ expectedUnder) && negb (c_Converged cfg)), (negb (length (b_Owners e) =? 0) && (length (b_Holders e) <? length (b_Owners e))); simpl.
    + split; [intros H; split; [done|]|by intros [? _]]. exists e. split; [done|]. split; [done|]. right. by apply Hx.
    + split; [intros H; split; [done|]|by intros [? _]]. exists e. split; [done|]. split; [done|]. right. by apply Hx.
    + split; [by intros (_ & _ & _ & ?)|]. intros [_ (e' & [= <-] & _ & [Hle|Hy])]; [|apply Hx in Hy; done].
      assert (length (b_Holders e) < length (b_Owners e)) by (by apply Hu). lia.
    + split; [intros H; split; [done|]|by intros [? _]]. exists e. split; [done|]. split; [done|]. left.
      destruct (decide (length (b_Holders e) < length (b_Owners e))) as [Hy%Hu|]; [done|lia].
  - split; [|intros [_ (e' & [= <-] & ? & _)]; done].
    destruct (bool_decide (b_Result e = ResultNotFound) || bool_decide (b_Result e = ResultMismatch)); simpl; intros (? & ? & ? & _); lia.
Qed.

Lemma fold_join_clean expectedUnder keys rep :
  (∀ x, x ∈ expectedUnder ↔ ∃ p, p ∈ Records cfg ∧ r_Key p = x ∧ may_lack_copies cfg timelines p = true) →
  clean (fold_left (join_key cfg (latest_entry (Readback cfg)) expectedUnder) keys rep) ↔
  clean rep ∧ ∀ k, k ∈ keys → read_back_ok k.
Proof.
  intros Hexp. revert rep. induction keys as [|k keys IH]; intros rep; simpl; [set_solver|].
  rewrite IH, join_key_clean by done. split.
  - intros [[Hc Hk] Hks]. split; [done|]. intros x [->|Hx]%elem_of_cons; auto.
  - intros [Hc Hks]. split; [split; [done|apply Hks; by left]|]. intros x Hx. apply Hks. by right.
Qed.

Lemma join_key_tests expectedUnder keys rep :
  Tests (fold_left (join_key cfg (latest_entry (Readback cfg)) expectedUnder) keys rep) = Tests rep.
Proof.
  revert rep. induction keys as [|k keys IH]; intros rep; simpl; [done|]. rewrite IH. unfold join_key.
  by destruct (latest_entry (Readback cfg) !! k).
Qed.

Lemma report_OK_true rep :
  report_OK rep = true ↔ (∀ b, b ∈ violations → ¬ ∃ tr, tr ∈ Tests rep ∧ 0 < Buckets tr b) ∧ clean rep.
Proof.
  unfold report_OK, clean. rewrite !andb_true_iff, !Nat.eqb_eq, forallb_forall.
  assert (Ht : (∀ tr, In tr (Tests rep) → forallb (λ b, Buckets tr b =? 0) violations = true) ↔
               ∀ b, b ∈ violations → ¬ ∃ tr, tr ∈ Tests rep ∧ 0 < Buckets tr b).
  { split.
    - intros H b Hb (tr & Htr & Hp). specialize (H tr ltac:(by apply list_elem_of_In)). rewrite forallb_forall in H.
      specialize (H b ltac:(by apply list_elem_of_In)). apply Nat.eqb_eq in H. lia.
    - intros H tr Htr%list_elem_of_In. apply forallb_forall. intros b Hb%list_elem_of_In. apply Nat.eqb_eq.
      destruct (decide (Buckets tr b = 0)) as [|Hne]; [done|]. exfalso. apply (H b Hb). exists tr. split; [done|lia]. }
  rewrite Ht. destruct (UnexpectedUnderReplicated rep); simpl; naive_solver.
Qed.

Lemma joinReadback_OK ackedAt expectedUnder rep :
  (∀ x, x ∈ expectedUnder ↔ ∃ p, p ∈ Records cfg ∧ r_Key p = x ∧ may_lack_copies cfg timelines p = true) → clean rep →
  report_OK (joinReadback cfg ackedAt expectedUnder rep) = true ↔
    (∀ b, b ∈ violations → ¬ ∃ tr, tr ∈ Tests rep ∧ 0 < Buckets tr b) ∧ ∀ k, k ∈ dom ackedAt → read_back_ok k.
Proof.
  intros Hexp Hclean. rewrite report_OK_true. unfold joinReadback.
  pose proof (fold_join_clean expectedUnder (sort_strings (elements (dom ackedAt))) rep Hexp) as Hc.
  unfold clean in *. simpl. rewrite join_key_tests, Hc. split.
  - intros [Hv [_ Hk]]. split; [done|]. intros k Hin. apply Hk. by rewrite sort_strings_elem, elem_of_elements.
  - intros [Hv Hk]. split; [done|]. split; [done|]. intros k. rewrite sort_strings_elem, elem_of_elements. apply Hk.
Qed.
End verdict.




(** A value the recorder wrote under one of its keys matches that key and
    no other key of the same prefix, whatever the prefix and the size. *)
Theorem value_identifies_key (prefix : string) (i j size : nat) :
  ValueMatches (KeyName prefix i) (Value (KeyName prefix j) size) = true ↔ i = j.
Proof.
  unfold ValueMatches, Value, KeyName. rewrite HasPrefix_true. split.
  - intros [t H]. rewrite !string_app_assoc in H. apply (inj (String.app prefix)) in H. injection H as H.
    set (xs := Repeat "x" _) in H. change (pad7 j +:+ String "|" xs = pad7 i +:+ String "|" t) in H.
    apply (f_equal (Cut "|")) in H.
    rewrite (Cut_number "|" (pad7 j) 0 (N.of_nat j)) in H by (done || apply atoi_loop_pad7).
    rewrite (Cut_number "|" (pad7 i) 0 (N.of_nat i)) in H by (done || apply atoi_loop_pad7).
    assert (E : pad7 j = pad7 i) by congruence. apply (f_equal (λ s, atoi_loop s 0)) in E. rewrite !atoi_loop_pad7 in E.
    injection E as E. lia.
  - intros ->. eauto.
Qed.

(** ** An example: a pod goes down, and a read that needs it fails *)

Definition w_events : list Event :=
  [mkEvent 1000000000000 "t1" "inject" "zone:za" ""; mkEvent 1060000000000 "t1" "heal" "" ""].
Definition w_records : list Request :=
  [mkReq "t1" 1 OpPut "k-0000000" "kv-1" 900000000000 900001000000 ResultOK;
   mkReq "t1" 2 OpGet "k-0000000" "kv-1" 1030000000000 1030001000000 ResultFailed;
   mkReq "t1" 3 OpGet "k-0000000" "kv-1" 1090000000000 1090001000000 ResultOK].
Definition w_check : CheckConfig :=
  mkCfg w_topology w_events w_records [mkRB "k-0000000" 1100000000000 "kv-0" ResultOK ["kv-0"; "kv-1"] ["kv-0"; "kv-1"] []] true 0 0 0 0.

