(* ===== verification/Identity.v ===== *)
(** * A node's incarnation (internal/identity/identity.go)

    The random identity that is created with a data directory and names its
    node in vector clocks.  Shown: it stays what it was through crashes and
    restarts, another node is refused; and a node that replaces another one
    under the same ID writes versions that no older version supersedes. *)

From stdpp Require Import gmap strings list.
From Stdlib Require Import ZArith Lia Ascii.
From S2P Require Import Prelude GoLib GoStrings VectorClock Versioning Json Sha256 Fsutil Quote Membership.

Open Scope nat_scope.

Definition incarnationBytes : nat := 8.

(** [file], in JSON *)
Record idFile := mkId { NodeID : string; Incarnation : string }.

(** [NewIncarnation], of the random bytes it reads *)
Definition NewIncarnation (random : bytes) : string := hex_encode (take incarnationBytes random).

Definition ClockID (nodeID incarnation : string) : string := nodeID +:+ "#" +:+ incarnation.

(** [hex.DecodeString] succeeds. *)
Definition is_hex (c : ascii) : bool :=
  let n := N_of_ascii c in
  ((48 <=? n) && (n <=? 57) || (97 <=? n) && (n <=? 102) || (65 <=? n) && (n <=? 70))%N.
Definition hex_decodes (s : string) : bool := Nat.even (String.length s) && forallb is_hex (to_bytes s).
Definition validIncarnation (s : string) : bool := (String.length s =? 2 * incarnationBytes) && hex_decodes s.

Inductive id_error :=
  | EmptyNodeID | IdCorrupt | IdOtherNode (found : string) | IdInvalid (incarnation : string) | IdRead | IdEncode
  | IdWrite (e : fs_error).

Section identity.
Context `{!JsonCodec idFile}.

Definition write (io : atomic_io) (f : file) (i : idFile) : file * option id_error :=
  match json_marshal i with
  | None => (f, Some IdEncode)
  | Some data => let '(f, err) := WriteFileAtomic io f data in (f, IdWrite <$> err)
  end.

Definition LoadOrCreate (io : atomic_io) (read_fails : bool) (random : bytes) (f : file) (nodeID : string)
    : file * res id_error string :=
  if bool_decide (nodeID = "") then (f, Err EmptyNodeID)
  else match content f with
  | Some data =>
      (f, if read_fails then Err IdRead
          else match json_unmarshal data with
               | None => Err IdCorrupt
               | Some i =>
                   if negb (bool_decide (NodeID i = nodeID)) then Err (IdOtherNode (NodeID i))
                   else if negb (validIncarnation (Incarnation i)) then Err (IdInvalid (Incarnation i))
                   else Ok (Incarnation i)
               end)
  | None =>
      let incarnation := NewIncarnation random in
      match write io f (mkId nodeID incarnation) with
      | (f, Some e) => (f, Err e)
      | (f, None) => (f, Ok incarnation)
      end
  end.
End identity.

(** ** Properties *)

Lemma to_bytes_length s : length (to_bytes s) = String.length s.
Proof. induction s as [|c s IH]; simpl; congruence. Qed.

Lemma hex_pair_hex c : forallb is_hex (hex_pair c) = true.
Proof. destruct c as [[] [] [] [] [] [] [] []]; vm_compute; reflexivity. Qed.

Lemma hex_pairs_length (b : bytes) : length (b ≫= hex_pair) = 2 * length b.
Proof.
  induction b as [|c b IH]; [done|]. change ((c :: b) ≫= hex_pair) with (hex_pair c ++ (b ≫= hex_pair)).
  rewrite length_app, IH. simpl. lia.
Qed.

Lemma NewIncarnation_valid random : incarnationBytes ≤ length random → validIncarnation (NewIncarnation random) = true.
Proof.
  intros Hr. unfold validIncarnation, hex_decodes, NewIncarnation.
  set (b := take incarnationBytes random). assert (Hb : length b = 8) by (unfold b; rewrite length_take; unfold incarnationBytes in *; lia).
  assert (Ht : to_bytes (hex_encode b) = b ≫= hex_pair) by apply to_of_bytes.
  rewrite <-to_bytes_length, Ht, hex_pairs_length, Hb. simpl.
  clear. induction b as [|c b IH]; [done|]. change ((c :: b) ≫= hex_pair) with (hex_pair c ++ (b ≫= hex_pair)).
  by rewrite forallb_app, hex_pair_hex.
Qed.

(** What JSON carries faithfully. *)
Definition id_ok (i : idFile) : Prop := string_ok (NodeID i) = true ∧ string_ok (Incarnation i) = true.

Section stable.
Context `{!JsonCodec idFile} `{!JsonRoundTrip idFile id_ok}.

(** The directory holds a complete identity, or none, and that is on disk. *)
Definition durable (f : file) : Prop := after_crash f = [content f].

Definition loads (f : file) (nodeID inc : string) : Prop :=
  ∀ io random, LoadOrCreate io false random f nodeID = (f, Ok inc).

Lemma loads_content f data nodeID inc :
  nodeID ≠ "" → content f = Some data → json_unmarshal data = Some (mkId nodeID inc) → validIncarnation inc = true →
  loads f nodeID inc ∧ ∀ io random other, other ≠ "" → other ≠ nodeID →
    LoadOrCreate io false random f other = (f, Err (IdOtherNode nodeID)).
Proof.
  intros Hn Hc Hj Hv. split.
  - intros io random. unfold LoadOrCreate. rewrite (bool_decide_false (nodeID = "")), Hc, Hj by done. simpl.
    rewrite bool_decide_true by done. by rewrite Hv.
  - intros io random other Ho Hne. unfold LoadOrCreate. rewrite (bool_decide_false (other = "")), Hc, Hj by done. simpl.
    by rewrite bool_decide_false.
Qed.

(** Once [LoadOrCreate] has returned an incarnation for a node, every later
    start on that directory, after a clean stop or a crash, returns the same
    one and leaves the file alone, and a start under another node ID is refused,
    naming the owner; the incarnation is well formed. *)
Theorem incarnation_is_stable io random f f' nodeID inc :
  windows io = false → incarnationBytes ≤ length random → string_ok nodeID = true →
  durable f → LoadOrCreate io false random f nodeID = (f', Ok inc) →
  validIncarnation inc = true ∧ durable f' ∧
  ∀ g, g = f' ∨ recovered f' g →
    loads g nodeID inc ∧
    ∀ io' random' other, other ≠ "" → other ≠ nodeID → LoadOrCreate io' false random' g other = (g, Err (IdOtherNode nodeID)).
Proof.
  intros Hw Hr Hs Hd. unfold LoadOrCreate. destruct (bool_decide_reflect (nodeID = "")) as [|Hn]; [done|].
  assert (Hall : ∀ f', durable f' → (∃ data, content f' = Some data ∧ json_unmarshal data = Some (mkId nodeID inc)) →
    validIncarnation inc = true →
    validIncarnation inc = true ∧ durable f' ∧ ∀ g, g = f' ∨ recovered f' g →
      loads g nodeID inc ∧ ∀ io' random' other, other ≠ "" → other ≠ nodeID →
        LoadOrCreate io' false random' g other = (g, Err (IdOtherNode nodeID))).
  { intros f0 Hd0 (data & Hc & Hj) Hv. split; [done|]. split; [done|]. intros g Hg. apply (loads_content g data); try done.
    destruct Hg as [->|[Hg _]]; [done|]. rewrite Hd0 in Hg. apply list_elem_of_singleton in Hg. congruence. }
  destruct (content f) as [data|] eqn:Hc.
  - intros [= <- H]. destruct (json_unmarshal data) as [[n i]|] eqn:Hj; [|done]. simpl in H.
    destruct (bool_decide_reflect (n = nodeID)) as [->|]; [|done]. simpl in H. destruct (validIncarnation i) eqn:Hv; [|done].
    injection H as ->. apply Hall; [done| |done]. by exists data.
  - unfold write. destruct (json_marshal (mkId nodeID (NewIncarnation random))) as [data|] eqn:Hj; [|done].
    assert (Hok : file_ok f) by (unfold file_ok; rewrite Hd; by left).
    pose proof (WriteFileAtomic_effect io f data Hok) as He. destruct (WriteFileAtomic io f data) as [f0 [e|]]; [done|]. simpl.
    intros [= <- <-]. destruct He as (_ & _ & _ & He). destruct (He eq_refl) as [Hc0 Ha0].
    apply Hall; [unfold durable; rewrite Hc0; by apply Ha0| |by apply NewIncarnation_valid].
    exists data. split; [done|]. eapply (json_roundtrip (ok := id_ok)); [|exact Hj]. split; [done|apply hex_encode_ok].
Qed.
End stable.

Lemma string_length_app s t : String.length (s +:+ t) = String.length s + String.length t.
Proof. induction s as [|c s IH]; [done|]. change (S (String.length (s +:+ t)) = S (String.length s + String.length t)). by rewrite IH. Qed.

(** Clock names of incarnations do not collide. *)
Lemma ClockID_inj n i n' i' :
  validIncarnation i = true → validIncarnation i' = true → ClockID n i = ClockID n' i' → n = n' ∧ i = i'.
Proof.
  unfold validIncarnation. intros [H1%Nat.eqb_eq _]%andb_prop [H2%Nat.eqb_eq _]%andb_prop E. unfold ClockID in E.
  revert n' E. induction n as [|c n IH]; intros [|c' n'] E.
  - by injection E.
  - exfalso. apply (f_equal String.length) in E. rewrite !string_length_app in E. simpl in E. lia.
  - exfalso. apply (f_equal String.length) in E. rewrite !string_length_app in E. simpl in E. lia.
  - change (String c (n +:+ "#" +:+ i) = String c' (n' +:+ "#" +:+ i')) in E. injection E as -> E.
    destruct (IH n' E) as [-> ->]. done.
Qed.

(** The names a clock uses, when every writer is an incarnation other than [inc]. *)
Definition other_incarnations (inc : string) (c : gmap string N) : Prop :=
  ∀ name, name ∈ dom c → ∃ n i, name = ClockID n i ∧ validIncarnation i = true ∧ i ≠ inc.

Lemma other_incarnations_mget inc nodeID c :
  validIncarnation inc = true → other_incarnations inc c → mget c (ClockID nodeID inc) = 0%N.
Proof.
  intros Hv Hc. apply mget_not_dom. intros (n & i & E & Hi & Hne)%Hc. by apply ClockID_inj in E as [_ <-].
Qed.

(** A node started on an empty directory under an ID used before writes
    under an incarnation that no stored clock mentions.  Its write is kept next
    to all versions stored under the old incarnation, however high their
    counters, except those its context supersedes, and supersedes its context. *)
Theorem replacement_write_kept (existing : list DataItem) ctx nodeID inc v :
  validIncarnation inc = true → (∀ x, x ∈ existing → other_incarnations inc (clock x)) → other_incarnations inc ctx →
  let item := mkItem v (BuildFromContext ctx (ClockID nodeID inc)) nodeID false in
  item ∈ Resolve existing item ∧ ctx ⊏c clock item ∧
  ∀ x, x ∈ existing → ¬ clock x ⊑c ctx → x ∈ Resolve existing item.
Proof.
  intros Hv Hex Hctx item. pose proof (other_incarnations_mget inc nodeID ctx Hv Hctx) as H0.
  assert (Hclock : clock item = <[ClockID nodeID inc := 1%N]> ctx).
  { change (clock item) with (state (BuildFromContext ctx (ClockID nodeID inc))). by rewrite BuildFromContext_state, H0. }
  assert (H1 : mget (clock item) (ClockID nodeID inc) = 1%N) by (rewrite Hclock, mget_insert; by rewrite decide_True).
  split; [|split].
  - rewrite Resolve_alt. apply elem_of_app. right. destruct (existsb (le_b item) existing) eqn:E; [|by left].
    exfalso. apply covered_le_b in E as (y & Hy & Hle). specialize (Hle (ClockID nodeID inc)).
    rewrite H1, (other_incarnations_mget inc nodeID (clock y) Hv (Hex y Hy)) in Hle. lia.
  - rewrite Hclock. apply insert_supersedes. rewrite H0. lia.
  - intros x Hx Hnle. apply Resolve_keeps; [done|]. intros [Hle _]. apply Hnle. intros n.
    destruct (decide (n = ClockID nodeID inc)) as [->|Hne].
    + rewrite (other_incarnations_mget inc nodeID (clock x) Hv (Hex x Hx)). lia.
    + specialize (Hle n). rewrite Hclock, mget_insert, decide_False in Hle by done. done.
Qed.

(** ** An example: kv-0 is replaced *)

#[export] Instance idFile_eq_dec : EqDecision idFile.
Proof. solve_decision. Defined.
#[export] Instance idFile_countable : Countable idFile.
Proof. apply (inj_countable' (λ f, (NodeID f, Incarnation f)) (λ '(n, i), mkId n i)). by intros []. Defined.
Definition toy_id_json : JsonCodec idFile := countable_codec idFile.

Lemma incarnation_is_stable_witness :
  ∃ f', LoadOrCreate (JsonCodec0 := toy_id_json) disk_fine false (to_bytes "12345678") no_file "kv-0" = (f', Ok "3132333435363738") ∧
        loads (JsonCodec0 := toy_id_json) f' "kv-0" "3132333435363738".
Proof.
  destruct (LoadOrCreate (JsonCodec0 := toy_id_json) disk_fine false (to_bytes "12345678") no_file "kv-0") as [f' r] eqn:E.
  assert (Hr : r = Ok "3132333435363738") by (replace r with (f', r).2 by done; rewrite <-E; vm_compute; reflexivity). subst r.
  exists f'. split; [done|].
  eapply (incarnation_is_stable (JsonCodec0 := toy_id_json) (JsonRoundTrip0 := countable_codec_roundtrip idFile id_ok)
    disk_fine (to_bytes "12345678") no_file f' "kv-0" "3132333435363738"); [done|vm_compute; lia|done|done|exact E|by left].
Defined.

Definition old_inc : string := "aaaaaaaaaaaaaaaa".
Definition new_inc : string := "bbbbbbbbbbbbbbbb".
Definition old_version : DataItem := mkItem (VString "old") (mkVC {[ClockID "kv-0" old_inc := 7%N]}) "kv-0" false.

Lemma replacement_write_kept_witness :
  Resolve [old_version] (mkItem (VString "new") (BuildFromContext ∅ (ClockID "kv-0" new_inc)) "kv-0" false) =
    [old_version; mkItem (VString "new") (BuildFromContext ∅ (ClockID "kv-0" new_inc)) "kv-0" false] ∧
  mkItem (VString "new") (BuildFromContext ∅ (ClockID "kv-0" new_inc)) "kv-0" false ∈
    Resolve [old_version] (mkItem (VString "new") (BuildFromContext ∅ (ClockID "kv-0" new_inc)) "kv-0" false).
Proof.
  split; [vm_compute; reflexivity|].
  refine (proj1 (replacement_write_kept [old_version] ∅ "kv-0" new_inc (VString "new") eq_refl _ _)); [|intros name Hn; set_solver].
  intros x ->%list_elem_of_singleton name Hn. exists "kv-0", old_inc. split; [|done].
  unfold clock, DataItem_clocked in Hn. simpl in Hn. rewrite dom_singleton_L in Hn. set_solver.
Defined.
