(* ===== verification/Config.v ===== *)
(** * Configuration and the membership a node starts with
      (internal/config/config.go, internal/app/app.go)

    The rules a configuration must satisfy, its member list in the shapes the
    node takes, and what starting a node with it does to the membership it
    holds.  Decoding YAML and the environment are inputs. *)

From stdpp Require Import gmap strings list.
From Stdlib Require Import ZArith Lia Ascii.
From S2P Require Import Prelude GoLib GoStrings HashRing Json Sha256 Quote Fsutil Membership.

Open Scope nat_scope.

Record Member := mkCfgMember { m_ID : string; m_Address : string }.
Record Cluster := mkCluster { c_N : Z; c_W : Z; c_R : Z; c_Epoch : N; c_Members : list Member }.
Record Storage := mkStorage { MemtableBytes : Z; GroupCommit : option bool }.
Record Intervals := mkIntervals { i_Compaction : Z; i_AntiEntropy : Z; i_HintDelivery : Z; i_Heartbeat : Z }.
Record Timeouts := mkTimeouts { to_Replication : Z; to_MaxReconnectBackoff : Z; to_Shutdown : Z; to_Heartbeat : Z }.

Record Listen := mkListen { GRPC : string; HTTP : string }.

Record Config := mkConfig {
  cfg_NodeID : string; cfg_Listen : Listen; DataDir : string; cfg_Cluster : Cluster; cfg_Storage : Storage;
  cfg_Intervals : Intervals; cfg_Timeouts : Timeouts; MaxMissedHeartbeats : Z
}.

Definition GroupCommitOn (s : Storage) : bool := match GroupCommit s with None => true | Some b => b end.

Definition defaultHeartbeatInterval : Z := 1000000000.
Definition defaultHeartbeatTimeout : Z := 500000000.
Definition defaultMaxMissedHeartbeats : Z := 3.

Definition or_default (z d : Z) : Z := if (z =? 0)%Z then d else z.
Definition applyDefaults (c : Config) : Config :=
  mkConfig (cfg_NodeID c) (cfg_Listen c) (DataDir c) (cfg_Cluster c) (cfg_Storage c)
    (mkIntervals (i_Compaction (cfg_Intervals c)) (i_AntiEntropy (cfg_Intervals c)) (i_HintDelivery (cfg_Intervals c))
       (or_default (i_Heartbeat (cfg_Intervals c)) defaultHeartbeatInterval))
    (mkTimeouts (to_Replication (cfg_Timeouts c)) (to_MaxReconnectBackoff (cfg_Timeouts c)) (to_Shutdown (cfg_Timeouts c))
       (or_default (to_Heartbeat (cfg_Timeouts c)) defaultHeartbeatTimeout))
    (or_default (MaxMissedHeartbeats c) defaultMaxMissedHeartbeats).

Inductive config_error :=
  | NodeIDRequired | NodeIDSeparator | MemberSeparator (id : string) | DuplicateID (id : string) | DuplicateAddress (a : string)
  | NotAMember | DataDirRequired | BadW | BadR | TooLargeN | NotPositive | HeartbeatTooLong | BadMissed | BadMemtable.

Definition clockIDSeparator : string := "#".

(** The loop over the members: whether the node is one of them. *)
Fixpoint members_loop (nodeID : string) (ms : list Member) (seenID seenAddr : gset string) (selfFound : bool) : config_error + bool :=
  match ms with
  | [] => inr selfFound
  | m :: rest =>
      if Contains (m_ID m) clockIDSeparator then inl (MemberSeparator (m_ID m))
      else if bool_decide (m_ID m ∈ seenID) then inl (DuplicateID (m_ID m))
      else if bool_decide (m_Address m ∈ seenAddr) then inl (DuplicateAddress (m_Address m))
      else members_loop nodeID rest ({[m_ID m]} ∪ seenID) ({[m_Address m]} ∪ seenAddr) (selfFound || bool_decide (m_ID m = nodeID))
  end.

Definition durations (c : Config) : list Z :=
  [i_Compaction (cfg_Intervals c); i_AntiEntropy (cfg_Intervals c); i_HintDelivery (cfg_Intervals c);
   to_Replication (cfg_Timeouts c); to_MaxReconnectBackoff (cfg_Timeouts c); to_Shutdown (cfg_Timeouts c);
   i_Heartbeat (cfg_Intervals c); to_Heartbeat (cfg_Timeouts c)].

Definition validate (c : Config) : option config_error :=
  let cl := cfg_Cluster c in
  if bool_decide (cfg_NodeID c = "") then Some NodeIDRequired
  else if Contains (cfg_NodeID c) clockIDSeparator then Some NodeIDSeparator
  else match members_loop (cfg_NodeID c) (c_Members cl) ∅ ∅ false with
  | inl e => Some e
  | inr false => Some NotAMember
  | inr true =>
      if bool_decide (DataDir c = "") then Some DataDirRequired
      else if ((c_W cl <? 1) || (c_N cl <? c_W cl))%Z then Some BadW
      else if ((c_R cl <? 1) || (c_N cl <? c_R cl))%Z then Some BadR
      else if (Z.of_nat (length (c_Members cl)) <? c_N cl)%Z then Some TooLargeN
      else if existsb (λ d, (d <=? 0)%Z) (durations c) then Some NotPositive
      else if (i_Heartbeat (cfg_Intervals c) <=? to_Heartbeat (cfg_Timeouts c))%Z then Some HeartbeatTooLong
      else if (MaxMissedHeartbeats c <=? 0)%Z then Some BadMissed
      else if (MemtableBytes (cfg_Storage c) <=? 0)%Z then Some BadMemtable
      else None
  end.

(** [Load], after decoding: the environment's node ID, the defaults, the rules. *)
Definition Load (decoded : Config) (envID : string) : res config_error Config :=
  let c := if bool_decide (envID = "") then decoded
           else mkConfig envID (cfg_Listen decoded) (DataDir decoded) (cfg_Cluster decoded) (cfg_Storage decoded) (cfg_Intervals decoded)
                  (cfg_Timeouts decoded) (MaxMissedHeartbeats decoded) in
  let c := applyDefaults c in
  match validate c with Some e => Err e | None => Ok c end.

Definition SelfAddress (c : Config) : string :=
  match List.find (λ m, bool_decide (m_ID m = cfg_NodeID c)) (c_Members (cfg_Cluster c)) with
  | Some m => m_Address m
  | None => ""
  end.
Definition MemberAddrs (c : Config) : gmap string string :=
  fold_left (λ m x, <[m_ID x := m_Address x]> m) (c_Members (cfg_Cluster c)) ∅.
Definition NeighborAddrs (c : Config) : gmap string string :=
  fold_left (λ m x, if bool_decide (m_ID x = cfg_NodeID c) then m else <[m_ID x := m_Address x]> m) (c_Members (cfg_Cluster c)) ∅.

Section apply.
Context `{!Unicode} `{!JsonCodec membershipFile} `{!JsonCodec handoffFile}.

(** [applyConfiguredMembership], with the handoff run it starts *)
Definition applyConfiguredMembership (io : atomic_io) (nd : node) (c : Config) : node * option set_error * option handoff_run :=
  match SetMembership io nd (c_Epoch (cfg_Cluster c)) (MemberAddrs c) with
  | (nd, Err (StaleEpoch _ _), run) => (nd, None, run)
  | (nd, Err e, run) => (nd, Some e, run)
  | (nd, Ok _, run) => (nd, None, run)
  end.

(** [openNode], its membership part; [Run] sets [MaxMissedHeartbeats] right
    after it. *)
Definition openNode (c : Config) (mread_fails hread_fails : bool) (mfile hfile : file) : option (res boot_error node) :=
  if bool_decide (DataDir c = "") then None
  else Some (boot (cfg_NodeID c) (SelfAddress c) (Z.to_nat (c_N (cfg_Cluster c))) (MaxMissedHeartbeats c) (NeighborAddrs c)
               mread_fails hread_fails mfile hfile).
End apply.

(** ** Properties *)

Lemma Contains_char s c : Contains s (String c "") = existsb (λ x, Ascii.eqb c x) (to_bytes s).
Proof.
  induction s as [|x s IH]; [done|]. simpl. rewrite IH. f_equal. unfold HasPrefix. simpl. by destruct (Ascii.eqb c x).
Qed.

Lemma members_loop_ok nodeID ms seenID seenAddr self b :
  members_loop nodeID ms seenID seenAddr self = inr b →
  NoDup (m_ID <$> ms) ∧ NoDup (m_Address <$> ms) ∧
  (∀ m, m ∈ ms → Contains (m_ID m) clockIDSeparator = false ∧ m_ID m ∉ seenID ∧ m_Address m ∉ seenAddr) ∧
  (b = true ↔ self = true ∨ nodeID ∈ m_ID <$> ms).
Proof.
  revert seenID seenAddr self. induction ms as [|m ms IH]; intros seenID seenAddr self; simpl.
  - intros [= <-]. split; [constructor|]. split; [constructor|]. split; [set_solver|]. rewrite elem_of_nil. tauto.
  - destruct (Contains (m_ID m) clockIDSeparator) eqn:Ec; [done|].
    destruct (bool_decide_reflect (m_ID m ∈ seenID)) as [|Hi]; [done|].
    destruct (bool_decide_reflect (m_Address m ∈ seenAddr)) as [|Ha]; [done|].
    intros (H1 & H2 & H3 & H4)%IH. repeat split.
    + constructor; [|done]. intros (x & E & Hx)%list_elem_of_fmap. destruct (H3 x Hx) as (_ & Hn & _). set_solver.
    + constructor; [|done]. intros (x & E & Hx)%list_elem_of_fmap. destruct (H3 x Hx) as (_ & _ & Hn). set_solver.
    + apply elem_of_cons in H as [->|Hm]; [done|]. by apply H3.
    + apply elem_of_cons in H as [->|Hm]; [done|]. destruct (H3 _ Hm) as (_ & ? & _). set_solver.
    + apply elem_of_cons in H as [->|Hm]; [done|]. destruct (H3 _ Hm) as (_ & _ & ?). set_solver.
    + intros Hb. apply H4 in Hb as [Hb|Hb]; [|set_solver]. apply orb_prop in Hb as [Hb|Hb%bool_decide_eq_true]; [by left|right; set_solver].
    + intros [Hb|[->|Hb]%elem_of_cons]; apply H4; [left; by rewrite Hb|left; rewrite bool_decide_true by done; by rewrite orb_true_r|by right].
Qed.

Lemma Contains_has_separator id :
  Contains id clockIDSeparator = false → "000"%char ∉ to_bytes id → has_separator id = false.
Proof.
  unfold clockIDSeparator. rewrite Contains_char. unfold has_separator. intros Hc Hn.
  induction (to_bytes id) as [|x l IH]; [done|]. cbn [existsb] in *. apply orb_false_iff in Hc as [Hx Hc].
  rewrite IH by set_solver. rewrite orb_false_r, (bool_decide_false (x = "000"%char)) by set_solver.
  rewrite orb_false_r. apply bool_decide_false. intros ->. done.
Qed.

(** The maps the configuration builds, as maps of its list. *)
Definition pair (m : Member) : string * string := (m_ID m, m_Address m).

Lemma MemberAddrs_map ms (acc : gmap string string) :
  NoDup (m_ID <$> ms) → fold_left (λ m x, <[m_ID x := m_Address x]> m) ms acc = list_to_map (pair <$> ms) ∪ acc.
Proof.
  revert acc. induction ms as [|x ms IH]; intros acc Hnd; cbn [fold_left]; [cbn; by rewrite (left_id_L ∅ _)|].
  apply NoDup_cons in Hnd as [Hx Hnd]. rewrite IH by done. cbn.
  rewrite <-insert_union_l, insert_union_r; [done|].
  apply not_elem_of_list_to_map_1. by rewrite <-list_fmap_compose.
Qed.

Lemma NeighborAddrs_map self ms (acc : gmap string string) :
  fold_left (λ m x, if bool_decide (m_ID x = self) then m else <[m_ID x := m_Address x]> m) ms acc =
  fold_left (λ m x, <[m_ID x := m_Address x]> m) (filter (λ x, m_ID x ≠ self) ms) acc.
Proof.
  revert acc. induction ms as [|x ms IH]; intros acc; cbn [fold_left]; [done|]. rewrite filter_cons.
  case_bool_decide; [rewrite decide_False by tauto|rewrite decide_True by done]; apply IH.
Qed.

Lemma pair_elem ms x : NoDup (m_ID <$> ms) → x ∈ ms → (list_to_map (pair <$> ms) : gmap string string) !! m_ID x = Some (m_Address x).
Proof.
  intros Hnd Hx. apply elem_of_list_to_map_1; [by rewrite <-list_fmap_compose|]. apply list_elem_of_fmap. by exists x.
Qed.

(** The members of a valid configuration, as the node sees them. *)
Section members.
Context (c : Config) (Hv : validate c = None).

Lemma validate_members :
  NoDup (m_ID <$> c_Members (cfg_Cluster c)) ∧ NoDup (m_Address <$> c_Members (cfg_Cluster c)) ∧
  (∀ m, m ∈ c_Members (cfg_Cluster c) → Contains (m_ID m) clockIDSeparator = false) ∧
  cfg_NodeID c ∈ m_ID <$> c_Members (cfg_Cluster c) ∧ DataDir c ≠ "" ∧
  (1 ≤ c_W (cfg_Cluster c) ≤ c_N (cfg_Cluster c))%Z ∧ (1 ≤ c_R (cfg_Cluster c) ≤ c_N (cfg_Cluster c))%Z ∧
  (c_N (cfg_Cluster c) ≤ Z.of_nat (length (c_Members (cfg_Cluster c))))%Z.
Proof.
  revert Hv. unfold validate. case_bool_decide; [done|]. case_match; [done|].
  destruct (members_loop _ _ _ _ _) as [|[]] eqn:El; [done| |done]. case_bool_decide; [done|].
  destruct (members_loop_ok _ _ _ _ _ _ El) as (Hi & Ha & H3 & [H4 _]). destruct (H4 eq_refl) as [?|Hself]; [done|].
  destruct (_ || _) eqn:Ew; [done|]. destruct (_ || _) eqn:Er in |- *; [done|]. destruct (_ <? _)%Z eqn:En in |- *; [done|]. intros _.
  apply orb_false_iff in Ew, Er. split_and!; [done|done| |done|done|lia..]. intros m Hm. by destruct (H3 m Hm).
Qed.

Lemma MemberAddrs_list : MemberAddrs c = list_to_map (pair <$> c_Members (cfg_Cluster c)).
Proof. destruct validate_members as (Hnd & _). unfold MemberAddrs. by rewrite MemberAddrs_map, (right_id_L ∅ _) by done. Qed.

Lemma MemberAddrs_lookup id a : MemberAddrs c !! id = Some a ↔ ∃ m, m ∈ c_Members (cfg_Cluster c) ∧ id = m_ID m ∧ a = m_Address m.
Proof.
  destruct validate_members as (Hnd & _). rewrite MemberAddrs_list. split.
  - intros (m & [= -> ->] & Hm)%elem_of_list_to_map_2%list_elem_of_fmap. by exists m.
  - intros (m & Hm & -> & ->). by apply pair_elem.
Qed.

Lemma MemberAddrs_size : size (MemberAddrs c) = length (c_Members (cfg_Cluster c)).
Proof.
  destruct validate_members as (Hnd & _). rewrite MemberAddrs_list, <-(length_fmap pair).
  rewrite <-(length_map_to_list), map_to_list_to_map; [done|]. by rewrite <-list_fmap_compose.
Qed.

Lemma SelfAddress_member : ∃ m, m ∈ c_Members (cfg_Cluster c) ∧ m_ID m = cfg_NodeID c ∧ m_Address m = SelfAddress c.
Proof.
  destruct validate_members as (_ & _ & _ & (m & E & Hm)%list_elem_of_fmap & _). unfold SelfAddress.
  destruct (List.find _ _) as [x|] eqn:Ef.
  - apply find_some in Ef as [Hin Hx%bool_decide_eq_true]. exists x. rewrite list_elem_of_In. done.
  - eapply find_none in Ef; [|by apply list_elem_of_In]. by rewrite bool_decide_true in Ef.
Qed.

Lemma MemberAddrs_split : MemberAddrs c = <[cfg_NodeID c := SelfAddress c]> (NeighborAddrs c).
Proof.
  destruct validate_members as (Hnd & _). destruct SelfAddress_member as (m & Hm & Hid & Ha).
  unfold NeighborAddrs. rewrite NeighborAddrs_map, MemberAddrs_map, (right_id_L ∅ _).
  2:{ eapply sublist_NoDup; [exact Hnd|]. apply fmap_sublist, sublist_filter. }
  apply map_eq. intros id. destruct (decide (id = cfg_NodeID c)) as [->|Hne].
  { rewrite lookup_insert_eq. apply MemberAddrs_lookup. by exists m. }
  rewrite lookup_insert_ne by done. rewrite MemberAddrs_list. apply option_eq. intros a.
  rewrite <-!elem_of_list_to_map; [|rewrite <-list_fmap_compose; eapply sublist_NoDup; [exact Hnd|]; apply fmap_sublist, sublist_filter|by rewrite <-list_fmap_compose].
  rewrite !list_elem_of_fmap. setoid_rewrite list_elem_of_filter. split; intros (x & [= -> ->] & Hx); exists x; [done|].
  split; [done|]. by destruct Hx.
Qed.
End members.

(** Text a member list must also have, which [SetMembership] checks and
    [validate] does not. *)
Definition members_named (c : Config) : Prop :=
  Forall (λ m, m_ID m ≠ "" ∧ "000"%char ∉ to_bytes (m_ID m) ∧ m_Address m ≠ "") (c_Members (cfg_Cluster c)).

Lemma MemberAddrs_valid c :
  validate c = None → members_named c → members_valid (MemberAddrs c) (Z.to_nat (c_N (cfg_Cluster c))).
Proof.
  intros Hv Hn. destruct (validate_members c Hv) as (Hid & Ha & Hsep & Hself & _ & _ & _ & Hlen).
  rewrite <-MemberAddrs_size in Hlen by done. destruct (SelfAddress_member c Hv) as (self & Hin & _).
  assert (MemberAddrs c !! m_ID self = Some (m_Address self)) as Hl by (apply MemberAddrs_lookup; [done|by exists self]).
  split_and!; [intros E; by rewrite E in Hl|lia| |].
  - intros id a (m & Hm & -> & ->)%MemberAddrs_lookup; [|done]. destruct (proj1 (Forall_forall _ _) Hn m Hm) as (? & ? & ?).
    split_and!; [done| |done]. apply Contains_has_separator; [by apply Hsep|done].
  - intros id id' a (m & Hm & -> & ->)%MemberAddrs_lookup (m' & Hm' & -> & E)%MemberAddrs_lookup; [|done..].
    apply list_elem_of_lookup in Hm as [i Hi], Hm' as [j Hj].
    assert (i = j) as ->; [|congruence]. eapply (NoDup_lookup _ i j (m_Address m)); [exact Ha|by rewrite list_lookup_fmap, Hi|].
    by rewrite list_lookup_fmap, Hj, E.
Qed.

Section start.
Context `{!Unicode} `{!JsonCodec membershipFile} `{!JsonCodec handoffFile}.

(** What offering a valid member list does, by how its epoch compares. *)
Lemma offer_outcome io nd c :
  validateMembers (MemberAddrs c) (repl nd) = None →
  let held := membership nd in
  let '(nd', err, run) := applyConfiguredMembership io nd c in
  match (c_Epoch (cfg_Cluster c) ?= epoch held)%N with
  | Lt => nd' = nd ∧ err = None
  | Eq => nd' = nd ∧ (err = None ↔ view_fingerprint held = fingerprint (MemberAddrs c) (repl nd))
  | Gt => (err = None ∧ members (membership nd') = MemberAddrs c ∧ epoch (membership nd') = c_Epoch (cfg_Cluster c)) ∨
          (∃ e, err = Some (PersistFailed e)) ∧ same_but_file nd nd'
  end.
Proof.
  intros Ev. cbn zeta. unfold applyConfiguredMembership, SetMembership, setMembership. rewrite Ev.
  destruct (buildView_valid (c_Epoch (cfg_Cluster c)) _ _ Ev) as [v Hb]. rewrite Hb.
  destruct (buildView_Ok _ _ _ _ Hb) as (He & Hm & Hf & _). rewrite bool_decide_true by done. cbn [negb andb].
  destruct (N.compare_spec (c_Epoch (cfg_Cluster c)) (epoch (membership nd))) as [E|E|E].
  - rewrite E, N.ltb_irrefl, N.eqb_refl, Hf. case_bool_decide as Hq; (split; [done|]); split; [by rewrite Hq|done..|].
    intros Hq'. by rewrite Hq' in Hq.
  - by rewrite (proj2 (N.ltb_lt _ _) E).
  - rewrite (proj2 (N.ltb_ge _ _)), (proj2 (N.eqb_neq _ _)) by lia.
    destruct (writeMembership io (membership_file nd) v) as [f [err|]]; [right; split; [by eexists|done]|].
    pose proof (publish_effect (set_view nd (membership nd) f) v) as Hp. destruct (publish _ _) as [nd' run].
    destruct Hp as (-> & _). left. by rewrite Hm, He.
Qed.

(** What a node starts with.  A configuration that passes validation, with
    member IDs and addresses that are names, lists each member once, the
    node among them, and satisfies [1 <= W, R <= N <= members]; its member
    set is one the node accepts, made of its own address and its neighbours'.
    An empty data directory opens as a node whose view is that set at epoch 0.
    Offered to a node with any view, the configured list is adopted exactly
    when its epoch is newer (unless it cannot be persisted, which changes
    nothing but the file), ignored when the node's view is newer, and at the
    same epoch it changes nothing and is refused exactly when its fingerprint
    differs from the view's. *)
Theorem configured_start c :
  validate c = None → members_named c →
  let cl := cfg_Cluster c in
  let n := Z.to_nat (c_N cl) in
  (1 ≤ c_W cl ≤ c_N cl)%Z ∧ (1 ≤ c_R cl ≤ c_N cl)%Z ∧ size (MemberAddrs c) = length (c_Members cl) ∧
  MemberAddrs c = <[cfg_NodeID c := SelfAddress c]> (NeighborAddrs c) ∧ members_valid (MemberAddrs c) n ∧
  (∃ n0, openNode c false false no_file no_file = Some (Ok n0) ∧
     members (membership n0) = MemberAddrs c ∧ epoch (membership n0) = 0%N) ∧
  ∀ io nd, repl nd = n →
    let held := membership nd in
    let '(nd', err, _) := applyConfiguredMembership io nd c in
    match (c_Epoch cl ?= epoch held)%N with
    | Lt => nd' = nd ∧ err = None
    | Eq => nd' = nd ∧ (err = None ↔ view_fingerprint held = fingerprint (MemberAddrs c) n)
    | Gt => (err = None ∧ members (membership nd') = MemberAddrs c ∧ epoch (membership nd') = c_Epoch cl) ∨
            (∃ e, err = Some (PersistFailed e)) ∧ same_but_file nd nd'
    end.
Proof.
  intros Hv Hn cl n. destruct (validate_members c Hv) as (_ & _ & _ & _ & Hd & Hw & Hr & _).
  pose proof (MemberAddrs_valid c Hv Hn) as Hok. fold cl n in Hok, Hw, Hr.
  split_and!; [lia|lia|lia|lia|by apply MemberAddrs_size|by apply MemberAddrs_split|exact Hok| |].
  - destruct (buildView_valid 0 _ _ (proj2 (validateMembers_spec _ _) Hok)) as [v Hb].
    destruct (buildView_Ok _ _ _ _ Hb) as (He & Hm & _). unfold openNode. rewrite bool_decide_false by done.
    unfold boot, initialView. rewrite <-MemberAddrs_split by done. fold cl n. rewrite Hb. cbn. by eexists.
  - intros io nd Hrepl. pose proof (offer_outcome io nd c) as Ho. rewrite Hrepl in Ho. apply Ho. by apply validateMembers_spec.
Qed.
End start.

Definition w_config : Config :=
  mkConfig "kv-0" (mkListen ":7000" ":8080") "/data"
    (mkCluster 2 2 1 3 [mkCfgMember "kv-0" "host0:7000"; mkCfgMember "kv-1" "host1:7000"; mkCfgMember "kv-2" "host2:7000"])
    (mkStorage 4194304 None) (mkIntervals 60 60 5 2) (mkTimeouts 3 4 10 1) 3.

Section witnesses.
#[local] Existing Instance ascii_print.
#[local] Existing Instance toy_mf_json.
#[local] Existing Instance toy_hf_json.

Lemma configured_start_witness :
  ∃ n0, openNode w_config false false no_file no_file = Some (Ok n0) ∧ members (membership n0) = MemberAddrs w_config.
Proof.
  destruct (configured_start w_config) as (_ & _ & _ & _ & _ & (n0 & H0 & Hm & _) & _).
  - vm_compute. reflexivity.
  - apply (bool_decide_unpack _). vm_compute. exact I.
  - exists n0. split; [exact H0|exact Hm].
Defined.
End witnesses.
