(* ===== verification/Admin.v ===== *)
(** * The admin API, from both ends (internal/app/admin.go, internal/node/peers.go,
      operator/internal/kvadmin/kvadmin.go)

    The handlers that answer [GET] and [POST /admin/membership] and
    [GET /admin/handoff] on a node, the wait for a node to have drained, and
    the client the operator calls them with.  Bodies are JSON documents; the
    field names are those of the struct tags on each side, decoding ignores
    unknown fields and leaves missing ones zero, except where the source asks
    for strictness.  Go also accepts a key that differs in case; documents
    here have none.

    The limits on the sizes of requests and answers are applied; the text that
    encoding/json writes of a document is an argument.

    Shown: what the client returns is what the node holds or answered. *)

From stdpp Require Import gmap strings list pretty.
From Stdlib Require Import ZArith Lia Ascii.
From S2P Require Import Prelude GoLib GoStrings Json HashRing Sha256 Quote Fsutil Membership Heartbeat.

Open Scope nat_scope.

(** ** Documents *)

Inductive json := JNull | JBool (b : bool) | JNum (z : Z) | JStr (s : string) | JObj (m : gmap string json) | JArr (l : list json).

(** A body as it is read: a document, or text that is none. *)
Inductive raw := Doc (j : json) | Text (s : string).

Definition JNat (n : N) : json := JNum (Z.of_N n).

(** Decoding a field: missing and null leave it zero; [None] is an error. *)
Definition dec_u64 (j : option json) : option N :=
  match j with
  | None | Some JNull => Some 0%N
  | Some (JNum z) => if ((0 <=? z) && (z <? Z.of_N two64))%Z then Some (Z.to_N z) else None
  | _ => None
  end.
Definition int_min : Z := -9223372036854775808.
Definition int_max : Z := 9223372036854775807.
Definition dec_int (j : option json) : option Z :=
  match j with
  | None | Some JNull => Some 0%Z
  | Some (JNum z) => if ((int_min <=? z) && (z <=? int_max))%Z then Some z else None
  | _ => None
  end.
Definition dec_bool (j : option json) : option bool :=
  match j with None | Some JNull => Some false | Some (JBool b) => Some b | _ => None end.
Definition dec_str (j : option json) : option string :=
  match j with None | Some JNull => Some "" | Some (JStr s) => Some s | _ => None end.
(** [*uint64]: nil if missing or null *)
Definition dec_u64_ptr (j : option json) : option (option N) :=
  match j with None | Some JNull => Some None | _ => Some <$> dec_u64 j end.
(** a struct: its fields, none if missing or null *)
Definition dec_obj (j : option json) : option (gmap string json) :=
  match j with None | Some JNull => Some ∅ | Some (JObj m) => Some m | _ => None end.
Definition dec_map {A} (dec : json → option A) (j : option json) : option (gmap string A) :=
  match dec_obj j with
  | None => None
  | Some m => if bool_decide (map_Forall (λ _ v, is_Some (dec v)) m) then Some (omap dec m) else None
  end.

(** ** Bodies on the node's side *)

Definition enc_members (m : gmap string string) : json := JObj (JStr <$> m).
Definition enc_status (s : HandoffStatus) : json :=
  JObj {["epoch" := JNat (hs_Epoch s); "done" := JBool (Done s); "pushed" := JNat (Pushed s);
         "hinted" := JNat (Hinted s); "pending" := JNum (Pending s)]}.
Definition enc_peer (p : PeerStatus) : json :=
  JObj {["alive" := JBool (Alive p); "lastSeenEpoch" := JNat (LastSeenEpoch p); "reachable" := JBool (Reachable p)]}.

Record errorBody := mkErr { eb_Error : string; eb_Message : string; eb_CurrentEpoch : option N }.
Definition enc_error (e : errorBody) : json :=
  let m : gmap string json := {["error" := JStr (eb_Error e)]} in
  let m := if bool_decide (eb_Message e = "") then m else <["message" := JStr (eb_Message e)]> m in
  JObj (match eb_CurrentEpoch e with Some n => <["currentEpoch" := JNat n]> m | None => m end).

Definition response : Type := N * raw.
Definition writeJSON (status : N) (body : json) : response := (status, Doc body).

Definition StatusOK : N := 200.
Definition StatusBadRequest : N := 400.
Definition StatusConflict : N := 409.
Definition StatusInternalServerError : N := 500.
Definition StatusServiceUnavailable : N := 503.
Definition StatusGatewayTimeout : N := 504.

Definition not_started : response := writeJSON StatusServiceUnavailable (enc_error (mkErr "node not started" "" None)).

(** ** Waiting *)

Inductive ctx_error := DeadlineExceeded | Canceled.

(** A look at the node while waiting: the node as it is at that moment, and
    how the wait or sleep that may follow ends, if by an error. *)
Definition look : Type := node * option ctx_error.

(** [WaitHandoff], on the looks that come: its error, if any, and the looks
    left; [None] as long as it has not returned. *)
Fixpoint WaitHandoff (looks : list look) (e : N) : option (option ctx_error * list look) :=
  match looks with
  | [] => None
  | (n, ended) :: rest =>
      if (e <=? epoch (handoffBase (ho n)))%N then Some (None, rest)
      else match ended with Some err => Some (Some err, rest) | None => WaitHandoff rest e end
  end.

(** The loop of [WaitDrained]: the wait for the handoff, then the view is
    loaded, then the peers' epochs are looked at, and a sleep. *)
Fixpoint drain_loop (fuel : nat) (looks : list look) (e : N) : option (option ctx_error) :=
  match fuel with
  | 0 => None
  | S fuel =>
      match WaitHandoff looks e with
      | None => None
      | Some (Some err, _) => Some (Some err)
      | Some (None, (loaded, _) :: (peers, slept) :: rest) =>
          let v := membership loaded in
          if IsMember loaded || allPeersAtLeast peers v e then Some None
          else match slept with Some err => Some (Some err) | None => drain_loop fuel rest e end
      | Some (None, _) => None
      end
  end.

(** Every turn of the loop takes looks, so their number is fuel enough
    ([drain_loop_fuel]). *)
Definition WaitDrained (looks : list look) (e : N) : option (option ctx_error) := drain_loop (length looks) looks e.

(** What the body of a request is found to be. *)
Inductive request_body := TooLarge | BadJSON | Trailing (j : json) | Request (j : json).

(** [http.MaxBytesReader] under the decoder, for a body that is one document:
    its text has to be read to the end. *)
Definition maxAdminBody : N := 65536.
Definition read_request (text : json → string) (j : json) : request_body :=
  if (maxAdminBody <? N.of_nat (String.length (text j)))%N then TooLarge else Request j.

(** ** The handlers

    [nd] is the node if [Run] has built it.  Texts of errors are an argument. *)

Section handlers.
Context `{!Unicode} `{!JsonCodec membershipFile}.
Context (error_text : set_error → string) (decode_text : request_body → string) (timeout_text : string → string).

(** [handleGetMembership]; the node when its view, its handoff and its peers
    are read *)
Definition handleGetMembership (nd : option (node * node * node)) : response :=
  match nd with
  | None => not_started
  | Some (n1, n2, n3) =>
      let m := CurrentMembership n1 in
      writeJSON StatusOK
        (JObj {["epoch" := JNat (info_Epoch m); "members" := enc_members (info_Members m);
                "fingerprint" := JStr (info_Fingerprint m); "handoff" := enc_status (handoffStatus (ho n2));
                "peers" := JObj (enc_peer <$> PeerStatuses n3)]})
  end.

(** [setMembershipRequest], with unknown fields refused *)
Definition dec_set_request (j : json) : option (option N * gmap string string) :=
  m ← dec_obj (Some j);
  if bool_decide (dom m ⊆ {["epoch"; "members"]}) then
    e ← dec_u64_ptr (m !! "epoch"); ms ← dec_map (λ v, dec_str (Some v)) (m !! "members"); Some (e, ms)
  else None.

Definition bad_request (error msg : string) : response := writeJSON StatusBadRequest (enc_error (mkErr error msg None)).

(** [handleSetMembership]; [later] is what else happens to the node before its
    epoch is read for the answer. *)
Definition handleSetMembership (io : atomic_io) (later : node → node) (nd : option node) (body : request_body)
    : option node * response * option handoff_run :=
  match nd with
  | None => (None, not_started, None)
  | Some n =>
      let refuse r := (Some n, r, None) in
      match body with
      | TooLarge => refuse (bad_request "request body too large" "limit is 65536 bytes")
      | BadJSON => refuse (bad_request "bad JSON" (decode_text body))
      | Trailing j | Request j =>
          match dec_set_request j with
          | None => refuse (bad_request "bad JSON" (decode_text body))
          | Some (e, ms) =>
              match body, e with
              | Trailing _, _ => refuse (bad_request "bad JSON" "unexpected data after the request object")
              | _, None => refuse (bad_request "bad request" "epoch is required")
              | _, Some e =>
                  let '(n, r, run) := SetMembership io n e ms in
                  let n := later n in
                  let current := epoch (membership n) in
                  let answer :=
                    match r with
                    | Ok changed => writeJSON StatusOK (JObj {["changed" := JBool changed; "epoch" := JNat current]})
                    | Err (StaleEpoch _ _ as err) =>
                        writeJSON StatusConflict (enc_error (mkErr "stale epoch" (error_text err) (Some current)))
                    | Err (MembershipConflict _ as err) =>
                        writeJSON StatusConflict (enc_error (mkErr "membership conflict" (error_text err) (Some current)))
                    | Err (Invalid _ as err) =>
                        writeJSON StatusBadRequest (enc_error (mkErr "invalid membership" (error_text err) None))
                    | Err err =>
                        writeJSON StatusInternalServerError
                          (enc_error (mkErr "could not apply membership" (error_text err) (Some current)))
                    end in
                  (Some n, answer, run)
              end
          end
      end
  end.

Definition defaultHandoffWait : Z := 60000000000.
Definition maxHandoffWait : Z := 600000000000.

(** [parseHandoffWait]; [parsed] is what [time.ParseDuration] gives *)
Definition parseHandoffWait (s : string) (parsed : option Z) : option Z :=
  if bool_decide (s = "") then Some defaultHandoffWait
  else match parsed with
  | None => None
  | Some d => if (d <=? 0)%Z then None else Some (Z.min d maxHandoffWait)
  end.

(** [strconv.ParseUint(s, 10, 64)] *)
Definition ParseUint (s : string) : option N := atoi_abs s (two64 - 1).

(** [handleHandoff]; [waited] is what [WaitDrained] returns, the nodes are the
    node when its view, its handoff and its peers are read for the answer. *)
Definition handleHandoff (nd : option (node * node * node)) (epoch_param timeout_param : string) (parsed : option Z)
    (waited : option ctx_error) : response :=
  match nd with
  | None => not_started
  | Some (n1, n2, n3) =>
      match ParseUint epoch_param with
      | None => bad_request "bad epoch" "epoch is required and must be a non-negative integer"
      | Some e =>
          match parseHandoffWait timeout_param parsed with
          | None => bad_request "bad timeout" (timeout_text timeout_param)
          | Some _ =>
              let body :=
                JObj {["epoch" := JNat e; "member" := JBool (IsMember n1);
                       "drained" := JBool (match waited with None => true | Some _ => false end);
                       "handoff" := enc_status (handoffStatus (ho n2)); "peers" := JObj (enc_peer <$> PeerStatuses n3)]} in
              match waited with
              | None => writeJSON StatusOK body
              | Some DeadlineExceeded => writeJSON StatusGatewayTimeout body
              | Some Canceled => writeJSON StatusServiceUnavailable body
              end
          end
      end
  end.
End handlers.

(** ** The client *)

Record kvHandoffStatus := mkKvStatus { k_Epoch : N; k_Done : bool; k_Pushed : Z; k_Hinted : Z; k_Pending : Z }.
Record kvMembership := mkKvMembership {
  km_Epoch : N; km_Members : gmap string string; km_Fingerprint : string; km_Handoff : kvHandoffStatus;
  km_Peers : gmap string PeerStatus
}.
Record SetMembershipResult := mkSet { Changed : bool; set_Epoch : N }.
Record kvHandoff := mkKvHandoff {
  kh_Epoch : N; kh_Member : bool; kh_Drained : bool; kh_Handoff : kvHandoffStatus; kh_Peers : gmap string PeerStatus
}.
Record APIError := mkAPI { api_Status : N; Code : string; api_Message : string; api_CurrentEpoch : option N }.
Inductive call_error := Transport | DecodeFailed | Answered (e : APIError).

Definition IsStatus (e : call_error) (status : N) : bool :=
  match e with Answered a => (api_Status a =? status)%N | _ => false end.

Definition dec_status (j : option json) : option kvHandoffStatus :=
  m ← dec_obj j; e ← dec_u64 (m !! "epoch"); d ← dec_bool (m !! "done"); p ← dec_int (m !! "pushed");
  h ← dec_int (m !! "hinted"); q ← dec_int (m !! "pending"); Some (mkKvStatus e d p h q).
Definition dec_peer (j : json) : option PeerStatus :=
  m ← dec_obj (Some j); a ← dec_bool (m !! "alive"); e ← dec_u64 (m !! "lastSeenEpoch");
  r ← dec_bool (m !! "reachable"); Some (mkPeerStatus a e r).
Definition dec_membership (r : raw) : option kvMembership :=
  match r with
  | Text _ => None
  | Doc j =>
      m ← dec_obj (Some j); e ← dec_u64 (m !! "epoch"); ms ← dec_map (λ v, dec_str (Some v)) (m !! "members");
      fp ← dec_str (m !! "fingerprint"); h ← dec_status (m !! "handoff"); ps ← dec_map dec_peer (m !! "peers");
      Some (mkKvMembership e ms fp h ps)
  end.
Definition dec_set_result (r : raw) : option SetMembershipResult :=
  match r with
  | Text _ => None
  | Doc j => m ← dec_obj (Some j); c ← dec_bool (m !! "changed"); e ← dec_u64 (m !! "epoch"); Some (mkSet c e)
  end.
Definition dec_handoff (r : raw) : option kvHandoff :=
  match r with
  | Text _ => None
  | Doc j =>
      m ← dec_obj (Some j); e ← dec_u64 (m !! "epoch"); mb ← dec_bool (m !! "member"); d ← dec_bool (m !! "drained");
      h ← dec_status (m !! "handoff"); ps ← dec_map dec_peer (m !! "peers"); Some (mkKvHandoff e mb d h ps)
  end.

(** The client reads no more of an answer than this. *)
Definition maxBody : N := 1048576.

Section client.
(** What encoding/json writes of a document; [string(bytes.TrimSpace(raw))]. *)
Context (text : json → string) (trimmed : raw → string).

(** [do], what it makes of an answer: the body up to the limit.  An object's
    text that is cut off is no document. *)
Definition body_fits (r : raw) : bool :=
  (N.of_nat (String.length match r with Doc j => text j | Text s => s end) <=? maxBody)%N.
Definition do_answer (answer : option response) : option response :=
  match answer with
  | None => None
  | Some (status, r) =>
      Some (status, if body_fits r then r
                    else Text (String.substring 0 (N.to_nat maxBody) match r with Doc j => text j | Text s => s end))
  end.

Definition apiError (status : N) (r : raw) : APIError :=
  let decoded :=
    match r with
    | Text _ => None
    | Doc j =>
        m ← dec_obj (Some j); c ← dec_str (m !! "error"); msg ← dec_str (m !! "message");
        cur ← dec_u64_ptr (m !! "currentEpoch"); Some (c, msg, cur)
    end in
  match decoded with
  | Some (c, msg, cur) => if bool_decide (c = "") then mkAPI status "" (trimmed r) None else mkAPI status c msg cur
  | None => mkAPI status "" (trimmed r) None
  end.

(** The calls, given what came back; [None] if nothing did. *)
Definition GetMembership (answer : option response) : res call_error kvMembership :=
  match do_answer answer with
  | None => Err Transport
  | Some (status, r) =>
      if negb (status =? StatusOK)%N then Err (Answered (apiError status r))
      else match dec_membership r with Some m => Ok m | None => Err DecodeFailed end
  end.

(** [SetMembershipRequest]'s document *)
Definition enc_set_request (e : N) (ms : gmap string string) : json := JObj {["epoch" := JNat e; "members" := enc_members ms]}.

Definition SetMembership_call (answer : option response) : res call_error SetMembershipResult :=
  match do_answer answer with
  | None => Err Transport
  | Some (status, r) =>
      if negb (status =? StatusOK)%N then Err (Answered (apiError status r))
      else match dec_set_result r with Some m => Ok m | None => Err DecodeFailed end
  end.

Definition handoff_epoch_param (e : N) : string := pretty e.
Definition handoff_timeout_param : string := "1s".

(** The probe of a 503 body: has it no error but a handoff? *)
Definition is_handoff_body (r : raw) : bool :=
  match r with
  | Text _ => false
  | Doc j =>
      match dec_obj (Some j) with
      | Some m =>
          match m !! "error", m !! "handoff" with
          | (None | Some JNull), Some h => match h with JNull => false | _ => true end
          | _, _ => false
          end
      | None => false
      end
  end.

(** The status, whether it says done, the error. *)
Definition Handoff_call (answer : option response) : option kvHandoff * bool * option call_error :=
  match do_answer answer with
  | None => (None, false, Some Transport)
  | Some (status, r) =>
      if (status =? StatusOK)%N || (status =? StatusGatewayTimeout)%N then
        match dec_handoff r with
        | Some h => (Some h, (status =? StatusOK)%N, None)
        | None => (None, false, Some DecodeFailed)
        end
      else if (status =? StatusServiceUnavailable)%N && is_handoff_body r then
        match dec_handoff r with
        | Some h => (Some h, false, Some (Answered (mkAPI status "node stopping" "the handoff wait was cut short" None)))
        | None => (None, false, Some DecodeFailed)
        end
      else (None, false, Some (Answered (apiError status r)))
  end.
End client.

(** ** Round trips *)

Lemma dec_map_enc {A} (dec : json → option A) (enc : A → json) (m : gmap string A) :
  map_Forall (λ _ x, dec (enc x) = Some x) m → dec_map dec (Some (JObj (enc <$> m))) = Some m.
Proof.
  intros Hm. unfold dec_map. cbn [dec_obj]. rewrite bool_decide_true.
  - f_equal. apply map_eq. intros k. rewrite lookup_omap, lookup_fmap. destruct (m !! k) as [x|] eqn:E; [|done]. exact (Hm k x E).
  - intros k v. rewrite lookup_fmap. destruct (m !! k) as [x|] eqn:E; [|done]. cbn. intros [= <-]. rewrite (Hm k x E). by eexists.
Qed.

Lemma dec_members_enc (m : gmap string string) : dec_map (λ v, dec_str (Some v)) (Some (enc_members m)) = Some m.
Proof. apply (dec_map_enc _ JStr). by intros. Qed.

Lemma dec_u64_enc n : (n < two64)%N → dec_u64 (Some (JNat n)) = Some n.
Proof.
  intros Hn. cbn [dec_u64 JNat]. rewrite (proj2 (Z.leb_le _ _)), (proj2 (Z.ltb_lt _ _)) by lia. cbn [andb]. by rewrite N2Z.id.
Qed.

Lemma dec_u64_ptr_enc n : (n < two64)%N → dec_u64_ptr (Some (JNat n)) = Some (Some n).
Proof. intros Hn. change (dec_u64_ptr (Some (JNat n))) with (Some <$> dec_u64 (Some (JNat n))). by rewrite dec_u64_enc. Qed.

Definition in_int (z : Z) : Prop := (int_min ≤ z ≤ int_max)%Z.

Lemma dec_int_enc z : in_int z → dec_int (Some (JNum z)) = Some z.
Proof. intros [? ?]. cbn [dec_int]. by rewrite (proj2 (Z.leb_le _ _)), (proj2 (Z.leb_le _ _)) by done. Qed.

(** The counters of a node are machine integers. *)
Definition status_fits (s : HandoffStatus) : Prop :=
  (hs_Epoch s < two64)%N ∧ in_int (Z.of_N (Pushed s)) ∧ in_int (Z.of_N (Hinted s)) ∧ in_int (Pending s).
Definition node_fits (n : node) : Prop :=
  (epoch (membership n) < two64)%N ∧ status_fits (handoffStatus (ho n)) ∧
  map_Forall (λ _ h, (seen_epoch h < two64)%N) (health (hs n)).

Definition kv_status (s : HandoffStatus) : kvHandoffStatus :=
  mkKvStatus (hs_Epoch s) (Done s) (Z.of_N (Pushed s)) (Z.of_N (Hinted s)) (Pending s).

(** Reads the fields of objects that are written out. *)
Ltac read_fields := repeat first [rewrite lookup_insert_eq | rewrite lookup_insert_ne by discriminate | rewrite lookup_singleton_eq | rewrite lookup_singleton_ne by discriminate].

Lemma dec_status_enc s : status_fits s → dec_status (Some (enc_status s)) = Some (kv_status s).
Proof.
  intros (He & Hp & Hh & Hq). unfold dec_status, enc_status. cbn [dec_obj mbind option_bind]. read_fields.
  rewrite dec_u64_enc by done. cbn [mbind option_bind dec_bool]. unfold JNat. by rewrite !dec_int_enc.
Qed.

Lemma dec_peer_enc p : (LastSeenEpoch p < two64)%N → dec_peer (enc_peer p) = Some p.
Proof.
  intros He. unfold dec_peer, enc_peer. cbn [dec_obj mbind option_bind]. read_fields. rewrite dec_u64_enc by done. by destruct p.
Qed.

Lemma dec_peers_enc n : node_fits n → dec_map dec_peer (Some (JObj (enc_peer <$> PeerStatuses n))) = Some (PeerStatuses n).
Proof.
  intros (_ & _ & Hh). apply dec_map_enc. intros id st. unfold PeerStatuses. rewrite map_lookup_imap.
  destruct (members (membership n) !! id); [|done]. cbn. case_bool_decide; [done|]. intros [= <-]. apply dec_peer_enc.
  destruct (health (hs n) !! id) as [h|] eqn:E; [exact (Hh id h E)|done].
Qed.

Lemma ParseUint_pretty (e : N) : (e < two64)%N → ParseUint (pretty e) = Some e.
Proof.
  intros He. unfold ParseUint, atoi_abs. pose proof (pretty_not_empty e). destruct (pretty e) as [|c s] eqn:E; [done|].
  rewrite <-E, atoi_loop_pretty. by rewrite (proj2 (N.leb_le _ _)) by lia.
Qed.

(** An error the node answered with is the error the call returns. *)
Lemma apiError_enc trimmed status c msg cur :
  c ≠ "" → match cur with Some n => (n < two64)%N | None => True end →
  apiError trimmed status (Doc (enc_error (mkErr c msg cur))) = mkAPI status c msg cur.
Proof.
  intros Hc Hn. unfold apiError, enc_error. cbn [eb_Error eb_Message eb_CurrentEpoch].
  case_bool_decide as Hm; destruct cur as [n|]; cbn [dec_obj mbind option_bind]; read_fields;
    cbn [dec_str mbind option_bind]; rewrite ?dec_u64_ptr_enc by done; cbn [mbind option_bind dec_u64_ptr];
    rewrite bool_decide_false by done; by subst.
Qed.

(** A body within the limit is read whole; one that is cut off is an error. *)
Lemma do_answer_fits text (a : response) : body_fits text a.2 = true → do_answer text (Some a) = Some a.
Proof. destruct a as [status r]. cbn [do_answer snd]. by intros ->. Qed.

Lemma cut_off text trimmed (a : response) :
  body_fits text a.2 = false →
  (∃ err, GetMembership text trimmed (Some a) = Err err) ∧ (∃ err, SetMembership_call text trimmed (Some a) = Err err) ∧
  (∃ err, Handoff_call text trimmed (Some a) = (None, false, Some err)).
Proof.
  destruct a as [status r]. cbn [snd]. intros Hf. unfold GetMembership, SetMembership_call, Handoff_call, do_answer.
  rewrite Hf. cbn [dec_membership dec_set_result dec_handoff is_handoff_body].
  rewrite andb_false_r. destruct (status =? StatusOK)%N, (status =? StatusGatewayTimeout)%N; cbn [negb orb];
    split_and!; by eexists.
Qed.

Lemma not_started_calls text trimmed :
  body_fits text not_started.2 = true →
  let e := Answered (mkAPI StatusServiceUnavailable "node not started" "" None) in
  GetMembership text trimmed (Some (handleGetMembership None)) = Err e ∧ SetMembership_call text trimmed (Some not_started) = Err e ∧
  Handoff_call text trimmed (Some not_started) = (None, false, Some e).
Proof.
  intros Hf. cbn zeta. unfold GetMembership, SetMembership_call, Handoff_call, handleGetMembership. rewrite do_answer_fits by done.
  unfold not_started, writeJSON.
  assert (is_handoff_body (Doc (enc_error (mkErr "node not started" "" None))) = false) as -> by reflexivity.
  cbn [negb]. rewrite apiError_enc by done. done.
Qed.

Lemma GetMembership_exact text trimmed n1 n2 n3 :
  node_fits n1 → node_fits n2 → node_fits n3 → body_fits text (handleGetMembership (Some (n1, n2, n3))).2 = true →
  GetMembership text trimmed (Some (handleGetMembership (Some (n1, n2, n3)))) =
  Ok (mkKvMembership (epoch (membership n1)) (members (membership n1)) (view_fingerprint (membership n1))
        (kv_status (handoffStatus (ho n2))) (PeerStatuses n3)).
Proof.
  intros (H1 & _) (_ & H2 & _) H3 Hf. unfold GetMembership. rewrite do_answer_fits by done. unfold handleGetMembership, writeJSON. cbn [N.eqb StatusOK negb].
  cbn [negb Pos.eqb]. unfold dec_membership. cbn [dec_obj mbind option_bind CurrentMembership info_Epoch info_Members info_Fingerprint].
  read_fields. rewrite dec_u64_enc, dec_members_enc, dec_status_enc, dec_peers_enc by done. done.
Qed.

Lemma Handoff_exact text trimmed ttext n1 n2 n3 e waited :
  node_fits n2 → node_fits n3 → (e < two64)%N →
  body_fits text (handleHandoff ttext (Some (n1, n2, n3)) (handoff_epoch_param e) handoff_timeout_param (Some 1000000000%Z) waited).2 = true →
  Handoff_call text trimmed
    (Some (handleHandoff ttext (Some (n1, n2, n3)) (handoff_epoch_param e) handoff_timeout_param (Some 1000000000%Z) waited)) =
  (Some (mkKvHandoff e (IsMember n1) (match waited with None => true | _ => false end) (kv_status (handoffStatus (ho n2))) (PeerStatuses n3)),
   match waited with None => true | _ => false end,
   match waited with
   | Some Canceled => Some (Answered (mkAPI StatusServiceUnavailable "node stopping" "the handoff wait was cut short" None))
   | _ => None
   end).
Proof.
  intros (_ & H2 & _) H3 He Hf. unfold Handoff_call. rewrite do_answer_fits by done. clear Hf. unfold handleHandoff, handoff_epoch_param. rewrite ParseUint_pretty by done.
  change (parseHandoffWait handoff_timeout_param (Some 1000000000%Z)) with (Some 1000000000%Z).
  match goal with |- context [JObj ?m] => set (body := m) end.
  assert (dec_handoff (Doc (JObj body)) =
    Some (mkKvHandoff e (IsMember n1) (match waited with None => true | _ => false end) (kv_status (handoffStatus (ho n2))) (PeerStatuses n3))) as Hd.
  { unfold dec_handoff, body. cbn [dec_obj mbind option_bind]. read_fields.
    rewrite dec_u64_enc, dec_status_enc, dec_peers_enc by done. done. }
  assert (is_handoff_body (Doc (JObj body)) = true) as Hb.
  { unfold is_handoff_body, body. cbn [dec_obj]. read_fields. reflexivity. }
  unfold writeJSON. destruct waited as [[]|]; cbn -[dec_handoff is_handoff_body body]; by rewrite ?Hb, Hd.
Qed.

Section exact.
Context `{!Unicode} `{!JsonCodec membershipFile}.
Context (text : json → string) (trimmed : raw → string) (etext : set_error → string) (dtext : request_body → string) (ttext : string → string).

Lemma dec_set_request_enc e ms : (e < two64)%N → dec_set_request (enc_set_request e ms) = Some (Some e, ms).
Proof.
  intros He. unfold dec_set_request, enc_set_request. cbn [dec_obj mbind option_bind]. rewrite bool_decide_true.
  - read_fields. by rewrite dec_u64_ptr_enc, dec_members_enc.
  - rewrite dom_insert_L, dom_singleton_L. set_solver.
Qed.

Lemma dec_set_result_enc changed e :
  (e < two64)%N → dec_set_result (Doc (JObj {["changed" := JBool changed; "epoch" := JNat e]})) = Some (mkSet changed e).
Proof. intros He. unfold dec_set_result. cbn [dec_obj mbind option_bind]. read_fields. by rewrite dec_u64_enc. Qed.

(** What a posted membership does on the node, and what the caller learns. *)
Definition post_answered (r : res set_error bool) (current : N) (answer : res call_error SetMembershipResult) : Prop :=
  match r with
  | Ok changed => answer = Ok (mkSet changed current)
  | Err err =>
      ∃ c, answer = Err (Answered (mkAPI (match err with
                                          | StaleEpoch _ _ | MembershipConflict _ => StatusConflict
                                          | Invalid _ => StatusBadRequest
                                          | _ => StatusInternalServerError
                                          end) c (etext err) (match err with Invalid _ => None | _ => Some current end)))
  end.

Lemma SetMembership_exact io later n e ms :
  (e < two64)%N → (∀ n', (epoch (membership (later n')) < two64)%N) →
  let '(n', r, run) := SetMembership io n e ms in
  let '(nd, answer, run') := handleSetMembership etext dtext io later (Some n) (Request (enc_set_request e ms)) in
  nd = Some (later n') ∧ run' = run ∧
  (body_fits text answer.2 = true → post_answered r (epoch (membership (later n'))) (SetMembership_call text trimmed (Some answer))).
Proof.
  intros He Hl. unfold handleSetMembership. rewrite dec_set_request_enc by done.
  destruct (SetMembership io n e ms) as [[n' r] run]. split; [done|]. split; [done|]. specialize (Hl n'). intros Hf.
  unfold post_answered, SetMembership_call. rewrite do_answer_fits by done. clear Hf. destruct r as [changed|err]; unfold writeJSON.
  - cbn [N.eqb negb]. rewrite dec_set_result_enc by done. done.
  - destruct err; cbn [N.eqb negb StatusOK StatusConflict StatusBadRequest StatusInternalServerError];
      (rewrite apiError_enc; [eexists; reflexivity|done|done]).
Qed.

(** C32: the admin API between a node and the operator, with its limits on
    sizes.  For nodes whose counters are machine integers, and as long as an
    answer is within the 1 MiB the client reads: [GET /admin/membership]
    returns to its caller the epoch, members and fingerprint of the node's view
    and the handoff and peer states, each as read; a posted membership of at
    most 64 KiB is applied as [SetMembership] applies it, and the caller gets
    its answer with the node's epoch: a conflict (409) exactly for a stale
    epoch or a conflicting membership, a bad request (400) for an invalid one;
    a larger one changes nothing on the node and is answered with a 400; and a
    handoff call says drained, and done, exactly when the node's wait ended
    without error, with the error of a stopping node otherwise.  A node that
    has not started answers each call with a 503, and an answer beyond the
    client's limit is an error, never a value. *)
Theorem admin_calls_exact io later n n1 n2 n3 e ms waited :
  node_fits n1 → node_fits n2 → node_fits n3 → (e < two64)%N → (∀ n', (epoch (membership (later n')) < two64)%N) →
  (body_fits text (handleGetMembership (Some (n1, n2, n3))).2 = true →
   GetMembership text trimmed (Some (handleGetMembership (Some (n1, n2, n3)))) =
     Ok (mkKvMembership (epoch (membership n1)) (members (membership n1)) (view_fingerprint (membership n1))
           (kv_status (handoffStatus (ho n2))) (PeerStatuses n3))) ∧
  (let '(nd, answer, run') := handleSetMembership etext dtext io later (Some n) (read_request text (enc_set_request e ms)) in
   if (maxAdminBody <? N.of_nat (String.length (text (enc_set_request e ms))))%N then
     nd = Some n ∧ run' = None ∧
     (body_fits text answer.2 = true →
      SetMembership_call text trimmed (Some answer) = Err (Answered (mkAPI 400 "request body too large" "limit is 65536 bytes" None)))
   else
     let '(n', r, run) := SetMembership io n e ms in
     nd = Some (later n') ∧ run' = run ∧
     (body_fits text answer.2 = true → post_answered r (epoch (membership (later n'))) (SetMembership_call text trimmed (Some answer)))) ∧
  (let answer := handleHandoff ttext (Some (n1, n2, n3)) (handoff_epoch_param e) handoff_timeout_param (Some 1000000000%Z) waited in
   body_fits text answer.2 = true →
   let '(h, done, err) := Handoff_call text trimmed (Some answer) in
   (∃ s, h = Some (mkKvHandoff e (IsMember n1) done s (PeerStatuses n3))) ∧
   (done = true ↔ waited = None) ∧ (err = None ↔ waited ≠ Some Canceled)) ∧
  (∀ r, r ∈ [handleGetMembership None; (handleSetMembership etext dtext io later None (read_request text (enc_set_request e ms))).1.2;
             handleHandoff ttext None (handoff_epoch_param e) handoff_timeout_param (Some 1000000000%Z) waited] →
     r = not_started ∧
     (body_fits text r.2 = true →
      Handoff_call text trimmed (Some r) = (None, false, Some (Answered (mkAPI 503 "node not started" "" None))))) ∧
  (∀ a : response, body_fits text a.2 = false →
     (∃ err, GetMembership text trimmed (Some a) = Err err) ∧ (∃ err, SetMembership_call text trimmed (Some a) = Err err) ∧
     (∃ err, Handoff_call text trimmed (Some a) = (None, false, Some err))).
Proof.
  intros H1 H2 H3 He Hl. split; [by apply GetMembership_exact|]. split; [|split; [|split; [|intros a; apply cut_off]]].
  - unfold read_request. destruct (_ <? _)%N.
    + split; [done|]. split; [done|]. intros Hf. unfold SetMembership_call. rewrite do_answer_fits by done. clear Hf.
      unfold bad_request, writeJSON. cbn [N.eqb negb StatusOK StatusBadRequest Pos.eqb]. by rewrite apiError_enc.
    + pose proof (SetMembership_exact io later n e ms He Hl) as Hs. destruct (SetMembership io n e ms) as [[n' r] run].
      by destruct (handleSetMembership _ _ _ _ _ _) as [[nd answer] run'].
  - cbv zeta. intros Hf. rewrite Handoff_exact by done. split; [by eexists|]. destruct waited as [[]|]; (split; split; try done).
  - assert (body_fits text not_started.2 = true → Handoff_call text trimmed (Some not_started) = (None, false, Some (Answered (mkAPI 503 "node not started" "" None)))) as Hn
      by (intros; by apply not_started_calls).
    intros r Hr. repeat (apply elem_of_cons in Hr as [->|Hr]; [by split|]). by apply elem_of_nil in Hr.
Qed.
End exact.

Lemma w_peer_fits : node_fits w_peer.
Proof. split_and!; [done|split_and!; vm_compute; intuition discriminate|]. apply map_Forall_empty. Qed.

Section witnesses.
#[local] Existing Instance ascii_print.
#[local] Existing Instance toy_mf_json.

(** A peer at epoch 1 that has drained. *)
Lemma admin_calls_exact_witness :
  ∃ m h, GetMembership (λ _, "") (λ _, "") (Some (handleGetMembership (Some (w_peer, w_peer, w_peer)))) = Ok m ∧ km_Epoch m = 1%N ∧
    (Handoff_call (λ _, "") (λ _, "") (Some (handleHandoff (λ _, "") (Some (w_peer, w_peer, w_peer)) (handoff_epoch_param 1) handoff_timeout_param
       (Some 1000000000%Z) None))).1.1 = Some h ∧ kh_Drained h = true.
Proof.
  destruct (admin_calls_exact (λ _, "") (λ _, "") (λ _, "") (λ _, "") (λ _, "") disk_fine (λ _, w_peer) w_peer w_peer w_peer w_peer 1 w_grown None
    w_peer_fits w_peer_fits w_peer_fits eq_refl (λ _, eq_refl)) as (Hg & _ & Hh & _).
  specialize (Hg eq_refl). specialize (Hh eq_refl). destruct (Handoff_call _ _ _) as [[h d] err]. destruct Hh as ((s & ->) & [_ Hd] & _). rewrite (Hd eq_refl).
  eexists _, _. split; [exact Hg|]. split; [reflexivity|]. split; [reflexivity|]. reflexivity.
Defined.
End witnesses.
