(* ===== verification/Drain.v ===== *)
(** * A cluster of nodes, and what "drained" means in it
      (internal/node: membership.go, heartbeat.go, handoff.go, peers.go)

    Nodes that are told memberships and fetch them from each other, ping each
    other, hand data off, crash and restart, in any order.  A node answers that
    it has drained on what it knows; shown here is that what it knows is so:
    the peers it has seen at an epoch have it and never go back. *)

From stdpp Require Import gmap strings list.
From Stdlib Require Import ZArith Lia.
From S2P Require Import Prelude GoLib Json HashRing Sha256 Quote Fsutil Membership Heartbeat Handoff Admin.

Open Scope nat_scope.

(** A node with the handoff runs that are under way on it; the nodes, the
    memberships and the ping replies ever sent. *)
Record dnode := mkD { d_node : node; d_runs : list handoff_run }.
Record dstate := mkDS { d_nodes : gmap string dnode; d_infos : list MembershipInfo; d_replies : list PingReply }.

Definition add_run (run : option handoff_run) (runs : list handoff_run) : list handoff_run :=
  match run with Some r => r :: runs | None => runs end.

(** The generations of handoffs are far from wrapping around. *)
Definition gen_room (n : node) : Prop := (handoffGen (ho n) + 1 < two64)%N.

Section cluster.
Context `{!Unicode} `{!JsonCodec membershipFile} `{!JsonCodec handoffFile}.
Context `{!JsonRoundTrip membershipFile mf_ok, !JsonRoundTrip handoffFile hf_ok}.
Context (posted : N → gmap string string → Prop) (N0 : nat).
Hypothesis posted_text : ∀ e m, posted e m → members_text_ok m.

(** What happens on one node. *)
Inductive lstep (s : dstate) : dnode → dnode → Prop :=
  | l_declare io n runs e m n' r run :
      windows io = false → gen_room n → posted e m → SetMembership io n e m = (n', r, run) →
      lstep s (mkD n runs) (mkD n' (add_run run runs))
  | l_fetch io n runs peerID info n' run :
      windows io = false → gen_room n → info ∈ d_infos s → runFetch io n peerID (Some info) = (n', run) →
      lstep s (mkD n runs) (mkD n' (add_run run runs))
  | l_resume n runs n' run : gen_room n → startHandoff n = (n', run) → lstep s (mkD n runs) (mkD n' (add_run run runs))
  | l_progress n runs gen f :
      (∀ st, hs_Epoch (f st) = hs_Epoch st ∧ Done (f st) = Done st) →
      lstep s (mkD n runs) (mkD (updateHandoff n gen f) runs)
  | l_finish io n runs run :
      windows io = false → run ∈ runs → lstep s (mkD n runs) (mkD (finishHandoff io n (run_gen run) (run_newest run)) runs)
  | l_pinged n runs peerID reply n' ts :
      reply ∈ d_replies s → ping_answered n peerID reply = (n', ts) → lstep s (mkD n runs) (mkD n' runs)
  | l_missed n runs peerID : lstep s (mkD n runs) (mkD (recordHeartbeat n peerID false) runs)
  | l_clients n runs c : lstep s (mkD n runs) (mkD (set_cs n c) runs)
  | l_notes n runs h : health h = health (hs n) → lstep s (mkD n runs) (mkD (set_hs n h) runs)
  | l_restart n runs address mm nb f h n' :
      recovered (membership_file n) f → recovered (handoff_file (ho n)) h →
      boot (node_ID n) address (repl n) mm nb false false f h = Ok n' → lstep s (mkD n runs) (mkD n' []).

Definition put_node (s : dstate) (i : string) (d : dnode) : dstate := mkDS (<[i := d]> (d_nodes s)) (d_infos s) (d_replies s).

Inductive dstep : dstate → dstate → Prop :=
  | ds_local s i d d' : d_nodes s !! i = Some d → lstep s d d' → dstep s (put_node s i d')
  | ds_info s i d : d_nodes s !! i = Some d →
      dstep s (mkDS (d_nodes s) (CurrentMembership (d_node d) :: d_infos s) (d_replies s))
  | ds_answer s i d from n' reply ts :
      d_nodes s !! i = Some d → HandlePing (d_node d) from = (n', reply, ts) →
      dstep s (mkDS (<[i := mkD n' (d_runs d)]> (d_nodes s)) (d_infos s) (reply :: d_replies s)).

Inductive dreachable : dstate → Prop :=
  | dr_init cl :
      (∀ i d, cl !! i = Some d →
         d_runs d = [] ∧ ∃ address mm nb, boot i address N0 mm nb false false no_file no_file = Ok (d_node d)) →
      dreachable (mkDS cl [] [])
  | dr_step s s' : dreachable s → dstep s s' → dreachable s'.

(** ** What holds of one node *)

Definition valid_view (v : view) : Prop := epoch v = 0%N ∨ validateMembers (members v) N0 = None.

(** A run goes to a later view that was declared; only the newest run's is the
    one the status speaks of. *)
Definition run_ok (h : handoff_state) (run : handoff_run) : Prop :=
  let v := run_newest run in
  (run_gen run ≤ handoffGen h)%N ∧ (run_gen run = handoffGen h → epoch v = hs_Epoch (handoffStatus h)) ∧
  validateMembers (members v) N0 = None ∧ members_text_ok (members v) ∧ buildView (epoch v) (members v) N0 = Ok v.

Record view_ok (i : string) (n : node) : Prop := {
  vo_id : node_ID n = i;
  vo_planned : node_planned posted N0 n;
  vo_valid : valid_view (membership n);
  vo_self : epoch (membership n) = 0%N → IsMember n = true
}.
Record handoff_ok (h : handoff_state) (runs : list handoff_run) : Prop := {
  hok_done : Done (handoffStatus h) = true → (hs_Epoch (handoffStatus h) ≤ epoch (handoffBase h))%N;
  hok_runs : Forall (run_ok h) runs
}.
Definition dnode_ok (i : string) (d : dnode) : Prop := view_ok i (d_node d) ∧ handoff_ok (ho (d_node d)) (d_runs d).

(** Handoffs are to views the node has held: the base, the runs under way and
    the record on disk are not ahead of its view. *)
Record behind (d : dnode) : Prop := {
  bh_base : (epoch (handoffBase (ho (d_node d))) ≤ epoch (membership (d_node d)))%N;
  bh_runs : Forall (λ run, (epoch (run_newest run) ≤ epoch (membership (d_node d)))%N) (d_runs d);
  bh_file : ∀ b v, Some b ∈ after_crash (handoff_file (ho (d_node d))) → load_handoff_content b N0 = Ok v →
              (epoch v ≤ epoch (membership (d_node d)))%N
}.

(** The view stays, and the files. *)
Definition same_files (n n' : node) : Prop :=
  node_ID n' = node_ID n ∧ membership n' = membership n ∧ membership_file n' = membership_file n ∧ repl n' = repl n ∧
  handoff_file (ho n') = handoff_file (ho n).

Lemma view_ok_same i n n' : same_files n n' → view_ok i n → view_ok i n'.
Proof.
  intros (E1 & E2 & E3 & E4 & E5) [Hi Hp Hv Hs]. split; [congruence| |by rewrite E2|unfold IsMember, is_member; by rewrite E1, E2].
  by apply (node_planned_other posted N0 n n').
Qed.

Lemma startHandoff_ok i n runs n' run :
  view_ok i n → handoff_ok (ho n) runs → gen_room n → startHandoff n = (n', run) → handoff_ok (ho n') (add_run run runs).
Proof.
  intros [_ [_ _ Hp _] Hv _] Hh Hroom. unfold startHandoff. destruct (N.leb_spec (epoch (membership n)) (epoch (handoffBase (ho n)))) as [|Hlt].
  { by intros [= <- <-]. }
  case_match; [by intros [= <- <-]|]. intros [= <- <-]. unfold gen_room in Hroom. rewrite u64_small by done.
  assert (epoch (membership n) ≠ 0%N) as Hz by lia. destruct Hv as [?|Hv]; [done|]. destruct Hp as [?|[Hp Hb]]; [done|].
  destruct Hh as [_ Hr]. split; [done|]. cbn [ho set_ho].
  assert (Forall (run_ok (mkHO (handoffBase (ho n)) (Some (membership n)) (if negb (bgStopped n) then true else handoffRunning (ho n))
    (handoffGen (ho n) + 1) (mkStatus (epoch (membership n)) false 0 0 0) (handoffsCompleted (ho n)) (handoff_file (ho n)))) runs) as Hold.
  { eapply Forall_impl; [exact Hr|]. intros run (Hg & _ & Hrest). split; cbn; [lia|]. split; [lia|done]. }
  destruct (bgStopped n); [exact Hold|]. constructor; [|exact Hold]. split; cbn; [lia|]. by split_and!; try apply (posted_text _ _ Hp).
Qed.

(** What a step may do to a node's records of its peers: forget, or keep. *)
Definition health_kept (n n' : node) : Prop :=
  ∀ id h', health (hs n') !! id = Some h' →
    seen_epoch h' = 0%N ∨ ∃ h, health (hs n) !! id = Some h ∧ seen_epoch h' = seen_epoch h.

Lemma health_kept_eq n n' : health (hs n') = health (hs n) → health_kept n n'.
Proof. intros E id h'. rewrite E. intros H1. right. by exists h'. Qed.

Lemma recordHeartbeat_health n p ok : health_kept n (recordHeartbeat n p ok).
Proof.
  unfold recordHeartbeat. case_match; [by apply health_kept_eq|]. intros id h'. cbn.
  destruct (decide (id = p)) as [->|]; [rewrite lookup_insert_eq|rewrite lookup_insert_ne by done; right; by exists h'].
  intros [= <-]. destruct (health (hs n) !! p) as [h|]; [right; exists h; split; [done|]; by destruct ok|left; by destruct ok].
Qed.

Lemma setMembership_health io n e m claimed n' r run : setMembership io n e m claimed = (n', r, run) → health_kept n n'.
Proof.
  unfold setMembership. intros Hs. repeat (case_match; simplify_eq; try by apply health_kept_eq).
  match goal with Hp : publish ?a ?b = _ |- _ => pose proof (publish_effect a b) as He; rewrite Hp in He end.
  destruct He as (_ & _ & _ & _ & Hh & _). intros id h'. rewrite Hh. intros [Hl _]%map_lookup_filter_Some. right. by exists h'.
Qed.

(** ** What steps keep *)

Lemma setMembership_dnode io i n runs e m claimed n' r run :
  windows io = false → gen_room n → (e = 0%N ∨ posted e m) → view_ok i n → handoff_ok (ho n) runs →
  setMembership io n e m claimed = (n', r, run) →
  view_ok i n' ∧ handoff_ok (ho n') (add_run run runs) ∧ (epoch (membership n) ≤ epoch (membership n'))%N.
Proof.
  intros Hw Hroom Hplan Hok Hh Hs.
  destruct (setMembership_planned posted N0 posted_text _ _ _ _ _ _ _ _ Hw Hplan Hs (vo_planned _ _ Hok)) as [Hp' [He _]].
  assert (repl n = N0) as Hr by apply (np_repl _ _ _ (vo_planned _ _ Hok)).
  unfold setMembership in Hs. destruct (validateMembers m (repl n)) eqn:Ev; [by injection Hs as <- _ <-|].
  destruct (buildView e m (repl n)) as [v|] eqn:Hb; [|by injection Hs as <- _ <-].
  destruct (negb _ && negb _); [by injection Hs as <- _ <-|]. destruct (N.ltb_spec e (epoch (membership n))); [by injection Hs as <- _ <-|].
  destruct (N.eqb_spec e (epoch (membership n))); [case_bool_decide; by injection Hs as <- _ <-|].
  destruct (writeMembership io (membership_file n) v) as [f [err|]].
  { injection Hs as <- _ <-. split; [|done]. split; [apply Hok|done|apply Hok|apply Hok]. }
  unfold publish in Hs. match type of Hs with context [startHandoff ?x] => set (n1 := x) in * end.
  pose proof (startHandoff_keeps n1) as Hk. destruct (startHandoff n1) as [n2 run2] eqn:Es. cbn [fst] in Hk.
  injection Hs as -> _ ->. destruct Hk as (K1 & K2 & _ & _ & K3 & K4 & _ & K5).
  assert (view_ok i n1) as Hok1.
  { split; [apply Hok| | |].
    - by apply (node_planned_other posted N0 n' n1); [congruence..|].
    - right. apply buildView_Ok in Hb as (_ & Em & _). change (membership n1) with v. by rewrite Em, <-Hr.
    - change (membership n1) with v. apply buildView_Ok in Hb as (-> & _). lia. }
  assert (same_files n1 n') as Hsame by (split_and!; congruence).
  split; [by apply (view_ok_same i n1 n')|]. split; [|done]. by apply (startHandoff_ok i n1).
Qed.

Lemma finishHandoff_dnode io i n runs run :
  view_ok i n → handoff_ok (ho n) runs → run ∈ runs →
  let n' := finishHandoff io n (run_gen run) (run_newest run) in
  view_ok i n' ∧ handoff_ok (ho n') runs.
Proof.
  intros Hok Hh Hin. cbn zeta. unfold finishHandoff. destruct (N.eqb_spec (run_gen run) (handoffGen (ho n))) as [Hg|]; [|done]. cbn [negb].
  destruct Hh as [Hd Hr]. destruct (proj1 (Forall_forall _ _) Hr run Hin) as (_ & He & Hval & Ht & Hb).
  pose proof (files_ok_handoff io n (run_newest run)) as Hf. destruct Hok as [Hi [Hr0 Hfo Hv Hfound] Hvv Hself].
  destruct (writeHandoff io (handoff_file (ho n)) (run_newest run)) as [f err] eqn:Hw. rewrite Hr0 in Hf. split.
  - split; [done| |done|done]. split; [done| |done|done]. by eapply Hf.
  - split; cbn [ho set_ho handoffStatus handoffBase Done hs_Epoch]; [rewrite (He Hg); lia|].
    eapply Forall_impl; [exact Hr|]. by intros r0.
Qed.

Lemma load_content_valid b v : load_content b N0 = Ok v → validateMembers (members v) N0 = None.
Proof.
  unfold load_content. destruct (json_unmarshal b) as [mf|]; [|done]. destruct (validateMembers _ _) eqn:Ev; [done|].
  destruct (buildView _ _ _) as [v'|] eqn:Hb; [|done]. case_bool_decide; [|done]. intros [= <-].
  by apply buildView_Ok in Hb as (_ & -> & _).
Qed.

Lemma boot_dnode i address mm nb f h n' :
  boot i address N0 mm nb false false f h = Ok n' → node_planned posted N0 n' →
  (∀ b v, content f = Some b → load_content b N0 = Ok v → epoch v = 0%N → is_Some (members v !! i)) →
  view_ok i n' ∧ handoff_ok (ho n') [] ∧ health (hs n') = ∅.
Proof.
  intros Hb Hp Hself. destruct (boot_Ok _ _ _ _ _ _ _ _ Hb) as (v0 & Hi & _ & _ & _ & Hm & _).
  assert (∃ v base, n' = newNode i address N0 mm v base f h) as (v & base & E).
  { unfold boot in Hb. rewrite Hi in Hb. repeat case_match; simplify_eq; eauto. }
  split_and!.
  - assert (node_ID n' = i) as Eid by by subst. split; [done|done| |].
    + destruct (content f) as [b|]; [right; by eapply load_content_valid|left]. rewrite Hm. by apply buildView_Ok in Hi as [-> _].
    + intros H0. unfold IsMember, is_member. rewrite Eid. apply bool_decide_true.
      destruct (content f) as [b|]; [by apply (Hself b)|]. rewrite Hm. apply buildView_Ok in Hi as (_ & -> & _).
      rewrite lookup_insert_eq. by eexists.
  - subst n'. split; [|constructor]. cbn. apply N.leb_le.
  - by subst n'.
Qed.

Lemma updateHandoff_dnode i n runs gen f :
  (∀ st, hs_Epoch (f st) = hs_Epoch st ∧ Done (f st) = Done st) → view_ok i n → handoff_ok (ho n) runs →
  view_ok i (updateHandoff n gen f) ∧ handoff_ok (ho (updateHandoff n gen f)) runs.
Proof.
  intros Hf Hok [Hd Hr]. unfold updateHandoff. case_match; [|done]. destruct (Hf (handoffStatus (ho n))) as [E1 E2].
  split; [by apply (view_ok_same i n)|]. split; cbn [ho set_ho set_status handoffStatus handoffBase]; [by rewrite E1, E2|].
  eapply Forall_impl; [exact Hr|]. intros run (H1 & H2 & H3). split; [done|]. split; [|done].
  cbn. by rewrite E1.
Qed.

Lemma ping_answered_node n peerID reply n' ts :
  ping_answered n peerID reply = (n', ts) →
  same_files n n' ∧ ho n' = ho n ∧
  ∀ id h', health (hs n') !! id = Some h' →
    seen_epoch h' = 0%N ∨ (∃ h, health (hs n) !! id = Some h ∧ seen_epoch h' = seen_epoch h) ∨
    (id = reply_NodeID reply ∧ seen_epoch h' = reply_Epoch reply).
Proof.
  unfold ping_answered. case_bool_decide as Hid; cbn [negb].
  - assert (∀ m, same_files n m → ho m = ho n → health (hs m) = health (hs (recordPeerEpoch (recordHeartbeat n peerID true) peerID (reply_Epoch reply))) →
      same_files n m ∧ ho m = ho n ∧ ∀ id h', health (hs m) !! id = Some h' →
        seen_epoch h' = 0%N ∨ (∃ h, health (hs n) !! id = Some h ∧ seen_epoch h' = seen_epoch h) ∨
        (id = reply_NodeID reply ∧ seen_epoch h' = reply_Epoch reply)) as Hgen.
    { intros m Hs Hh Eh. split; [done|]. split; [done|]. intros id h'. rewrite Eh. unfold recordPeerEpoch.
      assert (health_kept n (recordHeartbeat n peerID true)) as Hk by apply recordHeartbeat_health.
      case_match; [intros [|]%Hk; tauto|]. cbn. destruct (decide (id = peerID)) as [->|].
      - rewrite lookup_insert_eq. intros [= <-]. right. right. done.
      - rewrite lookup_insert_ne by done. intros [|]%Hk; tauto. }
    destruct (recordPeerEpoch_view (recordHeartbeat n peerID true) peerID (reply_Epoch reply)) as (V1 & V2 & V3 & V4 & V5 & V6).
    destruct (recordHeartbeat_view n peerID true) as (W1 & W2 & W3 & W4 & W5 & W6).
    assert (same_files n (recordPeerEpoch (recordHeartbeat n peerID true) peerID (reply_Epoch reply))) as Hs
      by (split_and!; rewrite ?V6; congruence).
    unfold adoptFrom, noteConflict. repeat case_match; intros [= <- _]; apply Hgen; try done; cbn; congruence.
  - intros [= <- _]. destruct (recordHeartbeat_view n peerID false) as (W1 & W2 & W3 & W4 & W5 & W6).
    split; [split_and!; congruence|]. split; [done|]. intros id h' [|]%recordHeartbeat_health; tauto.
Qed.

Lemma behind_same n n' runs :
  (epoch (membership n) ≤ epoch (membership n'))%N → handoffBase (ho n') = handoffBase (ho n) →
  handoff_file (ho n') = handoff_file (ho n) → behind (mkD n runs) → behind (mkD n' runs).
Proof.
  intros He Eb Ef [Hb Hr Hf]. cbn [d_node d_runs] in *. split; cbn [d_node d_runs]; rewrite ?Eb, ?Ef; [lia| |].
  - eapply Forall_impl; [exact Hr|]. cbn. lia.
  - intros b v Hi Hl. specialize (Hf b v Hi Hl). lia.
Qed.

Lemma startHandoff_behind n runs n' run :
  behind (mkD n runs) → startHandoff n = (n', run) → behind (mkD n' (add_run run runs)).
Proof.
  intros Hb. unfold startHandoff. case_match; [by intros [= <- <-]|]. case_match; [by intros [= <- <-]|].
  intros [= <- <-]. destruct Hb as [Hb1 Hb2 Hb3]. split; [exact Hb1| |exact Hb3].
  destruct (bgStopped n); cbn [negb add_run d_runs]; [exact Hb2|]. by constructor; [cbn|].
Qed.

Lemma setMembership_behind io n runs e m claimed n' r run :
  behind (mkD n runs) → setMembership io n e m claimed = (n', r, run) → behind (mkD n' (add_run run runs)).
Proof.
  intros Hbh Hs. unfold setMembership in Hs. destruct (validateMembers m (repl n)); [by injection Hs as <- _ <-|].
  destruct (buildView e m (repl n)) as [v|] eqn:Hb; [|by injection Hs as <- _ <-].
  destruct (negb _ && negb _); [by injection Hs as <- _ <-|]. destruct (N.ltb_spec e (epoch (membership n))); [by injection Hs as <- _ <-|].
  destruct (N.eqb_spec e (epoch (membership n))); [case_bool_decide; by injection Hs as <- _ <-|].
  destruct (writeMembership io (membership_file n) v) as [f [err|]].
  { injection Hs as <- _ <-. by apply (behind_same n). }
  unfold publish in Hs. match type of Hs with context [startHandoff ?x] => set (n1 := x) in * end.
  destruct (startHandoff n1) as [n2 run2] eqn:Es. injection Hs as <- _ <-.
  apply (startHandoff_behind n1); [|done]. apply (behind_same n); [|done..|done].
  change (membership n1) with v. apply buildView_Ok in Hb as (-> & _). lia.
Qed.

Lemma finishHandoff_behind io n runs run :
  view_ok (node_ID n) n → handoff_ok (ho n) runs → run ∈ runs → behind (mkD n runs) →
  behind (mkD (finishHandoff io n (run_gen run) (run_newest run)) runs).
Proof.
  intros Hok Hh Hin Hbh. unfold finishHandoff. destruct (negb _); [done|].
  destruct (proj1 (Forall_forall _ _) (hok_runs _ _ Hh) run Hin) as (_ & _ & Hval & Ht & Hb).
  destruct Hbh as [Hb1 Hb2 Hb3]. cbn [d_node d_runs] in *. pose proof (proj1 (Forall_forall _ _) Hb2 run Hin) as Hle. cbn in Hle.
  destruct (writeHandoff io (handoff_file (ho n)) (run_newest run)) as [f err] eqn:Hw.
  split; cbn [d_node d_runs ho set_ho handoffBase membership handoff_file]; [done|done|]. intros b v. unfold writeHandoff in Hw.
  destruct (json_marshal _) as [b'|] eqn:Hj; [|injection Hw as <- _; apply Hb3].
  pose proof (handoff_roundtrip _ _ _ _ _ Hval Ht Hb Hj) as Hl.
  pose proof (WriteFileAtomic_effect io (handoff_file (ho n)) b' (fo_hfile n (np_files _ _ _ (vo_planned _ _ Hok)))) as Ha.
  destruct (WriteFileAtomic io (handoff_file (ho n)) b') as [f' err']. injection Hw as -> _. destruct Ha as (_ & _ & Hcr & _).
  intros [Hi|[= ->]]%Hcr Hv; [by eapply Hb3|]. rewrite Hl in Hv. by injection Hv as <-.
Qed.

Lemma boot_behind i address mm nb f h n' :
  boot i address N0 mm nb false false f h = Ok n' → after_crash h = [content h] →
  (∀ b v, content h = Some b → load_handoff_content b N0 = Ok v → (epoch v ≤ epoch (membership n'))%N) → behind (mkD n' []).
Proof.
  unfold boot. intros Hb Hh Hle. destruct (initialView _ _ _ _) as [v0|] eqn:Hi; [|done]. apply buildView_Ok in Hi as (E0 & _).
  destruct (loadMembership _ _ _) as [p|]; [|done]. unfold loadHandoff in Hb.
  destruct (content h) as [b|] eqn:Ec; [destruct (load_handoff_content b N0) as [hv|] eqn:El; [|done]|]; cbn in Hb;
    injection Hb as <-; (split; cbn [d_node d_runs newNode ho handoffBase membership handoff_file]; [|constructor|]).
  - exact (Hle b hv eq_refl El).
  - rewrite Hh. intros b' v' [= ->]%list_elem_of_singleton. exact (Hle b v' eq_refl).
  - cbn. rewrite E0. lia.
  - rewrite Hh. by intros b' v' Hin%list_elem_of_singleton.
Qed.

(** ** What holds of the cluster *)

(** The node [id] is at epoch [e] or later. *)
Definition seen_in (s : dstate) (id : string) (e : N) : Prop :=
  e = 0%N ∨ ∃ d, d_nodes s !! id = Some d ∧ (e ≤ epoch (membership (d_node d)))%N.

Record dinv (s : dstate) : Prop := {
  di_nodes : ∀ i d, d_nodes s !! i = Some d → dnode_ok i d;
  di_behind : ∀ i d, d_nodes s !! i = Some d → behind d;
  di_infos : ∀ info, info ∈ d_infos s → planned_info posted info;
  di_seen : ∀ i d id h, d_nodes s !! i = Some d → health (hs (d_node d)) !! id = Some h → seen_in s id (seen_epoch h);
  di_replies : ∀ r, r ∈ d_replies s → seen_in s (reply_NodeID r) (reply_Epoch r)
}.

Definition later (s s' : dstate) : Prop :=
  ∀ i d, d_nodes s !! i = Some d →
    ∃ d', d_nodes s' !! i = Some d' ∧ (epoch (membership (d_node d)) ≤ epoch (membership (d_node d')))%N.

#[export] Instance later_preorder : PreOrder later.
Proof.
  split; [intros s i d Hd; by exists d|]. intros s1 s2 s3 H1 H2 i d (d' & Hd' & ?)%H1. apply H2 in Hd' as (d'' & ? & ?).
  exists d''. split; [done|lia].
Qed.

Lemma seen_in_later s s' id e : later s s' → seen_in s id e → seen_in s' id e.
Proof. intros Hl [?|(d & (d' & Hd' & ?)%Hl & ?)]; [by left|]. right. exists d'. split; [done|lia]. Qed.

(** What one node's step keeps. *)
Definition step_ok (s : dstate) (i : string) (d d' : dnode) : Prop :=
  (dnode_ok i d' ∧ (behind d → behind d')) ∧ (epoch (membership (d_node d)) ≤ epoch (membership (d_node d')))%N ∧
  ∀ id h', health (hs (d_node d')) !! id = Some h' →
    seen_epoch h' = 0%N ∨ (∃ h, health (hs (d_node d)) !! id = Some h ∧ seen_epoch h' = seen_epoch h) ∨
    ∃ r, r ∈ d_replies s ∧ id = reply_NodeID r ∧ seen_epoch h' = reply_Epoch r.

Lemma step_ok_kept s i d d' :
  dnode_ok i d' → (behind d → behind d') → (epoch (membership (d_node d)) ≤ epoch (membership (d_node d')))%N →
  health_kept (d_node d) (d_node d') → step_ok s i d d'.
Proof. intros H1 H0 H2 H3. split; [done|]. split; [done|]. intros id h' [|]%H3; tauto. Qed.

Lemma step_ok_same s i n n' runs :
  dnode_ok i (mkD n runs) → same_files n n' → ho n' = ho n → health_kept n n' → step_ok s i (mkD n runs) (mkD n' runs).
Proof.
  intros [Hv Hh] Hs Eh Hk. assert (membership n' = membership n) as Em by apply Hs.
  apply step_ok_kept; [|apply behind_same; by rewrite ?Em, ?Eh|cbn; by rewrite Em|done]. split; [by apply (view_ok_same i n)|].
  cbn. by rewrite Eh.
Qed.

Lemma lstep_ok s i d d' : dinv s → dnode_ok i d → lstep s d d' → step_ok s i d d'.
Proof.
  intros Hinv Hd Hs. destruct Hs as [io n runs e m n' r run Hw Hroom Hp Hs|io n runs peerID info n' run Hw Hroom Hi Hs|
    n runs n' run Hroom Hs|n runs gen f Hf|io n runs run Hw Hrun|n runs peerID reply n' ts Hr Hs|n runs peerID|n runs c|n runs h Hh|
    n runs address mm nb f h n' Hf Hh Hb]; cbn [d_node d_runs] in *; pose proof Hd as [Hv Hho]; cbn [d_node d_runs] in Hv, Hho.
  - destruct (setMembership_dnode io i n runs e m EmptyString n' r run Hw Hroom (or_intror Hp) Hv Hho Hs) as (H1 & H2 & H3).
    apply step_ok_kept; [done|intros Hbh; by eapply setMembership_behind|done|]. exact (setMembership_health _ _ _ _ _ _ _ _ Hs).
  - unfold runFetch, adoptFetched in Hs. destruct (setMembership io n _ _ _) as [[n1 r] run1] eqn:Hs1.
    destruct (setMembership_dnode io i n runs _ _ _ n1 r run1 Hw Hroom (di_infos _ Hinv _ Hi) Hv Hho Hs1) as (H1 & H2 & H3).
    assert (behind (mkD n runs) → behind (mkD n1 (add_run run1 runs))) as Hbh by (intros; by eapply setMembership_behind).
    apply setMembership_health in Hs1.
    assert (same_files n1 n' ∧ ho n' = ho n1 ∧ health (hs n') = health (hs n1) ∧ run = run1) as (E1 & E2 & E3 & ->).
    { by destruct r as [|[]]; injection Hs as <- <-. }
    apply step_ok_kept; cbn [d_node]; [split; cbn [d_node d_runs]; [by apply (view_ok_same i n1)|by rewrite E2]
      |intros ?%Hbh; by apply (behind_same n1); [destruct E1 as (_ & -> & _)|rewrite E2..|]|cbn; by destruct E1 as (_ & -> & _)|].
    intros id h'. rewrite E3. apply Hs1.
  - pose proof (startHandoff_keeps n) as Hk. rewrite Hs in Hk. cbn [fst] in Hk. destruct Hk as (K1 & K2 & K3 & _ & K4 & K5 & _ & K6).
    apply step_ok_kept; [|intros; by eapply startHandoff_behind|cbn; by rewrite K1|apply health_kept_eq; by cbn; rewrite K3].
    split; [apply (view_ok_same i n); [cbn; split_and!; congruence|done]|]. by apply (startHandoff_ok i n).
  - destruct (updateHandoff_dnode i n runs gen f Hf Hv Hho) as [H1 H2]. unfold updateHandoff in *.
    apply step_ok_kept; [done|by case_match; [apply behind_same|]|by case_match|apply health_kept_eq; by cbn; case_match].
  - destruct (finishHandoff_dnode io i n runs run Hv Hho Hrun) as [H1 H2].
    apply step_ok_kept; [done|intros; apply finishHandoff_behind; by rewrite ?(vo_id _ _ Hv)|..];
      cbn [d_node]; unfold finishHandoff; repeat case_match; try done; by apply health_kept_eq.
  - destruct (ping_answered_node _ _ _ _ _ Hs) as (H1 & H2 & H3). split; [|split; [cbn; by destruct H1 as (_ & -> & _)|]].
    + split; [split; cbn; [by apply (view_ok_same i n)|by rewrite H2]|].
      apply behind_same; rewrite ?H2; [by destruct H1 as (_ & -> & _)|done..].
    + intros id h' [?|[?|[? ?]]]%H3; [tauto|tauto|]. right. right. by exists reply.
  - destruct (recordHeartbeat_view n peerID false) as (W1 & W2 & W3 & W4 & W5 & W6).
    apply step_ok_same; [done|split_and!; congruence|done|apply recordHeartbeat_health].
  - by apply step_ok_same; [done|done|done|apply health_kept_eq].
  - by apply step_ok_same; [done|done|done|apply health_kept_eq].
  - destruct (nstep_planned posted N0 posted_text (d_infos s) n n' (di_infos _ Hinv)
      (n_restart posted (d_infos s) n n' _ _ _ _ _ _ Hf Hh Hb) (vo_planned _ _ Hv)) as [Hp [He _]].
    rewrite (np_repl _ _ _ (vo_planned _ _ Hv)), (vo_id _ _ Hv) in Hb. 
    destruct (boot_dnode _ _ _ _ _ _ _ Hb Hp) as (H1 & H2 & H3).
    { intros b v Hc Hl H0. pose proof (fo_found n (np_files _ _ _ (vo_planned _ _ Hv)) _ (proj1 Hf)) as Hfv.
      unfold found_view in Hfv. rewrite Hc, (np_repl _ _ _ (vo_planned _ _ Hv)), Hl in Hfv. destruct Hfv as (v' & [= <-] & [?|Hv']); [lia|].
      subst v. pose proof (vo_self _ _ Hv H0) as Hm. unfold IsMember, is_member in Hm. rewrite (vo_id _ _ Hv) in Hm.
      by apply bool_decide_eq_true in Hm. }
    apply step_ok_kept; [done| |done|intros id h'; cbn; by rewrite H3].
    intros [_ _ Hbf]. apply (boot_behind _ _ _ _ _ _ _ Hb); [apply Hh|]. cbn [d_node] in Hbf. intros b v Hc Hl.
    rewrite <-He. apply (Hbf b); [|done]. rewrite <-Hc. apply Hh.
Qed.

Lemma step_ok_later s s' i d d' :
  d_nodes s !! i = Some d → d_nodes s' = <[i := d']> (d_nodes s) → step_ok s i d d' → later s s'.
Proof.
  intros Hi E (_ & He & _) j dj Hj. rewrite E. destruct (decide (i = j)) as [<-|]; [|exists dj; by rewrite lookup_insert_ne].
  exists d'. rewrite lookup_insert_eq. rewrite Hi in Hj. by injection Hj as <-.
Qed.

(** A step of one node, in the cluster. *)
Lemma step_ok_inv s s' i d d' :
  dinv s → d_nodes s !! i = Some d → step_ok s i d d' → d_nodes s' = <[i := d']> (d_nodes s) → d_infos s' = d_infos s →
  (∀ r, r ∈ d_replies s' → r ∈ d_replies s ∨ seen_in s' (reply_NodeID r) (reply_Epoch r)) → dinv s'.
Proof.
  intros [Hn Hbe Hi Hse Hr] Hd Hok E1 E2 E3. pose proof (step_ok_later s s' i d d' Hd E1 Hok) as Hl. destruct Hok as ([Ho Hob] & _ & Hh). split.
  - intros j dj. rewrite E1. destruct (decide (i = j)) as [<-|]; [rewrite lookup_insert_eq; by intros [= <-]|].
    rewrite lookup_insert_ne by done. apply Hn.
  - intros j dj. rewrite E1. destruct (decide (i = j)) as [<-|]; [rewrite lookup_insert_eq; intros [= <-]; by apply Hob, (Hbe i)|].
    rewrite lookup_insert_ne by done. apply Hbe.
  - by rewrite E2.
  - intros j dj id h. rewrite E1. destruct (decide (i = j)) as [<-|].
    + rewrite lookup_insert_eq. intros [= <-] [?|[(h0 & H0 & ->)|(r & Hin & -> & ->)]]%Hh; [by left| |].
      * eapply seen_in_later; [done|]. by eapply Hse.
      * eapply seen_in_later; [done|]. by apply Hr.
    + rewrite lookup_insert_ne by done. intros Hj Hhj. eapply seen_in_later; [done|]. by eapply Hse.
  - intros r [Hin|?]%E3; [|done]. eapply seen_in_later; [done|]. by apply Hr.
Qed.

Lemma HandlePing_step s i d from n' reply ts :
  dnode_ok i d → HandlePing (d_node d) from = (n', reply, ts) →
  step_ok s i d (mkD n' (d_runs d)) ∧ reply_NodeID reply = i ∧ reply_Epoch reply = epoch (membership (d_node d)).
Proof.
  intros Hd Hs. pose proof (HandlePing_view (d_node d) from) as Hv. rewrite Hs in Hv.
  destruct Hv as [(V1 & V2 & V3 & V4 & V5 & V6) ->]. destruct d as [n runs]. cbn [d_node d_runs] in *. split; [|split; [apply Hd|done]].
  apply step_ok_same; [done|split_and!; congruence|done|]. apply health_kept_eq. unfold HandlePing, pingBack, adoptFrom, noteConflict in Hs.
  repeat case_match; simplify_eq; done.
Qed.

Lemma dstep_inv s s' : dinv s → dstep s s' → dinv s' ∧ later s s'.
Proof.
  intros Hinv Hs. destruct Hs as [s i d d' Hi Hs|s i d Hi|s i d from n' reply ts Hi Hs].
  - pose proof (lstep_ok s i d d' Hinv (di_nodes _ Hinv _ _ Hi) Hs) as Hok.
    split; [apply (step_ok_inv s (put_node s i d') i d d'); by auto|by apply (step_ok_later s (put_node s i d') i d d')].
  - split; [|intros j dj Hj; by exists dj]. destruct Hinv as [Hn Hbe Hin Hse Hr]. split; [done|done| |done|done].
    intros info [->|?]%elem_of_cons; [|by apply Hin]. destruct (Hn i d Hi) as [[_ [_ _ Hp _] _ _] _].
    destruct Hp as [?|[? _]]; [by left|by right].
  - destruct (HandlePing_step s i d from n' reply ts (di_nodes _ Hinv _ _ Hi) Hs) as (Hok & E1 & E2).
    match goal with |- dinv ?x ∧ _ => set (s' := x) end. assert (later s s') as Hl by by apply (step_ok_later s s' i d _ Hi eq_refl Hok).
    split; [|done]. apply (step_ok_inv s s' i d (mkD n' (d_runs d))); [done..|]. intros r [->|?]%elem_of_cons; [right|by left].
    rewrite E1, E2. eapply seen_in_later; [done|]. right. by exists d.
Qed.

Lemma dreachable_inv s : dreachable s → dinv s.
Proof.
  induction 1 as [cl Hcl|s s' _ IH Hs]; [|by apply (dstep_inv s)].
  assert (∀ i d, cl !! i = Some d → dnode_ok i d ∧ behind d ∧ health (hs (d_node d)) = ∅) as Hb.
  { intros i [n runs] Hi. destruct (Hcl i _ Hi) as (Er & address & mm & nb & Hb). cbn in Er, Hb. subst runs.
    assert (node_planned posted N0 n) as Hp by by apply (booted_planned posted N0 i address mm nb no_file no_file n).
    destruct (boot_dnode _ _ _ _ _ _ _ Hb Hp) as (? & ? & ?); [done|]. split; [done|]. split; [|done].
    by apply (boot_behind _ _ _ _ _ _ _ Hb). }
  split; cbn.
  - intros i d Hi. apply (Hb i d Hi).
  - intros i d Hi. apply (Hb i d Hi).
  - intros info Hin. by apply elem_of_nil in Hin.
  - intros i d id h Hi. rewrite (proj2 (proj2 (Hb i d Hi))). done.
  - intros r Hr. by apply elem_of_nil in Hr.
Qed.

(** ** Executions, and waiting in them *)

Definition execution (tr : nat → dstate) : Prop :=
  dreachable (tr 0) ∧ ∀ t, tr (S t) = tr t ∨ dstep (tr t) (tr (S t)).

Lemma execution_inv tr t : execution tr → dinv (tr t).
Proof.
  intros [H0 Hs]. induction t as [|t IH]; [by apply dreachable_inv|]. destruct (Hs t) as [->|Hst]; [done|]. by apply (dstep_inv _ _ IH).
Qed.

Lemma execution_later tr t t' : execution tr → t ≤ t' → later (tr t) (tr t').
Proof.
  intros He Hle. induction Hle as [|t' _ IH]; [done|]. etransitivity; [exact IH|]. destruct (proj2 He t') as [->|Hst]; [done|].
  apply (dstep_inv _ _ (execution_inv tr t' He) Hst).
Qed.

(** The node [i] as it is at the moment [t]. *)
Definition node_at (tr : nat → dstate) (i : string) (t : nat) (n : node) : Prop :=
  ∃ d, d_nodes (tr t) !! i = Some d ∧ d_node d = n.

(** Looks at the node, one after the other, from [lo] to [hi]. *)
Fixpoint looks_at (tr : nat → dstate) (i : string) (lo hi : nat) (looks : list look) : Prop :=
  match looks with
  | [] => True
  | l :: rest => ∃ t, lo ≤ t ≤ hi ∧ node_at tr i t l.1 ∧ looks_at tr i t hi rest
  end.
End cluster.

(** What the waits return for. *)
Lemma WaitHandoff_rest looks e r rest : WaitHandoff looks e = Some (r, rest) → length rest < length looks.
Proof.
  induction looks as [|[n ended] looks IH]; [done|]. cbn [WaitHandoff length].
  case_match; [intros [= <- <-]; lia|]. case_match; [intros [= <- <-]; lia|]. intros ?%IH. lia.
Qed.

(** More fuel than looks changes nothing. *)
Lemma drain_loop_fuel fuel looks e : length looks ≤ fuel → drain_loop fuel looks e = WaitDrained looks e.
Proof.
  unfold WaitDrained. revert looks. cut (∀ k fuel looks, length looks ≤ k → k ≤ fuel → drain_loop fuel looks e = drain_loop k looks e).
  { intros Hc looks Hl. by apply Hc. }
  induction k as [|k IH]; intros fu looks Hl Hf.
  - destruct looks; [|cbn in Hl; lia]. by destruct fu.
  - destruct fu as [|fu]; [lia|]. cbn [drain_loop].
    destruct (WaitHandoff looks e) as [[[err|] rest]|] eqn:Ew; [done| |done]. apply WaitHandoff_rest in Ew.
    destruct rest as [|[loaded x] [|[peers slept] rest]]; [done|done|]. case_match; [done|]. case_match; [done|].
    cbn in Ew. apply IH; lia.
Qed.

Section waits.
Context (tr : nat → dstate) (i : string).

Lemma looks_at_weaken lo lo' hi looks : lo ≤ lo' → looks_at tr i lo' hi looks → looks_at tr i lo hi looks.
Proof. intros Hle. destruct looks as [|l looks]; [done|]. intros (t & ? & ?). exists t. split; [lia|done]. Qed.

Lemma WaitHandoff_done lo hi looks e rest :
  looks_at tr i lo hi looks → WaitHandoff looks e = Some (None, rest) →
  ∃ t n, lo ≤ t ≤ hi ∧ node_at tr i t n ∧ (e ≤ epoch (handoffBase (ho n)))%N ∧ looks_at tr i t hi rest.
Proof.
  revert lo. induction looks as [|[n ended] looks IH]; intros lo; [done|]. intros (t & Ht & Hn & Hrest). cbn [WaitHandoff].
  destruct (N.leb_spec e (epoch (handoffBase (ho n)))); [intros [= <-]; by exists t, n|]. destruct ended; [done|].
  intros (t' & n' & ? & ?)%(IH t); [|done]. exists t', n'. split; [lia|done].
Qed.

(** The wait ended well: the handoff had completed, after that the view was
    loaded, and after that, unless the node was a member of it, the epochs seen
    of its members were looked at. *)
Lemma WaitDrained_done lo hi looks e :
  looks_at tr i lo hi looks → WaitDrained looks e = Some None →
  ∃ th tv tp nh nv np, lo ≤ th ≤ tv ∧ tv ≤ tp ≤ hi ∧ node_at tr i th nh ∧ node_at tr i tv nv ∧ node_at tr i tp np ∧
    (e ≤ epoch (handoffBase (ho nh)))%N ∧ (IsMember nv = true ∨ allPeersAtLeast np (membership nv) e = true).
Proof.
  unfold WaitDrained. generalize (length looks) as fuel. intros fuel. revert lo looks.
  induction fuel as [|fuel IH]; intros lo looks Hl; [done|]. cbn [drain_loop].
  destruct (WaitHandoff looks e) as [[[err|] rest]|] eqn:Ew; [done| |done].
  destruct (WaitHandoff_done _ _ _ _ _ Hl Ew) as (th & nh & Hth & Hnh & Hb & Hrest).
  destruct rest as [|[loaded x] [|[peers slept] rest]]; [done|done|].
  destruct Hrest as (tv & Htv & Hnv & tp & Htp & Hnp & Hrest). cbn [fst] in *. destruct (IsMember loaded || _) eqn:Ec.
  - intros _. exists th, tv, tp, nh, loaded, peers. split_and!; try done; try lia. by apply orb_prop.
  - destruct slept; [done|]. intros Hd. apply (IH lo rest); [|done]. eapply looks_at_weaken; [|exact Hrest]. lia.
Qed.
End waits.

Lemma allPeersAtLeast_spec n v e :
  allPeersAtLeast n v e = true ↔
  ∀ id, id ∈ dom (members v) → id ≠ node_ID n → ∃ h, health (hs n) !! id = Some h ∧ (e ≤ seen_epoch h)%N.
Proof.
  unfold allPeersAtLeast. rewrite forallb_forall. split.
  - intros Ha id Hid Hne. specialize (Ha id). rewrite <-list_elem_of_In, elem_of_elements in Ha. specialize (Ha Hid).
    rewrite bool_decide_false in Ha by done. destruct (health (hs n) !! id) as [h|]; [|done]. exists h. split; [done|]. by apply N.leb_le.
  - intros Ha id. rewrite <-list_elem_of_In, elem_of_elements. intros Hid. case_bool_decide; [done|].
    destruct (Ha id Hid) as (h & -> & ?); [done|]. by apply N.leb_le.
Qed.

Section drained.
Context `{!Unicode} `{!JsonCodec membershipFile} `{!JsonCodec handoffFile}.
Context `{!JsonRoundTrip membershipFile mf_ok, !JsonRoundTrip handoffFile hf_ok}.
Context (posted : N → gmap string string → Prop) (N0 : nat).
Hypothesis posted_text : ∀ e m, posted e m → members_text_ok m.

Lemma peers_seen s i d v e id :
  dinv posted N0 s → d_nodes s !! i = Some d → (0 < e)%N → allPeersAtLeast (d_node d) v e = true →
  id ∈ dom (members v) → id ≠ i → ∃ u, d_nodes s !! id = Some u ∧ (e ≤ epoch (membership (d_node u)))%N.
Proof.
  intros Hinv Hd He Ha Hid Hne. rewrite allPeersAtLeast_spec, (vo_id _ _ _ _ (proj1 (di_nodes _ _ _ Hinv _ _ Hd))) in Ha.
  destruct (Ha id Hid Hne) as (h & Hh & Hle). destruct (di_seen _ _ _ Hinv _ _ _ _ Hd Hh) as [?|(u & Hu & ?)]; [lia|].
  exists u. split; [done|lia].
Qed.

(** The moments of a wait that ended well. *)
Lemma drained_moments tr i looks e lo hi :
  execution posted N0 tr → (0 < e)%N → looks_at tr i lo hi looks → WaitDrained looks e = Some None →
  ∃ th tv nh nv, lo ≤ th ≤ tv ∧ tv ≤ hi ∧
    node_at tr i th nh ∧ (e ≤ epoch (handoffBase (ho nh)))%N ∧
    node_at tr i tv nv ∧ (e ≤ epoch (membership nv))%N ∧
    (IsMember nv = true ∨
     ∀ j, j ∈ dom (members (membership nv)) → j ≠ i →
       ∀ t, hi ≤ t → ∃ d, d_nodes (tr t) !! j = Some d ∧ (e ≤ epoch (membership (d_node d)))%N).
Proof.
  intros Hex He Hl Hw. destruct (WaitDrained_done _ _ _ _ _ _ Hl Hw) as (th & tv & tp & nh & nv & np & Ht1 & Ht2 & Hh & Hv & Hp & Hb & Hc).
  exists th, tv, nh, nv. split; [lia|]. split; [lia|]. split; [done|]. split; [done|]. split; [done|]. split.
  - destruct Hh as (dh & Hdh & <-). pose proof (bh_base _ _ (di_behind _ _ _ (execution_inv posted N0 posted_text tr th Hex) i dh Hdh)).
    destruct (execution_later posted N0 posted_text tr th tv Hex ltac:(lia) i dh Hdh) as (dv & Hdv & ?).
    destruct Hv as (dv' & Hdv' & <-). rewrite Hdv in Hdv'. injection Hdv' as <-. lia.
  - destruct Hc as [Hm|Ha]; [by left|right]. intros j Hj Hne t' Hhi. destruct Hp as (d & Hd & <-).
    destruct (peers_seen (tr tp) i d _ e j (execution_inv posted N0 posted_text tr tp Hex) Hd He Ha Hj Hne) as (u & Hu & Hle).
    destruct (execution_later posted N0 posted_text tr tp t' Hex ltac:(lia) j u Hu) as (u' & Hu' & ?). exists u'. split; [done|lia].
Qed.

(** C21: a node that says it has drained can be stopped.  In a cluster whose
    nodes are told memberships (any, several for one epoch too), fetch them
    from each other, ping each other, hand off, crash and restart in any
    order, a node waits with [WaitDrained] for an epoch, looking at itself at
    moments of the wait one after the other.  If the wait returns without
    error, then there is a moment of it at which the node's handoff to that
    epoch or a later one had completed, and a moment not before that one at
    which it loaded its view: that view is of the epoch waited for or a later
    one, never one the node held before; and unless the node is a member of
    it, every other member of it is at that epoch or later when the wait
    returns and from then on, whatever happens. *)
Theorem drained_node_expendable tr i looks e lo hi :
  execution posted N0 tr → (0 < e)%N → looks_at tr i lo hi looks → WaitDrained looks e = Some None →
  ∃ th tv nh nv, lo ≤ th ≤ tv ∧ tv ≤ hi ∧
    node_at tr i th nh ∧ (e ≤ epoch (handoffBase (ho nh)))%N ∧
    node_at tr i tv nv ∧ (e ≤ epoch (membership nv))%N ∧
    (IsMember nv = true ∨
     ∀ j, j ∈ dom (members (membership nv)) → j ≠ i →
       ∀ t, hi ≤ t → ∃ d, d_nodes (tr t) !! j = Some d ∧ (e ≤ epoch (membership (d_node d)))%N).
Proof. apply drained_moments. Qed.
End drained.

(** ** A node that is removed

    Three nodes; the third is removed at epoch 1, hands off, and hears from the
    other two. *)

Definition get_ok {E A} (r : res E A) (d : A) : A := match r with Ok a => a | Err _ => d end.
Definition is_ok {E A} (r : res E A) : bool := match r with Ok _ => true | Err _ => false end.

Lemma get_ok_eq {E A} (r : res E A) d : is_ok r = true → r = Ok (get_ok r d).
Proof. by destruct r. Qed.

Definition removal (e : N) (m : gmap string string) : Prop := e = 1%N ∧ m = w_members.

Lemma removal_text e m : removal e m → members_text_ok m.
Proof. intros [_ ->]. apply (bool_decide_unpack _). vm_compute. exact I. Qed.

Section witnesses.
#[local] Existing Instance ascii_print.
#[local] Existing Instance toy_mf_json.
#[local] Existing Instance toy_hf_json.
#[local] Instance toy_mf_rt' : JsonRoundTrip membershipFile mf_ok := countable_codec_roundtrip membershipFile mf_ok.
#[local] Instance toy_hf_rt' : JsonRoundTrip handoffFile hf_ok := countable_codec_roundtrip handoffFile hf_ok.

Definition start (id : string) : node := get_ok (boot id "host2:7000" 2 3 w_members false false no_file no_file) w_peer.
Definition cl0 : gmap string dnode :=
  {["kv-0" := mkD (start "kv-0") []; "kv-1" := mkD (start "kv-1") []; "kv-2" := mkD (start "kv-2") []]}.

Lemma start_booted id :
  id ∈ ["kv-0"; "kv-1"; "kv-2"] → boot id "host2:7000" 2 3 w_members false false no_file no_file = Ok (start id).
Proof.
  intros Hid. apply get_ok_eq. repeat (apply elem_of_cons in Hid as [->|Hid]; [vm_compute; reflexivity|]). by apply elem_of_nil in Hid.
Qed.

Definition the_node (s : dstate) (i : string) : dnode := default (mkD w_peer []) (d_nodes s !! i).
Definition declare (s : dstate) (i : string) : dstate :=
  let d := the_node s i in
  let r := SetMembership disk_fine (d_node d) 1 w_members in put_node s i (mkD r.1.1 (add_run r.2 (d_runs d))).
Definition answer (s : dstate) (i j : string) : dstate :=
  let d := the_node s i in
  let r := HandlePing (d_node d) (ping_request (d_node (the_node s j))) in
  mkDS (<[i := mkD r.1.1 (d_runs d)]> (d_nodes s)) (d_infos s) (r.1.2 :: d_replies s).
Definition hear (s : dstate) (j i : string) : dstate :=
  let d := the_node s j in
  match d_replies s with
  | reply :: _ => put_node s j (mkD (ping_answered (d_node d) i reply).1 (d_runs d))
  | [] => s
  end.
Definition finish (s : dstate) (i : string) : dstate :=
  let d := the_node s i in
  match d_runs d with
  | run :: _ => put_node s i (mkD (finishHandoff disk_fine (d_node d) (run_gen run) (run_newest run)) (d_runs d))
  | [] => s
  end.

Definition present (s : dstate) (i : string) : bool := bool_decide (is_Some (d_nodes s !! i)).
Notation reach := (dreachable removal 2).

Lemma present_the s i : present s i = true → d_nodes s !! i = Some (the_node s i).
Proof. intros [d Hd]%bool_decide_eq_true. unfold the_node. by rewrite Hd. Qed.

Lemma reach_local s i d' : reach s → present s i = true → lstep removal s (the_node s i) d' → reach (put_node s i d').
Proof. intros Hr Hp%present_the Hs. eapply dr_step; [done|]. by eapply ds_local. Qed.

Lemma reach_declare s i :
  reach s → present s i = true → (handoffGen (ho (d_node (the_node s i))) + 1 <? two64)%N = true → reach (declare s i).
Proof.
  intros Hr Hp Hg%N.ltb_lt. unfold declare. apply reach_local; [done|done|]. destruct (the_node s i) as [n runs].
  cbn [d_node d_runs] in *. destruct (SetMembership disk_fine n 1 w_members) as [[n' r] run] eqn:E.
  refine (l_declare removal s disk_fine n runs 1 w_members n' r run eq_refl Hg (conj eq_refl eq_refl) E).
Qed.

Lemma reach_answer s i j : reach s → present s i = true → reach (answer s i j).
Proof.
  intros Hr Hp%present_the. unfold answer. destruct (HandlePing _ _) as [[n' reply] ts] eqn:E.
  eapply dr_step; [done|]. exact (ds_answer removal s i _ _ n' reply ts Hp E).
Qed.

Lemma reach_hear s j i : reach s → present s j = true → reach (hear s j i).
Proof.
  intros Hr Hp. unfold hear. destruct (d_replies s) as [|reply rs] eqn:Er; [done|]. apply reach_local; [done|done|].
  destruct (the_node s j) as [n runs]. cbn [d_node d_runs]. destruct (ping_answered n i reply) as [n' ts] eqn:E.
  eapply l_pinged; [|exact E]. rewrite Er. by left.
Qed.

Lemma reach_finish s i : reach s → present s i = true → reach (finish s i).
Proof.
  intros Hr Hp. unfold finish. destruct (the_node s i) as [n runs] eqn:E. cbn [d_runs d_node]. destruct runs as [|run runs]; [done|].
  apply reach_local; [done|done|]. rewrite E. apply l_finish; [done|by left].
Qed.

Definition s_start : dstate := mkDS cl0 [] [].
Definition s_told : dstate := declare (declare (declare s_start "kv-0") "kv-1") "kv-2".
Definition s_drained : dstate :=
  finish (hear (answer (hear (answer s_told "kv-0" "kv-2") "kv-2" "kv-0") "kv-1" "kv-2") "kv-2" "kv-1") "kv-2".
Definition leaver : node := d_node (the_node s_drained "kv-2").

Lemma s_start_reach : reach s_start.
Proof.
  constructor. intros i d. unfold cl0.
  intros Hi. assert (∃ id, i = id ∧ id ∈ ["kv-0"; "kv-1"; "kv-2"] ∧ d = mkD (start id) []) as (id & -> & Hid & ->).
  { repeat (apply lookup_insert_Some in Hi as [[<- <-]|[_ Hi]]; [eexists; split; [done|]; split; [|done]; set_solver|]).
    apply lookup_singleton_Some in Hi as [<- <-]. eexists. split; [done|]. split; [|done]. set_solver. }
  split; [done|]. eexists _, _, _. by apply start_booted.
Qed.

Lemma s_drained_reach : reach s_drained.
Proof.
  unfold s_drained, s_told.
  apply reach_finish; [apply reach_hear; [apply reach_answer; [apply reach_hear; [apply reach_answer;
    [apply reach_declare; [apply reach_declare; [apply reach_declare; [exact s_start_reach|..]|..]|..]|]|]|]|]|];
    vm_compute; reflexivity.
Qed.

Lemma drained_node_expendable_witness :
  IsMember leaver = false ∧ ∃ d, d_nodes s_drained !! "kv-0" = Some d ∧ (1 ≤ epoch (membership (d_node d)))%N.
Proof.
  assert (Hseen : node_at (λ _, s_drained) "kv-2" 0 leaver).
  { exists (the_node s_drained "kv-2"). split; [|reflexivity]. apply present_the. vm_compute. reflexivity. }
  assert (Hnm : IsMember leaver = false) by (vm_compute; reflexivity). split; [exact Hnm|].
  destruct (drained_node_expendable removal 2 removal_text (λ _, s_drained) "kv-2" [(leaver, None); (leaver, None); (leaver, None)] 1 0 0)
    as (th & tv & nh & nv & _ & _ & _ & _ & Hnv & _ & Hc).
  - split; [exact s_drained_reach|by left].
  - reflexivity.
  - exists 0. split; [lia|]. split; [exact Hseen|]. exists 0. split; [lia|]. split; [exact Hseen|].
    exists 0. split; [lia|]. split; [exact Hseen|exact I].
  - vm_compute. reflexivity.
  - assert (nv = leaver) as ->.
    { destruct Hnv as (d & Hd & <-). destruct Hseen as (d' & Hd' & <-). cbn in Hd, Hd'. rewrite Hd in Hd'. by injection Hd' as ->. }
    destruct Hc as [Hc|Hc]; [exfalso; rewrite Hnm in Hc; discriminate Hc|].
    apply (Hc "kv-0") with (t := 0); [|discriminate|lia]. apply (bool_decide_unpack _). vm_compute. exact I.
Defined.
End witnesses.
