(* ===== verification/Observe.v ===== *)
(** * What the operator observes (operator/internal/controller/observe.go,
      operator/internal/render/parse.go)

    A reconcile reads the StatefulSet, the ConfigMap, the volume claims and the
    pods, asks every pod's node for its membership, and each node outside its
    own membership whether it has drained.  Kubernetes objects are records of
    the fields that are read.

    Shown: what the observation says of each pod was so while it was made, when
    the answers come from the nodes of a cluster that runs on (Drain.v) through
    the admin API (Admin.v); if nothing it speaks of changes meanwhile, it is
    one that the operator's model allows (Operator.v, [observes]); and since
    when a pod is said not to answer. *)

From stdpp Require Import gmap strings list pretty.
From Stdlib Require Import ZArith Lia.
From S2P Require Import Prelude GoLib GoStrings Json HashRing Sha256 Quote Fsutil Membership Heartbeat Handoff Admin Drain Planner Operator.

Open Scope nat_scope.

(** ** Objects *)

(** What a [Get] of an object returns. *)
Inductive get (A : Type) := Found (a : A) | NotFound | GetFailed.
Arguments Found {A} a.
Arguments NotFound {A}.
Arguments GetFailed {A}.

(** A condition's type, whether its status is true, its last transition time. *)
Record condition := mkCond { c_Type : string; c_True : bool; c_LastTransition : option Z }.
Record pod_object := mkPodObj {
  po_Name : string; po_UID : string; po_Deleting : bool; po_Created : option Z; po_Conditions : list condition
}.
Record sts_object := mkStsObj {
  so_Replicas : option nat; so_Generation : N; so_ObservedGeneration : N; so_UpdatedReplicas : nat; so_ReadyReplicas : nat;
  so_UpdateRevision : string; so_CurrentRevision : string; so_TemplateCurrent : bool
}.
(** A ConfigMap: its [config.yaml], if there is one, and what the YAML library
    reads of it. *)
Record cm_object := mkCmObj { co_Config : option (option (N * list (string * string))) }.

(** ** Reading them *)

Inductive parse_error := NoConfig | DoesNotParse | ListedTwice (id : string).

Fixpoint collect_members (l : list (string * string)) (m : gmap string string) : res parse_error (gmap string string) :=
  match l with
  | [] => Ok m
  | (id, addr) :: rest =>
      match m !! id with Some _ => Err (ListedTwice id) | None => collect_members rest (<[id := addr]> m) end
  end.

Definition ParseConfigMap (cm : cm_object) : res parse_error (N * gmap string string) :=
  match co_Config cm with
  | None => Err NoConfig
  | Some None => Err DoesNotParse
  | Some (Some (e, l)) => m ←? collect_members l ∅; Ok (e, m)
  end.

Definition statefulSetObs (sts : sts_object) : StatefulSetObs :=
  let replicas := default 1 (so_Replicas sts) in
  let rolledOut := (so_Generation sts <=? so_ObservedGeneration sts)%N && (so_UpdatedReplicas sts =? replicas) &&
    (bool_decide (so_UpdateRevision sts = "") || bool_decide (so_CurrentRevision sts = so_UpdateRevision sts)) in
  mkSts replicas (so_ReadyReplicas sts) rolledOut (so_TemplateCurrent sts).

Definition PodReadyType : string := "Ready".

Definition podObs (ordinal : nat) (p : option pod_object) : PodObs :=
  match p with
  | None => mkPod ordinal false false false None None None None
  | Some p =>
      let '(ready, since) :=
        fold_left (λ acc c, if bool_decide (c_Type c = PodReadyType)
                            then (c_True c, match c_LastTransition c with Some t => Some t | None => acc.2 end)
                            else acc) (po_Conditions p) (false, po_Created p) in
      mkPod ordinal true (po_Deleting p) ready since None None None
  end.

(** ** Asking the nodes *)

(** A call of [GetMembership], and of [Handoff] if it is made. *)
Record answers := mkAnswers { a_Membership : res call_error kvMembership; a_Handoff : option kvHandoff * bool * option call_error }.

Definition set_Membership (p : PodObs) (m : Planner.Membership) : PodObs :=
  mkPod (Ordinal_ p) (Exists p) (Terminating p) (PodReady p) (Since p) (Some m) (UnreachableSince p) (Drain p).
Definition set_Drain (p : PodObs) (h : Planner.Handoff) : PodObs :=
  mkPod (Ordinal_ p) (Exists p) (Terminating p) (PodReady p) (Since p) (pod_Membership p) (UnreachableSince p) (Some h).
Definition set_UnreachableSince (p : PodObs) (t : Z) : PodObs :=
  mkPod (Ordinal_ p) (Exists p) (Terminating p) (PodReady p) (Since p) (pod_Membership p) (Some t) (Drain p).

(** What the planner reads of the two bodies. *)
Definition planner_membership (m : kvMembership) : Planner.Membership :=
  Planner.mkMembership (km_Epoch m) (km_Members m) (k_Epoch (km_Handoff m)) (k_Done (km_Handoff m)).
Definition planner_handoff (h : kvHandoff) : Planner.Handoff := Planner.mkHandoff (kh_Epoch h) (kh_Drained h).

(** [askNodes], one pod; the second call is for the epoch of the first's answer *)
Definition askNode (kv : KVCluster) (ord : nat) (a : answers) (p : PodObs) : PodObs :=
  match a_Membership a with
  | Err _ => p
  | Ok m =>
      let p := set_Membership p (planner_membership m) in
      match km_Members m !! MemberID kv ord with
      | Some _ => p
      | None =>
          match a_Handoff a with
          | (Some h, _, err) =>
              if match err with None => true | Some e => IsStatus e StatusServiceUnavailable end then set_Drain p (planner_handoff h) else p
          | (None, _, _) => p
          end
      end
  end.

(** [trackUnreachable]: the pods in some order *)
Definition track_one (now : Z) (pod : string) (answered : bool) (unreachable : gmap string Z) : gmap string Z :=
  if answered then delete pod unreachable
  else match unreachable !! pod with Some _ => unreachable | None => <[pod := now]> unreachable end.
Definition trackUnreachable (now : Z) (pods : list (string * bool)) (unreachable : gmap string Z) : gmap string Z :=
  filter (λ p, p.1 ∈ pods.*1) (fold_left (λ u p, track_one now p.1 p.2 u) pods unreachable).

(** ** [observe] *)

Section observe.
Context (kv : KVCluster).

Definition claim_ordinal (name : string) : option nat :=
  match CutPrefix "data-" name with Some id => Ordinal kv id | None => None end.

(** The pods by ordinal, and one more than the greatest. *)
Definition by_ordinal (pods : list pod_object) : gmap nat pod_object :=
  fold_left (λ m p, match Ordinal kv (po_Name p) with Some ord => <[ord := p]> m | None => m end) pods ∅.
Definition pod_count (replicas : nat) (pods : list pod_object) : nat :=
  fold_left (λ n p, match Ordinal kv (po_Name p) with Some ord => n `max` (ord + 1) | None => n end) pods replicas.

(** The pods observed and asked, before [trackUnreachable] fills its field. *)
Definition asked (byOrdinal : gmap nat pod_object) (ask : nat → answers) (i : nat) : PodObs :=
  let p := podObs i (byOrdinal !! i) in
  match byOrdinal !! i with Some _ => askNode kv i (ask i) p | None => p end.

Definition with_unreachable (byOrdinal : gmap nat pod_object) (unreachable : gmap string Z) (i : nat) (p : PodObs) : PodObs :=
  match byOrdinal !! i with
  | Some o => if Planner.reachable p then p
              else match unreachable !! po_UID o with Some t => set_UnreachableSince p t | None => p end
  | None => p
  end.

Definition observe (now : Z) (sts : get sts_object) (cm : get cm_object) (claims : option (list string))
    (pods : option (list pod_object)) (ask : nat → answers) (unreachable : gmap string Z)
    : option (Observation * gmap string Z) :=
  let osts := match sts with Found s => Some (Some (statefulSetObs s)) | NotFound => Some None | GetFailed => None end in
  let ocm :=
    match cm with
    | Found c => Some (Some (match ParseConfigMap c with Ok (e, m) => mkCM e m false | Err _ => mkCM 0 ∅ true end))
    | NotFound => Some None
    | GetFailed => None
    end in
  match osts, ocm, claims, pods with
  | Some osts, Some ocm, Some claims, Some pods =>
      let byOrdinal := by_ordinal pods in
      let n := pod_count (match osts with Some s => Replicas s | None => 0 end) pods in
      let ps := asked byOrdinal ask <$> seq 0 n in
      let seen := (λ p : nat * pod_object, (po_UID p.2, Planner.reachable (asked byOrdinal ask p.1))) <$> map_to_list byOrdinal in
      let unreachable := trackUnreachable now seen unreachable in
      Some (mkObs now kv osts ocm (imap (with_unreachable byOrdinal unreachable) ps) (omap claim_ordinal claims), unreachable)
  | _, _, _, _ => None
  end.
End observe.

(** ** What an observation is worth *)

Section sound.
Context `{!Unicode} `{!JsonCodec membershipFile} `{!JsonCodec handoffFile}.
Context `{!JsonRoundTrip membershipFile mf_ok, !JsonRoundTrip handoffFile hf_ok}.
Context (posted : N → gmap string string → Prop) (N0 : nat).
Hypothesis posted_text : ∀ e m, posted e m → members_text_ok m.
Context (c0 : KVCluster) (text : json → string) (trimmed : raw → string) (ttext : string → string).

(** The world of the operator's model, as the nodes' state: what each holds and
    the epoch its last completed handoff was for. *)
Definition summary (d : dnode) : nodev :=
  let n := d_node d in mkNode (epoch (membership n)) (members (membership n)) (epoch (handoffBase (ho n))).
Definition represents (s : dstate) (w : world) : Prop :=
  ∀ i, w_node w !! i = summary <$> d_nodes s !! MemberID c0 i.

Definition nodes_fit (s : dstate) : Prop := ∀ i d, d_nodes s !! i = Some d → node_fits (d_node d).

(** The nodes run on while they are asked, from the moment [lo] to [hi]. *)
Context (tr : nat → dstate) (lo hi : nat).

(** The pod's node at some moment of it. *)
Definition during (i : nat) (n : node) : Prop := ∃ t, lo ≤ t ≤ hi ∧ node_at tr (MemberID c0 i) t n.

(** Answers that a pod's node gives: none; its membership, each part as it is
    at some moment; and, if the second call gets through, what the wait comes
    to, whose looks follow the moment of the first answer. *)
Inductive answered_by (i : nat) : answers → Prop :=
  | silent e h : answered_by i (mkAnswers (Err e) h)
  | answers_membership n1 n2 n3 ended err :
      during i n1 → during i n2 → during i n3 →
      answered_by i (mkAnswers (GetMembership text trimmed (Some (handleGetMembership (Some (n1, n2, n3))))) (None, ended, err))
  | answers_both t n1 n2 n3 looks waited m1 m2 m3 :
      lo ≤ t ≤ hi → node_at tr (MemberID c0 i) t n1 → during i n2 → during i n3 →
      looks_at tr (MemberID c0 i) t hi looks → WaitDrained looks (epoch (membership n1)) = Some waited →
      during i m1 → during i m2 → during i m3 →
      answered_by i
        (mkAnswers (GetMembership text trimmed (Some (handleGetMembership (Some (n1, n2, n3)))))
           (Handoff_call text trimmed (Some (handleHandoff ttext (Some (m1, m2, m3)) (handoff_epoch_param (epoch (membership n1)))
              handoff_timeout_param (Some 1000000000%Z) waited)))).

(** What a membership that is observed says of the node. *)
Definition membership_seen (i : nat) (m : Planner.Membership) : Prop :=
  (∃ n, during i n ∧ m_Epoch m = epoch (membership n) ∧ m_Members m = members (membership n)) ∧
  (h_Done m = true → ∃ n, during i n ∧ (h_Epoch m ≤ epoch (handoffBase (ho n)))%N) ∧
  (∀ t, hi ≤ t → ∃ d, d_nodes (tr t) !! MemberID c0 i = Some d ∧ (m_Epoch m ≤ epoch (membership (d_node d)))%N).

(** What it says that a node has drained for the epoch [e]: its handoff had
    completed, and it was a member of the view it loaded after that, or every
    other member of that view is at the epoch from then on. *)
Definition drain_seen (i : nat) (e : N) : Prop :=
  ∃ nh nv, during i nh ∧ (e ≤ epoch (handoffBase (ho nh)))%N ∧ during i nv ∧ (e ≤ epoch (membership nv))%N ∧
    (IsMember nv = true ∨
     ∀ j, j ∈ dom (members (membership nv)) → j ≠ MemberID c0 i →
       ∀ t, hi ≤ t → ∃ d, d_nodes (tr t) !! j = Some d ∧ (e ≤ epoch (membership (d_node d)))%N).

Definition pod_seen (i : nat) (p : PodObs) : Prop :=
  (∀ m, pod_Membership p = Some m → membership_seen i m) ∧
  (∀ h, Drain p = Some h → ∃ m, pod_Membership p = Some m ∧ d_Epoch h = m_Epoch m ∧ m_Members m !! MemberID c0 i = None ∧
     (d_Drained h = true → drain_seen i (d_Epoch h))).

Context (Hex : execution posted N0 tr) (Hfit : ∀ t, lo ≤ t ≤ hi → nodes_fit (tr t)).

Lemma during_fits i n : during i n → node_fits n.
Proof. intros (t & Ht & d & Hd & <-). by apply (Hfit t Ht (MemberID c0 i)). Qed.

Lemma answer_seen i n1 n2 n3 :
  during i n1 → during i n2 →
  membership_seen i (planner_membership (mkKvMembership (epoch (membership n1)) (members (membership n1))
    (view_fingerprint (membership n1)) (kv_status (handoffStatus (ho n2))) (PeerStatuses n3))).
Proof.
  intros H1 H2. split; [by exists n1|]. split.
  - cbn. intros Hd. exists n2. split; [done|]. destruct H2 as (t & Ht & d & Hl & <-).
    exact (hok_done _ _ _ (proj2 (di_nodes _ _ _ (execution_inv posted N0 posted_text tr t Hex) _ _ Hl)) Hd).
  - intros t' Ht'. destruct H1 as (t & Ht & d & Hl & <-).
    by destruct (execution_later posted N0 posted_text tr t t' Hex ltac:(lia) _ _ Hl) as (d' & ? & ?); exists d'.
Qed.

(** A node's own word that it has drained. *)
Lemma drained_seen i t n1 looks :
  lo ≤ t ≤ hi → node_at tr (MemberID c0 i) t n1 → looks_at tr (MemberID c0 i) t hi looks →
  WaitDrained looks (epoch (membership n1)) = Some None → members (membership n1) !! MemberID c0 i = None →
  drain_seen i (epoch (membership n1)).
Proof.
  intros Ht Hn Hl Hw Hnm. assert (0 < epoch (membership n1))%N as Hpos.
  { destruct (decide (epoch (membership n1) = 0%N)) as [E|]; [|lia]. destruct Hn as (d & Hd & <-).
    destruct (di_nodes _ _ _ (execution_inv posted N0 posted_text tr t Hex) _ _ Hd) as [Hv _].
    pose proof (vo_self _ _ _ _ Hv E) as Hm. unfold IsMember, is_member in Hm.
    rewrite (vo_id _ _ _ _ Hv), Hnm in Hm. by apply bool_decide_eq_true in Hm as []. }
  destruct (drained_moments posted N0 posted_text tr _ looks _ t hi Hex Hpos Hl Hw)
    as (th & tv & nh & nv & H1 & H2 & H3 & H4 & H5 & H6 & H7).
  exists nh, nv. split_and!; [exists th; split; [lia|done]|done|exists tv; split; [lia|done]|done|done].
Qed.

Lemma askNode_seen kv i a p :
  Name kv = Name c0 → answered_by i a → pod_Membership p = None → Drain p = None → pod_seen i (askNode kv i a p).
Proof.
  intros En Ha Hp Hdr. assert (MemberID kv i = MemberID c0 i) as Eid by (unfold MemberID; by rewrite En).
  assert (pod_seen i p) as Hnone by (split; [by rewrite Hp|by rewrite Hdr]).
  assert (∀ n1 n2 n3, during i n1 → during i n2 →
    pod_seen i (set_Membership p (planner_membership (mkKvMembership (epoch (membership n1)) (members (membership n1))
      (view_fingerprint (membership n1)) (kv_status (handoffStatus (ho n2))) (PeerStatuses n3))))) as Hmem.
  { intros n1 n2 n3 H1 H2. split; [|cbn; by rewrite Hdr]. intros m [= <-]. by apply answer_seen. }
  destruct Ha as [e h|n1 n2 n3 ended err H1 H2 H3|t n1 n2 n3 looks waited m1 m2 m3 Ht H1 H2 H3 Hl Hw M1 M2 M3];
    unfold askNode; cbn [a_Membership a_Handoff]; [done|..].
  - destruct (body_fits text (handleGetMembership (Some (n1, n2, n3))).2) eqn:Eb.
    2: { by destruct (cut_off text trimmed _ Eb) as ((err' & ->) & _). }
    rewrite GetMembership_exact by eauto using during_fits. cbn [km_Members]. destruct (members _ !! _); by apply Hmem.
  - assert (during i n1) as H1' by by exists t.
    destruct (body_fits text (handleGetMembership (Some (n1, n2, n3))).2) eqn:Eb.
    2: { by destruct (cut_off text trimmed _ Eb) as ((err' & ->) & _). }
    rewrite GetMembership_exact by eauto using during_fits. cbn [km_Members]. rewrite Eid.
    destruct (members (membership n1) !! MemberID c0 i) eqn:Em; [by apply Hmem|].
    match goal with |- context [Handoff_call text trimmed (Some ?a)] => destruct (body_fits text a.2) eqn:Eb' end.
    2: { destruct (cut_off text trimmed _ Eb') as (_ & _ & err' & ->). by apply Hmem. }
    rewrite Handoff_exact; [|by eapply during_fits|by eapply during_fits|by apply (during_fits i n1)|done].
    assert (∀ q, q = set_Drain (set_Membership p (planner_membership (mkKvMembership (epoch (membership n1)) (members (membership n1))
      (view_fingerprint (membership n1)) (kv_status (handoffStatus (ho n2))) (PeerStatuses n3)))) (planner_handoff
      (mkKvHandoff (epoch (membership n1)) (IsMember m1) (match waited with None => true | _ => false end) (kv_status (handoffStatus (ho m2))) (PeerStatuses m3)))
      → pod_seen i q) as Hq.
    { intros q ->. destruct (Hmem n1 n2 n3 H1' H2) as [Hm _]. split; [exact Hm|]. intros h [= <-].
      eexists. split; [reflexivity|]. split; [done|]. split; [done|]. cbn. destruct waited; [done|]. intros _. by apply (drained_seen i t n1 looks). }
    destruct waited as [[]|]; by apply Hq.
Qed.

(** If what the model's world holds of the nodes does not change meanwhile, the
    pods are seen as they are in it. *)
Lemma pod_seen_truth w i p :
  lo ≤ hi → (∀ t, lo ≤ t ≤ hi → represents (tr t) w) → pod_seen i p → pod_truth c0 w i p.
Proof.
  intros Hlh Hrep [Hm Hd].
  assert (∀ n, during i n → w_node w !! i = Some (mkNode (epoch (membership n)) (members (membership n)) (epoch (handoffBase (ho n))))) as Hw.
  { intros n (t & Ht & d & Hl & <-). by rewrite (Hrep t Ht), Hl. }
  split.
  - intros m Em. destruct (Hm m Em) as ((n & Hn & E1 & E2) & Hdone & _). eexists. split; [by apply Hw|]. cbn. split; [done|]. split; [done|].
    intros (n' & Hn' & Hle)%Hdone. pose proof (Hw n Hn) as W1. rewrite (Hw n' Hn') in W1. injection W1 as _ _ <-. done.
  - intros h Eh Hdr. destruct (Hd h Eh) as (m & Em & He & Hnm & Hs). destruct (Hs Hdr) as (nh & nv & Hh & Hb & Hv & Hev & Hc).
    destruct (Hm m Em) as ((n & Hn & E1 & E2) & _ & _). eexists. split; [by apply (Hw nv)|].
    pose proof (Hw n Hn) as W1. rewrite (Hw nv Hv) in W1. injection W1 as W11 W12 W13.
    pose proof (Hw nh Hh) as W2. rewrite (Hw nv Hv) in W2. injection W2 as W21 W22 W23. cbn. split; [congruence|].
    intros j Hj Hne. destruct Hc as [Hc|Hc].
    + exfalso. unfold IsMember, is_member in Hc. apply bool_decide_eq_true in Hc as [x Hx].
      destruct Hv as (t & Ht & d & Hl & <-).
      rewrite (vo_id _ _ _ _ (proj1 (di_nodes _ _ _ (execution_inv posted N0 posted_text tr t Hex) _ _ Hl))) in Hx.
      rewrite W12, <-E2, Hnm in Hx. done.
    + destruct (Hc (MemberID c0 j) Hj) with (t := hi) as (u & Hu & Hle); [by intros ->%(inj (MemberID c0))|lia|].
      exists (summary u). by rewrite (Hrep hi ltac:(lia)), Hu.
Qed.

Lemma claim_ordinal_spec kv name i :
  Name kv = Name c0 → claim_ordinal kv name = Some i → name = "data-" +:+ MemberID c0 i.
Proof.
  intros En. unfold claim_ordinal. destruct (CutPrefix "data-" name) as [id|] eqn:E; [|done]. apply CutPrefix_Some in E as ->.
  intros ->%Ordinal_Some. unfold MemberID. by rewrite En.
Qed.

Lemma claim_ordinal_MemberID kv i : Name kv = Name c0 → int_ok i → claim_ordinal kv ("data-" +:+ MemberID c0 i) = Some i.
Proof.
  intros En Hi. unfold claim_ordinal. rewrite (proj2 (CutPrefix_Some _ _ _) eq_refl).
  assert (MemberID c0 i = MemberID kv i) as -> by (unfold MemberID; by rewrite En). by apply Ordinal_MemberID.
Qed.

Lemma with_unreachable_seen byOrdinal u i p : pod_seen i p → pod_seen i (with_unreachable byOrdinal u i p).
Proof. intros [Hm Hd]. unfold with_unreachable. by repeat case_match. Qed.

Lemma asked_seen kv byOrdinal ask i : Name kv = Name c0 → answered_by i (ask i) → pod_seen i (asked kv byOrdinal ask i).
Proof.
  intros En Ha. unfold asked.
  assert (∀ o, pod_Membership (podObs i o) = None ∧ Drain (podObs i o) = None) as Hn.
  { intros [o|]; [|done]. unfold podObs. by destruct (fold_left _ _ _). }
  destruct (Hn (byOrdinal !! i)) as [H1 H2]. destruct (byOrdinal !! i); [by apply askNode_seen|].
  split; [by rewrite H1|by rewrite H2].
Qed.

(** The objects read are those of the model's world. *)
Definition objects_read (w : world) (kv : KVCluster) (sts : get sts_object) (cm : get cm_object) (claims : list string) : Prop :=
  Namespace kv = Namespace c0 ∧ spec_Replicas kv = w_spec w ∧
  match w_sts w, sts with Some r, Found o => default 1 (so_Replicas o) = r | None, NotFound => True | _, _ => False end ∧
  match w_cm w, cm with Some em, Found o => ParseConfigMap o = Ok em | None, NotFound => True | _, _ => False end ∧
  (∀ i, i ∈ w_pvc w → int_ok i) ∧ (∀ i, "data-" +:+ MemberID c0 i ∈ claims ↔ i ∈ w_pvc w).

(** C22: what the operator may believe of what it observes.  The nodes are
    those of a cluster that runs on while they are asked, one by one, each
    answering through the admin API, with what it holds at the moments it looks
    (its counters being machine integers), or not at all.  If the objects can be read, [observe] succeeds, and of each
    pod: (1) a membership observed is one its node held during the
    observation, a finished handoff was finished then, and the node is at that
    epoch or later from the end of the observation on; (2) whether it has
    drained is asked only of a node outside its own membership and for that
    epoch, and if it says so, its handoff had completed and every other member of
    the view it then loaded (unless the node had become a member again) is at
    that epoch from the end of the observation on.  (3) If moreover views and
    completed handoffs do not change during the observation and the objects
    read are those of the model's world, then what is observed is an
    observation of that world, as the operator's guarantees require. *)
Theorem observation_sound kv now sts cm claims pods ask unreachable :
  lo ≤ hi → Name kv = Name c0 → sts ≠ GetFailed → cm ≠ GetFailed → (∀ i, answered_by i (ask i)) →
  ∃ obs u, observe kv now sts cm (Some claims) (Some pods) ask unreachable = Some (obs, u) ∧
    (∀ i p, Pods obs !! i = Some p → pod_seen i p) ∧
    (∀ w, (∀ t, lo ≤ t ≤ hi → represents (tr t) w) → objects_read w kv sts cm claims → observes c0 w obs).
Proof.
  intros Hlh En Hs Hc Hask.
  assert (∃ osts, (match sts with Found o => Some (Some (statefulSetObs o)) | NotFound => Some None | GetFailed => None end) = Some osts ∧
    ∀ w, match w_sts w, sts with Some r, Found o => default 1 (so_Replicas o) = r | None, NotFound => True | _, _ => False end →
      Replicas <$> osts = w_sts w) as (osts & E1 & F1).
  { destruct sts as [o| |]; [..|done]; eexists; (split; [reflexivity|]); intros w Hw; destruct (w_sts w) as [r|]; try done. by subst r. }
  assert (∃ ocm, (match cm with
    | Found c => Some (Some (match ParseConfigMap c with Ok (e, m) => mkCM e m false | Err _ => mkCM 0 ∅ true end))
    | NotFound => Some None | GetFailed => None end) = Some ocm ∧
    ∀ w, match w_cm w, cm with Some em, Found o => ParseConfigMap o = Ok em | None, NotFound => True | _, _ => False end →
    match w_cm w, ocm with
    | Some (e, m), Some cm => cm_Epoch cm = e ∧ cm_Members cm = m ∧ cm_Invalid cm = false | None, None => True | _, _ => False end) as (ocm & E2 & F2).
  { destruct cm as [o| |]; [..|done]; eexists; (split; [reflexivity|]); intros w Hw; destruct (w_cm w) as [[e m]|]; try done. by rewrite Hw. }
  unfold observe. rewrite E1, E2. eexists _, _. split; [reflexivity|]. cbn [Pods].
  match goal with |- (∀ i p, ?l !! i = Some p → _) ∧ _ => assert (∀ i p, l !! i = Some p → pod_seen i p) as Hpods end.
  { intros i p. rewrite list_lookup_imap. destruct ((_ <$> seq 0 _) !! i) as [q|] eqn:Eq; [|done]. intros [= <-].
    apply list_lookup_fmap_Some in Eq as (j & -> & Hj). apply lookup_seq in Hj as [-> _].
    apply with_unreachable_seen. by apply asked_seen. }
  split; [exact Hpods|]. intros w Hrep (Ens & Er & Hsts & Hcm & Hint & Hclaims).
  split; cbn [Cluster ConfigMap StatefulSet PVCs Pods]; [done|done|by apply F2|by apply F1| |].
  - intros i. rewrite <-Hclaims, list_elem_of_omap. split.
    + intros (name & Hin & ->%claim_ordinal_spec); [done|done].
    + intros Hin. exists ("data-" +:+ MemberID c0 i). split; [done|]. apply claim_ordinal_MemberID; [done|]. by apply Hint, Hclaims.
  - intros i p Hp. apply pod_seen_truth; [done|done|]. by apply Hpods.
Qed.
End sound.

(** ** Since when a pod has not answered *)

Lemma track_fold now pods u uid :
  NoDup pods.*1 →
  fold_left (λ u p, track_one now p.1 p.2 u) pods u !! uid =
  if bool_decide ((uid, false) ∈ pods) then Some (default now (u !! uid))
  else if bool_decide ((uid, true) ∈ pods) then None else u !! uid.
Proof.
  revert u. induction pods as [|[q b] pods IH]; intros u Hnd.
  { cbn. rewrite !bool_decide_false by set_solver. done. }
  apply NoDup_cons in Hnd as [Hq Hnd]. cbn [fold_left fst snd]. rewrite IH by done.
  destruct (decide (uid = q)) as [->|Hne].
  - assert (∀ b', (q, b') ∉ pods) as Hno by (intros b' Hin; apply Hq, list_elem_of_fmap; by exists (q, b')).
    rewrite !(bool_decide_false ((q, _) ∈ pods)) by apply Hno. unfold track_one. destruct b.
    + rewrite bool_decide_false by (intros [?|?]%elem_of_cons; [done|by eapply Hno]). rewrite bool_decide_true by by left. by rewrite lookup_delete_eq.
    + rewrite bool_decide_true by by left. destruct (u !! q) as [t|] eqn:E; [by rewrite E|by rewrite lookup_insert_eq].
  - assert (track_one now q b u !! uid = u !! uid) as ->.
    { unfold track_one. destruct b; [by rewrite lookup_delete_ne|]. destruct (u !! q); [done|by rewrite lookup_insert_ne]. }
    assert (∀ b', bool_decide ((uid, b') ∈ (q, b) :: pods) = bool_decide ((uid, b') ∈ pods)) as Hb.
    { intros b'. apply bool_decide_ext. rewrite elem_of_cons. naive_solver. }
    by rewrite !Hb.
Qed.

Lemma trackUnreachable_lookup now pods u uid :
  NoDup pods.*1 →
  trackUnreachable now pods u !! uid = if bool_decide ((uid, false) ∈ pods) then Some (default now (u !! uid)) else None.
Proof.
  intros Hnd. unfold trackUnreachable. apply option_eq. intros t. rewrite map_lookup_filter_Some, track_fold by done. cbn.
  case_bool_decide as Hf.
  - assert (uid ∈ pods.*1) by (apply list_elem_of_fmap; by exists (uid, false)). naive_solver.
  - case_bool_decide as Ht; [naive_solver|]. split; [|done]. intros [_ ([q b] & E & Hin)%list_elem_of_fmap]. cbn in E. subst q.
    by destruct b.
Qed.

(** Rounds of observation, each with its time and the pods that were there:
    whether each answered. *)
Definition round : Type := Z * list (string * bool).
Definition track (h : list round) : gmap string Z := fold_left (λ u r, trackUnreachable r.1 r.2 u) h ∅.
Definition down (uid : string) (r : round) : Prop := (uid, false) ∈ r.2.

(** How long a pod has not answered.  Over any rounds of observation, the
    operator holds a time for a pod exactly when the pod was there and did not
    answer in the last round; the time is that of the first of the rounds,
    without a gap up to the last, in which it did not. *)
Theorem unreachable_since_first_miss h uid t :
  Forall (λ r, NoDup (r.2).*1) h →
  track h !! uid = Some t ↔
  ∃ pre r post, h = pre ++ r :: post ∧ r.1 = t ∧ Forall (down uid) (r :: post) ∧ (∀ q, last pre = Some q → ¬ down uid q).
Proof.
  revert t. induction h as [|r h IH] using rev_ind; intros t.
  { intros _. split; [done|]. by intros ([] & ? & ? & ? & _). }
  intros [Hh Hr]%Forall_app. rewrite Forall_singleton in Hr. unfold track in *. rewrite fold_left_app. cbn [fold_left].
  rewrite trackUnreachable_lookup by done. case_bool_decide as Hd.
  - destruct (fold_left _ h ∅ !! uid) as [t0|] eqn:E; cbn [default].
    + destruct (proj1 (IH t0 Hh) eq_refl) as (pre & r0 & post & -> & Et & Hf & Hl). split.
      * intros [= <-]. exists pre, r0, (post ++ [r]). rewrite <-app_assoc. split; [done|]. split; [done|]. split; [|done].
        by apply (Forall_app _ (r0 :: post) [r]); split; [|apply Forall_singleton].
      * intros (pre' & r' & post' & Eh & Et' & Hf' & Hl'). destruct post' as [|x post' _] using rev_ind.
        { exfalso. apply app_inj_tail in Eh as [Eh <-]. destruct (last pre') as [q|] eqn:El.
          - apply (Hl' q eq_refl). subst pre'. rewrite last_app_cons in El. apply last_Some in El as (l0 & El).
            rewrite El in Hf. apply Forall_app in Hf as [_ Hf]. by rewrite Forall_singleton in Hf.
          - apply last_None in El. subst pre'. by destruct pre. }
        rewrite app_comm_cons, app_assoc in Eh. apply app_inj_tail in Eh as [Eh _].
        assert (Some t0 = Some t); [|assumption]. apply (IH t Hh). exists pre', r', post'. split; [done|]. split; [done|]. split; [|done].
        rewrite app_comm_cons in Hf'. by apply Forall_app in Hf' as [? _].
    + split.
      * intros [= <-]. exists h, r, []. split; [done|]. split; [done|]. split; [by apply Forall_singleton|].
        intros q Hq Hdq. apply last_Some in Hq as (h' & ->). apply Forall_app in Hh as [Hh' Hq]. rewrite Forall_singleton in Hq.
        rewrite fold_left_app in E. cbn in E. rewrite trackUnreachable_lookup, bool_decide_true in E by done. done.
      * intros (pre' & r' & post' & Eh & Et' & Hf' & Hl'). destruct post' as [|x post' _] using rev_ind.
        { apply app_inj_tail in Eh as [_ <-]. by rewrite Et'. }
        exfalso. rewrite app_comm_cons, app_assoc in Eh. apply app_inj_tail in Eh as [Eh _].
        assert (None = Some t); [|done]. apply (IH t Hh). exists pre', r', post'. split; [done|]. split; [done|]. split; [|done].
        rewrite app_comm_cons in Hf'. by apply Forall_app in Hf' as [? _].
  - split; [done|]. intros (pre' & r' & post' & Eh & _ & Hf' & _). exfalso. apply Hd.
    destruct post' as [|x post' _] using rev_ind; [apply app_inj_tail in Eh as [_ <-]; by apply Forall_cons in Hf' as [? _]|].
    rewrite app_comm_cons, app_assoc in Eh. apply app_inj_tail in Eh as [_ <-]. rewrite app_comm_cons in Hf'.
    apply Forall_app in Hf' as [_ Hf']. by rewrite Forall_singleton in Hf'.
Qed.

Lemma unreachable_since_first_miss_witness :
  track [(1, [("a", true)]); (2, [("a", false); ("b", false)]); (3, [("b", true); ("a", false)])]%Z !! "a" = Some 2%Z.
Proof.
  apply (unreachable_since_first_miss
    [(1, [("a", true)]); (2, [("a", false); ("b", false)]); (3, [("b", true); ("a", false)])]%Z "a" 2%Z).
  - repeat constructor; cbn; try (rewrite ?elem_of_cons, ?elem_of_nil; intuition discriminate).
  - exists [(1, [("a", true)])]%Z, (2, [("a", false); ("b", false)])%Z, [(3, [("b", true); ("a", false)])]%Z.
    split; [reflexivity|]. split; [reflexivity|]. split.
    + repeat constructor; unfold down; cbn; rewrite ?elem_of_cons; auto.
    + intros q [= <-]. unfold down. cbn. rewrite elem_of_cons, elem_of_nil. intuition discriminate.
Defined.

(** ** The three nodes of Drain.v, observed once the third has drained *)

Definition obs_cluster : KVCluster := mkCluster "kv" "default" 2 2 0 None None.

#[local] Instance node_fits_dec n : Decision (node_fits n).
Proof. unfold node_fits, status_fits, in_int. apply _. Defined.

Section witnesses.
#[local] Existing Instance ascii_print.
#[local] Existing Instance toy_mf_json.
#[local] Existing Instance toy_hf_json.
#[local] Existing Instance toy_mf_rt'.
#[local] Existing Instance toy_hf_rt'.

Definition the_ids : list string := ["kv-0"; "kv-1"; "kv-2"].
Definition obs_world : world :=
  mkWorld 2 (Some (0%N, Members obs_cluster 3)) (Some 3)
    (list_to_map ((λ i, (i, summary (the_node s_drained (MemberID obs_cluster i)))) <$> [0; 1; 2])) {[0; 1; 2]}.

Lemma s_drained_dom : dom (d_nodes s_drained) = list_to_set the_ids.
Proof. apply (bool_decide_unpack _). vm_compute. exact I. Qed.

Lemma s_drained_fit : nodes_fit s_drained.
Proof.
  intros i d Hi. assert (i ∈ the_ids) as Hin.
  { assert (i ∈ dom (d_nodes s_drained)) as Hin by (apply elem_of_dom; by exists d). rewrite s_drained_dom in Hin. by apply elem_of_list_to_set in Hin. }
  assert (d = the_node s_drained i) as -> by (unfold the_node; by rewrite Hi). clear Hi.
  repeat (apply elem_of_cons in Hin as [->|Hin]; [apply (bool_decide_unpack _); vm_compute; exact I|]). by apply elem_of_nil in Hin.
Qed.

Lemma s_drained_represents : represents obs_cluster s_drained obs_world.
Proof.
  intros i. destruct i as [|[|[|i]]]; [vm_compute; reflexivity..|]. 
  assert (d_nodes s_drained !! MemberID obs_cluster (S (S (S i))) = None) as ->.
  { apply not_elem_of_dom. rewrite s_drained_dom, elem_of_list_to_set. unfold the_ids.
    change ["kv-0"; "kv-1"; "kv-2"] with [MemberID obs_cluster 0; MemberID obs_cluster 1; MemberID obs_cluster 2].
    rewrite !elem_of_cons, elem_of_nil. intros [E|[E|[E|[]]]]; by apply (inj (MemberID obs_cluster)) in E. }
  apply not_elem_of_list_to_map_1. cbn [fmap list_fmap fst]. rewrite !elem_of_cons, elem_of_nil. lia.
Qed.

Definition obs_claims : list string := ["data-kv-0"; "data-kv-1"; "data-kv-2"; "unrelated"].

(** The drained node answers, the other two do not. *)
Definition obs_ask (i : nat) : answers :=
  if bool_decide (i = 2) then
    mkAnswers (GetMembership (λ _, "") (λ _, "") (Some (handleGetMembership (Some (leaver, leaver, leaver)))))
      (Handoff_call (λ _, "") (λ _, "") (Some (handleHandoff (λ _, "") (Some (leaver, leaver, leaver)) (handoff_epoch_param (epoch (membership leaver)))
         handoff_timeout_param (Some 1000000000%Z) None)))
  else mkAnswers (Err Transport) (None, false, None).

Lemma obs_claims_ok i : "data-" +:+ MemberID obs_cluster i ∈ obs_claims ↔ i ∈ w_pvc obs_world.
Proof.
  cbn [w_pvc obs_world]. rewrite !elem_of_union, !elem_of_singleton. split.
  - intros Hin. unfold obs_claims in Hin. rewrite !elem_of_cons, elem_of_nil in Hin.
    change "data-kv-0" with ("data-" +:+ MemberID obs_cluster 0) in Hin. change "data-kv-1" with ("data-" +:+ MemberID obs_cluster 1) in Hin.
    change "data-kv-2" with ("data-" +:+ MemberID obs_cluster 2) in Hin.
    destruct Hin as [E|[E|[E|[E|[]]]]]; [..|done]; apply (inj (String.append "data-")), (inj (MemberID obs_cluster)) in E; lia.
  - intros [[->| ->]| ->]; apply (bool_decide_unpack _); vm_compute; exact I.
Qed.

Lemma observation_sound_witness :
  ∃ obs u, observe obs_cluster 5 (Found (mkStsObj (Some 3) 1 1 3 2 "" "" true))
      (Found (mkCmObj (Some (Some (0%N, (λ i, (MemberID obs_cluster i, MemberAddress obs_cluster i)) <$> [0; 1; 2])))))
      (Some obs_claims) (Some [mkPodObj "kv-2" "uid-2" false (Some 1%Z) []]) obs_ask ∅ = Some (obs, u) ∧
    observes obs_cluster obs_world obs.
Proof.
  assert (Hseen : node_at (λ _, s_drained) "kv-2" 0 leaver).
  { exists (the_node s_drained "kv-2"). split; [|reflexivity]. apply present_the. vm_compute. reflexivity. }
  assert (Hd : during obs_cluster (λ _, s_drained) 0 0 2 leaver) by (exists 0; split; [lia|exact Hseen]).
  destruct (observation_sound removal 2 removal_text obs_cluster (λ _, "") (λ _, "") (λ _, "") (λ _, s_drained) 0 0
    (conj s_drained_reach (λ _, or_introl eq_refl)) (λ _ _, s_drained_fit) obs_cluster 5
    (Found (mkStsObj (Some 3) 1 1 3 2 "" "" true))
    (Found (mkCmObj (Some (Some (0%N, (λ i, (MemberID obs_cluster i, MemberAddress obs_cluster i)) <$> [0; 1; 2])))))
    obs_claims [mkPodObj "kv-2" "uid-2" false (Some 1%Z) []] obs_ask ∅) as (obs & u & Ho & _ & Hw).
  - lia.
  - reflexivity.
  - discriminate.
  - discriminate.
  - intros i. unfold obs_ask. case_bool_decide as E; [subst i|constructor].
    apply (answers_both obs_cluster (λ _, "") (λ _, "") (λ _, "") (λ _, s_drained) 0 0 2 0 leaver leaver leaver
      [(leaver, None); (leaver, None); (leaver, None)] None leaver leaver leaver); [lia|exact Hseen|exact Hd|exact Hd| | |exact Hd..].
    + exists 0. split; [lia|]. split; [exact Hseen|]. exists 0. split; [lia|]. split; [exact Hseen|].
      exists 0. split; [lia|]. split; [exact Hseen|exact I].
    + vm_compute. reflexivity.
  - exists obs, u. split; [exact Ho|]. apply Hw; [intros t _; exact s_drained_represents|]. split; [reflexivity|]. split; [reflexivity|].
    split; [reflexivity|]. split; [vm_compute; reflexivity|]. split; [|exact obs_claims_ok].
    intros i. cbn [w_pvc obs_world]. rewrite !elem_of_union, !elem_of_singleton. intros Hi. unfold int_ok, max_int. lia.
Defined.
End witnesses.
