(* ===== verification/Lifecycle.v ===== *)
(** * Starting and stopping a node (internal/app/app.go, internal/node/loops.go,
      node.go [Close], heartbeat.go [goBackground], coordinate.go [drainReplication])

    The goroutines a node runs in the background, what [Close] waits for before
    it closes what they use, and the order in which [Run] brings a process up
    and takes it down again, on every path.

    Shown: nothing that still runs finds a connection or a store closed under
    it, closing always can finish, and [Run] stops what it started in the order
    it promises. *)

From stdpp Require Import base list relations.
From Stdlib Require Import Lia.
From S2P Require Import Prelude.

Open Scope nat_scope.

(** ** Background work *)

(** A goroutine counted by [bgWG]: a loop, between rounds or in one, or a
    function run once; and whether its context has been cancelled. *)
Inductive kind := Loop | Once.
Record goroutine := mkGo { g_kind : kind; g_round : bool; g_cancelled : bool }.

(** How far [Close] has got. *)
Inductive progress := NotClosing | StoppingLoops | LoopsStopped | WaitingDrains | DrainsDone | ClientsDown | HintsDown | Closed.

Record life := mkLife {
  bg : list goroutine; bgStopped : bool;
  drains : nat; drainClosing : bool;
  clientsClosed : bool; hintsOpen : bool; engineOpen : bool; closing : progress
}.

Definition set_bg (s : life) (l : list goroutine) : life :=
  mkLife l (bgStopped s) (drains s) (drainClosing s) (clientsClosed s) (hintsOpen s) (engineOpen s) (closing s).
Definition set_drains (s : life) (n : nat) : life :=
  mkLife (bg s) (bgStopped s) n (drainClosing s) (clientsClosed s) (hintsOpen s) (engineOpen s) (closing s).
Definition at_stage (s : life) (p : progress) : life :=
  mkLife (bg s) (bgStopped s) (drains s) (drainClosing s) (clientsClosed s) (hintsOpen s) (engineOpen s) p.

Definition cancel (g : goroutine) : goroutine := mkGo (g_kind g) (g_round g) true.

(** [startLoop] and [goBackground]: nothing once background work was stopped *)
Definition startLoop (s : life) : life := if bgStopped s then s else set_bg s (bg s ++ [mkGo Loop false false]).
Definition goBackground (s : life) : life * bool :=
  if bgStopped s then (s, false) else (set_bg s (bg s ++ [mkGo Once true false]), true).

(** [drainReplication]: whether a drain runs *)
Definition drainReplication (s : life) : life * bool :=
  if drainClosing s then (s, false) else (set_drains s (S (drains s)), true).

(** [StopBackgroundLoops] up to its wait *)
Definition stop_loops (s : life) : life :=
  mkLife (cancel <$> bg s) true (drains s) (drainClosing s) (clientsClosed s) (hintsOpen s) (engineOpen s) (closing s).

(** What goroutines do on their own.  A loop whose context is cancelled may
    still find its ticker ready first. *)
Inductive work : life → life → Prop :=
  | w_round s l g l' : bg s = l ++ g :: l' → g_kind g = Loop → g_round g = false →
      work s (set_bg s (l ++ mkGo Loop true (g_cancelled g) :: l'))
  | w_round_end s l g l' : bg s = l ++ g :: l' → g_kind g = Loop → g_round g = true →
      work s (set_bg s (l ++ mkGo Loop false (g_cancelled g) :: l'))
  | w_loop_exit s l g l' : bg s = l ++ g :: l' → g_kind g = Loop → g_round g = false → g_cancelled g = true →
      work s (set_bg s (l ++ l'))
  | w_once_exit s l g l' : bg s = l ++ g :: l' → g_kind g = Once → work s (set_bg s (l ++ l'))
  | w_drain_end s n : drains s = S n → work s (set_drains s n).

(** The rest of [Close], one step at a time; the waits are guards. *)
Inductive close_step : life → life → Prop :=
  | c_waited s : closing s = StoppingLoops → bg s = [] → close_step s (at_stage s LoopsStopped)
  | c_drain s : closing s = LoopsStopped →
      close_step s (mkLife (bg s) (bgStopped s) (drains s) true (clientsClosed s) (hintsOpen s) (engineOpen s) WaitingDrains)
  | c_drained s : closing s = WaitingDrains → drains s = 0 → close_step s (at_stage s DrainsDone)
  | c_clients s : closing s = DrainsDone →
      close_step s (mkLife (bg s) (bgStopped s) (drains s) (drainClosing s) true (hintsOpen s) (engineOpen s) ClientsDown)
  | c_hints s : closing s = ClientsDown →
      close_step s (mkLife (bg s) (bgStopped s) (drains s) (drainClosing s) (clientsClosed s) false (engineOpen s) HintsDown)
  | c_engine s : closing s = HintsDown →
      close_step s (mkLife (bg s) (bgStopped s) (drains s) (drainClosing s) (clientsClosed s) (hintsOpen s) false Closed).

(** Everything that may happen: calls from outside at any time, [Close] once. *)
Inductive life_step : life → life → Prop :=
  | ls_loop s : life_step s (startLoop s)
  | ls_once s : life_step s (goBackground s).1
  | ls_drain s : life_step s (drainReplication s).1
  | ls_cancel s l g l' : bg s = l ++ g :: l' → life_step s (set_bg s (l ++ cancel g :: l'))
  | ls_stop s : life_step s (stop_loops s)
  | ls_close s : closing s = NotClosing → life_step s (at_stage (stop_loops s) StoppingLoops)
  | ls_work s s' : work s s' → life_step s s'
  | ls_closing s s' : close_step s s' → life_step s s'.

Definition opened : life := mkLife [] false 0 false false true true NotClosing.

(** Something that uses the node's connections and stores is running. *)
Definition in_use (s : life) : Prop := bg s ≠ [] ∨ drains s ≠ 0.

Definition stage (p : progress) : nat :=
  match p with
  | NotClosing => 0 | StoppingLoops => 1 | LoopsStopped => 2 | WaitingDrains => 3 | DrainsDone => 4 | ClientsDown => 5 | HintsDown => 6
  | Closed => 7
  end.

(** What holds at each stage of closing. *)
Record life_ok (s : life) : Prop := {
  lo_stopped : 1 ≤ stage (closing s) → bgStopped s = true;
  lo_bg : 2 ≤ stage (closing s) → bg s = [];
  lo_draining : 3 ≤ stage (closing s) → drainClosing s = true;
  lo_drains : 4 ≤ stage (closing s) → drains s = 0;
  lo_clients : clientsClosed s = true ↔ 5 ≤ stage (closing s);
  lo_hints : hintsOpen s = false ↔ 6 ≤ stage (closing s);
  lo_engine : engineOpen s = false ↔ 7 ≤ stage (closing s);
  lo_cancelled : bgStopped s = true → Forall (λ g, g_cancelled g = true) (bg s)
}.

Lemma bg_some s l g l' : life_ok s → bg s = l ++ g :: l' → stage (closing s) < 2.
Proof. intros Hok E. destruct (decide (2 ≤ stage (closing s))) as [H|]; [|lia]. rewrite (lo_bg s Hok H) in E. by destruct l. Qed.

(** A step that only changes the goroutines. *)
Lemma set_bg_ok s l' :
  life_ok s → stage (closing s) < 2 → (bgStopped s = true → Forall (λ g, g_cancelled g = true) l') → life_ok (set_bg s l').
Proof. intros [] Hst Hc. split; cbn; try done. lia. Qed.

Lemma split_cancelled s l g l' :
  life_ok s → bg s = l ++ g :: l' → bgStopped s = true →
  Forall (λ g, g_cancelled g = true) l ∧ g_cancelled g = true ∧ Forall (λ g, g_cancelled g = true) l'.
Proof. intros Hok E Hs. pose proof (lo_cancelled s Hok Hs) as H. rewrite E in H. apply Forall_app in H as [? [? ?]%Forall_cons]. done. Qed.

Lemma work_ok s s' : work s s' → life_ok s → life_ok s'.
Proof.
  intros Hw Hok. destruct Hw as [s l g l' E Hk Hr|s l g l' E Hk Hr|s l g l' E Hk Hr Hc|s l g l' E Hk|s n E].
  1-4: apply set_bg_ok; [done|by eapply bg_some|]; intros Hs; destruct (split_cancelled s l g l' Hok E Hs) as (? & ? & ?);
    apply Forall_app; split; [done|]; try done; by constructor.
  destruct Hok. split; cbn; try done. intros H4. rewrite lo_drains0 in E by done. done.
Qed.

Lemma life_step_ok s s' : life_step s s' → life_ok s → life_ok s'.
Proof.
  intros Hs Hok. destruct Hs as [s|s|s|s l g l' E|s|s Hn|s s' Hw|s s' Hc].
  - unfold startLoop. destruct (bgStopped s) eqn:Eb; [done|]. apply set_bg_ok; [done| |congruence].
    destruct (decide (1 ≤ stage (closing s))) as [H|]; [pose proof (lo_stopped s Hok H); congruence|lia].
  - unfold goBackground. destruct (bgStopped s) eqn:Eb; [done|]. apply set_bg_ok; [done| |congruence].
    destruct (decide (1 ≤ stage (closing s))) as [H|]; [pose proof (lo_stopped s Hok H); congruence|lia].
  - unfold drainReplication. destruct (drainClosing s) eqn:Eb; [done|]. destruct Hok. split; cbn; try done.
    intros H4. rewrite lo_draining0 in Eb by lia. done.
  - apply set_bg_ok; [done|by eapply bg_some|]. intros Hb. destruct (split_cancelled s l g l' Hok E Hb) as (? & ? & ?).
    apply Forall_app. split; [done|]. by constructor.
  - destruct Hok. split; cbn; try done; [intros H2; by rewrite lo_bg0|]. intros _. by apply Forall_fmap, Forall_true.
  - destruct Hok. rewrite Hn in *. cbn in *.
    split; cbn; try done; try lia; [rewrite lo_clients0; lia|rewrite lo_hints0; lia|rewrite lo_engine0; lia|].
    intros _. by apply Forall_fmap, Forall_true.
  - by eapply work_ok.
  - destruct Hok, Hc as [s E Eb|s E|s E Ed|s E|s E|s E]; rewrite E in *; split; cbn in *; try done; try lia; try (by intuition lia);
      first [intros _; eauto with lia|rewrite lo_clients0; lia|rewrite lo_hints0; lia].
Qed.

(** ** Closing can always finish *)

(** Goroutines that are cancelled can all come to their end. *)
Lemma goroutines_end s :
  Forall (λ g, g_cancelled g = true) (bg s) → rtc work s (set_bg s []).
Proof.
  remember (length (bg s)) as n eqn:En. revert s En. induction n as [|n IH]; intros s En Hc.
  { symmetry in En. apply nil_length_inv in En. destruct s; cbn in *; subst. apply rtc_refl. }
  destruct (bg s) as [|[k r c] l] eqn:E; [done|]. apply Forall_cons in Hc as [Hg Hl]. cbn in Hg, En. subst c.
  assert (rtc work s (set_bg s l)) as Hone.
  { destruct k; [|eapply rtc_once, (w_once_exit s [] (mkGo Once r true) l); [done|done]].
    destruct r; [|eapply rtc_once, (w_loop_exit s [] (mkGo Loop false true) l); done].
    eapply rtc_l; [apply (w_round_end s [] (mkGo Loop true true) l); done|]. apply rtc_once. 
    exact (w_loop_exit (set_bg s (mkGo Loop false true :: l)) [] (mkGo Loop false true) l eq_refl eq_refl eq_refl eq_refl). }
  etransitivity; [exact Hone|]. apply (IH (set_bg s l)); [cbn; lia|done].
Qed.

Lemma drains_end s : rtc work s (set_drains s 0).
Proof.
  remember (drains s) as n eqn:En. revert s En. induction n as [|n IH]; intros s En.
  - destruct s; cbn in *; subst. apply rtc_refl.
  - eapply rtc_l; [by apply (w_drain_end s n)|]. by apply (IH (set_drains s n)).
Qed.

Definition finishing (s s' : life) : Prop := work s s' ∨ close_step s s'.

Lemma work_finishing s s' : rtc work s s' → rtc finishing s s'.
Proof. apply rtc_subrel. by left. Qed.

Lemma closing_ends s : life_ok s → closing s ≠ NotClosing → ∃ s', rtc finishing s s' ∧ closing s' = Closed.
Proof.
  intros Hok Hne.
  assert (∀ s, closing s = HintsDown → ∃ s', rtc finishing s s' ∧ closing s' = Closed) as H6.
  { intros t Ht. eexists. split; [apply rtc_once; right; by apply c_engine|done]. }
  assert (∀ s, closing s = ClientsDown → ∃ s', rtc finishing s s' ∧ closing s' = Closed) as H5.
  { intros t Ht. edestruct H6 as (s' & Hr & Hs'); [|exists s'; split; [eapply rtc_l; [right; by apply c_hints|exact Hr]|done]]. done. }
  assert (∀ s, closing s = DrainsDone → ∃ s', rtc finishing s s' ∧ closing s' = Closed) as H4.
  { intros t Ht. edestruct H5 as (s' & Hr & Hs'); [|exists s'; split; [eapply rtc_l; [right; by apply c_clients|exact Hr]|done]]. done. }
  assert (∀ s, closing s = WaitingDrains → ∃ s', rtc finishing s s' ∧ closing s' = Closed) as H3.
  { intros t Ht. destruct (H4 (at_stage (set_drains t 0) DrainsDone) eq_refl) as (s' & Hr & Hs'). exists s'. split; [|done].
    etransitivity; [apply work_finishing, drains_end|]. eapply rtc_l; [right; by apply c_drained|exact Hr]. }
  assert (∀ s, closing s = LoopsStopped → ∃ s', rtc finishing s s' ∧ closing s' = Closed) as H2.
  { intros t Ht. edestruct H3 as (s' & Hr & Hs'); [|exists s'; split; [eapply rtc_l; [right; by apply c_drain|exact Hr]|done]]. done. }
  destruct (closing s) eqn:E; [done| |by apply H2|by apply H3|by apply H4|by apply H5|by apply H6|by exists s].
  assert (Forall (λ g, g_cancelled g = true) (bg s)) as Hc.
  { apply (lo_cancelled s Hok), (lo_stopped s Hok). rewrite E. cbn. lia. }
  destruct (H2 (at_stage (set_bg s []) LoopsStopped) eq_refl) as (s' & Hr & Hs'). exists s'. split; [|done].
  etransitivity; [by apply work_finishing, goroutines_end|]. eapply rtc_l; [right; by apply c_waited|exact Hr].
Qed.

Lemma opened_ok : life_ok opened.
Proof. split; cbn; try done; try lia; try (split; [done|lia]). Qed.

Lemma life_ok_reachable s : rtc life_step opened s → life_ok s.
Proof. intros Hr. assert (∀ t, rtc life_step t s → life_ok t → life_ok s) as H; [|by apply (H opened Hr), opened_ok].
  intros t Ht. induction Ht as [t|t t' s' Hs _ IH]; [done|]. intros Hok. by eapply IH, life_step_ok. Qed.

(** C33: closing waits for what runs.  Whatever loops, background functions and
    replication drains a node has started and however they interleave with
    [Close]: as long as any of them runs, the node's connections, its hint
    store and its storage engine are open; once background work is stopped
    none starts again; and a [Close] that has begun always can finish, by
    nothing but the goroutines coming to their end. *)
Theorem close_waits_for_background_work s :
  rtc life_step opened s →
  (in_use s → clientsClosed s = false ∧ hintsOpen s = true ∧ engineOpen s = true) ∧
  (bgStopped s = true → startLoop s = s ∧ goBackground s = (s, false)) ∧
  (closing s = Closed → bg s = [] ∧ drains s = 0 ∧ drainReplication s = (s, false) ∧ engineOpen s = false) ∧
  (closing s ≠ NotClosing → ∃ s', rtc finishing s s' ∧ closing s' = Closed).
Proof.
  intros Hok%life_ok_reachable. split_and!.
  - intros Hu. assert (stage (closing s) < 4) as Hst.
    { destruct Hu as [Hb|Hd].
      - destruct (decide (2 ≤ stage (closing s))) as [H|]; [by rewrite (lo_bg s Hok H) in Hb|lia].
      - destruct (decide (4 ≤ stage (closing s))) as [H|]; [by rewrite (lo_drains s Hok H) in Hd|lia]. }
    destruct Hok as [_ _ _ _ Hc Hh He _].
    destruct (clientsClosed s); [apply proj1 in Hc; specialize (Hc eq_refl); lia|].
    destruct (hintsOpen s); [|apply proj1 in Hh; specialize (Hh eq_refl); lia].
    destruct (engineOpen s); [done|]. apply proj1 in He; specialize (He eq_refl); lia.
  - intros Hs. unfold startLoop, goBackground. by rewrite Hs.
  - intros E. unfold drainReplication.
    rewrite (lo_draining s Hok), (lo_bg s Hok), (lo_drains s Hok), (proj2 (lo_engine s Hok)) by (rewrite E; cbn; lia). done.
  - by apply closing_ends.
Qed.

(** A node with a loop in a round and a drain under way is closed. *)
Definition busy : life := at_stage (stop_loops (drainReplication (set_bg (startLoop opened) [mkGo Loop true false])).1) StoppingLoops.

Lemma close_waits_for_background_work_witness :
  rtc life_step opened busy ∧ clientsClosed busy = false ∧ ∃ s', rtc finishing busy s' ∧ closing s' = Closed.
Proof.
  assert (Hr : rtc life_step opened busy).
  { eapply rtc_l; [apply ls_loop|]. eapply rtc_l; [apply ls_work, (w_round _ [] (mkGo Loop false false) []); reflexivity|].
    eapply rtc_l; [apply ls_drain|]. apply rtc_once. apply (ls_close (drainReplication (set_bg (startLoop opened) [mkGo Loop true false])).1). reflexivity. }
  destruct (close_waits_for_background_work busy Hr) as (H1 & _ & _ & H4). split; [exact Hr|]. split.
  - apply H1. left. discriminate.
  - apply H4. discriminate.
Defined.

(** ** The process *)

(** The steps of [Run], by the names it gives them, with [setNode]. *)
Inductive event :=
  | ProbeStarted | NodeOpened | NodeSet | GrpcServing | LoopsStarted | Ready
  | NotReady | GrpcStopped | LoopsStoppedEv | CompactionStopped | NodeClosed | ProbeStopped.

(** What fails on the way. *)
Record env := mkEnv {
  probe_fails : bool; open_fails : bool; membership_fails : bool; serve_fails : bool; close_fails : bool; probe_stop_fails : bool
}.
Inductive run_error := ProbeListen | OpenNode | ApplyMembership | ServeGRPC | Shutdown.

Definition Run (v : env) : list event * option run_error :=
  if probe_fails v then ([], Some ProbeListen)
  else
    let started := [ProbeStarted] in
    if open_fails v then (started ++ [ProbeStopped], Some OpenNode)
    else
      let started := started ++ [NodeOpened] in
      if membership_fails v then (started ++ [NodeClosed; ProbeStopped], Some ApplyMembership)
      else
        let started := started ++ [NodeSet] in
        if serve_fails v then (started ++ [NodeClosed; ProbeStopped], Some ServeGRPC)
        else
          let ran := started ++ [GrpcServing; LoopsStarted; Ready] in
          (ran ++ [NotReady; GrpcStopped; LoopsStoppedEv; CompactionStopped; NodeClosed; ProbeStopped],
           if close_fails v || probe_stop_fails v then Some Shutdown else None).

(** [/livez] and [/readyz] answer 200; the node, if it is set: whether its
    writes are halted, whether it is a member *)
Definition livez (node_halted : option bool) : bool := match node_halted with Some true => false | _ => true end.
Definition readyz (ready : bool) (node_member : option bool) : bool :=
  ready && match node_member with None => true | Some member => member end.

(** What is up, and what each step needs to be up or down. *)
Record up := mkUp { u_probe : bool; u_node : bool; u_grpc : bool; u_loops : bool; u_compaction : bool; u_set : bool; u_ready : bool }.
Definition all_down : up := mkUp false false false false false false false.

Definition may (b : bool) (u : up) : option up := if b then Some u else None.
Definition advance (u : up) (e : event) : option up :=
  match u, e with
  | mkUp p n g l c s r, ProbeStarted => may (negb p) (mkUp true n g l c s r)
  | mkUp p n g l c s r, NodeOpened => may (p && negb n) (mkUp p true g l c s r)
  | mkUp p n g l c s r, NodeSet => may n (mkUp p n g l c true r)
  | mkUp p n g l c s r, GrpcServing => may (n && s && negb g) (mkUp p n true l c s r)
  | mkUp p n g l c s r, LoopsStarted => may (n && g) (mkUp p n g true true s r)
  | mkUp p n g l c s r, Ready => may (p && n && g && l && c && s) (mkUp p n g l c s true)
  | mkUp p n g l c s r, NotReady => may r (mkUp p n g l c s false)
  | mkUp p n g l c s r, GrpcStopped => may (g && negb r) (mkUp p n false l c s r)
  | mkUp p n g l c s r, LoopsStoppedEv => may (l && negb g) (mkUp p n g false c s r)
  | mkUp p n g l c s r, CompactionStopped => may (c && negb l) (mkUp p n g l false s r)
  | mkUp p n g l c s r, NodeClosed => may (n && negb g && negb l && negb c) (mkUp p false g l c s r)
  | mkUp p n g l c s r, ProbeStopped => may (p && negb n) (mkUp false n g l c s r)
  end.
Fixpoint advance_all (u : up) (es : list event) : option up :=
  match es with [] => Some u | e :: rest => match advance u e with Some u => advance_all u rest | None => None end end.

Definition is_up (u : up) : bool := u_probe u || u_node u || u_grpc u || u_loops u || u_compaction u || u_ready u.

(** Whether the process ever serves. *)
Definition starts (v : env) : bool := negb (probe_fails v || open_fails v || membership_fails v || serve_fails v).

(** [Run] takes down what it brought up, in order.  On every path, whatever
    fails: each step finds what it needs (a node is opened under a probe
    server, the listener serves a node whose membership is in place, and
    readiness comes last; it goes first, then the listener, the loops,
    compaction, the node and the probe server), each thing that was started is
    stopped before [Run] returns, it becomes ready exactly if nothing failed
    at startup, and it returns no error exactly if nothing failed at all.  At
    every moment a readiness answer means that the listener serves. *)
Theorem run_orderly v :
  (∃ u, advance_all all_down (Run v).1 = Some u ∧ is_up u = false) ∧
  (Ready ∈ (Run v).1 ↔ starts v = true) ∧
  ((Run v).2 = None ↔ starts v = true ∧ close_fails v = false ∧ probe_stop_fails v = false) ∧
  (∀ k u member, advance_all all_down (take k (Run v).1) = Some u → readyz (u_ready u) member = true →
     u_probe u = true ∧ u_grpc u = true ∧ u_node u = true).
Proof.
  assert (∀ es u1 u2, advance_all u1 es = Some u2 → (u_ready u1 = true → u_probe u1 && u_grpc u1 && u_node u1 = true) →
    u_ready u2 = true → u_probe u2 && u_grpc u2 && u_node u2 = true) as Hinv.
  { induction es as [|e es IH]; intros u1 u2; cbn [advance_all]; [intros [= <-]; auto|].
    destruct (advance u1 e) as [u|] eqn:E; [|done]. intros Ha Hi. apply (IH u u2 Ha).
    destruct u1 as [[] [] [] [] [] [] []], e; cbn in E; try discriminate E; injection E as <-; cbn in *; intros; try done;
      by specialize (Hi eq_refl). }
  split; [|split; [|split]].
  - destruct v as [[] [] [] [] a b]; (eexists; split; [reflexivity|reflexivity]).
  - destruct v as [[] [] [] [] a b]; cbn -[elem_of]; rewrite ?elem_of_cons, ?elem_of_nil; intuition discriminate.
  - destruct v as [[] [] [] [] [] []]; cbn; intuition discriminate.
  - intros k u member Ha Hr. apply andb_prop in Hr as [Hr _]. specialize (Hinv _ _ _ Ha (λ E, False_ind _ (diff_false_true E)) Hr).
    apply andb_prop in Hinv as [[? ?]%andb_prop ?]. done.
Qed.
