(* ===== verification/Wire.v ===== *)
(** * What travels between nodes, and to clients (internal/rpc)

    The messages of the replication service and of the client service, the
    conversions on both sides (convert.go, client.go, server.go), the forwarded
    write, the client-facing Get and Put (client_service.go), and heartbeats
    and fetched memberships (membership.go).  A message
    arrives as it was sent or not at all; what gRPC does in between is not
    modelled.

    Shown: the other side works on the same items, values, contexts and trees,
    and a client's read gives it the context that lets its next write replace
    all it has read. *)

From stdpp Require Import gmap strings list.
From Stdlib Require Import ZArith Lia Ascii.
From S2P Require Import Prelude GoLib VectorClock Versioning Json Sha256 Hints Merkle Membership Heartbeat.

Open Scope nat_scope.

(** ** Messages *)

Record pbDataItem := mkPb { pb_Value : bytes; pb_VectorClock : gmap string N; pb_LastUpdatedBy : string; pb_IsDeleted : bool }.
Record pbTree := mkPbTree { pb_NumBuckets : Z; pb_Nodes : list bytes }.

(** [int32(n)] *)
Definition to_int32 (z : Z) : Z := ((z + 2147483648) mod 4294967296 - 2147483648)%Z.

(** Applies a conversion that can fail to each element, in order. *)
Fixpoint convert_all {A B} (f : A → option B) (l : list A) : option (list B) :=
  match l with
  | [] => Some []
  | x :: rest => match f x with Some y => match convert_all f rest with Some ys => Some (y :: ys) | None => None end | None => None end
  end.

Section wire.
Context `{!JsonCodec value}.

Definition marshalValue (v : value) : option bytes := json_marshal v.
Definition unmarshalValue (b : bytes) : option value := json_unmarshal b.

Definition toProtoDataItem (item : DataItem) : option pbDataItem :=
  match marshalValue (Value item) with
  | None => None
  | Some b => Some (mkPb b (Snapshot (Clock item)) (LastUpdatedBy item) (IsDeleted item))
  end.
Definition fromProtoDataItem (p : pbDataItem) : option DataItem :=
  match unmarshalValue (pb_Value p) with
  | None => None
  | Some v => Some (mkItem v (FromSnapshot (pb_VectorClock p)) (pb_LastUpdatedBy p) (pb_IsDeleted p))
  end.

(** A hash is an array of 32 bytes: [copy] fills it from the front. *)
Definition to_array (b : bytes) : Hash := take 32 b ++ drop (length b) zeroHash.
Definition toProtoTree (t : Tree) : pbTree := mkPbTree (to_int32 (Z.of_nat (NumBuckets t))) (Nodes t).
Definition fromProtoTree (p : pbTree) : Tree := mkTree (Z.to_nat (pb_NumBuckets p)) (to_array <$> pb_Nodes p).

(** ** Calls between nodes *)

(** [Server.FetchItem] from what the store returned, and [Client.FetchItem]
    from the answer; [None] is a gRPC error, or a failed conversion. *)
Definition fetch_response (stored : option (list DataItem * bool)) : option (list pbDataItem * bool) :=
  match stored with
  | None => None
  | Some (_, false) => Some ([], false)
  | Some (items, true) => match convert_all toProtoDataItem items with Some l => Some (l, true) | None => None end
  end.
Definition FetchItem_call (answer : option (list pbDataItem * bool)) : option (list DataItem * bool) :=
  match answer with
  | None => None
  | Some (_, false) => Some ([], false)
  | Some (l, true) => match convert_all fromProtoDataItem l with Some items => Some (items, true) | None => None end
  end.

(** [Client.Replicate]: the items of its request; and [Server.Replicate]'s *)
Definition Replicate_request (items : list DataItem) : option (list pbDataItem) := convert_all toProtoDataItem items.
Definition replicate_items (l : list pbDataItem) : list (option DataItem) := fromProtoDataItem <$> l.

(** [contextFromProto]: an unset context stays nil *)
Definition contextFromProto (c : option (gmap string N)) : option (gmap string N) := c.

(** What a coordinator may answer to a write. *)
Inductive coord_error := NotReplica | CtxCanceled | CtxDeadline | Failed.

Definition Unimplemented : code := OtherCode 12.
Definition InvalidArgumentCode : code := OtherCode 3.
Definition InternalCode : code := OtherCode 13.

(** [Server.CoordinatePut]; [coord] is nil if the server does not coordinate *)
Definition CoordinatePut_served (coord : option (value → option (gmap string N) → option coord_error))
    (req : bytes * option (gmap string N)) : option code :=
  match coord with
  | None => Some Unimplemented
  | Some put =>
      match unmarshalValue req.1 with
      | None => Some InvalidArgumentCode
      | Some v =>
          match put v (contextFromProto req.2) with
          | None => None
          | Some NotReplica => Some FailedPrecondition
          | Some CtxCanceled => Some (OtherCode 1)
          | Some CtxDeadline => Some DeadlineExceeded
          | Some Failed => Some InternalCode
          end
      end
  end.

(** [Client.CoordinatePut]: its request *)
Definition CoordinatePut_request (v : value) (ctx : option (gmap string N)) : option (bytes * option (gmap string N)) :=
  match marshalValue v with Some b => Some (b, ctx) | None => None end.

(** ** The client service *)

Inductive node_error := NodeCanceled | NodeDeadline | NodeFailed.
Inductive client_code := CInvalidArgument | CCanceled | CDeadlineExceeded | CUnavailable | CInternal.

Definition clientError (e : node_error) : client_code :=
  match e with NodeCanceled => CCanceled | NodeDeadline => CDeadlineExceeded | NodeFailed => CUnavailable end.

Definition valueString (v : value) : option string :=
  match v with VString s => Some s | _ => match json_marshal v with Some b => Some (of_bytes b) | None => None end end.

Record GetResponse := mkGet { Values : list string; Context_ : gmap string N; FoundFlag : bool }.

Definition live (items : list DataItem) : list DataItem := bfilter (λ i, negb (IsDeleted i)) items.

(** [clientService.Get]; [got] is what the node's [Get] returned *)
Definition client_Get (key : string) (got : res node_error (list DataItem)) : res client_code GetResponse :=
  if bool_decide (key = "") then Err CInvalidArgument
  else match got with
  | Err e => Err (clientError e)
  | Ok items =>
      match convert_all (λ i, valueString (Value i)) (live items) with
      | None => Err CInternal
      | Some values => Ok (mkGet values (UnionVectorClock items) (negb (length values =? 0)))
      end
  end.

(** [clientService.Put]; [put] is the node's *)
Definition client_Put (key v : string) (ctx : option (gmap string N))
    (put : string → value → option (gmap string N) → option node_error) : option client_code :=
  if bool_decide (key = "") then Some CInvalidArgument
  else clientError <$> put key (VString v) (contextFromProto ctx).
End wire.

(** ** Heartbeats and memberships (membership.go) *)

Record pbPingRequest := mkPbPing { pb_SenderId : string; pb_SenderAddress : string; pb_PingEpoch : N; pb_PingFingerprint : string }.
Record pbPingResponse := mkPbPong { pb_NodeId : string; pb_PongEpoch : N; pb_PongFingerprint : string }.
Record pbMembership := mkPbMembership { pb_Epoch : N; pb_Members : gmap string string; pb_Fingerprint : string }.

(** [MembershipService], as a node serves it: the node after the call, the
    reply, and what the call started *)
Record MembershipService := mkService {
  svc_HandlePing : PingInfo → node * PingReply * list task; svc_CurrentMembership : MembershipInfo
}.
Definition node_service (n : node) : MembershipService := mkService (HandlePing n) (CurrentMembership n).

(** [Server.Ping] and [Server.GetMembership]: an answer or a status code *)
Definition Server_Ping (svc : option MembershipService) (req : pbPingRequest) : option (node * list task) * (pbPingResponse + code) :=
  match svc with
  | None => (None, inr Unimplemented)
  | Some m =>
      let '(n, reply, tasks) := svc_HandlePing m
        (mkPing (pb_SenderId req) (pb_SenderAddress req) (pb_PingEpoch req) (pb_PingFingerprint req)) in
      (Some (n, tasks), inl (mkPbPong (reply_NodeID reply) (reply_Epoch reply) (reply_Fingerprint reply)))
  end.
Definition Server_GetMembership (svc : option MembershipService) : pbMembership + code :=
  match svc with
  | None => inr Unimplemented
  | Some m => let i := svc_CurrentMembership m in inl (mkPbMembership (info_Epoch i) (info_Members i) (info_Fingerprint i))
  end.

(** [Client.Ping]: its request, and its result from what came back *)
Definition Ping_request (from : PingInfo) : pbPingRequest :=
  mkPbPing (SenderID from) (SenderAddress from) (ping_Epoch from) (ping_Fingerprint from).
Definition Ping_result (answer : option (pbPingResponse + code)) : option PingReply :=
  match answer with Some (inl r) => Some (mkReply (pb_NodeId r) (pb_PongEpoch r) (pb_PongFingerprint r)) | _ => None end.
(** [Client.GetMembership], and [FetchMembership], which dials first *)
Definition GetMembership_result (answer : option (pbMembership + code)) : option MembershipInfo :=
  match answer with Some (inl r) => Some (mkInfo (pb_Epoch r) (pb_Members r) (pb_Fingerprint r)) | _ => None end.
Definition FetchMembership (dialled : bool) (answer : option (pbMembership + code)) : option MembershipInfo :=
  if dialled then GetMembership_result answer else None.

(** A heartbeat over the wire is the peer's [HandlePing] of the sender's
    announcement, and a fetched membership is the one the peer holds; a server
    that does not serve membership is a failed ping and a failed fetch. *)
Theorem heartbeat_over_the_wire (from : PingInfo) (np : node) :
  let '(np', reply, tasks) := HandlePing np from in
  let '(effect, answer) := Server_Ping (Some (node_service np)) (Ping_request from) in
  effect = Some (np', tasks) ∧ Ping_result (Some answer) = Some reply ∧
  FetchMembership true (Some (Server_GetMembership (Some (node_service np)))) = Some (CurrentMembership np) ∧
  Ping_result (Some (Server_Ping None (Ping_request from)).2) = None ∧ FetchMembership true (Some (Server_GetMembership None)) = None.
Proof.
  unfold Server_Ping, Ping_request. cbn [pb_SenderId pb_SenderAddress pb_PingEpoch pb_PingFingerprint svc_HandlePing node_service].
  destruct from as [id a e fp]. cbn [SenderID SenderAddress ping_Epoch ping_Fingerprint].
  destruct (HandlePing np _) as [[np' reply] tasks]. split; [done|]. split; [by destruct reply|]. by destruct np.
Qed.

(** ** Faithfulness *)

Lemma convert_all_roundtrip {A B} (f : A → option B) (g : B → option A) l l' :
  (∀ x y, x ∈ l → f x = Some y → g y = Some x) → convert_all f l = Some l' → convert_all g l' = Some l.
Proof.
  revert l'. induction l as [|x l IH]; intros l' Hfg; cbn [convert_all]; [by intros [= <-]|].
  destruct (f x) as [y|] eqn:E; [|done]. destruct (convert_all f l) as [ys|] eqn:El; [|done]. intros [= <-]. cbn [convert_all].
  rewrite (Hfg x y ltac:(by left) E), (IH ys); [done| |done]. intros x' y' Hin. apply Hfg. by right.
Qed.

Lemma convert_all_fmap {A B} (f : A → option B) l l' : convert_all f l = Some l' ↔ f <$> l = Some <$> l'.
Proof.
  revert l'. induction l as [|x l IH]; intros l'; cbn [convert_all fmap list_fmap]; [destruct l'; naive_solver|].
  destruct (f x) as [y|] eqn:E.
  - destruct (convert_all f l) as [ys|] eqn:El.
    + specialize (proj1 (IH ys) eq_refl) as ->. destruct l' as [|z zs]; cbn; [done|]. split; [by intros [= -> ->]|].
      intros [= -> Hz]. do 2 f_equal. by apply (inj (fmap Some)) in Hz.
    + split; [done|]. destruct l' as [|z zs]; cbn; [done|]. intros [= _ Hz]. by apply IH in Hz.
  - split; [done|]. by destruct l'.
Qed.

Section faithful.
Context `{!JsonCodec value} `{!JsonRoundTrip value value_ok}.

Lemma FromSnapshot_Snapshot vc : FromSnapshot (Snapshot vc) = vc.
Proof.
  assert (state (FromSnapshot (Snapshot vc)) = state vc) as E by by rewrite FromSnapshot_state, Snapshot_state.
  destruct (FromSnapshot (Snapshot vc)), vc. cbn in E. by subst.
Qed.

Lemma fromProto_toProto item p : value_ok (Value item) → toProtoDataItem item = Some p → fromProtoDataItem p = Some item.
Proof.
  intros Hok. unfold toProtoDataItem, fromProtoDataItem, marshalValue, unmarshalValue. destruct (json_marshal (Value item)) as [b|] eqn:E; [|done].
  intros [= <-]. cbn [pb_Value pb_VectorClock pb_LastUpdatedBy pb_IsDeleted].
  rewrite (json_roundtrip (ok := value_ok) _ _ Hok E), FromSnapshot_Snapshot. by destruct item.
Qed.

Lemma fromProtoTree_toProtoTree t :
  (Z.of_nat (NumBuckets t) < 2147483648)%Z → Forall (λ h, length h = 32) (Nodes t) → fromProtoTree (toProtoTree t) = t.
Proof.
  intros Hb Hn. unfold fromProtoTree, toProtoTree, to_int32. cbn [pb_NumBuckets pb_Nodes].
  rewrite Z.mod_small, Z.add_simpl_r, Nat2Z.id by lia. destruct t as [nb l]. cbn in *. f_equal.
  rewrite <-(list_fmap_id l) at 2. apply list_fmap_ext. intros i h Hi. pose proof (Forall_lookup_1 _ _ _ _ Hn Hi) as Hl. cbn in Hl.
  unfold to_array. rewrite take_ge, Hl by lia. by rewrite app_nil_r.
Qed.

(** What a peer works on is what was sent.  For items whose values JSON
    carries faithfully: a sibling set that a peer's [FetchItem] answers with is
    the one its store returned, found or not; the items a replica merges are
    those the sender replicates, in order; a Merkle tree of at most [int32]
    buckets and its hashes arrive unchanged; and a forwarded write reaches the
    coordinator with the client's value and context, a missing context still
    missing and an empty one still there, its answer never [Unavailable] (the
    one code that lets the sender try another replica as if nothing happened)
    and [FailedPrecondition] only if the coordinator is no replica. *)
Theorem wire_is_faithful (items : list DataItem) (found : bool) (t : Tree) (v : value) (ctx : option (gmap string N)) :
  Forall (λ i, value_ok (Value i)) items → value_ok v →
  (Z.of_nat (NumBuckets t) < 2147483648)%Z → Forall (λ h, length h = 32) (Nodes t) →
  (∀ r, fetch_response (Some (items, found)) = Some r →
     FetchItem_call (Some r) = Some (if found then items else [], found)) ∧
  (∀ l, Replicate_request items = Some l → replicate_items l = Some <$> items) ∧
  fromProtoTree (toProtoTree t) = t ∧
  (∀ req put, CoordinatePut_request v ctx = Some req →
     let c := CoordinatePut_served (Some put) req in
     (c = None ↔ put v ctx = None) ∧ c ≠ Some Unavailable ∧ (c = Some FailedPrecondition ↔ put v ctx = Some NotReplica)).
Proof.
  intros Hi Hv Hb Hn.
  assert (∀ x y, x ∈ items → toProtoDataItem x = Some y → fromProtoDataItem y = Some x) as Hback.
  { intros x y Hx. apply fromProto_toProto. exact (proj1 (Forall_forall _ _) Hi x Hx). }
  split; [|split; [|split]].
  - intros r. unfold fetch_response. destruct found; [|by intros [= <-]].
    destruct (convert_all toProtoDataItem items) as [l|] eqn:E; [|done]. intros [= <-]. cbn [FetchItem_call].
    by rewrite (convert_all_roundtrip _ _ _ _ Hback E).
  - intros l Hl. apply convert_all_fmap. by apply (convert_all_roundtrip _ _ _ _ Hback).
  - by apply fromProtoTree_toProtoTree.
  - intros req put. unfold CoordinatePut_request, marshalValue. destruct (json_marshal v) as [b|] eqn:E; [|done]. intros [= <-].
    unfold CoordinatePut_served, unmarshalValue, contextFromProto. cbn [fst snd]. rewrite (json_roundtrip (ok := value_ok) _ _ Hv E).
    destruct (put v ctx) as [[]|]; cbn; naive_solver.
Qed.

(** What a client's read returns, and what its next write does with it: the
    values are those of the live siblings, strings as they were written; the
    context covers every sibling, tombstones too, and a version built on it
    replaces them all. *)
Theorem client_read_modify_write key items r id (x : DataItem) :
  client_Get key (Ok items) = Ok r → (mget (Context_ r) id < two32 - 1)%N → clock x = state (BuildFromContext (Context_ r) id) →
  (FoundFlag r = true ↔ ∃ i, i ∈ items ∧ IsDeleted i = false) ∧
  (∀ s, s ∈ Values r ↔ ∃ i, i ∈ items ∧ IsDeleted i = false ∧ valueString (Value i) = Some s) ∧
  length (Values r) = length (live items) ∧ Resolve items x = [x].
Proof.
  unfold client_Get. case_bool_decide; [done|]. destruct (convert_all _ (live items)) as [values|] eqn:E; [|done]. intros [= <-].
  cbn [Context_ FoundFlag Values]. intros Hlt Hx. apply convert_all_fmap in E.
  assert (length values = length (live items)) as Hlen by (apply (f_equal length) in E; by rewrite !length_fmap in E).
  assert (∀ i, i ∈ live items ↔ i ∈ items ∧ IsDeleted i = false) as Hlive.
  { intros i. unfold live. rewrite elem_of_bfilter. destruct (IsDeleted i); naive_solver. }
  split; [|split; [|split]].
  - rewrite Hlen. split.
    + intros Hl. destruct (live items) as [|i l] eqn:El; [done|]. exists i. apply Hlive. by left.
    + intros (i & Hi%Hlive). by destruct (live items); [apply elem_of_nil in Hi|].
  - intros s. assert (s ∈ values ↔ Some s ∈ Some <$> values) as ->.
    { rewrite list_elem_of_fmap. naive_solver. }
    rewrite <-E, list_elem_of_fmap. setoid_rewrite Hlive. naive_solver.
  - done.
  - by apply write_on_union_replaces_siblings with (id := id).
Qed.
End faithful.

Section witnesses.
#[local] Existing Instance toy_value_json.
#[local] Instance toy_value_rt : JsonRoundTrip value value_ok := countable_codec_roundtrip value value_ok.

Lemma value_ok_string : value_ok (VString "v").
Proof. split; [reflexivity|]. split; [reflexivity|]. vm_compute. discriminate. Qed.

Lemma wire_is_faithful_witness :
  ∃ l, Replicate_request [ex_item "v" {["n1" := 3%N]}] = Some l ∧ replicate_items l = [Some (ex_item "v" {["n1" := 3%N]})].
Proof.
  destruct (wire_is_faithful [ex_item "v" {["n1" := 3%N]}] true (mkTree 1 [zeroHash]) (VString "v") None) as (_ & Hr & _).
  - constructor; [exact value_ok_string|constructor].
  - exact value_ok_string.
  - reflexivity.
  - constructor; [reflexivity|constructor].
  - destruct (Replicate_request [ex_item "v" {["n1" := 3%N]}]) as [l|] eqn:E; [|vm_compute in E; discriminate E].
    exists l. split; [reflexivity|]. exact (Hr l eq_refl).
Defined.

Lemma client_read_modify_write_witness :
  Resolve [ex_item "a" {["n1" := 3%N]}; ex_item "b" {["n2" := 1%N]}] (ex_item "c" {["n1" := 4%N; "n2" := 1%N]}) =
  [ex_item "c" {["n1" := 4%N; "n2" := 1%N]}].
Proof.
  apply (client_read_modify_write "k" [ex_item "a" {["n1" := 3%N]}; ex_item "b" {["n2" := 1%N]}]
    (mkGet ["a"; "b"] {["n1" := 3%N; "n2" := 1%N]} true) "n1" (ex_item "c" {["n1" := 4%N; "n2" := 1%N]})).
  - vm_compute. reflexivity.
  - vm_compute. reflexivity.
  - vm_compute. reflexivity.
Defined.
End witnesses.
