(* ===== verification/Render.v ===== *)
(** * The objects a cluster is made of (operator/internal/render/render.go)

    The ConfigMap, the Services, the PodDisruptionBudget and the StatefulSet the
    operator renders, as records of the fields it sets; and the text of the
    ConfigMap, which the operator reads back (parse.go) and every pod reads
    when it starts (internal/config).  The YAML library is a parameter: a block
    document is read as the tree it is written from, and scalars are decoded as
    numbers, booleans and durations.

    Shown: the operator reads back exactly the membership it rendered, and each
    member's pod accepts the file and starts with that membership. *)

From stdpp Require Import gmap strings list pretty sorting.
From Stdlib Require Import ZArith Lia Ascii.
From S2P Require Import Prelude GoLib GoStrings Membership Config Planner Observe.

Open Scope nat_scope.

(** ** YAML *)

(** Block documents: plain and quoted scalars, mappings, sequences. *)
Inductive yaml := YPlain (s : string) | YQuoted (s : string) | YMap (fs : list (string * yaml)) | YSeq (items : list yaml).

Definition dq : string := String "034" "".
Definition nl : string := String "010" "".

(** A document's lines: [key] is the line up to the value's key. *)
Fixpoint emit (ind : nat) (key : string) (v : yaml) : list string :=
  let fields i := flat_map (λ f : string * yaml, emit i (Repeat " " i +:+ f.1) f.2) in
  match v with
  | YPlain s => [key +:+ ": " +:+ s]
  | YQuoted s => [key +:+ ": " +:+ dq +:+ s +:+ dq]
  | YMap fs => (key +:+ ":") :: fields (ind + 2) fs
  | YSeq items =>
      (key +:+ ":") ::
      flat_map (λ it, match it with
                      | YMap ((k0, v0) :: fs) =>
                          emit (ind + 4) (Repeat " " (ind + 2) +:+ "- " +:+ k0) v0 ++ fields (ind + 4) fs
                      | _ => []
                      end) items
  end.

Definition text (lines : list string) : string := fold_right (λ l t, l +:+ nl +:+ t) "" lines.
Definition emit_doc (fs : list (string * yaml)) : string := text (flat_map (λ f : string * yaml, emit 0 f.1 f.2) fs).

(** The YAML library: documents, and scalars as values of Go types. *)
Class Yaml := {
  yaml_parse : string → option (list (string * yaml));
  yaml_int : string → option Z;
  yaml_uint64 : string → option N;
  yaml_bool : string → option bool;
  yaml_duration : string → option Z
}.

(** Decimal numbers, booleans and durations (time.ParseDuration) as written
    below are decoded as what they are. *)
Class YamlSpec `{!Yaml} : Prop := {
  yaml_int_decimal (n : N) : (n ≤ max_int)%N → yaml_int (pretty n) = Some (Z.of_N n);
  yaml_uint64_decimal (n : N) : (n < two64)%N → yaml_uint64 (pretty n) = Some n;
  yaml_bool_words : yaml_bool "true" = Some true ∧ yaml_bool "false" = Some false;
  yaml_duration_units (n : N) : (n ≤ 1000000)%N →
    yaml_duration (pretty n +:+ "ms") = Some (Z.of_N n * 1000000)%Z ∧
    yaml_duration (pretty n +:+ "s") = Some (Z.of_N n * 1000000000)%Z ∧
    yaml_duration (pretty n +:+ "m") = Some (Z.of_N n * 60000000000)%Z
}.

(** The library reads a block document as the tree it is written from. *)
Definition reads_block `{!Yaml} (fs : list (string * yaml)) : Prop := yaml_parse (emit_doc fs) = Some fs.

(** ** Decoding into structs: the field of each tag, zero values where missing *)

Section decode.
Context `{!Yaml}.

Definition field (k : string) (fs : list (string * yaml)) : option yaml := snd <$> List.find (λ f, bool_decide (f.1 = k)) fs.

Definition y_map (v : option yaml) : option (list (string * yaml)) :=
  match v with None => Some [] | Some (YMap fs) => Some fs | Some _ => None end.
Definition y_seq (v : option yaml) : option (list yaml) :=
  match v with None => Some [] | Some (YSeq l) => Some l | Some _ => None end.
Definition y_str (v : option yaml) : option string :=
  match v with None => Some "" | Some (YPlain s) | Some (YQuoted s) => Some s | Some _ => None end.
Definition y_plain {A} (dec : string → option A) (zero : A) (v : option yaml) : option A :=
  match v with None => Some zero | Some (YPlain s) => dec s | Some _ => None end.
Definition y_int := y_plain yaml_int 0%Z.
Definition y_uint64 := y_plain yaml_uint64 0%N.
Definition y_duration := y_plain yaml_duration 0%Z.
Definition y_bool_ptr := y_plain (λ s, Some <$> yaml_bool s) None.

(** With [KnownFields], a field that no tag names is an error. *)
Definition known (strict : bool) (tags : list string) (fs : list (string * yaml)) : option (list (string * yaml)) :=
  if negb strict || forallb (λ f, bool_decide (f.1 ∈ tags)) fs then Some fs else None.

Definition y_member (strict : bool) (v : yaml) : option Config.Member :=
  fs ← y_map (Some v); fs ← known strict ["id"; "address"] fs;
  id ← y_str (field "id" fs); a ← y_str (field "address" fs); Some (mkCfgMember id a).
Definition y_members (strict : bool) (v : option yaml) : option (list Config.Member) :=
  l ← y_seq v; mapM (y_member strict) l.

Definition y_cluster (strict : bool) (v : option yaml) : option Config.Cluster :=
  fs ← y_map v; fs ← known strict ["n"; "w"; "r"; "epoch"; "members"] fs;
  n ← y_int (field "n" fs); w ← y_int (field "w" fs); r ← y_int (field "r" fs);
  e ← y_uint64 (field "epoch" fs); ms ← y_members strict (field "members" fs); Some (Config.mkCluster n w r e ms).
Definition y_listen (strict : bool) (v : option yaml) : option Listen :=
  fs ← y_map v; fs ← known strict ["grpc"; "http"] fs;
  g ← y_str (field "grpc" fs); h ← y_str (field "http" fs); Some (mkListen g h).
Definition y_storage (strict : bool) (v : option yaml) : option Config.Storage :=
  fs ← y_map v; fs ← known strict ["memtableBytes"; "groupCommit"] fs;
  b ← y_int (field "memtableBytes" fs); g ← y_bool_ptr (field "groupCommit" fs); Some (mkStorage b g).
Definition y_intervals (strict : bool) (v : option yaml) : option Intervals :=
  fs ← y_map v; fs ← known strict ["compaction"; "antiEntropy"; "hintDelivery"; "heartbeat"] fs;
  c ← y_duration (field "compaction" fs); a ← y_duration (field "antiEntropy" fs);
  h ← y_duration (field "hintDelivery" fs); b ← y_duration (field "heartbeat" fs); Some (mkIntervals c a h b).
Definition y_timeouts (strict : bool) (v : option yaml) : option Timeouts :=
  fs ← y_map v; fs ← known strict ["replication"; "maxReconnectBackoff"; "shutdown"; "heartbeat"] fs;
  r ← y_duration (field "replication" fs); m ← y_duration (field "maxReconnectBackoff" fs);
  s ← y_duration (field "shutdown" fs); b ← y_duration (field "heartbeat" fs); Some (mkTimeouts r m s b).
Definition y_health (strict : bool) (v : option yaml) : option Z :=
  fs ← y_map v; fs ← known strict ["maxMissedHeartbeats"] fs; y_int (field "maxMissedHeartbeats" fs).

(** [config.Config]; [config.Load] reads it strictly *)
Definition decode_config (strict : bool) (t : string) : option Config.Config :=
  fs ← yaml_parse t;
  fs ← known strict ["nodeId"; "listen"; "dataDir"; "cluster"; "storage"; "intervals"; "timeouts"; "health"] fs;
  id ← y_str (field "nodeId" fs); l ← y_listen strict (field "listen" fs); d ← y_str (field "dataDir" fs);
  c ← y_cluster strict (field "cluster" fs); s ← y_storage strict (field "storage" fs); i ← y_intervals strict (field "intervals" fs);
  o ← y_timeouts strict (field "timeouts" fs); h ← y_health strict (field "health" fs);
  Some (Config.mkConfig id l d c s i o h).

(** [config.Load] of a file with this text, and the operator's own struct of
    the cluster section in [ParseConfigMap] *)
Definition Load_text (t envID : string) : option (res config_error Config.Config) := (λ c, Load c envID) <$> decode_config true t.
Definition decode_cluster (t : string) : option (N * list (string * string)) :=
  fs ← yaml_parse t; c ← y_map (field "cluster" fs);
  e ← y_uint64 (field "epoch" c); ms ← y_members false (field "members" c);
  Some (e, map Config.pair ms).
Definition ParseConfigMap_text (t : option string) : res parse_error (N * gmap string string) :=
  ParseConfigMap (mkCmObj (decode_cluster <$> t)).
End decode.

(** ** Clusters and objects *)

(** Quantities are their values; nil and empty maps and lists are the same. *)
Record ResourceRequirements := mkRes { Requests : gmap string Z; Limits : gmap string Z; Claims : list string }.
Record Toleration := mkTol { t_Key : string; t_Operator : string; t_Value : string; t_Effect : string; t_Seconds : option Z }.
Record Placement := mkPlacement {
  OnePodPerNode : bool; ZoneSpread : bool; NodeSelector : gmap string string; Tolerations : list Toleration
}.
Record StorageSpec := mkStorageSpec { Size : Z; StorageClassName : option string; s_GroupCommit : option bool }.

(** A [KVCluster]: what the planner reads of it ([kc]), and the rest of its
    metadata and spec. *)
Record kvcluster := mkKV {
  kc : KVCluster; kc_UID : string; Generation : Z; spec_W : nat; spec_R : nat; Image : string;
  Resources : ResourceRequirements; spec_Storage : StorageSpec; spec_Placement : option Placement
}.

Record OwnerReference := mkOwner { or_Kind : string; or_Name : string; or_UID : string }.
Record ObjectMeta := mkMeta { om_Name : string; om_Namespace : string; om_Labels : gmap string string; om_Owner : OwnerReference }.
Record ConfigMapObject := mkConfigMap { cm_Meta : ObjectMeta; cm_Data : gmap string string }.
Record ServicePort := mkPort { sp_Name : string; sp_Port : N; sp_TargetPort : string }.
Record Service := mkService {
  svc_Meta : ObjectMeta; Headless : bool; PublishNotReady : bool; svc_Selector : gmap string string; svc_Ports : list ServicePort
}.
Record PodDisruptionBudgetObject := mkPDB { pdb_Meta : ObjectMeta; MaxUnavailable : N; pdb_Selector : gmap string string }.

Record AffinityTerm := mkTerm { at_Selector : gmap string string; at_TopologyKey : string }.
Record SpreadConstraint := mkSpread {
  MaxSkew : N; sc_TopologyKey : string; WhenUnsatisfiable : string; sc_Selector : gmap string string
}.
(** A pod's required anti-affinity terms, and what else its affinity has. *)
Record Affinity := mkAffinity { RequiredAntiAffinity : list AffinityTerm; OtherAffinity : list string }.
Record Probe := mkProbe { p_Path : string; p_Port : string; PeriodSeconds : N; FailureThreshold : N }.
Record Container := mkContainer {
  ct_Name : string; ct_Image : string; ImagePullPolicy : string; EnvFieldRefs : gmap string string; PreStopSleep : N;
  ct_Ports : gmap string N; Liveness : Probe; Readiness : Probe; ct_Resources : ResourceRequirements;
  AllowPrivilegeEscalation : bool; ReadOnlyRootFilesystem : bool; DroppedCapabilities : list string;
  VolumeMounts : list (string * string * bool)
}.
Record PodSpec := mkPodSpec {
  TerminationGracePeriodSeconds : N; ps_Affinity : option Affinity; ps_Spread : list SpreadConstraint;
  ps_NodeSelector : gmap string string; ps_Tolerations : list Toleration; RunAsNonRoot : bool; RunAsUser : N; RunAsGroup : N;
  FSGroup : N; FSGroupChangePolicy : string; SeccompProfile : string; Containers : list Container;
  ConfigVolumes : gmap string string
}.
Record ClaimTemplate := mkClaim { cl_Name : string; AccessModes : list string; cl_Class : option string; cl_Size : Z }.
Record StatefulSetObject := mkStatefulSet {
  ss_Meta : ObjectMeta; ss_ServiceName : string; ss_Replicas : nat; PodManagementPolicy : string; WhenScaled : string;
  WhenDeleted : string; MinReadySeconds : N; ss_Selector : gmap string string; TemplateLabels : gmap string string;
  TemplateSpec : PodSpec; VolumeClaimTemplates : list ClaimTemplate
}.

(** ** Rendering *)

Definition HTTPPort : N := 8080.
Definition ConfigKey : string := "config.yaml".
Definition ManagerName : string := "kvstore-operator".
Definition LabelInstance : string := "app.kubernetes.io/instance".
Definition LabelManagedBy : string := "app.kubernetes.io/managed-by".

Definition selectorLabels : gmap string string := {["app.kubernetes.io/name" := "kvstore"]}.

Section render.
Context (c : kvcluster).

Definition operatorLabels : gmap string string := {[LabelInstance := Name (kc c); LabelManagedBy := ManagerName]}.
(** [maps.Copy] of the operator's labels over the selector's *)
Definition labels : gmap string string := operatorLabels ∪ selectorLabels.
Definition objectMeta (name : string) (l : gmap string string) : ObjectMeta :=
  mkMeta name (Namespace (kc c)) l (mkOwner "KVCluster" (Name (kc c)) (kc_UID c)).

Definition ConfigMapName : string := Name (kc c) +:+ "-config".
Definition ServiceName : string := Name (kc c).
Definition ClientServiceName : string := Name (kc c) +:+ "-client".
Definition StatefulSetName : string := Name (kc c).
Definition PodDisruptionBudgetName : string := Name (kc c).

Definition groupCommit (s : StorageSpec) : bool := match s_GroupCommit s with None => true | Some b => b end.
Definition bool_text (b : bool) : string := if b then "true" else "false".

(** The ordinals of the members, sorted; [None] where [ConfigMap] refuses. *)
Definition ordinals (members : gmap string string) : option (list nat) :=
  if render_check (kc c) members
  then Some (merge_sort (≤) (omap (λ p, Ordinal (kc c) p.1) (map_to_list members))) else None.

(** The lines of [config.yaml] *)
Definition member_lines (i : nat) : list string :=
  ["    - id: " +:+ MemberID (kc c) i; "      address: " +:+ MemberAddress (kc c) i].
Definition config_lines (epoch : N) (ords : list nat) : list string :=
  ["listen:"; "  grpc: " +:+ dq +:+ ":" +:+ pretty GRPCPort +:+ dq; "  http: " +:+ dq +:+ ":" +:+ pretty HTTPPort +:+ dq;
   "dataDir: /data";
   "cluster:"; "  n: " +:+ pretty (spec_N (kc c)); "  w: " +:+ pretty (spec_W c); "  r: " +:+ pretty (spec_R c);
   "  epoch: " +:+ pretty epoch; "  members:"] ++
  flat_map member_lines ords ++
  ["storage:"; "  memtableBytes: 4194304"; "  groupCommit: " +:+ bool_text (groupCommit (spec_Storage c));
   "intervals:"; "  compaction: 30s"; "  antiEntropy: 15m"; "  hintDelivery: 10s"; "  heartbeat: 1s";
   "timeouts:"; "  replication: 5s"; "  maxReconnectBackoff: 5s"; "  shutdown: 20s"; "  heartbeat: 500ms";
   "health:"; "  maxMissedHeartbeats: 3"].

Definition ConfigMap (epoch : N) (members : gmap string string) : option ConfigMapObject :=
  ords ← ordinals members;
  Some (mkConfigMap (objectMeta ConfigMapName operatorLabels) {[ConfigKey := text (config_lines epoch ords)]}).

Definition grpcServicePort : ServicePort := mkPort "grpc" GRPCPort "grpc".
Definition HeadlessService : Service :=
  mkService (objectMeta ServiceName labels) true true selectorLabels [grpcServicePort; mkPort "http" HTTPPort "http"].
Definition ClientService : Service :=
  mkService (objectMeta ClientServiceName labels) false false selectorLabels [grpcServicePort].
Definition PodDisruptionBudget : PodDisruptionBudgetObject :=
  mkPDB (objectMeta PodDisruptionBudgetName labels) 1 selectorLabels.

Definition affinity (p : option Placement) : option Affinity :=
  match p with
  | Some p => if OnePodPerNode p then Some (mkAffinity [mkTerm selectorLabels "kubernetes.io/hostname"] []) else None
  | None => None
  end.
Definition topologySpread (p : option Placement) : list SpreadConstraint :=
  match p with
  | Some p => if ZoneSpread p then [mkSpread 1 "topology.kubernetes.io/zone" "DoNotSchedule" selectorLabels] else []
  | None => []
  end.
Definition nodeSelector (p : option Placement) : gmap string string := match p with Some p => NodeSelector p | None => ∅ end.
Definition tolerations (p : option Placement) : list Toleration := match p with Some p => Tolerations p | None => [] end.

Definition kv_container : Container :=
  mkContainer "kv" (Image c) "IfNotPresent" {["KV_NODE_ID" := "metadata.name"]} 5 {["grpc" := GRPCPort; "http" := HTTPPort]}
    (mkProbe "/livez" "http" 10 3) (mkProbe "/readyz" "http" 5 2) (Resources c) false true ["ALL"]
    [("config", "/etc/kv", true); ("data", "/data", false)].
Definition StatefulSet (replicas : nat) : StatefulSetObject :=
  mkStatefulSet (objectMeta StatefulSetName labels) ServiceName replicas "Parallel" "Delete" "Retain" 5 selectorLabels labels
    (mkPodSpec 60 (affinity (spec_Placement c)) (topologySpread (spec_Placement c)) (nodeSelector (spec_Placement c))
       (tolerations (spec_Placement c)) true 65532 65532 65532 "OnRootMismatch" "RuntimeDefault" [kv_container]
       {["config" := ConfigMapName]})
    [mkClaim "data" ["ReadWriteOnce"] (StorageClassName (spec_Storage c)) (Size (spec_Storage c))].
End render.

(** ** The text as a document *)

Definition member_doc (c : kvcluster) (i : nat) : yaml :=
  YMap [("id", YPlain (MemberID (kc c) i)); ("address", YPlain (MemberAddress (kc c) i))].

Definition config_doc (c : kvcluster) (epoch : N) (ords : list nat) : list (string * yaml) :=
  [("listen", YMap [("grpc", YQuoted (":" +:+ pretty GRPCPort)); ("http", YQuoted (":" +:+ pretty HTTPPort))]);
   ("dataDir", YPlain "/data");
   ("cluster", YMap [("n", YPlain (pretty (spec_N (kc c)))); ("w", YPlain (pretty (spec_W c))); ("r", YPlain (pretty (spec_R c)));
                     ("epoch", YPlain (pretty epoch)); ("members", YSeq (map (member_doc c) ords))]);
   ("storage", YMap [("memtableBytes", YPlain "4194304"); ("groupCommit", YPlain (bool_text (groupCommit (spec_Storage c))))]);
   ("intervals", YMap [("compaction", YPlain "30s"); ("antiEntropy", YPlain "15m"); ("hintDelivery", YPlain "10s");
                       ("heartbeat", YPlain "1s")]);
   ("timeouts", YMap [("replication", YPlain "5s"); ("maxReconnectBackoff", YPlain "5s"); ("shutdown", YPlain "20s");
                      ("heartbeat", YPlain "500ms")]);
   ("health", YMap [("maxMissedHeartbeats", YPlain "3")])].

Lemma config_lines_doc c e ords : text (config_lines c e ords) = emit_doc (config_doc c e ords).
Proof.
  unfold emit_doc. f_equal. unfold config_lines, config_doc. cbn [flat_map emit fst snd app]. rewrite !app_nil_r.
  do 10 f_equal. induction ords as [|i ords IH]; [reflexivity|]. cbn [map flat_map]. rewrite <-app_assoc, IH. reflexivity.
Qed.

(** ** The members of the list *)

Lemma ordinals_members c m ords :
  ordinals c m = Some ords →
  NoDup ords ∧ m = list_to_map (map (λ i, (MemberID (kc c) i, MemberAddress (kc c) i)) ords) ∧ spec_N (kc c) ≤ length ords.
Proof.
  unfold ordinals. destruct (render_check (kc c) m) eqn:Ec; [|done]. intros [= <-]. apply andb_prop in Ec as [Hn Hok].
  set (l := omap _ _).
  assert (map (λ i, (MemberID (kc c) i, MemberAddress (kc c) i)) l = map_to_list m) as Hl.
  { subst l. induction (map_to_list m) as [|[id a] ps IH]; [done|]. cbn [forallb] in Hok. apply andb_prop in Hok as [Hid Hok].
    unfold member_ok in Hid. cbn [fst snd] in Hid. cbn [omap list_omap fst].
    destruct (Ordinal (kc c) id) as [i|] eqn:Eo; [|done]. apply bool_decide_eq_true in Hid as ->. apply Ordinal_Some in Eo as ->.
    cbn [map]. by rewrite IH. }
  assert (NoDup l) as Hnd.
  { pose proof (NoDup_map_to_list m) as Hm. rewrite <-Hl in Hm. by apply NoDup_fmap_1 in Hm. }
  pose proof (merge_sort_Permutation (≤) l) as Hp. split; [by rewrite Hp|]. split.
  - rewrite <-(list_to_map_to_list m), <-Hl. apply list_to_map_proper.
    + rewrite <-list_fmap_compose. by apply NoDup_fmap_2; [intros i j; apply (inj (MemberID _))|].
    + by apply Permutation_map.
  - apply Nat.leb_le in Hn. rewrite Hp, <-(length_map (λ i, (MemberID (kc c) i, MemberAddress (kc c) i))), Hl. by rewrite length_map_to_list.
Qed.

(** Letters of a number are digits; what follows it can be told from it. *)
Lemma atoi_loop_no c s acc n : digit_of c = None → atoi_loop s acc = Some n → existsb (Ascii.eqb c) (to_bytes s) = false.
Proof.
  intros Hc. revert acc. induction s as [|x s IH]; intros acc; [done|]. cbn [atoi_loop]. destruct (digit_of x) eqn:Ex; [|done].
  intros Hs. change (Ascii.eqb c x || existsb (Ascii.eqb c) (to_bytes s) = false). rewrite (IH _ Hs).
  destruct (Ascii.eqb_spec c x) as [->|]; [congruence|done].
Qed.

Lemma pretty_nat_loop (i : nat) : atoi_loop (pretty i) 0 = Some (N.of_nat i).
Proof. apply atoi_loop_pretty. Qed.

Lemma MemberID_no_separator c i : Contains (Name c) "#" = false → Contains (MemberID c i) "#" = false.
Proof.
  rewrite !Contains_char. unfold MemberID. rewrite !to_bytes_app, !existsb_app. intros ->.
  change (existsb (Ascii.eqb "#"%char) (to_bytes (pretty i)) = false). by rewrite (atoi_loop_no "#"%char _ _ _ eq_refl (pretty_nat_loop i)).
Qed.

#[global] Instance MemberAddress_inj c : Inj (=) (=) (MemberAddress c).
Proof.
  intros i j. unfold MemberAddress, PodHost, MemberID. rewrite !string_app_assoc. intros H%(inj (String.append _))%(inj (String.append _)).
  assert (∀ (k : nat) t, Cut "." (pretty k +:+ "." +:+ t) = (pretty k, Some t)) as Hcut by (intros k t; eapply Cut_number; [done|apply pretty_nat_loop]).
  apply (f_equal (Cut ".")) in H. rewrite !Hcut in H. injection H as H. by apply (inj pretty) in H.
Qed.

Lemma members_loop_accepts self ms seenID seenAddr found :
  NoDup (m_ID <$> ms) → NoDup (m_Address <$> ms) →
  (∀ m, m ∈ ms → Contains (m_ID m) clockIDSeparator = false ∧ m_ID m ∉ seenID ∧ m_Address m ∉ seenAddr) →
  members_loop self ms seenID seenAddr found = inr (found || bool_decide (self ∈ m_ID <$> ms)).
Proof.
  revert seenID seenAddr found. induction ms as [|m ms IH]; intros seenID seenAddr found Hi Ha Hm; cbn [members_loop].
  { rewrite bool_decide_false by set_solver. by rewrite orb_false_r. }
  destruct (Hm m) as (-> & H2 & H3); [by left|]. rewrite !bool_decide_false by done. apply NoDup_cons in Hi as [Hi Hi'], Ha as [Ha Ha'].
  rewrite IH; [|done..|].
  - f_equal. rewrite <-orb_assoc. f_equal. rewrite <-bool_decide_or. apply bool_decide_ext. cbn. set_solver.
  - intros x Hx. destruct (Hm x) as (? & ? & ?); [by right|]. split; [done|].
    assert (m_ID x ≠ m_ID m ∧ m_Address x ≠ m_Address m); [|set_solver].
    split; intros E; [apply Hi|apply Ha]; rewrite <-E; by apply list_elem_of_fmap_2.
Qed.

Lemma collect_members_ok l (acc : gmap string string) :
  NoDup l.*1 → (∀ id, id ∈ l.*1 → acc !! id = None) → collect_members l acc = Ok (list_to_map l ∪ acc).
Proof.
  revert acc. induction l as [|[id a] l IH]; intros acc Hnd Hacc; cbn [collect_members]; [cbn; by rewrite (left_id_L ∅ _)|].
  apply NoDup_cons in Hnd as [Hid Hnd]. rewrite Hacc by by left. rewrite IH; [|done|].
  - f_equal. cbn. rewrite <-insert_union_l, insert_union_r; [done|]. by apply not_elem_of_list_to_map_1.
  - intros x Hx. rewrite lookup_insert_ne by (intros ->; done). apply Hacc. by right.
Qed.

(** ** What is read of the text *)

(** What the API server admits of a spec, as far as the nodes rely on it. *)
Definition spec_admitted (c : kvcluster) : Prop :=
  1 ≤ spec_W c ≤ spec_N (kc c) ∧ 1 ≤ spec_R c ≤ spec_N (kc c) ∧ (N.of_nat (spec_N (kc c)) ≤ 2147483647)%N ∧
  Contains (Name (kc c)) "#" = false.

Section rendered.
Context `{!Yaml, !YamlSpec}.
Context (c : kvcluster) (e : N) (ords : list nat).
Hypotheses (Hadm : spec_admitted c) (He : (e < two64)%N) (Hread : reads_block (config_doc c e ords)).

Definition rendered_members : list Config.Member := map (λ i, mkCfgMember (MemberID (kc c) i) (MemberAddress (kc c) i)) ords.

Lemma y_members_doc strict : y_members strict (Some (YSeq (map (member_doc c) ords))) = Some rendered_members.
Proof.
  unfold y_members, rendered_members. cbn [y_seq mbind option_bind]. clear. induction ords as [|i l IH]; [done|]. cbn [map mapM].
  assert (y_member strict (member_doc c i) = Some (mkCfgMember (MemberID (kc c) i) (MemberAddress (kc c) i))) as -> by (by destruct strict).
  cbn. cbn in IH. by rewrite IH.
Qed.

Definition rendered_config : Config.Config :=
  Config.mkConfig "" (mkListen ":7000" ":8080") "/data"
    (Config.mkCluster (Z.of_nat (spec_N (kc c))) (Z.of_nat (spec_W c)) (Z.of_nat (spec_R c)) e rendered_members)
    (mkStorage 4194304 (Some (groupCommit (spec_Storage c))))
    (mkIntervals 30000000000 900000000000 10000000000 1000000000) (mkTimeouts 5000000000 5000000000 20000000000 500000000) 3.

Lemma yaml_int_nat (k : nat) : (N.of_nat k ≤ max_int)%N → yaml_int (pretty k) = Some (Z.of_nat k).
Proof. intros Hk. change (pretty k) with (pretty (N.of_nat k)). rewrite yaml_int_decimal by done. f_equal. lia. Qed.

Lemma decode_rendered strict : decode_config strict (text (config_lines c e ords)) = Some rendered_config.
Proof.
  destruct Hadm as (Hw & Hr & Hn & _).
  assert (yaml_int "4194304" = Some 4194304%Z) as H1 by exact (yaml_int_decimal 4194304 ltac:(done)).
  assert (yaml_int "3" = Some 3%Z) as H2 by exact (yaml_int_decimal 3 ltac:(done)).
  assert (yaml_bool (bool_text (groupCommit (spec_Storage c))) = Some (groupCommit (spec_Storage c))) as H3.
  { destruct yaml_bool_words. by destruct (groupCommit _). }
  assert (yaml_duration "30s" = Some 30000000000%Z) as H4 by exact (proj1 (proj2 (yaml_duration_units 30 ltac:(done)))).
  assert (yaml_duration "15m" = Some 900000000000%Z) as H5 by exact (proj2 (proj2 (yaml_duration_units 15 ltac:(done)))).
  assert (yaml_duration "10s" = Some 10000000000%Z) as H6 by exact (proj1 (proj2 (yaml_duration_units 10 ltac:(done)))).
  assert (yaml_duration "1s" = Some 1000000000%Z) as H7 by exact (proj1 (proj2 (yaml_duration_units 1 ltac:(done)))).
  assert (yaml_duration "5s" = Some 5000000000%Z) as H8 by exact (proj1 (proj2 (yaml_duration_units 5 ltac:(done)))).
  assert (yaml_duration "20s" = Some 20000000000%Z) as H9 by exact (proj1 (proj2 (yaml_duration_units 20 ltac:(done)))).
  assert (yaml_duration "500ms" = Some 500000000%Z) as H10 by exact (proj1 (yaml_duration_units 500 ltac:(done))).
  unfold decode_config. rewrite config_lines_doc, Hread.
  destruct strict; cbv -[pretty y_members yaml_int yaml_uint64 yaml_bool yaml_duration bool_text groupCommit rendered_config
      member_doc map spec_N spec_W spec_R kc spec_Storage];
    (rewrite !yaml_int_nat by (unfold max_int; lia)); (rewrite yaml_uint64_decimal by done);
    by rewrite y_members_doc, H1, H2, H3, H4, H5, H6, H7, H8, H9, H10.
Qed.

Lemma decode_rendered_cluster : decode_cluster (text (config_lines c e ords)) = Some (e, map Config.pair rendered_members).
Proof.
  unfold decode_cluster. rewrite config_lines_doc, Hread.
  cbv -[pretty y_members yaml_int yaml_uint64 yaml_bool yaml_duration bool_text groupCommit rendered_members member_doc map
        spec_N spec_W spec_R kc spec_Storage].
  by rewrite yaml_uint64_decimal, y_members_doc.
Qed.

(** The file as the pod [id] takes it. *)
Definition config_of (id : string) : Config.Config :=
  Config.mkConfig id (cfg_Listen rendered_config) (DataDir rendered_config) (cfg_Cluster rendered_config) (cfg_Storage rendered_config)
    (cfg_Intervals rendered_config) (cfg_Timeouts rendered_config) (MaxMissedHeartbeats rendered_config).

Context (Hnd : NoDup ords) (Hlen : spec_N (kc c) ≤ length ords).

Lemma Load_rendered id :
  id ≠ "" → Contains id clockIDSeparator = false →
  Load rendered_config id = if bool_decide (id ∈ m_ID <$> rendered_members) then Ok (config_of id) else Err NotAMember.
Proof.
  intros Hid Hsep. unfold Load. rewrite bool_decide_false by done.
  change (applyDefaults _) with (config_of id). unfold validate. cbn [cfg_NodeID config_of cfg_Cluster rendered_config c_Members].
  rewrite bool_decide_false by done. rewrite Hsep. destruct Hadm as (Hw & Hr & Hn & Hname).
  rewrite members_loop_accepts.
  - rewrite orb_false_l. case_bool_decide; [|done]. cbn [DataDir]. rewrite bool_decide_false by done.
    cbn [c_W c_N c_R]. rewrite !(proj2 (Z.ltb_ge _ _)); [reflexivity|..]; unfold rendered_members; rewrite ?length_map; lia.
  - unfold rendered_members. rewrite <-list_fmap_compose. apply NoDup_fmap_2; [|done]. intros i j Hij. by apply (inj (MemberID (kc c))).
  - unfold rendered_members. rewrite <-list_fmap_compose. apply NoDup_fmap_2; [|done]. intros i j Hij. by apply (inj (MemberAddress (kc c))).
  - intros m (i & -> & _)%list_elem_of_fmap. split; [|set_solver]. by apply MemberID_no_separator.
Qed.
End rendered.

(** The rendered object and what is read back of it. *)
Lemma rendered_parse `{!Yaml, !YamlSpec} c e m ords :
  spec_admitted c → (e < two64)%N → ordinals c m = Some ords → reads_block (config_doc c e ords) →
  ∃ cm, ConfigMap c e m = Some cm ∧ ParseConfigMap_text (cm_Data cm !! ConfigKey) = Ok (e, m).
Proof.
  intros Hadm He Ho Hread. destruct (ordinals_members _ _ _ Ho) as (Hnd & Hm & _).
  unfold ConfigMap. rewrite Ho. cbn [mbind option_bind]. eexists. split; [done|]. cbn [cm_Data]. rewrite lookup_singleton_eq.
  assert (map Config.pair (rendered_members c ords) = map (λ i, (MemberID (kc c) i, MemberAddress (kc c) i)) ords) as Hpairs.
  { unfold rendered_members. by rewrite map_map. }
  assert (NoDup (map (λ i, (MemberID (kc c) i, MemberAddress (kc c) i)) ords).*1) as Hids.
  { rewrite <-list_fmap_compose. apply NoDup_fmap_2; [|done]. intros i j Hij. by apply (inj (MemberID (kc c))). }
  unfold ParseConfigMap_text. cbn [fmap option_fmap option_map]. rewrite decode_rendered_cluster by done. unfold ParseConfigMap. cbn [co_Config].
  rewrite Hpairs, collect_members_ok by (done || by intros; apply lookup_empty). cbn. by rewrite (right_id_L ∅ _), <-Hm.
Qed.

(** C36: the file the operator writes is the file it meant.  For a spec the API
    server admits and a membership of this cluster's pods, at least [N] of
    them, [ConfigMap] renders a file from which the operator reads back exactly
    the epoch and the members; every member's pod (its name is its
    [KV_NODE_ID]) accepts the file and takes from it this epoch, these members,
    its own address, and the spec's [N], [W], [R] and group commit; a pod that
    is not a member refuses to start with it. *)
Theorem rendered_config_faithful `{!Yaml, !YamlSpec} c e m ords :
  spec_admitted c → (e < two64)%N → ordinals c m = Some ords → reads_block (config_doc c e ords) →
  ∃ cm t, ConfigMap c e m = Some cm ∧ cm_Data cm !! ConfigKey = Some t ∧ ParseConfigMap_text (Some t) = Ok (e, m) ∧
    ∀ id, id ≠ "" → Contains id "#" = false →
      match m !! id with
      | Some a => ∃ cfg, Load_text t id = Some (Ok cfg) ∧ cfg_NodeID cfg = id ∧ SelfAddress cfg = a ∧ MemberAddrs cfg = m ∧
                   c_Epoch (cfg_Cluster cfg) = e ∧ c_N (cfg_Cluster cfg) = Z.of_nat (spec_N (kc c)) ∧
                   c_W (cfg_Cluster cfg) = Z.of_nat (spec_W c) ∧ c_R (cfg_Cluster cfg) = Z.of_nat (spec_R c) ∧
                   GroupCommitOn (cfg_Storage cfg) = groupCommit (spec_Storage c)
      | None => Load_text t id = Some (Err NotAMember)
      end.
Proof.
  intros Hadm He Ho Hread. destruct (ordinals_members _ _ _ Ho) as (Hnd & Hm & Hlen).
  destruct (rendered_parse c e m ords Hadm He Ho Hread) as (cm & Hcm & Hp). exists cm, (text (config_lines c e ords)). split; [done|].
  assert (cm_Data cm !! ConfigKey = Some (text (config_lines c e ords))) as Ht.
  { unfold ConfigMap in Hcm. rewrite Ho in Hcm. injection Hcm as <-. cbn [cm_Data]. by rewrite lookup_singleton_eq. }
  split; [done|]. split; [by rewrite <-Ht|].
  intros id Hid Hsep. unfold Load_text. rewrite decode_rendered by done. cbn [fmap option_fmap option_map]. rewrite Load_rendered by done.
  assert (id ∈ m_ID <$> rendered_members c ords ↔ is_Some (m !! id)) as Hdom.
  { rewrite Hm, <-elem_of_dom, dom_list_to_map_L, elem_of_list_to_set. unfold rendered_members. by rewrite <-!list_fmap_compose. }
  destruct (m !! id) as [a|] eqn:Ea; [rewrite bool_decide_true by (apply Hdom; by eexists)|
    rewrite bool_decide_false by (rewrite Hdom; by intros []); done].
  exists (config_of c e ords id). split; [done|]. split; [done|].
  assert (validate (config_of c e ords id) = None) as Hv.
  { pose proof (Load_rendered c e ords Hadm He Hread Hnd Hlen id Hid Hsep) as Hl. rewrite bool_decide_true in Hl by (apply Hdom; by eexists).
    unfold Load in Hl. rewrite bool_decide_false in Hl by done. change (applyDefaults _) with (config_of c e ords id) in Hl.
    by destruct (validate _). }
  assert (MemberAddrs (config_of c e ords id) = m) as Hma.
  { rewrite MemberAddrs_list by done. change (c_Members _) with (rendered_members c ords). rewrite Hm. f_equal. unfold rendered_members. apply map_map. }
  split; [|done]. destruct (SelfAddress_member _ Hv) as (x & Hx & Hxid & <-).
  assert (MemberAddrs (config_of c e ords id) !! id = Some (m_Address x)) as Hl.
  { apply MemberAddrs_lookup; [done|]. exists x. by rewrite Hxid. }
  rewrite Hma in Hl. congruence.
Qed.

(** ** A cluster of three *)

Section witness.
Definition w_kv : kvcluster :=
  mkKV (mkCluster "kv" "default" 3 3 1800000000000 None None) "uid-1" 1 2 2 "kvnode:dev"
    (mkRes {["cpu" := 50%Z]} ∅ []) (mkStorageSpec 1073741824 None None) None.
Definition w_members : gmap string string := Members (kc w_kv) 3.

(** A library that knows one document, and scalars. *)
Definition split_unit (s : string) : option Z :=
  let num k := Z.of_N <$> atoi_loop (String.substring 0 (String.length s - k) s) 0 in
  match num 1 with
  | Some n =>
      if Contains s "s" then Some (n * 1000000000)%Z else if Contains s "m" then Some (n * 60000000000)%Z else None
  | None => (λ n, n * 1000000)%Z <$> num 2
  end.

Definition w_yaml : Yaml := {|
  yaml_parse := λ t, if bool_decide (t = emit_doc (config_doc w_kv 4 [0; 1; 2])) then Some (config_doc w_kv 4 [0; 1; 2]) else None;
  yaml_int := Atoi;
  yaml_uint64 := λ s, atoi_abs s (two64 - 1);
  yaml_bool := λ s, if bool_decide (s = "true") then Some true else if bool_decide (s = "false") then Some false else None;
  yaml_duration := split_unit
|}.

Lemma substring_app s t : String.substring 0 (String.length s) (s +:+ t) = s.
Proof.
  induction s as [|x s IH]; [by destruct t|].
  change (String x (String.substring 0 (String.length s) (s +:+ t)) = String x s). by rewrite IH.
Qed.

Lemma length_string_app s t : String.length (s +:+ t) = String.length s + String.length t.
Proof. induction s as [|x s IH]; [done|]. change (S (String.length (s +:+ t)) = S (String.length s + String.length t)). by rewrite IH. Qed.

Lemma Contains_app_number (n : N) c t : digit_of c = None → Contains (pretty n +:+ t) (String c "") = Contains t (String c "").
Proof.
  intros Hc. rewrite !Contains_char, to_bytes_app, existsb_app.
  change (existsb (Ascii.eqb c) (to_bytes (pretty n)) || existsb (Ascii.eqb c) (to_bytes t) = existsb (Ascii.eqb c) (to_bytes t)).
  by rewrite (atoi_loop_no c _ _ _ Hc (atoi_loop_pretty n)).
Qed.

Lemma atoi_loop_app s t acc : atoi_loop (s +:+ t) acc = n ← atoi_loop s acc; atoi_loop t n.
Proof.
  revert acc. induction s as [|x s IH]; intros acc; [done|]. change (String x s +:+ t) with (String x (s +:+ t)).
  cbn [atoi_loop]. destruct (digit_of x); [apply IH|done].
Qed.

Lemma w_yaml_spec : @YamlSpec w_yaml.
Proof.
  split.
  - intros n Hn. by apply Atoi_pretty.
  - intros n Hn. unfold yaml_uint64, w_yaml, atoi_abs. pose proof (pretty_not_empty n). destruct (pretty n) as [|x s] eqn:E; [done|].
    rewrite <-E, atoi_loop_pretty. by rewrite (proj2 (N.leb_le _ _)) by lia.
  - done.
  - intros n _. unfold yaml_duration, w_yaml, split_unit.
    assert (∀ u k, k = String.length u → String.substring 0 (String.length (pretty n +:+ u) - k) (pretty n +:+ u) = pretty n) as Hs.
    { intros u k ->. rewrite length_string_app, Nat.add_sub. apply substring_app. }
    split_and!.
    + assert (pretty n +:+ "ms" = (pretty n +:+ "m") +:+ "s") as E1 by (by rewrite string_app_assoc).
      assert (String.substring 0 (String.length (pretty n +:+ "ms") - 1) (pretty n +:+ "ms") = pretty n +:+ "m") as ->.
      { rewrite E1, length_string_app, Nat.add_sub. apply substring_app. }
      rewrite atoi_loop_app, atoi_loop_pretty. cbn [mbind option_bind atoi_loop digit_of]. rewrite Hs, atoi_loop_pretty by done. done.
    + rewrite Hs, atoi_loop_pretty by done. cbn [fmap option_fmap option_map]. rewrite (Contains_app_number n "s") by done. done.
    + rewrite Hs, atoi_loop_pretty by done. cbn [fmap option_fmap option_map].
      rewrite (Contains_app_number n "s"), (Contains_app_number n "m") by done. done.
Qed.

#[local] Existing Instance w_yaml.
#[local] Existing Instance w_yaml_spec.

Lemma rendered_config_faithful_witness :
  ∃ cm t, ConfigMap w_kv 4 w_members = Some cm ∧ cm_Data cm !! ConfigKey = Some t ∧ ParseConfigMap_text (Some t) = Ok (4%N, w_members).
Proof.
  destruct (rendered_config_faithful w_kv 4 w_members [0; 1; 2]) as (cm & t & H1 & H2 & H3 & _).
  - split_and!; vm_compute; first [lia | discriminate | reflexivity].
  - reflexivity.
  - vm_compute. reflexivity.
  - unfold reads_block, yaml_parse, w_yaml. rewrite bool_decide_true; reflexivity.
  - exists cm, t. split; [exact H1|]. split; [exact H2|exact H3].
Defined.
End witness.
