(* ===== verification/Reconcile.v ===== *)
(** * One reconcile of the operator (operator/internal/controller:
      kvcluster_controller.go, status.go, observe.go)

    [Reconcile] from end to end: it keeps the fixed objects applied, observes
    (Observe.v), plans (Planner.v), carries out the one action with the objects
    of Render.v, and writes the status.  The answers of the API server and of
    the nodes are inputs; a call that fails on the way may still have taken
    effect.  [meta.SetStatusCondition] is a parameter.

    Shown: a reconcile is at most one step of the operator's model, with the
    status that says so; and a scaled StatefulSet keeps its pod template, which
    only an update brings in line with the spec. *)

From stdpp Require Import gmap strings list pretty sorting.
From Stdlib Require Import ZArith Lia Ascii.
From S2P Require Import Prelude GoLib GoStrings Membership Heartbeat Admin Config Planner Operator Observe Render.

Open Scope nat_scope.

(** ** Pod templates *)

(** [placementOf]: the part of a pod spec that [spec.placement] controls; empty
    and nil are the same here *)
Definition placement : Type := option Affinity * gmap string string * list Toleration * list SpreadConstraint.
Definition placementOf (p : PodSpec) : placement := (ps_Affinity p, ps_NodeSelector p, ps_Tolerations p, ps_Spread p).
Definition setPlacement (dst : PodSpec) (from : placement) : PodSpec :=
  let '(a, n, t, s) := from in
  mkPodSpec (TerminationGracePeriodSeconds dst) a s n t (RunAsNonRoot dst) (RunAsUser dst) (RunAsGroup dst) (FSGroup dst)
    (FSGroupChangePolicy dst) (SeccompProfile dst) (Containers dst) (ConfigVolumes dst).
Definition set_TemplateSpec (s : StatefulSetObject) (p : PodSpec) : StatefulSetObject :=
  mkStatefulSet (ss_Meta s) (ss_ServiceName s) (ss_Replicas s) (PodManagementPolicy s) (WhenScaled s) (WhenDeleted s)
    (MinReadySeconds s) (ss_Selector s) (TemplateLabels s) p (VolumeClaimTemplates s).

#[global] Instance ResourceRequirements_eq_dec : EqDecision ResourceRequirements.
Proof. solve_decision. Defined.
#[global] Instance Toleration_eq_dec : EqDecision Toleration.
Proof. solve_decision. Defined.
#[global] Instance AffinityTerm_eq_dec : EqDecision AffinityTerm.
Proof. solve_decision. Defined.
#[global] Instance Affinity_eq_dec : EqDecision Affinity.
Proof. solve_decision. Defined.
#[global] Instance SpreadConstraint_eq_dec : EqDecision SpreadConstraint.
Proof. solve_decision. Defined.

(** The first container named [kv] decides. *)
Definition templateCurrent (kv : kvcluster) (sts : StatefulSetObject) : bool :=
  let want := TemplateSpec (Render.StatefulSet kv 0) in
  if negb (bool_decide (placementOf (TemplateSpec sts) = placementOf want)) then false
  else match List.find (λ c, bool_decide (ct_Name c = "kv")) (Containers (TemplateSpec sts)) with
       | Some c => bool_decide (ct_Image c = Image kv) && bool_decide (ct_Resources c = Resources kv)
       | None => false
       end.

(** The image and resources of the last container named [kv]; the source keeps
    assigning. *)
Definition set_source (kv : kvcluster) (image : string) (r : ResourceRequirements) : kvcluster :=
  mkKV (kc kv) (kc_UID kv) (Generation kv) (spec_W kv) (spec_R kv) image r (spec_Storage kv) (spec_Placement kv).
Definition templateSource (kv : kvcluster) (sts : option StatefulSetObject) : kvcluster :=
  match sts with
  | None => kv
  | Some sts =>
      fold_left (λ src c, if bool_decide (ct_Name c = "kv") then set_source src (ct_Image c) (ct_Resources c) else src)
        (Containers (TemplateSpec sts)) kv
  end.
Definition scaledStatefulSet (kv : kvcluster) (sts : option StatefulSetObject) (replicas : nat) : StatefulSetObject :=
  let out := Render.StatefulSet (templateSource kv sts) replicas in
  match sts with
  | Some sts => set_TemplateSpec out (setPlacement (TemplateSpec out) (placementOf (TemplateSpec sts)))
  | None => out
  end.

(** ** The one action *)

Inductive request :=
  | ReqNone
  | ReqConfigMap (cm : ConfigMapObject)
  | ReqStatefulSet (s : StatefulSetObject)
  | ReqPost (ordinal : nat) (e : N) (m : gmap string string).

(** [execute], up to the call it makes; [None] if the ConfigMap is refused *)
Definition execute (kv : kvcluster) (sts : option StatefulSetObject) (a : Action) : option request :=
  match a with
  | ActNone _ | ActWait _ => Some ReqNone
  | ActWriteConfigMap e m => cm ← Render.ConfigMap kv e m; Some (ReqConfigMap cm)
  | ActScaleStatefulSet r => Some (ReqStatefulSet (scaledStatefulSet kv sts r))
  | ActUpdateTemplate r => Some (ReqStatefulSet (Render.StatefulSet kv r))
  | ActPostMembership i e m => Some (ReqPost i e m)
  end.

Inductive act_error := RenderRefused | ApplyError | PostError (e : call_error).

(** A call arrives and is answered, or fails, having taken effect or not. *)
Inductive call_outcome := Arrives | Fails (took_effect : bool).

Section effects.
Context `{!Yaml} (n : nat).

(** What a node answers to a POST; the members are names. *)
Definition post (w : world) (i : nat) (e : N) (m : gmap string string) : world * option act_error :=
  match w_node w !! i with
  | None => (w, Some (PostError Transport))
  | Some v =>
      if size m <? n then (w, Some (PostError (Answered (mkAPI 400 "invalid membership" "" None))))
      else if (n_epoch v <? e)%N then (set_node w i (mkNode e m (n_done v)), None)
      else if (n_epoch v =? e)%N && bool_decide (n_members v = m) then (w, None)
      else (w, Some (PostError (Answered (mkAPI 409 "conflict" "" (Some (n_epoch v))))))
  end.

(** What a request does, and its answer.  [None]: the ConfigMap cannot be read
    back, and no world of the model has it. *)
Definition effect (q : request) (w : world) : option (world * option act_error) :=
  match q with
  | ReqNone => Some (w, None)
  | ReqConfigMap cm =>
      match ParseConfigMap_text (cm_Data cm !! ConfigKey) with
      | Ok (e, m) => Some (set_cm w e m, None)
      | Err _ => None
      end
  | ReqStatefulSet s => Some (set_sts w (ss_Replicas s), None)
  | ReqPost i e m => Some (post w i e m)
  end.

Definition call_failed (q : request) : act_error := match q with ReqPost _ _ _ => PostError Transport | _ => ApplyError end.

Definition send (q : request) (o : call_outcome) (w : world) : option (world * option act_error) :=
  match q, o with
  | ReqNone, _ => Some (w, None)
  | _, Arrives => effect q w
  | _, Fails true => r ← effect q w; Some (r.1, Some (call_failed q))
  | _, Fails false => Some (w, Some (call_failed q))
  end.
End effects.

(** ** The status *)

Inductive cond_reason := Planned (r : option reason) | ApplyFailed | ActionSucceeded.
Record Condition := mkCondition { cn_Type : string; cn_Status : bool; cn_Reason : cond_reason; cn_Generation : Z }.

(** [meta.SetStatusCondition]; transition times are left out. *)
Class Conditions := set_condition : list Condition → Condition → list Condition.
Definition find_condition (t : string) (l : list Condition) : option Condition := List.find (λ c, bool_decide (cn_Type c = t)) l.
(** It sets the condition of its type and no other. *)
Class ConditionsSpec `{!Conditions} : Prop :=
  find_set_condition t l c : find_condition t (set_condition l c) = if bool_decide (cn_Type c = t) then Some c else find_condition t l.

Definition ConditionAvailable : string := "Available".
Definition ConditionProgressing : string := "Progressing".
Definition ConditionDrainBlocked : string := "DrainBlocked".
Definition ConditionDegraded : string := "Degraded".
Definition ConditionActionFailed : string := "ActionFailed".

Record KVClusterStatus := mkKVStatus {
  ks_ObservedGeneration : Z; ks_Phase : option string; ks_Epoch : Z; ks_Members : list (string * string);
  ks_Replicas : nat; ks_ReadyReplicas : nat; ks_Selector : string; ks_DrainStartedAt : option Z; ks_Conditions : list Condition
}.

(** [int64] of a [uint64] *)
Definition int64 (e : N) : Z := if (e <? 9223372036854775808)%N then Z.of_N e else (Z.of_N e - 18446744073709551616)%Z.

Section status.
Context `{!Conditions} (selector_string : gmap string string → string).

Definition actionFailed (kv : kvcluster) (err : option act_error) : Condition :=
  match err with
  | None => mkCondition ConditionActionFailed false ActionSucceeded (Generation kv)
  | Some _ => mkCondition ConditionActionFailed true ApplyFailed (Generation kv)
  end.

(** [members]: sorted by ordinal, 0 for an ID that is none of the pods' *)
Definition ord_of (kv : KVCluster) (id : string) : nat := default 0 (Ordinal kv id).
Definition ord_le (kv : KVCluster) (p q : string * string) : Prop := ord_of kv p.1 ≤ ord_of kv q.1.
#[global] Instance ord_le_dec kv p q : Decision (ord_le kv p q).
Proof. unfold ord_le. apply _. Defined.
Definition members (kv : KVCluster) (m : gmap string string) : list (string * string) := merge_sort (ord_le kv) (map_to_list m).

Definition phase_is (st : Status) (phases : list string) : bool := bool_decide (st_Phase st ∈ phases).
Definition conditions (st : Status) : list (string * bool) :=
  [(ConditionAvailable, phase_is st [PhaseReady; PhaseScaling; PhaseDrainBlocked]); (ConditionProgressing, phase_is st [PhasePending; PhaseScaling]);
   (ConditionDrainBlocked, phase_is st [PhaseDrainBlocked]); (ConditionDegraded, phase_is st [PhaseDegraded])].

(** [recordFailure] and [writeStatus], up to the patch *)
Definition recordFailure (kv : kvcluster) (ks : KVClusterStatus) (err : act_error) : KVClusterStatus :=
  mkKVStatus (ks_ObservedGeneration ks) (ks_Phase ks) (ks_Epoch ks) (ks_Members ks) (ks_Replicas ks) (ks_ReadyReplicas ks) (ks_Selector ks)
    (ks_DrainStartedAt ks) (set_condition (ks_Conditions ks) (actionFailed kv (Some err))).
Definition writeStatus (kv : kvcluster) (ks : KVClusterStatus) (st : Status) (actErr : option act_error) : KVClusterStatus :=
  let cs := fold_left (λ l p, set_condition l (mkCondition p.1 p.2 (Planned (st_Reason st)) (Generation kv))) (conditions st) (ks_Conditions ks) in
  mkKVStatus (Generation kv) (Some (st_Phase st)) (int64 (st_Epoch st)) (members (kc kv) (st_Members st)) (st_Replicas st)
    (st_ReadyReplicas st) (selector_string selectorLabels) (DrainStartedAt st) (set_condition cs (actionFailed kv actErr)).
End status.

(** ** [Reconcile] *)

Inductive fixed_object := FixedService (s : Service) | FixedBudget (b : PodDisruptionBudgetObject).

(** What the reconcile is given, in the order it asks: the cluster with whether
    it is being deleted and its status, the applies of the fixed objects, what
    [observe] reads, the call of the action, the patch of the status. *)
Record sts_status := mkStsStatus {
  sx_Generation : N; sx_ObservedGeneration : N; sx_UpdatedReplicas : nat; sx_ReadyReplicas : nat; sx_UpdateRevision : string; sx_CurrentRevision : string
}.
Record inputs := mkInputs {
  in_Get : get (kvcluster * bool * KVClusterStatus);
  in_Apply : fixed_object → bool;
  in_Now : Z; in_Sts : get (StatefulSetObject * sts_status); in_Cm : get ConfigMapObject;
  in_Claims : option (list string); in_Pods : option (list pod_object); in_Ask : nat → answers;
  in_Call : call_outcome;
  in_Patch : bool
}.

Inductive rec_error := GetError | NotApplied | NotObserved | NotPatched | ActionError (e : act_error).

(** The cluster's world, the status the API server has, the operator's memory of
    silent pods, and the result with the time to come back. *)
Record output := mkOutput { out_World : world; out_Status : option KVClusterStatus; out_Unreachable : gmap string Z; out_Result : res rec_error Z }.

Section reconcile.
Context `{!Yaml} `{!Conditions} (selector_string : gmap string string → string) (cfg : Planner.Config).

(** The cluster as the planner reads it, its status included. *)
Definition planner_cluster (kv : kvcluster) (ks : KVClusterStatus) : KVCluster :=
  let c := kc kv in mkCluster (Name c) (Namespace c) (spec_Replicas c) (spec_N c) (spec_DrainTimeout c) (ks_Phase ks) (ks_DrainStartedAt ks).

Definition get_map {A B} (f : A → B) (g : get A) : get B :=
  match g with Found a => Found (f a) | NotFound => NotFound | GetFailed => GetFailed end.
Definition sts_read (kv : kvcluster) (p : StatefulSetObject * sts_status) : sts_object :=
  let '(s, x) := p in
  mkStsObj (Some (ss_Replicas s)) (sx_Generation x) (sx_ObservedGeneration x) (sx_UpdatedReplicas x) (sx_ReadyReplicas x)
    (sx_UpdateRevision x) (sx_CurrentRevision x) (templateCurrent kv s).
Definition cm_read (cm : ConfigMapObject) : cm_object := mkCmObj (decode_cluster <$> cm_Data cm !! ConfigKey).
Definition observed (kv : kvcluster) (ks : KVClusterStatus) (i : inputs) (u : gmap string Z) : option (Observation * gmap string Z) :=
  observe (planner_cluster kv ks) (in_Now i) (get_map (sts_read kv) (in_Sts i)) (get_map cm_read (in_Cm i)) (in_Claims i) (in_Pods i) (in_Ask i) u.

Definition IsStatus409 (e : act_error) : bool := match e with PostError e => IsStatus e 409 | _ => false end.

Definition requeue (a : Action) : Z := match a with ActNone t | ActWait t => t | _ => Fast cfg end.

(** [None]: the planner panics, or the world leaves the model *)
Definition Reconcile (w : world) (u : gmap string Z) (i : inputs) : option output :=
  match in_Get i with
  | GetFailed => Some (mkOutput w None u (Err GetError))
  | NotFound => Some (mkOutput w None u (Ok 0%Z))
  | Found (kv, deleting, ks) =>
      let patched s := if in_Patch i then s else ks in
      if (deleting : bool) then Some (mkOutput w (Some ks) u (Ok 0%Z))
      else if negb (forallb (in_Apply i) [FixedService (HeadlessService kv); FixedService (ClientService kv); FixedBudget (PodDisruptionBudget kv)])
      then Some (mkOutput w (Some (patched (recordFailure kv ks ApplyError))) u (Err NotApplied))
      else match observed kv ks i u with
      | None => Some (mkOutput w (Some ks) u (Err NotObserved))
      | Some (obs, u) =>
          '(a, st) ← Plan obs cfg;
          let sts := match in_Sts i with Found (s, _) => Some s | _ => None end in
          '(w, err) ← match execute kv sts a with
                      | None => Some (w, Some RenderRefused)
                      | Some q => send (spec_N (kc kv)) q (in_Call i) w
                      end;
          let actErr := match err with Some e => if IsStatus409 e then None else Some e | None => None end in
          Some (mkOutput w (Some (patched (writeStatus selector_string kv ks st actErr))) u
            (if in_Patch i then match actErr with Some e => Err (ActionError e) | None => Ok (requeue a) end else Err NotPatched))
      end
  end.
End reconcile.

(** ** Templates *)

Definition set_Replicas (s : StatefulSetObject) (r : nat) : StatefulSetObject :=
  mkStatefulSet (ss_Meta s) (ss_ServiceName s) r (PodManagementPolicy s) (WhenScaled s) (WhenDeleted s)
    (MinReadySeconds s) (ss_Selector s) (TemplateLabels s) (TemplateSpec s) (VolumeClaimTemplates s).

(** What no spec change touches: identity and storage are immutable. *)
Definition same_cluster (kv kv0 : kvcluster) : Prop :=
  Name (kc kv) = Name (kc kv0) ∧ Namespace (kc kv) = Namespace (kc kv0) ∧ kc_UID kv = kc_UID kv0 ∧ spec_Storage kv = spec_Storage kv0.

Lemma StatefulSet_ext kv kv0 r :
  same_cluster kv kv0 → Image kv = Image kv0 → Resources kv = Resources kv0 →
  placementOf (TemplateSpec (Render.StatefulSet kv 0)) = placementOf (TemplateSpec (Render.StatefulSet kv0 0)) →
  Render.StatefulSet kv r = Render.StatefulSet kv0 r.
Proof.
  intros (Hn & Hns & Hu & Hs) Hi Hr Hp. cbn in Hp. injection Hp as Ha Hsel Ht Hsp.
  unfold Render.StatefulSet, kv_container, labels, operatorLabels, objectMeta, StatefulSetName, ServiceName, ConfigMapName.
  by rewrite Hn, Hns, Hu, Hs, Hi, Hr, Ha, Hsel, Ht, Hsp.
Qed.

(** Changing the number of pods never rolls them.  A StatefulSet rendered
    for an earlier spec of the cluster, scaled under a later one, changes in
    nothing but its replicas, and its template is as current as before; the
    operator takes a template for current exactly when rendering the spec anew
    would change nothing but the replicas, and one that was just rendered is. *)
Theorem scaling_keeps_template kv kv0 r0 r :
  same_cluster kv kv0 →
  let s := Render.StatefulSet kv0 r0 in
  scaledStatefulSet kv (Some s) r = set_Replicas s r ∧
  templateCurrent kv (scaledStatefulSet kv (Some s) r) = templateCurrent kv s ∧
  (templateCurrent kv s = true ↔ Render.StatefulSet kv r = set_Replicas s r) ∧
  templateCurrent kv (Render.StatefulSet kv r) = true.
Proof.
  intros Hsame s.
  assert (scaledStatefulSet kv (Some s) r = set_Replicas s r) as Hscaled.
  { destruct Hsame as (Hn & Hns & Hu & Hs). unfold scaledStatefulSet.
    change (templateSource kv (Some s)) with (set_source kv (Image kv0) (Resources kv0)).
    unfold s, set_TemplateSpec, set_Replicas, Render.StatefulSet, kv_container, labels, operatorLabels, objectMeta, StatefulSetName, ServiceName, ConfigMapName.
    cbn [set_source kc kc_UID Image Resources spec_Storage ss_Meta ss_ServiceName TemplateSpec VolumeClaimTemplates TemplateLabels placementOf setPlacement].
    by rewrite Hn, Hns, Hu, Hs. }
  split; [done|]. split; [by rewrite Hscaled|]. split.
  - unfold templateCurrent. cbn [Containers TemplateSpec s Render.StatefulSet List.find kv_container ct_Name ct_Image ct_Resources].
    rewrite (bool_decide_true ("kv" = "kv")) by done. case_bool_decide as Hp; cbn [negb].
    + rewrite andb_true_iff, !bool_decide_eq_true. split.
      * intros [Hi Hr]. by apply (StatefulSet_ext kv kv0 r).
      * intros E. apply (f_equal (λ x, Containers (TemplateSpec x))) in E. cbn in E. by injection E as -> ->.
    + split; [done|]. intros E. exfalso. apply Hp. symmetry. apply (f_equal (λ x, placementOf (TemplateSpec x)) E).
  - unfold templateCurrent. rewrite bool_decide_true by done. cbn. by rewrite !bool_decide_true.
Qed.

(** ** The status *)

Section status_facts.
Context `{!Conditions, !ConditionsSpec}.

(** The condition of each type after [writeStatus]. *)
Definition reported (kv : kvcluster) (ks : KVClusterStatus) (st : Status) (failed : bool) (t : string) : option Condition :=
  if bool_decide (t = ConditionActionFailed)
  then Some (mkCondition t failed (if failed then ApplyFailed else ActionSucceeded) (Generation kv))
  else match List.find (λ p, bool_decide (p.1 = t)) (conditions st) with
       | Some p => Some (mkCondition t p.2 (Planned (st_Reason st)) (Generation kv))
       | None => find_condition t (ks_Conditions ks)
       end.

Lemma fold_set_condition mk l cs t :
  (∀ p, cn_Type (mk p) = p.1) → NoDup l.*1 →
  find_condition t (fold_left (λ l (p : string * bool), set_condition l (mk p)) l cs) =
  match List.find (λ p, bool_decide (p.1 = t)) l with Some p => Some (mk p) | None => find_condition t cs end.
Proof.
  intros Hmk. revert cs. induction l as [|p l IH]; intros cs Hnd; [done|]. apply NoDup_cons in Hnd as [Hp Hnd].
  cbn [fold_left List.find]. rewrite IH, find_set_condition, Hmk by done. case_bool_decide as Ht; [|done].
  destruct (List.find _ l) as [q|] eqn:E; [|done]. exfalso. apply find_some in E as [Hin Hq%bool_decide_eq_true].
  apply Hp. rewrite Ht, <-Hq. apply list_elem_of_fmap_2. by apply list_elem_of_In.
Qed.

Lemma writeStatus_conditions sel kv ks st err t :
  find_condition t (ks_Conditions (writeStatus sel kv ks st err)) = reported kv ks st (bool_decide (err ≠ None)) t.
Proof.
  unfold writeStatus, reported. cbn [ks_Conditions]. rewrite find_set_condition.
  assert (cn_Type (actionFailed kv err) = ConditionActionFailed) as -> by (by destruct err).
  rewrite (bool_decide_ext (ConditionActionFailed = t) (t = ConditionActionFailed)) by done. case_bool_decide as Ht.
  { subst t. by destruct err. }
  rewrite (fold_set_condition (λ p, mkCondition p.1 p.2 (Planned (st_Reason st)) (Generation kv))); [|done|].
  - destruct (List.find _ _) as [p|] eqn:E; [|done]. by apply find_some in E as [_ <-%bool_decide_eq_true].
  - apply (bool_decide_unpack _). vm_compute. exact I.
Qed.
End status_facts.

(** The members a status lists for [k] pods: these, in order. *)
Lemma members_in_order kv k :
  int_ok k → members kv (Members kv k) = map (λ i, (MemberID kv i, MemberAddress kv i)) (seq 0 k).
Proof.
  intros Hk. set (l := map _ _).
  assert (∀ p, p ∈ l → ∃ i, i < k ∧ p = (MemberID kv i, MemberAddress kv i) ∧ ord_of kv p.1 = i) as Hl.
  { intros p (i & -> & Hi)%list_elem_of_fmap. apply elem_of_seq in Hi. exists i. split; [lia|]. split; [done|].
    unfold ord_of. cbn. rewrite Ordinal_MemberID; [done|]. unfold int_ok in *. lia. }
  assert (members kv (Members kv k) ≡ₚ l) as Hp.
  { unfold members. rewrite merge_sort_Permutation. apply NoDup_Permutation; [apply NoDup_map_to_list| |].
    - apply NoDup_fmap_2; [|apply NoDup_seq]. intros i j [= E _]. by apply (inj (MemberID kv)).
    - intros [id a]. rewrite elem_of_map_to_list, Members_lookup. split.
      + intros (i & Hi & -> & ->). apply list_elem_of_fmap. exists i. split; [done|]. apply elem_of_seq. lia.
      + intros (i & Hi & [= -> ->] & _)%Hl. by exists i. }
  apply (StronglySorted_unique_strong (ord_le kv)); [| | |done].
  - intros x y Hx Hy H1 H2. rewrite Hp in Hx. destruct (Hl x Hx) as (i & _ & -> & Ei), (Hl y Hy) as (j & _ & -> & Ej).
    unfold ord_le in *. assert (i = j) as -> by lia. done.
  - apply StronglySorted_merge_sort; [intros x y z; unfold ord_le; lia|intros x y; unfold ord_le; lia].
  - subst l. assert (∀ a n, a + n ≤ k → StronglySorted (ord_le kv) (map (λ i, (MemberID kv i, MemberAddress kv i)) (seq a n))) as H; [|by apply H].
    clear Hl Hp. intros a n. revert a. induction n as [|n IH]; intros a Ha; cbn [seq map]; constructor; [apply IH; lia|].
    apply Forall_map, Forall_forall. intros i Hi%elem_of_seq. unfold ord_le, ord_of. cbn.
    rewrite !Ordinal_MemberID by (unfold int_ok in *; lia). cbn. lia.
Qed.

(** ** A reconcile as a step *)

Lemma render_check_ext c c' m :
  Name c = Name c' → Namespace c = Namespace c' → spec_N c = spec_N c' → render_check c m = render_check c' m.
Proof.
  intros Hn Hns HN. unfold render_check. rewrite HN. f_equal. induction (map_to_list m) as [|p l IH]; [done|]. cbn [forallb]. rewrite IH. f_equal.
  unfold member_ok, Ordinal, MemberAddress, PodHost, MemberID. by rewrite Hn, Hns.
Qed.

Lemma inv_cm_epoch c0 w e m : inv c0 w → w_cm w = Some (e, m) → (e < two64)%N.
Proof.
  intros Hinv Hcm. destruct (inv_phase _ _ Hinv) as [H|? H|? ? H|? ? H|? ? H|? ? H|? ? H]; rewrite Hcm in H; [done|..]; injection H as -> _;
    unfold two64 in *; lia.
Qed.

(** What the planner decides in a reachable world is carried out there. *)
Lemma planned_step c0 w obs cfg :
  reachable_world c0 w → room w → observes c0 w obs →
  ∃ a st w', Plan obs cfg = Some (a, st) ∧ explained st ∧ Operator.execute c0 a w = Some w' ∧ step c0 w w' ∧ inv c0 w'.
Proof.
  intros Hw Hr Hobs. pose proof (world_reachable_inv c0 w Hw) as Hinv.
  assert (∀ a st w', Plan obs cfg = Some (a, st) → Operator.execute c0 a w = Some w' → step c0 w w' ∧ inv c0 w') as Hs.
  { intros a st w' Hp He. assert (step c0 w w') by by eapply step_operator. split; [done|]. by eapply step_inv. }
  destruct (plan_world c0 w obs cfg Hobs Hinv) as (a & st & Hp & Hx & [Hwait|((w' & He & _) & _)]).
  - exists a, st, w. assert (Operator.execute c0 a w = Some w) as He by (by destruct a). split_and!; try done; by eapply Hs.
  - exists a, st, w'. split_and!; try done; by eapply Hs.
Qed.

(** An action that makes a call, and the call fails. *)
Definition call_fails (a : Action) (call : call_outcome) : bool :=
  match a, call with ActNone _, _ | ActWait _, _ | _, Arrives => false | _, Fails _ => true end.

Section one_step.
Context `{!Yaml, !YamlSpec} `{!Conditions, !ConditionsSpec} (sel : gmap string string → string) (cfg : Planner.Config).
Context (c0 : KVCluster) (kv : kvcluster).
Hypotheses (Hname : Name (kc kv) = Name c0) (Hns : Namespace (kc kv) = Namespace c0) (HN : spec_N (kc kv) = spec_N c0)
  (Hadm : spec_admitted kv).

(** The request made for an action does what the model's action does, unless
    the call fails without effect. *)
Lemma request_refines sts a w w' call :
  Operator.execute c0 a w = Some w' →
  match a with ActWriteConfigMap e m => (e < two64)%N ∧ ∀ ords, ordinals kv m = Some ords → reads_block (config_doc kv e ords) | _ => True end →
  ∃ q, execute kv sts a = Some q ∧
    send (spec_N (kc kv)) q call w =
    Some (match call with Fails false => w | _ => w' end,
          if call_fails a call then Some (call_failed q) else None).
Proof.
  intros He Ha. destruct a as [t|t|e m|r|r|i e m]; cbn [execute].
  - injection He as <-. exists ReqNone. split; [done|]. by destruct call as [|[]].
  - injection He as <-. exists ReqNone. split; [done|]. by destruct call as [|[]].
  - cbn [Operator.execute] in He. destruct (render_check c0 m) eqn:Ec; [|done]. injection He as <-.
    destruct Ha as [He Hread]. assert (∃ ords, ordinals kv m = Some ords) as [ords Ho].
    { unfold ordinals. rewrite (render_check_ext (kc kv) c0 m Hname Hns HN), Ec. by eexists. }
    destruct (rendered_parse kv e m ords Hadm He Ho (Hread ords Ho)) as (cm & Hcm & Hp).
    rewrite Hcm. cbn [mbind option_bind]. eexists. split; [done|]. destruct call as [|[]]; cbn; by rewrite ?Hp.
  - injection He as <-. eexists. split; [done|]. destruct call as [|[]]; cbn; [by destruct sts..|done].
  - injection He as <-. eexists. split; [done|]. by destruct call as [|[]].
  - cbn [Operator.execute] in He. exists (ReqPost i e m). split; [done|].
    assert (post (spec_N (kc kv)) w i e m = (w', None)) as Hpost.
    { unfold post. rewrite HN. destruct (w_node w !! i) as [v|]; [|done]. destruct (n_epoch v <? e)%N; [|done]. cbn [andb] in He.
      destruct (Nat.leb_spec (spec_N c0) (size m)); [|done]. rewrite (proj2 (Nat.ltb_ge _ _)) by done. by injection He as <-. }
    destruct call as [|[]]; cbn; by rewrite ?Hpost.
Qed.

(** C23: a reconcile is one step of the operator.  In every cluster the operator
    can have reached, from what it observes truly of it, the planner decides;
    the reconcile makes that one step, whose call succeeds, or fails with or
    without having taken effect.  It asks to be run again soon after a step and
    when the planner says otherwise; it returns an error exactly when the call
    failed or the status could not be written.  The status it writes is the
    planner's, and its conditions say of the phase and of the call what they
    promise, leaving conditions of other types as they were. *)
Theorem reconcile_one_step w u i ks obs u' :
  reachable_world c0 w → room w →
  in_Get i = Found (kv, false, ks) → (∀ o, in_Apply i o = true) → observed kv ks i u = Some (obs, u') → observes c0 w obs →
  (∀ e m st ords, Plan obs cfg = Some (ActWriteConfigMap e m, st) → ordinals kv m = Some ords → reads_block (config_doc kv e ords)) →
  ∃ a st w' o, Plan obs cfg = Some (a, st) ∧ explained st ∧ step c0 w w' ∧ Reconcile sel cfg w u i = Some o ∧
    out_World o = match in_Call i with Fails false => w | _ => w' end ∧ out_Unreachable o = u' ∧
    match out_Result o with
    | Ok t => in_Patch i = true ∧ call_fails a (in_Call i) = false ∧ t = requeue cfg a
    | Err _ => in_Patch i = false ∨ call_fails a (in_Call i) = true
    end ∧
    if in_Patch i
    then ∃ ks', out_Status o = Some ks' ∧ ks_Phase ks' = Some (st_Phase st) ∧ ks_DrainStartedAt ks' = DrainStartedAt st ∧
           ks_Members ks' = members (kc kv) (st_Members st) ∧
           ∀ t, find_condition t (ks_Conditions ks') = reported kv ks st (call_fails a (in_Call i)) t
    else out_Status o = Some ks.
Proof.
  intros Hw Hr Hget Happ Hobserved Hobs Hread.
  destruct (planned_step c0 w obs cfg Hw Hr Hobs) as (a & st & w' & Hp & Hx & He & Hstep & Hinv).
  destruct (request_refines (match in_Sts i with Found (s, _) => Some s | _ => None end) a w w' (in_Call i) He) as (q & Hq & Hsend).
  { destruct a as [| |e m| | |]; try done. split; [|intros ords; by apply (Hread e m st)].
    cbn in He. destruct (render_check c0 m); [|done]. injection He as <-. by apply (inv_cm_epoch c0 _ e m Hinv). }
  exists a, st, w'. unfold Reconcile. rewrite Hget. cbn [forallb]. rewrite !Happ. cbn [andb negb]. rewrite Hobserved, Hp.
  cbn [mbind option_bind]. rewrite Hq, Hsend. cbn [mbind option_bind]. eexists. split_and!; try done; cbn [out_Result out_Status].
  - assert (IsStatus409 (call_failed q) = false) as Hno by (by destruct q).
    destruct (in_Patch i), (call_fails a (in_Call i)); rewrite ?Hno; auto.
  - assert (IsStatus409 (call_failed q) = false) as Hno by (by destruct q). destruct (in_Patch i); [|done].
    eexists. split; [done|]. split_and!; [done..|]. intros t. rewrite writeStatus_conditions.
    by destruct (call_fails a (in_Call i)); rewrite ?Hno.
Qed.
End one_step.

Lemma send_effect `{!Yaml} n q call w w1 err :
  send n q call w = Some (w1, err) → w1 = w ∨ fst <$> effect n q w = Some w1.
Proof.
  assert (∀ e, (r ← effect n q w; Some (r.1, e)) = Some (w1, err) → fst <$> effect n q w = Some w1) as Hlost.
  { intros e. destruct (effect n q w) as [[]|]; [|done]. cbn. by intros [= <- _]. }
  destruct q, call as [|[|]]; cbn [send]; intros Hs; try (by injection Hs as <- _; left); right;
    try (by eapply Hlost); by rewrite Hs.
Qed.

(** Whatever it is given, a reconcile changes the cluster only after every
    fixed object was applied and a whole observation was made, and only by the
    request of the action the planner returned for it. *)
Lemma reconcile_changes_as_planned `{!Yaml} `{!Conditions} sel cfg w u i o :
  Reconcile sel cfg w u i = Some o → out_World o ≠ w →
  ∃ kv ks obs u' a st q, in_Get i = Found (kv, false, ks) ∧ observed kv ks i u = Some (obs, u') ∧ Plan obs cfg = Some (a, st) ∧
    execute kv (match in_Sts i with Found (s, _) => Some s | _ => None end) a = Some q ∧ fst <$> effect (spec_N (kc kv)) q w = Some (out_World o).
Proof.
  unfold Reconcile. destruct (in_Get i) as [[[kv [|]] ks]| |]; [by intros [= <-]|..|by intros [= <-]|by intros [= <-]].
  destruct (negb _); [by intros [= <-]|]. destruct (observed kv ks i u) as [[obs u']|] eqn:Eo; [|by intros [= <-]].
  destruct (Plan obs cfg) as [[a st]|] eqn:Ep; [|done]. cbn [mbind option_bind].
  destruct (execute kv _ a) as [q|] eqn:Eq; [|by intros [= <-]].
  destruct (send (spec_N (kc kv)) q (in_Call i) w) as [[w1 err]|] eqn:Es; [|done]. cbn [mbind option_bind]. intros [= <-] Hne. cbn in Hne |- *.
  exists kv, ks, obs, u', a, st, q. split_and!; try done.
  by destruct (send_effect _ _ _ _ _ _ Es).
Qed.

(** ** The first reconcile of a new cluster *)

Section witness.
(** A library that knows the document of this cluster's first membership. *)
Definition new_kv : kvcluster := w_kv.
#[local] Instance new_yaml : Yaml := {
  yaml_parse := λ t, if bool_decide (t = emit_doc (config_doc new_kv 0 [0; 1; 2])) then Some (config_doc new_kv 0 [0; 1; 2]) else None;
  yaml_int := @yaml_int w_yaml; yaml_uint64 := @yaml_uint64 w_yaml; yaml_bool := @yaml_bool w_yaml; yaml_duration := @yaml_duration w_yaml
}.
#[local] Instance new_yaml_spec : YamlSpec.
Proof. destruct w_yaml_spec. by split. Qed.

(** Replaces the condition of the type, or appends it. *)
#[local] Instance toy_conditions : Conditions := λ l c,
  c :: filter (λ x, cn_Type x ≠ cn_Type c) l.
#[local] Instance toy_conditions_spec : ConditionsSpec.
Proof.
  intros t l c. unfold set_condition, toy_conditions, find_condition. cbn [List.find]. case_bool_decide as Hc; [done|].
  induction l as [|x l IH]; [done|]. rewrite filter_cons. case_decide as Hx; cbn [List.find]; [by case_bool_decide|].
  rewrite IH, bool_decide_false; [done|]. intros E. congruence.
Qed.

Definition new_status : KVClusterStatus := mkKVStatus 0 None 0 [] 0 0 "" None [].
Definition new_inputs : inputs :=
  mkInputs (Found (new_kv, false, new_status)) (λ _, true) 0 NotFound NotFound (Some []) (Some []) (λ _, mkAnswers (Err Transport) (None, false, None))
    Arrives true.
Definition new_obs : Observation := mkObs 0 (planner_cluster new_kv new_status) None None [] [].

Lemma new_observes : observes (kc new_kv) (init 3) new_obs.
Proof. split; try done. intros i. cbn. rewrite elem_of_nil. set_solver. Qed.

Lemma reconcile_one_step_witness :
  ∃ o, Reconcile (λ _, "") Example.cfg (init 3) ∅ new_inputs = Some o ∧ out_World o = set_cm (init 3) 0 (Members (kc new_kv) 3) ∧
       out_Result o = Ok (Fast Example.cfg).
Proof.
  assert (Hplan : fst <$> Plan new_obs Example.cfg = Some (ActWriteConfigMap 0 (Members (kc new_kv) 3))) by (vm_compute; reflexivity).
  destruct (reconcile_one_step (λ _, "") Example.cfg (kc new_kv) new_kv eq_refl eq_refl eq_refl)
    with (w := init 3) (u := ∅ : gmap string Z) (i := new_inputs) (ks := new_status) (obs := new_obs) (u' := ∅ : gmap string Z)
    as (a & st & w' & o & Hp & _ & _ & Ho & _).
  - split_and!; vm_compute; first [lia | discriminate | reflexivity].
  - apply rw_init. split_and!; vm_compute; first [lia | discriminate].
  - exact I.
  - reflexivity.
  - reflexivity.
  - vm_compute. reflexivity.
  - exact new_observes.
  - intros e m st ords Hp Hords. rewrite Hp in Hplan. cbn [fmap option_fmap option_map fst] in Hplan.
    assert (m = Members (kc new_kv) 3) as -> by congruence. assert (e = 0%N) as -> by congruence.
    assert (ordinals new_kv (Members (kc new_kv) 3) = Some [0; 1; 2]) as H3 by (vm_compute; reflexivity).
    rewrite H3 in Hords. injection Hords as <-. unfold reads_block, yaml_parse, new_yaml. by rewrite bool_decide_true.
  - assert (out_World <$> Reconcile (λ _, "") Example.cfg (init 3) ∅ new_inputs = Some (set_cm (init 3) 0 (Members (kc new_kv) 3))) as Hw by (vm_compute; reflexivity).
    assert (out_Result <$> Reconcile (λ _, "") Example.cfg (init 3) ∅ new_inputs = Some (Ok (Fast Example.cfg))) as Hr by (vm_compute; reflexivity).
    rewrite Ho in Hw, Hr. injection Hw as Hw. injection Hr as Hr. exists o. split; [exact Ho|]. split; [exact Hw|exact Hr].
Defined.

Lemma scaling_keeps_template_witness :
  scaledStatefulSet (set_source w_kv "kvnode:v2" (Resources w_kv)) (Some (Render.StatefulSet w_kv 3)) 4 =
  set_Replicas (Render.StatefulSet w_kv 3) 4.
Proof.
  apply (scaling_keeps_template (set_source w_kv "kvnode:v2" (Resources w_kv)) w_kv 3 4).
  split_and!; reflexivity.
Defined.
End witness.
