(* ===== verification/Rounds.v ===== *)
(** * Rounds of anti-entropy (internal/node/antientropy.go)

    The round a node runs at every interval: [RunAntiEntropy] against each other
    member in turn, skipping the ones heartbeats say are dead, counting the ones
    that fail, ending when the node stops; and the trigger that asks for a round
    early.  The node's view stays the same during a round.

    Shown: whatever fails, no round loses a version that is not superseded; two
    undisturbed rounds of one node bring every replica of each of its keys to
    the same versions, those that any of the replicas had, as long as SHA-256
    does not collide on what the trees hash and keys and names are such that
    the hashed text is unambiguous ([MerkleText]). *)

From stdpp Require Import gmap strings list sorting.
From Stdlib Require Import ZArith Lia.
From S2P Require Import Prelude GoLib VectorClock Versioning Json HashRing Datastore Hints Coordinate Merkle MerkleText AntiEntropy Sha256 Quote Fsutil Membership Heartbeat.

Open Scope nat_scope.

(** ** Operations *)

(** [coReplicantPeers]; the map of members is iterated in some order *)
Definition coReplicantPeers (order : gset string → list string) (n : node) : list string :=
  order (dom (members (membership n)) ∖ {[node_ID n]}).

(** [TriggerAntiEntropy]: the channel holds at most one trigger *)
Definition TriggerAntiEntropy (pending : bool) : bool := true.

Section round.
Context `{!JsonCodec value} `{!Unicode}.
Context {P IO E : Type} `{!Persister P IO E} (halted : E → bool).

(** What the environment decides of a round: the order of the peers, before
    which of them the context ends, and each exchange. *)
Record round_env := mkRound { peer_order : gset string → list string; ended_before : string → bool; exchange : string → ae_env IO }.

(** The node's store, the other members' stores, and the node's counters. *)
Record replicas := mkReplicas {
  own_store : DataStore P; peer_stores : gmap string (DataStore P);
  keysPulled : N; keysPushed : N; aeRounds : N; aePeerFailures : N
}.

Definition shares (n : node) (peerID key : string) : bool :=
  sharesReplicaSet (node_ID n) (view_ring (membership n)) (repl n) key peerID.

Definition ae_of (c : replicas) (q : DataStore P) : ae_state P := mkAe (own_store c) q (keysPulled c) (keysPushed c).
Definition after_exchange (c : replicas) (p : string) (st : ae_state P) (failed : bool) : replicas :=
  mkReplicas (local st) (<[p := peer st]> (peer_stores c)) (aeKeysPulled st) (aeKeysPushed st) (aeRounds c)
    (if failed then u64 (aePeerFailures c + 1) else aePeerFailures c).

Definition failed_turn (c : replicas) : replicas :=
  mkReplicas (own_store c) (peer_stores c) (keysPulled c) (keysPushed c) (aeRounds c) (u64 (aePeerFailures c + 1)).

(** The loop of [runAntiEntropyRound]; a peer without a store cannot be dialled.
    [None] if the node dies comparing trees. *)
Fixpoint round_loop (env : round_env) (n : node) (peers : list string) (c : replicas) : option replicas :=
  match peers with
  | [] => Some c
  | p :: rest =>
      if ended_before env p then Some c
      else if isDead n p then round_loop env n rest c
      else match peer_stores c !! p with
      | None => round_loop env n rest (failed_turn c)
      | Some q =>
          match RunAntiEntropy halted (exchange env p) (shares n p) (ae_of c q) with
          | None => None
          | Some (st, err) => round_loop env n rest (after_exchange c p st (match err with Some _ => true | None => false end))
          end
      end
  end.

Definition runAntiEntropyRound (env : round_env) (n : node) (c : replicas) : option replicas :=
  c' ← round_loop env n (coReplicantPeers (peer_order env) n) c;
  Some (mkReplicas (own_store c') (peer_stores c') (keysPulled c') (keysPushed c') (u64 (aeRounds c' + 1)) (aePeerFailures c')).
End round.

Arguments replicas P : clear implicits.
Arguments round_env IO : clear implicits.

(** ** What a round does *)

Lemma shares_loop_spec self peer pl s p :
  shares_loop self peer pl s p = true ↔ (s = true ∨ self ∈ pl) ∧ (p = true ∨ peer ∈ pl).
Proof.
  revert s p. induction pl as [|x pl IH]; intros s p; cbn [shares_loop].
  - rewrite andb_true_iff. set_solver.
  - rewrite IH, !orb_true_iff, !bool_decide_eq_true, !elem_of_cons. intuition congruence.
Qed.

Lemma shares_spec n p key :
  shares n p key = true ↔ node_ID n ∈ GetPreferenceList (view_ring (membership n)) key (repl n) ∧
                          p ∈ GetPreferenceList (view_ring (membership n)) key (repl n).
Proof. unfold shares, sharesReplicaSet. rewrite shares_loop_spec. intuition congruence. Qed.

Section spec.
Context `{!JsonCodec value} `{!JsonText value} `{!Unicode}.
Context {P IO E : Type} `{!Persister P IO E} `{!PersisterSpec P IO E} (halted : E → bool).
Implicit Types (c : replicas P) (env : round_env IO) (ds : DataStore P).

Definition stores_ok c : Prop :=
  p_ok (persister (own_store c)) ∧ ∀ p q, peer_stores c !! p = Some q → p_ok (persister q).

(** The versions of a key that a node's store covers. *)
Definition own_covers c (k : string) (x : gmap string N) : Prop := covered x (siblings (own_store c) k).
Definition peer_covers c (p k : string) (x : gmap string N) : Prop :=
  ∃ q, peer_stores c !! p = Some q ∧ covered x (siblings q k).

(** The stores take what an exchange sends them. *)
Definition exchange_accepts (e : ae_env IO) (sh : string → bool) (st : ae_state P) : Prop :=
  order_ok e ∧
  ∀ s t diverged, Build (ae_alloc e) (local st) (Z.of_nat antiEntropyNumBuckets) = Ok s →
    GetMerkleTree (ae_alloc e) (peer st) (Z.of_nat antiEntropyNumBuckets) = Ok t →
    DivergentBuckets s t = Some diverged → buckets_accept halted e sh st diverged.

(** What a comparison of trees relies on: keys and names that make the hashed
    text unambiguous, and no collision of SHA-256 on the texts of the buckets
    and the pairs of nodes that the two trees hash. *)
Definition hashes_tell (e : ae_env IO) (st : ae_state P) : Prop :=
  plain_store (local st) ∧ plain_store (peer st) ∧ texts_apart (local st) (peer st) antiEntropyNumBuckets ∧
  ∀ s t, Build (ae_alloc e) (local st) (Z.of_nat antiEntropyNumBuckets) = Ok s →
    Build (ae_alloc e) (peer st) (Z.of_nat antiEntropyNumBuckets) = Ok t → collision_free s t.

(** An exchange without error, on stores that take what they are sent. *)
Definition exchange_clean (e : ae_env IO) (sh : string → bool) (st : ae_state P) : Prop :=
  exchange_accepts e sh st ∧ hashes_tell e st ∧ ∃ st', RunAntiEntropy halted e sh st = Some (st', None).

Lemma clean_effect e sh st :
  both_ok st → exchange_clean e sh st →
  ∃ st', RunAntiEntropy halted e sh st = Some (st', None) ∧ both_ok st' ∧
    ∀ k, if sh k then reconciled st st' k else untouched st st' k.
Proof.
  intros Hok ([Hord Hacc] & (Hp1 & Hp2 & Hta & Hcf) & st' & Hrun).
  destruct (RunAntiEntropy_effect halted e sh st Hok Hord Hacc) as (st1 & err & Hrun1 & Hok1 & _ & Heff).
  assert (st1 = st' ∧ err = None) as [-> ->] by (split; congruence). exists st'. split; [done|]. split; [done|].
  destruct (Heff eq_refl) as (s & t & bs & Hs & Ht & Hd & Hall). intros k. specialize (Hall k).
  destruct (sh k); [|done]. case_bool_decide as Hin; [done|]. destruct Hall as [E1 E2]. destruct Hok as [Ho1 Ho2].
  pose proof (equal_buckets_agree _ _ _ _ _ s t bs Ho1 Ho2 Hp1 Hp2 Hs Ht Hd (Hcf s t Hs Ht)) as Hag. rewrite Nat2Z.id in Hag.
  intros x. rewrite E1, E2. pose proof (Hag Hta k Hin x). tauto.
Qed.

(** Every turn of the round is taken, with a clean exchange. *)
Fixpoint round_clean env (n : node) (peers : list string) c : Prop :=
  match peers with
  | [] => True
  | p :: rest =>
      ended_before env p = false ∧ isDead n p = false ∧
      ∃ q, peer_stores c !! p = Some q ∧ exchange_clean (exchange env p) (shares n p) (ae_of c q) ∧
        ∀ st err, RunAntiEntropy halted (exchange env p) (shares n p) (ae_of c q) = Some (st, err) →
          round_clean env n rest (after_exchange c p st false)
  end.

(** What a key's versions are after clean turns with [peers]: the node covers
    what it or one of them covered; each of them covers no more than the node,
    at least what the node and it had covered, and the others are unchanged. *)
Definition gathered (n : node) (peers : list string) c c' (k : string) : Prop :=
  (∀ x, own_covers c' k x ↔ own_covers c k x ∨ ∃ p, p ∈ peers ∧ shares n p k = true ∧ peer_covers c p k x) ∧
  (∀ p x, p ∈ peers → shares n p k = true →
     (own_covers c k x ∨ peer_covers c p k x → peer_covers c' p k x) ∧ (peer_covers c' p k x → own_covers c' k x)) ∧
  (∀ p x, p ∉ peers ∨ shares n p k = false → peer_covers c' p k x ↔ peer_covers c p k x).

Lemma stores_ok_after c p st b : stores_ok c → both_ok st → stores_ok (after_exchange c p st b).
Proof.
  intros [_ Hp] [H1 H2]. split; [done|]. cbn. intros p' q [[<- <-]|[_ Hq]]%lookup_insert_Some; [done|by eapply Hp].
Qed.

Lemma round_loop_clean env n peers c :
  NoDup peers → stores_ok c → round_clean env n peers c →
  ∃ c', round_loop halted env n peers c = Some c' ∧ stores_ok c' ∧ aePeerFailures c' = aePeerFailures c ∧ ∀ k, gathered n peers c c' k.
Proof.
  revert c. induction peers as [|p rest IH]; intros c Hnd Hok Hclean; cbn [round_loop].
  { exists c. split_and!; [done..|]. intros k. split_and!; [|set_solver|done].
    intros x. split; [by left|]. intros [?|(p & Hp & _)]; [done|]. by apply elem_of_nil in Hp. }
  destruct Hclean as (-> & -> & q & Hq & Hex & Hrest). apply NoDup_cons in Hnd as [Hp Hnd]. rewrite Hq.
  destruct (clean_effect _ _ (ae_of c q) (conj (proj1 Hok) (proj2 Hok p q Hq)) Hex) as (st & Hrun & Hst & Heff). rewrite Hrun.
  destruct (IH (after_exchange c p st false) Hnd (stores_ok_after c p st false Hok Hst) (Hrest st None Hrun)) as (c' & Hl & Hok' & Hf & Hg).
  exists c'. split_and!; [done..|]. intros k. destruct (Hg k) as (G1 & G2 & G3). specialize (Heff k). clear IH Hrest Hg.
  set (c1 := after_exchange c p st false) in *.
  assert (∀ x, peer_covers c p k x ↔ covered x (siblings q k)) as Pp.
  { intros x. split; [intros (q' & Hq' & ?); by simplify_eq|]. intros. by exists q. }
  assert (∀ x, peer_covers c1 p k x ↔ covered x (siblings (peer st) k)) as P1.
  { intros x. unfold peer_covers, c1, after_exchange. cbn. rewrite lookup_insert_eq. split; [by intros (? & [= <-] & ?)|eauto]. }
  assert (∀ p' x, p' ≠ p → peer_covers c1 p' k x ↔ peer_covers c p' k x) as Po.
  { intros p' x Hne. unfold peer_covers, c1, after_exchange. cbn. by rewrite lookup_insert_ne. }
  assert (∀ x, own_covers c1 k x ↔ own_covers c k x ∨ shares n p k = true ∧ peer_covers c p k x) as O1.
  { intros x. unfold own_covers, c1, after_exchange. cbn. rewrite Pp. destruct (shares n p k).
    - destruct (Heff x) as [Ex _]. rewrite Ex. cbn. tauto.
    - destruct Heff as [Ex _]. rewrite Ex. cbn. split; [tauto|]. by intros [?|[? ?]]. }
  assert (∀ x, shares n p k = true → peer_covers c1 p k x ↔ own_covers c1 k x) as Same.
  { intros x Hs. rewrite P1, O1, Pp. rewrite Hs in Heff. destruct (Heff x) as [_ Ex]. rewrite Ex. unfold own_covers. cbn. tauto. }
  split_and!.
  - intros x. rewrite G1, O1. split.
    + intros [[Ho|[H1 H2]]|(p' & Hp' & Hs & Hc)]; [by left|right; exists p; set_solver|].
      right. exists p'. rewrite <-Po by (intros ->; done). set_solver.
    + intros [Ho|(p' & Hp' & Hs & Hc)]; [tauto|]. apply elem_of_cons in Hp' as [->|Hp']; [tauto|].
      right. exists p'. rewrite Po by (intros ->; done). done.
  - intros p' x Hp' Hs. destruct (decide (p' = p)) as [->|Hne].
    + rewrite (G3 p x (or_introl Hp)), Same, G1, O1 by done. tauto.
    + assert (p' ∈ rest) as Hin by set_solver. destruct (G2 p' x Hin Hs) as [A B]. split; [|exact B].
      intros Ho. apply A. rewrite O1, Po by done. tauto.
  - intros p' x Hp'. rewrite G3 by (destruct Hp'; [left; set_solver|by right]).
    destruct (decide (p' = p)) as [->|Hne]; [|by apply Po]. destruct Hp' as [Hp'|Hs]; [set_solver|].
    rewrite P1, Pp. rewrite Hs in Heff. destruct Heff as [_ Ex]. by rewrite Ex.
Qed.

(** ** Rounds with failures *)

(** In every exchange that takes place, the stores take what they are sent. *)
Fixpoint round_accepts env (n : node) (peers : list string) c : Prop :=
  match peers with
  | [] => True
  | p :: rest =>
      if ended_before env p then True
      else if isDead n p then round_accepts env n rest c
      else match peer_stores c !! p with
      | None => round_accepts env n rest (failed_turn c)
      | Some q =>
          exchange_accepts (exchange env p) (shares n p) (ae_of c q) ∧
          ∀ st err b, RunAntiEntropy halted (exchange env p) (shares n p) (ae_of c q) = Some (st, err) →
            round_accepts env n rest (after_exchange c p st b)
      end
  end.

Definition loses_nothing c c' : Prop :=
  ∀ k x, (own_covers c k x → own_covers c' k x) ∧ ∀ p, peer_covers c p k x → peer_covers c' p k x.

Lemma round_loop_keeps env n peers c :
  stores_ok c → round_accepts env n peers c →
  ∃ c', round_loop halted env n peers c = Some c' ∧ stores_ok c' ∧ loses_nothing c c'.
Proof.
  revert c. induction peers as [|p rest IH]; intros c Hok Hacc; cbn [round_loop round_accepts] in *; [by exists c|].
  destruct (ended_before env p); [by exists c|]. destruct (isDead n p); [by apply IH|].
  destruct (peer_stores c !! p) as [q|] eqn:Hq; [|exact (IH (failed_turn c) Hok Hacc)].
  destruct Hacc as [[Hord Hacc] Hrest].
  destruct (RunAntiEntropy_effect halted _ (shares n p) (ae_of c q) (conj (proj1 Hok) (proj2 Hok p q Hq)) Hord Hacc)
    as (st & err & Hrun & Hst & Hkeep & _).
  rewrite Hrun. set (b := match err with Some _ => true | None => false end).
  destruct (IH (after_exchange c p st b) (stores_ok_after c p st b Hok Hst) (Hrest st err b Hrun)) as (c' & Hl & Hok' & Hl').
  exists c'. split_and!; [done..|]. intros k x. destruct (Hl' k x) as [A B]. destruct (Hkeep k x) as [K1 K2]. split.
  - intros Ho. apply A, K1, Ho.
  - intros p' (q' & Hq' & Hc). apply B. unfold peer_covers. cbn. destruct (decide (p' = p)) as [->|Hne].
    + rewrite lookup_insert_eq. simplify_eq. eexists. split; [done|]. by apply K2.
    + rewrite lookup_insert_ne by done. eauto.
Qed.

(** Whatever fails in a round, none of the stores loses a version that it had
    and that is not superseded. *)
Theorem round_loses_nothing env n c :
  stores_ok c → round_accepts env n (coReplicantPeers (peer_order env) n) c →
  ∃ c', runAntiEntropyRound halted env n c = Some c' ∧ stores_ok c' ∧ loses_nothing c c'.
Proof.
  intros Hok Hacc. destruct (round_loop_keeps _ _ _ _ Hok Hacc) as (c' & Hl & Hok' & Hk). unfold runAntiEntropyRound. rewrite Hl.
  cbn. eexists. split; [done|]. by split.
Qed.

(** ** Two rounds *)

(** What the member [id] covers, the node itself included. *)
Definition covers_at (n : node) c (id k : string) (x : gmap string N) : Prop :=
  if decide (id = node_ID n) then own_covers c k x else peer_covers c id k x.

Definition peers_ok env (n : node) : Prop := ∀ s, peer_order env s ≡ₚ elements s.

Lemma peers_elem env n p : peers_ok env n → p ∈ coReplicantPeers (peer_order env) n ↔ p ∈ dom (members (membership n)) ∧ p ≠ node_ID n.
Proof. intros Ho. unfold coReplicantPeers. rewrite (Ho _), elem_of_elements. set_solver. Qed.

Lemma peers_NoDup env n : peers_ok env n → NoDup (coReplicantPeers (peer_order env) n).
Proof. intros Ho. unfold coReplicantPeers. rewrite (Ho _). apply NoDup_elements. Qed.

Lemma round_clean_effect env n c :
  peers_ok env n → stores_ok c → round_clean env n (coReplicantPeers (peer_order env) n) c →
  ∃ c', runAntiEntropyRound halted env n c = Some c' ∧ stores_ok c' ∧ aePeerFailures c' = aePeerFailures c ∧
    ∀ k, gathered n (coReplicantPeers (peer_order env) n) c c' k.
Proof.
  intros Ho Hok Hc. destruct (round_loop_clean _ _ _ _ (peers_NoDup env n Ho) Hok Hc) as (c' & Hl & Hok' & Hf & Hg).
  unfold runAntiEntropyRound. rewrite Hl. cbn. eexists. split; [done|]. by split_and!.
Qed.

(** A preference list names members only. *)
Lemma preference_members n e m key id :
  buildView e m (repl n) = Ok (membership n) → 0 < repl n →
  id ∈ GetPreferenceList (view_ring (membership n)) key (repl n) → id ∈ dom (members (membership n)).
Proof.
  intros Hv Hn Hid. destruct (buildView_Ok _ _ _ _ Hv) as (_ & -> & _ & Hr).
  destruct (preference_list_clockwise _ _ _ key (repl n) Hr Hn) as (_ & _ & Hmem & _). specialize (Hmem id Hid).
  unfold sorted_ids, sort_strings in Hmem. rewrite merge_sort_Permutation, elem_of_elements in Hmem. done.
Qed.

(** C8: replicas converge.  A node runs two rounds of anti-entropy in which it
    reaches every other member and no exchange fails, while nothing else
    writes.  Then, for every key the node replicates, every replica of the key
    covers exactly the versions that any of its replicas covered before: all
    of them hold siblings of the same clocks.  What the comparison of trees
    relies on is assumed of each exchange: SHA-256 does not collide on the
    texts and node pairs the two trees hash, no key contains a zero byte or
    starts like an item, and no node name in a clock or author contains a zero
    byte, a bar or a blank (otherwise different stores can have equal trees:
    [bucket_contents_ambiguous]); and JSON texts contain no zero byte. *)
Theorem two_rounds_converge n env env' c e m :
  buildView e m (repl n) = Ok (membership n) → 0 < repl n → peers_ok env n → peers_ok env' n → stores_ok c →
  round_clean env n (coReplicantPeers (peer_order env) n) c →
  (∀ c1, runAntiEntropyRound halted env n c = Some c1 → round_clean env' n (coReplicantPeers (peer_order env') n) c1) →
  ∃ c1 c2, runAntiEntropyRound halted env n c = Some c1 ∧ runAntiEntropyRound halted env' n c1 = Some c2 ∧
    aePeerFailures c2 = aePeerFailures c ∧
    ∀ key, let pl := GetPreferenceList (view_ring (membership n)) key (repl n) in
      node_ID n ∈ pl → ∀ id, id ∈ pl → ∀ x, covers_at n c2 id key x ↔ ∃ q, q ∈ pl ∧ covers_at n c q key x.
Proof.
  intros Hv Hn Ho Ho' Hok Hc Hc'. destruct (round_clean_effect env n c Ho Hok Hc) as (c1 & R1 & Hok1 & F1 & G1).
  destruct (round_clean_effect env' n c1 Ho' Hok1 (Hc' c1 R1)) as (c2 & R2 & _ & F2 & G2).
  exists c1, c2. split_and!; [done|done|congruence|]. intros key pl Hself id Hid x.
  destruct (G1 key) as (A1 & B1 & _), (G2 key) as (A2 & B2 & _).
  assert (∀ p, p ∈ pl → p ≠ node_ID n → shares n p key = true ∧ p ∈ coReplicantPeers (peer_order env) n ∧ p ∈ coReplicantPeers (peer_order env') n) as Hp.
  { intros p Hp Hne. rewrite shares_spec, !peers_elem by done. pose proof (preference_members n e m key p Hv Hn Hp). done. }
  assert (∀ p, shares n p key = true → p ∈ pl) as Hs by (by intros p [_ ?]%shares_spec).
  assert (own_covers c1 key x ↔ ∃ q, q ∈ pl ∧ covers_at n c q key x) as Hjoin.
  { rewrite A1. split.
    - intros [H1|(p & Hp1 & Hsh & H1)].
      + exists (node_ID n). split; [done|]. unfold covers_at. by rewrite decide_True.
      + exists p. split; [by apply Hs|]. unfold covers_at. apply peers_elem in Hp1 as [_ Hne]; [|done]. by rewrite decide_False.
    - intros (q & Hq & H1). unfold covers_at in H1. destruct (decide (q = node_ID n)) as [->|Hne]; [by left|].
      right. exists q. destruct (Hp q Hq Hne) as (? & ? & _). done. }
  assert (own_covers c2 key x ↔ own_covers c1 key x) as H2.
  { rewrite A2. split; [|by left]. intros [?|(p & Hp1 & Hsh & H1)]; [done|].
    apply peers_elem in Hp1 as [Hp1 Hne]; [|done]. apply (proj2 (B1 p x ltac:(by apply peers_elem) Hsh)), H1. }
  unfold covers_at at 1. destruct (decide (id = node_ID n)) as [->|Hne]; [by rewrite H2, Hjoin|].
  destruct (Hp id Hid Hne) as (Hsh & _ & Hin'). destruct (B2 id x Hin' Hsh) as [U L]. rewrite <-Hjoin. split.
  - intros H1%L. by rewrite <-H2.
  - intros H1. apply U. by left.
Qed.
End spec.

(** ** Two nodes, one of them new *)

Section witness.
#[local] Existing Instance toy_value_json.
#[local] Existing Instance toy_value_text.
#[local] Existing Instance ascii_print.
Abbreviation mem := (gmap string (list itemptr)).

Definition r_members : gmap string string := {["node-1" := "h1"; "node-2" := "h2"]}.
Definition r_view : view := match buildView 0 r_members 2 with Ok v => v | Err _ => mkView 0 "" ∅ (NewHashRing 0) end.
Definition r_node : node := newNode "node-1" "h1" 2 3 r_view r_view no_file no_file.
Definition r_env : round_env unit := mkRound elements (λ _, false) (λ _, w_ae_env).
Definition r_new : DataStore mem := mkStore "node-2" "node-2#3" ∅.
Definition r_start : replicas mem := mkReplicas w_store {["node-2" := r_new]} 0 0 0 0.

Lemma r_view_built : buildView 0 r_members 2 = Ok r_view.
Proof. unfold r_view. destruct (buildView 0 r_members 2) eqn:E; [done|]. by vm_compute in E. Qed.

Lemma r_peers : coReplicantPeers (peer_order r_env) r_node = ["node-2"].
Proof. vm_compute. reflexivity. Qed.

Definition r_ae : ae_state mem := ae_of r_start r_new.

(** An exchange that is known to return without error. *)
Lemma r_accepts sh (st : ae_state mem) : exchange_accepts (λ _, false) w_ae_env sh st.
Proof. split; [by intros s|]. intros. apply mem_buckets_accept. Qed.

Definition returns (r : option (ae_state mem * option (ae_error (E := unit)))) : bool := match r with Some (_, None) => true | _ => false end.

(** The conditions of a clean exchange, decided. *)
Definition tells (st : ae_state mem) : bool :=
  plain_memb (persister (local st)) && plain_memb (persister (peer st)) &&
  texts_apartb (local st) (peer st) antiEntropyNumBuckets &&
  match Build (ae_alloc w_ae_env) (local st) (Z.of_nat antiEntropyNumBuckets),
        Build (ae_alloc w_ae_env) (peer st) (Z.of_nat antiEntropyNumBuckets) with
  | Ok s, Ok t => collision_freeb s t
  | _, _ => true
  end.

Definition clean_with (c : replicas mem) : bool :=
  match peer_stores c !! "node-2" with
  | Some q => tells (ae_of c q) && returns (RunAntiEntropy (λ _, false) w_ae_env (shares r_node "node-2") (ae_of c q))
  | None => false
  end.

Lemma clean_with_true c : clean_with c = true → round_clean (λ _, false) r_env r_node ["node-2"] c.
Proof.
  unfold clean_with. intros Hc. split; [reflexivity|]. split; [reflexivity|].
  destruct (peer_stores c !! "node-2"%string) as [q|] eqn:Eq; [|discriminate Hc]. exists q. split; [reflexivity|].
  split; [|intros; exact I]. apply andb_true_iff in Hc as [Ht Hr]. split; [apply r_accepts|]. split.
  - unfold tells in Ht. rewrite !andb_true_iff in Ht. destruct Ht as [[[H1 H2] H3] H4].
    split; [by apply plain_memb_true|]. split; [by apply plain_memb_true|]. split; [by apply texts_apartb_true|].
    change (exchange r_env "node-2") with w_ae_env. intros s t Hs Ht. rewrite Hs, Ht in H4. by apply collision_freeb_true.
  - cbn [exchange r_env]. destruct (RunAntiEntropy _ _ _ (ae_of c q)) as [[st [|]]|]; try discriminate Hr. exists st. reflexivity.
Qed.

Lemma two_rounds_converge_witness :
  ∃ c1 c2, runAntiEntropyRound (λ _, false) r_env r_node r_start = Some c1 ∧
    runAntiEntropyRound (λ _, false) r_env r_node c1 = Some c2 ∧ aePeerFailures c2 = 0%N.
Proof.
  destruct (two_rounds_converge (λ _, false) r_node r_env r_env r_start 0 r_members) as (c1 & c2 & H1 & H2 & H3 & _).
  - exact r_view_built.
  - cbn. lia.
  - intros s. reflexivity.
  - intros s. reflexivity.
  - split; [apply w_store_ok|]. intros p q Hq. cbn [peer_stores r_start] in Hq. apply lookup_singleton_Some in Hq as [<- <-]. apply mem_ok_empty.
  - rewrite r_peers. apply clean_with_true. vm_cast_no_check (eq_refl true).
  - intros c1 H1. rewrite r_peers. apply clean_with_true.
    assert (match runAntiEntropyRound (λ _, false) r_env r_node r_start with Some c => clean_with c | None => false end = true) as Ha
      by (vm_cast_no_check (eq_refl true)).
    rewrite H1 in Ha. exact Ha.
  - exists c1, c2. split; [exact H1|]. split; [exact H2|exact H3].
Defined.
End witness.
