(* ===== verification/CommitQueue.v ===== *)
(** * Group commit (internal/storage/engine/write.go: enqueue, runCommitter,
      closeWrites)

    Writers hand their requests to one committer goroutine over a bounded
    channel and wait for its answer; [Close] shuts the channel and waits for
    the committer to drain it.  The parts run as one step relation: a writer
    inside [enqueue] holds [queueMu] for reading, [closeWrites] takes it for
    writing, and a batch's answers are those of [commit] (Engine.v).

    Shown: every accepted write is committed once, in the order of the channel,
    and answered with what its batch's commit returned; batches keep their
    limits; no writer waits for ever, and [Close] returns once every accepted
    write is answered. *)

From stdpp Require Import gmap strings list relations.
From Stdlib Require Import ZArith Lia.
From S2P Require Import Prelude GoLib VectorClock Versioning Json Memtable Wal WalLog Manifest Sstable Compaction Engine.

Open Scope nat_scope.

(** A call of [write], told apart from others, with its encoded request. *)
Record call := mkCall { c_id : nat; c_req : writeReq }.

Section queue.
Context {T : Type} `{!BTree (list itemptr) T}.
Context {B : Type} `{!Bloom B}.
Context `{!JsonCodec value, !JsonCodec Wal.record, !JsonCodec Sstable.record, !JsonCodec (list indexEntry)}.

(** What the rest of the engine does to it: flushes, compactions. *)
Context (background : StorageEngine T B → StorageEngine T B → Prop).

(** *** State *)

(** Where [runCommitter] is: at its receive, filling a batch, holding [writeMu]
    with a batch and the request that did not fit, or gone. *)
Inductive committer :=
  | Receiving
  | Filling (batch : list call)
  | Committing (batch : list call) (carried : option call)
  | Exited.

(** Where [closeWrites] is: it has not been called, waits for [queueMu], waits
    for the committer, has returned. *)
Inductive closer := NotClosing | WantsLock | WaitsForCommitter | Returned.

(** [sending] are the writers inside [enqueue] that found the channel open;
    [sent] records what went through it, [commits] the batches with the answers
    given, [refused] the calls that got [ErrClosed]. *)
Record qstate := mkQ {
  engine : StorageEngine T B; sending : list call; queue : list call; queueClosed : bool;
  runCommitter : committer; closeWrites : closer;
  sent : list call; commits : list (list call * list (option error)); refused : list call
}.

Definition set_committer (s : qstate) (q : list call) (k : committer) : qstate :=
  mkQ (engine s) (sending s) q (queueClosed s) k (closeWrites s) (sent s) (commits s) (refused s).
Definition set_closer (s : qstate) (closed : bool) (k : closer) : qstate :=
  mkQ (engine s) (sending s) (queue s) closed (runCommitter s) k (sent s) (commits s) (refused s).

Definition calls_bytes (b : list call) : N := batch_bytes (c_req <$> b).
Definition next_batch (carried : option call) : committer := match carried with Some c => Filling [c] | None => Receiving end.

(** *** Steps *)

(** What goes on once a write has been accepted or [Close] called. *)
Inductive internal : qstate → qstate → Prop :=
  | q_send s l c l' : sending s = l ++ c :: l' → length (queue s) < maxBatchRecords →
      internal s (mkQ (engine s) (l ++ l') (queue s ++ [c]) (queueClosed s) (runCommitter s) (closeWrites s)
                    (sent s ++ [c]) (commits s) (refused s))
  | q_receive s c q : runCommitter s = Receiving → queue s = c :: q → internal s (set_committer s q (Filling [c]))
  | q_fill s b c q : runCommitter s = Filling b → length b < maxBatchRecords → queue s = c :: q →
      (calls_bytes b + N.of_nat (length (req_record (c_req c))) ≤ maxBatchBytes)%N →
      internal s (set_committer s q (Filling (b ++ [c])))
  | q_overflow s b c q : runCommitter s = Filling b → length b < maxBatchRecords → queue s = c :: q →
      (maxBatchBytes < calls_bytes b + N.of_nat (length (req_record (c_req c))))%N →
      internal s (set_committer s q (Committing b (Some c)))
  | q_filled s b : runCommitter s = Filling b → length b = maxBatchRecords ∨ queue s = [] →
      internal s (set_committer s (queue s) (Committing b None))
  | q_commit s b carried iow ior a e errs fl : runCommitter s = Committing b carried →
      commit iow ior a (engine s) (c_req <$> b) = (e, errs, fl) →
      internal s (mkQ e (sending s) (queue s) (queueClosed s) (next_batch carried) (closeWrites s) (sent s)
                    (commits s ++ [(b, errs)]) (refused s))
  | q_exit s : runCommitter s = Receiving → queue s = [] → queueClosed s = true → internal s (set_committer s [] Exited)
  | q_shut s : closeWrites s = WantsLock → sending s = [] → internal s (set_closer s true WaitsForCommitter)
  | q_closed s : closeWrites s = WaitsForCommitter → runCommitter s = Exited → internal s (set_closer s (queueClosed s) Returned).

(** Calls from outside: a write whose request is encoded, [Close].  Once
    [closeWrites] waits for the lock no reader is let in before it. *)
Inductive external : qstate → qstate → Prop :=
  | q_enter s c : queueClosed s = false → closeWrites s ≠ WantsLock →
      c_id c ∉ c_id <$> (sent s ++ sending s ++ refused s) → Encode (req_entry (c_req c)) = Ok (req_record (c_req c)) →
      external s (mkQ (engine s) (sending s ++ [c]) (queue s) (queueClosed s) (runCommitter s) (closeWrites s) (sent s) (commits s) (refused s))
  | q_refuse s c : queueClosed s = true → c_id c ∉ c_id <$> (sent s ++ sending s ++ refused s) →
      external s (mkQ (engine s) (sending s) (queue s) (queueClosed s) (runCommitter s) (closeWrites s) (sent s) (commits s) (refused s ++ [c]))
  | q_close s : closeWrites s = NotClosing → external s (set_closer s (queueClosed s) WantsLock)
  | q_background s e : background (engine s) e →
      external s (mkQ e (sending s) (queue s) (queueClosed s) (runCommitter s) (closeWrites s) (sent s) (commits s) (refused s)).

Definition qstep (s s' : qstate) : Prop := internal s s' ∨ external s s'.
Definition opened (e : StorageEngine T B) : qstate := mkQ e [] [] false Receiving NotClosing [] [] [].
Definition reachable_q (s : qstate) : Prop := ∃ e, rtc qstep (opened e) s.

(** *** Invariant *)

(** What the committer holds. *)
Definition in_hand (k : committer) : list call :=
  match k with
  | Receiving | Exited => []
  | Filling b => b
  | Committing b carried => b ++ match carried with Some c => [c] | None => [] end
  end.
Definition committed (s : qstate) : list call := concat (fst <$> commits s).

(** A commit's answers are those of [commit] on some state of the engine. *)
Definition answered_by_commit (p : list call * list (option error)) : Prop :=
  ∃ iow ior a e e' fl, commit iow ior a e (c_req <$> p.1) = (e', p.2, fl).

Definition hand_ok (k : committer) : Prop :=
  match k with Filling b | Committing b _ => batch_ok (c_req <$> b) | Receiving | Exited => True end.

Record qinv (s : qstate) : Prop := {
  qi_order : sent s = committed s ++ in_hand (runCommitter s) ++ queue s;
  qi_once : NoDup (c_id <$> (sent s ++ sending s ++ refused s));
  qi_cap : length (queue s) ≤ maxBatchRecords;
  qi_batches : Forall (λ p, batch_ok (c_req <$> p.1) ∧ answered_by_commit p) (commits s);
  qi_hand : hand_ok (runCommitter s);
  qi_closed : queueClosed s = true ↔ closeWrites s = WaitsForCommitter ∨ closeWrites s = Returned;
  qi_shut : queueClosed s = true → sending s = [];
  qi_exited : runCommitter s = Exited → queueClosed s = true ∧ queue s = [];
  qi_returned : closeWrites s = Returned → runCommitter s = Exited
}.

Lemma batch_ok_single r : batch_ok [r].
Proof. split; [unfold maxBatchRecords; simpl; lia|by left]. Qed.

Lemma committed_snoc s (p : list call * list (option error)) : concat (fst <$> (commits s ++ [p])) = committed s ++ p.1.
Proof. unfold committed. rewrite fmap_app, concat_app. cbn. by rewrite app_nil_r. Qed.
Lemma opened_inv e : qinv (opened e).
Proof. split; cbn; try done; try constructor; try (unfold maxBatchRecords; lia); try naive_solver. Qed.

(** A send moves a call from [sending] to [sent]. *)
Lemma once_send (st l l' rf : list call) c :
  NoDup (c_id <$> (st ++ (l ++ c :: l') ++ rf)) → NoDup (c_id <$> ((st ++ [c]) ++ (l ++ l') ++ rf)).
Proof. apply NoDup_Permutation_proper, fmap_Permutation. solve_Permutation. Qed.

Lemma once_add (l r : list call) c :
  NoDup (c_id <$> l) → c_id c ∉ c_id <$> l → Permutation r (c :: l) → NoDup (c_id <$> r).
Proof. intros Hnd Hc ->. rewrite fmap_cons. by constructor. Qed.

Lemma batch_ok_snoc b c : batch_ok (c_req <$> b) → length b < maxBatchRecords →
  (calls_bytes b + N.of_nat (length (req_record (c_req c))) ≤ maxBatchBytes)%N → batch_ok (c_req <$> (b ++ [c])).
Proof.
  intros [? _] ? ?. rewrite fmap_app. split; [rewrite length_app, length_fmap; simpl; lia|].
  right. cbn. by rewrite batch_bytes_snoc.
Qed.

Lemma commit_answers iow ior a (e : StorageEngine T B) batch : length (commit iow ior a e batch).1.2 = length batch.
Proof.
  unfold commit. destruct (haltErr e); [apply length_fmap|].
  destruct (log_WriteBatch _ _ _ _) as [d [err|]]; [apply length_fmap|].
  unfold apply. match goal with |- context [apply_loop ?a ?d ?l batch ?c] => pose proof (apply_loop_errs a d l batch c) as H;
    destruct (apply_loop a d l batch c) as [[l' errs] crossed] end.
  destruct (crossed && _); [destruct (swap _ _)|]; apply H.
Qed.

(** The committer takes requests from the head of the channel. *)
Lemma take_inv s q k c : qinv s → queue s = c :: q → k ≠ Exited →
  in_hand (runCommitter s) ++ [c] = in_hand k → hand_ok k → qinv (set_committer s q k).
Proof.
  intros [Ho Hn Hc Hb Hh Hcl Hsh Hex Hr] Hq Hk Hhand Hok. rewrite Hq in Ho, Hc. split; cbn; try done.
  - rewrite Ho, <-Hhand. by rewrite <-!(assoc_L (++)).
  - cbn in Hc. lia.
  - intros Hret. specialize (Hex (Hr Hret)) as [_ Hex]. by rewrite Hq in Hex.
Qed.

Lemma commit_inv s b carried iow ior a e errs fl : qinv s → runCommitter s = Committing b carried →
  commit iow ior a (engine s) (c_req <$> b) = (e, errs, fl) →
  qinv (mkQ e (sending s) (queue s) (queueClosed s) (next_batch carried) (closeWrites s) (sent s) (commits s ++ [(b, errs)]) (refused s)).
Proof.
  intros [Ho Hn Hc Hb Hh Hcl Hsh Hex Hr] Hk Hcommit. rewrite Hk in *. split; cbn; try done.
  - rewrite committed_snoc, Ho. destruct carried; cbn; by rewrite <-?(assoc_L (++)), ?app_nil_r.
  - apply Forall_app. split; [done|]. apply Forall_singleton. split; [done|]. by repeat eexists.
  - destruct carried; [apply batch_ok_single|done].
  - by destruct carried.
  - intros ?%Hr. done.
Qed.

Lemma internal_inv s s' : qinv s → internal s s' → qinv s'.
Proof.
  intros I. destruct 1 as [s l c l' Hs Hq|s c q Hk Hq|s b c q Hk Hl Hq Hfit|s b c q Hk Hl Hq Hover
    |s b Hk Hq|s b carried iow ior a e errs fl Hk Hcommit|s Hk Hq Hqc|s Hk Hs|s Hk Hx]; pose proof (qi_hand s I) as Hhand.
  2-4: (eapply take_inv; [done|done|done|rewrite Hk; cbn; by rewrite ?app_nil_r|rewrite Hk in Hhand]).
  2: apply batch_ok_single.
  2: by apply batch_ok_snoc.
  2: done.
  3: by eapply commit_inv.
  all: destruct I as [Ho Hn Hc Hb Hh Hcl Hsh Hex Hr]; split; cbn; try done.
  - unfold committed in *. cbn. rewrite Ho. by rewrite <-!(assoc_L (++)).
  - rewrite Hs in Hn. by apply once_send.
  - rewrite length_app. cbn. lia.
  - intros Hqc. specialize (Hsh Hqc). rewrite Hs in Hsh. by destruct l.
  - intros Hx. destruct (Hex Hx) as [Hqc _]. specialize (Hsh Hqc). rewrite Hs in Hsh. by destruct l.
  - rewrite Ho, Hk. cbn. by rewrite app_nil_r.
  - by rewrite Hk in Hh.
  - intros ?%Hr. by rewrite Hk in *.
  - rewrite Ho, Hk, Hq. by rewrite !app_nil_r.
  - unfold maxBatchRecords. lia.
  - naive_solver.
  - naive_solver.
  - rewrite Hcl, Hk. naive_solver.
Qed.

Lemma external_inv s s' : qinv s → external s s' → qinv s'.
Proof.
  intros [Ho Hn Hc Hb Hh Hcl Hsh Hex Hr]. destruct 1 as [s c Hqc Hk Hfr Henc|s c Hqc Hfr|s Hk|s e He]; split; cbn; try done.
  - eapply once_add; [exact Hn|done|solve_Permutation].
  - congruence.
  - eapply once_add; [exact Hn|done|solve_Permutation].
  - rewrite Hcl, Hk. naive_solver.
Qed.

Lemma reachable_q_inv s : reachable_q s → qinv s.
Proof.
  intros [e Hr]. pose proof (opened_inv e) as I. revert I. induction Hr as [|s s1 s2 [Hi|He] _ IH]; [done|..]; intros I.
  - by apply IH, (internal_inv s).
  - by apply IH, (external_inv s).
Qed.

(** *** Progress *)

(** How much is left to do before everything accepted is answered: each
    internal step makes it smaller. *)
Definition committer_work (k : committer) : nat :=
  match k with Exited => 0 | Receiving => 1 | Filling _ => 3 | Committing _ None => 2 | Committing _ (Some _) => 4 end.
Definition closer_work (k : closer) : nat :=
  match k with WantsLock => 2 | WaitsForCommitter => 1 | NotClosing | Returned => 0 end.
Definition work (s : qstate) : nat :=
  5 * length (sending s) + 4 * length (queue s) + committer_work (runCommitter s) + closer_work (closeWrites s).

Lemma internal_work s s' : internal s s' → work s' < work s.
Proof.
  destruct 1 as [s l c l' Hs Hq|s c q Hk Hq|s b c q Hk Hl Hq Hfit|s b c q Hk Hl Hq Hover
    |s b Hk Hq|s b carried iow ior a e errs fl Hk Hcommit|s Hk Hq Hqc|s Hk Hs|s Hk Hx]; unfold work; cbn.
  - rewrite Hs, !length_app. cbn. lia.
  - rewrite Hk, Hq. cbn. lia.
  - rewrite Hk, Hq. cbn. lia.
  - rewrite Hk, Hq. cbn. lia.
  - rewrite Hk. cbn. lia.
  - rewrite Hk. destruct carried; cbn; lia.
  - rewrite Hk, Hq. cbn. lia.
  - rewrite Hk. cbn. lia.
  - rewrite Hk. cbn. lia.
Qed.

(** A committer that holds a batch can always go on. *)
Lemma committer_moves s : qinv s → in_hand (runCommitter s) ≠ [] → ∃ s', internal s s'.
Proof.
  intros I Hne. destruct (runCommitter s) as [|b|b carried|] eqn:Hk; try done.
  - pose proof (qi_hand s I) as Hh.
    rewrite Hk in Hh. destruct Hh as [Hl _]. rewrite length_fmap in Hl.
    destruct (queue s) as [|c q] eqn:Hq; [by eexists; eapply q_filled; eauto|].
    destruct (decide (length b = maxBatchRecords)); [by eexists; eapply q_filled; eauto|].
    destruct (N.le_gt_cases (calls_bytes b + N.of_nat (length (req_record (c_req c)))) maxBatchBytes);
      eexists; [eapply q_fill|eapply q_overflow]; eauto; lia.
  - destruct (commit lio_fine lio_fine 0 (engine s) (c_req <$> b)) as [[e errs] fl] eqn:Hc. eexists. by eapply q_commit.
Qed.

(** Nothing is left to do. *)
Definition idle (s : qstate) : Prop :=
  sending s = [] ∧ queue s = [] ∧ in_hand (runCommitter s) = [] ∧ (closeWrites s = NotClosing ∨ closeWrites s = Returned).

Lemma empty_hand s : qinv s → in_hand (runCommitter s) = [] → runCommitter s = Receiving ∨ runCommitter s = Exited.
Proof.
  intros I Hh. pose proof (qi_hand s I) as Hok. destruct (runCommitter s) as [|b|b carried|]; [by left|..|by right]; cbn in Hh, Hok.
  - subst b. destruct Hok as [Hl _]. cbn in Hl. lia.
  - apply app_nil in Hh as [-> _]. destruct Hok as [Hl _]. cbn in Hl. lia.
Qed.

(** Somebody can always go on: nobody waits for ever for a full channel, for
    the committer or for the lock. *)
Lemma internal_progress s : qinv s → idle s ∨ ∃ s', internal s s'.
Proof.
  intros I. destruct (decide (in_hand (runCommitter s) = [])) as [Hh|Hh]; [|right; by apply committer_moves].
  destruct (empty_hand s I Hh) as [Hr|Hr]; destruct (queue s) as [|c q] eqn:Hq.
  2: right; eexists; by eapply q_receive.
  3: destruct (qi_exited s I Hr) as [_ Hx]; by rewrite Hq in Hx.
  all: destruct (sending s) as [|c l] eqn:Hs;
    [|right; eexists; apply (q_send s [] c l); [done|]; rewrite Hq; unfold maxBatchRecords; cbn; lia].
  all: destruct (closeWrites s) eqn:Hk; [left; by repeat split; eauto|right; eexists; by apply q_shut|right|left; by repeat split; eauto].
  - eexists. apply q_exit; try done. apply (qi_closed s I). by left.
  - eexists. by apply q_closed.
Qed.

(** A run of internal steps keeps the calls under way and what was asked. *)
Lemma internal_keeps s s' : internal s s' →
  sent s' ++ sending s' ≡ₚ sent s ++ sending s ∧ (closeWrites s ≠ NotClosing → closeWrites s' ≠ NotClosing).
Proof.
  destruct 1 as [s l c l' Hs Hq| | | | | | | |]; cbn; try done. split; [|done]. rewrite Hs. solve_Permutation.
Qed.

Lemma internal_run s s' : rtc internal s s' → qinv s →
  qinv s' ∧ sent s' ++ sending s' ≡ₚ sent s ++ sending s ∧ (closeWrites s ≠ NotClosing → closeWrites s' ≠ NotClosing).
Proof.
  induction 1 as [|s s1 s2 Hi _ IH]; intros I; [done|].
  destruct (IH (internal_inv _ _ I Hi)) as (I2 & Hp & Hk). destruct (internal_keeps _ _ Hi) as [Hp' Hk'].
  split_and!; [done|by rewrite Hp|auto].
Qed.

Lemma internal_bounded n s s' : nsteps internal n s s' → n + work s' ≤ work s.
Proof. induction 1 as [|n s s1 s2 Hi _ IH]; [lia|]. apply internal_work in Hi. lia. Qed.

Lemma internal_settles s : qinv s → ∃ s', rtc internal s s' ∧ idle s'.
Proof.
  remember (work s) as n eqn:Hn. revert s Hn. induction n as [n IH] using lt_wf_ind. intros s -> I.
  destruct (internal_progress s I) as [Hi|[s1 Hi]]; [by exists s|].
  destruct (IH (work s1)) with s1 as (s' & Hr & Hd); [by apply internal_work|done|by eapply internal_inv|].
  exists s'. split; [by eapply rtc_l|done].
Qed.

(** *** What group commit promises *)

(** C9: an accepted write is committed once and in order, and closing loses
    none.  In every state the writers, the committer, [Close] and the
    background work can reach: what went through the channel is, in that order,
    the batches committed, then what the committer holds, then what is queued;
    no call appears twice, whether sent, about to be sent or refused; every
    committed batch kept its limits and each of its requests has one answer,
    that of [commit] on the batch; the channel is never closed under a sender;
    and once [closeWrites] has returned, everything sent has been committed. *)
Theorem group_commit_safe s : reachable_q s →
  sent s = committed s ++ in_hand (runCommitter s) ++ queue s ∧
  NoDup (c_id <$> (sent s ++ sending s ++ refused s)) ∧
  Forall (λ p, batch_ok (c_req <$> p.1) ∧ length p.2 = length p.1 ∧ answered_by_commit p) (commits s) ∧
  (queueClosed s = true → sending s = []) ∧
  (closeWrites s = Returned → committed s = sent s).
Proof.
  intros I%reachable_q_inv. destruct I as [Ho Hn Hc Hb Hh Hcl Hsh Hex Hr]. split_and!; try done.
  - apply (Forall_impl _ _ _ Hb). intros [b errs] [Hok Ha]. split_and!; [done| |done].
    destruct Ha as (iow & ior & a & e & e' & fl & Ha). pose proof (commit_answers iow ior a e (c_req <$> b)) as Hl.
    cbn in *. rewrite Ha, length_fmap in Hl. exact Hl.
  - intros Hx%Hr. destruct (Hex Hx) as [_ Hq]. rewrite Ho, Hx, Hq. cbn. by rewrite app_nil_r.
Qed.

(** C10: no accepted write and no [Close] waits for ever.  From any reachable
    state the parts can only take a bounded number of steps before new calls
    come; as long as a writer is blocked, a request is queued or held, or
    [Close] waits, one of them can step; so every such run ends, and when it
    does every call that was under way has been committed and answered, and
    [Close], if it was called, has returned. *)
Theorem group_commit_progress s : reachable_q s →
  (∀ n s', nsteps internal n s s' → n ≤ work s) ∧
  (∀ s', rtc internal s s' → idle s' ∨ ∃ s'', internal s' s'') ∧
  (∀ s', rtc internal s s' → idle s' →
     committed s' ≡ₚ sent s ++ sending s ∧ (closeWrites s ≠ NotClosing → closeWrites s' = Returned)) ∧
  ∃ s', rtc internal s s' ∧ idle s'.
Proof.
  intros I%reachable_q_inv. split_and!.
  - intros n s' Hn%internal_bounded. lia.
  - intros s' Hr. apply internal_progress. by eapply internal_run.
  - intros s' Hr (Hs & Hq & Hh & Hk). destruct (internal_run _ _ Hr I) as (I' & Hp & Hc). split; [|naive_solver].
    rewrite <-Hp, Hs, (qi_order s' I'), Hh, Hq. cbn. by rewrite !app_nil_r.
  - by apply internal_settles.
Qed.
End queue.

(** ** Witnesses *)

Section witnesses.
#[local] Existing Instance gmap_btree.
#[local] Existing Instance gmap_btree_spec.
#[local] Existing Instance set_bloom.
#[local] Existing Instance toy_value_json.
#[local] Existing Instance toy_record_json.
#[local] Existing Instance toy_sst_json.
#[local] Existing Instance toy_index_json.

Definition q_engine : StorageEngine (gmap string (list itemptr)) (gset string) :=
  mkEngine (mkLayers (Memtable.New 1) None []) (mkLog (segmentPath 1) 1 [])
    {[ segmentPath 1 := mkFile [] [] ]} (mkManifest (mkFile [] []) ∅) ∅ 1 None false false (mkCnt 0 0 0 0 0).
Definition q_call : call := mkCall 0 (mkReq wal_e1 (wal_bytes wal_e1)).
Definition no_background (e e' : StorageEngine (gmap string (list itemptr)) (gset string)) : Prop := False.

(** One writer is inside [enqueue] when [Close] is called. *)
Definition q_waiting : qstate := mkQ q_engine [q_call] [] false Receiving WantsLock [] [] [].

Lemma q_waiting_reachable : reachable_q no_background q_waiting.
Proof.
  exists q_engine. eapply rtc_l; [right; apply (q_enter _ _ q_call)|eapply rtc_l; [right; apply q_close|apply rtc_refl]];
    cbn; try done; try by apply not_elem_of_nil.
Qed.

Lemma group_commit_progress_witness :
  ∃ s', rtc internal q_waiting s' ∧ committed s' ≡ₚ [q_call] ∧ closeWrites s' = Returned.
Proof.
  destruct (group_commit_progress no_background q_waiting q_waiting_reachable) as (_ & _ & Hdone & s' & Hr & Hi).
  exists s'. destruct (Hdone s' Hr Hi) as [Hc Hk]. split_and!; [done|done|by apply Hk].
Defined.

Lemma group_commit_safe_witness :
  ∃ s', reachable_q no_background s' ∧ closeWrites s' = Returned ∧ committed s' = sent s'.
Proof.
  destruct (internal_settles q_waiting) as (s' & Hr & Hi).
  { apply (reachable_q_inv no_background), q_waiting_reachable. }
  assert (reachable_q no_background s') as Hreach.
  { destruct q_waiting_reachable as [e He]. exists e. etrans; [exact He|].
    eapply rtc_subrel; [|exact Hr]. intros ? ? ?. by left. }
  destruct (internal_run _ _ Hr (reachable_q_inv _ _ q_waiting_reachable)) as (_ & _ & Hk).
  destruct Hi as (_ & _ & _ & [Hn|Hn]); [by destruct (Hk ltac:(done))|].
  exists s'. split; [done|]. split; [done|]. by apply (group_commit_safe no_background s' Hreach).
Defined.
End witnesses.
