(* ===== verification/JsonLines.v ===== *)
(** * Files of JSON lines (internal/chaos: record.go ReadRecords, readback.go
      ReadReadback, check.go ReadEvents)

    The recorder and the read-back write one JSON document per line
    ([json.Encoder]); the check reads the lines back with a [bufio.Scanner],
    which skips blank ones and fails on a line that is too long.

    Shown: what was written is what is read, in order; a damaged line is an
    error that names it, never a record less. *)

From stdpp Require Import gmap strings list.
From Stdlib Require Import ZArith Lia Ascii.
From S2P Require Import Prelude GoLib Json Manifest.

Open Scope nat_scope.

Local Notation newline := ("010"%char).
Local Notation cr := ("013"%char).

(** ** Reading *)

(** [strings.TrimSpace] leaves nothing: white space as [unicode.IsSpace] has it,
    in UTF-8 *)
Definition wide_space (a b c : N) : bool :=
  ((a =? 225) && (b =? 154) && (c =? 128) || (a =? 227) && (b =? 128) && (c =? 128) ||
   (a =? 226) && ((b =? 128) && ((128 <=? c) && (c <=? 138) || (c =? 168) || (c =? 169) || (c =? 175)) || (b =? 129) && (c =? 159)))%N.
Fixpoint blank (b : bytes) : bool :=
  match b with
  | [] => true
  | x :: rest =>
      if is_space x then blank rest
      else match rest with
      | y :: rest2 =>
          if ((N_of_ascii x =? 194) && ((N_of_ascii y =? 133) || (N_of_ascii y =? 160)))%N then blank rest2
          else match rest2 with
          | z :: rest3 => if wide_space (N_of_ascii x) (N_of_ascii y) (N_of_ascii z) then blank rest3 else false
          | [] => false
          end
      | [] => false
      end
  end.

(** [bufio.ScanLines]: the lines, without a carriage return at the end; no line
    after the last newline if nothing follows it *)
Definition drop_cr (l : bytes) : bytes :=
  match last l with Some c => if bool_decide (c = cr) then removelast l else l | None => l end.
Fixpoint drop_last_empty (ls : list bytes) : list bytes :=
  match ls with [] => [] | [[]] => [] | l :: rest => l :: drop_last_empty rest end.
Definition scan (content : bytes) : list bytes := drop_last_empty (split_lines content).

Inductive lines_error := BadLine (line : nat) | LineTooLong.

Section lines.
Context {A : Type} `{!JsonCodec A}.

(** The loop of the three readers; [limit] is the scanner's buffer. *)
Fixpoint read_loop (limit line : nat) (ls : list bytes) : res lines_error (list A) :=
  match ls with
  | [] => Ok []
  | l :: rest =>
      if limit <=? length l then Err LineTooLong
      else if blank (drop_cr l) then read_loop limit (S line) rest
      else match json_unmarshal (drop_cr l) with
      | None => Err (BadLine line)
      | Some x => match read_loop limit (S line) rest with Ok xs => Ok (x :: xs) | Err e => Err e end
      end
  end.
Definition read_lines (limit : nat) (content : bytes) : res lines_error (list A) := read_loop limit 1 (scan content).

(** ** Writing *)

(** [json.Encoder.Encode], a document and a newline *)
Definition encode_line (x : A) : option bytes := (λ b, b ++ [newline]) <$> json_marshal x.

(** The document of a struct is one line, in braces. *)
Class JsonLine : Prop :=
  json_line : ∀ (x : A) b, json_marshal x = Some b → no_newline b ∧ ∃ mid, b = "{"%char :: mid ++ ["}"%char].

Lemma braces_not_blank mid : blank ("{"%char :: mid) = false.
Proof. destruct mid as [|y [|z rest]]; cbn; try done. Qed.

Lemma braces_no_cr b mid : b = "{"%char :: mid ++ ["}"%char] → drop_cr b = b.
Proof. intros ->. unfold drop_cr. by rewrite app_comm_cons, last_snoc. Qed.

(** What was read of a line. *)
Lemma read_document `{!JsonLine} limit line x b rest :
  json_marshal x = Some b → json_unmarshal b = Some x → length b < limit →
  read_loop limit line (b :: rest) = match read_loop limit (S line) rest with Ok xs => Ok (x :: xs) | Err e => Err e end.
Proof.
  intros Hm Hu Hl. destruct (json_line x b Hm) as (_ & mid & E). cbn [read_loop].
  rewrite (proj2 (Nat.leb_gt _ _)) by done. rewrite (braces_no_cr b mid E), Hu. rewrite E at 1. by rewrite braces_not_blank.
Qed.

Lemma drop_last_empty_lines ls : drop_last_empty (ls ++ [[]]) = ls.
Proof.
  induction ls as [|l ls IH]; [done|]. cbn [app drop_last_empty].
  destruct l; cbn [app]; [destruct (ls ++ [[]]) eqn:E; [by destruct ls|by rewrite IH]|by rewrite IH].
Qed.

Definition written (x : A) (b : bytes) : Prop := json_marshal x = Some b ∧ json_unmarshal b = Some x.

Lemma read_written `{!JsonLine} limit xs bs : Forall2 written xs bs → Forall (λ b, length b < limit) bs →
  read_lines limit (lines_of bs) = Ok xs.
Proof.
  intros Hw Hl. unfold read_lines, scan.
  assert (Forall no_newline bs) as Hn.
  { clear Hl. induction Hw as [|x b xs bs [Hm _] _ IH]; constructor; [by eapply json_line|done]. }
  rewrite <-(app_nil_r (lines_of bs)), split_lines_of, drop_last_empty_lines by (done || by apply not_elem_of_nil).
  clear Hn. generalize 1. induction Hw as [|x b xs bs [Hm Hu] _ IH]; intros line; [done|].
  apply Forall_cons in Hl as [Hb Hl]. rewrite (read_document _ _ x) by done. by rewrite IH.
Qed.

(** ** What is read is what was written *)

(** Encoding each of [xs] in turn gives a file from which exactly [xs] is read,
    if the codec is faithful to them and no line exceeds the buffer. *)
Theorem json_lines_roundtrip `{!JsonLine} (ok : A → Prop) `{!JsonRoundTrip A ok} limit xs ls :
  mapM encode_line xs = Some ls → Forall ok xs → Forall (λ l, length l ≤ limit) ls → read_lines limit (concat ls) = Ok xs.
Proof.
  intros Hm Hok Hl.
  assert (∃ bs, ls = (λ b, b ++ [newline]) <$> bs ∧ Forall2 written xs bs) as (bs & -> & Hw).
  { clear Hl. apply mapM_Some in Hm. revert Hok. induction Hm as [|x l xs ls Hx _ IH]; intros Hok.
    - exists []. by split; [|constructor].
    - apply Forall_cons in Hok as [Hox Hok]. destruct (IH Hok) as (bs & -> & Hw). apply fmap_Some in Hx as (b & Hb & ->).
      exists (b :: bs). split; [done|]. constructor; [|done]. split; [done|]. by apply (json_roundtrip (ok := ok)). }
  change (concat ((λ b, b ++ [newline]) <$> bs)) with (concat (map (λ b, b ++ [newline]) bs)).
  rewrite <-flat_map_concat_map. assert (flat_map (λ b, b ++ [newline]) bs = lines_of bs) as ->.
  { unfold lines_of. clear. induction bs as [|b bs IH]; [done|]. cbn. by rewrite IH. }
  apply read_written; [done|]. apply Forall_fmap in Hl. apply (Forall_impl _ _ _ Hl). intros b Hb. cbn in Hb. rewrite length_app in Hb. cbn in Hb. lia.
Qed.

(** Without an error, every line that is not blank is a document that was
    read, in order: none is skipped. *)
Theorem every_line_is_read limit content xs : read_lines limit content = Ok xs →
  Some <$> xs = (λ l, json_unmarshal (drop_cr l)) <$> bfilter (λ l, negb (blank (drop_cr l))) (scan content).
Proof.
  unfold read_lines. generalize 1. generalize (scan content). intros ls. revert xs. induction ls as [|l ls IH]; intros xs line; cbn [read_loop bfilter].
  { by intros [= <-]. }
  destruct (limit <=? length l); [done|]. destruct (blank (drop_cr l)); cbn [negb]; [apply IH|].
  destruct (json_unmarshal (drop_cr l)) as [x|] eqn:E; [|done]. destruct (read_loop limit (S line) ls) as [xs'|] eqn:Er; [|done].
  intros [= <-]. rewrite !fmap_cons, E. by rewrite (IH _ _ Er).
Qed.
End lines.

Arguments JsonLine A {_}.
