(* ===== verification/Recorder.v ===== *)
(** * Recording a load and reading it back (internal/chaos/record.go, readback.go)

    The recorder sends puts and gets to the pods while a fault is on, and
    writes a record of each; the read-back then asks for every key that was
    put.  Generators make jobs on a schedule, workers send them over a pool of
    connections, one goroutine writes the records: they run here as one step
    relation, with whatever answers and states of connections the cluster
    gives.  Rates and times only decide when a step is taken.

    Shown: nothing that was sent is missing from the records and nothing is in
    them that was not (apart from those marked dropped), a preload that is not
    cut short writes all its keys, a run that is told to stop returns; and what
    a read-back entry says about the owners' copies is what they hold. *)

From stdpp Require Import gmap strings list sorting pretty relations.
From Stdlib Require Import ZArith Lia Ascii.
From S2P Require Import Prelude GoLib GoStrings Json Versioning HashRing Sha256 Quote Membership ChaosPredict ChaosCheck JsonLines.

Open Scope nat_scope.

(** ** The pool of connections *)

Inductive connectivity := Idle | Connecting | Ready | TransientFailure | Shutdown.
#[global] Instance connectivity_eq_dec : EqDecision connectivity.
Proof. solve_decision. Defined.

Record pool := mkPool { conns : list string; direct : bool }.

Inductive dial_error := DialFailed (id : string) | NoTargets | NotReady (id : string).

(** [dialPool]: which dials succeed and which connections become ready in time
    is the network's *)
Definition dialPool (dials ready : string → bool) (targets : list (string * string)) (service : string) (n : nat) : res dial_error pool :=
  let d := bool_decide (service = "") in
  let names := if d then targets.*1 else (λ i, "svc-" +:+ pretty i) <$> seq 0 n in
  match List.find (λ id, negb (dials id)) names with
  | Some id => Err (DialFailed id)
  | None =>
      match names with
      | [] => Err NoTargets
      | _ => match List.find (λ id, negb (ready id)) names with Some id => Err (NotReady id) | None => Ok (mkPool names d) end
      end
  end.

(** The loop of [pick]: from [start], the index of the first connection that is
    ready, and the idle ones before it, which are told to connect. *)
Fixpoint pick_loop (n start : nat) (state : nat → connectivity) (i : nat) : option nat * list nat :=
  match i with
  | O => (None, [])
  | S i' =>
      let k := (start + (n - i)) mod n in
      match state k with
      | Ready => (Some k, [])
      | Idle => let '(r, woken) := pick_loop n start state i' in (r, k :: woken)
      | _ => pick_loop n start state i'
      end
  end.

(** [pick]: the index it returns, and the connections it wakes; [next] is the
    counter before the call, below the range of [int]. *)
Definition pick (p : pool) (next : nat) (state : nat → connectivity) : nat * list nat :=
  let n := length (conns p) in
  let first := next mod n in
  if negb (direct p) then (first, [])
  else let '(r, woken) := pick_loop n next state n in (default first r, woken).

(** ** A recorder run *)

(** [WritesOn] and [ReadsOn] are a rate above zero. *)
Record RecordConfig := mkRecord {
  Test : string; Targets : list (string * string); Service : string; ServiceConns : nat;
  WritesOn : bool; WritePrefix : string; Writes : Z;
  ReadsOn : bool; ReadPrefix : string; ReadKeys : Z;
  Concurrency : Z; Timeout : Z
}.

Inductive record_error := NothingToDo | ReadsNeedKeys | WritesNeedPrefix | NotPositive | NoPool (e : dial_error).

(** The checks before anything is sent. *)
Definition record_check (dials ready : string → bool) (cfg : RecordConfig) : res record_error pool :=
  if negb (WritesOn cfg) && negb (ReadsOn cfg) then Err NothingToDo
  else if ReadsOn cfg && (bool_decide (ReadPrefix cfg = "") || (ReadKeys cfg <=? 0)%Z) then Err ReadsNeedKeys
  else if WritesOn cfg && bool_decide (WritePrefix cfg = "") then Err WritesNeedPrefix
  else if (Concurrency cfg <=? 0)%Z || (Timeout cfg <=? 0)%Z then Err NotPositive
  else match dialPool dials ready (Targets cfg) (Service cfg) (ServiceConns cfg) with Err e => Err (NoPool e) | Ok p => Ok p end.

Record job := mkJob { seq_ : Z; op_ : Op; key_ : string }.
Definition job_of (r : Request) : job := mkJob (r_Seq r) (r_Op r) (r_Key r).

(** A worker: at the top of its loop, at its receive, with a job, with the job
    on its way to a connection, with its record, gone. *)
Inductive worker := Looping | Receiving | Got (j : job) | InFlight (j : job) (target : string) | Reporting (r : Request) | WorkerDone.

(** A generator at its [i]th turn: waiting for the time, offering the job,
    reporting that it was dropped; after its loop; gone. *)
Inductive gen := Ticking (i : nat) | Offering (i : nat) (j : job) | Dropping (i : nat) (r : Request) | Ending | GenDone.

Inductive main := WaitGens | WaitWorkers | WaitWritten | Returned.

Definition maxResults : nat := 1024.

(** [asked] are the requests that went out, [lost] the jobs given up by a
    preload that is cut short, [made] all jobs, [cut] whether the run was ended
    from outside; [taken] is what the writer received, each with whether it was
    written, and [werr] whether writing failed at some point. *)
Record rstate := mkR {
  gens : list (Op * gen); seqno : Z; run_done : bool; cut : bool; next : nat;
  workers : list worker; jobsClosed : bool; results : list Request; resultsClosed : bool;
  taken : list (Request * bool); counts : Op → Result → nat; werr : bool; written : bool; at_main : main;
  made : list job; asked : list job; lost : list job
}.

Definition counts_add (c : Op → Result → nat) (op : Op) (r : Result) : Op → Result → nat :=
  λ op' r', if bool_decide (op' = op) && bool_decide (r' = r) then S (c op' r') else c op' r'.

Section run.
Context (cfg : RecordConfig) (p : pool).

Definition fixed (op : Op) : Z := match op with OpPut => Writes cfg | OpGet => 0%Z end.
(** The loop of [stream] has a turn [i]. *)
Definition has_turn (op : Op) (i : nat) : bool := (fixed op =? 0)%Z || (Z.of_nat i <? fixed op)%Z.
(** The key of turn [i]: the [i]th of the writes, any of the keys read. *)
Definition key_at (op : Op) (i : nat) (key : string) : Prop :=
  match op with
  | OpPut => key = KeyName (WritePrefix cfg) i
  | OpGet => ∃ k, (Z.of_nat k < ReadKeys cfg)%Z ∧ key = KeyName (ReadPrefix cfg) k
  end.
(** The generator of the writes ends a run that is only a preload. *)
Definition stops (op : Op) : bool := bool_decide (op = OpPut) && (0 <? Writes cfg)%Z && negb (ReadsOn cfg).

Definition answers_op (op : Op) (a : answer) : Prop :=
  match op, a with OpPut, PutAnswer _ | OpGet, GetAnswer _ _ _ => True | _, _ => False end.

Definition set_gens (s : rstate) (g : list (Op * gen)) : rstate :=
  mkR g (seqno s) (run_done s) (cut s) (next s) (workers s) (jobsClosed s) (results s) (resultsClosed s) (taken s) (counts s)
    (werr s) (written s) (at_main s) (made s) (asked s) (lost s).
Definition set_workers (s : rstate) (w : list worker) : rstate :=
  mkR (gens s) (seqno s) (run_done s) (cut s) (next s) w (jobsClosed s) (results s) (resultsClosed s) (taken s) (counts s)
    (werr s) (written s) (at_main s) (made s) (asked s) (lost s).
Definition set_results (s : rstate) (r : list Request) : rstate :=
  mkR (gens s) (seqno s) (run_done s) (cut s) (next s) (workers s) (jobsClosed s) r (resultsClosed s) (taken s) (counts s)
    (werr s) (written s) (at_main s) (made s) (asked s) (lost s).
Definition set_main (s : rstate) (jc rc wr : bool) (m : main) : rstate :=
  mkR (gens s) (seqno s) (run_done s) (cut s) (next s) (workers s) jc (results s) rc (taken s) (counts s)
    (werr s) wr m (made s) (asked s) (lost s).

(** *** Steps *)

(** What the parts do, apart from making a new job. *)
Inductive settle : rstate → rstate → Prop :=
  | g_over s l op i l' : gens s = l ++ (op, Ticking i) :: l' → has_turn op i = false ∨ run_done s = true →
      settle s (set_gens s (l ++ (op, Ending) :: l'))
  | g_hand s l op i j l' w w' : gens s = l ++ (op, Offering i j) :: l' → workers s = w ++ Receiving :: w' →
      settle s (set_gens (set_workers s (w ++ Got j :: w')) (l ++ (op, Ticking (S i)) :: l'))
  | g_abandon s l op i j l' : gens s = l ++ (op, Offering i j) :: l' → (0 < fixed op)%Z → run_done s = true →
      settle s (mkR (l ++ (op, Ending) :: l') (seqno s) (run_done s) (cut s) (next s) (workers s) (jobsClosed s) (results s)
                  (resultsClosed s) (taken s) (counts s) (werr s) (written s) (at_main s) (made s) (asked s) (lost s ++ [j]))
  | g_drop s l op i j l' now : gens s = l ++ (op, Offering i j) :: l' → (fixed op ≤ 0)%Z → Receiving ∉ workers s →
      settle s (set_gens s (l ++ (op, Dropping i (mkReq (Test cfg) (seq_ j) op (key_ j) "" now now ResultDropped)) :: l'))
  | g_report s l op i r l' : gens s = l ++ (op, Dropping i r) :: l' → length (results s) < maxResults →
      settle s (set_results (set_gens s (l ++ (op, Ticking (S i)) :: l')) (results s ++ [r]))
  | g_end s l op l' : gens s = l ++ (op, Ending) :: l' →
      settle s (mkR (l ++ (op, GenDone) :: l') (seqno s) (run_done s || stops op) (cut s) (next s) (workers s) (jobsClosed s) (results s)
                  (resultsClosed s) (taken s) (counts s) (werr s) (written s) (at_main s) (made s) (asked s) (lost s))
  | w_loop s w w' : workers s = w ++ Looping :: w' → settle s (set_workers s (w ++ Receiving :: w'))
  | w_exit s w w' : workers s = w ++ Receiving :: w' → jobsClosed s = true → settle s (set_workers s (w ++ WorkerDone :: w'))
  | w_send s w j w' state : workers s = w ++ Got j :: w' →
      settle s (mkR (gens s) (seqno s) (run_done s) (cut s) (S (next s))
                  (w ++ InFlight j (default "" (conns p !! (pick p (next s) state).1)) :: w') (jobsClosed s) (results s) (resultsClosed s)
                  (taken s) (counts s) (werr s) (written s) (at_main s) (made s) (asked s ++ [j]) (lost s))
  | w_answer s w j target w' start end_ a : workers s = w ++ InFlight j target :: w' → answers_op (op_ j) a →
      settle s (set_workers s (w ++ Reporting (send (Test cfg) (seq_ j) (op_ j) (key_ j) target start end_ a) :: w'))
  | w_report s w r w' : workers s = w ++ Reporting r :: w' → length (results s) < maxResults →
      settle s (set_results (set_workers s (w ++ Looping :: w')) (results s ++ [r]))
  | p_write s r rs (ok : bool) : results s = r :: rs → written s = false →
      settle s (mkR (gens s) (seqno s) (run_done s) (cut s) (next s) (workers s) (jobsClosed s) rs (resultsClosed s)
                  (taken s ++ [(r, ok)]) (counts_add (counts s) (r_Op r) (r_Result r)) (werr s || negb ok) (written s) (at_main s)
                  (made s) (asked s) (lost s))
  | p_finish s (ok : bool) : results s = [] → resultsClosed s = true → written s = false →
      settle s (mkR (gens s) (seqno s) (run_done s) (cut s) (next s) (workers s) (jobsClosed s) [] (resultsClosed s)
                  (taken s) (counts s) (werr s || negb ok) true (at_main s) (made s) (asked s) (lost s))
  | m_gens s : at_main s = WaitGens → Forall (λ g, g.2 = GenDone) (gens s) →
      settle s (set_main s true (resultsClosed s) (written s) WaitWorkers)
  | m_workers s : at_main s = WaitWorkers → Forall (eq WorkerDone) (workers s) →
      settle s (set_main s (jobsClosed s) true (written s) WaitWritten)
  | m_written s : at_main s = WaitWritten → written s = true →
      settle s (set_main s (jobsClosed s) (resultsClosed s) (written s) Returned).

(** A new job at its time; the end of the run, by its duration, the stop file
    or the caller's context; a flush of the output that fails. *)
Inductive outside : rstate → rstate → Prop :=
  | g_tick s l op i l' key : gens s = l ++ (op, Ticking i) :: l' → has_turn op i = true → key_at op i key →
      let j := mkJob (seqno s + 1) op key in
      outside s (mkR (l ++ (op, Offering i j) :: l') (seqno s + 1) (run_done s) (cut s) (next s) (workers s) (jobsClosed s) (results s)
                   (resultsClosed s) (taken s) (counts s) (werr s) (written s) (at_main s) (made s ++ [j]) (asked s) (lost s))
  | r_stop s : outside s (mkR (gens s) (seqno s) true true (next s) (workers s) (jobsClosed s) (results s)
                   (resultsClosed s) (taken s) (counts s) (werr s) (written s) (at_main s) (made s) (asked s) (lost s))
  | p_flush_fails s : written s = false →
      outside s (mkR (gens s) (seqno s) (run_done s) (cut s) (next s) (workers s) (jobsClosed s) (results s)
                   (resultsClosed s) (taken s) (counts s) true (written s) (at_main s) (made s) (asked s) (lost s)).

Definition rstep (s s' : rstate) : Prop := settle s s' ∨ outside s s'.

Definition started : rstate :=
  mkR ((if WritesOn cfg then [(OpPut, Ticking 0)] else []) ++ (if ReadsOn cfg then [(OpGet, Ticking 0)] else []))
    0 false false 0 (replicate (Z.to_nat (Concurrency cfg)) Looping) false [] false [] (λ _ _, 0) false false WaitGens [] [] [].
Definition recording (s : rstate) : Prop := rtc rstep started s.

(** *** Every job has its record *)

Definition gen_jobs (g : Op * gen) : list job := match g.2 with Offering _ j => [j] | Dropping _ r => [job_of r] | _ => [] end.
Definition worker_jobs (w : worker) : list job :=
  match w with Got j | InFlight j _ => [j] | Reporting r => [job_of r] | _ => [] end.
Definition worker_asked (w : worker) : list job := match w with InFlight j _ => [j] | Reporting r => [job_of r] | _ => [] end.
Definition was_sent (r : Request) : bool := negb (bool_decide (r_Result r = ResultDropped)).
Definition sent_jobs (rs : list Request) : list job := job_of <$> bfilter was_sent rs.

(** The records on their way are of the right kind: a generator's is dropped
    and of its operation, a worker's is of a request that was sent. *)
Definition gen_ok (g : Op * gen) : Prop :=
  match g.2 with
  | Dropping _ r => was_sent r = false ∧ r_Op r = g.1 ∧ (fixed g.1 ≤ 0)%Z
  | Offering _ j => op_ j = g.1
  | _ => True
  end.
Definition worker_ok (w : worker) : Prop := match w with Reporting r => was_sent r = true | _ => True end.
(** A preload drops nothing. *)
Definition record_ok (r : Request) : Prop := r_Op r = OpPut → (0 < Writes cfg)%Z → was_sent r = true.

Record accounted (s : rstate) : Prop := {
  ac_made : made s ≡ₚ (gens s ≫= gen_jobs) ++ (workers s ≫= worker_jobs) ++ (job_of <$> results s) ++ (job_of <$> (taken s).*1) ++ lost s;
  ac_asked : asked s ≡ₚ (workers s ≫= worker_asked) ++ sent_jobs (results s) ++ sent_jobs (taken s).*1;
  ac_seq : (0 ≤ seqno s)%Z ∧ seq_ <$> made s = seqZ 1 (seqno s);
  ac_gens : Forall gen_ok (gens s);
  ac_workers : Forall worker_ok (workers s);
  ac_records : Forall record_ok (results s ++ (taken s).*1);
  ac_counts : ∀ op r, counts s op r = length (bfilter (λ x, bool_decide (r_Op x = op) && bool_decide (r_Result x = r)) (taken s).*1);
  ac_written : werr s = false → Forall (λ x, x.2 = true) (taken s)
}.

Lemma sent_jobs_app l l' : sent_jobs (l ++ l') = sent_jobs l ++ sent_jobs l'.
Proof. unfold sent_jobs. by rewrite bfilter_app, fmap_app. Qed.

Lemma sent_jobs_one r : sent_jobs [r] = if was_sent r then [job_of r] else [].
Proof. unfold sent_jobs. cbn. by destruct (was_sent r). Qed.

Lemma send_was_sent test sq op key target start end_ a : was_sent (send test sq op key target start end_ a) = true.
Proof.
  unfold was_sent, send. cbn [r_Result]. assert (∀ err, (Classify err).1.1 ≠ ResultDropped) as Hc.
  { intros [[code msg]|]; [|done]. unfold Classify. destruct (_ || _); [done|]. destruct (_ =? _)%N; [|done].
    by destruct (existsb _ _). }
  rewrite bool_decide_false; [done|]. destruct a as [err|[err|] found vals]; [apply Hc|apply Hc|].
  unfold getResult. destruct found; cbn [negb]; [by destruct (existsb _ _)|done].
Qed.

Lemma started_accounted : accounted started.
Proof.
  split; cbn; try done.
  - rewrite !bind_app. assert ((replicate (Z.to_nat (Concurrency cfg)) Looping) ≫= worker_jobs = []) as ->.
    { induction (Z.to_nat _) as [|n IH]; [done|]. exact IH. }
    by destruct (WritesOn cfg), (ReadsOn cfg).
  - assert ((replicate (Z.to_nat (Concurrency cfg)) Looping) ≫= worker_asked = []) as ->.
    { induction (Z.to_nat _) as [|n IH]; [done|]. exact IH. } done.
  - by destruct (WritesOn cfg), (ReadsOn cfg); repeat constructor.
  - by apply Forall_replicate.
Qed.

(** Rearranging the lists a step moves a job between. *)
Ltac regroup := rewrite ?bind_app, ?bind_cons, ?fmap_app, ?sent_jobs_app, ?sent_jobs_one; cbn [gen_jobs worker_jobs worker_asked fst snd fmap list_fmap app].
Ltac moved H E := rewrite ?E in H; revert H; regroup; intros ->; solve_Permutation.

Lemma job_of_dropped test j op now : op_ j = op → job_of (mkReq test (seq_ j) op (key_ j) "" now now ResultDropped) = j.
Proof. by destruct j; intros <-. Qed.

Lemma job_of_send test j target start end_ a : job_of (send test (seq_ j) (op_ j) (key_ j) target start end_ a) = j.
Proof. by destruct j. Qed.

Lemma settle_accounted s s' : accounted s → settle s s' → accounted s'.
Proof.
  intros [Hm Ha Hs Hg Hw Hr Hc Hwr].
  destruct 1 as [s l op i l' E Hd|s l op i j l' w w' E Ew|s l op i j l' E Hf Hd|s l op i j l' now E Hf Hno|s l op i r l' E Hlen|s l op l' E
    |s w w' E|s w w' E Hj|s w j w' state E|s w j target w' start end_ a E Han|s w r w' E Hlen|s r rs ok E Hnw|s ok E Hrc Hnw
    |s E Hall|s E Hall|s E Hwn]; split; cbn -[sent_jobs bfilter]; try done.
  all: try (moved Hm E).
  all: try (moved Ha E).
  all: try (rewrite E in Hg; by eapply Forall_replace).
  all: try (rewrite E in Hw; by eapply Forall_replace).
  - rewrite Ew in Hm. moved Hm E.
  - moved Ha Ew.
  - rewrite Ew in Hw. by eapply Forall_replace.
  - rewrite E in Hm, Hg. revert Hm. regroup. rewrite job_of_dropped by exact (Forall_at _ _ _ _ Hg). done.
  - rewrite E in Hg. destruct (Forall_at _ _ _ _ Hg) as (Hns & _). revert Ha. regroup. rewrite Hns. by rewrite app_nil_r.
  - rewrite E in Hg. destruct (Forall_at _ _ _ _ Hg) as (Hns & Ho & Hfx). rewrite !Forall_app, Forall_singleton.
    apply Forall_app in Hr as [Hr1 Hr2]. split_and!; [done| |done]. cbn in Ho, Hfx. intros Hop. rewrite Hop in Ho. subst op. cbn in Hfx. lia.
  - rewrite E in Hm. revert Hm. regroup. by rewrite job_of_send.
  - rewrite E in Ha. revert Ha. regroup. by rewrite job_of_send.
  - rewrite E in Hw. eapply Forall_replace; [done|]. apply send_was_sent.
  - rewrite E in Ha, Hw. pose proof (Forall_at _ _ _ _ Hw) as Hrs. cbn in Hrs. revert Ha. regroup. rewrite Hrs. intros ->. solve_Permutation.
  - rewrite E in Hw. pose proof (Forall_at _ _ _ _ Hw) as Hrs. cbn in Hrs. rewrite !Forall_app, Forall_singleton.
    apply Forall_app in Hr as [Hr1 Hr2]. split_and!; [done| |done]. by intros _ _.
  - rewrite E in Ha. change (r :: rs) with ([r] ++ rs) in Ha. revert Ha. regroup. regroup. destruct (was_sent r); intros ->; solve_Permutation.
  - rewrite E in Hr. rewrite fmap_app. cbn [fmap list_fmap fst]. revert Hr. rewrite <-app_comm_cons, Forall_cons, !Forall_app, Forall_singleton. naive_solver.
  - intros op r0. rewrite fmap_app, bfilter_app, length_app, <-Hc. unfold counts_add. cbn [fmap list_fmap fst bfilter].
    rewrite (bool_decide_ext (op = r_Op r) (r_Op r = op)), (bool_decide_ext (r0 = r_Result r) (r_Result r = r0)) by done.
    destruct (bool_decide _ && bool_decide _); cbn [length]; lia.
  - intros [Hwe Hok]%orb_false_iff. apply Forall_app. split; [by apply Hwr|]. by destruct ok; repeat constructor.
  - by rewrite E in Hr.
  - intros [Hwe _]%orb_false_iff. by apply Hwr.
Qed.

Lemma outside_accounted s s' : accounted s → outside s s' → accounted s'.
Proof.
  intros [Hm Ha Hs Hg Hw Hr Hc Hwr]. destruct 1 as [s l op i l' key E Ht Hk j|s|s Hnw]; split; cbn -[sent_jobs bfilter]; try done.
  - moved Hm E.
  - destruct Hs as [H0 Hs]. split; [lia|]. rewrite fmap_app, Hs, seqZ_app by lia. f_equal. cbn. by rewrite Z.add_comm.
  - rewrite E in Hg. by eapply Forall_replace.
Qed.

Lemma recording_accounted s : recording s → accounted s.
Proof.
  unfold recording. generalize started_accounted. generalize started. intros s0 H0 Hr.
  induction Hr as [|s1 s2 s3 [Hi|Ho] _ IH]; [done|..]; apply IH; [by eapply settle_accounted|by eapply outside_accounted].
Qed.

(** *** Closing down *)

Definition gone (g : Op * gen) : Prop := g.2 = GenDone.

Record phases (s : rstate) : Prop := {
  ph_gens : at_main s ≠ WaitGens → Forall gone (gens s);
  ph_jobs : at_main s ≠ WaitGens → jobsClosed s = true;
  ph_workers : at_main s = WaitWritten ∨ at_main s = Returned → Forall (eq WorkerDone) (workers s) ∧ resultsClosed s = true;
  ph_open : resultsClosed s = true → at_main s = WaitWritten ∨ at_main s = Returned;
  ph_written : written s = true → resultsClosed s = true ∧ results s = [];
  ph_returned : at_main s = Returned → written s = true;
  ph_exited : jobsClosed s = false → WorkerDone ∉ workers s;
  ph_cap : length (results s) ≤ maxResults
}.

Lemma gone_at l g l' : Forall gone (l ++ g :: l') → g.2 = GenDone.
Proof. intros H. exact (Forall_at gone l g l' H). Qed.

Lemma not_done_middle w x w' : WorkerDone ∉ w ++ x :: w' → ∀ y, y ≠ WorkerDone → WorkerDone ∉ w ++ y :: w'.
Proof. rewrite not_elem_of_app, not_elem_of_cons. intros (? & ? & ?) y Hy. rewrite not_elem_of_app, not_elem_of_cons. naive_solver. Qed.

(** A generator that is still at work, or a worker that is, shows how far the
    run is. *)
Lemma phases_gen s l g l' : phases s → gens s = l ++ g :: l' → g.2 ≠ GenDone → at_main s = WaitGens ∧ written s = false.
Proof.
  intros P E Hg. assert (at_main s = WaitGens) as Hm.
  { destruct (at_main s) eqn:Em; [done|..]; exfalso; apply Hg, (gone_at l g l'); rewrite <-E; apply (ph_gens s P); congruence. }
  split; [done|]. destruct (written s) eqn:Ew; [|done]. destruct (ph_written s P Ew) as [Hr _]. destruct (ph_open s P Hr); congruence.
Qed.

Lemma phases_worker s w x w' : phases s → workers s = w ++ x :: w' → x ≠ WorkerDone →
  (at_main s = WaitGens ∨ at_main s = WaitWorkers) ∧ written s = false.
Proof.
  intros P E Hx. assert (at_main s = WaitGens ∨ at_main s = WaitWorkers) as Hm.
  { destruct (at_main s) eqn:Em; [by left|by right|..]; exfalso;
      (destruct (ph_workers s P) as [Hw _]; [by rewrite Em; eauto|]); apply Hx; symmetry; rewrite E in Hw; exact (Forall_at _ _ _ _ Hw). }
  split; [done|]. destruct (written s) eqn:Ew; [|done]. destruct (ph_written s P Ew) as [Hr _].
  destruct (ph_open s P Hr); destruct Hm; congruence.
Qed.

Lemma started_phases : phases started.
Proof.
  split; cbn; try done; try naive_solver; try (unfold maxResults; lia). intros _ Hin%elem_of_replicate. naive_solver.
Qed.

(** While generators or workers are at work. *)
Lemma phases_early s : at_main s = WaitGens ∨ at_main s = WaitWorkers → (at_main s ≠ WaitGens → Forall gone (gens s) ∧ jobsClosed s = true) →
  resultsClosed s = false → written s = false → (jobsClosed s = false → WorkerDone ∉ workers s) → length (results s) ≤ maxResults → phases s.
Proof.
  intros Hm Hg Hr Hw Hj Hc. split; try done.
  - intros Hn. by apply Hg.
  - intros Hn. by apply Hg.
  - intros [H|H]; destruct Hm as [Hm|Hm]; congruence.
  - congruence.
  - congruence.
  - intros H. destruct Hm; congruence.
Qed.

Lemma results_open s : phases s → at_main s = WaitGens ∨ at_main s = WaitWorkers → resultsClosed s = false.
Proof. intros P Hm. destruct (resultsClosed s) eqn:E; [|done]. destruct (ph_open s P E), Hm; congruence. Qed.

Lemma settle_phases s s' : phases s → settle s s' → phases s'.
Proof.
  intros P. destruct 1 as [s l op i l' E Hd|s l op i j l' w w' E Ew|s l op i j l' E Hf Hd|s l op i j l' now E Hf Hno|s l op i r l' E Hlen|s l op l' E
    |s w w' E|s w w' E Hjc|s w j w' state E|s w j target w' start end_ a E Han|s w r w' E Hlen|s r rs ok E Hnw|s ok E Hrc Hnw
    |s E Hall|s E Hall|s E Hwn].
  1-6: destruct (phases_gen s l _ l' P E ltac:(done)) as [Hm Hnw].
  7-11: destruct (phases_worker s w _ w' P E ltac:(done)) as [Hm Hnw].
  1-11: pose proof (results_open s P ltac:(tauto)) as Hro; pose proof (ph_exited s P) as Hx; pose proof (ph_cap s P) as Hcap.
  1-11: apply phases_early; cbn; try done; try tauto.
  all: try (by rewrite length_app; cbn; lia).
  all: try (intros Hn; split; [by apply (ph_gens s P)|by apply (ph_jobs s P)]).
  all: try (intros Hjf; specialize (Hx Hjf); rewrite ?Ew, ?E in Hx; eapply not_done_middle; [exact Hx|done]).
  all: try (rewrite Hjc; done).
  all: destruct P as [Hg Hj Hw Ho Hwr Hr Hx Hc].
  - split; cbn; try done; [congruence|]. rewrite E in Hc. cbn in Hc. lia.
  - split; cbn; try done. unfold maxResults. lia.
  - apply phases_early; cbn; [by right|done| | |done|done].
    + destruct (resultsClosed s) eqn:Er; [|done]. destruct (Ho eq_refl); congruence.
    + destruct (written s) eqn:Ew; [|done]. destruct (Hwr eq_refl) as [Hrc _]. destruct (Ho Hrc); congruence.
  - split; cbn; try done.
    + intros _. apply Hg. by rewrite E.
    + intros _. apply Hj. by rewrite E.
    + by left.
    + intros H. split; [done|]. by apply Hwr.
  - split; cbn; try done.
    + intros _. apply Hg. by rewrite E.
    + intros _. apply Hj. by rewrite E.
    + intros _. apply Hw. by left.
    + by right.
Qed.

Lemma outside_phases s s' : phases s → outside s s' → phases s'.
Proof.
  intros P. destruct 1 as [s l op i l' key E Ht Hk j|s|s Hnw].
  - destruct (phases_gen s l _ l' P E ltac:(done)) as [Hm Hnw]. destruct P as [Hg Hj Hw Ho Hwr Hr Hx Hc].
    apply phases_early; cbn; try done; [by left|]. destruct (resultsClosed s) eqn:Er; [|done]. destruct (Ho eq_refl); congruence.
  - destruct P. by split.
  - destruct P. by split.
Qed.

Lemma recording_phases s : recording s → phases s.
Proof.
  unfold recording. generalize started_phases. generalize started. intros s0 H0 Hr.
  induction Hr as [|s1 s2 s3 [Hi|Ho] _ IH]; [done|..]; apply IH; [by eapply settle_phases|by eapply outside_phases].
Qed.

(** *** Preloads *)

Definition put_keys (js : list job) : list string := key_ <$> bfilter (λ j, bool_decide (op_ j = OpPut)) js.

(** Where the generator of the writes is after making [n] of them. *)
Definition turn_ok (c : bool) (n : nat) (g : gen) : Prop :=
  match g with
  | Ticking i => n = i ∧ ((0 < Writes cfg)%Z → (Z.of_nat n ≤ Writes cfg)%Z)
  | Offering i _ | Dropping i _ => n = S i ∧ ((0 < Writes cfg)%Z → (Z.of_nat n ≤ Writes cfg)%Z)
  | Ending | GenDone => (0 < Writes cfg)%Z → c = true ∨ Z.of_nat n = Writes cfg
  end.

Record preload (s : rstate) : Prop := {
  pl_ops : (gens s).*1 = (gens started).*1;
  pl_puts : ∃ n, put_keys (made s) = KeyName (WritePrefix cfg) <$> seq 0 n ∧ ∀ g, (OpPut, g) ∈ gens s → turn_ok (cut s) n g;
  pl_done : run_done s = true → cut s = true ∨ (OpPut, GenDone) ∈ gens s;
  pl_lost : lost s = [] ∨ cut s = true
}.

Lemma ops_nodup s : preload s → NoDup (gens s).*1.
Proof. intros P. rewrite (pl_ops s P). cbn. destruct (WritesOn cfg), (ReadsOn cfg); cbn; repeat constructor; set_solver. Qed.

Lemma started_preload : preload started.
Proof.
  split; try done; [..|by left].
  - exists 0. split; [done|]. intros g Hin. cbn in Hin. assert (g = Ticking 0) as -> by (destruct (WritesOn cfg), (ReadsOn cfg); set_solver).
    cbn. lia.
Qed.

(** One generator moves. *)
Lemma gen_unique (l : list (Op * gen)) op g l' g' : NoDup (l ++ (op, g) :: l').*1 → (op, g') ∈ l ++ (op, g) :: l' → g' = g.
Proof.
  rewrite fmap_app, fmap_cons. cbn. intros (_ & Hd & Hn)%NoDup_app. apply NoDup_cons in Hn as [Hn _].
  rewrite elem_of_app, elem_of_cons. intros [Hin|[[= ->]|Hin]]; [|done|].
  - exfalso. apply (Hd op); [|by left]. by apply (list_elem_of_fmap_2 fst) in Hin.
  - exfalso. apply Hn. by apply (list_elem_of_fmap_2 fst) in Hin.
Qed.

Lemma in_replaced (l : list (Op * gen)) op g g' l' x : x ∈ l ++ (op, g) :: l' → x ≠ (op, g) → x ∈ l ++ (op, g') :: l'.
Proof. set_solver. Qed.

Lemma preload_move s s' l op g g' l' : preload s → gens s = l ++ (op, g) :: l' → gens s' = l ++ (op, g') :: l' →
  made s' = made s → cut s' = cut s → g ≠ GenDone →
  (op = OpPut → ∀ n, turn_ok (cut s) n g → turn_ok (cut s) n g') →
  (run_done s' = true → run_done s = true ∨ (op = OpPut ∧ g' = GenDone)) → lost s' = lost s ∨ cut s = true → preload s'.
Proof.
  intros [Hn (n & Hp & Ht) Hd Hl] E E' Hm Hc Hg Hturn Hrd Hls. split; rewrite ?E', ?Hm, ?Hc.
  - rewrite E in Hn. revert Hn. by rewrite !fmap_app, !fmap_cons.
  - exists n. split; [done|]. intros x [Hx|[[= <- ->]|Hx]%elem_of_cons]%elem_of_app.
    + apply Ht. rewrite E. set_solver.
    + apply Hturn; [done|]. apply Ht. rewrite E. set_solver.
    + apply Ht. rewrite E. set_solver.
  - intros Hr. destruct (Hrd Hr) as [Hr'|[-> ->]]; [|right; set_solver]. destruct (Hd Hr') as [?|Hin]; [by left|right].
    rewrite E in Hin. eapply in_replaced; [exact Hin|]. intros [= _ <-]. done.
  - destruct Hls as [->|?]; [done|by right].
Qed.

(** The writes' generator is only told to stop from outside. *)
Lemma put_cut s l g l' : preload s → gens s = l ++ (OpPut, g) :: l' → g ≠ GenDone → run_done s = true → cut s = true.
Proof.
  intros P E Hg Hr. pose proof (ops_nodup s P) as Hn. destruct (pl_done s P Hr) as [?|Hin]; [done|]. rewrite E in Hn, Hin.
  apply gen_unique in Hin; [|done]. congruence.
Qed.

Lemma settle_preload s s' : preload s → settle s s' → preload s'.
Proof.
  intros P. destruct 1 as [s l op i l' E Hd|s l op i j l' w w' E Ew|s l op i j l' E Hf Hd|s l op i j l' now E Hf Hno|s l op i r l' E Hlen|s l op l' E
    |s w w' E|s w w' E Hjc|s w j w' state E|s w j target w' start end_ a E Han|s w r w' E Hlen|s r rs ok E Hnw|s ok E Hrc Hnw
    |s E Hall|s E Hall|s E Hwn].
  7-16: destruct P; by split.
  - eapply (preload_move s); cbn; try done; [|by left|by left]. intros -> n [-> Hb] Hw. destruct Hd as [Hd|Hd].
    + right. unfold has_turn in Hd. cbn in Hd. apply orb_false_iff in Hd as [_ Hd%Z.ltb_ge]. specialize (Hb Hw). lia.
    + left. by apply (put_cut s l (Ticking i) l').
  - eapply (preload_move s); cbn; try done; by left.
  - assert (op = OpPut) as -> by (destruct op; [done|cbn in Hf; lia]).
    assert (cut s = true) as Hc by by apply (put_cut s l (Offering i j) l').
    eapply (preload_move s); cbn; try done; [|by left|by right]. intros _ n _ _. by left.
  - eapply (preload_move s); cbn; try done; by left.
  - eapply (preload_move s); cbn; try done; by left.
  - eapply (preload_move s); cbn; try done; [|by left]. intros [?|Hs]%orb_true_iff; [by left|]. right. split; [|done].
    unfold stops in Hs. apply andb_prop in Hs as [[Hs _]%andb_prop _]. by apply bool_decide_eq_true in Hs.
Qed.

Lemma outside_preload s s' : preload s → outside s s' → preload s'.
Proof.
  intros P. destruct 1 as [s l op i l' key E Ht Hk j|s|s Hnw].
  - pose proof (ops_nodup s P) as Hn. destruct P as [Ho (n & Hp & Hturn) Hd Hl]. rewrite E in Hn, Ho. subst j. split; cbn -[started]; try done.
    + rewrite <-Ho. by rewrite !fmap_app, !fmap_cons.
    + destruct op.
      * destruct (Hturn (Ticking i)) as [-> Hb]; [rewrite E; set_solver|]. exists (S i). split.
        -- unfold put_keys in *. rewrite bfilter_app, fmap_app, Hp, seq_S, fmap_app. cbn. cbn in Hk. by rewrite Hk.
        -- intros g Hg. assert (NoDup (l ++ (OpPut, Offering i (mkJob (seqno s + 1) OpPut key)) :: l').*1) as Hn' by (revert Hn; by rewrite !fmap_app, !fmap_cons).
           apply gen_unique in Hg as ->; [|done]. cbn. split; [done|]. intros Hw. unfold has_turn in Ht. cbn in Ht.
           apply orb_true_iff in Ht as [Ht%Z.eqb_eq|Ht%Z.ltb_lt]; lia.
      * exists n. split.
        -- unfold put_keys in *. rewrite bfilter_app, fmap_app, Hp. cbn. by rewrite app_nil_r.
        -- intros g Hg. apply Hturn. rewrite E. set_solver.
    + intros Hr. destruct (Hd Hr) as [?|Hin]; [by left|right]. rewrite E in Hin. eapply in_replaced; [exact Hin|done].
  - destruct P as [Hn (n & Hp & Hturn) Hd Hl]. split; cbn; try done; [|by left|by right]. exists n. split; [done|].
    intros g Hg. specialize (Hturn g Hg). destruct g; cbn in *; try done; by left.
  - destruct P. by split.
Qed.

Lemma recording_preload s : recording s → preload s.
Proof.
  unfold recording. generalize started_preload. generalize started. intros s0 H0 Hr.
  induction Hr as [|s1 s2 s3 [Hi|Ho] _ IH]; [done|..]; apply IH; [by eapply settle_preload|by eapply outside_preload].
Qed.

(** *** Coming to an end *)

Definition gen_left (g : Op * gen) : nat :=
  match g.2 with GenDone => 0 | Ending => 1 | Ticking _ => 2 | Dropping _ _ => 4 | Offering _ _ => 8 end.
Definition worker_left (w : worker) : nat :=
  match w with WorkerDone => 0 | Receiving => 1 | Looping => 2 | Reporting _ => 4 | InFlight _ _ => 5 | Got _ => 6 end.
Definition main_left (m : main) : nat := match m with WaitGens => 3 | WaitWorkers => 2 | WaitWritten => 1 | Returned => 0 end.
Definition steps_left (s : rstate) : nat :=
  sum_list_with gen_left (gens s) + sum_list_with worker_left (workers s) + length (results s) +
  (if written s then 0 else 1) + main_left (at_main s).

Lemma settle_left s s' : settle s s' → steps_left s' < steps_left s.
Proof.
  destruct 1 as [s l op i l' E Hd|s l op i j l' w w' E Ew|s l op i j l' E Hf Hd|s l op i j l' now E Hf Hno|s l op i r l' E Hlen|s l op l' E
    |s w w' E|s w w' E Hjc|s w j w' state E|s w j target w' start end_ a E Han|s w r w' E Hlen|s r rs ok E Hnw|s ok E Hrc Hnw
    |s E Hall|s E Hall|s E Hwn]; unfold steps_left; cbn; rewrite ?E, ?Ew, ?Hnw, ?sum_list_with_app, ?length_app; cbn; lia.
Qed.

Lemma settle_keeps_done s s' : settle s s' → run_done s = true → run_done s' = true.
Proof. destruct 1; cbn; intros Hr; try done. by rewrite Hr. Qed.

(** Room in the channel of results, or the writer takes one. *)
Lemma report_or_write s : phases s → written s = false → length (results s) < maxResults ∨ ∃ s', settle s s'.
Proof.
  intros P Hw. destruct (results s) as [|r rs] eqn:E; [left; unfold maxResults; cbn; lia|right].
  eexists. by apply (p_write s r rs true).
Qed.

Lemma gen_moves s l op g l' : phases s → run_done s = true → gens s = l ++ (op, g) :: l' → g ≠ GenDone → ∃ s', settle s s'.
Proof.
  intros P Hr E Hg. destruct (phases_gen s l _ l' P E Hg) as [_ Hw]. destruct g as [i|i j|i r| |]; [..|done].
  - eexists. eapply g_over; eauto.
  - destruct (decide (0 < fixed op)%Z); [eexists; by eapply g_abandon|].
    destruct (existsb (λ w, match w with Receiving => true | _ => false end) (workers s)) eqn:Ex.
    + apply existsb_exists in Ex as (x & (w & w' & Hin)%list_elem_of_In%list_elem_of_split & Hx). destruct x; try done.
      eexists. by eapply g_hand.
    + eexists. apply (g_drop s l op i j l' 0%Z); [done|lia|]. intros Hin. apply not_true_iff_false in Ex. apply Ex, existsb_exists.
      exists Receiving. split; [by apply list_elem_of_In|done].
  - destruct (report_or_write s P Hw) as [?|?]; [eexists; by eapply g_report|done].
  - eexists. by eapply g_end.
Qed.

Lemma worker_moves s w x w' : phases s → at_main s = WaitWorkers → workers s = w ++ x :: w' → x ≠ WorkerDone → ∃ s', settle s s'.
Proof.
  intros P Hm E Hx. destruct (phases_worker s w x w' P E Hx) as [_ Hw].
  assert (jobsClosed s = true) as Hj by (apply (ph_jobs s P); by rewrite Hm).
  destruct x as [| |j|j target|r|]; [..|done].
  - eexists. by eapply w_loop.
  - eexists. by eapply w_exit.
  - eexists. by apply (w_send s w j w' (λ _, Ready)).
  - destruct (op_ j) eqn:Eo.
    + eexists. apply (w_answer s w j target w' 0 0 (PutAnswer None)); [done|]. by rewrite Eo.
    + eexists. apply (w_answer s w j target w' 0 0 (GetAnswer None false [])); [done|]. by rewrite Eo.
  - destruct (report_or_write s P Hw) as [?|?]; [eexists; by eapply w_report|done].
Qed.

Lemma run_moves s : phases s → run_done s = true → at_main s = Returned ∨ ∃ s', settle s s'.
Proof.
  intros P Hr.
  assert ({Forall gone (gens s)} + {Exists (λ g, g.2 ≠ GenDone) (gens s)}) as [Hall|Hex].
  { apply Forall_Exists_dec. intros [op []]; first [by left|by right]. }
  2: { right. apply Exists_exists in Hex as ([op g] & (l & l' & E)%list_elem_of_split & Hg). by eapply gen_moves. }
  destruct (at_main s) eqn:Em; [right; eexists; by apply m_gens|right|right|by left].
  - assert ({Forall (eq WorkerDone) (workers s)} + {Exists (λ w, w ≠ WorkerDone) (workers s)}) as [Hw|Hex].
    { apply Forall_Exists_dec. intros []; first [by left|by right]. }
    + eexists. by apply m_workers.
    + apply Exists_exists in Hex as (x & (w & w' & E)%list_elem_of_split & Hx). by eapply worker_moves.
  - destruct (written s) eqn:Ew; [eexists; by apply m_written|].
    destruct (results s) as [|r rs] eqn:E; [|eexists; by apply (p_write s r rs true)].
    eexists. apply (p_finish s true); [done| |done]. apply (ph_workers s P). by left.
Qed.

Lemma settle_run s s' : rtc settle s s' → phases s → run_done s = true → phases s' ∧ run_done s' = true.
Proof.
  induction 1 as [|s s1 s2 Hs _ IH]; intros P Hr; [done|]. apply IH; [by eapply settle_phases|by eapply settle_keeps_done].
Qed.

Lemma settle_returns s : phases s → run_done s = true → ∃ s', rtc settle s s' ∧ at_main s' = Returned.
Proof.
  remember (steps_left s) as n eqn:Hn. revert s Hn. induction n as [n IH] using lt_wf_ind. intros s -> P Hr.
  destruct (run_moves s P Hr) as [?|[s1 Hs]]; [by exists s|].
  destruct (IH (steps_left s1)) with s1 as (s' & Hr' & Hd);
    [by apply settle_left|done|by eapply settle_phases|by eapply settle_keeps_done|].
  exists s'. split; [by eapply rtc_l|done].
Qed.

(** *** What a recorder run promises *)

Lemma put_keys_loop_elem rs seen key :
  key ∈ put_keys_loop rs seen ↔ key ∉ seen ∧ ∃ r, r ∈ rs ∧ r_Op r = OpPut ∧ was_sent r = true ∧ r_Key r = key.
Proof.
  revert seen. induction rs as [|r rs IH]; intros seen; cbn [put_keys_loop].
  { split; [by intros ?%elem_of_nil|]. by intros (_ & r & ?%elem_of_nil & _). }
  setoid_rewrite elem_of_cons.
  destruct (decide (r_Op r = OpPut)) as [Ho|Ho]; [rewrite bool_decide_true by done|rewrite bool_decide_false by done; cbn; rewrite IH; naive_solver].
  destruct (decide (r_Result r = ResultDropped)) as [Hd|Hd].
  { rewrite bool_decide_true by done. cbn [negb andb]. rewrite IH. split; [naive_solver|].
    intros (Hs & x & [->|Hx] & H1 & H2 & H3); [|naive_solver]. unfold was_sent in H2. by rewrite bool_decide_true in H2. }
  rewrite bool_decide_false by done. cbn [negb andb]. assert (was_sent r = true) as Hws by (unfold was_sent; by rewrite bool_decide_false).
  case_bool_decide as Hin; cbn [negb]; rewrite ?elem_of_cons, IH; [naive_solver|].
  destruct (decide (key = r_Key r)) as [->|Hne]; set_solver.
Qed.

Lemma sent_jobs_elem rs j : j ∈ sent_jobs rs ↔ ∃ r, r ∈ rs ∧ was_sent r = true ∧ job_of r = j.
Proof. unfold sent_jobs. rewrite list_elem_of_fmap. setoid_rewrite elem_of_bfilter. naive_solver. Qed.

(** Once it has returned, nothing is on its way. *)
Lemma returned_accounted s : recording s → at_main s = Returned →
  made s ≡ₚ (job_of <$> (taken s).*1) ++ lost s ∧ asked s ≡ₚ sent_jobs (taken s).*1.
Proof.
  intros Hrec Hm. destruct (recording_accounted s Hrec) as [Hmade Hasked _ _ _ _ _ _]. destruct (recording_phases s Hrec) as [Hg _ Hw _ Hwr Hr _ _].
  destruct (Hwr (Hr Hm)) as [_ Hres]. destruct (Hw (or_intror Hm)) as [Hall _]. specialize (Hg ltac:(by rewrite Hm)).
  assert (gens s ≫= gen_jobs = []) as Hgj.
  { clear - Hg. induction Hg as [|[op g] l Hx _ IH]; [done|]. rewrite bind_cons, IH. unfold gone in Hx. cbn in Hx. by subst g. }
  assert (workers s ≫= worker_jobs = [] ∧ workers s ≫= worker_asked = []) as [Hwj Hwa].
  { clear - Hall. induction Hall as [|x l <- _ [IH1 IH2]]; [done|]. by rewrite !bind_cons, IH1, IH2. }
  rewrite Hgj, Hwj, Hres in Hmade. rewrite Hwa, Hres in Hasked. by split.
Qed.

Lemma preload_sent recs : (0 < Writes cfg)%Z → Forall record_ok recs → put_keys (sent_jobs recs) = put_keys (job_of <$> recs).
Proof.
  intros Hw. unfold put_keys, sent_jobs. induction 1 as [|r recs Hr _ IH]; [done|]. cbn [bfilter]. rewrite fmap_cons. cbn [bfilter].
  change (op_ (job_of r)) with (r_Op r). destruct (was_sent r) eqn:Es.
  - rewrite fmap_cons. cbn [bfilter]. change (op_ (job_of r)) with (r_Op r). case_bool_decide; [rewrite !fmap_cons; by f_equal|done].
  - case_bool_decide as Ho; [|done]. rewrite (Hr Ho Hw) in Es. done.
Qed.

Lemma put_keys_perm js js' : js ≡ₚ js' → put_keys js ≡ₚ put_keys js'.
Proof. intros Hp. by apply fmap_Permutation, bfilter_perm. Qed.

Lemma put_keys_asked recs js key : js ≡ₚ sent_jobs recs →
  key ∈ PutKeys recs ↔ ∃ j, j ∈ js ∧ op_ j = OpPut ∧ key_ j = key.
Proof.
  intros Hasked. unfold PutKeys. rewrite put_keys_loop_elem. setoid_rewrite Hasked. setoid_rewrite sent_jobs_elem. split.
  - intros (_ & r & Hr & Ho & Hs & <-). exists (job_of r). naive_solver.
  - intros (j & (r & Hr & Hs & <-) & Ho & Hk). split; [set_solver|]. by exists r.
Qed.

(** A preload that nobody cut short has made all its writes. *)
Lemma preload_made s : recording s → at_main s = Returned → WritesOn cfg = true → (0 < Writes cfg)%Z → cut s = false →
  put_keys (made s) = KeyName (WritePrefix cfg) <$> seq 0 (Z.to_nat (Writes cfg)) ∧ lost s = [].
Proof.
  intros Hrec Hm Hon Hw Hcut. pose proof (recording_preload s Hrec) as [Ho (n & Hp & Ht) _ Hl].
  assert (∃ g, (OpPut, g) ∈ gens s) as [g Hg].
  { assert (OpPut ∈ (gens s).*1) as Hin by (rewrite Ho; cbn; rewrite Hon; set_solver).
    apply list_elem_of_fmap in Hin as ([op g] & Heq & Hin). cbn in Heq. subst op. by exists g. }
  specialize (Ht g Hg). pose proof (ph_gens s (recording_phases s Hrec) ltac:(by rewrite Hm)) as Hall.
  pose proof (proj1 (Forall_forall _ _) Hall _ Hg) as Hgone. cbn in Hgone. unfold gone in Hgone. cbn in Hgone. subst g.
  rewrite Hcut in Ht, Hl. destruct (Ht Hw) as [?|Hn]; [done|]. split; [|by destruct Hl]. rewrite Hp. do 2 f_equal. lia.
Qed.

(** C39: the records are the requests.  When a run has returned: the requests
    that were sent and the records that are not marked dropped are the same,
    one for one (number, operation and key); no number appears twice; unless an
    error is reported, every record has been written; the keys to read back are
    exactly those a put was sent for; the counts are those of the records; and
    a preload that was not cut short has sent one put for each of its keys,
    dropping none. *)
Theorem records_are_the_requests s : recording s → at_main s = Returned →
  let recs := (taken s).*1 in
  asked s ≡ₚ sent_jobs recs ∧ NoDup (r_Seq <$> recs) ∧ (werr s = false → Forall (λ x, x.2 = true) (taken s)) ∧
  (∀ key, key ∈ PutKeys recs ↔ ∃ j, j ∈ asked s ∧ op_ j = OpPut ∧ key_ j = key) ∧
  (∀ op r, counts s op r = length (bfilter (λ x, bool_decide (r_Op x = op) && bool_decide (r_Result x = r)) recs)) ∧
  (WritesOn cfg = true → (0 < Writes cfg)%Z → cut s = false →
     put_keys (asked s) ≡ₚ KeyName (WritePrefix cfg) <$> seq 0 (Z.to_nat (Writes cfg))).
Proof.
  intros Hrec Hm. cbv zeta. destruct (returned_accounted s Hrec Hm) as [Hmade Hasked].
  destruct (recording_accounted s Hrec) as [_ _ [_ Hseq] _ _ Hok Hcounts Hwr]. split_and!; try done.
  - assert (NoDup (seq_ <$> made s)) as Hn by (rewrite Hseq; apply NoDup_seqZ).
    rewrite Hmade, fmap_app, <-list_fmap_compose in Hn. apply NoDup_app in Hn as [Hn _]. exact Hn.
  - intros key. by apply put_keys_asked.
  - intros Hon Hw Hcut. destruct (preload_made s Hrec Hm Hon Hw Hcut) as [Hp Hl]. rewrite Hl, app_nil_r in Hmade.
    rewrite <-Hp. apply Forall_app in Hok as [_ Hok]. rewrite (put_keys_perm _ _ Hasked), (put_keys_perm _ _ Hmade).
    by rewrite preload_sent.
Qed.

(** C40: a run that is told to stop returns.  From any state of a run whose end
    has come (its duration, the stop file, the caller, or a finished preload),
    what remains to be done other than making new jobs is bounded, one of the
    parts can always go on until [Record] has returned, and so it returns: no
    worker, generator or writer waits for ever on a channel. *)
Theorem recorder_returns s : recording s → run_done s = true →
  (∀ n s', nsteps settle n s s' → n ≤ steps_left s) ∧
  (∀ s', rtc settle s s' → at_main s' = Returned ∨ ∃ s'', settle s' s'') ∧
  ∃ s', rtc settle s s' ∧ at_main s' = Returned.
Proof.
  intros P%recording_phases Hr. split_and!.
  - intros n s' Hn. assert (n + steps_left s' ≤ steps_left s); [|lia].
    induction Hn as [|n s s1 s2 Hs _ IH]; [lia|]. pose proof (settle_left _ _ Hs).
    specialize (IH (settle_phases _ _ P Hs) (settle_keeps_done _ _ Hs Hr)). lia.
  - intros s' Hs. destruct (settle_run _ _ Hs P Hr) as [P' Hr']. by apply run_moves.
  - by apply settle_returns.
Qed.
End run.

(** ** Which connection is picked *)

Lemma pick_loop_spec n start state i : 0 < n → i ≤ n →
  (∀ k, (pick_loop n start state i).1 = Some k → k < n ∧ state k = Ready) ∧
  ((pick_loop n start state i).1 = None → ∀ d, n - i ≤ d < n → state ((start + d) mod n) ≠ Ready) ∧
  Forall (λ k, k < n ∧ state k = Idle) (pick_loop n start state i).2.
Proof.
  intros Hn. induction i as [|i IH]; intros Hi; cbn [pick_loop]; [split_and!; [done|lia|constructor]|].
  destruct (IH ltac:(lia)) as (H1 & H2 & H3). set (k := (start + (n - S i)) mod n). assert (k < n) as Hk by (apply Nat.mod_upper_bound; lia).
  assert (∀ d, n - S i ≤ d < n → d = n - S i ∨ n - i ≤ d < n) as Hd by lia.
  destruct (state k) eqn:Ek; [destruct (pick_loop n start state i) as [r woken]| | | |]; cbn [fst snd] in *.
  - split_and!; [done| |by constructor]. intros Hr d [->|?]%Hd; [fold k; congruence|by apply H2].
  - split_and!; [done| |done]. intros Hr d [->|?]%Hd; [fold k; congruence|by apply H2].
  - split_and!; [by intros ? [= <-]|done|constructor].
  - split_and!; [done| |done]. intros Hr d [->|?]%Hd; [fold k; congruence|by apply H2].
  - split_and!; [done| |done]. intros Hr d [->|?]%Hd; [fold k; congruence|by apply H2].
Qed.

(** A connection of the pool is picked: in turn through the Service; directly,
    one that is ready whenever there is one, and else the one whose turn it is;
    only idle connections are woken. *)
Theorem pick_finds_ready (p : pool) (next : nat) (state : nat → connectivity) : conns p ≠ [] →
  let n := length (conns p) in
  let '(k, woken) := pick p next state in
  k < n ∧ Forall (λ i, i < n ∧ state i = Idle) woken ∧
  (direct p = false → k = next mod n) ∧
  (direct p = true → (state k = Ready ↔ ∃ i, i < n ∧ state i = Ready) ∧ (state k ≠ Ready → k = next mod n)).
Proof.
  intros Hne. cbv zeta. set (n := length (conns p)). assert (0 < n) as Hn by (unfold n; destruct (conns p); [done|cbn; lia]).
  assert (next mod n < n) as Hf by (apply Nat.mod_upper_bound; lia).
  unfold pick. fold n. destruct (direct p); cbn [negb]; [|by split_and!].
  pose proof (pick_loop_spec n next state n Hn (Nat.le_refl n)) as (H1 & H2 & H3).
  destruct (pick_loop n next state n) as [r woken]. cbn [fst snd] in *. destruct r as [k|]; cbn [default].
  - destruct (H1 k eq_refl) as [Hk Hr]. split_and!; try done. intros _. split; [|done]. split; [by exists k|done].
  - split_and!; try done. intros _. split; [|done]. split; [by exists (next mod n)|]. intros (i & Hi & Hr). exfalso.
    apply (H2 eq_refl ((i + (n - next mod n)) mod n)); [split; [lia|apply Nat.mod_upper_bound; lia]|].
    rewrite Nat.Div0.add_mod_idemp_r. replace ((next + (i + (n - next mod n))) mod n) with i; [done|].
    rewrite (Nat.div_mod_eq next n) at 1. replace (n * (next / n) + next mod n + (i + (n - next mod n))) with (i + (next / n + 1) * n) by lia.
    by rewrite Nat.Div0.mod_add, Nat.mod_small.
Qed.

(** ** The read-back of a key *)

(** What a peer answers when its own copy is asked for: nothing without a
    connection, an error, or its items. *)
Inductive fetched := NoConnection | FetchFailed | FetchedItems (items : list DataItem) (found : bool).

Definition recorder_value (key : string) (it : DataItem) : bool :=
  match Versioning.Value it with VString v => negb (IsDeleted it) && ValueMatches key v | _ => false end.

(** [holds]: [None] is an error *)
Definition holds (a : fetched) (key : string) : option bool :=
  match a with
  | NoConnection | FetchFailed => None
  | FetchedItems _ false => Some false
  | FetchedItems items true => Some (existsb (recorder_value key) items)
  end.

Definition readOne (target key : string) (time : Z) (err : option (N * string)) (found : bool) (values : list string) : ReadbackEntry :=
  mkRB key time target (match err with None => getResult key found values | Some _ => (Classify err).1.1 end) [] [] [].

(** The copies, if they are counted: [ring] is that of the members asked for *)
Definition count_copies (ring : option (HashRing * nat)) (peers : string → fetched) (e : ReadbackEntry) : ReadbackEntry :=
  match ring with
  | None => e
  | Some (r, n) =>
      let owners := GetPreferenceList r (b_Key e) n in
      mkRB (b_Key e) (b_Time e) (b_Target e) (b_Result e) owners
        (bfilter (λ o, match holds (peers o) (b_Key e) with Some true => true | _ => false end) owners)
        (bfilter (λ o, match holds (peers o) (b_Key e) with None => true | _ => false end) owners)
  end.

Inductive readback_error := ReadbackNotPositive | ReadbackRing (e : topology_error) | ReadbackDial | ReadbackPool (e : dial_error).

(** [Readback] before its workers start: the ring to count copies with, if they
    are counted, and the pool *)
Definition readback_check `{!Unicode} (peer_dials dials ready : string → bool) (targets : list (string * string)) (copies : bool)
    (members : gmap string string) (fp : string) (n : nat) (concurrency timeout : Z) : res readback_error (option (HashRing * nat) * pool) :=
  if (concurrency <=? 0)%Z || (timeout <=? 0)%Z then Err ReadbackNotPositive
  else
    match (if copies then match NewRing members n fp with Ok r => Ok (Some (r, n)) | Err e => Err e end else Ok None) with
    | Err e => Err (ReadbackRing e)
    | Ok ring =>
        if copies && existsb (λ id, negb (peer_dials id)) (elements (dom members)) then Err ReadbackDial
        else match dialPool dials ready targets "" 0 with Err e => Err (ReadbackPool e) | Ok p => Ok (ring, p) end
    end.

(** A read-back that counts copies asks the owners the nodes themselves give
    the key: an entry's holders are, in the order of the key's preference list
    in any view built for the same members, the owners whose own storage shows
    the value the recorder wrote; its unreadable ones those that did not
    answer. *)
Theorem readback_asks_the_owners `{!Unicode} peer_dials dials ready targets (members : gmap string string) fp n conc timeout ring p e v peers entry :
  readback_check peer_dials dials ready targets true members fp n conc timeout = Ok (ring, p) →
  buildView e members n = Ok v →
  let e' := count_copies ring peers entry in
  b_Owners e' = GetPreferenceList (view_ring v) (b_Key entry) n ∧
  (∀ o, o ∈ b_Holders e' ↔ o ∈ b_Owners e' ∧ ∃ items it s, peers o = FetchedItems items true ∧ it ∈ items ∧
     Versioning.Value it = VString s ∧ IsDeleted it = false ∧ ValueMatches (b_Key entry) s = true) ∧
  (∀ o, o ∈ b_Unreadable e' ↔ o ∈ b_Owners e' ∧ (peers o = NoConnection ∨ peers o = FetchFailed)).
Proof.
  unfold readback_check. destruct (_ || _); [done|]. unfold NewRing. case_bool_decide; [|done].
  destruct (NewHashRingFromMembers _ _) as [r|] eqn:Er; [|done]. destruct (_ && _); [done|]. destruct (dialPool _ _ _ _ _); [|done]. intros [= <- <-] (_ & _ & _ & Hv)%buildView_Ok.
  rewrite Er in Hv. injection Hv as ->. cbn [count_copies b_Owners b_Holders b_Unreadable]. split; [done|]. split; intros o; rewrite elem_of_bfilter.
  - assert (match holds (peers o) (b_Key entry) with Some true => true | _ => false end = true ↔
      ∃ items it s, peers o = FetchedItems items true ∧ it ∈ items ∧ Versioning.Value it = VString s ∧ IsDeleted it = false ∧ ValueMatches (b_Key entry) s = true) as Hh.
    { destruct (peers o) as [| |items []]; cbn [holds]; try naive_solver. split.
      - destruct (existsb _ _) eqn:Ex; [|done]. apply existsb_exists in Ex as (it & Hin%list_elem_of_In & Hit). unfold recorder_value in Hit.
        destruct (Versioning.Value it) as [| | |s| |] eqn:Ev; try done. apply andb_prop in Hit as [Hd Hm]. exists items, it, s.
        apply negb_true_iff in Hd. done.
      - intros (items' & it & s & [= <-] & Hin & Hv & Hd & Hm). assert (existsb (recorder_value (b_Key entry)) items = true) as ->; [|done].
        apply existsb_exists. exists it. split; [by apply list_elem_of_In|]. unfold recorder_value. by rewrite Hv, Hd, Hm. }
    naive_solver.
  - destruct (peers o) as [| |items []]; cbn [holds]; try naive_solver.
Qed.

(** ** The files *)

Definition maxLine : nat := N.to_nat (N.shiftl 1 20).
Definition ReadRecords `{!JsonCodec Request} (content : bytes) : res lines_error (list Request) := read_lines maxLine content.
Definition ReadReadback `{!JsonCodec ReadbackEntry} (content : bytes) : res lines_error (list ReadbackEntry) := read_lines maxLine content.
(** with the scanner's own limit *)
Definition ReadEvents `{!JsonCodec Event} (content : bytes) : res lines_error (list Event) := read_lines (N.to_nat 65536) content.

(** From a run that returned without an error to the check: the records read
    from its file are those of the requests that were sent, and the keys to
    read back are exactly those a put was sent for. *)
Theorem recorded_run_is_read cfg p `{!JsonCodec Request, !JsonLine Request} (ok : Request → Prop) `{!JsonRoundTrip Request ok} s ls :
  recording cfg p s → at_main s = Returned → werr s = false →
  mapM encode_line ((bfilter snd (taken s)).*1) = Some ls → Forall ok (taken s).*1 → Forall (λ l, length l ≤ maxLine) ls →
  ∃ recs, ReadRecords (concat ls) = Ok recs ∧ asked s ≡ₚ sent_jobs recs ∧
    ∀ key, key ∈ PutKeys recs ↔ ∃ j, j ∈ asked s ∧ op_ j = OpPut ∧ key_ j = key.
Proof.
  intros Hrec Hm Hwe Hls Hok Hlen. exists (taken s).*1.
  assert (bfilter snd (taken s) = taken s) as Hall.
  { pose proof (ac_written cfg s (recording_accounted cfg p s Hrec) Hwe) as Hw. clear - Hw. induction Hw as [|x l Hx _ IH]; [done|].
    cbn [bfilter]. by rewrite Hx, IH. }
  rewrite Hall in Hls. split; [by eapply json_lines_roundtrip|].
  destruct (returned_accounted cfg p s Hrec Hm) as [_ Ha]. split; [done|]. intros key. by apply put_keys_asked.
Qed.

(** ** A preload of two keys *)

Section witnesses.
Definition w_cfg : RecordConfig := mkRecord "t" [("kv-0", "h0"); ("kv-1", "h1")] "" 0 true "k" 2 false "" 0 2 1.
Definition w_pool : pool := mkPool ["kv-0"; "kv-1"] true.

Definition w_job (i : nat) : job := mkJob (Z.of_nat (S i)) OpPut (KeyName "k" i).
(** Both jobs have been handed over and the generator is gone. *)
Definition w_ended : rstate :=
  mkR [(OpPut, GenDone)] 2 true false 0 [Got (w_job 0); Got (w_job 1)] false [] false [] (λ _ _, 0) false false WaitGens
    [w_job 0; w_job 1] [] [].

Lemma w_recording : recording w_cfg w_pool w_ended.
Proof.
  unfold recording.
  eapply rtc_l; [right; apply (g_tick w_cfg _ [] OpPut 0 [] (KeyName "k" 0)); reflexivity|].
  eapply rtc_l; [left; apply (w_loop w_cfg w_pool _ [] [Looping]); reflexivity|].
  eapply rtc_l; [left; apply (g_hand w_cfg w_pool _ [] OpPut 0 (w_job 0) [] [] [Looping]); reflexivity|].
  eapply rtc_l; [right; apply (g_tick w_cfg _ [] OpPut 1 [] (KeyName "k" 1)); reflexivity|].
  eapply rtc_l; [left; apply (w_loop w_cfg w_pool _ [Got (w_job 0)] []); reflexivity|].
  eapply rtc_l; [left; apply (g_hand w_cfg w_pool _ [] OpPut 1 (w_job 1) [] [Got (w_job 0)] []); reflexivity|].
  eapply rtc_l; [left; apply (g_over w_cfg w_pool _ [] OpPut 2 []); [reflexivity|by left]|].
  eapply rtc_l; [left; apply (g_end w_cfg w_pool _ [] OpPut []); reflexivity|].
  apply rtc_refl.
Qed.

Lemma settle_cut cfg p s s' : rtc (settle cfg p) s s' → cut s' = cut s.
Proof. induction 1 as [|s s1 s2 Hs _ IH]; [done|]. rewrite IH. by destruct Hs. Qed.

Lemma recorder_returns_witness : ∃ s', rtc (settle w_cfg w_pool) w_ended s' ∧ at_main s' = Returned.
Proof. apply (recorder_returns w_cfg w_pool w_ended); [exact w_recording|reflexivity]. Defined.

Lemma records_are_the_requests_witness :
  ∃ s, recording w_cfg w_pool s ∧ at_main s = Returned ∧ put_keys (asked s) ≡ₚ ["k-0000000"; "k-0000001"].
Proof.
  destruct (settle_returns w_cfg w_pool w_ended) as (s & Hs & Hr); [exact (recording_phases _ _ _ w_recording)|reflexivity|].
  assert (recording w_cfg w_pool s) as Hrec.
  { unfold recording. etrans; [exact w_recording|]. eapply rtc_subrel; [|exact Hs]. intros ? ? ?. by left. }
  exists s. split; [exact Hrec|]. split; [exact Hr|].
  destruct (records_are_the_requests w_cfg w_pool s Hrec Hr) as (_ & _ & _ & _ & _ & Hp).
  apply Hp; [reflexivity|reflexivity|exact (settle_cut _ _ _ _ Hs)].
Defined.
End witnesses.
