(* ===== verification/ReadbackRun.v ===== *)
(** * A read-back run (internal/chaos/readback.go: Readback)

    The keys go over a channel to workers, their entries over another to the
    loop that counts and writes them; the parts run as one step relation.
    Recorder.v has what a worker does with one key.

    Shown: without a cancellation every key is read back exactly once, and the
    run always returns. *)

From stdpp Require Import gmap strings list relations.
From Stdlib Require Import ZArith Lia.
From S2P Require Import Prelude GoLib HashRing Membership ChaosPredict ChaosCheck Recorder.

Open Scope nat_scope.

Inductive reader := Waiting | Asking (k : string) | Telling (e : ReadbackEntry) | Left.

Definition maxEntries : nat := 256.

(** [fed] is the channel of keys closed; [closed] that of the entries;
    [returned] once the entries' loop has ended. *)
Record bstate := mkB {
  todo : list string; fed : bool; readers : list reader; entries : list ReadbackEntry; closed : bool;
  read : list ReadbackEntry; bcounts : Result → nat; returned : bool; cancelled : bool
}.

Definition bcounts_add (c : Result → nat) (r : Result) : Result → nat := λ r', if bool_decide (r' = r) then S (c r') else c r'.

Section run.
Context (ring : option (HashRing * nat)) (keys : list string) (concurrency : nat).

(** *** Steps *)

(** A worker's entry for [k]: whatever is answered to the get and by the peers. *)
Definition entry_for (k : string) (e : ReadbackEntry) : Prop :=
  ∃ target time err found values peers, e = count_copies ring peers (readOne target k time err found values).

Inductive bsettle : bstate → bstate → Prop :=
  | b_hand s k ks w w' : todo s = k :: ks → fed s = false → readers s = w ++ Waiting :: w' →
      bsettle s (mkB ks (fed s) (w ++ Asking k :: w') (entries s) (closed s) (read s) (bcounts s) (returned s) (cancelled s))
  | b_fed s : todo s = [] ∨ cancelled s = true → fed s = false →
      bsettle s (mkB (todo s) true (readers s) (entries s) (closed s) (read s) (bcounts s) (returned s) (cancelled s))
  | b_ask s k e w w' : readers s = w ++ Asking k :: w' → entry_for k e →
      bsettle s (mkB (todo s) (fed s) (w ++ Telling e :: w') (entries s) (closed s) (read s) (bcounts s) (returned s) (cancelled s))
  | b_tell s e w w' : readers s = w ++ Telling e :: w' → length (entries s) < maxEntries →
      bsettle s (mkB (todo s) (fed s) (w ++ Waiting :: w') (entries s ++ [e]) (closed s) (read s) (bcounts s) (returned s) (cancelled s))
  | b_leave s w w' : readers s = w ++ Waiting :: w' → fed s = true →
      bsettle s (mkB (todo s) (fed s) (w ++ Left :: w') (entries s) (closed s) (read s) (bcounts s) (returned s) (cancelled s))
  | b_close s : Forall (eq Left) (readers s) → closed s = false →
      bsettle s (mkB (todo s) (fed s) (readers s) (entries s) true (read s) (bcounts s) (returned s) (cancelled s))
  | b_take s e es : entries s = e :: es → returned s = false →
      bsettle s (mkB (todo s) (fed s) (readers s) es (closed s) (read s ++ [e]) (bcounts_add (bcounts s) (b_Result e)) (returned s) (cancelled s))
  | b_return s : entries s = [] → closed s = true → returned s = false →
      bsettle s (mkB (todo s) (fed s) (readers s) [] (closed s) (read s) (bcounts s) true (cancelled s)).

(** The caller's context ends. *)
Inductive bcancel : bstate → bstate → Prop :=
  | b_cancel s : bcancel s (mkB (todo s) (fed s) (readers s) (entries s) (closed s) (read s) (bcounts s) (returned s) true).

Definition bstep (s s' : bstate) : Prop := bsettle s s' ∨ bcancel s s'.
Definition bstarted : bstate := mkB keys false (replicate concurrency Waiting) [] false [] (λ _, 0) false false.
Definition reading (s : bstate) : Prop := rtc bstep bstarted s.

(** *** Invariant *)

Definition reader_keys (r : reader) : list string := match r with Asking k => [k] | Telling e => [b_Key e] | _ => [] end.

Record binv (s : bstate) : Prop := {
  bi_keys : keys ≡ₚ todo s ++ (readers s ≫= reader_keys) ++ (b_Key <$> entries s) ++ (b_Key <$> read s);
  bi_counts : ∀ r, bcounts s r = length (bfilter (λ e, bool_decide (b_Result e = r)) (read s));
  bi_fed : fed s = true → todo s = [] ∨ cancelled s = true;
  bi_left : Left ∈ readers s → fed s = true;
  bi_closed : closed s = true → Forall (eq Left) (readers s);
  bi_returned : returned s = true → closed s = true ∧ entries s = [];
  bi_some : readers s ≠ []
}.

Lemma entry_key k e : entry_for k e → b_Key e = k.
Proof. intros (target & time & err & found & values & peers & ->). by destruct ring as [[? ?]|]. Qed.

Lemma bstarted_inv : 0 < concurrency → binv bstarted.
Proof.
  intros Hc. split; cbn; try done.
  - assert ((replicate concurrency Waiting) ≫= reader_keys = []) as ->; [|by rewrite app_nil_r].
    clear Hc. induction concurrency as [|n IH]; [done|exact IH].
  - intros Hin%elem_of_replicate. naive_solver.
  - destruct concurrency; [lia|done].
Qed.

Lemma closed_none s w x w' : binv s → readers s = w ++ x :: w' → x ≠ Left → closed s = false ∧ returned s = false.
Proof.
  intros I E Hx. assert (closed s = false) as Hc.
  { destruct (closed s) eqn:Hc; [|done]. pose proof (bi_closed s I Hc) as Hall. rewrite E in Hall. apply Forall_at in Hall. congruence. }
  split; [done|]. destruct (returned s) eqn:Hr; [|done]. destruct (bi_returned s I Hr). congruence.
Qed.

Lemma left_middle w x w' y : Left ∈ w ++ y :: w' → y ≠ Left → Left ∈ w ++ x :: w'.
Proof. rewrite !elem_of_app, !elem_of_cons. naive_solver. Qed.

(** A reader's step: the keys are moved, nothing is closed. *)
Lemma reader_step s w x y w' ks es : binv s → readers s = w ++ x :: w' → x ≠ Left → y ≠ Left →
  todo s ++ reader_keys x ++ (b_Key <$> entries s) ≡ₚ ks ++ reader_keys y ++ (b_Key <$> es) →
  (fed s = true → ks = todo s) →
  binv (mkB ks (fed s) (w ++ y :: w') es (closed s) (read s) (bcounts s) (returned s) (cancelled s)).
Proof.
  intros I E Hx Hy Hk Hf. destruct (closed_none s w x w' I E Hx) as [Hc Hr]. destruct I as [Ik Ic If Il Icl Ir Is]. split; cbn; try done.
  - rewrite Ik, E, !bind_app, !bind_cons.
    trans ((todo s ++ reader_keys x ++ (b_Key <$> entries s)) ++ (w ≫= reader_keys) ++ (w' ≫= reader_keys) ++ (b_Key <$> read s)); [solve_Permutation|].
    rewrite Hk. solve_Permutation.
  - intros Hfd. rewrite (Hf Hfd). by apply If.
  - intros Hin. apply Il. rewrite E. by eapply left_middle.
  - congruence.
  - congruence.
  - by destruct w.
Qed.

Lemma bsettle_inv s s' : binv s → bsettle s s' → binv s'.
Proof.
  intros I. destruct 1 as [s k ks w w' Et Hf E|s Ht Hf|s k e w w' E He|s e w w' E Hlen|s w w' E Hf|s Hall Hc|s e es E Hr|s E Hc Hr].
  - eapply reader_step; [done|done|done|done| |congruence]. cbn. rewrite Et. solve_Permutation.
  - destruct I. by split.
  - eapply reader_step; [done|done|done|done| |done]. cbn. by rewrite (entry_key k e He).
  - eapply reader_step; [done|done|done|done| |done]. cbn. rewrite fmap_app. cbn. solve_Permutation.
  - destruct (closed_none s w _ w' I E ltac:(done)) as [Hc Hr]. destruct I as [Ik Ic If Il Icl Ir Is]. split; cbn; try done; try congruence.
    + rewrite Ik, E, !bind_app, !bind_cons. done.
    + by destruct w.
  - destruct I as [Ik Ic If Il Icl Ir Is]. split; cbn; try done. intros H. by apply Ir in H as [? ?].
  - destruct I as [Ik Ic If Il Icl Ir Is]. split; cbn; try done; [..|congruence].
    + rewrite Ik, E, fmap_cons, fmap_app. cbn. solve_Permutation.
    + intros r. rewrite bfilter_app, length_app, <-Ic. unfold bcounts_add. cbn [bfilter].
      rewrite (bool_decide_ext (r = b_Result e) (b_Result e = r)) by done. destruct (bool_decide _); cbn [length]; lia.
  - destruct I as [Ik Ic If Il Icl Ir Is]. split; cbn; try done. by rewrite E in Ik.
Qed.

Lemma reading_inv s : 0 < concurrency → reading s → binv s.
Proof.
  intros Hc. unfold reading. generalize (bstarted_inv Hc). generalize bstarted. intros s0 H0 Hr.
  induction Hr as [|s1 s2 s3 [Hi|Ho] _ IH]; [done|..]; apply IH; [by eapply bsettle_inv|]. destruct Ho, H0. split; cbn; try done. by right.
Qed.

(** *** Coming to an end *)

Definition reader_left (r : reader) : nat := match r with Left => 0 | Waiting => 1 | Telling _ => 3 | Asking _ => 4 end.
Definition bleft (s : bstate) : nat :=
  4 * length (todo s) + (if fed s then 0 else 1) + sum_list_with reader_left (readers s) + length (entries s) +
  (if closed s then 0 else 1) + (if returned s then 0 else 1).

Lemma bsettle_left s s' : bsettle s s' → bleft s' < bleft s.
Proof.
  destruct 1 as [s k ks w w' Et Hf E|s Ht Hf|s k e w w' E He|s e w w' E Hlen|s w w' E Hf|s Hall Hc|s e es E Hr|s E Hc Hr];
    unfold bleft; cbn; rewrite ?Et, ?E, ?Hf, ?Hc, ?Hr, ?sum_list_with_app, ?length_app; cbn; lia.
Qed.

Lemma bsettle_moves s : binv s → returned s = true ∨ ∃ s', bsettle s s'.
Proof.
  intros I. destruct (returned s) eqn:Hr; [by left|right].
  destruct (entries s) as [|e es] eqn:Ee; [|eexists; by eapply b_take].
  destruct (closed s) eqn:Hc; [eexists; by apply b_return|].
  assert ({Forall (eq Left) (readers s)} + {Exists (λ r, r ≠ Left) (readers s)}) as [Hall|Hex].
  { apply Forall_Exists_dec. intros []; first [by left|by right]. }
  { eexists. by apply b_close. }
  apply Exists_exists in Hex as (x & (w & w' & E)%list_elem_of_split & Hx). destruct x as [|k|e|]; [..|done].
  - destruct (fed s) eqn:Hf; [eexists; by eapply b_leave|]. destruct (todo s) as [|k ks] eqn:Et; eexists; [apply b_fed; by eauto|by eapply b_hand].
  - eexists. eapply b_ask; [done|]. by exists "", 0%Z, None, false, [], (λ _, NoConnection).
  - eexists. eapply b_tell; [done|]. rewrite Ee. unfold maxEntries. cbn. lia.
Qed.

(** A read-back run reads every key once and returns.  From any state it can
    reach, its remaining steps are bounded, some part can go on until it has
    returned, and so it returns; when it has, its counts are those of the
    entries, and, unless it was cancelled, the entries are one for each key. *)
Theorem readback_run_complete s : 0 < concurrency → reading s →
  (∀ n s', nsteps bsettle n s s' → n ≤ bleft s) ∧
  (returned s = true ∨ ∃ s', bsettle s s') ∧
  (returned s = true → (∀ r, bcounts s r = length (bfilter (λ e, bool_decide (b_Result e = r)) (read s))) ∧
    (cancelled s = true ∨ b_Key <$> read s ≡ₚ keys)).
Proof.
  intros Hc I%reading_inv; [|done]. split_and!.
  - intros n s' Hn. assert (n + bleft s' ≤ bleft s); [|lia]. clear I.
    induction Hn as [|n s s1 s2 Hs _ IH]; [lia|]. pose proof (bsettle_left _ _ Hs). lia.
  - by apply bsettle_moves.
  - intros Hr. split; [apply (bi_counts s I)|]. destruct (bi_returned s I Hr) as [Hcl He]. pose proof (bi_closed s I Hcl) as Hall.
    assert (fed s = true) as Hf.
    { apply (bi_left s I). destruct (readers s) as [|x l] eqn:E; [by destruct (bi_some s I)|]. apply Forall_cons in Hall as [<- _]. by left. }
    destruct (bi_fed s I Hf) as [Ht|?]; [right|by left].
    assert (readers s ≫= reader_keys = []) as Hk by (clear - Hall; induction Hall as [|x l <- _ IH]; [done|exact IH]).
    rewrite (bi_keys s I), Ht, Hk, He. done.
Qed.
End run.
