(* ===== verification/Capture.v ===== *)
(** * Capturing a cluster's topology (internal/chaos/topology.go: BuildTopology)

    What kubectl prints for the pods, the nodes and the cluster's ConfigMap and
    what every member answers to [GET /admin/membership], put together into the
    topology that predictions are made from, or refused.

    Shown: a captured topology is that of a healthy and settled cluster and its
    ring is the nodes' ring; and a healthy and settled cluster that the operator
    rendered is captured.  The nodes' answers are those of the admin handler
    (Admin.v), the ConfigMap's text that of the operator (Render.v). *)

From stdpp Require Import gmap strings list sorting pretty.
From Stdlib Require Import ZArith Lia Ascii.
From S2P Require Import Prelude GoLib GoStrings Json HashRing Sha256 Quote Membership Heartbeat Planner Config Admin Render ChaosPredict.

Open Scope nat_scope.

(** ** What is read *)

Definition ZoneLabel : string := "topology.kubernetes.io/zone".

Record MembershipBody := mkBody {
  mb_Epoch : N; mb_Members : gmap string string; mb_Fingerprint : string; mb_Peers : gmap string (bool * bool)
}.
(** An item of a [k8sList] *)
Record k8sItem := mkK8s { k_Name : string; k_Labels : gmap string string; k_NodeName : string; k_Phase : string }.
Record TopologyInputs := mkInputs {
  in_Pods : raw; in_Nodes : raw; in_ConfigMap : raw; Memberships : gmap string raw
}.

Definition dec_arr {A} (dec : json → option A) (j : option json) : option (list A) :=
  match j with None | Some JNull => Some [] | Some (JArr l) => mapM dec l | _ => None end.
Definition dec_strs (j : option json) : option (gmap string string) := dec_map (λ v, dec_str (Some v)) j.

Definition dec_item (j : json) : option k8sItem :=
  m ← dec_obj (Some j); md ← dec_obj (m !! "metadata"); sp ← dec_obj (m !! "spec"); st ← dec_obj (m !! "status");
  name ← dec_str (md !! "name"); labels ← dec_strs (md !! "labels"); node ← dec_str (sp !! "nodeName");
  phase ← dec_str (st !! "phase"); Some (mkK8s name labels node phase).
Definition dec_list (r : raw) : option (list k8sItem) :=
  match r with Text _ => None | Doc j => m ← dec_obj (Some j); dec_arr dec_item (m !! "items") end.
Definition dec_config_map (r : raw) : option (gmap string string) :=
  match r with Text _ => None | Doc j => m ← dec_obj (Some j); dec_strs (m !! "data") end.
Definition dec_seen (j : json) : option (bool * bool) :=
  m ← dec_obj (Some j); a ← dec_bool (m !! "alive"); r ← dec_bool (m !! "reachable"); Some (a, r).
Definition dec_body (r : raw) : option MembershipBody :=
  match r with
  | Text _ => None
  | Doc j =>
      m ← dec_obj (Some j); e ← dec_u64 (m !! "epoch"); ms ← dec_strs (m !! "members"); fp ← dec_str (m !! "fingerprint");
      ps ← dec_map dec_seen (m !! "peers"); Some (mkBody e ms fp ps)
  end.

(** ** Building the topology *)

Inductive member_error :=
  | NoRunningPod (id : string) | NoZoneLabel (id node : string) | NoBody (id : string) | BadBody (id : string)
  | AtEpoch (id : string) (e : N) | OtherMembers (id : string) | OtherFingerprint (id fp : string) | PeerNotSeen (id peer : string).
Inductive capture_error :=
  | BadConfigMap | NoConfigKey | BadConfig | BadPods | BadNodes | NotSettled (errs : list member_error) | BadTopology (e : topology_error).

(** Maps filled by a loop: the last of two items with one name counts. *)
Definition zone_of (nodes : list k8sItem) : gmap string string :=
  fold_left (λ z n, <[k_Name n := default "" (k_Labels n !! ZoneLabel)]> z) nodes ∅.
Definition node_of (pods : list k8sItem) : gmap string string :=
  fold_left (λ z p, if bool_decide (k_Phase p = "Running") then <[k_Name p := k_NodeName p]> z else z) pods ∅.

Definition timing_of (c : Config.Config) : Timing :=
  mkTiming (i_Heartbeat (cfg_Intervals c)) (to_Heartbeat (cfg_Timeouts c)) (Config.MaxMissedHeartbeats c)
    (to_Replication (cfg_Timeouts c)) (to_MaxReconnectBackoff (cfg_Timeouts c)) (i_HintDelivery (cfg_Intervals c))
    (i_AntiEntropy (cfg_Intervals c)).

Section build.
Context `{!Unicode, !Yaml}.

(** [node.Fingerprint] with the factor as it was decoded: an [int] *)
Definition Fingerprint (m : gmap string string) (n : Z) : string :=
  if (n <? 0)%Z then
    hex_encode (sha256 ((sorted_members m ≫= λ p, member_line p.1 p.2) ++
      to_bytes ("n " +:+ pretty n) ++ lf :: to_bytes ("vnodes " +:+ pretty defaultVirtualNodesPerPhysical) ++
      lf :: to_bytes ("scheme " +:+ ringScheme) ++ [lf]))
  else fingerprint m (Z.to_nat n).

Section loop.
Context (c : Config.Config) (nodeOf zoneOf : gmap string string) (bodies : gmap string raw).

Definition cluster_members : gmap string string := MemberAddrs c.
Definition want_fingerprint : string := Fingerprint cluster_members (c_N (cfg_Cluster c)).
Definition pod_zone (id : string) : string := default "" (zoneOf !! default "" (nodeOf !! id)).
Definition member_pod (id : string) : Pod := mkPod id (default "" (cluster_members !! id)) (default "" (nodeOf !! id)) (pod_zone id).

Definition pod_errors (id : string) : list member_error :=
  match nodeOf !! id with
  | None => [NoRunningPod id]
  | Some node => if bool_decide (pod_zone id = "") then [NoZoneLabel id node] else []
  end.

Definition view_errors (id : string) (m : MembershipBody) : list member_error :=
  if negb (bool_decide (mb_Epoch m = c_Epoch (cfg_Cluster c))) then [AtEpoch id (mb_Epoch m)]
  else if negb (bool_decide (mb_Members m = cluster_members)) then [OtherMembers id]
  else if negb (bool_decide (mb_Fingerprint m = want_fingerprint)) then [OtherFingerprint id (mb_Fingerprint m)]
  else [].

Definition seen (m : MembershipBody) (peer : string) : bool :=
  match mb_Peers m !! peer with Some (alive, reachable) => alive && reachable | None => false end.
Definition peer_errors (id : string) (m : MembershipBody) : list member_error :=
  flat_map (λ peer, if bool_decide (peer = id) || seen m peer then [] else [PeerNotSeen id peer]) (sorted_ids cluster_members).

Definition body_errors (id : string) : list member_error :=
  match bodies !! id with
  | None => [NoBody id]
  | Some r => match dec_body r with None => [BadBody id] | Some m => view_errors id m ++ peer_errors id m end
  end.

(** The loop over the members: the pods, and what is wrong with them. *)
Definition capture_errors : list member_error := flat_map (λ id, pod_errors id ++ body_errors id) (sorted_ids cluster_members).
Definition capture_pods : list Pod := map member_pod (sorted_ids cluster_members).
End loop.

Definition BuildTopology (inp : TopologyInputs) : res capture_error Topology :=
  match dec_config_map (in_ConfigMap inp) with
  | None => Err BadConfigMap
  | Some data =>
  match data !! ConfigKey with
  | None => Err NoConfigKey
  | Some text =>
  match decode_config false text with
  | None => Err BadConfig
  | Some c =>
  match dec_list (in_Pods inp) with
  | None => Err BadPods
  | Some pods =>
  match dec_list (in_Nodes inp) with
  | None => Err BadNodes
  | Some nodes =>
      let errs := capture_errors c (node_of pods) (zone_of nodes) (Memberships inp) in
      match errs with
      | [] =>
          match init (c_Epoch (cfg_Cluster c)) (Z.to_nat (c_N (cfg_Cluster c))) (Z.to_nat (c_W (cfg_Cluster c)))
                  (Z.to_nat (c_R (cfg_Cluster c))) (want_fingerprint c) (timing_of c) (capture_pods c (node_of pods) (zone_of nodes)) with
          | Ok t => Ok t
          | Err e => Err (BadTopology e)
          end
      | _ => Err (NotSettled errs)
      end
  end end end end end.
End build.

(** ** Asking for the membership at the start of a run (record.go) *)

Inductive url_answer := BadURL | NoAnswer | Answered (r : response).

(** [FetchMembership]: the answers of the URLs in turn; the first that is a
    membership counts *)
Fixpoint FetchMembership (answers : list url_answer) : option MembershipBody :=
  match answers with
  | [] | BadURL :: _ => None
  | NoAnswer :: rest => FetchMembership rest
  | Answered (status, r) :: rest =>
      match dec_body r with
      | Some m => if (status =? StatusOK)%N then Some m else FetchMembership rest
      | None => FetchMembership rest
      end
  end.
(** [MembershipBody.Targets], in ID order *)
Definition Targets (m : MembershipBody) : list (string * string) := sorted_members (mb_Members m).

(** ** Settled clusters *)

Section settled.
Context `{!Unicode}.
Context (c : Config.Config) (nodeOf zoneOf : gmap string string) (bodies : gmap string raw).

Definition pod_settled (id : string) : Prop := ∃ node, nodeOf !! id = Some node ∧ default "" (zoneOf !! node) ≠ "".
Definition body_settled (id : string) : Prop :=
  ∃ r b, bodies !! id = Some r ∧ dec_body r = Some b ∧ mb_Epoch b = c_Epoch (cfg_Cluster c) ∧
    mb_Members b = MemberAddrs c ∧ mb_Fingerprint b = want_fingerprint c ∧
    ∀ peer, peer ∈ dom (MemberAddrs c) → peer ≠ id → mb_Peers b !! peer = Some (true, true).
(** Every member's pod runs in a zone, and every member reports the epoch,
    members and fingerprint of the ConfigMap and sees every other member. *)
Definition settled : Prop := ∀ id, id ∈ dom (MemberAddrs c) → pod_settled id ∧ body_settled id.

Lemma flat_map_nil {A B} (f : A → list B) l : flat_map f l = [] ↔ ∀ x, x ∈ l → f x = [].
Proof.
  induction l as [|x l IH]; cbn; [set_solver|]. rewrite app_nil, IH. set_solver.
Qed.

Lemma sorted_ids_dom (m : gmap string string) id : id ∈ sorted_ids m ↔ id ∈ dom m.
Proof. by rewrite sorted_ids_elem, elem_of_dom. Qed.

Lemma pod_errors_nil id : pod_errors nodeOf zoneOf id = [] ↔ pod_settled id.
Proof.
  unfold pod_errors, pod_settled, pod_zone. destruct (nodeOf !! id) as [node|]; cbn [default]; [|naive_solver].
  case_bool_decide; naive_solver.
Qed.

Lemma peer_errors_nil id b :
  peer_errors c id b = [] ↔ ∀ peer, peer ∈ dom (MemberAddrs c) → peer ≠ id → mb_Peers b !! peer = Some (true, true).
Proof.
  unfold peer_errors. rewrite flat_map_nil. setoid_rewrite sorted_ids_dom. apply forall_proper. intros peer.
  unfold cluster_members, seen. case_bool_decide as Hp; cbn [orb]; [naive_solver|].
  destruct (mb_Peers b !! peer) as [[[] []]|]; cbn; naive_solver.
Qed.

Lemma view_errors_nil id b : view_errors c id b = [] ↔
  mb_Epoch b = c_Epoch (cfg_Cluster c) ∧ mb_Members b = MemberAddrs c ∧ mb_Fingerprint b = want_fingerprint c.
Proof. unfold view_errors, cluster_members. repeat case_bool_decide; cbn [negb]; naive_solver. Qed.

Lemma body_errors_nil id : body_errors c bodies id = [] ↔ body_settled id.
Proof.
  unfold body_errors, body_settled. destruct (bodies !! id) as [r|]; [|naive_solver].
  destruct (dec_body r) as [b|] eqn:E; [|naive_solver].
  rewrite app_nil, view_errors_nil, peer_errors_nil. naive_solver.
Qed.

Lemma capture_errors_nil : capture_errors c nodeOf zoneOf bodies = [] ↔ settled.
Proof.
  unfold capture_errors, settled. rewrite flat_map_nil. setoid_rewrite sorted_ids_dom.
  by setoid_rewrite app_nil; setoid_rewrite pod_errors_nil; setoid_rewrite body_errors_nil.
Qed.
End settled.

(** Reading a map of what was written, field by field or in part. *)
Lemma dec_map_reads {A B} (dec : json → option B) (enc : A → json) (g : A → B) (m : gmap string A) :
  (∀ x, dec (enc x) = Some (g x)) → dec_map dec (Some (JObj (enc <$> m))) = Some (g <$> m).
Proof.
  intros Hg. unfold dec_map. cbn [dec_obj]. rewrite bool_decide_true.
  - f_equal. apply map_eq. intros k. rewrite lookup_omap, !lookup_fmap. by destruct (m !! k); cbn.
  - intros k v. rewrite lookup_fmap. destruct (m !! k); [|done]. cbn. intros [= <-]. rewrite Hg. by eexists.
Qed.

Lemma dec_seen_enc s : dec_seen (enc_peer s) = Some (Alive s, Reachable s).
Proof. unfold dec_seen, enc_peer. cbn [dec_obj mbind option_bind]. by read_fields. Qed.

(** What a member answers, as it is read here. *)
Lemma dec_body_answer n1 n2 n3 : (epoch (membership n1) < two64)%N →
  dec_body (handleGetMembership (Some (n1, n2, n3))).2 =
    Some (mkBody (epoch (membership n1)) (members (membership n1)) (view_fingerprint (membership n1))
            ((λ s, (Alive s, Reachable s)) <$> PeerStatuses n3)).
Proof.
  intros He. unfold handleGetMembership, writeJSON, dec_body.
  cbn [snd dec_obj mbind option_bind CurrentMembership info_Epoch info_Members info_Fingerprint].
  read_fields. rewrite dec_u64_enc by done. unfold dec_strs. rewrite dec_members_enc. cbn [mbind option_bind dec_str].
  by rewrite (dec_map_reads _ _ _ _ dec_seen_enc).
Qed.

(** ** The topology that is built *)

Section topology.
Context `{!Unicode}.

Lemma Fingerprint_nat m n : (0 ≤ n)%Z → Fingerprint m n = fingerprint m (Z.to_nat n).
Proof. intros Hn. unfold Fingerprint. by rewrite (proj2 (Z.ltb_ge _ _)). Qed.

Lemma Members_list pods (acc : gmap string string) : NoDup (ID <$> pods) →
  fold_left (λ m p, <[ID p := Address p]> m) pods acc = list_to_map ((λ p, (ID p, Address p)) <$> pods) ∪ acc.
Proof.
  revert acc. induction pods as [|p pods IH]; intros acc Hnd; cbn [fold_left]; [cbn; by rewrite (left_id_L ∅ _)|].
  apply NoDup_cons in Hnd as [Hp Hnd]. rewrite IH by done. cbn. rewrite <-insert_union_l, insert_union_r; [done|].
  apply not_elem_of_list_to_map_1. by rewrite <-list_fmap_compose.
Qed.

Lemma Members_perm pods pods' : NoDup (ID <$> pods) → pods ≡ₚ pods' → Members pods = Members pods'.
Proof.
  intros Hnd Hp. unfold Members. rewrite !Members_list by (done || by rewrite <-Hp). rewrite !(right_id_L ∅ _).
  apply list_to_map_proper; [|by apply fmap_Permutation]. by rewrite <-list_fmap_compose.
Qed.

Context (c : Config.Config) (nodeOf zoneOf : gmap string string).

Lemma capture_pods_ids : ID <$> capture_pods c nodeOf zoneOf = sorted_ids (MemberAddrs c).
Proof. unfold capture_pods. rewrite <-list_fmap_compose. apply list_fmap_id. Qed.

Lemma capture_pods_members : Members (capture_pods c nodeOf zoneOf) = MemberAddrs c.
Proof.
  unfold Members. rewrite Members_list by (rewrite capture_pods_ids; apply sorted_ids_nodup).
  rewrite (right_id_L ∅ _). unfold capture_pods. rewrite <-list_fmap_compose. apply sorted_members_map.
Qed.

(** What [init] makes of the captured pods. *)
Lemma init_captured t e n w r fp tm :
  init e n w r fp tm (capture_pods c nodeOf zoneOf) = Ok t →
  t_Epoch t = e ∧ t_N t = n ∧ t_W t = w ∧ t_R t = r ∧ t_Timing t = tm ∧ Members (t_Pods t) = MemberAddrs c ∧
  fp = fingerprint (MemberAddrs c) n ∧ 1 ≤ n ∧ 1 ≤ w ≤ n ∧ 1 ≤ r ≤ n ∧
  NewHashRingFromMembers defaultVirtualNodesPerPhysical (sorted_ids (MemberAddrs c)) = Ok (t_ring t).
Proof.
  unfold init. destruct (_ =? 0); [done|]. destruct (_ || _) eqn:Eq; [done|].
  assert (Members (merge_sort pod_le (capture_pods c nodeOf zoneOf)) = MemberAddrs c) as Hm.
  { rewrite <-capture_pods_members. symmetry. apply Members_perm; [|by rewrite merge_sort_Permutation].
    rewrite capture_pods_ids. apply sorted_ids_nodup. }
  destruct (index_pods _ ∅) as [ids|]; [|done]. rewrite Hm. unfold NewRing. case_bool_decide as Hf; [|done].
  destruct (NewHashRingFromMembers _ _) as [ring|] eqn:Er; [|done]. intros [= <-]. cbn.
  repeat (apply orb_false_iff in Eq as [Eq ?]). repeat match goal with H : (_ <? _) = false |- _ => apply Nat.ltb_ge in H end.
  by split_and!.
Qed.
End topology.

Section capture.
Context `{!Unicode, !Yaml}.

(** A node's view, as [buildView] made it. *)
Definition view_built (n : node) : Prop :=
  buildView (epoch (membership n)) (members (membership n)) (repl n) = Ok (membership n) ∧ (epoch (membership n) < two64)%N.

Lemma BuildTopology_Ok inp t : BuildTopology inp = Ok t →
  ∃ data text c pods nodes, dec_config_map (in_ConfigMap inp) = Some data ∧ data !! ConfigKey = Some text ∧
    decode_config false text = Some c ∧ dec_list (in_Pods inp) = Some pods ∧ dec_list (in_Nodes inp) = Some nodes ∧
    settled c (node_of pods) (zone_of nodes) (Memberships inp) ∧
    init (c_Epoch (cfg_Cluster c)) (Z.to_nat (c_N (cfg_Cluster c))) (Z.to_nat (c_W (cfg_Cluster c)))
      (Z.to_nat (c_R (cfg_Cluster c))) (want_fingerprint c) (timing_of c) (capture_pods c (node_of pods) (zone_of nodes)) = Ok t.
Proof.
  unfold BuildTopology. destruct (dec_config_map _) as [data|] eqn:E1; [|done]. destruct (data !! _) as [text|] eqn:E2; [|done].
  destruct (decode_config _ _) as [c|] eqn:E3; [|done]. destruct (dec_list (in_Pods inp)) as [pods|] eqn:E4; [|done].
  destruct (dec_list (in_Nodes inp)) as [nodes|] eqn:E5; [|done]. cbv zeta.
  destruct (capture_errors _ _ _ _) eqn:E6; [|done]. destruct (init _ _ _ _ _ _ _) as [t'|] eqn:E7; [|done]. intros [= <-].
  exists data, text, c, pods, nodes. split_and!; try done. by apply capture_errors_nil.
Qed.

(** What a member of a captured topology holds. *)
Lemma captured_member c t nodeOf zoneOf bodies tm id n1 n2 n3 :
  settled c nodeOf zoneOf bodies → id ∈ dom (MemberAddrs c) →
  init (c_Epoch (cfg_Cluster c)) (Z.to_nat (c_N (cfg_Cluster c))) (Z.to_nat (c_W (cfg_Cluster c))) (Z.to_nat (c_R (cfg_Cluster c)))
    (want_fingerprint c) tm (capture_pods c nodeOf zoneOf) = Ok t →
  bodies !! id = Some (handleGetMembership (Some (n1, n2, n3))).2 → view_built n1 →
  epoch (membership n1) = t_Epoch t ∧ members (membership n1) = Members (t_Pods t) ∧ view_ring (membership n1) = t_ring t ∧
  (∀ peer, peer ∈ dom (Members (t_Pods t)) → peer ≠ id →
     ∃ s, PeerStatuses n3 !! peer = Some s ∧ Alive s = true ∧ Reachable s = true) ∧
  (repl n1 = t_N t ∨ fingerprint_text (members (membership n1)) (repl n1) ≠ fingerprint_text (Members (t_Pods t)) (t_N t) ∧
     sha256 (fingerprint_text (members (membership n1)) (repl n1)) = sha256 (fingerprint_text (Members (t_Pods t)) (t_N t))).
Proof.
  intros Hs Hid (He & Hn & _ & _ & _ & Hm & Hf & _ & _ & _ & Hr)%init_captured Hb [Hv Hfits]. rewrite Hm.
  destruct (Hs id Hid) as [_ (r & b & Hr' & Hd & Hbe & Hbm & Hbf & Hp)]. rewrite Hb in Hr'. apply (inj Some) in Hr' as <-.
  rewrite dec_body_answer in Hd by done. injection Hd as <-. cbn [mb_Epoch mb_Members mb_Fingerprint mb_Peers] in *.
  destruct (buildView_Ok _ _ _ _ Hv) as (_ & _ & Hvf & Hvr). split_and!.
  - by rewrite Hbe, He.
  - done.
  - rewrite Hbm, Hr in Hvr. by injection Hvr.
  - intros peer Hin Hne. specialize (Hp peer Hin Hne). rewrite lookup_fmap in Hp.
    destruct (PeerStatuses n3 !! peer) as [s|]; [|done]. injection Hp as Ha Hre. by exists s.
  - rewrite Hbf, Hf, Hbm, <-Hn in Hvf. apply hex_encode_inj in Hvf. rewrite Hbm.
    destruct (decide (fingerprint_text (MemberAddrs c) (repl n1) = fingerprint_text (MemberAddrs c) (t_N t))) as [Ht|Hne].
    + left. by apply fingerprint_text_inj in Ht as [_ ?].
    + by right.
Qed.

(** C37: what is captured is the cluster.  If [BuildTopology] returns a
    topology, its epoch, quorums, members and timings are those of the
    ConfigMap, its quorums are proper, every member's pod runs in a zone, and
    every member that answered from its node's state holds that epoch and those
    members, sees every other member alive and reachable, and places every key
    with the very ring the topology predicts with, so the topology's replicas
    of a key are that node's, unless two different texts collide under
    SHA-256. *)
Theorem captured_topology_is_the_clusters inp t : BuildTopology inp = Ok t →
  ∃ data text c pods nodes, dec_config_map (in_ConfigMap inp) = Some data ∧ data !! ConfigKey = Some text ∧
    decode_config false text = Some c ∧ dec_list (in_Pods inp) = Some pods ∧ dec_list (in_Nodes inp) = Some nodes ∧
    t_Epoch t = c_Epoch (cfg_Cluster c) ∧ Z.of_nat (t_N t) = c_N (cfg_Cluster c) ∧ Z.of_nat (t_W t) = c_W (cfg_Cluster c) ∧
    Z.of_nat (t_R t) = c_R (cfg_Cluster c) ∧ 1 ≤ t_W t ≤ t_N t ∧ 1 ≤ t_R t ≤ t_N t ∧
    Members (t_Pods t) = MemberAddrs c ∧ t_Timing t = timing_of c ∧
    ∀ id, id ∈ dom (Members (t_Pods t)) →
      (∃ k, node_of pods !! id = Some k ∧ default "" (zone_of nodes !! k) ≠ "") ∧
      ∀ n1 n2 n3, Memberships inp !! id = Some (handleGetMembership (Some (n1, n2, n3))).2 → view_built n1 →
        epoch (membership n1) = t_Epoch t ∧ members (membership n1) = Members (t_Pods t) ∧
        (∀ peer, peer ∈ dom (Members (t_Pods t)) → peer ≠ id →
           ∃ s, PeerStatuses n3 !! peer = Some s ∧ Alive s = true ∧ Reachable s = true) ∧
        ((∀ key, Replicas t key = GetPreferenceList (view_ring (membership n1)) key (repl n1)) ∨
         fingerprint_text (members (membership n1)) (repl n1) ≠ fingerprint_text (Members (t_Pods t)) (t_N t) ∧
         sha256 (fingerprint_text (members (membership n1)) (repl n1)) = sha256 (fingerprint_text (Members (t_Pods t)) (t_N t))).
Proof.
  intros (data & text & c & pods & nodes & H1 & H2 & H3 & H4 & H5 & Hs & Hi)%BuildTopology_Ok.
  exists data, text, c, pods, nodes. pose proof (init_captured _ _ _ _ _ _ _ _ _ _ Hi) as (He & Hn & Hw & Hr & Ht & Hm & _ & Hn1 & Hw1 & Hr1 & _).
  split_and!; try done; try lia. rewrite Hm. intros id Hid. split; [by apply Hs|]. intros n1 n2 n3 Hb Hv.
  destruct (captured_member c t _ _ _ _ id n1 n2 n3 Hs Hid Hi Hb Hv) as (Me & Mm & Mr & Mp & Mn). rewrite Hm in *.
  split_and!; try done. destruct Mn as [Mn|Mn]; [left|by right]. intros key. unfold Replicas. by rewrite Mr, Mn.
Qed.

(** *** Acceptance *)

Lemma index_pods_accepts pods (m : gmap string Pod) :
  NoDup (ID <$> pods) → (∀ p, p ∈ pods → pod_incomplete p = false ∧ m !! ID p = None) → ∃ ids, index_pods pods m = Ok ids.
Proof.
  revert m. induction pods as [|p pods IH]; intros m Hnd Hall; cbn [index_pods]; [by eexists|].
  apply NoDup_cons in Hnd as [Hp Hnd]. destruct (Hall p) as [-> ->]; [by left|]. apply IH; [done|].
  intros q Hq. destruct (Hall q) as [Hi Hl]; [by right|]. split; [done|]. rewrite lookup_insert_ne; [done|].
  intros He. apply Hp. rewrite He. by apply list_elem_of_fmap_2.
Qed.

Lemma init_accepts c nodeOf zoneOf bodies e n w r tm :
  settled c nodeOf zoneOf bodies → 1 ≤ w ≤ n → 1 ≤ r ≤ n → n ≤ size (MemberAddrs c) →
  map_Forall (λ id a, id ≠ "" ∧ a ≠ "") (MemberAddrs c) →
  ∃ t, init e n w r (fingerprint (MemberAddrs c) n) tm (capture_pods c nodeOf zoneOf) = Ok t.
Proof.
  intros Hs Hw Hr Hn Hne. unfold init.
  assert (length (capture_pods c nodeOf zoneOf) = size (MemberAddrs c)) as Hlen.
  { unfold capture_pods. rewrite length_map. unfold cluster_members, sorted_ids. rewrite sort_strings_perm. apply size_dom. }
  rewrite (proj2 (Nat.eqb_neq _ _)) by lia. rewrite !(proj2 (Nat.ltb_ge _ _)) by lia. cbn [orb].
  set (pods := merge_sort _ _). assert (pods ≡ₚ capture_pods c nodeOf zoneOf) as Hp by apply merge_sort_Permutation.
  assert (NoDup (ID <$> pods)) as Hnd by (rewrite Hp, capture_pods_ids; apply sorted_ids_nodup).
  destruct (index_pods_accepts pods ∅) as [ids ->]; [done|..].
  { intros p Hin. split; [|apply lookup_empty]. rewrite Hp in Hin. unfold capture_pods in Hin.
    apply list_elem_of_fmap in Hin as (id & -> & Hid%sorted_ids_dom). destruct (Hs id Hid) as [(k & Hk & Hz) _].
    unfold cluster_members in Hid. apply elem_of_dom in Hid as [a Ha]. destruct (Hne id a Ha) as [Hid Haddr].
    unfold pod_incomplete, member_pod, pod_zone, cluster_members. cbn [ID Address Zone]. rewrite Ha, Hk. cbn [default].
    by rewrite !bool_decide_false. }
  assert (Members pods = MemberAddrs c) as -> by (rewrite (Members_perm pods _ Hnd Hp); apply capture_pods_members).
  unfold NewRing. rewrite bool_decide_true by done. rewrite NewHashRingFromMembers_ok; [by eexists|apply sorted_ids_nodup|].
  rewrite sorted_ids_elem. intros [a Ha]. by destruct (Hne "" a Ha).
Qed.

(** The configuration of the rendered file. *)
Lemma rendered_addrs c e m ords : ordinals c m = Some ords → MemberAddrs (rendered_config c e ords) = m.
Proof.
  intros (Hnd & Hm & _)%ordinals_members. unfold MemberAddrs. cbn [cfg_Cluster rendered_config c_Members]. rewrite MemberAddrs_map.
  - rewrite (right_id_L ∅ _), Hm. f_equal. unfold rendered_members. by rewrite <-list_fmap_compose.
  - unfold rendered_members. rewrite <-list_fmap_compose. apply NoDup_fmap_2; [|done]. intros i j Hij. by apply (inj (MemberID (kc c))).
Qed.

Lemma rendered_named c m ords : ordinals c m = Some ords → map_Forall (λ id a, id ≠ "" ∧ a ≠ "") m ∧ spec_N (kc c) ≤ size m.
Proof.
  intros (Hnd & Hm & Hl)%ordinals_members.
  assert (NoDup (map (λ i, (MemberID (kc c) i, MemberAddress (kc c) i)) ords).*1) as Hids.
  { rewrite <-list_fmap_compose. apply NoDup_fmap_2; [|done]. intros i j Hij. by apply (inj (MemberID (kc c))). }
  split.
  - intros id a Ha. rewrite Hm in Ha. apply elem_of_list_to_map_2, list_elem_of_fmap in Ha as (i & [= -> ->] & _).
    unfold MemberAddress, PodHost, MemberID. destruct (Name (kc c)); by split.
  - rewrite <-length_map_to_list, Hm, map_to_list_to_map by done. by rewrite length_map.
Qed.

(** A cluster the operator rendered, healthy and settled, and what is read of
    it. *)
Record healthy (c : kvcluster) (e : N) (m : gmap string string) (ords : list nat) (inp : TopologyInputs) (pods nodes : list k8sItem) : Prop := {
  h_admitted : spec_admitted c;
  h_epoch : (e < two64)%N;
  h_members : ordinals c m = Some ords;
  h_yaml : reads_block (config_doc c e ords);
  h_config : ∃ cm o, ConfigMap c e m = Some cm ∧ in_ConfigMap inp = Doc (JObj o) ∧ o !! "data" = Some (enc_members (cm_Data cm));
  h_lists : dec_list (in_Pods inp) = Some pods ∧ dec_list (in_Nodes inp) = Some nodes;
  h_pods : ∀ id, id ∈ dom m → ∃ k, node_of pods !! id = Some k ∧ default "" (zone_of nodes !! k) ≠ "";
  h_answers : ∀ id, id ∈ dom m → ∃ n1 n2 n3, Memberships inp !! id = Some (handleGetMembership (Some (n1, n2, n3))).2 ∧
    buildView e m (spec_N (kc c)) = Ok (membership n1) ∧
    ∀ peer, peer ∈ dom m → peer ≠ id → ∃ s, PeerStatuses n3 !! peer = Some s ∧ Alive s = true ∧ Reachable s = true
}.

Lemma healthy_captured `{!YamlSpec} c e m ords inp pods nodes :
  healthy c e m ords inp pods nodes →
  ∃ t, BuildTopology inp = Ok t ∧ t_Epoch t = e ∧ t_N t = spec_N (kc c) ∧ t_W t = spec_W c ∧ t_R t = spec_R c ∧
    Members (t_Pods t) = m ∧ ∀ v, buildView e m (spec_N (kc c)) = Ok v → t_ring t = view_ring v.
Proof.
  intros [Hadm He Ho Hread (cm & o & Hcm & Hin & Hdata) [Hpods Hnodes] Hzones Hall]. set (cf := rendered_config c e ords).
  assert (MemberAddrs cf = m) as Hm by by apply rendered_addrs. destruct (rendered_named c m ords Ho) as [Hne Hsize].
  assert (cm_Data cm !! ConfigKey = Some (text (config_lines c e ords))) as Htext.
  { unfold ConfigMap in Hcm. rewrite Ho in Hcm. injection Hcm as <-. cbn [cm_Data]. by rewrite lookup_singleton_eq. }
  assert (want_fingerprint cf = fingerprint m (spec_N (kc c))) as Hfp.
  { unfold want_fingerprint, cluster_members. rewrite Hm. cbn [cf cfg_Cluster rendered_config c_N].
    rewrite Fingerprint_nat by lia. by rewrite Nat2Z.id. }
  assert (settled cf (node_of pods) (zone_of nodes) (Memberships inp)) as Hset.
  { intros id Hid. rewrite Hm in Hid. destruct (Hall id Hid) as (n1 & n2 & n3 & Hb & Hv & Hs). split; [by apply Hzones|].
    destruct (buildView_Ok _ _ _ _ Hv) as (Hve & Hvm & Hvf & _). eexists _, _. split; [exact Hb|]. split; [apply dec_body_answer; by rewrite Hve|].
    cbn [mb_Epoch mb_Members mb_Fingerprint mb_Peers]. rewrite Hm, Hfp. split_and!; try done. intros peer Hpeer Hneq.
    destruct (Hs peer Hpeer Hneq) as (s & Hl & Ha & Hr). by rewrite lookup_fmap, Hl; cbn; rewrite Ha, Hr. }
  destruct Hadm as (Hw & Hr & Hn & Hname).
  destruct (init_accepts cf (node_of pods) (zone_of nodes) _ e (spec_N (kc c)) (spec_W c) (spec_R c) (timing_of cf) Hset Hw Hr) as [t Ht];
    [by rewrite Hm..|]. rewrite Hm in Ht.
  pose proof (init_captured _ _ _ _ _ _ _ _ _ _ Ht) as (Te & Tn & Tw & Tr & _ & Tm & _ & _ & _ & _ & Tring).
  exists t. split_and!; try done; [|by rewrite Tm|].
  - unfold BuildTopology. rewrite Hin. cbn [dec_config_map dec_obj mbind option_bind]. unfold dec_strs. rewrite Hdata, dec_members_enc, Htext.
    rewrite (decode_rendered c e ords) by done. fold cf. rewrite Hpods, Hnodes. cbv zeta. rewrite (proj2 (capture_errors_nil _ _ _ _) Hset).
    rewrite Hfp. cbn [cf cfg_Cluster rendered_config c_Epoch c_N c_W c_R]. rewrite !Nat2Z.id. fold cf. by rewrite Ht.
  - intros v (_ & _ & _ & Hvr)%buildView_Ok. rewrite Hm, Hvr in Tring. by injection Tring.
Qed.

(** C38: a healthy and settled cluster is captured.  For a spec the API server
    admits and the ConfigMap the operator renders for an epoch and members: if
    every member's pod runs on a node with a zone, and every member answers
    [GET /admin/membership] from a node whose view was built for that epoch and
    those members with the spec's N and which sees every other member alive and
    reachable, then [BuildTopology] succeeds, with the spec's quorums, these
    members and the ring of every member's view. *)
Theorem settled_cluster_is_captured `{!YamlSpec} c e m ords inp pods nodes :
  healthy c e m ords inp pods nodes →
  ∃ t, BuildTopology inp = Ok t ∧ t_Epoch t = e ∧ t_N t = spec_N (kc c) ∧ t_W t = spec_W c ∧ t_R t = spec_R c ∧
    Members (t_Pods t) = m ∧ ∀ v, buildView e m (spec_N (kc c)) = Ok v → t_ring t = view_ring v.
Proof. apply healthy_captured. Qed.
End capture.

(** ** A cluster of three *)

Section witnesses.
#[local] Existing Instance w_yaml.
#[local] Existing Instance w_yaml_spec.
#[local] Existing Instance ascii_print.

Definition w_ids : list string := ["kv-0"; "kv-1"; "kv-2"].
Definition w_pod_json (name node : string) : json :=
  JObj {["metadata" := JObj {["name" := JStr name]}; "spec" := JObj {["nodeName" := JStr node]}; "status" := JObj {["phase" := JStr "Running"]}]}.
Definition w_node_json (name zone : string) : json :=
  JObj {["metadata" := JObj {["name" := JStr name; "labels" := JObj {[ZoneLabel := JStr zone]}]}]}.
Definition w_items (l : list json) : raw := Doc (JObj {["items" := JArr l]}).

(** A member that sees the others. *)
Definition w_node (v : view) (id : string) : node :=
  set_health (newNode id "" 3 3 v v no_file no_file) (list_to_map ((λ p, (p, mkHealth 0 false 4 true)) <$> w_ids)).
Definition w_inputs (v : view) (cm : ConfigMapObject) : TopologyInputs :=
  mkInputs (w_items (map (λ id, w_pod_json id ("node-" +:+ id)) w_ids)) (w_items (map (λ id, w_node_json ("node-" +:+ id) ("zone-" +:+ id)) w_ids))
    (Doc (JObj {["data" := enc_members (cm_Data cm)]}))
    (list_to_map ((λ id, (id, (handleGetMembership (Some (w_node v id, w_node v id, w_node v id))).2)) <$> w_ids)).

Lemma w_dom id : id ∈ dom Render.w_members → id ∈ w_ids.
Proof.
  assert (dom Render.w_members = list_to_set w_ids) as -> by (vm_compute; reflexivity). by rewrite elem_of_list_to_set.
Qed.

(** A property of each of the three. *)
Ltac each_id H := apply w_dom in H; unfold w_ids in H; rewrite !elem_of_cons, elem_of_nil in H; destruct H as [->|[->|[->|[]]]].

Lemma w_sees v id peer : members v = Render.w_members → peer ∈ dom Render.w_members → peer ≠ id →
  PeerStatuses (w_node v id) !! peer = Some (mkPeerStatus true 4 true).
Proof.
  intros Hm Hp Hne. unfold PeerStatuses. rewrite map_lookup_imap. change (membership (w_node v id)) with v. rewrite Hm.
  apply elem_of_dom in Hp as Ha. destruct Ha as [a ->]. cbn [mbind option_bind].
  change (node_ID (w_node v id)) with id. rewrite bool_decide_false by done. each_id Hp; reflexivity.
Qed.

Lemma w_healthy : ∃ v cm, buildView 4 Render.w_members 3 = Ok v ∧ members v = Render.w_members ∧
  healthy w_kv 4 Render.w_members [0; 1; 2] (w_inputs v cm)
    (map (λ id, mkK8s id ∅ ("node-" +:+ id) "Running") w_ids)
    (map (λ id, mkK8s ("node-" +:+ id) {[ZoneLabel := "zone-" +:+ id]} "" "") w_ids).
Proof.
  assert (validateMembers Render.w_members 3 = None) as Hval by (vm_compute; reflexivity).
  destruct (buildView_valid 4 _ _ Hval) as [v Hv]. destruct (buildView_Ok _ _ _ _ Hv) as (_ & Hm & _).
  assert (ordinals w_kv Render.w_members = Some [0; 1; 2]) as Ho by (vm_compute; reflexivity).
  assert (is_Some (ConfigMap w_kv 4 Render.w_members)) as [cm Hcm] by (unfold ConfigMap; rewrite Ho; by eexists).
  exists v, cm. split; [exact Hv|]. split; [exact Hm|]. split.
  - split_and!; vm_compute; first [lia | discriminate | reflexivity].
  - reflexivity.
  - exact Ho.
  - unfold reads_block, yaml_parse, w_yaml. rewrite bool_decide_true; reflexivity.
  - exists cm. eexists. split; [exact Hcm|]. split; [reflexivity|]. apply lookup_singleton_eq.
  - split; vm_compute; reflexivity.
  - intros id Hid. each_id Hid; eexists; (split; [vm_compute; reflexivity|vm_compute; discriminate]).
  - intros id Hid. exists (w_node v id), (w_node v id), (w_node v id). split; [each_id Hid; reflexivity|].
    split; [exact Hv|]. intros peer Hp Hne. exists (mkPeerStatus true 4 true). split; [exact (w_sees v id peer Hm Hp Hne)|split; reflexivity].
Qed.

Lemma settled_cluster_is_captured_witness : ∃ inp t, BuildTopology inp = Ok t ∧ t_N t = 3 ∧ Members (t_Pods t) = Render.w_members.
Proof.
  destruct w_healthy as (v & cm & Hv & _ & Hh). exists (w_inputs v cm).
  destruct (settled_cluster_is_captured _ _ _ _ _ _ _ Hh) as (t & Ht & _ & Hn & _ & _ & Hm & _). exists t. split; [exact Ht|]. split; [exact Hn|exact Hm].
Defined.

Lemma captured_topology_is_the_clusters_witness :
  ∃ inp t n, BuildTopology inp = Ok t ∧ members (membership n) = Members (t_Pods t) ∧ t_Epoch t = epoch (membership n).
Proof.
  destruct w_healthy as (v & cm & Hv & Hvm & Hh).
  destruct (healthy_captured _ _ _ _ _ _ _ Hh) as (t & Ht & _ & _ & _ & _ & Hm & _).
  destruct (captured_topology_is_the_clusters (w_inputs v cm) t Ht) as (data & text & c & pods & nodes & _ & _ & _ & _ & _ & _ & _ & _ & _ & _ & _ & _ & _ & Hid).
  exists (w_inputs v cm), t, (w_node v "kv-0"). split; [exact Ht|].
  destruct (Hid "kv-0") as [_ Hmem].
  { rewrite Hm. apply elem_of_dom. eexists. vm_compute. reflexivity. }
  destruct (Hmem (w_node v "kv-0") (w_node v "kv-0") (w_node v "kv-0")) as (He & Hms & _); [reflexivity| |split; [exact Hms|symmetry; exact He]].
  destruct (buildView_Ok _ _ _ _ Hv) as (Hve & _). unfold view_built. change (membership (w_node v "kv-0")) with v.
  change (repl (w_node v "kv-0")) with 3. rewrite Hvm, Hve. split; [exact Hv|reflexivity].
Defined.
End witnesses.
