(* ===== verification/Stats.v ===== *)
(** * What a node reports about itself (internal/node/stats.go)

    The counts of peers that [Stats] takes from the heartbeat state, and whether
    the node has stopped accepting writes.  The other fields are copies of
    counters that the parts they count keep.

    Shown: the counts are those of the statuses the admin API lists. *)

From stdpp Require Import gmap strings list.
From Stdlib Require Import ZArith Lia.
From S2P Require Import Prelude GoLib Membership Heartbeat.

Open Scope nat_scope.

Record PeerCounts := mkCounts { Peers : nat; PeersAlive : nat; PeersReachable : nat }.

(** One turn of the loop. *)
Definition count_peer (n : node) (s : PeerCounts) (id : string) : PeerCounts :=
  if bool_decide (id = node_ID n) then s
  else
    let h := health (hs n) !! id in
    mkCounts (S (Peers s))
      (match h with None => S (PeersAlive s) | Some h => if dead h then PeersAlive s else S (PeersAlive s) end)
      (match h with Some h => if reachable h then S (PeersReachable s) else PeersReachable s | None => PeersReachable s end).

(** [Stats]: its epoch, whether the node is a member, the counts, with the map
    of members iterated in some order, and the handoff *)
Record NodeStats := mkStats { st_Epoch : N; st_Member : bool; st_Peers : PeerCounts; st_Handoff : HandoffStatus }.
Definition Stats (order : gset string → list string) (n : node) : NodeStats :=
  let v := membership n in
  mkStats (epoch v) (IsMember n) (fold_left (count_peer n) (order (dom (members v))) (mkCounts 0 0 0)) (handoffStatus (ho n)).

(** [WritesHalted] of the node, from its two engines *)
Definition WritesHalted (engine_halted hints_halted : bool) : bool := engine_halted || hints_halted.

Definition listed (n : node) (p : PeerStatus → bool) : nat := size (filter (λ x, p x.2 = true) (PeerStatuses n)).

Lemma count_loop n l s :
  let peers := bfilter (λ id, negb (bool_decide (id = node_ID n))) l in
  fold_left (count_peer n) l s =
  mkCounts (Peers s + length peers)
    (PeersAlive s + length (bfilter (λ id, Alive (status_of (health (hs n) !! id))) peers))
    (PeersReachable s + length (bfilter (λ id, Reachable (status_of (health (hs n) !! id))) peers)).
Proof.
  cbv zeta. revert s. induction l as [|id l IH]; intros s; cbn [fold_left bfilter]; [destruct s; cbn; by rewrite !Nat.add_0_r|].
  rewrite IH. unfold count_peer. case_bool_decide; cbn [negb]; [done|]. cbn [bfilter Peers PeersAlive PeersReachable].
  destruct (health (hs n) !! id) as [h|]; cbn [status_of Alive Reachable]; [destruct (dead h), (reachable h)|]; cbn [negb length]; f_equal; lia.
Qed.

(** Statuses that satisfy [p] are those of the members but the node itself. *)
Lemma listed_members n (p : PeerStatus → bool) l : l ≡ₚ elements (dom (members (membership n))) →
  listed n p = length (bfilter (λ id, p (status_of (health (hs n) !! id))) (bfilter (λ id, negb (bool_decide (id = node_ID n))) l)).
Proof.
  intros Hl. rewrite bfilter_bfilter. set (sel := bfilter _ _).
  assert (NoDup sel) as Hn by (eapply sublist_NoDup; [|apply bfilter_sublist]; rewrite Hl; apply NoDup_elements).
  unfold listed. rewrite <-size_dom. assert (dom (filter (λ x, p x.2 = true) (PeerStatuses n)) = list_to_set sel) as ->.
  2: by apply size_list_to_set.
  apply set_eq. intros id. rewrite elem_of_dom, elem_of_list_to_set. unfold sel. rewrite elem_of_bfilter, Hl, elem_of_elements, elem_of_dom.
  rewrite map_lookup_filter. unfold PeerStatuses. rewrite map_lookup_imap.
  destruct (members (membership n) !! id) as [a|]; cbn; [|split; [by intros []|by intros [_ []]]].
  case_bool_decide; cbn [negb andb]; [split; [by intros []|by intros []]|].
  cbn [mbind option_bind]. destruct (p (status_of _)) eqn:Ep.
  - rewrite option_guard_True by done. split; [by eauto|by eauto].
  - rewrite option_guard_False by congruence. split; [by intros []|by intros []].
Qed.

(** What [Stats] counts is what [PeerStatuses] lists: as many peers, as many of
    them alive, as many reachable, whatever the order of the map. *)
Theorem stats_count_statuses order n : (∀ s, order s ≡ₚ elements s) →
  let c := st_Peers (Stats order n) in
  Peers c = size (PeerStatuses n) ∧ PeersAlive c = listed n Alive ∧ PeersReachable c = listed n Reachable.
Proof.
  intros Ho. cbv zeta. unfold Stats. cbn [st_Peers]. rewrite count_loop. cbn [Peers PeersAlive PeersReachable Nat.add].
  rewrite !(listed_members n _ (order (dom (members (membership n))))) by apply Ho. split_and!; try done.
  assert (size (PeerStatuses n) = listed n (λ _, true)) as ->.
  { unfold listed. f_equal. symmetry. apply map_filter_id. by intros. }
  rewrite (listed_members n _ (order (dom (members (membership n))))) by apply Ho. by rewrite (bfilter_all (λ _, true)).
Qed.
